(* ===== verification/_CoqProject ===== *)
-Q . S2P
Prelude.v
Outcome.v
MinHeap.v
MessageQueue.v
ObjectContainer.v
Packet.v
Util.v
TopK.v
SocketEvent.v
Client.v
Codec.v
LuaValue.v
Serialize.v
Protocol.v
ProtocolContext.v
ProtocolParser.v
ProtocolPrint.v
Itoa.v
Dtoa.v
Strtod.v
Redis.v
Ikcp.v
IkcpEndpoint.v
IkcpNet.v
List.v
Float32.v
Pathfinder.v
PathfinderFind.v
PathfinderCreate.v
PathfinderRay.v
Bson.v
BsonWrite.v
BsonRead.v
BsonGrammar.v
BsonReplace.v
Mongo.v
WordFilter.v
