(* ===== verification/Prelude.v ===== *)
(** * event.lua: a verification of its C core

    event.lua is a server framework for games: Lua scripts that run on an event
    loop, with the parts that must be fast or that talk to the system written in C
    (src/luaclib). A process of it is a gate that accepts clients and cuts their
    streams into packets, workers that exchange messages through queues, and
    codecs for what is sent to clients, to other processes and to databases. This
    development translates the C parts by hand into executable definitions and
    proves what they promise.

    ** How C is modelled

    - Prelude.v: integers are [Z] and every conversion to a width is written out
      ([u8] ... [s64]); arrays are lists read and written through [aget] and
      [aset] at an index in [Z], which give [None] outside the array; bytes are
      coqutil's.
    - Outcome.v: a C function is a computation in the monad [M], which returns,
      raises a Lua error, or faults (failed assertion, NULL, access out of
      bounds, use of freed memory, signed overflow). [wp] is total correctness:
      a theorem with [wp] or with a [Done] outcome also says that no fault
      occurs and that every loop ends.
    - Codec.v: the combinators in which encoders and decoders are verified.
    - LuaValue.v: Lua values as the C API shows them and as it builds them.
    - Pointers are keys of a heap (SocketEvent.v, Client.v), indices where the
      code allocates one array (ObjectContainer.v, MinHeap.v), or list positions
      where the code only walks a chain that it owns (Serialize.v, Redis.v).

    ** The parts

    - MinHeap.v, minheap.c: the intrusive binary heap. Each operation keeps
      shape and order and changes the set of elements as specified; deleting an
      element and pushing it again is shown to crash.
    - MessageQueue.v, message_queue.c: the double-buffered queue between
      threads; a refinement to a list for sequential use, and a step relation
      for one reader and any number of writers with its safety and progress.
    - ObjectContainer.v, object_container.c: refinement to a map from ids.
    - Packet.v, common.c and lua-util.c (checksum, packet and rpc framing):
      the sender's half of the client protocol.
    - SocketEvent.v, socket_event.c and the buffers it uses: both byte streams
      of a session, what reading, writing and freeing do to them.
    - Client.v, lua-client.c: the client manager, over the interface
      [SessionLaws], which SocketEvent.v satisfies, and the container. Composed
      with Packet.v it gives the end-to-end theorem [packets_delivered].
    - Util.v and TopK.v, lua-util.c: hexadecimal text, rc4, authcode; selection
      of the first K elements.
    - Serialize.v, lua-serialize.c: packing Lua values between workers.
    - Protocol.v and ProtocolContext.v, lua-protocol.c: typed messages and the
      descriptions they follow.
    - ProtocolParser.v and ProtocolPrint.v, lua-protocol-parser.c: the text of
      such descriptions. ProtocolParser.v is the code, with its hash tables and
      its behaviour on any text; ProtocolPrint.v writes descriptions and shows
      that they are read back.
    - Itoa.v and Dtoa.v, convert/milo: decimal text of integers and doubles.
    - Strtod.v and Redis.v, lua-redis.c: the redis client, which writes numbers
      with Itoa.v and Dtoa.v and reads them with strtod.
    - Ikcp.v, IkcpEndpoint.v and IkcpNet.v, ikcp.c and lua-ikcp.c: reliable
      messages over datagrams. Ikcp.v is the code, IkcpEndpoint.v what each call
      keeps true of one endpoint, IkcpNet.v two endpoints and a network that
      loses, repeats and reorders.
    - List.v, list.h: intrusive lists. Float32.v: single-precision arithmetic.
    - Pathfinder.v, PathfinderFind.v, PathfinderCreate.v and PathfinderRay.v,
      pathfinder.c and lua-pathfinder.c: the search on a grid and its rays, over
      the heap and the lists. Pathfinder.v is the code, the others its proofs.
    - Bson.v, BsonWrite.v, BsonRead.v, BsonGrammar.v and BsonReplace.v,
      lua-bson.c: documents of mongo. Bson.v is the code; the others verify the
      encoder with its check of UTF-8, the decoder on what the encoder writes,
      the decoder on any block against a grammar, and the replacement of fields
      in a block.
    - Mongo.v, lua-mongo.c: the requests and replies around those documents.
    - WordFilter.v, lua-filter0.c: a trie of words and the scan of a text.

    ** What the theorems show

    - End to end: packed messages of up to 65527 bytes reach a callback once,
      unchanged and in order however the stream is cut (Client.v); serialized values, typed messages and redis
      commands come back as they were (Serialize.v, Protocol.v, Redis.v);
      replies of redis are delivered exactly (Redis.v); a KCP endpoint receives
      a prefix of what the other has sent, for every schedule of calls and every
      behaviour of the network, and nothing acknowledged is lost (IkcpNet.v);
      documents decode to the table they were made from, also after a field has
      been replaced (BsonRead.v, BsonReplace.v), and so do those of a reply
      (Mongo.v); the text of a description is read into its protocols
      (ProtocolPrint.v).
    - Search: a path is found exactly if there is one, and it is a path; a ray
      looks at cells that are less than one cell from the exact line, in spite of
      the rounding, and stops at the first that is not movable
      (PathfinderCreate.v, PathfinderRay.v, with the errors of single precision
      in Float32.v); the scan for words refuses only texts that contain one, and
      those in which one without separators is followed by the end of its match
      (WordFilter.v).
    - Refinement: queue to list, container to map, heap to a multiset with a
      minimum, session to two streams.
    - Safety on any input: the decoders of Serialize.v and Protocol.v never
      leave their buffer and always end; neither does the parser of descriptions
      on a text without imports whose names are short, but for the bytes that
      memcmp is asked for behind a shorter name. The C standard does not say
      whether memcmp reads behind a difference: the class [Memcmp] has both
      answers, and the theorem covers both (ProtocolParser.v).
    - Framing: the requests of Mongo.v start with their length and hold the
      documents unchanged.
    - Grammar: the decoder of BSON returns a table exactly for the blocks that
      start with a document of a grammar, and the table it stands for
      (BsonGrammar.v).
    - Equivalence: checksum with the ones' complement sum, itoa with schoolbook
      division, the copying of strings with the definition of UTF-8.
    - Errors: the inputs on which the code aborts, uses freed memory, loses an
      id, misreads a number or never returns are stated as theorems and listed
      as findings with the manifest.

    ** Bounds and fuel

    Loops take fuel from the data they walk: the size of the heap and of the
    array (MinHeap.v, TopK.v), one more than the allocated buffers for a walk
    along a chain ([chain_fuel], SocketEvent.v), the number of bytes or of
    buffers left (Serialize.v, Redis.v), the nesting depth the code itself
    limits ([pack_fuel] for 32, [msg_fuel] for 32, [MAX_DEPTH] for 128). A
    capacity that doubles as an [int] does so at most 31 times (Bson.v, Ikcp.v);
    a search visits each cell of the grid once; the parser of descriptions takes
    a character in each round, and only the depth of its imports is an argument,
    because files that import each other make it recurse without end. Where fuel is an argument
    the theorems hold for every fuel above a stated bound. Sizes are kept below
    the width of the C type where the code does not test for overflow; such a
    limit is a hypothesis and its witness is a concrete run. The larger ones:
    fewer than 2^30 elements in a heap, whose code doubles an index as an [int];
    arrays, words and texts of at most [INT_MAX] (TopK.v, WordFilter.v), and
    [INT_MAX] less a buffer for the bytes that wait in a session; 2^23 calls and clocks below 2^28 ms for KCP, whose sequence numbers and
    clocks would wrap around after that; grids of 2^18 cells and coordinates
    below 2^21, up to which singles hold the middles of cells exactly, and block
    types that index the mask, which the code does not test; documents below 2^30
    bytes, and below 2^26 where an index packs positions into 27 bits;
    descriptions below 2^27 bytes and 34 levels, for which the code reserves
    slots of the Lua stack.

    ** Not modelled

    - Memory that runs out, and functions that only release memory.
    - Registration of methods with Lua, the collector, and the limit of the Lua
      stack where the code does not reserve it by a depth of its own.
    - Threads, sockets, timers and processes as the kernel and libev run them
      (lua-ev.c, lua-worker.c, the rest of socket_util.c and of common.c,
      src/main.c, src/helper.c): pure I/O. The handlers they call are modelled.
    - Code on the Lua VM's internals: lua-snapshot.c, lua-co.c, lua-dump.c,
      profiler.c, profiler_stack.c.
    - Bindings whose work is done by libraries: lua-http-parser.c, lua-mysql.c.
    - Geometry in floating point: lua-nav.c and nav_*.c, lua-fast-aoi.c and
      pool.c, which it allocates from, lua-link-aoi.c, lua-tower-aoi.c; the second
      word filter lua-filter1.c, and the conversions of lua-filter0.c by iconv.
    - convert/double-conversion, Google's library, and the Lua code of lualib
      and script. *)

From Stdlib Require Export ZArith Lia.
From stdpp Require Export base list gmap strings.
From coqutil Require Export Byte Word.LittleEndianList.

#[global] Open Scope Z_scope.
#[global] Set Default Goal Selector "!".

Declare Scope c_scope.
Delimit Scope c_scope with c.

(** ** Machine integers

    A C integer is a [Z]; a conversion to a narrower or differently signed
    type is one of the wrap-around functions below. *)

Definition uwrap (w : Z) (z : Z) : Z := z mod 2 ^ w.
Definition swrap (w : Z) (z : Z) : Z := (z + 2 ^ (w - 1)) mod 2 ^ w - 2 ^ (w - 1).

Abbreviation u8 := (uwrap 8).
Abbreviation u16 := (uwrap 16).
Abbreviation u32 := (uwrap 32).
Abbreviation u64 := (uwrap 64).
Abbreviation s8 := (swrap 8).
Abbreviation s16 := (swrap 16).
Abbreviation s32 := (swrap 32).
Abbreviation s64 := (swrap 64).

Definition INT_MAX : Z := 2147483647.

Definition in_u (w z : Z) : Prop := 0 <= z < 2 ^ w.
Definition in_s (w z : Z) : Prop := - 2 ^ (w - 1) <= z < 2 ^ (w - 1).

Lemma uwrap_small w z : 0 <= z < 2 ^ w -> uwrap w z = z.
Proof. apply Z.mod_small. Qed.

Lemma uwrap_range w z : 0 <= w -> 0 <= uwrap w z < 2 ^ w.
Proof. intros. apply Z.mod_pos_bound. lia. Qed.

Lemma swrap_small w z : 0 < w -> in_s w z -> swrap w z = z.
Proof.
  unfold in_s, swrap. intros Hw Hz.
  assert (2 ^ w = 2 * 2 ^ (w - 1)) as E.
  { rewrite <- Z.pow_succ_r by lia. f_equal. lia. }
  rewrite Z.mod_small; lia.
Qed.

Lemma swrap_range w z : 0 < w -> in_s w (swrap w z).
Proof.
  unfold in_s, swrap. intros Hw.
  assert (2 ^ w = 2 * 2 ^ (w - 1)) as E.
  { rewrite <- Z.pow_succ_r by lia. f_equal. lia. }
  pose proof (Z.mod_pos_bound (z + 2 ^ (w - 1)) (2 ^ w) ltac:(lia)). lia.
Qed.

(** The signed reading of a value only depends on its residue. *)
Lemma swrap_uwrap w z : 0 < w -> swrap w (uwrap w z) = swrap w z.
Proof.
  intros Hw. unfold swrap, uwrap.
  rewrite Z.add_mod_idemp_l by lia. done.
Qed.

Lemma uwrap_swrap w z : 0 < w -> uwrap w (swrap w z) = uwrap w z.
Proof.
  intros Hw. unfold swrap, uwrap. rewrite Zminus_mod_idemp_l. f_equal. lia.
Qed.

(** Truncating twice is truncating to the smaller width. *)
Lemma uwrap_uwrap w v z : 0 <= w <= v -> uwrap w (uwrap v z) = uwrap w z.
Proof.
  intros H. unfold uwrap. symmetry. rewrite <- (Z.mod_mod_divide z (2 ^ v) (2 ^ w)); [done|].
  exists (2 ^ (v - w)). rewrite <- Z.pow_add_r by lia. f_equal. lia.
Qed.

Lemma testbit_high w a n : 0 <= a < 2 ^ w -> 0 <= w <= n -> Z.testbit a n = false.
Proof. intros Ha Hn. rewrite <- (Z.mod_small a (2 ^ w)) by lia. apply Z.mod_pow2_bits_high. lia. Qed.

Lemma lxor_range w a b : 0 <= w -> 0 <= a < 2 ^ w -> 0 <= b < 2 ^ w -> 0 <= Z.lxor a b < 2 ^ w.
Proof.
  intros Hw Ha Hb. assert (Z.lxor a b = Z.lxor a b mod 2 ^ w) as ->; [|apply Z.mod_pos_bound; lia].
  apply Z.bits_inj'. intros n Hn. destruct (decide (n < w)).
  - by rewrite Z.mod_pow2_bits_low by lia.
  - rewrite Z.mod_pow2_bits_high by lia. rewrite Z.lxor_spec.
    by rewrite (testbit_high w a), (testbit_high w b) by lia.
Qed.

(** Joining fields that do not overlap. *)
Lemma lor_shiftl w a b : 0 <= w -> 0 <= a < 2 ^ w -> Z.lor a (Z.shiftl b w) = a + b * 2 ^ w.
Proof.
  intros Hw Ha. assert (Z.land a (Z.shiftl b w) = 0) as E.
  { apply Z.bits_inj'. intros n Hn. rewrite Z.land_spec, Z.bits_0. destruct (decide (n < w)).
    - rewrite Z.shiftl_spec_low by lia. apply andb_false_r.
    - by rewrite (testbit_high w a) by lia. }
  rewrite <- Z.lxor_lor, <- Z.add_nocarry_lxor by done. by rewrite Z.shiftl_mul_pow2.
Qed.

(** ** Bytes *)

Abbreviation byte := Init.Byte.byte.
Abbreviation b2z := byte.unsigned.
Abbreviation z2b := byte.of_Z.
Abbreviation bytes := (list Init.Byte.byte).

#[export] Instance byte_eq_dec : EqDecision byte := Byte.byte_eq_dec.
#[export] Instance byte_countable : Countable byte := inj_countable Byte.to_N Byte.of_N Byte.of_to_N.

Lemma b2z_range b : 0 <= b2z b < 256.
Proof. pose proof (byte.unsigned_range b). lia. Qed.

Lemma b2z_z2b z : b2z (z2b z) = z mod 256.
Proof. apply byte.unsigned_of_Z. Qed.

Lemma b2z_z2b_small z : 0 <= z < 256 -> b2z (z2b z) = z.
Proof. intros. rewrite b2z_z2b. by apply Z.mod_small. Qed.

Lemma z2b_b2z b : z2b (b2z b) = b.
Proof. apply byte.of_Z_unsigned. Qed.

(** ** Lists indexed by C integers

    [aget l i] is [l[i]]; an index outside the array gives [None]. *)

Section array.
Context {A : Type}.
Implicit Types (l : list A) (i j : Z) (x : A).

Definition alen l : Z := Z.of_nat (length l).

Definition aget l i : option A := if decide (0 <= i) then l !! Z.to_nat i else None.

Definition aset l i x : list A := <[Z.to_nat i := x]> l.

Definition in_range l i : Prop := 0 <= i < alen l.

Lemma alen_length l : alen l = Z.of_nat (length l).
Proof. done. Qed.

Lemma alen_nonneg l : 0 <= alen l.
Proof. unfold alen. lia. Qed.

Lemma alen_app l k : alen (l ++ k) = alen l + alen k.
Proof. unfold alen. rewrite length_app. lia. Qed.

Lemma alen_aset l i x : alen (aset l i x) = alen l.
Proof. unfold alen, aset. by rewrite length_insert. Qed.

Lemma aget_Some_range l i x : aget l i = Some x -> in_range l i.
Proof.
  unfold aget, in_range, alen. case_decide; [|done].
  intros H1%lookup_lt_Some. lia.
Qed.

Lemma aget_lookup l i : 0 <= i -> aget l i = l !! Z.to_nat i.
Proof. intros. unfold aget. by rewrite decide_True. Qed.

Lemma aget_elem_of l i x : aget l i = Some x -> x ∈ l.
Proof. unfold aget. case_decide; [|done]. apply list_elem_of_lookup_2. Qed.

Lemma aget_is_Some l i : in_range l i -> is_Some (aget l i).
Proof.
  unfold aget, in_range, alen. intros. rewrite decide_True by lia.
  apply lookup_lt_is_Some. lia.
Qed.

Lemma aget_None l i : ~ in_range l i -> aget l i = None.
Proof.
  unfold aget, in_range, alen. intros. case_decide; [|done].
  apply lookup_ge_None. lia.
Qed.

Lemma aget_aset_eq l i x : in_range l i -> aget (aset l i x) i = Some x.
Proof.
  unfold aget, aset, in_range, alen. intros. rewrite decide_True by lia.
  apply list_lookup_insert_eq. lia.
Qed.

Lemma aget_aset_ne l i j x : 0 <= i -> i <> j -> aget (aset l i x) j = aget l j.
Proof.
  unfold aget, aset. intros. case_decide; [|done].
  apply list_lookup_insert_ne. lia.
Qed.

Lemma aget_aset l i j x :
  in_range l i -> aget (aset l i x) j = if decide (i = j) then Some x else aget l j.
Proof.
  intros Hr. case_decide; subst.
  - by apply aget_aset_eq.
  - apply aget_aset_ne; [unfold in_range in Hr; lia|done].
Qed.

Lemma aset_id l i x : aget l i = Some x -> aset l i x = l.
Proof. unfold aget, aset. case_decide; [|done]. apply list_insert_id. Qed.

Lemma aset_aset l i x y : aset (aset l i x) i y = aset l i y.
Proof. unfold aset. apply list_insert_insert_eq. Qed.

Lemma aget_app_l l k i : i < alen l -> aget (l ++ k) i = aget l i.
Proof.
  unfold aget, alen. intros. case_decide; [|done]. apply lookup_app_l. lia.
Qed.

Lemma aget_app_r l k i : alen l <= i -> aget (l ++ k) i = aget k (i - alen l).
Proof.
  unfold aget, alen. intros. rewrite !decide_True by lia.
  rewrite lookup_app_r by lia. f_equal. lia.
Qed.

Lemma aget_replicate n x i :
  0 <= i < Z.of_nat n -> aget (replicate n x) i = Some x.
Proof.
  unfold aget. intros. rewrite decide_True by lia.
  apply lookup_replicate_2. lia.
Qed.

Lemma alen_replicate n x : alen (replicate n x) = Z.of_nat n.
Proof. unfold alen. by rewrite length_replicate. Qed.

Lemma alen_cons x l : alen (x :: l) = alen l + 1.
Proof. unfold alen. simpl. lia. Qed.

Lemma alen_nil : alen [] = 0.
Proof. done. Qed.

Lemma alen_snoc l x : alen (l ++ [x]) = alen l + 1.
Proof. by rewrite alen_app, alen_cons, alen_nil. Qed.

Lemma aget_cons l x i : 0 <= i -> aget (x :: l) (i + 1) = aget l i.
Proof.
  intros Hi. unfold aget. rewrite !decide_True by lia.
  replace (Z.to_nat (i + 1)) with (S (Z.to_nat i)) by lia. done.
Qed.

Lemma aget_cons_0 l x : aget (x :: l) 0 = Some x.
Proof. done. Qed.

Lemma aget_snoc l x i y :
  aget (l ++ [x]) i = Some y <-> (aget l i = Some y \/ (i = alen l /\ y = x)).
Proof.
  destruct (decide (i < alen l)) as [Hlt|Hge].
  - rewrite aget_app_l by done. naive_solver lia.
  - rewrite aget_app_r by lia. split.
    + intros H. right. pose proof (aget_Some_range _ _ _ H) as [Hr1 Hr2].
      rewrite alen_cons, alen_nil in Hr2. assert (i = alen l) as -> by lia.
      rewrite Z.sub_diag, aget_cons_0 in H. by simplify_eq.
    + intros [H|[-> ->]].
      * apply aget_Some_range in H as [? ?]. lia.
      * by rewrite Z.sub_diag.
Qed.

Lemma aget_seqZ_fmap (f : Z -> A) n i : 0 <= i < n -> aget (f <$> seqZ 0 n) i = Some (f i).
Proof.
  intros Hi. unfold aget. rewrite decide_True by lia.
  rewrite list_lookup_fmap, lookup_seqZ_lt by lia. simpl. f_equal. f_equal. lia.
Qed.

Lemma alen_seqZ_fmap (f : Z -> A) n : 0 <= n -> alen (f <$> seqZ 0 n) = n.
Proof. intros. unfold alen. rewrite length_fmap, length_seqZ. lia. Qed.

(** Two arrays with the same length and the same cells are equal. *)
Lemma aget_ext l k : alen l = alen k -> (forall i, aget l i = aget k i) -> l = k.
Proof.
  unfold alen, aget. intros Hlen H. apply list_eq. intros i.
  specialize (H (Z.of_nat i)). rewrite !decide_True, Nat2Z.id in H by lia. done.
Qed.

Lemma list_snoc_cases l : l = [] \/ exists k x, l = k ++ [x].
Proof. induction l as [|x k _] using rev_ind; eauto. Qed.

(** Exchanging two cells permutes an array. *)
Lemma aset_swap_perm l i j x y :
  aget l i = Some x -> aget l j = Some y -> aset (aset l i y) j x ≡ₚ l.
Proof.
  unfold aget, aset. repeat case_decide; [|done..]. intros Hx Hy.
  pose proof (lookup_lt_Some _ _ _ Hx). pose proof (lookup_lt_Some _ _ _ Hy).
  apply Permutation_inj. split; [by rewrite !length_insert|].
  exists (fun k => if decide (k = Z.to_nat j) then Z.to_nat i
                   else if decide (k = Z.to_nat i) then Z.to_nat j else k). split.
  - intros k k'. repeat case_decide; lia.
  - intros k. repeat case_decide; subst.
    + by rewrite list_lookup_insert_eq by (rewrite length_insert; lia).
    + rewrite list_lookup_insert_ne by lia. by rewrite list_lookup_insert_eq by lia.
    + by rewrite !list_lookup_insert_ne by lia.
Qed.

End array.

Lemma aget_take {A} (l : list A) n i : i < n -> aget (take (Z.to_nat n) l) i = aget l i.
Proof. intros. unfold aget. case_decide; [|done]. apply lookup_take_lt. lia. Qed.

Lemma aget_fmap {A B} (f : A -> B) (l : list A) i : aget (f <$> l) i = f <$> aget l i.
Proof. unfold aget. case_decide; [apply list_lookup_fmap|done]. Qed.

Lemma alen_fmap {A B} (f : A -> B) (l : list A) : alen (f <$> l) = alen l.
Proof. unfold alen. by rewrite length_fmap. Qed.

Lemma fmap_aset {A B} (f : A -> B) (l : list A) i x : f <$> aset l i x = aset (f <$> l) i (f x).
Proof. unfold aset. apply list_fmap_insert. Qed.

#[global] Hint Unfold in_range : core.
#[global] Arguments alen_nil : clear implicits.

(** ** Copies between buffers

    [memcpy dst off src] copies [src] to [dst + off]; [slice l off n] are the
    [n] bytes read at [l + off]. Both are [None] outside the buffer. *)

Section copy.
Context {A : Type}.
Implicit Types (l dst src a b c : list A).

Definition memcpy dst (off : Z) src : option (list A) :=
  if decide (0 <= off /\ off + alen src <= alen dst)
  then Some (take (Z.to_nat off) dst ++ src ++ drop (Z.to_nat (off + alen src)) dst)
  else None.

Definition slice l (off n : Z) : option (list A) :=
  if decide (0 <= off /\ 0 <= n /\ off + n <= alen l)
  then Some (take (Z.to_nat n) (drop (Z.to_nat off) l))
  else None.

Lemma memcpy_mid a b b' c off :
  off = alen a -> alen b = alen b' -> memcpy (a ++ b ++ c) off b' = Some (a ++ b' ++ c).
Proof.
  unfold memcpy, alen. intros -> Hb. rewrite !length_app, decide_True by lia. f_equal.
  rewrite Nat2Z.id, take_app_length. do 2 f_equal. rewrite <- Hb, app_assoc, drop_app_length'; [done|].
  rewrite length_app. lia.
Qed.

Lemma memcpy_neg dst off src : off < 0 -> memcpy dst off src = None.
Proof. unfold memcpy. intros. rewrite decide_False; [done|lia]. Qed.

Lemma memcpy_over dst off src : alen dst < off + alen src -> memcpy dst off src = None.
Proof. unfold memcpy. intros. rewrite decide_False; [done|lia]. Qed.

Lemma slice_mid a b c off n :
  off = alen a -> n = alen b -> slice (a ++ b ++ c) off n = Some b.
Proof.
  unfold slice, alen. intros -> ->. rewrite !length_app, decide_True by lia. f_equal.
  by rewrite !Nat2Z.id, drop_app_length, take_app_length.
Qed.

Lemma slice_all l n : n = alen l -> slice l 0 n = Some l.
Proof. intros. rewrite <- (app_nil_r l), <- (app_nil_l (l ++ [])) at 1. by apply slice_mid. Qed.

Lemma slice_take l n : 0 <= n <= alen l -> slice l 0 n = Some (take (Z.to_nat n) l).
Proof. unfold slice. intros. rewrite decide_True by lia. by rewrite drop_0. Qed.

Lemma slice_Some l off n k :
  slice l off n = Some k -> exists a c, l = a ++ k ++ c /\ alen a = off /\ alen k = n.
Proof.
  unfold slice, alen. case_decide as H; [|done]. intros [= <-].
  exists (take (Z.to_nat off) l), (drop (Z.to_nat n) (drop (Z.to_nat off) l)).
  rewrite !take_drop, !length_take, length_drop. split_and!; [done|lia|lia].
Qed.

Lemma slice_short l off n : alen l < off + n -> slice l off n = None.
Proof. unfold slice. intros. rewrite decide_False; [done|lia]. Qed.

(** Where a prefix of a given length ends. *)
Lemma app_split_at a b n :
  0 <= n -> alen a = Z.min n (alen a + alen b) ->
  a = take (Z.to_nat n) (a ++ b) /\ b = drop (Z.to_nat n) (a ++ b).
Proof.
  unfold alen. intros Hn Ha. destruct (decide (n <= Z.of_nat (length a))) as [Hle|Hgt].
  - assert (Z.to_nat n = length a) as -> by lia. by rewrite take_app_length, drop_app_length.
  - assert (length b = 0)%nat as ->%nil_length_inv by lia. rewrite app_nil_r, take_ge, drop_ge by lia. done.
Qed.

(** Two splittings of the same list, the first one cut later. *)
Lemma app_prefix_of a b c d :
  a ++ b = c ++ d -> alen c <= alen a ->
  take (Z.to_nat (alen c)) a = c /\ drop (Z.to_nat (alen c)) a ++ b = d.
Proof.
  unfold alen. rewrite Nat2Z.id. intros E Hl. split.
  - apply (f_equal (take (length c))) in E. by rewrite take_app_le, take_app_length in E by lia.
  - apply (f_equal (drop (length c))) in E. by rewrite drop_app_le, drop_app_length in E by lia.
Qed.

Lemma alen_0 l : alen l = 0 -> l = [].
Proof. unfold alen. intros. apply nil_length_inv. lia. Qed.

Lemma alen_take l n : 0 <= n <= alen l -> alen (take (Z.to_nat n) l) = n.
Proof. unfold alen. rewrite length_take. lia. Qed.

Lemma alen_drop l n : 0 <= n <= alen l -> alen (drop (Z.to_nat n) l) = alen l - n.
Proof. unfold alen. rewrite length_drop. lia. Qed.
End copy.

(** The bytes of an integer in memory, lowest first. *)
Lemma alen_le_split n z : alen (le_split n z) = Z.of_nat n.
Proof. unfold alen. by rewrite length_le_split. Qed.

#[global] Opaque aget aset alen memcpy slice.

(** ** Assigning the fields of a struct

    A record with many fields names its eta expansion once ([Eta]); [field_setter]
    then derives the assignment to a field, which [k <| f := v |>] applies. *)

Class Eta (R : Type) := eta : R -> R.
Class Setter {R E : Type} (proj : R -> E) := set_field : E -> R -> R.
#[global] Arguments set_field {R E} proj {_} _ _.

Ltac field_setter :=
  lazymatch goal with
  | |- @Setter ?R ?E ?proj =>
      let e := constr:(_ : Eta R) in
      let e := eval hnf in e in
      let e := eval pattern proj in e in
      lazymatch e with
      | ?g _ =>
          let t := constr:(fun (v : E) (r : R) => g (fun _ => v) r) in
          let t := eval cbv beta in t in exact t
      end
  end.

Notation "k <| f := v |>" := (set_field f v k)
  (at level 1, left associativity, f constr at level 0, v constr at level 200,
   format "k  <| f  :=  v |>") : c_scope.

(** ** The development's automation *)

Create HintDb cdb.
Create Rewrite HintDb carr.
#[export] Hint Resolve alen_nonneg aget_aset_eq uwrap_range : cdb.
#[export] Hint Rewrite @alen_aset @alen_app @alen_replicate : carr.

(** Clean up equations, split conjunctions in the context. *)
Ltac csimp := repeat (simplify_eq/= || destruct_and?).

(** Case split on the boolean tests of integers that guard a branch. *)
Ltac zcase :=
  repeat match goal with
  | |- context [ (?a <? ?b)%Z ] => destruct (Z.ltb_spec a b)
  | |- context [ (?a <=? ?b)%Z ] => destruct (Z.leb_spec a b)
  | |- context [ (?a =? ?b)%Z ] => destruct (Z.eqb_spec a b)
  | H : context [ (?a <? ?b)%Z ] |- _ => destruct (Z.ltb_spec a b)
  | H : context [ (?a <=? ?b)%Z ] |- _ => destruct (Z.leb_spec a b)
  | H : context [ (?a =? ?b)%Z ] |- _ => destruct (Z.eqb_spec a b)
  end.

(** Linear arithmetic with division and remainder by constants. *)
Ltac dlia := Z.to_euclidean_division_equations; lia.

(** A cell of a list given by its elements. *)
Ltac aget_lit := rewrite aget_lookup by lia; reflexivity.
