(* ===== verification/Outcome.v ===== *)
(** * Outcomes of C code and the state monad it runs in

    A function of the program either returns, or raises a Lua error
    ([luaL_error], a long jump that leaves the C state as it is at that
    point), or does something the C standard or the program itself rules out:
    a failed [assert], a NULL dereference, an access outside an array, a use
    of freed memory, a signed overflow. Loops carry fuel, and running out of
    it is one of the faults, so a theorem that gives a [Done] outcome is also
    a theorem that the loop ends. *)

From S2P Require Import Prelude.

Inductive fault : Type :=
| AssertFail
| NullDeref
| OutOfBounds
| UseAfterFree
| SignedOverflow
| UndefinedBehaviour
| OutOfFuel.

Inductive outcome (St A : Type) : Type :=
| Done (a : A) (s : St)
| Raise (msg : string) (s : St)
| Fault (f : fault).
Arguments Done {St A} _ _.
Arguments Raise {St A} _ _.
Arguments Fault {St A} _.

#[export] Instance fault_eq_dec : EqDecision fault.
Proof. solve_decision. Defined.

(** ** The monad *)

Definition M (St A : Type) : Type := St -> outcome St A.

#[export] Instance M_ret St : MRet (M St) := fun A a s => Done a s.
#[export] Instance M_bind St : MBind (M St) := fun A B k m s =>
  match m s with
  | Done a s' => k a s'
  | Raise e s' => Raise e s'
  | Fault f => Fault f
  end.

Section ops.
Context {St : Type}.

Definition get : M St St := fun s => Done s s.
Definition put (s : St) : M St unit := fun _ => Done tt s.
Definition gets {A} (f : St -> A) : M St A := fun s => Done (f s) s.
Definition modify (f : St -> St) : M St unit := fun s => Done tt (f s).
Definition luaL_error {A} (msg : string) : M St A := fun s => Raise msg s.
Definition crash {A} (f : fault) : M St A := fun _ => Fault f.
Definition c_assert (b : bool) : M St unit := if b then mret tt else crash AssertFail.
Definition require (f : fault) (b : bool) : M St unit := if b then mret tt else crash f.
Definition deref {A} (f : fault) (o : option A) : M St A :=
  match o with Some a => mret a | None => crash f end.
Definition when (b : bool) (m : M St unit) : M St unit := if b then m else mret tt.

(** [for (...)] over a list of values, in order. *)
Fixpoint for_each {A} (l : list A) (body : A -> M St unit) : M St unit :=
  match l with
  | [] => mret tt
  | x :: l => body x ≫= fun _ => for_each l body
  end.

(** A loop: [body b] either continues with [inl b'] or leaves with [inr a]. *)
Fixpoint loop {B A} (fuel : nat) (body : B -> M St (B + A)) (b : B) : M St A :=
  match fuel with
  | O => crash OutOfFuel
  | S fuel => body b ≫= fun r =>
      match r with
      | inl b' => loop fuel body b'
      | inr a => mret a
      end
  end.

End ops.

(** Run a computation on a part of the state. *)
Definition zoom {St T A} (g : T -> St) (p : St -> T -> T) (m : M St A) : M T A := fun t =>
  match m (g t) with
  | Done a s => Done a (p s t)
  | Raise e s => Raise e (p s t)
  | Fault f => Fault f
  end.

(** ** Total correctness

    [wp m Q E s]: run from [s], [m] returns with [Q] or raises with [E];
    it never faults and never runs out of fuel. *)

Definition wp {St A} (m : M St A) (Q : A -> St -> Prop) (E : string -> St -> Prop) (s : St) : Prop :=
  match m s with
  | Done a s' => Q a s'
  | Raise e s' => E e s'
  | Fault _ => False
  end.

(** No Lua error either. *)
Abbreviation wpd m Q := (wp m Q (fun _ _ => False)).

Section wp.
Context {St : Type}.
Implicit Types (s : St) (E : string -> St -> Prop).

Lemma wp_ret {A} (a : A) (Q : A -> St -> Prop) E s : Q a s -> wp (mret a) Q E s.
Proof. done. Qed.

Lemma wp_bind {A B} (m : M St A) (k : A -> M St B) Q E s :
  wp m (fun a s' => wp (k a) Q E s') E s -> wp (m ≫= k) Q E s.
Proof. unfold wp, mbind, M_bind. destruct (m s); done. Qed.

Lemma wp_gets {A} (f : St -> A) (Q : A -> St -> Prop) E s : Q (f s) s -> wp (gets f) Q E s.
Proof. done. Qed.

Lemma wp_get (Q : St -> St -> Prop) E s : Q s s -> wp get Q E s.
Proof. done. Qed.

Lemma wp_put t (Q : unit -> St -> Prop) E s : Q tt t -> wp (put t) Q E s.
Proof. done. Qed.

Lemma wp_modify f (Q : unit -> St -> Prop) E s : Q tt (f s) -> wp (modify f) Q E s.
Proof. done. Qed.

Lemma wp_c_assert b (Q : unit -> St -> Prop) E s : b = true -> Q tt s -> wp (c_assert b) Q E s.
Proof. by intros ->. Qed.

Lemma wp_require f b (Q : unit -> St -> Prop) E s : b = true -> Q tt s -> wp (require f b) Q E s.
Proof. by intros ->. Qed.

Lemma wp_deref {A} f (o : option A) a (Q : A -> St -> Prop) E s :
  o = Some a -> Q a s -> wp (deref f o) Q E s.
Proof. by intros ->. Qed.

Lemma wp_when b m (Q : unit -> St -> Prop) E s :
  (b = true -> wp m Q E s) -> (b = false -> Q tt s) -> wp (when b m) Q E s.
Proof. destruct b; intros H1 H2; [by apply H1|by apply wp_ret, H2]. Qed.

Lemma wp_conseq {A} (m : M St A) (Q Q' : A -> St -> Prop) E E' s :
  wp m Q E s -> (forall a s', Q a s' -> Q' a s') -> (forall e s', E e s' -> E' e s') ->
  wp m Q' E' s.
Proof. unfold wp. destruct (m s); auto. Qed.

Lemma wp_mono {A} (m : M St A) (Q Q' : A -> St -> Prop) E s :
  wp m Q E s -> (forall a s', Q a s' -> Q' a s') -> wp m Q' E s.
Proof. intros H HQ. eapply wp_conseq; eauto. Qed.

(** A loop ends in a state of [Q] when its invariant is kept and its measure falls. *)
Lemma wp_loop {B A} (I : B -> St -> Prop) (meas : B -> St -> nat)
    (body : B -> M St (B + A)) Q E fuel b s :
  (forall b s, I b s ->
     wp (body b) (fun r s' => match r with
                              | inl b' => I b' s' /\ (meas b' s' < meas b s)%nat
                              | inr a => Q a s' end) E s) ->
  I b s -> (meas b s < fuel)%nat -> wp (loop fuel body b) Q E s.
Proof.
  intros Hbody. revert b s. induction fuel as [|fuel IH]; intros b s HI Hm; [lia|].
  simpl. apply wp_bind. eapply wp_mono; [by apply Hbody|].
  intros [b'|a] s' H; simpl in *; [|done]. destruct H. apply IH; [done|lia].
Qed.

(** The same with a rank that is part of the invariant. *)
Lemma wp_loop_rank {B A} (I : nat -> B -> St -> Prop) (body : B -> M St (B + A)) Q E fuel k b s :
  (forall k b s, I k b s ->
     wp (body b) (fun r s' => match r with
                              | inl b' => exists k', (k' < k)%nat /\ I k' b' s'
                              | inr a => Q a s' end) E s) ->
  I k b s -> (k < fuel)%nat -> wp (loop fuel body b) Q E s.
Proof.
  intros Hbody. revert k b s. induction fuel as [|fuel IH]; intros k b s HI Hk; [lia|].
  simpl. apply wp_bind. eapply wp_mono; [by apply (Hbody k)|].
  intros [b'|a] s' H; simpl in *; [|done]. destruct H as (k' & ? & ?). apply (IH k'); [done|lia].
Qed.

Lemma wp_for_each {A} (I : list A -> St -> Prop) (l : list A) (body : A -> M St unit) E s :
  (forall x k s, I (x :: k) s -> wp (body x) (fun _ s' => I k s') E s) ->
  I l s -> wp (for_each l body) (fun _ s' => I [] s') E s.
Proof.
  intros Hbody. revert s. induction l as [|x l IH]; intros s HI; [done|].
  simpl. apply wp_bind. eapply wp_mono; [by apply Hbody|]. intros [] s'. apply IH.
Qed.

(** A computation known to be [Done] can be run in a bind. *)
Lemma bind_Done {A B} (m : M St A) (k : A -> M St B) a s s' :
  m s = Done a s' -> (m ≫= k) s = k a s'.
Proof. unfold mbind, M_bind. by intros ->. Qed.

Lemma bind_Raise {A B} (m : M St A) (k : A -> M St B) e s s' :
  m s = Raise e s' -> (m ≫= k) s = Raise e s'.
Proof. unfold mbind, M_bind. by intros ->. Qed.

Lemma bind_Fault {A B} (m : M St A) (k : A -> M St B) f s :
  m s = Fault f -> (m ≫= k) s = Fault f.
Proof. unfold mbind, M_bind. by intros ->. Qed.

(** What [m] leaves makes [k] fail. *)
Lemma bind_wp_Fault {A B} (m : M St A) (k : A -> M St B) f s :
  wpd m (fun a s' => k a s' = Fault f) s -> (m ≫= k) s = Fault f.
Proof. unfold wp, mbind, M_bind. by destruct (m s). Qed.

Lemma bind_assoc {A B C} (m : M St A) (k : A -> M St B) (h : B -> M St C) s :
  ((m ≫= k) ≫= h) s = (m ≫= (fun a => k a ≫= h)) s.
Proof. unfold mbind, M_bind. by destruct (m s). Qed.

Lemma c_assert_Done {A} b (k : M St A) s a s' :
  (c_assert b;; k) s = Done a s' -> b = true /\ k s = Done a s'.
Proof. by destruct b. Qed.

Lemma wp_Done {A} (m : M St A) (Q : A -> St -> Prop) E a s s' :
  m s = Done a s' -> Q a s' -> wp m Q E s.
Proof. unfold wp. by intros ->. Qed.

(** Two computations that do the same from [s]. *)
Lemma wp_eq {A} (m m' : M St A) (Q : A -> St -> Prop) E s : m s = m' s -> wp m' Q E s -> wp m Q E s.
Proof. unfold wp. by intros ->. Qed.

Lemma wpd_elim {A} (m : M St A) (Q : A -> St -> Prop) a s s' :
  m s = Done a s' -> wpd m Q s -> Q a s'.
Proof. unfold wp. by intros ->. Qed.

Lemma wpd_Done {A} (m : M St A) (Q : A -> St -> Prop) s :
  wpd m Q s <-> exists a s', m s = Done a s' /\ Q a s'.
Proof.
  unfold wp. split.
  - destruct (m s); try done. eauto.
  - intros (a & s' & -> & ?). done.
Qed.

End wp.

Lemma wp_zoom {St T A} (g : T -> St) p (m : M St A) Q E t :
  wp m (fun a s => Q a (p s t)) (fun e s => E e (p s t)) (g t) -> wp (zoom g p m) Q E t.
Proof. unfold wp, zoom. destruct (m (g t)); done. Qed.

(** The state a concrete run leaves. *)
Definition after {St A} (m : M St A) (s : St) : St :=
  match m s with Done _ s' => s' | Raise _ s' => s' | Fault _ => s end.

Create HintDb wpdb.
#[export] Hint Resolve wp_ret wp_bind wp_gets wp_modify wp_c_assert wp_require wp_when wp_zoom : wpdb.

(** One step of symbolic execution. *)
Ltac wp_step :=
  cbv beta zeta;
  lazymatch goal with
  | |- wp (_ ≫= _) _ _ _ => apply wp_bind
  | |- wp (mret _) _ _ _ => apply wp_ret
  | |- wp (gets _) _ _ _ => apply wp_gets
  | |- wp get _ _ _ => apply wp_get
  | |- wp (modify _) _ _ _ => apply wp_modify
  | |- wp (put _) _ _ _ => apply wp_put
  | |- wp (deref _ _) _ _ _ => eapply wp_deref
  | |- wp (c_assert _) _ _ _ => apply wp_c_assert
  | |- wp (require _ _) _ _ _ => apply wp_require
  | |- wp (when _ _) _ _ _ => apply wp_when; intros
  | |- wp (zoom _ _ _) _ _ _ => apply wp_zoom
  | |- wp (luaL_error _) _ _ _ => unfold wp, luaL_error
  end.
