(* ===== verification/MinHeap.v ===== *)
(** * The binary heap of minheap.c

    An intrusive min-heap: [elts[1..size]] holds pointers to elements, and
    every element records its own position in its [index] field (0 when it
    is not in a heap). The comparison [less] is the one given to
    [minheap_create]; it reads the elements, so it is a parameter here. *)

From S2P Require Import Prelude Outcome.

Abbreviation eid := positive.

(** [struct minheap] (without [less]) and the [index] fields of the elements
    that are allocated. *)
Record minheap := MkHeap { cap : Z; size : Z; elts : list (option eid) }.
Record st := MkSt { mh : minheap; index : gmap eid Z }.

Definition set_size (z : Z) (s : st) : st := MkSt (MkHeap (cap (mh s)) z (elts (mh s))) (index s).
Definition set_elts (l : list (option eid)) (s : st) : st := MkSt (MkHeap (cap (mh s)) (size (mh s)) l) (index s).
Definition set_index (i : gmap eid Z) (s : st) : st := MkSt (mh s) i.

Definition PARENT (i : Z) : Z := i / 2.
Definition LEFT (i : Z) : Z := i * 2.
Definition RIGHT (i : Z) : Z := i * 2 + 1.

Ltac plia := unfold PARENT, LEFT, RIGHT in *; dlia.

(** ** Memory accesses *)

Definition elts_get (i : Z) : M st (option eid) :=
  s ← get; deref OutOfBounds (aget (elts (mh s)) i).

Definition elts_set (i : Z) (o : option eid) : M st unit :=
  s ← get; require OutOfBounds (bool_decide (in_range (elts (mh s)) i));;
  put (set_elts (aset (elts (mh s)) i o) s).

Definition index_get (o : option eid) : M st Z :=
  e ← deref NullDeref o; s ← get; deref UseAfterFree (index s !! e).

Definition index_set (o : option eid) (i : Z) : M st unit :=
  e ← deref NullDeref o; s ← get;
  require UseAfterFree (bool_decide (is_Some (index s !! e)));;
  put (set_index (<[e := i]> (index s)) s).

(** ** Operations *)

Definition minheap_create (c : Z) : minheap := MkHeap c 0 (replicate (Z.to_nat c) None).

Definition minheap_top : M st (option eid) :=
  s ← get; if 0 <? size (mh s) then elts_get 1 else mret None.

Definition swap (index0 index1 : Z) : M st unit :=
  elt ← elts_get index0;
  e1 ← elts_get index1;
  elts_set index0 e1;;
  elts_set index1 elt;;
  p0 ← elts_get index0;
  index_set p0 index0;;
  p1 ← elts_get index1;
  index_set p1 index1.

(** [clear] is NULL or a callback on the element. The callback belongs to the owner of the
    elements: it runs on the owner's state [T], of which the heap is a part. *)
Definition minheap_clear {T} (g : T -> st) (p : st -> T -> T) (clear : option (eid -> M T unit)) : M T unit :=
  s0 ← gets g;
  loop (S (Z.to_nat (size (mh s0)))) (fun i =>
    s ← gets g;
    if i <=? size (mh s) then
      o ← zoom g p (elts_get i);
      match clear with
      | Some f => e ← deref NullDeref o; f e
      | None => zoom g p (index_set o 0)
      end;;
      mret (inl (i + 1))
    else mret (inr tt)) 1;;
  zoom g p (modify (set_size 0)).

(** A heap on its own. *)
Abbreviation minheap_clear_null := (minheap_clear id (fun s _ => s) None).

Section less.
Context (less : eid -> eid -> bool).

Definition less_at (a b : Z) : M st bool :=
  oa ← elts_get a; ob ← elts_get b;
  ea ← deref NullDeref oa; eb ← deref NullDeref ob;
  mret (less ea eb).

Definition up (i : Z) : M st unit :=
  loop (S (Z.to_nat i)) (fun '(i, parent) =>
    if 1 <=? parent then
      b ← less_at i parent;
      if b : bool then swap i parent;; mret (inl (parent, PARENT parent)) else mret (inr tt)
    else mret (inr tt)) (i, PARENT i).

(** [l] and [r] are of type [int]. *)
Definition down_min (i : Z) : M st Z :=
  let l := LEFT i in
  let r := RIGHT i in
  require SignedOverflow (r <=? INT_MAX);;
  s ← get;
  min ← (if l <=? size (mh s) then b ← less_at l i; mret (if b : bool then l else i) else mret i);
  if r <=? size (mh s) then b ← less_at r min; mret (if b : bool then r else min) else mret min.

Definition down (i : Z) : M st unit :=
  s0 ← get;
  loop (S (Z.to_nat (size (mh s0) + 1 - i))) (fun i =>
    s ← get;
    if i <=? size (mh s) then
      min ← down_min i;
      if negb (min =? i) then swap i min;; mret (inl min) else mret (inr tt)
    else mret (inr tt)) i.

Definition minheap_change (elt : eid) : M st unit :=
  i ← index_get (Some elt);
  down i;;
  i' ← index_get (Some elt);
  if i =? i' then up i else mret tt.

Definition minheap_delete (elt : eid) : M st unit :=
  s ← get;
  if 0 <? size (mh s) then
    i ← index_get (Some elt);
    if (size (mh s) =? 1) || (i =? size (mh s)) then
      elts_set (size (mh s)) None;; modify (set_size (size (mh s) - 1))
    else
      tail ← elts_get (size (mh s));
      swap i (size (mh s));;
      elts_set (size (mh s)) None;;
      modify (set_size (size (mh s) - 1));;
      i ← index_get tail;
      down i;;
      i' ← index_get tail;
      if i =? i' then up i else mret tt
  else mret tt.

(** Growing doubles [cap], an [int]: past [INT_MAX] that is a signed overflow. *)
Definition grow : M st unit :=
  s ← get;
  let h := mh s in
  let nsize := cap h * 2 in
  require SignedOverflow (nsize <=? INT_MAX);;
  put (MkSt (MkHeap nsize (size h)
         (elts h ++ replicate (Z.to_nat (nsize - cap h)) None)) (index s)).

Definition minheap_push (elt : eid) : M st unit :=
  i ← index_get (Some elt);
  if negb (i =? 0) then minheap_change elt
  else
    s ← get;
    when (cap (mh s) - 1 <=? size (mh s)) grow;;
    s ← get;
    let n := size (mh s) + 1 in
    modify (set_size n);;
    elts_set n (Some elt);;
    index_set (Some elt) n;;
    i ← index_get (Some elt);
    up i.

Definition minheap_pop : M st (option eid) :=
  s ← get;
  if 0 <? size (mh s) then
    elt ← elts_get 1;
    swap 1 (size (mh s));;
    elts_set (size (mh s)) None;;
    modify (set_size (size (mh s) - 1));;
    down 1;;
    index_set elt 0;;
    mret elt
  else mret None.

End less.

(** ** Invariant and abstraction

    [holds s i e]: the heap's cell [i] points to [e]. *)

Definition holds (s : st) (i : Z) (e : eid) : Prop :=
  1 <= i <= size (mh s) /\ aget (elts (mh s)) i = Some (Some e).

Record wf (s : st) : Prop := {
  wf_cap : 1 <= cap (mh s);
  wf_len : alen (elts (mh s)) = cap (mh s);
  wf_size : 0 <= size (mh s) < cap (mh s);
  wf_elt i : 1 <= i <= size (mh s) -> exists e, holds s i e /\ index s !! e = Some i
}.

(** The heap has fewer than 2^30 elements: the children's indices [LEFT i] and
    [RIGHT i] of its cells are ints. *)
Definition int_heap (s : st) : Prop := RIGHT (size (mh s)) <= INT_MAX.

Lemma int_heap_le s s' : int_heap s -> size (mh s') <= size (mh s) -> int_heap s'.
Proof. unfold int_heap, RIGHT. lia. Qed.

(** The set of elements in the heap. *)
Definition contents (s : st) : gset eid :=
  list_to_set (omap id (take (Z.to_nat (size (mh s))) (drop 1 (elts (mh s))))).

(** What a reordering leaves alone: the bounds, the set of elements, the
    [index] field of every element that is not in the heap, and the cells
    behind the last one. *)
Record frame (s s' : st) : Prop := {
  fr_size : size (mh s') = size (mh s);
  fr_cap : cap (mh s') = cap (mh s);
  fr_holds e : (exists i, holds s' i e) <-> (exists i, holds s i e);
  fr_index e : (forall i, ~ holds s i e) -> index s' !! e = index s !! e;
  fr_dom e : is_Some (index s' !! e) <-> is_Some (index s !! e);
  fr_rest i : size (mh s) < i -> aget (elts (mh s')) i = aget (elts (mh s)) i
}.

#[export] Instance frame_preorder : PreOrder frame.
Proof.
  split.
  - intros s. by split.
  - intros s1 s2 s3 [] []. split; try congruence.
    + intros e. naive_solver.
    + intros e He. rewrite fr_index1; [by apply fr_index0|].
      intros i Hi. destruct (fr_holds0 e) as [[] _]; naive_solver.
    + naive_solver.
    + intros i Hi. rewrite fr_rest1 by congruence. by apply fr_rest0.
Qed.

(** The [index] fields of the elements that were and are outside the heap do not change. *)
Definition kept (s s' : st) : Prop :=
  (forall e, e ∉ contents s ∪ contents s' -> index s' !! e = index s !! e) /\
  (forall e, is_Some (index s' !! e) <-> is_Some (index s !! e)).

Lemma elem_of_contents s e : wf s -> e ∈ contents s <-> exists i, holds s i e.
Proof.
  intros W. unfold contents, holds. rewrite elem_of_list_to_set, list_elem_of_omap.
  setoid_rewrite list_elem_of_lookup.
  pose proof (wf_len _ W). pose proof (wf_size _ W). split.
  - intros (o & [k Hk] & Ho). simpl in Ho. subst o.
    apply lookup_take_Some in Hk as [Hk Hlt]. rewrite lookup_drop in Hk.
    exists (Z.of_nat (1 + k)). split; [lia|].
    with_strategy transparent [aget] unfold aget.
    rewrite decide_True by lia. by rewrite Nat2Z.id.
  - intros (i & Hi & Hg). exists (Some e). split; [|done].
    exists (Z.to_nat i - 1)%nat. rewrite lookup_take_Some, lookup_drop.
    with_strategy transparent [aget] unfold aget in Hg. case_decide; [|done].
    split; [|lia]. rewrite <- Hg. f_equal. lia.
Qed.

Section wf_facts.
Context (s : st) (W : wf s).

Lemma holds_index i e : holds s i e -> index s !! e = Some i.
Proof.
  intros [Hi He]. destruct (wf_elt _ W i Hi) as (e' & [_ He'] & Hx). congruence.
Qed.

Lemma holds_fun i e e' : holds s i e -> holds s i e' -> e = e'.
Proof. intros [_ ?] [_ ?]. congruence. Qed.

Lemma holds_inj i j e : holds s i e -> holds s j e -> i = j.
Proof. intros H1%holds_index H2%holds_index. congruence. Qed.

Lemma holds_ex i : 1 <= i <= size (mh s) -> exists e, holds s i e.
Proof. intros Hi. destruct (wf_elt _ W i Hi) as (e & ? & ?). eauto. Qed.

Lemma wf_range i : 1 <= i <= size (mh s) -> in_range (elts (mh s)) i.
Proof. pose proof (wf_len _ W). pose proof (wf_size _ W). unfold in_range. lia. Qed.

Lemma not_holds_zero e : index s !! e = Some 0 -> forall i, ~ holds s i e.
Proof. intros H0 i Hi. pose proof (holds_index _ _ Hi). destruct Hi. simplify_eq. lia. Qed.
End wf_facts.

(** The transposition of two positions. *)
Definition tr (i j x : Z) : Z := if decide (x = i) then j else if decide (x = j) then i else x.

Lemma tr_l i j : tr i j i = j.
Proof. unfold tr. by rewrite decide_True. Qed.

Lemma tr_r i j : tr i j j = i.
Proof. unfold tr. case_decide; [done|]. by rewrite decide_True. Qed.

Lemma tr_ne i j x : x <> i -> x <> j -> tr i j x = x.
Proof. intros. unfold tr. by rewrite !decide_False. Qed.

Record swapped (s : st) (i j : Z) (s' : st) : Prop := {
  sw_size : size (mh s') = size (mh s);
  sw_cap : cap (mh s') = cap (mh s);
  sw_len : alen (elts (mh s')) = alen (elts (mh s));
  sw_get x : aget (elts (mh s')) x = aget (elts (mh s)) (tr i j x);
  sw_index e : index s' !! e =
    if decide (holds s i e) then Some j else if decide (holds s j e) then Some i else index s !! e
}.

#[local] Instance holds_dec s i e : Decision (holds s i e).
Proof. unfold holds. apply _. Defined.

Section access.
Context (E : string -> st -> Prop).

Lemma wp_elts_get s i o Q :
  aget (elts (mh s)) i = Some o -> Q o s -> wp (elts_get i) Q E s.
Proof. intros H HQ. unfold wp, elts_get, mbind, M_bind, get. by rewrite H. Qed.

Lemma wp_elts_set s i o Q :
  in_range (elts (mh s)) i -> Q tt (set_elts (aset (elts (mh s)) i o) s) ->
  wp (elts_set i o) Q E s.
Proof.
  intros H HQ. unfold wp, elts_set, mbind, M_bind, get, require.
  by rewrite bool_decide_eq_true_2.
Qed.

Lemma wp_index_get s e i Q : index s !! e = Some i -> Q i s -> wp (index_get (Some e)) Q E s.
Proof. intros H HQ. unfold wp, index_get, mbind, M_bind, get. simpl. by rewrite H. Qed.

Lemma wp_index_set s e i Q :
  is_Some (index s !! e) -> Q tt (set_index (<[e := i]> (index s)) s) ->
  wp (index_set (Some e) i) Q E s.
Proof.
  intros H HQ. unfold wp, index_set, mbind, M_bind, get, require. simpl.
  by rewrite bool_decide_eq_true_2.
Qed.
End access.

(** [swap] exchanges two cells and keeps both [index] fields right. *)
Lemma wp_swap s i j Q :
  wf s -> 1 <= i <= size (mh s) -> 1 <= j <= size (mh s) ->
  (forall s', swapped s i j s' -> Q tt s') -> wpd (swap i j) Q s.
Proof.
  intros W Hi Hj HQ.
  destruct (holds_ex s W i Hi) as [a Ha]. destruct (holds_ex s W j Hj) as [b Hb].
  pose proof (wf_range s W i Hi) as Ri. pose proof (wf_range s W j Hj) as Rj.
  pose proof (holds_index s W _ _ Ha) as Xa. pose proof (holds_index s W _ _ Hb) as Xb.
  assert (forall e, holds s i e <-> e = a) as Ea.
  { intros e; split; [intros He; by eapply holds_fun|by intros ->]. }
  assert (forall e, holds s j e <-> e = b) as Eb.
  { intros e; split; [intros He; by eapply holds_fun|by intros ->]. }
  destruct Ha as [_ Ga]. destruct Hb as [_ Gb].
  assert (i = j -> a = b) as Eab by congruence.
  unfold swap.
  wp_step. apply (wp_elts_get _ _ _ _ _ Ga). wp_step. apply (wp_elts_get _ _ _ _ _ Gb).
  wp_step. apply wp_elts_set; [done|].
  wp_step. apply wp_elts_set; [unfold in_range; simpl; by rewrite alen_aset|].
  wp_step. apply (wp_elts_get _ _ _ (Some b)).
  { simpl. rewrite aget_aset by (unfold in_range; by rewrite alen_aset).
    case_decide; [|by apply aget_aset_eq]. rewrite Eab; done. }
  wp_step. apply wp_index_set; [simpl; eauto|].
  wp_step. apply (wp_elts_get _ _ _ (Some a)).
  { simpl. apply aget_aset_eq. unfold in_range; by rewrite alen_aset. }
  apply wp_index_set; [simpl; rewrite lookup_insert; case_decide; eauto|].
  apply HQ. clear HQ. split; simpl; try done.
  - by rewrite !alen_aset.
  - intros x. unfold tr. rewrite !aget_aset by (unfold in_range; rewrite ?alen_aset; done).
    repeat case_decide; subst; congruence.
  - intros e. rewrite !lookup_insert.
    rewrite (decide_ext _ _ _ _ (Ea e)), (decide_ext _ _ _ _ (Eb e)).
    repeat case_decide; congruence.
Qed.

Section swapped_facts.
Context (s s' : st) (i j : Z).
Context (W : wf s) (Hi : 1 <= i <= size (mh s)) (Hj : 1 <= j <= size (mh s)).
Context (SW : swapped s i j s').

Lemma holds_swapped x e : holds s' x e <-> holds s (tr i j x) e.
Proof using Hi Hj SW.
  unfold holds. rewrite (sw_size _ _ _ _ SW), (sw_get _ _ _ _ SW).
  unfold tr. repeat case_decide; subst; naive_solver.
Qed.

Lemma wf_swapped : wf s'.
Proof using Hi Hj SW W.
  pose proof (sw_size _ _ _ _ SW) as Es. pose proof (sw_cap _ _ _ _ SW) as Ec.
  split; rewrite ?Es, ?Ec, ?(sw_len _ _ _ _ SW); try apply W.
  intros x Hx.
  assert (1 <= tr i j x <= size (mh s)) as Ht by (unfold tr; repeat case_decide; lia).
  destruct (holds_ex s W _ Ht) as [e He]. exists e. split; [by apply holds_swapped|].
  rewrite (sw_index _ _ _ _ SW). pose proof (holds_index s W _ _ He) as Xe.
  assert (forall y, holds s y e -> y = tr i j x) as U by (intros; by eapply holds_inj).
  unfold tr in *. repeat case_decide; subst; try naive_solver lia.
Qed.

Lemma frame_swapped : frame s s'.
Proof using Hi Hj SW W.
  split; [apply SW|apply SW| | | |].
  - intros e. split; intros [x Hx].
    + rewrite holds_swapped in Hx. eauto.
    + exists (tr i j x). rewrite holds_swapped. unfold tr.
      repeat case_decide; subst; simplify_eq; done.
  - intros e He. rewrite (sw_index _ _ _ _ SW). rewrite !decide_False; auto.
  - intros e. rewrite (sw_index _ _ _ _ SW).
    repeat case_decide; try done.
    + pose proof (holds_index s W _ _ H). naive_solver.
    + pose proof (holds_index s W _ _ H0). naive_solver.
  - intros x Hx. rewrite (sw_get _ _ _ _ SW), tr_ne by lia. done.
Qed.
End swapped_facts.

(** ** Heap order

    [le a b] is "b is not less than a", the order the heap keeps; the
    comparison of the callers compares a float field with [<], so [le] is a
    total preorder as long as no key is NaN. *)

Class LessOrder (less : eid -> eid -> bool) : Prop := {
  less_asym a b : less a b = true -> less b a = false;
  less_ntrans a b c : less b a = false -> less c b = false -> less c a = false
}.

Section order.
Context (less : eid -> eid -> bool) `{!LessOrder less}.
Implicit Types (s : st) (i j k c : Z) (e : eid).

Definition le (a b : eid) : Prop := less b a = false.

#[local] Instance le_preorder : PreOrder le.
Proof.
  split.
  - intros a. unfold le. destruct (less a a) eqn:H; [|done].
    pose proof (less_asym _ _ H). congruence.
  - intros a b c H1 H2. unfold le in *. eauto using less_ntrans.
Qed.

(** The cell [i] is not less than its parent. *)
Definition edge s i : Prop := forall a b, holds s i a -> holds s (PARENT i) b -> le b a.

Definition heap_ordered s : Prop := forall i, 2 <= i -> edge s i.

(** The children of [k] are not less than the parent of [k]. *)
Definition grand s k : Prop :=
  2 <= k -> forall c a b, PARENT c = k -> holds s c a -> holds s (PARENT k) b -> le b a.

(** The order may only fail between [k] and its parent ... *)
Definition up_inv s k : Prop := (forall i, 2 <= i -> i <> k -> edge s i) /\ grand s k.

(** ... or between [k] and its neighbours. *)
Definition hole s k : Prop :=
  (forall i, 2 <= i -> i <> k -> PARENT i <> k -> edge s i) /\ grand s k.

Lemma heap_up_inv s k : wf s -> heap_ordered s -> up_inv s k.
Proof using All.
  intros W H. split; [auto|]. intros Hk c a b Hc Ha Hb.
  assert (1 <= k <= size (mh s)) as Hr by (destruct Ha; plia).
  destruct (holds_ex s W k Hr) as [x Hx]. transitivity x.
  - by apply (H k Hk).
  - apply (H c); [plia|done|by rewrite Hc].
Qed.

Lemma up_inv_hole s k : up_inv s k -> hole s k.
Proof. intros [H1 H2]. split; auto. Qed.

Lemma up_inv_heap s k : up_inv s k -> (2 <= k -> edge s k) -> heap_ordered s.
Proof. intros [H1 _] H2 i Hi. destruct (decide (i = k)) as [->|]; auto. Qed.

(** *** Sifting up *)

Lemma up_step s s' k :
  wf s -> up_inv s k -> 1 <= PARENT k -> k <= size (mh s) ->
  (forall a b, holds s k a -> holds s (PARENT k) b -> less a b = true) ->
  swapped s k (PARENT k) s' -> up_inv s' (PARENT k).
Proof using All.
  intros W [Hed Hgr] Hp Hk Hless SW.
  assert (1 <= PARENT k <= size (mh s)) as Rp by (plia).
  assert (1 <= k <= size (mh s)) as Rk by (plia).
  assert (2 <= k) as K2 by (plia).
  destruct (holds_ex s W _ Rk) as [x Hx]. destruct (holds_ex s W _ Rp) as [y Hy].
  assert (le x y) as Lxy by (apply less_asym; eauto).
  pose proof (holds_swapped s s' _ _ Rk Rp SW) as HS. split.
  - intros i Hi Hne a b Ha Hb. rewrite HS in Ha, Hb.
    destruct (decide (i = k)) as [->|Nk].
    { rewrite tr_l in Ha. rewrite tr_r in Hb.
      rewrite (holds_fun s _ _ _ Ha Hy), (holds_fun s _ _ _ Hb Hx). done. }
    rewrite (tr_ne _ _ i) in Ha by done.
    destruct (decide (PARENT i = k)) as [Ek|Nk'].
    { rewrite Ek, tr_l in Hb. rewrite (holds_fun s _ _ _ Hb Hy). by eapply (Hgr K2 i). }
    destruct (decide (PARENT i = PARENT k)) as [Ep|Np].
    { rewrite Ep, tr_r in Hb. rewrite (holds_fun s _ _ _ Hb Hx). transitivity y; [done|].
      apply (Hed i); [done|done|done|]. by rewrite Ep. }
    rewrite (tr_ne _ _ (PARENT i)) in Hb by done. by apply (Hed i).
  - intros Hp2 c a b Hc Ha Hb. rewrite HS in Ha, Hb.
    rewrite (tr_ne _ _ (PARENT _)) in Hb by plia.
    assert (le b y) as Lby by (apply (Hed (PARENT k)); [done|plia|done|done]).
    destruct (decide (c = k)) as [->|Nk].
    { rewrite tr_l in Ha. by rewrite (holds_fun s _ _ _ Ha Hy). }
    rewrite tr_ne in Ha by plia. transitivity y; [done|].
    apply (Hed c); [plia|done|done|]. by rewrite Hc.
Qed.

Lemma wp_less_at s i j Q :
  wf s -> 1 <= i <= size (mh s) -> 1 <= j <= size (mh s) ->
  (forall a b, holds s i a -> holds s j b -> Q (less a b) s) ->
  wpd (less_at less i j) Q s.
Proof.
  intros W Hi Hj HQ.
  destruct (holds_ex s W i Hi) as [a Ha]. destruct (holds_ex s W j Hj) as [b Hb].
  unfold less_at. wp_step. apply (wp_elts_get _ _ _ _ _ (proj2 Ha)).
  wp_step. apply (wp_elts_get _ _ _ _ _ (proj2 Hb)). apply HQ; done.
Qed.

(** Sifting up repairs a heap that is wrong only above [k]. *)
Lemma wp_up s k :
  wf s -> up_inv s k -> 1 <= k <= size (mh s) ->
  wpd (up less k) (fun _ s' => wf s' /\ heap_ordered s' /\ frame s s') s.
Proof using All.
  intros W HU Hk. unfold up.
  apply (wp_loop (fun '(i, p) s' => p = PARENT i /\ wf s' /\ up_inv s' i /\ 1 <= i <= size (mh s')
                                    /\ frame s s')
                 (fun '(i, p) s' => Z.to_nat i)); [|done|lia].
  clear W HU Hk k. intros [k p] t (-> & W & HU & Hk & F). zcase.
  - wp_step. apply wp_less_at; [done|done|plia|]. intros a b Ha Hb. destruct (less a b) eqn:L.
    + wp_step. apply wp_swap; [done|done|plia|]. intros t' SW. wp_step.
      pose proof (sw_size _ _ _ _ SW). split; [|plia].
      split; [done|]. split; [apply (wf_swapped t t' k (PARENT k)); [done|done|plia|done]|].
      split; [|split; [plia|etransitivity; [done|apply (frame_swapped t t' k (PARENT k)); [done|done|plia|done]]]].
      apply (up_step t); [done|done|done|lia| |done]. intros a' b' Ha' Hb'.
      by rewrite (holds_fun t _ _ _ Ha' Ha), (holds_fun t _ _ _ Hb' Hb).
    + wp_step. split; [done|]. split; [|done]. eapply up_inv_heap; [done|].
      intros _ a' b' Ha' Hb'.
      by rewrite (holds_fun t _ _ _ Ha' Ha), (holds_fun t _ _ _ Hb' Hb).
  - wp_step. split; [done|]. split; [|done]. eapply up_inv_heap; [done|]. plia.
Qed.

(** *** Sifting down *)

Lemma down_step s s' k m x y :
  wf s -> hole s k -> 1 <= k <= size (mh s) -> PARENT m = k -> 1 <= m <= size (mh s) ->
  holds s k x -> holds s m y -> le y x ->
  (forall c z, PARENT c = k -> holds s c z -> le y z) ->
  swapped s k m s' -> hole s' m /\ edge s' m.
Proof using All.
  intros W [Hed Hgr] Rk Hm Rm Hx Hy Lyx Hmin SW.
  pose proof (holds_swapped s s' _ _ Rk Rm SW) as HS.
  assert (m <> k) as Nmk by plia.
  split; [split|].
  - intros i Hi Nm Npm a b Ha Hb. rewrite HS in Ha, Hb.
    destruct (decide (i = k)) as [->|Nk].
    { rewrite tr_l in Ha. rewrite tr_ne in Hb by plia.
      rewrite (holds_fun s _ _ _ Ha Hy). by apply (Hgr Hi m). }
    rewrite tr_ne in Ha by done.
    destruct (decide (PARENT i = k)) as [Ek|Nk'].
    { rewrite Ek, tr_l in Hb. rewrite (holds_fun s _ _ _ Hb Hy). by apply (Hmin i). }
    rewrite tr_ne in Hb by done. by apply (Hed i).
  - intros Hm2 c a b Hc Ha Hb. rewrite HS in Ha, Hb. rewrite Hm, tr_l in Hb.
    rewrite tr_ne in Ha by plia. rewrite (holds_fun s _ _ _ Hb Hy).
    apply (Hed c); [plia|plia|plia|done|]. by rewrite Hc.
  - intros a b Ha Hb. rewrite HS in Ha, Hb. rewrite Hm, tr_l in Hb. rewrite tr_r in Ha.
    by rewrite (holds_fun s _ _ _ Ha Hx), (holds_fun s _ _ _ Hb Hy).
Qed.

(** One comparison of the choice of the smallest of [k] and its children:
    the outcome [m'] is not above either of the two cells compared. *)
Lemma wp_pick s c m Q :
  wf s -> 1 <= c -> 1 <= m <= size (mh s) ->
  (forall m', m' = c \/ m' = m -> 1 <= m' <= size (mh s) ->
     (forall u w, holds s m' u -> holds s m w -> le u w) ->
     (forall u w, holds s m' u -> holds s c w -> le u w) -> Q m' s) ->
  wpd (if c <=? size (mh s) then b ← less_at less c m; mret (if b : bool then c else m)
       else mret m) Q s.
Proof using All.
  intros W Hc Hm HQ.
  assert (forall i u w, holds s i u -> holds s i w -> le u w) as Refl.
  { intros i u w Hu Hw. by rewrite (holds_fun s _ _ _ Hu Hw). }
  destruct (Z.leb_spec c (size (mh s))) as [Hl|Hl].
  - wp_step. apply wp_less_at; [done|lia|done|]. intros x y Hx Hy. wp_step.
    assert (forall i u a, holds s i a -> holds s i u -> u = a) as Eq
      by (intros i u a Ha Hu; by rewrite (holds_fun s _ _ _ Hu Ha)).
    destruct (less x y) eqn:L; apply HQ; eauto; try lia; intros u w Hu Hw.
    + rewrite (Eq _ _ _ Hx Hu), (Eq _ _ _ Hy Hw). by apply less_asym.
    + by rewrite (Eq _ _ _ Hy Hu), (Eq _ _ _ Hx Hw).
  - wp_step. apply HQ; eauto. intros u w _ [? _]. lia.
Qed.

(** What the choice of the smaller child gives. *)
Lemma wp_down_min s k Q :
  wf s -> int_heap s -> 1 <= k <= size (mh s) ->
  (forall m, m = k \/ PARENT m = k -> 1 <= m <= size (mh s) ->
     (forall u w, holds s m u -> holds s k w -> le u w) ->
     (forall c u w, PARENT c = k -> holds s m u -> holds s c w -> le u w) -> Q m s) ->
  wpd (down_min less k) Q s.
Proof using All.
  intros W HI Hk HQ. unfold int_heap in HI. unfold down_min. do 2 wp_step.
  { apply Z.leb_le. plia. }
  do 3 wp_step.
  apply wp_pick; [done|plia|done|]. intros m1 C1 R1 Lk Ll. simpl.
  apply wp_pick; [done|plia|done|]. intros m2 C2 R2 L1 Lr. simpl.
  destruct (holds_ex s W _ R1) as [x1 H1].
  apply HQ; [plia|done| |].
  - intros u w Hu Hw. transitivity x1; eauto.
  - intros c u w Hc Hu Hw. assert (c = LEFT k \/ c = RIGHT k) as [->| ->] by plia; [|eauto].
    transitivity x1; eauto.
Qed.

(** Sifting down from [k]: the element of [k] either stays, and then only its
    parent can be wrong, or moves further down and leaves a heap. *)
Lemma wp_down s k e :
  wf s -> int_heap s -> hole s k -> holds s k e ->
  wpd (down less k) (fun _ s' => wf s' /\ frame s s' /\
    ((holds s' k e /\ up_inv s' k) \/ (exists k', k < k' /\ holds s' k' e /\ heap_ordered s'))) s.
Proof using All.
  intros W HI HH He. unfold down. do 2 wp_step.
  apply (wp_loop (fun i s' => wf s' /\ frame s s' /\ holds s' i e /\ hole s' i /\
                              (i = k \/ k < i /\ edge s' i))
                 (fun i s' => Z.to_nat (size (mh s') + 1 - i))); [|naive_solver|lia].
  intros i t (W' & F & Hi & Ho & Hk). wp_step. wp_step.
  rewrite (proj2 (Z.leb_le _ _)) by apply Hi.
  wp_step. apply wp_down_min; [done|by apply (int_heap_le s); [|rewrite (fr_size _ _ F)]|apply Hi|]. intros m Cm Rm Lm Lc.
  destruct (Z.eqb_spec m i) as [->|Nm]; simpl.
  - wp_step. split; [done|]. split; [done|].
    assert (forall j, 2 <= j -> j <> i -> edge t j) as Hed.
    { intros j Hj Nj. destruct (decide (PARENT j = i)) as [Ej|]; [|by apply Ho].
      intros a b Ha Hb. rewrite Ej in Hb. eauto. }
    destruct Hk as [->|[Hk Hei]]; [left; split; [done|split; [done|apply Ho]]|].
    right. exists i. split; [done|]. split; [done|]. intros j Hj.
    destruct (decide (j = i)) as [->|]; eauto.
  - destruct Cm as [?|Cm]; [done|]. destruct (holds_ex t W' _ Rm) as [y Hy].
    destruct (Hi) as [Ri _].
    wp_step. apply wp_swap; [done|done|done|]. intros t' SW. wp_step.
    destruct (down_step t t' i m e y W' Ho Ri Cm Rm Hi Hy (Lm _ _ Hy Hi)) as [Hh Hem]; eauto.
    pose proof (sw_size _ _ _ _ SW). split; [|plia].
    split; [by apply (wf_swapped t t' i m)|].
    split; [etransitivity; [done|by apply (frame_swapped t t' i m)]|].
    split; [rewrite (holds_swapped t t' i m); [by rewrite tr_r|done..]|].
    split; [done|]. right. split; [plia|done].
Qed.

(** The repair both [minheap_change] and [minheap_delete] end with. *)
Lemma wp_repair s k e :
  wf s -> int_heap s -> hole s k -> holds s k e ->
  wpd (down less k;; i ← index_get (Some e); if k =? i then up less k else mret tt)
      (fun _ s' => wf s' /\ heap_ordered s' /\ frame s s') s.
Proof using All.
  intros W HI HH He. wp_step. eapply wp_mono; [by apply (wp_down s k e)|].
  intros _ t (W' & F & [[Ht HU]|(k' & Hlt & Ht & HO)]); wp_step;
    (eapply wp_index_get; [by apply holds_index|]).
  - rewrite Z.eqb_refl. eapply wp_mono; [apply wp_up; [done|done|apply Ht]|].
    intros _ t' (? & ? & ?). split; [done|]. split; [done|]. by etransitivity.
  - rewrite (proj2 (Z.eqb_neq _ _)) by lia. wp_step. done.
Qed.
End order.

(** ** Changing the bounds *)

Definition drop_last (s : st) : st :=
  set_size (size (mh s) - 1) (set_elts (aset (elts (mh s)) (size (mh s)) None) s).

Lemma holds_drop_last s i e :
  wf s -> 1 <= size (mh s) -> holds (drop_last s) i e <-> holds s i e /\ i < size (mh s).
Proof.
  intros W Hs. unfold holds, drop_last. simpl. split.
  - intros [Hi Hg]. rewrite aget_aset_ne in Hg by lia. split; [split; [lia|done]|lia].
  - intros [[Hi Hg] Hlt]. rewrite aget_aset_ne by lia. split; [lia|done].
Qed.

Lemma wf_drop_last s : wf s -> 1 <= size (mh s) -> wf (drop_last s).
Proof.
  intros W Hs. pose proof (wf_cap _ W). pose proof (wf_len _ W). pose proof (wf_size _ W).
  split; simpl; rewrite ?alen_aset; try lia.
  intros i Hi. destruct (wf_elt _ W i ltac:(lia)) as (e & He & Hx). exists e.
  split; [|done]. apply holds_drop_last; [done|done|]. split; [done|lia].
Qed.

Lemma contents_frame s s' : wf s -> wf s' -> frame s s' -> contents s' = contents s.
Proof. intros W W' F. apply set_eq. intros e. rewrite !elem_of_contents by done. apply F. Qed.

(** Cutting off the last cell removes its element. *)
Lemma contents_drop_last s e :
  wf s -> holds s (size (mh s)) e -> contents (drop_last s) = contents s ∖ {[e]}.
Proof.
  intros W He. assert (1 <= size (mh s)) as Hs by (destruct He; lia).
  apply set_eq. intros x. rewrite elem_of_difference, elem_of_singleton.
  rewrite !elem_of_contents by eauto using wf_drop_last.
  setoid_rewrite holds_drop_last; [|done|done]. split.
  - intros (i & Hi & Hlt). split; [eauto|]. intros ->.
    rewrite (holds_inj s W _ _ _ Hi He) in Hlt. lia.
  - intros [[i Hi] Hne]. exists i. split; [done|].
    destruct (decide (i = size (mh s))) as [->|]; [|destruct Hi; lia].
    by rewrite (holds_fun s _ _ _ Hi He) in Hne.
Qed.

Lemma kept_frame s t s' :
  wf t -> wf s' -> frame t s' -> contents t ⊆ contents s ∪ contents s' ->
  (forall e, e ∉ contents s ∪ contents s' -> index t !! e = index s !! e) ->
  (forall e, is_Some (index t !! e) <-> is_Some (index s !! e)) -> kept s s'.
Proof.
  intros Wt W' F Hsub Hx Hd. split.
  - intros e He. rewrite (fr_index _ _ F), Hx; [done|done|].
    intros i Hi. assert (e ∈ contents t) by (rewrite elem_of_contents by done; eauto). set_solver.
  - intros e. rewrite (fr_dom _ _ F). apply Hd.
Qed.

Definition append (elt : eid) (s : st) : st :=
  set_index (<[elt := size (mh s) + 1]> (index s))
    (set_elts (aset (elts (mh s)) (size (mh s) + 1) (Some elt)) (set_size (size (mh s) + 1) s)).

Lemma holds_append s elt i e :
  wf s -> size (mh s) < cap (mh s) - 1 ->
  holds (append elt s) i e <-> holds s i e \/ (i = size (mh s) + 1 /\ e = elt).
Proof.
  intros W Hc. pose proof (wf_len _ W). pose proof (wf_size _ W).
  unfold holds, append. simpl. rewrite aget_aset by (unfold in_range; lia).
  case_decide; naive_solver lia.
Qed.

Lemma wf_append s elt :
  wf s -> size (mh s) < cap (mh s) - 1 -> (forall i, ~ holds s i elt) -> wf (append elt s).
Proof.
  intros W Hc Hn. pose proof (wf_cap _ W). pose proof (wf_len _ W). pose proof (wf_size _ W).
  split; simpl; rewrite ?alen_aset; try lia.
  intros i Hi. setoid_rewrite holds_append; [|done|done].
  destruct (decide (i = size (mh s) + 1)) as [->|].
  - exists elt. split; [by right|]. by rewrite lookup_insert_eq.
  - destruct (wf_elt _ W i ltac:(lia)) as (e & He & Hx). exists e. split; [by left|].
    rewrite lookup_insert_ne; [done|]. intros ->. naive_solver.
Qed.

Lemma contents_append s elt :
  wf s -> size (mh s) < cap (mh s) - 1 -> (forall i, ~ holds s i elt) ->
  contents (append elt s) = {[elt]} ∪ contents s.
Proof.
  intros W Hc Hn. apply set_eq. intros x. rewrite elem_of_union, elem_of_singleton.
  rewrite !elem_of_contents by eauto using wf_append.
  setoid_rewrite holds_append; [|done|done]. naive_solver.
Qed.

Lemma wp_grow s Q :
  wf s -> cap (mh s) * 2 <= INT_MAX ->
  (forall s', wf s' -> cap (mh s') = cap (mh s) * 2 -> size (mh s') = size (mh s) ->
     (forall i e, holds s' i e <-> holds s i e) -> index s' = index s -> Q tt s') ->
  wpd grow Q s.
Proof.
  intros W Hc HQ. pose proof (wf_cap _ W). pose proof (wf_len _ W). pose proof (wf_size _ W).
  unfold grow. do 2 wp_step. wp_step. wp_step; [by apply Z.leb_le|]. wp_step.
  match goal with |- Q tt ?t => set (s' := t) end.
  assert (forall i e, holds s' i e <-> holds s i e) as HS.
  { intros i e. unfold holds. simpl. split; intros [Hi Hg]; (split; [done|]).
    - by rewrite aget_app_l in Hg by lia.
    - by rewrite aget_app_l by lia. }
  apply HQ; try done. split; simpl; try lia.
  - rewrite alen_app, alen_replicate. lia.
  - intros i Hi. destruct (wf_elt _ W i Hi) as (e & He & Hx). exists e. by rewrite HS.
Qed.

Section spec.
Context (less : eid -> eid -> bool) `{!LessOrder less}.
#[local] Existing Instance le_preorder.
Implicit Types (s : st) (e elt : eid).

Lemma heap_ordered_ext s s' :
  (forall i e, holds s' i e <-> holds s i e) -> heap_ordered less s -> heap_ordered less s'.
Proof. intros HS H i Hi a b. rewrite !HS. by apply H. Qed.

(** Only the keys of the members matter. *)
Lemma heap_ordered_agree (less0 : eid -> eid -> bool) s :
  wf s -> (forall a b, a ∈ contents s -> b ∈ contents s -> less a b = less0 a b) ->
  heap_ordered less0 s -> heap_ordered less s.
Proof.
  intros W Hag HO i Hi a b Ha Hb. unfold le. rewrite Hag; [by apply (HO i)|..]; rewrite elem_of_contents by done; eauto.
Qed.

Lemma root_minimal s r x i :
  wf s -> heap_ordered less s -> holds s 1 r -> holds s i x -> le less r x.
Proof using All.
  intros W HO Hr. revert x. induction i as [i IH] using (well_founded_induction (Z.lt_wf 1)).
  intros x Hx. destruct (decide (i = 1)) as [->|Hne].
  - by rewrite (holds_fun s _ _ _ Hx Hr).
  - assert (1 <= PARENT i <= size (mh s)) as Hp by (destruct Hx; plia).
    destruct (holds_ex s W _ Hp) as [y Hy]. transitivity y.
    + apply (IH (PARENT i)); [plia|done].
    + apply (HO i); [destruct Hx; lia|done|done].
Qed.

(** The last cell holds an element without children: only its own parent can be wrong. *)
Lemma up_inv_append s elt :
  wf s -> heap_ordered less s -> size (mh s) < cap (mh s) - 1 ->
  up_inv less (append elt s) (size (mh s) + 1).
Proof.
  intros W HO Hc. split.
  - intros i Hi Hne a b Ha Hb. rewrite holds_append in Ha, Hb by done.
    destruct Ha as [Ha|[? _]]; [|done]. destruct Hb as [Hb|[Hb _]]; [by apply (HO i)|].
    destruct Ha. plia.
  - intros Hk c a b Hc' Ha _. rewrite holds_append in Ha by done. destruct Ha as [[? _]|[? _]]; plia.
Qed.

(** Moving the last element into cell [k] of a heap leaves a hole at [k]. *)
Lemma hole_drop_last s s' k :
  wf s -> heap_ordered less s -> 1 <= k <= size (mh s) ->
  swapped s k (size (mh s)) s' -> hole less (drop_last s') k.
Proof using All.
  intros W HO Hk SW. assert (1 <= size (mh s) <= size (mh s)) as Hl by lia.
  assert (wf s') as W' by (by apply (wf_swapped s s' k (size (mh s)))).
  pose proof (sw_size _ _ _ _ SW) as Es.
  assert (forall i e, i <> k -> holds (drop_last s') i e -> holds s i e) as HS.
  { intros i e Hne Hi. rewrite holds_drop_last in Hi by (done || lia).
    destruct Hi as [Hi Hlt]. rewrite (holds_swapped s s' k (size (mh s))) in Hi by done.
    by rewrite tr_ne in Hi by lia. }
  split.
  - intros i Hi Hne Hnp a b Ha Hb. apply (HO i); auto.
  - intros Hk2 c a b Hc Ha Hb.
    apply (proj2 (heap_up_inv less s k W HO) Hk2 c); [done|apply HS; [plia|done]|apply HS; [plia|done]].
Qed.

Lemma contents_cut s s' k e :
  wf s -> holds s k e -> swapped s k (size (mh s)) s' -> contents (drop_last s') = contents s ∖ {[e]}.
Proof.
  intros W He SW. assert (1 <= size (mh s) <= size (mh s)) as Hl by (destruct He; lia).
  destruct (He) as [Hk _].
  assert (wf s') as W' by (by apply (wf_swapped s s' k (size (mh s)))).
  rewrite (contents_drop_last s' e).
  - f_equal. apply contents_frame; [done|done|]. by apply (frame_swapped s s' k (size (mh s))).
  - done.
  - rewrite (sw_size _ _ _ _ SW), (holds_swapped s s' k (size (mh s))) by done. by rewrite tr_r.
Qed.

Lemma kept_pop s t t' k r :
  wf s -> holds s k r -> swapped s k (size (mh s)) t -> wf t' -> frame (drop_last t) t' ->
  kept s (set_index (<[r := 0]> (index t')) t').
Proof.
  intros W Hr SW W' F. assert (1 <= size (mh s) <= size (mh s)) as Hl by (destruct Hr; lia).
  destruct Hr as [Hk Hr]. pose proof (frame_swapped s t k (size (mh s)) W Hk Hl SW) as F0.
  assert (wf t) as Wt by (by apply (wf_swapped s t k (size (mh s)))).
  assert (forall e, (forall i, ~ holds s i e) -> forall i, ~ holds (drop_last t) i e) as Hd.
  { intros e He i. rewrite holds_drop_last by (rewrite ?(sw_size _ _ _ _ SW); done || lia).
    intros [Hi _]. destruct (fr_holds _ _ F0 e) as [[j Hj] _]; [eauto|]. by apply (He j). }
  assert (is_Some (index s !! r)) as Hsr by (rewrite (holds_index s W k r) by done; eauto).
  split; simpl.
  - intros e He. assert (forall i, ~ holds s i e) as Hn.
    { intros i Hi. assert (e ∈ contents s) by (rewrite elem_of_contents by done; eauto). set_solver. }
    rewrite lookup_insert_ne by (intros ->; by apply (Hn k)).
    rewrite (fr_index _ _ F) by auto. simpl. by apply F0.
  - intros e. rewrite lookup_insert. case_decide; [subst; naive_solver|]. rewrite (fr_dom _ _ F). apply F0.
Qed.

Lemma wp_down_past s k Q : size (mh s) < k -> Q tt s -> wpd (down less k) Q s.
Proof.
  intros Hk HQ. unfold down. do 2 wp_step. simpl. do 3 wp_step.
  rewrite (proj2 (Z.leb_gt _ _)) by lia. by do 2 wp_step.
Qed.
End spec.

Section ops_spec.
Context (less : eid -> eid -> bool) `{!LessOrder less}.
Implicit Types (s : st) (e elt : eid).

(** The part of [minheap_push] after the array has room. *)
Lemma wp_push_room s elt Q :
  wf s -> heap_ordered less s -> index s !! elt = Some 0 -> size (mh s) < cap (mh s) - 1 ->
  (forall s', wf s' -> heap_ordered less s' -> frame (append elt s) s' -> Q tt s') ->
  wpd (s ← get;
       let n := size (mh s) + 1 in
       modify (set_size n);;
       elts_set n (Some elt);;
       index_set (Some elt) n;;
       i ← index_get (Some elt);
       up less i) Q s.
Proof using All.
  intros W HO Hx Hc HQ. pose proof (wf_len _ W). pose proof (wf_size _ W).
  pose proof (not_holds_zero s W elt Hx) as Hn.
  do 2 wp_step. do 2 wp_step.
  wp_step. apply wp_elts_set; [unfold in_range; simpl; lia|].
  wp_step. apply wp_index_set; [simpl; eauto|].
  wp_step. eapply wp_index_get; [simpl; by rewrite lookup_insert_eq|].
  eapply wp_mono; [apply (wp_up less (append elt s))|].
  - by apply wf_append.
  - by apply up_inv_append.
  - simpl. lia.
  - intros [] t (? & ? & ?). by apply HQ.
Qed.

Lemma push_spec s elt :
  wf s -> heap_ordered less s -> index s !! elt = Some 0 ->
  (size (mh s) < cap (mh s) - 1 \/ cap (mh s) * 2 <= INT_MAX) ->
  wpd (minheap_push less elt) (fun _ s' =>
    wf s' /\ heap_ordered less s' /\ contents s' = {[elt]} ∪ contents s /\
    size (mh s') = size (mh s) + 1 /\ kept s s' /\
    (cap (mh s') = cap (mh s) \/ cap (mh s') = cap (mh s) * 2 /\ cap (mh s) <= size (mh s) + 1)) s.
Proof using All.
  intros W HO Hx Hroom. pose proof (not_holds_zero s W elt Hx) as Hn.
  assert (forall t, wf t -> (forall i e, holds t i e <-> holds s i e) ->
    size (mh t) = size (mh s) -> index t = index s -> size (mh t) < cap (mh t) - 1 ->
    forall s', wf s' -> frame (append elt t) s' ->
    contents s' = {[elt]} ∪ contents s /\ size (mh s') = size (mh s) + 1 /\ kept s s') as Hend.
  { intros t Wt HS Es Ei Hc s' W' F.
    assert (forall i, ~ holds t i elt) as Hn' by (intros i; rewrite HS; auto).
    assert (contents s' = {[elt]} ∪ contents s) as C'.
    { rewrite (contents_frame (append elt t) s'), contents_append by eauto using wf_append.
      f_equal. apply set_eq. intros x. rewrite !elem_of_contents by done. by setoid_rewrite HS. }
    split; [done|]. split; [rewrite (fr_size _ _ F); simpl; lia|].
    apply (kept_frame s (append elt t)); [by apply wf_append|done|done| | |]; simpl.
    - rewrite <- (contents_frame (append elt t) s') by eauto using wf_append. set_solver.
    - intros e He. rewrite Ei, lookup_insert_ne; [done|set_solver].
    - intros e. rewrite Ei, lookup_insert. case_decide; subst; naive_solver. }
  unfold minheap_push. wp_step. eapply wp_index_get; [done|]. simpl. do 2 wp_step.
  pose proof (wf_size _ W) as Hsz.
  wp_step. wp_step; destruct (Z.leb_spec (cap (mh s) - 1) (size (mh s))); try done.
  - apply wp_grow; [done|lia|]. intros t Wt Ec Es HS Ei.
    apply (wp_push_room t elt); [done|by eapply heap_ordered_ext|by rewrite Ei|lia|].
    intros s' W' HO' F. destruct (Hend t Wt HS Es Ei ltac:(lia) s' W' F) as (?&?&?).
    do 5 (split; [done|]). right. rewrite (fr_cap _ _ F). simpl. lia.
  - apply (wp_push_room s elt); [done|done|done|lia|]. intros s' W' HO' F.
    destruct (Hend s W ltac:(done) eq_refl eq_refl ltac:(lia) s' W' F) as (?&?&?).
    do 5 (split; [done|]). left. by rewrite (fr_cap _ _ F).
Qed.

(** [minheap_pop] on a heap that is not empty. *)
Lemma pop_spec s :
  wf s -> int_heap s -> heap_ordered less s -> 0 < size (mh s) ->
  wpd (minheap_pop less) (fun r s' => exists e, r = Some e /\
    e ∈ contents s /\ (forall x, x ∈ contents s -> less x e = false) /\
    wf s' /\ heap_ordered less s' /\ contents s' = contents s ∖ {[e]} /\
    index s' !! e = Some 0 /\ size (mh s') = size (mh s) - 1 /\ cap (mh s') = cap (mh s) /\ kept s s') s.
Proof using All.
  intros W HI HO Hs. destruct (holds_ex s W 1 ltac:(lia)) as [r Hr].
  assert (r ∈ contents s) as Hin by (rewrite elem_of_contents by done; eauto).
  assert (forall x, x ∈ contents s -> less x r = false) as Hmin.
  { intros x. rewrite elem_of_contents by done. intros [i Hi]. by eapply root_minimal. }
  unfold minheap_pop. do 2 wp_step. rewrite (proj2 (Z.ltb_lt _ _)) by done.
  wp_step. apply (wp_elts_get _ _ _ _ _ (proj2 Hr)).
  wp_step. apply wp_swap; [done|lia|lia|]. intros t SW.
  assert (wf t) as Wt by (apply (wf_swapped s t 1 (size (mh s))); [done|lia|lia|done]).
  pose proof (sw_size _ _ _ _ SW) as Es.
  wp_step. apply wp_elts_set; [apply wf_range; [done|lia]|].
  wp_step. wp_step.
  replace (set_size _ _) with (drop_last t) by (unfold drop_last; by rewrite Es).
  assert (wf (drop_last t)) as Wd by (apply wf_drop_last; [done|lia]).
  assert (hole less (drop_last t) 1) as Hh by (apply (hole_drop_last less s); [done|done|lia|done]).
  pose proof (contents_cut s t 1 r W Hr SW) as Ct.
  (* the popped element's index field is reset last *)
  assert (forall t', wf t' -> heap_ordered less t' -> frame (drop_last t) t' ->
    wpd (index_set (Some r) 0;; mret (Some r)) (fun r0 s' => exists e, r0 = Some e /\
      e ∈ contents s /\ (forall x, x ∈ contents s -> less x e = false) /\
      wf s' /\ heap_ordered less s' /\ contents s' = contents s ∖ {[e]} /\
      index s' !! e = Some 0 /\ size (mh s') = size (mh s) - 1 /\ cap (mh s') = cap (mh s) /\ kept s s') t') as Hend.
  { intros t' W' HO' F. pose proof (contents_frame _ _ Wd W' F) as C'.
    assert (forall i, ~ holds t' i r) as Hn.
    { intros i Hi. assert (r ∈ contents t') by (rewrite elem_of_contents by done; eauto). set_solver. }
    wp_step. apply wp_index_set.
    { apply (fr_dom _ _ F). simpl. rewrite (sw_index _ _ _ _ SW). rewrite decide_True by done. eauto. }
    wp_step. exists r. do 3 (split; [done|]). split.
    { destruct W'. split; simpl; try done. intros i Hi.
      destruct (wf_elt0 i Hi) as (e & He & Hx). exists e. split; [done|].
      rewrite lookup_insert_ne; [done|]. intros ->. naive_solver. }
    split; [done|]. split; [by rewrite <- Ct, <- C'|]. split; [simpl; by rewrite lookup_insert_eq|].
    split; [|split]; [| |by eapply kept_pop].
    - simpl. rewrite (fr_size _ _ F). simpl. lia.
    - simpl. rewrite (fr_cap _ _ F). simpl. apply SW. }
  destruct (decide (size (mh s) = 1)) as [E1|Hgt].
  - wp_step. apply wp_down_past; [simpl; lia|]. apply Hend; [done| |reflexivity].
    intros i Hi a b [Ha _]. simpl in Ha. lia.
  - destruct (holds_ex (drop_last t) Wd 1) as [x Hx]; [simpl; lia|].
    wp_step. eapply wp_mono; [apply (wp_down less _ 1 x); [done|apply (int_heap_le s); [done|simpl; lia]|done..]|].
    intros [] t' (W' & F & [[_ HU]|(k' & _ & _ & HO')]); apply Hend; try done.
    eapply up_inv_heap; [done|]. lia.
Qed.

Lemma hole_rekey (less0 : eid -> eid -> bool) `{!LessOrder less0} s k elt :
  wf s -> heap_ordered less0 s -> holds s k elt ->
  (forall a b, a <> elt -> b <> elt -> less a b = less0 a b) -> hole less s k.
Proof.
  intros W HO Hk Hag.
  assert (forall i e, i <> k -> holds s i e -> e <> elt) as Hne.
  { intros i e Hi He ->. by rewrite (holds_inj s W _ _ _ He Hk) in Hi. }
  split.
  - intros i Hi Nk Np a b Ha Hb. unfold le. rewrite Hag by eauto. by apply (HO i).
  - intros Hk2 c a b Hc Ha Hb. unfold le. rewrite Hag.
    + by apply (proj2 (heap_up_inv less0 s k W HO) Hk2 c).
    + eapply Hne; [|done]. plia.
    + eapply Hne; [|done]. plia.
Qed.

Lemma change_spec s k elt :
  wf s -> int_heap s -> hole less s k -> holds s k elt ->
  wpd (minheap_change less elt) (fun _ s' => wf s' /\ heap_ordered less s' /\ frame s s') s.
Proof using All.
  intros W HI HH He. unfold minheap_change. wp_step.
  eapply wp_index_get; [by apply holds_index|]. by apply wp_repair.
Qed.

(** After a deletion the element is out of the heap, but its [index] field
    still names the cell that was cut off. *)
Lemma delete_spec s k elt :
  wf s -> int_heap s -> heap_ordered less s -> holds s k elt ->
  wpd (minheap_delete less elt) (fun _ s' =>
    wf s' /\ heap_ordered less s' /\ contents s' = contents s ∖ {[elt]} /\
    size (mh s') = size (mh s) - 1 /\ cap (mh s') = cap (mh s) /\
    index s' !! elt = Some (size (mh s)) /\ aget (elts (mh s')) (size (mh s)) = Some None) s.
Proof using All.
  intros W HI HO Hk. destruct (Hk) as [Rk _]. pose proof (holds_index s W _ _ Hk) as Xk.
  unfold minheap_delete. do 2 wp_step. rewrite (proj2 (Z.ltb_lt _ _)) by lia.
  wp_step. eapply wp_index_get; [done|].
  destruct (decide (k = size (mh s))) as [Ek|Nk].
  - rewrite Ek, Z.eqb_refl, orb_true_r.
    wp_step. apply wp_elts_set; [by apply wf_range; [|lia]|]. wp_step. fold (drop_last s).
    split; [apply wf_drop_last; [done|lia]|]. split.
    { intros i Hi a b Ha Hb. rewrite holds_drop_last in Ha, Hb by (done || lia).
      apply (HO i); [done|apply Ha|apply Hb]. }
    split; [apply contents_drop_last; [done|by rewrite <- Ek]|].
    split; [done|]. split; [done|]. simpl. split; [by rewrite Xk, Ek|].
    apply aget_aset_eq, wf_range; [done|lia].
  - rewrite !(proj2 (Z.eqb_neq _ _)) by lia. simpl.
    destruct (holds_ex s W (size (mh s)) ltac:(lia)) as [l Hl].
    wp_step. apply (wp_elts_get _ _ _ _ _ (proj2 Hl)).
    wp_step. apply wp_swap; [done|lia|lia|]. intros t SW.
    assert (wf t) as Wt by (apply (wf_swapped s t k (size (mh s))); [done|lia|lia|done]).
    pose proof (sw_size _ _ _ _ SW) as Es.
    wp_step. apply wp_elts_set; [apply wf_range; [done|lia]|].
    wp_step. wp_step. rewrite <- Es. fold (drop_last t).
    assert (wf (drop_last t)) as Wd by (apply wf_drop_last; [done|lia]).
    assert (holds (drop_last t) k l) as Hkl.
    { rewrite holds_drop_last by (done || lia). split; [|lia].
      rewrite (holds_swapped s t k (size (mh s))) by (done || lia). by rewrite tr_l. }
    wp_step. eapply wp_index_get; [by apply (holds_index _ Wd)|].
    eapply wp_mono; [apply (wp_repair less); [done|apply (int_heap_le s); [done|simpl; lia]|by apply (hole_drop_last less s)|done]|].
    intros [] t' (W' & HO' & F). do 2 (split; [done|]).
    pose proof (contents_cut s t k elt W Hk SW) as Ct.
    split; [by rewrite (contents_frame _ _ Wd W' F)|].
    rewrite (fr_size _ _ F), (fr_cap _ _ F). simpl. rewrite (sw_cap _ _ _ _ SW).
    split; [done|]. split; [done|]. rewrite (fr_rest _ _ F) by (simpl; lia).
    split; [|by apply aget_aset_eq, wf_range; [|lia]]. rewrite (fr_index _ _ F).
    + simpl. rewrite (sw_index _ _ _ _ SW). rewrite decide_True by done. by rewrite Es.
    + intros i Hi. assert (elt ∈ contents (drop_last t)) by (rewrite elem_of_contents by done; eauto).
      set_solver.
Qed.
End ops_spec.

(** Pushing an element whose [index] names the first cell behind the heap. *)
Lemma push_stale less s elt n :
  wf s -> index s !! elt = Some n -> n = size (mh s) + 1 -> 2 <= n ->
  aget (elts (mh s)) n = Some None -> minheap_push less elt s = Fault NullDeref.
Proof.
  intros W Hx Hn H2 Hg. assert (index_get (Some elt) s = Done n s) as Hi.
  { unfold index_get, mbind, M_bind, get. simpl. by rewrite Hx. }
  unfold minheap_push. erewrite bind_Done by done. rewrite (proj2 (Z.eqb_neq _ _)) by lia. simpl.
  unfold minheap_change. erewrite bind_Done by done.
  assert (down less n s = Done tt s) as Hd.
  { pose proof (wp_down_past less s n (fun _ s' => s' = s) ltac:(lia) eq_refl) as H.
    apply wpd_Done in H as ([] & s' & -> & ->). done. }
  erewrite bind_Done by done. erewrite bind_Done by done. rewrite Z.eqb_refl.
  unfold up. simpl. unfold mbind at 1, M_bind at 1.
  rewrite (proj2 (Z.leb_le _ _)) by plia.
  destruct (holds_ex s W (PARENT n) ltac:(plia)) as [e [_ He]].
  unfold less_at, elts_get, mbind, M_bind, get, deref. rewrite Hg. simpl. by rewrite He.
Qed.

(** ** Clearing *)

#[local] Instance cleared_dec s i e : Decision (exists j, j < i /\ holds s j e).
Proof.
  destruct (decide (Exists (fun j => j < i /\ holds s j e) (seqZ 1 (size (mh s))))) as [H|H].
  - left. apply Exists_exists in H as (j & _ & Hj). eauto.
  - right. intros (j & Hj & He). apply H, Exists_exists. exists j. split; [|done].
    apply elem_of_seqZ. destruct He; lia.
Defined.

(** While cell [i] is next, the elements before it have index 0 and the rest is as it was. *)
Definition clear_inv (s : st) (i : Z) (t : st) : Prop :=
  mh t = mh s /\ 1 <= i <= size (mh s) + 1 /\
  forall e, index t !! e = if decide (exists j, j < i /\ holds s j e) then Some 0 else index s !! e.

(** Clearing calls back each element of the heap once, in the order of the cells, and then
    cuts the heap to nothing. [I i] holds when cell [i] is next. *)
Lemma wp_clear {T} (g : T -> st) p clear (I : Z -> T -> Prop) Q t0 :
  (forall t, p (g t) t = t) -> wf (g t0) -> I 1 t0 ->
  (forall i e t, holds (g t0) i e -> I i t -> mh (g t) = mh (g t0) ->
     wpd (match clear with Some f => f e | None => zoom g p (index_set (Some e) 0) end)
       (fun _ t' => I (i + 1) t' /\ mh (g t') = mh (g t0)) t) ->
  (forall t, I (size (mh (g t0)) + 1) t -> mh (g t) = mh (g t0) -> Q tt (p (set_size 0 (g t)) t)) ->
  wpd (minheap_clear g p clear) Q t0.
Proof.
  intros Hp W H1 Hf HQ. pose proof (wf_size _ W) as Hsz. unfold minheap_clear. do 2 wp_step. wp_step.
  apply (wp_loop (fun i t => I i t /\ mh (g t) = mh (g t0) /\ 1 <= i <= size (mh (g t0)) + 1)
           (fun i _ => Z.to_nat (size (mh (g t0)) + 1 - i))); [| |lia].
  - intros i t (Hi & Em & Hr). do 2 wp_step. rewrite Em. destruct (Z.leb_spec i (size (mh (g t0)))) as [Hle|Hgt].
    + destruct (holds_ex _ W i ltac:(lia)) as [e He].
      wp_step. wp_step. eapply wp_elts_get; [rewrite Em; apply He|]. rewrite Hp.
      specialize (Hf i e t He Hi Em). wp_step.
      eapply wp_mono; [destruct clear; exact Hf|]. intros [] t' [HI' Em']. wp_step.
      split; [split; [done|split; [done|]]|]; lia.
    + wp_step. wp_step. wp_step. apply HQ; [|done]. by replace (size _ + 1) with i by lia.
  - split; [done|]. split; [done|lia].
Qed.

Lemma wf_empty s : 1 <= cap (mh s) -> alen (elts (mh s)) = cap (mh s) -> wf (set_size 0 s).
Proof. intros. split; simpl; lia. Qed.

Lemma wp_clear_null s :
  wf s ->
  wpd minheap_clear_null (fun _ s' =>
    wf s' /\ size (mh s') = 0 /\ contents s' = ∅ /\
    (forall e, index s' !! e = if decide (e ∈ contents s) then Some 0 else index s !! e)) s.
Proof.
  intros W. pose proof (wf_size _ W) as Hsz. pose proof (wf_len _ W). pose proof (wf_cap _ W).
  apply (wp_clear _ _ _ (clear_inv s)); [done|done| | |].
  - split; [done|]. split; [lia|]. intros e. rewrite decide_False; [done|].
    intros (j & Hj & [He _]). lia.
  - unfold id. intros i x t Hx' (Em & Hi & Hx) _. wp_step. apply wp_index_set.
    { rewrite Hx. rewrite (holds_index s W _ _ Hx'). case_decide; eauto. }
    split; [|done]. split; [done|]. split; [destruct Hx'; lia|]. intros e. simpl.
    rewrite lookup_insert, Hx. destruct (decide (x = e)) as [->|Hne].
    + rewrite decide_True; [done|]. exists i. split; [lia|done].
    + apply decide_ext. split; intros (j & Hj & He).
      { exists j. split; [lia|done]. }
      { exists j. split; [|done]. destruct (decide (j = i)) as [->|]; [|lia].
        by rewrite (holds_fun s _ _ _ Hx' He) in Hne. }
  - unfold id. intros t (Em & _ & Hx) _. split; [apply wf_empty; by rewrite Em|].
    split; [done|]. split; [done|].
    intros e. simpl. rewrite Hx. apply decide_ext. rewrite elem_of_contents by done.
    split; [naive_solver|]. intros [j Hj]. exists j. split; [|done]. destruct Hj; lia.
Qed.

(** ** Checkers, to evaluate the invariants on concrete heaps *)

Definition wf_check (s : st) : bool :=
  let h := mh s in
  (1 <=? cap h) && (alen (elts h) =? cap h) && (0 <=? size h) && (size h <? cap h) &&
  forallb (fun i => match aget (elts h) i with
                    | Some (Some e) => bool_decide (index s !! e = Some i)
                    | _ => false end) (seqZ 1 (size h)).

Definition ordered_check (less : eid -> eid -> bool) (s : st) : bool :=
  forallb (fun i => match aget (elts (mh s)) i, aget (elts (mh s)) (PARENT i) with
                    | Some (Some a), Some (Some b) => negb (less a b)
                    | _, _ => true end) (seqZ 2 (size (mh s) - 1)).

Lemma wf_check_sound s : wf_check s = true -> wf s.
Proof.
  unfold wf_check. rewrite !andb_true_iff, forallb_forall.
  intros [[[[? ?] ?] ?] Hf]. split; try lia.
  intros i Hi. specialize (Hf i). rewrite <- list_elem_of_In, elem_of_seqZ in Hf. specialize (Hf ltac:(lia)).
  destruct (aget (elts (mh s)) i) as [[e|]|] eqn:Hg; try done.
  exists e. apply bool_decide_eq_true in Hf. split; [|done]. by split.
Qed.

Lemma ordered_check_sound less s : ordered_check less s = true -> heap_ordered less s.
Proof.
  unfold ordered_check. rewrite forallb_forall.
  intros Hf i Hi a b [Hr Ha] [_ Hb]. specialize (Hf i). rewrite <- list_elem_of_In, elem_of_seqZ in Hf.
  specialize (Hf ltac:(lia)). rewrite Ha, Hb in Hf. unfold le. by destruct (less a b).
Qed.

(** ** The properties *)

Section properties.
Context (less : eid -> eid -> bool) `{!LessOrder less}.


(** C11: popping a non-empty heap returns one of its minimal elements, removes
    exactly it, resets its [index] field and keeps the heap's shape and order;
    popping an empty heap returns NULL and changes nothing. The heap has fewer
    than 2^30 elements, so that [RIGHT] of a cell fits an int. *)
Theorem minheap_pop_correct s :
  wf s -> int_heap s -> heap_ordered less s ->
  exists r s', minheap_pop less s = Done r s' /\ wf s' /\ heap_ordered less s' /\
    match r with
    | None => contents s = ∅ /\ s' = s
    | Some e => e ∈ contents s /\ (forall x, x ∈ contents s -> less x e = false) /\
                contents s' = contents s ∖ {[e]} /\ index s' !! e = Some 0
    end.
Proof using All.
  intros W HI HO. destruct (decide (0 < size (mh s))) as [Hs|Hs].
  - pose proof (pop_spec less s W HI HO Hs) as H.
    apply wpd_Done in H as (r & s' & -> & (e & -> & H)). exists (Some e), s'. naive_solver.
  - exists None, s. pose proof (wf_size _ W). split.
    + unfold minheap_pop, mbind, M_bind, get. by rewrite (proj2 (Z.ltb_ge _ _)) by lia.
    + do 2 (split; [done|]). split; [|done]. apply set_eq. intros e.
      rewrite elem_of_contents by done. split; [intros [i [Hi _]]; lia|set_solver].
Qed.

(** After the key of one element of the heap has changed in any direction,
    [minheap_change] on that element restores the heap order under the new
    keys and keeps the contents. *)
Theorem minheap_change_correct (less0 : eid -> eid -> bool) `{!LessOrder less0} s elt :
  wf s -> int_heap s -> heap_ordered less0 s -> elt ∈ contents s ->
  (forall a b, a <> elt -> b <> elt -> less a b = less0 a b) ->
  exists s', minheap_change less elt s = Done tt s' /\
    wf s' /\ heap_ordered less s' /\ contents s' = contents s.
Proof using All.
  intros W HI HO Hin Hag. rewrite elem_of_contents in Hin by done. destruct Hin as [k Hk].
  pose proof (change_spec less s k elt W HI (hole_rekey less less0 s k elt W HO Hk Hag) Hk) as H.
  apply wpd_Done in H as ([] & s' & -> & W' & HO' & F). exists s'.
  split; [done|]. split; [done|]. split; [done|]. by apply contents_frame.
Qed.

(** C13: deleting an element of the heap removes exactly it and keeps the
    heap's shape and order, wherever the element is, in a heap of fewer than
    2^30 elements. *)
Theorem minheap_delete_correct s elt :
  wf s -> int_heap s -> heap_ordered less s -> elt ∈ contents s ->
  exists s', minheap_delete less elt s = Done tt s' /\
    wf s' /\ heap_ordered less s' /\ contents s' = contents s ∖ {[elt]}.
Proof using All.
  intros W HI HO Hin. rewrite elem_of_contents in Hin by done. destruct Hin as [k Hk].
  pose proof (delete_spec less s k elt W HI HO Hk) as H.
  apply wpd_Done in H as ([] & s' & -> & H). naive_solver.
Qed.

(** [minheap_delete] leaves the [index] field of the element set, so a
    later [minheap_push] of the same element takes it for a member: it does
    not insert it but compares the NULL cell that was cut off, a NULL
    dereference as soon as the heap had two elements. *)
Theorem minheap_delete_push_faults s elt :
  wf s -> int_heap s -> heap_ordered less s -> elt ∈ contents s -> 2 <= size (mh s) ->
  exists s', minheap_delete less elt s = Done tt s' /\
    (elt ∉ contents s') /\ minheap_push less elt s' = Fault NullDeref.
Proof using All.
  intros W HI HO Hin Hs. rewrite elem_of_contents in Hin by done. destruct Hin as [k Hk].
  pose proof (delete_spec less s k elt W HI HO Hk) as H.
  apply wpd_Done in H as ([] & s' & Hd & W' & HO' & C' & Es & Ec & Hx & Hn). exists s'.
  split; [done|]. split; [set_solver|]. eapply push_stale; [done|done|lia|lia|done].
Qed.

(** Clearing with no callback empties the heap and resets the [index]
    field of exactly the elements it held. *)
Theorem minheap_clear_correct s :
  wf s ->
  exists s', minheap_clear_null s = Done tt s' /\ wf s' /\ contents s' = ∅ /\
    (forall e, index s' !! e = if decide (e ∈ contents s) then Some 0 else index s !! e).
Proof.
  intros W. pose proof (wp_clear_null s W) as H.
  apply wpd_Done in H as ([] & s' & -> & H). naive_solver.
Qed.
End properties.

(** ** The properties on concrete heaps *)

(** A comparison of integer keys. *)
Definition less_key (key : eid -> Z) (a b : eid) : bool := key a <? key b.

#[export] Instance less_key_order key : LessOrder (less_key key).
Proof. unfold less_key. split; intros *; rewrite ?Z.ltb_lt, ?Z.ltb_ge; lia. Qed.

Definition key0 : eid -> Z := Zpos.
Definition key1 (e : eid) : Z := if bool_decide (e = 3%positive) then 0 else Zpos e.

Definition ex_empty : st :=
  MkSt (minheap_create 4) (list_to_map [(1%positive, 0); (2%positive, 0); (3%positive, 0); (4%positive, 0)]).

(** The heap after pushing 3, 1 and 2. *)
Definition ex_three : st :=
  match (minheap_push (less_key key0) 3;; minheap_push (less_key key0) 1;;
         minheap_push (less_key key0) 2)%positive ex_empty with
  | Done _ s => s
  | _ => ex_empty
  end.


Lemma minheap_pop_witness :
  exists r s', minheap_pop (less_key key0) ex_three = Done r s' /\ wf s' /\
    heap_ordered (less_key key0) s' /\
    match r with
    | None => contents ex_three = ∅ /\ s' = ex_three
    | Some e => e ∈ contents ex_three /\
                (forall x, x ∈ contents ex_three -> less_key key0 x e = false) /\
                contents s' = contents ex_three ∖ {[e]} /\ index s' !! e = Some 0
    end.
Proof.
  apply (minheap_pop_correct (less_key key0) ex_three).
  - apply wf_check_sound. vm_compute. reflexivity.
  - vm_compute. discriminate.
  - apply ordered_check_sound. vm_compute. reflexivity.
Defined.

Lemma minheap_change_witness :
  exists s', minheap_change (less_key key1) 3 ex_three = Done tt s' /\
    wf s' /\ heap_ordered (less_key key1) s' /\ contents s' = contents ex_three.
Proof.
  apply (minheap_change_correct (less_key key1) (less_key key0) ex_three 3).
  - apply wf_check_sound. vm_compute. reflexivity.
  - vm_compute. discriminate.
  - apply ordered_check_sound. vm_compute. reflexivity.
  - apply (bool_decide_eq_true_1 (3%positive ∈ contents ex_three)). vm_compute. reflexivity.
  - intros a b Ha Hb. unfold less_key, key1, key0. by rewrite !bool_decide_eq_false_2.
Defined.

Lemma minheap_delete_witness :
  exists s', minheap_delete (less_key key0) 1 ex_three = Done tt s' /\
    wf s' /\ heap_ordered (less_key key0) s' /\ contents s' = contents ex_three ∖ {[1%positive]}.
Proof.
  apply (minheap_delete_correct (less_key key0) ex_three 1).
  - apply wf_check_sound. vm_compute. reflexivity.
  - vm_compute. discriminate.
  - apply ordered_check_sound. vm_compute. reflexivity.
  - apply (bool_decide_eq_true_1 (1%positive ∈ contents ex_three)). vm_compute. reflexivity.
Defined.

Lemma minheap_delete_push_witness :
  exists s', minheap_delete (less_key key0) 1 ex_three = Done tt s' /\
    (1%positive ∉ contents s') /\ minheap_push (less_key key0) 1 s' = Fault NullDeref.
Proof.
  apply (minheap_delete_push_faults (less_key key0) ex_three 1).
  - apply wf_check_sound. vm_compute. reflexivity.
  - vm_compute. discriminate.
  - apply ordered_check_sound. vm_compute. reflexivity.
  - apply (bool_decide_eq_true_1 (1%positive ∈ contents ex_three)). vm_compute. reflexivity.
  - vm_compute. discriminate.
Defined.

Lemma minheap_clear_witness :
  exists s', minheap_clear_null ex_three = Done tt s' /\ wf s' /\ contents s' = ∅ /\
    (forall e, index s' !! e = if decide (e ∈ contents ex_three) then Some 0 else index ex_three !! e).
Proof.
  apply (minheap_clear_correct ex_three). apply wf_check_sound. vm_compute. reflexivity.
Defined.
