(* ===== verification/MessageQueue.v ===== *)
(** * The double-buffered queue between worker threads (message_queue.c)

    Two ring buffers: any number of threads push into the [writer] ring under
    a mutex; one thread pops from the [reader] ring without the mutex, and
    exchanges the two rings under the mutex when its own is empty. The file
    models the rings and both operations, and the interleaving of one reader
    with any number of writers as a step relation. *)

From S2P Require Import Prelude Outcome.

Definition THRESHOLD : Z := 1024.

Record queue_message := MkMsg { source : Z; session : Z; data : Z; msize : Z }.

(** A ring; a cell is [None] until a message has been written to it. *)
Record queue_context := MkQ {
  head : Z; tail : Z; qcap : Z;
  message : list (option queue_message);
  threshold : Z; overload : Z }.

Record message_queue := MkMQ { queue : list queue_context; reader : Z; writer : Z }.

Definition queue_init : queue_context := MkQ 0 0 8 (replicate 8 None) THRESHOLD 0.
Definition queue_create : message_queue := MkMQ [queue_init; queue_init] 0 1.

Definition queue_length (q : queue_context) : Z :=
  if head q <=? tail q then tail q - head q else tail q + qcap q - head q.

(** ** Pushing, in the four stages of the critical section *)

Definition q_write (m : queue_message) : M queue_context unit :=
  q ← get;
  require OutOfBounds (bool_decide (in_range (message q) (tail q)));;
  put (MkQ (head q) (tail q) (qcap q) (aset (message q) (tail q) (Some m)) (threshold q) (overload q)).

Definition q_advance : M queue_context unit :=
  modify (fun q =>
    let t := tail q + 1 in
    MkQ (head q) (if qcap q <=? t then 0 else t) (qcap q) (message q) (threshold q) (overload q)).

(** [nmesasge[i] = q->message[(q->head + i) % q->cap]] for every cell; the
    other half of the new array is not written. *)
Definition q_unroll (q : queue_context) : list (option queue_message) :=
  ((fun i => mjoin (aget (message q) ((head q + i) mod qcap q))) <$> seqZ 0 (qcap q))
  ++ replicate (Z.to_nat (qcap q)) None.

Definition q_grow : M queue_context unit :=
  q ← get;
  when (head q =? tail q)
    (require SignedOverflow (qcap q * 2 <=? INT_MAX);;
     put (MkQ 0 (qcap q) (qcap q * 2) (q_unroll q) (threshold q) (overload q))).

Definition q_overload : M queue_context unit :=
  q ← get;
  when (threshold q <=? queue_length q)
    (require SignedOverflow (threshold q * 2 <=? INT_MAX);;
     put (MkQ (head q) (tail q) (qcap q) (message q) (threshold q * 2) 1)).

(** ** Popping *)

(** [queue->message[queue->head++]] with the wrap, or NULL on an empty ring. *)
Definition q_take : M queue_context (option queue_message) :=
  q ← get;
  if negb (head q =? tail q) then
    c ← deref OutOfBounds (aget (message q) (head q));
    m ← deref UndefinedBehaviour c;
    let h := head q + 1 in
    put (MkQ (if qcap q <=? h then 0 else h) (tail q) (qcap q) (message q) (threshold q) (overload q));;
    mret (Some m)
  else mret None.

(** The warning for an overloaded reader ring is printed once. *)
Definition q_warn : M queue_context unit :=
  q ← get;
  when (overload q =? 1)
    (put (MkQ (head q) (tail q) (qcap q) (message q) (threshold q) 0)).

(** ** The two rings *)

(** Run on [&mq->queue[i]]. *)
Definition on_queue {A} (i : Z) (m : M queue_context A) : M message_queue A :=
  mq ← get;
  q ← deref OutOfBounds (aget (queue mq) i);
  match m q with
  | Done a q' => put (MkMQ (aset (queue mq) i q') (reader mq) (writer mq));; mret a
  | Raise e q' => put (MkMQ (aset (queue mq) i q') (reader mq) (writer mq));; luaL_error e
  | Fault f => crash f
  end.

Definition queue_push (m : queue_message) : M message_queue unit :=
  mq ← get;
  c_assert (negb (writer mq =? reader mq));;
  on_queue (writer mq) (q_write m;; q_advance;; q_grow;; q_overload).

Definition queue_exchange : M message_queue unit :=
  modify (fun mq => MkMQ (queue mq) ((reader mq + 1) mod 2) ((writer mq + 1) mod 2)).

Definition queue_pop : M message_queue (option queue_message) :=
  mq ← get;
  on_queue (reader mq) q_warn;;
  r ← on_queue (reader mq) q_take;
  match r with
  | Some m => mret (Some m)
  | None =>
      queue_exchange;;
      mq ← get;
      on_queue (reader mq) q_take
  end.

(** ** Representation of a list of messages by a ring *)

Record ring (q : queue_context) (l : list queue_message) : Prop := {
  ring_head : 0 <= head q < qcap q;
  ring_len : alen (message q) = qcap q;
  ring_tail : tail q = (head q + alen l) mod qcap q;
  ring_cell i x : aget l i = Some x ->
    aget (message q) ((head q + i) mod qcap q) = Some (Some x)
}.

(** Between operations a ring always has a free cell. *)
Record q_ok (q : queue_context) (l : list queue_message) : Prop := {
  ok_ring : ring q l;
  ok_free : alen l < qcap q;
  ok_threshold : 0 < threshold q
}.

Lemma ring_mod h i c :
  0 <= h < c -> 0 <= i <= c -> (h + i) mod c = if decide (h + i < c) then h + i else h + i - c.
Proof.
  intros Hh Hi. case_decide; [by apply Z.mod_small; lia|].
  symmetry. apply (Z.mod_unique_pos _ _ 1); lia.
Qed.

Section ring_facts.
Context (q : queue_context) (l : list queue_message) (R : ring q l).

Lemma ring_tail_range : 0 <= tail q < qcap q.
Proof using R. pose proof (ring_head _ _ R). rewrite (ring_tail _ _ R). apply Z.mod_pos_bound. lia. Qed.

Lemma ring_tail_eq : alen l <= qcap q ->
  tail q = if decide (head q + alen l < qcap q) then head q + alen l else head q + alen l - qcap q.
Proof using R.
  intros. rewrite (ring_tail _ _ R). pose proof (alen_nonneg l).
  by apply ring_mod; [apply R|].
Qed.

Lemma ring_length : alen l < qcap q -> queue_length q = alen l.
Proof using R.
  intros Hl. unfold queue_length. rewrite ring_tail_eq by lia. pose proof (alen_nonneg l).
  pose proof (ring_head _ _ R). case_decide; zcase; lia.
Qed.

Lemma ring_empty : alen l < qcap q -> head q = tail q <-> l = [].
Proof using R.
  intros Hl. rewrite ring_tail_eq by lia. pose proof (ring_head _ _ R). split.
  - destruct l as [|x l']; [done|]. rewrite alen_cons in *. pose proof (alen_nonneg l').
    case_decide; lia.
  - intros ->. rewrite alen_nil. case_decide; lia.
Qed.

Lemma ring_full : 1 <= alen l <= qcap q -> head q = tail q <-> alen l = qcap q.
Proof using R.
  intros Hl. rewrite ring_tail_eq by lia. pose proof (ring_head _ _ R). case_decide; lia.
Qed.
End ring_facts.

(** *** The stages of a push *)

Lemma wp_q_write q l m Q :
  ring q l -> alen l < qcap q ->
  (forall q', ring q' l -> aget (message q') (tail q') = Some (Some m) ->
     qcap q' = qcap q -> threshold q' = threshold q -> Q tt q') ->
  wpd (q_write m) Q q.
Proof.
  intros R Hl HQ. pose proof (ring_tail_range q l R) as Ht. pose proof (ring_len _ _ R) as Hlen.
  assert (in_range (message q) (tail q)) as Hr by (unfold in_range; lia).
  unfold q_write. do 2 wp_step. wp_step. wp_step; [by apply bool_decide_eq_true|]. wp_step.
  apply HQ; simpl; [|by apply aget_aset_eq|done|done].
  split; simpl; [apply R|by rewrite alen_aset|apply R|].
  intros i x Hx. rewrite aget_aset_ne; [by apply R|lia|].
  pose proof (aget_Some_range _ _ _ Hx) as [Hi1 Hi2]. pose proof (ring_head _ _ R).
  rewrite (ring_tail_eq q l R) by lia. rewrite ring_mod by lia. repeat case_decide; lia.
Qed.

Lemma wp_q_advance q l m Q :
  ring q l -> alen l < qcap q -> aget (message q) (tail q) = Some (Some m) ->
  (forall q', ring q' (l ++ [m]) -> qcap q' = qcap q -> threshold q' = threshold q -> Q tt q') ->
  wpd q_advance Q q.
Proof.
  intros R Hl Hm HQ. pose proof (ring_head _ _ R). pose proof (alen_nonneg l).
  unfold q_advance. wp_step. apply HQ; [|done|done].
  split; simpl; [apply R|apply R| |].
  - rewrite (ring_tail_eq q l R), ring_mod by (rewrite ?alen_snoc; lia). rewrite alen_snoc.
    repeat case_decide; zcase; lia.
  - intros i x [Hx|[-> ->]]%aget_snoc; [by apply R|]. by rewrite <- (ring_tail _ _ R).
Qed.

(** A ring only depends on its indices and its cells. *)
Lemma ring_ext q q' l :
  head q' = head q -> tail q' = tail q -> qcap q' = qcap q -> message q' = message q ->
  ring q l -> ring q' l.
Proof. intros E1 E2 E3 E4 []. split; rewrite ?E1, ?E2, ?E3, ?E4; done. Qed.

(** Unrolling a full ring into an array twice as long. *)
Lemma ring_unroll q l t o :
  ring q l -> 1 <= alen l -> alen l = qcap q ->
  ring (MkQ 0 (qcap q) (qcap q * 2) (q_unroll q) t o) l.
Proof.
  intros R H1 Hfull. pose proof (ring_head _ _ R). split; simpl; [lia| | |].
  - unfold q_unroll. rewrite alen_app, alen_seqZ_fmap, alen_replicate; lia.
  - rewrite Hfull. rewrite Z.mod_small; lia.
  - intros i x Hx. pose proof (aget_Some_range _ _ _ Hx) as [? ?].
    rewrite Z.add_0_l, Z.mod_small by lia. unfold q_unroll.
    rewrite aget_app_l by (rewrite alen_seqZ_fmap; lia).
    rewrite aget_seqZ_fmap by lia. cbv beta. by rewrite (ring_cell _ _ R _ _ Hx).
Qed.

(** [q_grow] either overflows [cap] or leaves a free cell. *)
Lemma q_grow_cases q l :
  ring q l -> 1 <= alen l <= qcap q ->
  (INT_MAX < qcap q * 2 /\ q_grow q = Fault SignedOverflow) \/
  exists q', q_grow q = Done tt q' /\ ring q' l /\ alen l < qcap q' /\
    (qcap q' = qcap q \/ (qcap q' = qcap q * 2 /\ qcap q = alen l)) /\ threshold q' = threshold q.
Proof.
  intros R Hl. pose proof (ring_full q l R Hl) as Hfull.
  unfold q_grow, mbind, M_bind, get, when, require, put, mret, M_ret.
  destruct (Z.eqb_spec (head q) (tail q)) as [E|E].
  - apply Hfull in E. destruct (Z.leb_spec (qcap q * 2) INT_MAX); [right|by left].
    eexists. split; [done|]. split; [apply ring_unroll; done || lia|].
    simpl. split; [lia|]. split; [right; lia|done].
  - right. exists q. rewrite Hfull in E. do 2 (split; [done|]). split; [lia|]. split; [by left|done].
Qed.

Lemma wp_q_grow q l Q :
  ring q l -> 1 <= alen l <= qcap q -> qcap q * 2 <= INT_MAX ->
  (forall q', ring q' l -> alen l < qcap q' ->
     (qcap q' = qcap q \/ (qcap q' = qcap q * 2 /\ qcap q = alen l)) ->
     threshold q' = threshold q -> Q tt q') ->
  wpd q_grow Q q.
Proof.
  intros R Hl Hc HQ. destruct (q_grow_cases q l R Hl) as [[? _]|(q' & Hg & ? & ? & ? & ?)]; [lia|].
  eapply wp_Done; [done|]. auto.
Qed.

(** [q_overload] keeps the messages; it can only fault when [threshold] cannot be doubled. *)
Lemma q_overload_cases q l :
  q_ok q l ->
  (INT_MAX < threshold q * 2 /\ threshold q <= alen l /\ q_overload q = Fault SignedOverflow) \/
  exists q', q_overload q = Done tt q' /\ q_ok q' l /\ qcap q' = qcap q.
Proof.
  intros [R Hf Ht]. unfold q_overload, mbind, M_bind, get, when, require, put, mret, M_ret.
  rewrite (ring_length q l R Hf). destruct (Z.leb_spec (threshold q) (alen l)).
  - destruct (Z.leb_spec (threshold q * 2) INT_MAX); [right|left; done].
    eexists. split; [done|]. split; [|done]. split; simpl; [|done|lia]. by apply (ring_ext q).
  - right. exists q. by split.
Qed.

Lemma wp_q_overload q l Q :
  q_ok q l -> qcap q <= 2 ^ 30 ->
  (forall q', q_ok q' l -> qcap q' = qcap q -> Q tt q') -> wpd q_overload Q q.
Proof.
  intros K Hc HQ. pose proof (ok_free _ _ K).
  destruct (q_overload_cases q l K) as [(? & ? & _)|(q' & Hg & ? & ?)]; [unfold INT_MAX in *; lia|].
  eapply wp_Done; [done|]. auto.
Qed.

Lemma wp_q_push q l m Q :
  q_ok q l -> qcap q * 2 <= 2 ^ 30 ->
  (forall q', q_ok q' (l ++ [m]) ->
     (qcap q' = qcap q \/ (qcap q' = qcap q * 2 /\ qcap q = alen l + 1)) -> Q tt q') ->
  wpd (q_write m;; q_advance;; q_grow;; q_overload) Q q.
Proof.
  intros [R Hf Ht] Hc HQ. pose proof (alen_nonneg l).
  wp_step. apply (wp_q_write _ l); [done|done|]. intros q1 R1 Hm1 Ec1 Et1.
  wp_step. apply (wp_q_advance _ l m); [done|lia|done|]. intros q2 R2 Ec2 Et2.
  wp_step. apply (wp_q_grow _ (l ++ [m])); [done|rewrite alen_snoc; lia|unfold INT_MAX; lia|].
  intros q3 R3 Hf3 Ec3 Et3.
  apply (wp_q_overload _ (l ++ [m])); [split; [done|done|lia]|lia|].
  intros q4 K4 Ec4. rewrite alen_snoc in *. apply HQ; [done|lia].
Qed.

Lemma wp_q_take q l Q :
  q_ok q l ->
  (l = [] -> Q None q) ->
  (forall x k q', l = x :: k -> q_ok q' k -> qcap q' = qcap q -> Q (Some x) q') ->
  wpd q_take Q q.
Proof.
  intros [R Hf Ht] HN HS. pose proof (ring_head _ _ R) as Hh.
  unfold q_take. do 2 wp_step. pose proof (ring_empty q l R Hf) as He.
  destruct (Z.eqb_spec (head q) (tail q)) as [E|E]; simpl.
  - wp_step. by apply HN, He.
  - destruct l as [|x k]; [naive_solver|]. rewrite alen_cons in Hf. pose proof (alen_nonneg k).
    pose proof (ring_cell _ _ R 0 x (aget_cons_0 _ _)) as Hc.
    rewrite Z.add_0_r, Z.mod_small in Hc by lia.
    wp_step. wp_step; [done|]. wp_step. wp_step; [done|]. wp_step. wp_step. wp_step.
    apply (HS x k); [done| |done]. split; simpl; [|lia|done].
    pose proof (ring_tail_eq _ _ R) as Etl. rewrite alen_cons in Etl.
    split; simpl; [zcase; lia|apply R| |].
    + rewrite Etl by lia. rewrite ring_mod by (zcase; lia). repeat case_decide; zcase; lia.
    + intros i y Hy. pose proof (aget_Some_range _ _ _ Hy) as [? ?].
      pose proof (ring_cell _ _ R (i + 1) y) as Hcell. rewrite aget_cons in Hcell by done.
      specialize (Hcell Hy). rewrite ring_mod in Hcell by lia.
      rewrite ring_mod by (zcase; lia). rewrite <- Hcell. f_equal. repeat case_decide; zcase; lia.
Qed.

Lemma wp_q_warn q l Q :
  q_ok q l -> (forall q', q_ok q' l -> qcap q' = qcap q -> Q tt q') -> wpd q_warn Q q.
Proof.
  intros [R Hf Ht] HQ. unfold q_warn. do 2 wp_step. wp_step.
  - wp_step. apply HQ; [|done]. split; simpl; [|done|done]. destruct R. by split.
  - apply HQ; [by split|done].
Qed.

(** ** Both rings: the sequential specification *)

Definition set_queue (i : Z) (q : queue_context) (mq : message_queue) : message_queue :=
  MkMQ (aset (queue mq) i q) (reader mq) (writer mq).

Lemma wp_on_queue {A} i (m : M queue_context A) mq q Q :
  aget (queue mq) i = Some q -> wpd m (fun a q' => Q a (set_queue i q' mq)) q ->
  wpd (on_queue i m) Q mq.
Proof.
  intros Hq H. apply wpd_Done in H as (a & q' & Hm & HQ).
  unfold on_queue. do 2 wp_step. wp_step. wp_step; [done|]. rewrite Hm. by do 3 wp_step.
Qed.

(** The shape of the pair: two rings, two distinct indices. *)
Record mq_shape (mq : message_queue) : Prop := {
  sh_reader : reader mq = 0 \/ reader mq = 1;
  sh_writer : writer mq = 1 - reader mq;
  sh_len : alen (queue mq) = 2
}.

(** The reader ring holds [lr], the writer ring [lw]; no ring has grown past [c] cells. *)
Record mq_ok (c : Z) (mq : message_queue) (lr lw : list queue_message) : Prop := {
  mq_is : mq_shape mq;
  mq_reader : exists q, aget (queue mq) (reader mq) = Some q /\ q_ok q lr /\ qcap q <= c;
  mq_writer : exists q, aget (queue mq) (writer mq) = Some q /\ q_ok q lw /\ qcap q <= c
}.

Lemma shape_set_queue i q mq : mq_shape mq -> mq_shape (set_queue i q mq).
Proof. intros []. split; simpl; rewrite ?alen_aset; done. Qed.

Lemma shape_range mq : mq_shape mq ->
  in_range (queue mq) (reader mq) /\ in_range (queue mq) (writer mq) /\ reader mq <> writer mq.
Proof. intros []. unfold in_range. lia. Qed.

(** Replacing one ring leaves the other. *)
Lemma mq_ok_set_reader c mq q lr lr' lw :
  mq_ok c mq lr lw -> q_ok q lr' -> qcap q <= c -> mq_ok c (set_queue (reader mq) q mq) lr' lw.
Proof.
  intros [Sh (qr & Hr & Kr & Cr) (qw & Hw & Kw & Cw)] K C.
  destruct (shape_range mq Sh) as (R1 & R2 & Hne).
  split; [by apply shape_set_queue| |]; simpl.
  - exists q. by rewrite aget_aset_eq.
  - exists qw. rewrite aget_aset_ne; [done|unfold in_range in *; lia|lia].
Qed.

Lemma mq_ok_set_writer c mq q lr lw lw' :
  mq_ok c mq lr lw -> q_ok q lw' -> qcap q <= c -> mq_ok c (set_queue (writer mq) q mq) lr lw'.
Proof.
  intros [Sh (qr & Hr & Kr & Cr) (qw & Hw & Kw & Cw)] K C.
  destruct (shape_range mq Sh) as (R1 & R2 & Hne).
  split; [by apply shape_set_queue| |]; simpl.
  - exists qr. rewrite aget_aset_ne; [done|unfold in_range in *; lia|lia].
  - exists q. by rewrite aget_aset_eq.
Qed.

Lemma mq_ok_mono c c' mq lr lw : mq_ok c mq lr lw -> c <= c' -> mq_ok c' mq lr lw.
Proof. intros [Sh (qr & Hr & Kr & Cr) (qw & Hw & Kw & Cw)] Hc. split; naive_solver lia. Qed.

(** The exchange swaps the roles of the rings. *)
Lemma wp_exchange c mq lr lw Q :
  mq_ok c mq lr lw ->
  (forall mq', mq_ok c mq' lw lr -> queue mq' = queue mq -> Q tt mq') -> wpd queue_exchange Q mq.
Proof.
  intros [[Hr Hw Hl] Er Ew] HQ. unfold queue_exchange. wp_step. apply HQ; [|done].
  assert ((reader mq + 1) mod 2 = writer mq /\ (writer mq + 1) mod 2 = reader mq) as [E1 E2] by dlia.
  split; simpl; [split; simpl; dlia|by rewrite E1|by rewrite E2].
Qed.

Lemma queue_create_ok : mq_ok 8 queue_create [] [].
Proof.
  assert (q_ok queue_init []) as K.
  { split; [split; [done|done|done|]|done|done].
    intros i x Hx. apply aget_Some_range in Hx as [? Hx]. rewrite alen_nil in Hx. lia. }
  split; [split; simpl; [by left|done|done]| |]; exists queue_init; done.
Qed.

Lemma wp_queue_push c mq lr lw m Q :
  mq_ok c mq lr lw -> c * 2 <= 2 ^ 30 ->
  (forall mq', mq_ok (Z.max c (2 * (alen lw + 1))) mq' lr (lw ++ [m]) -> Q tt mq') ->
  wpd (queue_push m) Q mq.
Proof.
  intros K Hc HQ. destruct (K) as [Sh _ (qw & Hw & Kw & Cw)].
  destruct (shape_range mq Sh) as (_ & _ & Hne).
  unfold queue_push. do 2 wp_step. wp_step. wp_step; [by rewrite (proj2 (Z.eqb_neq _ _))|].
  apply (wp_on_queue _ _ _ _ _ Hw). apply (wp_q_push _ lw); [done|lia|].
  intros q' K' C'. apply HQ. eapply mq_ok_set_writer; [eapply mq_ok_mono; [done|lia]|done|lia].
Qed.

Lemma wp_queue_pop c mq lr lw Q :
  mq_ok c mq lr lw ->
  (forall x lr' lw' mq', lr ++ lw = x :: lr' ++ lw' -> mq_ok c mq' lr' lw' -> Q (Some x) mq') ->
  (lr ++ lw = [] -> forall mq', mq_ok c mq' [] [] -> Q None mq') ->
  wpd queue_pop Q mq.
Proof.
  intros K HS HN. destruct (K) as [Sh (qr & Hr & Kr & Cr) _].
  unfold queue_pop. do 2 wp_step. wp_step.
  apply (wp_on_queue _ _ _ _ _ Hr), (wp_q_warn _ lr); [done|]. intros q1 K1 C1.
  assert (mq_ok c (set_queue (reader mq) q1 mq) lr lw) as M1
    by (eapply mq_ok_set_reader; [done|done|lia]).
  destruct (M1) as [Sh1 (q1' & H1 & K1' & C1') _].
  wp_step. apply (wp_on_queue _ _ _ _ _ H1), (wp_q_take _ lr); [done| |].
  - intros ->. wp_step.
    eapply wp_exchange; [eapply mq_ok_set_reader; [exact M1|done|done]|].
    intros mq2 M2 _. do 2 wp_step. destruct (M2) as [Sh2 (q2 & H2 & K2 & C2) _].
    apply (wp_on_queue _ _ _ _ _ H2), (wp_q_take _ lw); [done| |].
    + intros ->. apply HN; [done|]. eapply mq_ok_set_reader; eauto.
    + intros x k q' -> K' C'. apply (HS x k []); [by rewrite app_nil_r|].
      eapply mq_ok_set_reader; [done|done|lia].
  - intros x k q' -> K' C'. wp_step. apply (HS x k lw); [done|].
    eapply (mq_ok_set_reader c (set_queue (reader mq) q1 mq)); [done|done|lia].
Qed.

(** A program of pushes and pops, and the answers of its pops. *)
Inductive op := Push (m : queue_message) | Pop.

Fixpoint run (ops : list op) : M message_queue (list (option queue_message)) :=
  match ops with
  | [] => mret []
  | Push m :: ops => queue_push m;; run ops
  | Pop :: ops => r ← queue_pop; rs ← run ops; mret (r :: rs)
  end.

(** The abstract queue. *)
Fixpoint spec_run (ops : list op) (l : list queue_message) : list (option queue_message) :=
  match ops with
  | [] => []
  | Push m :: ops => spec_run ops (l ++ [m])
  | Pop :: ops => match l with
                  | [] => None :: spec_run ops []
                  | x :: l => Some x :: spec_run ops l
                  end
  end.

Lemma run_refines ops c mq lr lw n :
  mq_ok c mq lr lw -> alen lw <= n -> c <= 8 + 2 * n -> alen lr + alen lw <= n ->
  n + alen ops <= 2 ^ 28 - 4 ->
  exists mq', run ops mq = Done (spec_run ops (lr ++ lw)) mq'.
Proof.
  revert c mq lr lw n. induction ops as [|[m|] ops IH]; intros c mq lr lw n K Hlw Hc Hn Hb.
  - by exists mq.
  - rewrite alen_cons in Hb. pose proof (alen_nonneg ops). simpl.
    pose proof (wp_queue_push c mq lr lw m (fun _ mq' =>
      mq_ok (Z.max c (2 * (alen lw + 1))) mq' lr (lw ++ [m])) K ltac:(lia) ltac:(auto)) as H'.
    apply wpd_Done in H' as ([] & mq1 & Hp & K1). erewrite bind_Done by done.
    rewrite <- app_assoc. eapply (IH _ _ _ _ (n + 1) K1); rewrite ?alen_snoc; lia.
  - rewrite alen_cons in Hb. simpl.
    pose proof (wp_queue_pop c mq lr lw (fun r mq' =>
      exists lr' lw', mq_ok c mq' lr' lw' /\
        match r with Some x => lr ++ lw = x :: lr' ++ lw' | None => lr ++ lw = [] /\ lr' ++ lw' = [] end)
      K ltac:(intros x a b t E1 E2; by exists a, b) ltac:(intros E t K0; by exists [], [])) as H'.
    apply wpd_Done in H' as (r & mq1 & Hp & lr' & lw' & K1 & Hr). erewrite bind_Done by done.
    pose proof (alen_nonneg lr'). pose proof (alen_nonneg lw'). pose proof (alen_nonneg ops).
    assert (alen (lr' ++ lw') <= alen (lr ++ lw)) as Hle.
    { destruct r as [x|]; [rewrite Hr, alen_cons; lia|]. by destruct Hr as [-> ->]. }
    rewrite !alen_app in Hle.
    destruct (IH c mq1 lr' lw' n K1 ltac:(lia) Hc ltac:(lia) ltac:(lia)) as [mq2 H2].
    exists mq2. erewrite bind_Done by done. destruct r as [x|].
    + by rewrite Hr.
    + destruct Hr as [-> Hr']. by rewrite Hr'.
Qed.

(** C15: run by one thread, the pair of rings is a first-in first-out queue: for
    every sequence of up to 2^28-4 pushes and pops from [queue_create], no
    operation faults and the pops answer exactly what an unbounded list queue
    answers, through any growth of the rings and any exchange of them. *)
Theorem queue_refines_fifo ops :
  alen ops <= 2 ^ 28 - 4 ->
  exists mq', run ops queue_create = Done (spec_run ops []) mq'.
Proof. intros H. apply (run_refines ops 8 queue_create [] [] 0 queue_create_ok); [done|done|done|lia]. Qed.

Lemma queue_refines_fifo_witness :
  exists mq', run [Pop; Push (MkMsg 1 2 3 4); Push (MkMsg 5 6 7 8); Pop; Pop; Pop] queue_create
    = Done [None; Some (MkMsg 1 2 3 4); Some (MkMsg 5 6 7 8); None] mq'.
Proof.
  apply (queue_refines_fifo [Pop; Push (MkMsg 1 2 3 4); Push (MkMsg 5 6 7 8); Pop; Pop; Pop]).
  vm_compute. discriminate.
Defined.

(** ** One reader and any number of writers

    A writer holds the mutex through the stages of [queue_push]; the reader
    walks through [queue_pop], taking the mutex only for the exchange. The
    ghost fields record the messages in the order their pushes advance the
    tail, and in the order the pops return them. *)

Inductive wstage := WLocked | WWritten | WAdvanced | WGrown | WDone.
Inductive holder := HWriter (t : nat) (m : queue_message) (w : wstage) | HReader.
Inductive rpc := RIdle | RTake | RWant | RHold | RSwapped | RRetake.

Record conf := MkConf {
  mq : message_queue; lock : option holder; rp : rpc;
  pushed : list queue_message; popped : list queue_message }.

Definition init : conf := MkConf queue_create None RIdle [] [].

Inductive step : conf -> conf -> Prop :=
| w_lock t m q r h p :
    step (MkConf q None r h p) (MkConf q (Some (HWriter t m WLocked)) r h p)
| w_write t m q q' r h p :
    (c_assert (negb (writer q =? reader q));; on_queue (writer q) (q_write m)) q = Done tt q' ->
    step (MkConf q (Some (HWriter t m WLocked)) r h p)
         (MkConf q' (Some (HWriter t m WWritten)) r h p)
| w_advance t m q q' r h p :
    on_queue (writer q) q_advance q = Done tt q' ->
    step (MkConf q (Some (HWriter t m WWritten)) r h p)
         (MkConf q' (Some (HWriter t m WAdvanced)) r (h ++ [m]) p)
| w_grow t m q q' r h p :
    on_queue (writer q) q_grow q = Done tt q' ->
    step (MkConf q (Some (HWriter t m WAdvanced)) r h p)
         (MkConf q' (Some (HWriter t m WGrown)) r h p)
| w_overload t m q q' r h p :
    on_queue (writer q) q_overload q = Done tt q' ->
    step (MkConf q (Some (HWriter t m WGrown)) r h p)
         (MkConf q' (Some (HWriter t m WDone)) r h p)
| w_unlock t m q r h p :
    step (MkConf q (Some (HWriter t m WDone)) r h p) (MkConf q None r h p)
| r_enter q q' l h p :
    on_queue (reader q) q_warn q = Done tt q' ->
    step (MkConf q l RIdle h p) (MkConf q' l RTake h p)
| r_take q q' l h p x :
    on_queue (reader q) q_take q = Done (Some x) q' ->
    step (MkConf q l RTake h p) (MkConf q' l RIdle h (p ++ [x]))
| r_empty q q' l h p :
    on_queue (reader q) q_take q = Done None q' ->
    step (MkConf q l RTake h p) (MkConf q' l RWant h p)
| r_lock q h p :
    step (MkConf q None RWant h p) (MkConf q (Some HReader) RHold h p)
| r_swap q q' h p :
    queue_exchange q = Done tt q' ->
    step (MkConf q (Some HReader) RHold h p) (MkConf q' (Some HReader) RSwapped h p)
| r_unlock q h p :
    step (MkConf q (Some HReader) RSwapped h p) (MkConf q None RRetake h p)
| r_retake q q' l h p x :
    on_queue (reader q) q_take q = Done (Some x) q' ->
    step (MkConf q l RRetake h p) (MkConf q' l RIdle h (p ++ [x]))
| r_none q q' l h p :
    on_queue (reader q) q_take q = Done None q' ->
    step (MkConf q l RRetake h p) (MkConf q' l RIdle h p).

(** What is known of the writer ring at each stage of the critical section;
    [lw] are the messages it holds. *)
Definition writer_inv (l : option holder) (q : queue_context) (lw : list queue_message) : Prop :=
  match l with
  | Some (HWriter _ m WWritten) => q_ok q lw /\ aget (message q) (tail q) = Some (Some m)
  | Some (HWriter _ _ WAdvanced) => ring q lw /\ 1 <= alen lw <= qcap q /\ 0 < threshold q
  | _ => q_ok q lw
  end.

(** The mutex and the reader's program counter. *)
Definition reader_inv (l : option holder) (r : rpc) (lr : list queue_message) : Prop :=
  match r with
  | RWant => lr = [] /\ l <> Some HReader
  | RHold => lr = [] /\ l = Some HReader
  | RSwapped => l = Some HReader
  | _ => l <> Some HReader
  end.

Record conf_inv (c : conf) (lr lw : list queue_message) : Prop := {
  ci_shape : mq_shape (mq c);
  ci_reader : exists q, aget (queue (mq c)) (reader (mq c)) = Some q /\ q_ok q lr;
  ci_writer : exists q, aget (queue (mq c)) (writer (mq c)) = Some q /\ writer_inv (lock c) q lw;
  ci_pc : reader_inv (lock c) (rp c) lr;
  ci_hist : pushed c = popped c ++ lr ++ lw
}.

(** Every message pushed so far has been popped or waits in order. *)
Definition fifo_inv (c : conf) : Prop := exists lr lw, conf_inv c lr lw.

Lemma on_queue_inv {A} i (m : M queue_context A) q0 a q1 :
  on_queue i m q0 = Done a q1 ->
  exists q q', aget (queue q0) i = Some q /\ m q = Done a q' /\ q1 = set_queue i q' q0.
Proof.
  unfold on_queue, mbind, M_bind, get, deref, put, luaL_error, crash, mret, M_ret.
  intros H. repeat case_match; simplify_eq. eauto.
Qed.

(** An operation on one ring leaves what is known of the other. *)
Lemma inv_writer_step q0 q' l l' r h h' p lr lw lw' :
  conf_inv (MkConf q0 l r h p) lr lw -> writer_inv l' q' lw' -> reader_inv l' r lr ->
  h' = p ++ lr ++ lw' -> fifo_inv (MkConf (set_queue (writer q0) q' q0) l' r h' p).
Proof.
  intros [Sh (qr & Hr & Kr) _ _ _] Kw Hpc ->. simpl in *.
  destruct (shape_range q0 Sh) as (R1 & R2 & Hne). exists lr, lw'.
  split; simpl; [by apply shape_set_queue| | |done|done].
  - exists qr. rewrite aget_aset_ne; [done|unfold in_range in *; lia|lia].
  - exists q'. by rewrite aget_aset_eq.
Qed.

Lemma inv_reader_step q0 q' l r r' h p p' lr lr' lw :
  conf_inv (MkConf q0 l r h p) lr lw -> q_ok q' lr' -> reader_inv l r' lr' ->
  p ++ lr = p' ++ lr' -> fifo_inv (MkConf (set_queue (reader q0) q' q0) l r' h p').
Proof.
  intros [Sh _ (qw & Hw & Kw) _ Hh] Kr Hpc E. simpl in *.
  destruct (shape_range q0 Sh) as (R1 & R2 & Hne). exists lr', lw.
  split; simpl; [by apply shape_set_queue| | |done|].
  - exists q'. by rewrite aget_aset_eq.
  - exists qw. rewrite aget_aset_ne; [done|unfold in_range in *; lia|lia].
  - by rewrite Hh, !app_assoc, E.
Qed.

(** What a taken message tells. *)
Lemma q_take_Done q l r q' :
  q_ok q l -> q_take q = Done r q' ->
  match r with Some x => exists k, l = x :: k /\ q_ok q' k | None => l = [] /\ q_ok q' [] end.
Proof.
  intros K H. pose proof (wp_q_take q l (fun r q' => match r with
    | Some x => exists k, l = x :: k /\ q_ok q' k | None => l = [] /\ q_ok q' [] end) K) as W.
  unfold wp in W. rewrite H in W. apply W; [by intros ->|]. intros x k q1 -> K' _. eauto.
Qed.

Lemma step_writer_inv c c' lr lw :
  conf_inv c lr lw -> step c c' -> (exists t m w, lock c = Some (HWriter t m w)) -> rp c' = rp c ->
  popped c' = popped c -> fifo_inv c'.
Proof.
  intros I St (t0 & m0 & w0 & Hlk) Hrp _. pose proof (ci_hist _ _ _ I) as Hh.
  pose proof (ci_pc _ _ _ I) as Hpc. destruct (ci_writer _ _ _ I) as (qw & Hw & Kw).
  assert (forall w', reader_inv (Some (HWriter t0 m0 w')) (rp c) lr) as Hpc'.
  { intros w'. rewrite Hlk in Hpc. destruct (rp c); naive_solver. }
  destruct St; simplify_eq/=; try (by destruct r).
  - apply c_assert_Done in H as [_ H]. apply on_queue_inv in H as (q1 & q2 & H1 & H2 & ->). assert (q1 = qw) as -> by congruence.
    pose proof (wp_q_write qw lw m0 (fun _ q => q_ok q lw /\ aget (message q) (tail q) = Some (Some m0))
      (ok_ring _ _ Kw) (ok_free _ _ Kw)) as W. unfold wp in W. rewrite H2 in W.
    eapply inv_writer_step; [done| |apply Hpc'|done]. apply W. intros q3 R3 Hm E3 T3.
    split; [|done]. destruct Kw. split; [done|lia|lia].
  - apply on_queue_inv in H as (q1 & q2 & H1 & H2 & ->). assert (q1 = qw) as -> by congruence. destruct Kw as [[R Hf Ht] Hm].
    pose proof (wp_q_advance qw lw m0 (fun _ q => ring q (lw ++ [m0]) /\ qcap q = qcap qw /\ threshold q = threshold qw)
      R Hf Hm ltac:(intros; split_and!; done)) as W. unfold wp in W. rewrite H2 in W. destruct W as (R2 & E2 & T2).
    eapply inv_writer_step; [done| |apply Hpc'|by rewrite <- !app_assoc].
    pose proof (alen_nonneg lw). split; [done|]. rewrite alen_snoc. lia.
  - apply on_queue_inv in H as (q1 & q2 & H1 & H2 & ->). assert (q1 = qw) as -> by congruence. destruct Kw as (R & Hl & Ht).
    destruct (q_grow_cases qw lw R Hl) as [[_ ?]|(q' & ? & ? & ? & ? & ?)]; simplify_eq; [congruence|].
    assert (q2 = q') as -> by congruence.
    eapply inv_writer_step; [done| |apply Hpc'|done]. split; [done|done|lia].
  - apply on_queue_inv in H as (q1 & q2 & H1 & H2 & ->). assert (q1 = qw) as -> by congruence.
    destruct (q_overload_cases qw lw Kw) as [(_ & _ & ?)|(q' & ? & ? & ?)]; [congruence|].
    eapply inv_writer_step; [done| |apply Hpc'|done]. simpl. congruence.
  - exists lr, lw. split; simpl; [apply I|apply I|eauto| |done]. destruct r; naive_solver.
Qed.

(** The mutex does not matter to a reader that does not hold it. *)
Lemma reader_inv_free l l' r lr :
  reader_inv l r lr -> l <> Some HReader -> l' <> Some HReader -> reader_inv l' r lr.
Proof. destruct r; naive_solver. Qed.

Lemma step_inv c c' : fifo_inv c -> step c c' -> fifo_inv c'.
Proof.
  intros (lr & lw & I) St. pose proof (ci_hist _ _ _ I) as Hh. pose proof (ci_pc _ _ _ I) as Hpc.
  destruct (ci_writer _ _ _ I) as (qw & Hw & Kw). destruct (ci_reader _ _ _ I) as (qr & Hr & Kr).
  destruct (St); simpl in *; try (by eapply step_writer_inv; eauto).
  - exists lr, lw. split; simpl; [apply I|eauto|eauto| |done].
    by eapply reader_inv_free.
  - apply on_queue_inv in H as (q1 & q2 & H1 & H2 & ->). assert (q1 = qr) as -> by congruence.
    pose proof (wp_q_warn qr lr (fun _ q => q_ok q lr) Kr ltac:(auto)) as W.
    unfold wp in W. rewrite H2 in W. by eapply inv_reader_step.
  - apply on_queue_inv in H as (q1 & q2 & H1 & H2 & ->). assert (q1 = qr) as -> by congruence.
    destruct (q_take_Done _ _ _ _ Kr H2) as (k & -> & K2).
    eapply inv_reader_step; [done|done|done|by rewrite <- app_assoc].
  - apply on_queue_inv in H as (q1 & q2 & H1 & H2 & ->). assert (q1 = qr) as -> by congruence.
    destruct (q_take_Done _ _ _ _ Kr H2) as [-> K2]. by eapply inv_reader_step.
  - exists lr, lw. split; simpl; [apply I|eauto|eauto| |done]. naive_solver.
  - destruct Hpc as [-> _].
    assert (mq_ok (Z.max (qcap qr) (qcap qw)) q [] lw) as K
      by (split; [apply I|exists qr|exists qw]; split_and!; done || lia).
    pose proof (wp_exchange _ q [] lw (fun _ q1 => mq_ok (Z.max (qcap qr) (qcap qw)) q1 lw []) K
      ltac:(auto)) as W.
    unfold wp in W. rewrite H in W. destruct W as [Sh (q1 & ? & ? & _) (q2 & ? & ? & _)].
    exists lw, []. split; simpl; [done|eauto|eauto|done|]. by rewrite Hh, app_nil_r.
  - exists lr, lw. split; simpl; [apply I|eauto|eauto|done|done].
  - apply on_queue_inv in H as (q1 & q2 & H1 & H2 & ->). assert (q1 = qr) as -> by congruence.
    destruct (q_take_Done _ _ _ _ Kr H2) as (k & -> & K2).
    eapply inv_reader_step; [done|done|done|by rewrite <- app_assoc].
  - apply on_queue_inv in H as (q1 & q2 & H1 & H2 & ->). assert (q1 = qr) as -> by congruence.
    destruct (q_take_Done _ _ _ _ Kr H2) as [-> K2]. by eapply inv_reader_step.
Qed.

Lemma init_inv : fifo_inv init.
Proof.
  destruct queue_create_ok as [Sh (q1 & ? & ? & _) (q2 & ? & ? & _)].
  exists [], []. split; simpl; eauto; done.
Qed.

Lemma reachable_inv c : rtc step init c -> fifo_inv c.
Proof.
  intros H. remember init as c0 eqn:E. assert (fifo_inv c0) as I by (subst; apply init_inv).
  clear E. induction H; eauto using step_inv.
Qed.

(** C14: whatever the interleaving of one reader with any number of writers, the
    messages the reader has popped are a prefix of the messages pushed, in the
    order in which the pushes went through the mutex: none is lost, doubled or
    reordered, although the reader takes from its ring without the mutex. *)
Theorem concurrent_fifo c : rtc step init c -> popped c `prefix_of` pushed c.
Proof.
  intros (lr & lw & I)%reachable_inv. exists (lr ++ lw). apply I.
Qed.

Lemma concurrent_fifo_witness :
  exists c, rtc step init c /\ popped c = [] /\ pushed c = [MkMsg 1 2 3 4] /\
    popped c `prefix_of` pushed c.
Proof.
  pose (q1 := match queue_push (MkMsg 1 2 3 4) queue_create with Done _ q => q | _ => queue_create end).
  assert (rtc step init (MkConf q1 None RIdle [MkMsg 1 2 3 4] [])) as R.
  { eapply rtc_l; [apply (w_lock 7 (MkMsg 1 2 3 4))|].
    eapply rtc_l; [apply w_write; reflexivity|].
    eapply rtc_l; [apply w_advance; reflexivity|].
    eapply rtc_l; [apply w_grow; reflexivity|].
    eapply rtc_l; [apply w_overload; reflexivity|].
    eapply rtc_l; [apply w_unlock|]. apply rtc_refl. }
  exists (MkConf q1 None RIdle [MkMsg 1 2 3 4] []).
  split; [exact R|]. split; [reflexivity|]. split; [reflexivity|].
  exact (concurrent_fifo _ R).
Defined.

(** ** Progress

    Under the bound that keeps the capacity an int, no step of either side
    faults: the holder of the mutex always reaches the unlock, and the reader
    is only ever held up by the mutex. *)

Definition w_next (t : nat) (m : queue_message) (w : wstage) : option holder :=
  match w with
  | WLocked => Some (HWriter t m WWritten)
  | WWritten => Some (HWriter t m WAdvanced)
  | WAdvanced => Some (HWriter t m WGrown)
  | WGrown => Some (HWriter t m WDone)
  | WDone => None
  end.

Definition caps_below (b : Z) (q : message_queue) : Prop :=
  Forall (fun r => qcap r <= b) (queue q).

Lemma caps_get b q i r : caps_below b q -> aget (queue q) i = Some r -> qcap r <= b.
Proof.
  intros H Hl%aget_elem_of. unfold caps_below in H. rewrite Forall_forall in H. by apply H.
Qed.

Lemma on_queue_Done {A} i (m : M queue_context A) q r :
  aget (queue q) i = Some r -> wpd m (fun _ _ => True) r ->
  exists a q', on_queue i m q = Done a q'.
Proof.
  intros Hr W. pose proof (wp_on_queue i m q r (fun _ _ => True) Hr W) as W'.
  apply wpd_Done in W' as (a & q' & E & _). eauto.
Qed.

Lemma writer_progress q t m w r h p lr lw :
  conf_inv (MkConf q (Some (HWriter t m w)) r h p) lr lw -> caps_below (2 ^ 29) q ->
  exists c', step (MkConf q (Some (HWriter t m w)) r h p) c' /\ lock c' = w_next t m w.
Proof.
  intros [Sh _ (qw & Hw & Kw) _ _] Hc. simpl in *. pose proof (caps_get _ _ _ _ Hc Hw) as Cw.
  destruct (shape_range q Sh) as (_ & _ & Hne).
  destruct w; simpl in Kw.
  - destruct (on_queue_Done (writer q) (q_write m) q qw Hw) as ([] & q' & E).
    { by apply (wp_q_write _ lw); [apply Kw|apply Kw|]. }
    eexists; split; [apply w_write|done]. unfold c_assert. rewrite (proj2 (Z.eqb_neq _ _)) by done. exact E.
  - destruct Kw as [[R Hf Ht] Hm].
    destruct (on_queue_Done (writer q) q_advance q qw Hw) as ([] & q' & E).
    { by apply (wp_q_advance _ lw m). }
    eexists; split; [exact (w_advance _ _ _ _ _ _ _ E)|done].
  - destruct Kw as (R & Hl & Ht).
    destruct (on_queue_Done (writer q) q_grow q qw Hw) as ([] & q' & E).
    { apply (wp_q_grow _ lw); [done|done|unfold INT_MAX; lia|done]. }
    eexists; split; [exact (w_grow _ _ _ _ _ _ _ E)|done].
  - destruct (on_queue_Done (writer q) q_overload q qw Hw) as ([] & q' & E).
    { by apply (wp_q_overload _ lw); [done|lia|]. }
    eexists; split; [exact (w_overload _ _ _ _ _ _ _ E)|done].
  - eexists; split; [apply w_unlock|done].
Qed.

Lemma reader_progress q l r h p lr lw :
  conf_inv (MkConf q l r h p) lr lw -> (r = RWant -> l = None) ->
  exists c', step (MkConf q l r h p) c' /\ rp c' <> r.
Proof.
  intros [Sh (qr & Hr & Kr) _ Hpc _] Hl. simpl in *.
  assert (exists o q', on_queue (reader q) q_take q = Done o q') as (o & q1 & E).
  { by apply (on_queue_Done _ _ _ qr Hr), (wp_q_take _ lr). }
  destruct r; simpl in Hpc.
  - destruct (on_queue_Done (reader q) q_warn q qr Hr) as ([] & q' & E').
    { by apply (wp_q_warn _ lr). }
    eexists; split; [exact (r_enter _ _ _ _ _ E')|done].
  - destruct o; eexists;
      (split; [(exact (r_take _ _ _ _ _ _ E) || exact (r_empty _ _ _ _ _ E))|done]).
  - rewrite Hl by done. eexists; split; [apply r_lock|done].
  - destruct Hpc as [_ ->]. eexists; split; [exact (r_swap _ _ _ _ eq_refl)|done].
  - rewrite Hpc. eexists; split; [apply r_unlock|done].
  - destruct o; eexists;
      (split; [(exact (r_retake _ _ _ _ _ _ E) || exact (r_none _ _ _ _ _ E))|done]).
Qed.

(** C16: in every reachable configuration whose rings are below 2^29 cells the
    writer that holds the mutex can take its next step (no assertion, bound or
    overflow fault), and the reader can take its next step unless it waits for
    the mutex. *)
Theorem concurrent_progress c :
  rtc step init c -> caps_below (2 ^ 29) (mq c) ->
  (forall t m w, lock c = Some (HWriter t m w) -> exists c', step c c' /\ lock c' = w_next t m w) /\
  ((rp c = RWant -> lock c = None) -> exists c', step c c' /\ rp c' <> rp c).
Proof.
  intros (lr & lw & I)%reachable_inv Hc. destruct c as [q l r h p]. simpl in *. split.
  - intros t m w ->. by eapply writer_progress.
  - by eapply reader_progress.
Qed.

Lemma concurrent_progress_witness :
  exists c', step (MkConf queue_create (Some (HWriter 7 (MkMsg 1 2 3 4) WLocked)) RIdle [] []) c' /\
    lock c' = Some (HWriter 7 (MkMsg 1 2 3 4) WWritten).
Proof.
  refine (proj1 (concurrent_progress
    (MkConf queue_create (Some (HWriter 7 (MkMsg 1 2 3 4) WLocked)) RIdle [] []) _ _) 7%nat _ WLocked eq_refl).
  - eapply rtc_l; [apply (w_lock 7 (MkMsg 1 2 3 4))|apply rtc_refl].
  - apply Forall_cons; split; [simpl; lia|]. apply Forall_cons; split; [simpl; lia|]. apply Forall_nil; exact I.
Defined.
