(* ===== verification/ObjectContainer.v ===== *)
(** * The table of objects with stable ids (object_container.c)

    [container_create] builds an array of [max] cells and threads the slots
    into a free list; [container_add] takes the first free slot and its index
    is the id of the object until [container_remove]. A slot pointer is the
    index of the slot in the array, NULL is [None]. The theorems show that the
    table refines a map from the ids handed out to their objects, and that
    iterating over it while the callback removes the visited id, as the client
    manager does on release, empties it. *)

From S2P Require Import Prelude Outcome.

Record object_sot := MkSot { index : Z; next : option Z }.

Section container.
Context {A : Type}.

Record object_container := MkContainer {
  mgr : list (option A);
  size : Z;
  slots : list object_sot;
  freelist : option Z }.

(** One round of the loop of [container_create]. *)
Definition create_slot (i : Z) : M object_container unit :=
  c ← get;
  require OutOfBounds (bool_decide (in_range (slots c) i));;
  put (MkContainer (mgr c) (size c) (aset (slots c) i (MkSot i (freelist c))) (Some i)).

Definition container_create (max : Z) : M object_container unit :=
  c_assert (0 <? max);;
  put (MkContainer (replicate (Z.to_nat max) None) max
         (replicate (Z.to_nat max) (MkSot 0 None)) None);;
  for_each (seqZ 0 max) create_slot.

Definition container_get (id : Z) : M object_container (option A) :=
  c ← get;
  if (id <? 0) || (size c <=? id) then mret None
  else deref OutOfBounds (aget (mgr c) id).

Definition container_add (object : option A) : M object_container Z :=
  c ← get;
  match freelist c with
  | None => mret (-1)
  | Some p =>
      slot ← deref OutOfBounds (aget (slots c) p);
      require OutOfBounds (bool_decide (in_range (mgr c) (index slot)));;
      put (MkContainer (aset (mgr c) (index slot) object) (size c) (slots c) (next slot));;
      mret (index slot)
  end.

Definition container_remove (id : Z) : M object_container unit :=
  c ← get;
  slot ← deref OutOfBounds (aget (slots c) id);
  require OutOfBounds (bool_decide (in_range (mgr c) id));;
  put (MkContainer (aset (mgr c) id None) (size c)
         (aset (slots c) id (MkSot (index slot) (freelist c))) (Some id)).

(** [container_foreach]: the callback runs in a state [T] that holds the table
    and may change it (closing a client removes it); [size] never changes after
    the creation, so the range of the loop is fixed on entry. *)
Definition container_foreach {T} (tab : T -> object_container) (func : Z -> A -> M T unit) : M T unit :=
  t ← get;
  for_each (seqZ 0 (size (tab t))) (fun i =>
    t ← get;
    o ← deref OutOfBounds (aget (mgr (tab t)) i);
    match o with
    | Some a => func i a
    | None => mret tt
    end).

(** ** Representation: a stack of free ids and the map of the live ones *)

Fixpoint chain (sl : list object_sot) (p : option Z) (fl : list Z) : Prop :=
  match fl with
  | [] => p = None
  | i :: fl => p = Some i /\ exists n, aget sl i = Some (MkSot i n) /\ chain sl n fl
  end.

Record c_ok (max : Z) (c : object_container) (fl : list Z) (live : gmap Z A) : Prop := {
  ok_size : size c = max;
  ok_mgr_len : alen (mgr c) = max;
  ok_slots_len : alen (slots c) = max;
  ok_index i s : aget (slots c) i = Some s -> index s = i;
  ok_chain : chain (slots c) (freelist c) fl;
  ok_nodup : NoDup fl;
  ok_free i : i ∈ fl <-> 0 <= i < max /\ live !! i = None;
  ok_live i : 0 <= i < max -> aget (mgr c) i = Some (live !! i);
  ok_dom i : is_Some (live !! i) -> 0 <= i < max
}.

(** A slot outside the chain may be overwritten. *)
Lemma chain_aset sl p fl i s : in_range sl i -> i ∉ fl -> chain sl p fl -> chain (aset sl i s) p fl.
Proof.
  intros Hr. revert p. induction fl as [|j fl IH]; intros p Hi; simpl; [done|].
  apply not_elem_of_cons in Hi as [Hne Hi]. intros (-> & n & Hn & Hc).
  split; [done|]. exists n. rewrite aget_aset_ne; [auto|unfold in_range in *; lia|done].
Qed.

Section ok.
Context (max : Z) (c : object_container) (fl : list Z) (live : gmap Z A) (K : c_ok max c fl live).

(** Every id is either live or free, so the free list has [max - size live] ids. *)
Lemma ok_count : Z.of_nat (length fl) + Z.of_nat (base.size live) = Z.max 0 max.
Proof using K.
  assert (length fl + base.size live = Z.to_nat max)%nat; [|lia].
  rewrite <- size_dom, <- (size_list_to_set (C := gset Z) fl) by apply K.
  rewrite <- size_union; last first.
  { intros i. rewrite elem_of_list_to_set, elem_of_dom, (ok_free _ _ _ _ K). intros [_ ->] [? ?]. done. }
  rewrite <- (length_seqZ 0 max), <- (size_list_to_set (C := gset Z) (seqZ 0 max)) by apply NoDup_seqZ.
  f_equal. apply set_eq. intros i. rewrite elem_of_union, !elem_of_list_to_set, elem_of_dom, elem_of_seqZ.
  rewrite (ok_free _ _ _ _ K). pose proof (ok_dom _ _ _ _ K i).
  assert (live !! i = None \/ is_Some (live !! i)) as Hc by (destruct (live !! i); eauto).
  rewrite Z.add_0_l. naive_solver.
Qed.

Lemma wp_container_get id : container_get id c = Done (live !! id) c.
Proof using K.
  unfold container_get, mbind, M_bind, get. rewrite (ok_size _ _ _ _ K).
  destruct (decide (0 <= id < max)) as [Hr|Hr].
  - replace ((id <? 0) || (max <=? id)) with false by (symmetry; apply orb_false_iff; lia).
    unfold deref. by rewrite (ok_live _ _ _ _ K).
  - replace ((id <? 0) || (max <=? id)) with true by (symmetry; apply orb_true_iff; lia).
    destruct (live !! id) eqn:E; [|done]. destruct Hr. apply (ok_dom _ _ _ _ K). by rewrite E.
Qed.

Lemma wp_container_add a Q :
  (Z.of_nat (base.size live) = Z.max 0 max -> Q (-1) c) ->
  (forall id fl' c', 0 <= id < max -> live !! id = None -> fl = id :: fl' ->
     c_ok max c' fl' (<[id := a]> live) -> Q id c') ->
  wpd (container_add (Some a)) Q c.
Proof using K.
  intros HN HS. unfold container_add. do 2 wp_step. pose proof ok_count as Hcnt.
  destruct fl as [|i fl']; simpl in Hcnt.
  - rewrite (ok_chain _ _ _ _ K). wp_step. apply HN. lia.
  - pose proof (ok_chain _ _ _ _ K) as (-> & n & Hn & Hc).
    destruct (proj1 (ok_free _ _ _ _ K i)) as [Hi Hl]; [by left|].
    wp_step. wp_step; [done|]. simpl. pose proof (ok_mgr_len _ _ _ _ K) as Hml.
    assert (in_range (mgr c) i) as Hr by (unfold in_range; lia).
    wp_step. wp_step; [by apply bool_decide_eq_true|]. wp_step. wp_step. wp_step.
    pose proof (ok_nodup _ _ _ _ K) as [Hni Hnd]%NoDup_cons.
    apply (HS i fl'); [done|done|done|]. split; simpl; try apply K; try done.
    + by rewrite alen_aset.
    + intros j. pose proof (ok_free _ _ _ _ K j) as Hj. rewrite elem_of_cons in Hj.
      destruct (decide (j = i)) as [->|Hne]; [rewrite lookup_insert_eq; naive_solver|].
      rewrite lookup_insert_ne by done. naive_solver.
    + intros j Hj. rewrite aget_aset by done. case_decide as E.
      * subst j. by rewrite lookup_insert_eq.
      * rewrite lookup_insert_ne by done. by apply K.
    + intros j. destruct (decide (i = j)) as [->|Hne]; [done|]. rewrite lookup_insert_ne by done. apply K.
Qed.

Lemma wp_container_remove id Q :
  is_Some (live !! id) ->
  (forall c', c_ok max c' (id :: fl) (delete id live) -> Q tt c') ->
  wpd (container_remove id) Q c.
Proof using K.
  intros Hid HQ. unfold container_remove. do 2 wp_step.
  pose proof (ok_dom _ _ _ _ K id Hid) as Hr.
  assert (in_range (mgr c) id) as Hr1 by (unfold in_range; rewrite (ok_mgr_len _ _ _ _ K); lia).
  assert (in_range (slots c) id) as Hr2 by (unfold in_range; rewrite (ok_slots_len _ _ _ _ K); lia).
  destruct (aget_is_Some _ _ Hr2) as [[j n] Hj]. pose proof (ok_index _ _ _ _ K _ _ Hj) as E. simpl in E. subst j.
  assert (id ∉ fl) as Hn by (rewrite (ok_free _ _ _ _ K); intros [_ E]; rewrite E in Hid; by destruct Hid).
  wp_step. wp_step; [done|]. wp_step. wp_step; [by apply bool_decide_eq_true|]. wp_step. apply HQ.
  split; simpl; try apply K; rewrite ?alen_aset; try apply K.
  - intros i s. rewrite aget_aset by done. case_decide; [intros; by simplify_eq|apply K].
  - split; [done|]. eexists; split; [by rewrite aget_aset_eq|]. apply chain_aset; [done|done|apply K].
  - apply NoDup_cons. split; [done|apply K].
  - intros i. rewrite elem_of_cons, (ok_free _ _ _ _ K).
    destruct (decide (i = id)) as [->|Hne]; [rewrite lookup_delete_eq; naive_solver|].
    rewrite lookup_delete_ne by done. naive_solver.
  - intros i Hi. rewrite aget_aset by done. case_decide as E.
    + subst i. by rewrite lookup_delete_eq.
    + rewrite lookup_delete_ne by done. by apply K.
  - intros i [a Ha]. apply lookup_delete_Some in Ha as [_ Ha]. apply (ok_dom _ _ _ _ K). by rewrite Ha.
Qed.
End ok.

(** ** Creation *)

(** The first [k] slots are threaded. *)
Record c_init (max k : Z) (c : object_container) : Prop := {
  init_size : size c = max;
  init_mgr : mgr c = replicate (Z.to_nat max) None;
  init_slots : alen (slots c) = max;
  init_index i s : 0 <= i < k -> aget (slots c) i = Some s -> index s = i;
  init_chain : exists fl, chain (slots c) (freelist c) fl /\ NoDup fl /\ forall i, i ∈ fl <-> 0 <= i < k
}.

Lemma wp_create_slot max k c Q :
  c_init max k c -> 0 <= k < max -> (forall c', c_init max (k + 1) c' -> Q tt c') ->
  wpd (create_slot k) Q c.
Proof.
  intros [Hs Hm Hl Hi (fl & Hc & Hn & Hf)] Hk HQ. unfold create_slot. do 2 wp_step.
  assert (in_range (slots c) k) as Hr by (unfold in_range; lia).
  wp_step. wp_step; [by apply bool_decide_eq_true|]. wp_step. apply HQ.
  assert (k ∉ fl) as Hnk by (rewrite Hf; lia).
  split; simpl; [done|done|by rewrite alen_aset| |].
  - intros i s Hik. rewrite aget_aset by done. case_decide; [intros; by simplify_eq|]. apply Hi. lia.
  - exists (k :: fl). split_and!; [|by apply NoDup_cons|].
    + split; [done|]. eexists; split; [by rewrite aget_aset_eq|]. by apply chain_aset.
    + intros i. rewrite elem_of_cons, Hf. lia.
Qed.

Lemma wp_container_create max c Q :
  0 < max -> (forall c' fl, c_ok max c' fl ∅ -> Q tt c') -> wpd (container_create max) Q c.
Proof.
  intros Hm HQ. unfold container_create. wp_step. wp_step; [lia|]. wp_step. wp_step.
  eapply wp_mono.
  - apply (wp_for_each (fun l c => exists k, l = seqZ k (max - k) /\ 0 <= k <= max /\ c_init max k c)).
    + intros i l s (k & E & Hk & I). assert (k < max) as Hlt.
      { apply Z.nle_gt. intros ?. rewrite seqZ_nil in E by lia. done. }
      rewrite seqZ_cons in E by lia. injection E as -> ->.
      apply (wp_create_slot max k); [done|lia|]. intros c' I'. exists (k + 1).
      split_and!; [f_equal; lia|lia|lia|done].
    + exists 0. split_and!; [f_equal; lia|lia|lia|]. split; simpl; [done|done| |lia|].
      * rewrite alen_replicate. lia.
      * exists []. split_and!; [done|constructor|]. intros i. rewrite elem_of_nil. lia.
  - intros [] s (k & E & Hk & [Hs Hg Hl Hi (fl & Hc & Hn & Hf)]). assert (k = max) as ->.
    { destruct (decide (k < max)); [|lia]. rewrite seqZ_cons in E by lia. done. }
    apply (HQ s fl). assert (alen (mgr s) = max) as Hml by (rewrite Hg, alen_replicate; lia).
    split; [done|done|done| |done|done| | |].
    + intros i x Hx. pose proof (aget_Some_range _ _ _ Hx) as Hr. unfold in_range in Hr. apply Hi; [lia|done].
    + intros i. rewrite Hf, lookup_empty. naive_solver.
    + intros i Hi'. rewrite Hg, lookup_empty, aget_replicate by lia. done.
    + intros i. rewrite lookup_empty. by intros [? ?].
Qed.

(** ** The table against the allocator it implements

    [reachable max c live]: [c] comes from [container_create(max)] by adding
    objects and removing live ids, and [live] maps the ids that were handed out
    and not yet removed to their objects. *)

Inductive reachable (max : Z) : object_container -> gmap Z A -> Prop :=
| reach_create c0 c :
    container_create max c0 = Done tt c -> reachable max c ∅
| reach_add c live a id c' :
    reachable max c live -> container_add (Some a) c = Done id c' ->
    reachable max c' (if id =? -1 then live else <[id := a]> live)
| reach_remove c live id c' :
    reachable max c live -> is_Some (live !! id) -> container_remove id c = Done tt c' ->
    reachable max c' (delete id live).

Lemma reachable_ok max c live : 0 < max -> reachable max c live -> exists fl, c_ok max c fl live.
Proof.
  intros Hmax. induction 1 as [c0 c H|c live a id c' _ (fl & K) H|c live id c' _ (fl & K) Hid H].
  - apply (wpd_elim _ (fun _ c => exists fl, c_ok max c fl ∅) _ _ _ H).
    apply wp_container_create; eauto.
  - apply (wpd_elim _ (fun id c' => exists fl, c_ok max c' fl (if id =? -1 then live else <[id := a]> live))
      _ _ _ H).
    apply (wp_container_add max c fl live K); [eauto|].
    intros i fl' c1 Hi _ _ K1. exists fl'. by rewrite (proj2 (Z.eqb_neq _ _)) by lia.
  - apply (wpd_elim _ (fun _ c' => exists fl, c_ok max c' fl (delete id live)) _ _ _ H).
    apply (wp_container_remove max c fl live K); eauto.
Qed.

(** C17: in every reachable state of a table, [container_get] returns exactly the
    live object of the id and NULL for any other integer; [container_add]
    returns -1 only when all [max] ids are live and otherwise a fresh id in
    range; [container_remove] of a live id returns. *)
Theorem container_refines_id_map max c live :
  0 < max -> reachable max c live ->
  (forall id, container_get id c = Done (live !! id) c) /\
  (forall a, exists id c', container_add (Some a) c = Done id c' /\
     ((id = -1 /\ Z.of_nat (base.size live) = max /\ c' = c) \/
      (0 <= id < max /\ live !! id = None))) /\
  (forall id, is_Some (live !! id) -> exists c', container_remove id c = Done tt c').
Proof.
  intros Hmax (fl & K)%reachable_ok; [|done]. split_and!.
  - by apply (wp_container_get max c fl live).
  - intros a. apply (wpd_Done (container_add (Some a)) (fun id c' =>
      (id = -1 /\ Z.of_nat (base.size live) = max /\ c' = c) \/ (0 <= id < max /\ live !! id = None))).
    apply (wp_container_add max c fl live K); [left; split_and!; [done|lia|done]|by right].
  - intros id Hid. assert (wpd (container_remove id) (fun _ _ => True) c) as W
      by by apply (wp_container_remove max c fl live K).
    apply wpd_Done in W as ([] & c' & E & _). eauto.
Qed.

(** ** Iteration *)

(** Calling [container_remove] from the callback, as closing every client does. *)
Lemma wp_foreach_remove max c fl live Q :
  c_ok max c fl live -> (forall c' fl', c_ok max c' fl' ∅ -> Q tt c') ->
  wpd (container_foreach id (fun i _ => container_remove i)) Q c.
Proof.
  intros K HQ. unfold container_foreach. do 2 wp_step. unfold id. rewrite (ok_size _ _ _ _ K).
  eapply wp_mono.
  - apply (wp_for_each (fun l c => exists k fl live, l = seqZ k (max - k) /\ 0 <= k /\
      c_ok max c fl live /\ forall i, i < k -> live !! i = None)).
    + clear dependent c. intros i l c (k & fl' & live' & E & Hk & K & Hl). assert (k < max) as Hlt.
      { apply Z.nle_gt. intros ?. rewrite seqZ_nil in E by lia. done. }
      rewrite seqZ_cons in E by lia. injection E as -> ->.
      do 2 wp_step. wp_step. wp_step; [apply (ok_live _ _ _ _ K); lia|].
      replace (Z.pred (max - k)) with (max - (k + 1)) by lia.
      destruct (live' !! k) as [a|] eqn:Ek.
      * apply (wp_container_remove _ _ _ _ K); [by rewrite Ek|]. intros c' K'.
        exists (k + 1), (k :: fl'), (delete k live'). split_and!; [done|lia|done|].
        intros i Hi. destruct (decide (i = k)) as [->|]; [apply lookup_delete_eq|].
        rewrite lookup_delete_ne by done. apply Hl. lia.
      * wp_step. exists (k + 1), fl', live'. split_and!; [done|lia|done|].
        intros i Hi. destruct (decide (i = k)) as [->|]; [done|]. apply Hl. lia.
    + exists 0, fl, live. split_and!; [f_equal; lia|lia|done|].
      intros i Hi. apply eq_None_not_Some. intros ?%(ok_dom _ _ _ _ K). lia.
  - intros [] s (k & fl' & live' & E & Hk & K' & Hl). assert (max <= k) as Hge.
    { apply Z.nlt_ge. intros ?. rewrite seqZ_cons in E by lia. done. }
    assert (live' = ∅) as ->; [|by eapply HQ].
    apply map_eq. intros i. rewrite lookup_empty. apply eq_None_not_Some. intros Hi.
    pose proof (ok_dom _ _ _ _ K' i Hi). destruct Hi as [a Ha]. rewrite Hl in Ha; [done|lia].
Qed.

(** Iterating over a table with a callback that removes the visited id, the
    way the client manager closes its clients on release, visits every live
    object once and leaves a table in which nothing is live. *)
Theorem container_foreach_remove_empties max c live :
  0 < max -> reachable max c live ->
  exists c', container_foreach id (fun i _ => container_remove i) c = Done tt c' /\
    forall i, container_get i c' = Done None c'.
Proof.
  intros Hmax (fl & K)%reachable_ok; [|done].
  assert (wpd (container_foreach id (fun i _ => container_remove i))
    (fun _ c' => forall i, container_get i c' = Done None c') c) as W.
  { apply (wp_foreach_remove max c fl live _ K). intros c' fl' K' i.
    by rewrite (wp_container_get _ _ _ _ K' i), lookup_empty. }
  apply wpd_Done in W as ([] & c' & E & H). eauto.
Qed.

End container.
Arguments object_container : clear implicits.

(** ** Concrete tables *)

Definition tab0 : object_container Z := after (container_create 2) (MkContainer [] 0 [] None).
Definition tab1 : object_container Z := after (container_add (Some 70)) tab0.

Lemma tab1_reachable : reachable 2 tab1 (<[1 := 70]> ∅).
Proof.
  apply (reach_add 2 tab0 ∅ 70 1); [|reflexivity].
  apply (reach_create 2 (MkContainer [] 0 [] None)). reflexivity.
Qed.

Lemma container_refines_id_map_witness :
  container_get 1 tab1 = Done (Some 70) tab1 /\ container_get 5 tab1 = Done None tab1.
Proof.
  destruct (container_refines_id_map 2 tab1 (<[1 := 70]> ∅) ltac:(lia) tab1_reachable) as (H & _ & _).
  exact (conj (H 1) (H 5)).
Defined.

Lemma container_foreach_remove_witness :
  exists c', container_foreach id (fun i _ => container_remove i) tab1 = Done tt c' /\
    forall i, container_get i c' = Done None c'.
Proof.
  apply (container_foreach_remove_empties 2 tab1 (<[1 := 70]> ∅)); [lia|exact tab1_reachable].
Defined.
