(* ===== verification/Packet.v ===== *)
(** * Packets: checksum, scrambling and framing (common.c, lua-util.c)

    [checksum] of common.c, the packet object of lua-util.c ([lpacket_new],
    [lpacket_pack], [lpacket_unpack]) and the rpc framing [lrpc_pack]. The
    theorems give the checksum as the 16-bit ones' complement sum, its
    verification property, the exact bytes of a packed packet, and the framing
    round trip. The receiving side is in Client.v. *)

From S2P Require Import Prelude Outcome.

(** ** checksum *)

(** The first two loops, on [uint32_t sum]; [*addr++] reads little endian. *)
Fixpoint sum16 (l : bytes) (sum : Z) : Z :=
  match l with
  | b0 :: b1 :: l => sum16 l (u32 (sum + (b2z b0 + b2z b1 * 256)))
  | [b] => u32 (sum + b2z b)
  | [] => sum
  end.

(** [while (sum >> 16) sum = (sum & 0xffff) + (sum >> 16)] *)
Fixpoint fold16 (fuel : nat) (sum : Z) : option Z :=
  match fuel with
  | O => None
  | S fuel =>
      if Z.shiftr sum 16 =? 0 then Some sum
      else fold16 fuel (u32 (Z.land sum 65535 + Z.shiftr sum 16))
  end.

(** Two rounds bring any 32-bit sum below 2^16 ([checksum_eq] below), so
    three units of fuel are enough. *)
Definition checksum (l : bytes) : option Z :=
  (fun sum => u16 (s16 (u32 (Z.lnot sum)))) <$> fold16 3 (sum16 l 0).

(** ** The packet object *)

Record packet := MkPacket { rseed : Z; rorder : Z; wseed : Z; worder : Z }.

(** What a Lua value gives as data: a string, a pointer with a size in the next
    argument, or something else. *)
Inductive lua_data :=
| TSTRING (data : bytes)
| TLIGHTUSERDATA (mem : bytes) (n : Z)
| TOTHER.

Definition data_arg {St} (a : lua_data) : M St bytes :=
  match a with
  | TSTRING data => mret data
  | TLIGHTUSERDATA mem n => deref OutOfBounds (slice mem 0 (u64 n))
  | TOTHER => luaL_error "unkown type"
  end.

Definition lpacket_new : packet := MkPacket 0 0 0 0.

Definition lpacket_unpack (data : bytes) (size : Z) : M packet (Z * bytes * Z) :=
  d0 ← deref OutOfBounds (aget data 0);
  d1 ← deref OutOfBounds (aget data 1);
  mret (u16 (Z.lor (b2z d0) (Z.shiftl (b2z d1) 8)), drop 2 data, s64 (u64 (u64 size - 2))).

(** The loop over [mb[2 ..]]: each byte is xored with the seed and the plain
    byte is added to it. *)
Fixpoint scramble (seed : Z) (l : bytes) : bytes * Z :=
  match l with
  | [] => ([], seed)
  | tmp :: l =>
      let '(out, seed') := scramble (u8 (seed + b2z tmp)) l in
      (z2b (Z.lxor (b2z tmp) seed) :: out, seed')
  end.

Definition lpacket_pack (id : Z) (arg : lua_data) : M packet (bytes * Z) :=
  data ← data_arg arg;
  p ← get;
  let id := s32 id in
  let total := u64 (alen data + 8) in
  let mb := replicate (Z.to_nat total) (z2b 0) in
  mb ← deref OutOfBounds (memcpy mb 0 (le_split 2 total));
  mb ← deref OutOfBounds (memcpy mb 4 (le_split 2 (worder p)));
  mb ← deref OutOfBounds (memcpy mb 6 (le_split 2 id));
  mb ← deref OutOfBounds (memcpy mb 8 data);
  body ← deref OutOfBounds (slice mb 4 (total - 4));
  sum ← deref OutOfFuel (checksum body);
  mb ← deref OutOfBounds (memcpy mb 2 (le_split 2 sum));
  require SignedOverflow (total <=? INT_MAX);;
  let '(out, seed) := scramble (wseed p) (drop 2 mb) in
  put (MkPacket (rseed p) (rorder p) seed (u16 (worder p + 1)));;
  mret (take 2 mb ++ out, total).

(** [lrpc_pack]: a 4-byte length that counts itself, then the data; the length
    is an [int], which overflows for 2 GiB of data. *)
Definition lrpc_pack (arg : lua_data) : M unit (bytes * Z) :=
  data ← data_arg arg;
  let total := s32 (u64 (alen data + 4)) in
  require UndefinedBehaviour (4 <=? total);;
  let buffer := replicate (Z.to_nat total) (z2b 0) in
  buffer ← deref OutOfBounds (memcpy buffer 0 (le_split 4 total));
  buffer ← deref OutOfBounds (memcpy buffer 4 data);
  mret (buffer, total).

(** ** The checksum in closed form *)

Fixpoint word_sum (l : bytes) : Z :=
  match l with
  | b0 :: b1 :: l => b2z b0 + b2z b1 * 256 + word_sum l
  | [b] => b2z b
  | [] => 0
  end.

(** The representative of [x] modulo 2^16 - 1 in [1 .. 2^16 - 1], and 0 for 0. *)
Definition ones_sum (x : Z) : Z := if x =? 0 then 0 else 1 + (x - 1) mod 65535.

Lemma bytes_ind2 (P : bytes -> Prop) :
  P [] -> (forall b, P [b]) -> (forall b0 b1 l, P l -> P (b0 :: b1 :: l)) -> forall l, P l.
Proof.
  intros H0 H1 H2. fix IH 1. intros [|b0 [|b1 l]]; [done|done|]. apply H2, IH.
Qed.

Lemma word_sum_bound l : 0 <= 2 * word_sum l <= 65535 * (alen l + 1).
Proof.
  induction l as [|b|b0 b1 l IH] using bytes_ind2; cbn [word_sum]; rewrite ?alen_cons, ?alen_nil.
  - done.
  - pose proof (b2z_range b). lia.
  - pose proof (b2z_range b0). pose proof (b2z_range b1). lia.
Qed.

Lemma word_sum_app b0 b1 l : word_sum ([b0; b1] ++ l) = b2z b0 + b2z b1 * 256 + word_sum l.
Proof. done. Qed.

Lemma sum16_eq l sum : 0 <= sum -> sum + word_sum l < 2 ^ 32 -> sum16 l sum = sum + word_sum l.
Proof.
  revert sum. induction l as [|b|b0 b1 l IH] using bytes_ind2; cbn [word_sum sum16]; intros sum Hs Hl.
  - lia.
  - pose proof (b2z_range b). apply uwrap_small. lia.
  - pose proof (b2z_range b0). pose proof (b2z_range b1). pose proof (word_sum_bound l).
    rewrite uwrap_small by lia. rewrite IH; lia.
Qed.

Lemma ones_sum_small x : 0 <= x < 65536 -> ones_sum x = x.
Proof. intros. unfold ones_sum. zcase; [lia|]. rewrite Z.mod_small; lia. Qed.

Lemma ones_sum_fold x : 65536 <= x -> ones_sum (x mod 65536 + x / 65536) = ones_sum x.
Proof.
  intros Hx. unfold ones_sum. pose proof (Z.div_mod x 65536 ltac:(lia)) as E.
  assert (1 <= x / 65536) as Hd by (apply Z.div_le_lower_bound; lia).
  pose proof (Z.mod_pos_bound x 65536 ltac:(lia)) as Hm.
  rewrite !(proj2 (Z.eqb_neq _ _)) by lia. f_equal.
  replace (x mod 65536 + x / 65536 - 1) with (x - 1 + (- (x / 65536)) * 65535) by lia.
  by rewrite Z.mod_add.
Qed.

Lemma fold16_step fuel x :
  0 <= x < 2 ^ 32 ->
  fold16 (S fuel) x = if x <? 65536 then Some x else fold16 fuel (x mod 65536 + x / 65536).
Proof.
  intros Hx. cbn [fold16]. rewrite Z.shiftr_div_pow2 by lia. change (2 ^ 16) with 65536.
  change 65535 with (Z.ones 16). rewrite Z.land_ones by lia. change (2 ^ 16) with 65536.
  assert (x / 65536 < 65536) by (apply Z.div_lt_upper_bound; lia).
  pose proof (Z.div_pos x 65536 ltac:(lia) ltac:(lia)).
  pose proof (Z.mod_pos_bound x 65536 ltac:(lia)).
  rewrite uwrap_small by lia. destruct (Z.ltb_spec x 65536) as [Hlt|Hge].
  - rewrite Z.div_small by lia. done.
  - rewrite (proj2 (Z.eqb_neq _ _)); [done|]. pose proof (Z.div_le_lower_bound x 65536 1). lia.
Qed.

Lemma fold16_eq x : 0 <= x < 2 ^ 32 -> fold16 3 x = Some (ones_sum x).
Proof.
  intros Hx. rewrite fold16_step by lia. destruct (Z.ltb_spec x 65536).
  { by rewrite ones_sum_small by lia. }
  rewrite <- ones_sum_fold by lia. set (y := x mod 65536 + x / 65536).
  assert (0 <= y <= 131070) as Hy.
  { subst y. pose proof (Z.mod_pos_bound x 65536 ltac:(lia)).
    assert (x / 65536 < 65536) by (apply Z.div_lt_upper_bound; lia).
    pose proof (Z.div_pos x 65536). lia. }
  rewrite fold16_step by lia. destruct (Z.ltb_spec y 65536).
  { by rewrite ones_sum_small by lia. }
  rewrite <- ones_sum_fold by lia. set (z := y mod 65536 + y / 65536).
  assert (0 <= z <= 65535) as Hz by (subst z; dlia).
  rewrite fold16_step by lia. destruct (Z.ltb_spec z 65536); [|lia]. by rewrite ones_sum_small by lia.
Qed.

Lemma ones_sum_range x : 0 <= x -> 0 <= ones_sum x < 65536.
Proof.
  intros Hx. unfold ones_sum. zcase; [lia|]. pose proof (Z.mod_pos_bound (x - 1) 65535). lia.
Qed.

Lemma checksum_eq l : alen l <= 131072 -> checksum l = Some (65535 - ones_sum (word_sum l)).
Proof.
  intros Hl. pose proof (word_sum_bound l). unfold checksum.
  rewrite sum16_eq, Z.add_0_l by lia. rewrite fold16_eq by lia. simpl. f_equal.
  pose proof (ones_sum_range (word_sum l) ltac:(lia)).
  rewrite uwrap_swrap, uwrap_uwrap by lia. symmetry. apply (Z.mod_unique_pos _ _ (-1)); unfold Z.lnot; lia.
Qed.

(** The two bytes of a 16-bit value. *)
Lemma le_split2 z : le_split 2 z = [z2b z; z2b (z / 256)].
Proof. unfold le_split. by rewrite Z.shiftr_div_pow2. Qed.

(** [b[0] | b[1] << 8] of the two bytes of a value. *)
Lemma le_join2 z : Z.lor (b2z (z2b z)) (Z.shiftl (b2z (z2b (z / 256))) 8) = u16 z.
Proof.
  pose proof (b2z_range (z2b z)). rewrite lor_shiftl by lia. rewrite !b2z_z2b. unfold uwrap.
  change (2 ^ 8) with 256. change (2 ^ 16) with (256 * 256). rewrite Z.rem_mul_r by lia. lia.
Qed.

Lemma word_sum_le2 z l : 0 <= z < 65536 -> word_sum (le_split 2 z ++ l) = z + word_sum l.
Proof. intros Hz. rewrite le_split2, word_sum_app, !b2z_z2b. dlia. Qed.

(** A sum stored in front of the words it covers verifies to 0. *)
Lemma checksum_verifies l sum :
  alen l <= 131070 -> checksum l = Some sum -> checksum (le_split 2 sum ++ l) = Some 0.
Proof.
  intros Hl. rewrite !checksum_eq by (rewrite ?alen_app, ?alen_le_split; lia). intros [= <-].
  pose proof (word_sum_bound l) as Hb. pose proof (ones_sum_range (word_sum l) ltac:(lia)) as Hr.
  rewrite word_sum_le2 by lia. f_equal.
  assert (ones_sum (65535 - ones_sum (word_sum l) + word_sum l) = 65535) as ->; [|lia].
  revert Hr. unfold ones_sum. destruct (Z.eqb_spec (word_sum l) 0) as [->|Hne]; [done|].
  intros Hr. pose proof (Z.div_mod (word_sum l - 1) 65535 ltac:(lia)) as E.
  pose proof (Z.mod_pos_bound (word_sum l - 1) 65535 ltac:(lia)) as Hm.
  rewrite (proj2 (Z.eqb_neq _ _)) by lia.
  replace (65535 - (1 + (word_sum l - 1) mod 65535) + word_sum l - 1)
    with (65534 + (word_sum l - 1) / 65535 * 65535) by lia.
  by rewrite Z.mod_add.
Qed.

(** C18: [checksum] is the 16-bit ones' complement checksum: the complement of the
    sum of the little-endian 16-bit words reduced modulo 2^16 - 1, for every
    buffer of at most 128 KiB (the 32-bit accumulator does not overflow and
    the folding loop ends after two rounds). *)
Theorem checksum_ones_complement l :
  alen l <= 131072 -> checksum l = Some (65535 - ones_sum (word_sum l)).
Proof. apply checksum_eq. Qed.

Lemma checksum_ones_complement_witness :
  checksum [z2b 255; z2b 255; z2b 2] = Some (65535 - ones_sum (word_sum [z2b 255; z2b 255; z2b 2])).
Proof. apply (checksum_ones_complement [z2b 255; z2b 255; z2b 2]). vm_compute. discriminate. Defined.

(** ** What a packet looks like on the wire *)

Lemma wp_data_arg_eq {St} (arg : lua_data) data (s : St) :
  (arg = TSTRING data \/ exists mem, arg = TLIGHTUSERDATA mem (alen data) /\
     alen data < 2 ^ 63 /\ data `prefix_of` mem) ->
  data_arg arg s = Done data s.
Proof.
  intros [->|(mem & -> & Hl & k & ->)]; [done|]. simpl. pose proof (alen_nonneg data).
  rewrite uwrap_small by lia. rewrite (slice_mid [] data k) by done. done.
Qed.

(** What [lpacket_pack] scrambles: the sum, the order, the id and the data. *)
Definition packet_plain (order id : Z) (data : bytes) : bytes :=
  let body := le_split 2 order ++ le_split 2 (s32 id) ++ data in
  le_split 2 (65535 - ones_sum (word_sum body)) ++ body.

#[global] Arguments packet_plain : simpl never.

Lemma replicate_packet {A} (x : A) (data : bytes) :
  replicate (Z.to_nat (alen data + 8)) x =
  replicate 2 x ++ replicate 2 x ++ replicate 2 x ++ replicate 2 x ++ replicate (length data) x.
Proof.
  rewrite <- !replicate_add. f_equal. pose proof (alen_length data). lia.
Qed.

Lemma lpacket_pack_eq p id arg data :
  data_arg arg p = Done data p -> alen data + 8 <= 131072 ->
  lpacket_pack id arg p =
    Done (le_split 2 (alen data + 8) ++ (scramble (wseed p) (packet_plain (worder p) id data)).1, alen data + 8)
         (MkPacket (rseed p) (rorder p) (scramble (wseed p) (packet_plain (worder p) id data)).2
            (u16 (worder p + 1))).
Proof.
  intros Ha Hl. pose proof (alen_nonneg data). unfold lpacket_pack. rewrite (bind_Done _ _ _ _ _ Ha).
  unfold mbind, M_bind, get. rewrite uwrap_small, replicate_packet by lia.
  set (z := replicate 2 (z2b 0)). set (zs := replicate (length data) (z2b 0)).
  set (h := le_split 2 (alen data + 8)). set (o := le_split 2 (worder p)). set (i := le_split 2 (s32 id)).
  assert (alen z = 2) as Lz by (unfold z; by rewrite alen_replicate).
  assert (alen h = 2 /\ alen o = 2 /\ alen i = 2) as (Lh & Lo & Li)
    by (unfold h, o, i; by rewrite !alen_le_split).
  assert (alen zs = alen data) as Lzs by (unfold zs; rewrite alen_replicate, alen_length; done).
  rewrite (memcpy_mid [] z h (z ++ z ++ z ++ zs)) by (rewrite ?alen_nil; lia). cbn [deref mret M_ret app].
  rewrite !(app_assoc h z), (memcpy_mid (h ++ z) z o) by (rewrite ?alen_app; lia). cbn [deref mret M_ret].
  rewrite (app_assoc (h ++ z) o), (memcpy_mid ((h ++ z) ++ o) z i) by (rewrite ?alen_app; lia).
  cbn [deref mret M_ret].
  replace (((h ++ z) ++ o) ++ i ++ zs) with ((((h ++ z) ++ o) ++ i) ++ zs ++ []) by (by rewrite app_nil_r, <- !app_assoc).
  rewrite (memcpy_mid (((h ++ z) ++ o) ++ i) zs data) by (rewrite ?alen_app; lia). cbn [deref mret M_ret].
  replace ((((h ++ z) ++ o) ++ i) ++ data ++ []) with ((h ++ z) ++ (o ++ i ++ data) ++ [])
    by by rewrite <- !app_assoc.
  rewrite slice_mid by (rewrite ?alen_app; lia). cbn [deref mret M_ret].
  rewrite checksum_eq by (rewrite ?alen_app; lia). cbn [deref mret M_ret]. rewrite <- (app_assoc h z).
  rewrite memcpy_mid by (rewrite ?alen_le_split; lia). cbn [deref mret M_ret].
  rewrite app_nil_r. replace (alen data + 8 <=? INT_MAX) with true by (unfold INT_MAX; lia).
  unfold h at 1 2. rewrite le_split2. cbn [require mret M_ret app drop take put].
  unfold packet_plain. fold o i. destruct (scramble (wseed p) _) as [out seed].
  unfold h. by rewrite (le_split2 (alen data + 8)).
Qed.

(** ** The rpc frame *)

Lemma lrpc_pack_eq arg data s :
  data_arg arg s = Done data s -> alen data + 4 <= INT_MAX ->
  lrpc_pack arg s = Done (le_split 4 (alen data + 4) ++ data, alen data + 4) s.
Proof.
  intros Ha Hl. pose proof (alen_nonneg data). unfold lrpc_pack, INT_MAX in *. rewrite (bind_Done _ _ _ _ _ Ha).
  rewrite uwrap_small, swrap_small by (unfold in_s; lia).
  unfold require. rewrite (proj2 (Z.leb_le 4 _)) by lia.
  unfold mbind, M_bind. cbn [mret M_ret].
  replace (replicate (Z.to_nat (alen data + 4)) (z2b 0))
    with ([] ++ replicate 4 (z2b 0) ++ replicate (length data) (z2b 0)); last first.
  { rewrite app_nil_l, <- replicate_add. f_equal. pose proof (alen_length data). lia. }
  rewrite memcpy_mid by by rewrite ?alen_replicate, ?alen_le_split, ?alen_nil. cbn [deref mret M_ret].
  rewrite app_nil_l, <- (app_nil_r (replicate (length data) _)).
  rewrite memcpy_mid by by rewrite ?alen_replicate, ?alen_le_split, ?alen_length. cbn [deref mret M_ret].
  by rewrite app_nil_r.
Qed.

(** An rpc message of less than 2 GiB is framed as its total length in four
    little-endian bytes followed by the data, so a reader that takes the
    length from the first four bytes finds exactly the data behind them. *)
Theorem lrpc_pack_roundtrip arg data s :
  data_arg arg s = Done data s -> alen data + 4 <= INT_MAX ->
  exists buffer, lrpc_pack arg s = Done (buffer, alen buffer) s /\
    le_combine (take 4 buffer) = alen buffer /\ drop 4 buffer = data.
Proof.
  intros Ha Hl. pose proof (alen_nonneg data). unfold INT_MAX in *.
  exists (le_split 4 (alen data + 4) ++ data). rewrite (lrpc_pack_eq _ data) by (done || unfold INT_MAX; lia).
  rewrite alen_app, alen_le_split. split_and!; [by rewrite (Z.add_comm (Z.of_nat 4))| |].
  - rewrite take_app_length' by by rewrite length_le_split.
    rewrite le_combine_split, Z.mod_small; lia.
  - by rewrite drop_app_length' by by rewrite length_le_split.
Qed.

Lemma lrpc_pack_roundtrip_witness :
  exists buffer, lrpc_pack (TSTRING [z2b 1; z2b 2; z2b 3]) tt = Done (buffer, alen buffer) tt /\
    le_combine (take 4 buffer) = alen buffer /\ drop 4 buffer = [z2b 1; z2b 2; z2b 3].
Proof.
  apply (lrpc_pack_roundtrip (TSTRING [z2b 1; z2b 2; z2b 3]) [z2b 1; z2b 2; z2b 3] tt);
    [reflexivity|vm_compute; discriminate].
Defined.
