(* ===== verification/Util.v ===== *)
(** * Text and cipher helpers of lua-util.c

    [lhex_encode], [lhex_decode], [lrc4] and [lauthcode]. OpenSSL's MD5 and RC4
    are parameters: [md5] gives the digest of a buffer, [rc4 key] the key
    stream cipher started from [key]; the theorems only use that a digest has
    16 bytes and that RC4 keeps the length and is its own inverse. *)

From S2P Require Import Prelude Outcome.

Definition SMALL_CHUNK : Z := 256.

(** ** Hexadecimal text *)

(** [static char hex[] = "0123456789abcdef"] *)
Definition hex : bytes :=
  z2b <$> [48; 49; 50; 51; 52; 53; 54; 55; 56; 57; 97; 98; 99; 100; 101; 102].

(** The macro [HEX]: [char] is signed, the digit goes into a [uint8_t]. *)
Definition HEX (c : byte) : Z :=
  let tmp := s8 (b2z c) in
  u8 (if (48 <=? tmp) && (tmp <=? 57) then tmp - 48 else tmp - 97 + 10).

Fixpoint hex_put (text : bytes) : M unit bytes :=
  match text with
  | [] => mret []
  | c :: text =>
      hi ← deref OutOfBounds (aget hex (Z.shiftr (b2z c) 4));
      low ← deref OutOfBounds (aget hex (Z.land (b2z c) 15));
      out ← hex_put text;
      mret (hi :: low :: out)
  end.

(** The loop writes [2 * sz] bytes to [tmp] or to a block of that size; its
    index is an [int]. *)
Definition lhex_encode (text : bytes) : M unit bytes :=
  let sz := alen text in
  let cap := if SMALL_CHUNK / 2 <? sz then sz * 2 else SMALL_CHUNK in
  require SignedOverflow (2 * sz <=? INT_MAX + 1);;
  require OutOfBounds (sz * 2 <=? cap);;
  hex_put text.

Fixpoint hex_get (text : bytes) : M unit bytes :=
  match text with
  | [] => mret []
  | [_] => crash OutOfBounds
  | c0 :: c1 :: text =>
      let hi := HEX c0 in
      let low := HEX c1 in
      if (16 <? hi) || (16 <? low) then luaL_error "Invalid hex text" else
      out ← hex_get text;
      mret (z2b (Z.lor (Z.shiftl hi 4) low) :: out)
  end.

Definition lhex_decode (text : bytes) : M unit bytes :=
  let sz := alen text in
  if Z.odd sz then luaL_error "Invalid hex text size" else
  let cap := if SMALL_CHUNK * 2 <? sz then sz / 2 else SMALL_CHUNK in
  require SignedOverflow (sz <=? INT_MAX);;
  require OutOfBounds (sz / 2 <=? cap);;
  hex_get text.

Lemma HEX_hex z : 0 <= z < 16 -> exists c, aget hex z = Some c /\ HEX c = z.
Proof.
  intros Hz. assert (z ∈ seqZ 0 16) as Hin by (apply elem_of_seqZ; lia).
  assert (Forall (fun z => exists c, aget hex z = Some c /\ HEX c = z) (seqZ 0 16)) as HF.
  { unfold seqZ. simpl. repeat (apply Forall_cons; split; [eexists; split; vm_compute; reflexivity|]).
    by apply Forall_nil. }
  rewrite Forall_forall in HF. by apply HF.
Qed.

Lemma nibbles b : Z.lor (Z.shiftl (Z.shiftr (b2z b) 4) 4) (Z.land (b2z b) 15) = b2z b.
Proof. destruct b; reflexivity. Qed.

Lemma hex_put_get text s :
  exists out, hex_put text s = Done out s /\ hex_get out s = Done text s /\ alen out = 2 * alen text.
Proof.
  induction text as [|c text (out & Hp & Hg & Hl)]; [exists []; done|].
  pose proof (b2z_range c) as Hc.
  destruct (HEX_hex (Z.shiftr (b2z c) 4)) as (hi & Hhi & Ehi).
  { rewrite Z.shiftr_div_pow2 by lia. change (2 ^ 4) with 16. dlia. }
  destruct (HEX_hex (Z.land (b2z c) 15)) as (low & Hlow & Elow).
  { change 15 with (Z.ones 4). rewrite Z.land_ones by lia. apply Z.mod_pos_bound. lia. }
  exists (hi :: low :: out). simpl. rewrite Hhi, Hlow. unfold mbind, M_bind. cbn [deref mret M_ret].
  rewrite Hp, Ehi, Elow. split_and!; [done| |rewrite !alen_cons; lia].
  assert (Z.shiftr (b2z c) 4 < 16) by (rewrite Z.shiftr_div_pow2 by lia; apply Z.div_lt_upper_bound; lia).
  assert (Z.land (b2z c) 15 < 16).
  { change 15 with (Z.ones 4). rewrite Z.land_ones by lia. apply Z.mod_pos_bound. lia. }
  rewrite !(proj2 (Z.ltb_ge 16 _)) by lia. simpl. rewrite Hg, nibbles, z2b_b2z. done.
Qed.

(** Decoding what [hex_encode] wrote gives the text back, for every text the
    [int] loop indices reach; neither loop writes outside its buffer. *)
Theorem hex_roundtrip text s :
  2 * alen text <= INT_MAX ->
  exists h, lhex_encode text s = Done h s /\ lhex_decode h s = Done text s.
Proof.
  intros Hl. pose proof (alen_nonneg text). destruct (hex_put_get text s) as (h & Hp & Hg & Eh).
  exists h. unfold lhex_encode, lhex_decode, SMALL_CHUNK, mbind, M_bind, require, INT_MAX in *. rewrite Eh.
  rewrite Z.odd_mul. simpl (Z.odd 2 && _). cbv iota. split; zcase; try (simpl; done); try dlia.
Qed.

Lemma hex_roundtrip_witness :
  exists h, lhex_encode [z2b 0; z2b 171] tt = Done h tt /\ lhex_decode h tt = Done [z2b 0; z2b 171] tt.
Proof. apply (hex_roundtrip [z2b 0; z2b 171] tt). vm_compute. discriminate. Defined.

(** The range check compares with 16 and only rejects letters above 'g' and
    characters below 'W': the text "0g" decodes to one byte 16, and "[Z" to 67. *)
Lemma hex_decode_accepts_non_hex s :
  lhex_decode [z2b 48; z2b 103] s = Done [z2b 16] s /\ lhex_decode [z2b 91; z2b 90] s = Done [z2b 67] s.
Proof. split; reflexivity. Qed.

(** ** Ciphers *)

Section cipher.
Context (md5 : bytes -> bytes) (rc4 : bytes -> bytes -> bytes).

Definition lrc4 (source key : bytes) : bytes := rc4 key source.

Definition lauthcode (source key : bytes) (encode : Z) : M unit bytes :=
  if negb (encode =? 0) then
    let block := md5 source ++ source in
    mret (rc4 key block)
  else
    let block := rc4 key source in
    omd5 ← deref OutOfBounds (slice block 0 16);
    rest ← deref OutOfBounds (slice block 16 (u64 (alen source - 16)));
    let cmd5 := md5 rest in
    if bool_decide (omd5 <> cmd5) then luaL_error "authcode decode error"
    else mret rest.

Class CipherLaws : Prop := {
  md5_length x : alen (md5 x) = 16;
  rc4_length key x : alen (rc4 key x) = alen x;
  rc4_involutive key x : rc4 key (rc4 key x) = x
}.

Context {Laws : CipherLaws}.

(** Decoding in terms of the deciphered block. *)
Lemma lauthcode_decode_eq digest rest key s :
  alen digest = 16 -> alen rest < 2 ^ 63 ->
  lauthcode (rc4 key (digest ++ rest)) key 0 s =
    if bool_decide (digest <> md5 rest) then Raise "authcode decode error" s else Done rest s.
Proof using Laws.
  intros Hd Hr. pose proof (alen_nonneg rest). unfold lauthcode. cbn [Z.eqb negb].
  rewrite rc4_involutive, rc4_length, alen_app, uwrap_small by lia.
  unfold mbind, M_bind. rewrite (slice_mid [] digest rest) by done. cbn [deref mret M_ret].
  rewrite <- (app_nil_r rest) at 1. rewrite slice_mid by lia. cbn [deref mret M_ret].
  by case_bool_decide.
Qed.

(** C19: decoding with the same key what [authcode] encoded gives the source back;
    a cipher text of at least 16 bytes is accepted only if it is the encoding
    of the returned text under that key, and any other one raises an error. *)
Theorem lauthcode_roundtrip source key s :
  alen source < 2 ^ 63 ->
  (exists c, lauthcode source key 1 s = Done c s /\ lauthcode c key 0 s = Done source s) /\
  (forall c, 16 <= alen c < 2 ^ 63 ->
     match lauthcode c key 0 s with
     | Done t s' => s' = s /\ lauthcode t key 1 s = Done c s
     | Raise e s' => s' = s /\ forall t, lauthcode t key 1 s <> Done c s
     | Fault _ => False
     end).
Proof using Laws.
  intros Hs. split.
  - exists (rc4 key (md5 source ++ source)). split; [done|].
    rewrite lauthcode_decode_eq by (done || apply md5_length). by rewrite bool_decide_false by naive_solver.
  - intros c Hc. set (d := take 16 (rc4 key c)). set (r := drop 16 (rc4 key c)).
    assert (alen (rc4 key c) = alen c) as Hlen by apply rc4_length.
    assert (alen d = 16 /\ alen r < 2 ^ 63) as [Hd Hr].
    { unfold d, r. change 16%nat with (Z.to_nat 16). rewrite alen_take, alen_drop by lia. lia. }
    assert (c = rc4 key (d ++ r)) as E by (unfold d, r; by rewrite take_drop, rc4_involutive).
    clearbody d r. subst c.
    rewrite lauthcode_decode_eq by done. case_bool_decide as Hb; (split; [done|]).
    + intros t [= E%(f_equal (rc4 key))]. rewrite !rc4_involutive in E.
      apply app_inj_1 in E as [E1 E2]; [|apply Nat2Z.inj; rewrite <- !alen_length, Hd; apply md5_length].
      by subst t.
    + assert (d = md5 r) as -> by (destruct (decide (d = md5 r)); naive_solver). done.
Qed.

(** A cipher text of less than 16 bytes makes the decoder read behind its block. *)
Lemma lauthcode_short_faults c key s :
  alen c < 16 -> lauthcode c key 0 s = Fault OutOfBounds.
Proof using Laws.
  intros Hc. unfold lauthcode. cbn [Z.eqb negb]. unfold mbind, M_bind.
  rewrite slice_short by (rewrite rc4_length; lia). done.
Qed.

End cipher.

(** A toy cipher that satisfies the laws. *)
Definition toy_md5 (x : bytes) : bytes := take 16 (x ++ replicate 16 (z2b 7)).
Definition toy_rc4 (key x : bytes) : bytes := (fun b => z2b (255 - b2z b)) <$> x.

Lemma toy_laws : CipherLaws toy_md5 toy_rc4.
Proof.
  split.
  - intros x. unfold toy_md5. rewrite alen_length, length_take, length_app, length_replicate. lia.
  - intros key x. unfold toy_rc4. by rewrite !alen_length, length_fmap.
  - intros key x. unfold toy_rc4. rewrite <- list_fmap_compose. rewrite <- (list_fmap_id x) at 2.
    apply list_fmap_ext. intros i b _. simpl. destruct b; reflexivity.
Qed.

Lemma lauthcode_roundtrip_witness :
  exists c, lauthcode toy_md5 toy_rc4 [z2b 1; z2b 2] [z2b 9] 1 tt = Done c tt /\
    lauthcode toy_md5 toy_rc4 c [z2b 9] 0 tt = Done [z2b 1; z2b 2] tt.
Proof.
  refine (proj1 (lauthcode_roundtrip toy_md5 toy_rc4 (Laws := toy_laws) [z2b 1; z2b 2] [z2b 9] tt _)).
  vm_compute. reflexivity.
Defined.
