(* ===== verification/TopK.v ===== *)
(** * Selection of the K first elements of a Lua array (lua-util.c)

    [topK] rearranges an array with the partition step of quicksort until its
    first K elements come before all others in the order of a Lua function.
    The state is the array (the Lua stack, on which each partition leaves its
    pivot, is not modelled), [lua_geti(L, 1, i)] reads [t[i]] with Lua's indices
    from 1, and [comp] is the Lua function at stack index 3. The theorems show
    that the loops end for every comparison function, that the array is
    permuted, that for a strict order no element outside the first K comes
    before one inside, and that K = 0 never returns. *)

From S2P Require Import Prelude Outcome.

Section topK.
Context {V : Type} (comp : V -> V -> bool).

Definition geti (i : Z) : M (list V) V := fun t => deref OutOfBounds (aget t (i - 1)) t.

Definition seti (i : Z) (v : V) : M (list V) unit := fun t =>
  (require OutOfBounds (bool_decide (in_range t (i - 1)));; put (aset t (i - 1) v)) t.

Definition swap (from to : Z) : M (list V) unit :=
  a ← geti from;
  b ← geti to;
  seti from b;;
  seti to a.

(** [sort_comp(L, -1, -2)]: the element on top of the stack against the pivot
    below it; K is at index 2, so the branch for nil is never taken. *)
Definition sort_comp (e pivot : V) : bool := comp e pivot.

(** The two inner loops: [j] goes down to an element before the pivot, [i] goes
    up to one that is not before it. *)
Definition scan_down (fuel : nat) (pivot : V) (i j : Z) : M (list V) Z :=
  loop fuel (fun j =>
    if i <? j then
      e ← geti j;
      if sort_comp e pivot then mret (inr j) else mret (inl (j - 1))
    else mret (inr j)) j.

Definition scan_up (fuel : nat) (pivot : V) (i j : Z) : M (list V) Z :=
  loop fuel (fun i =>
    if i <? j then
      e ← geti i;
      if negb (sort_comp e pivot) then mret (inr i) else mret (inl (i + 1))
    else mret (inr i)) i.

Definition partition (fuel : nat) (lo up : Z) : M (list V) Z :=
  pivot ← geti (lo - 1);
  i ← loop fuel (fun '(i, j) =>
    if i =? j then mret (inr i) else
    j ← scan_down fuel pivot i j;
    i ← scan_up fuel pivot i j;
    when (i <? j) (swap i j);;
    mret (inl (i, j))) (lo, up);
  e ← geti i;
  when (sort_comp e pivot) (swap i (lo - 1));;
  mret i.

(** [while (j != K)]: narrow the range that holds the boundary. [low], [high]
    and [j] are of type [int]; the comparisons with [K] are those of [size_t]. *)
Definition select (fuel rounds : nat) (K : Z) (range : Z * Z * Z) : M (list V) unit :=
  loop rounds (fun '(low, high, j) =>
    if u64 j =? K then mret (inr tt) else
    when (u64 j <? K) (require SignedOverflow (j + 1 <=? INT_MAX));;
    let '(low, high) := if u64 j <? K then (j + 1, high) else (low, j - 1) in
    j ← partition fuel low high;
    mret (inl (low, high, j))) range.

(** [K] arrives as a [lua_Integer] and is used as a [size_t]; the length, a
    [size_t], is cut to the [int] [high]. *)
Definition topK (fuel : nat) (K : Z) : M (list V) unit :=
  narr ← gets alen;
  if narr <? 2 then mret tt else
  let K := u64 K in
  if narr <=? K then mret tt else
  let K := K + 1 in
  let high := s32 narr in
  j ← partition fuel 2 high;
  select fuel fuel K (2, high, j).

(** ** Swaps inside a range *)

Definition tswap (t : list V) (i j : Z) (a b : V) : list V := aset (aset t (i - 1) b) (j - 1) a.

Inductive swap_in (l h : Z) : list V -> list V -> Prop :=
| swap_in_intro t i j a b :
    l <= i <= h -> l <= j <= h -> aget t (i - 1) = Some a -> aget t (j - 1) = Some b ->
    swap_in l h t (tswap t i j a b).

Abbreviation swaps l h := (rtc (swap_in l h)).

Lemma aget_tswap t i j a b k :
  aget t (i - 1) = Some a -> aget t (j - 1) = Some b ->
  aget (tswap t i j a b) (k - 1) =
    if decide (k = j) then Some a else if decide (k = i) then Some b else aget t (k - 1).
Proof.
  intros Ha Hb. unfold tswap. pose proof (aget_Some_range _ _ _ Ha). pose proof (aget_Some_range _ _ _ Hb).
  rewrite aget_aset by (unfold in_range; rewrite alen_aset; done).
  rewrite aget_aset by done. repeat case_decide; done || (exfalso; lia).
Qed.

Lemma alen_swaps l h t t' : swaps l h t t' -> alen t' = alen t.
Proof.
  induction 1 as [|t1 t2 t3 Hs _ IH]; [done|]. rewrite IH. destruct Hs. unfold tswap. by rewrite !alen_aset.
Qed.

Lemma swaps_outside l h t t' k : swaps l h t t' -> ~ (l <= k <= h) -> aget t' (k - 1) = aget t (k - 1).
Proof.
  intros Hs Hk. induction Hs as [|t1 t2 t3 Hs _ IH]; [done|]. rewrite IH.
  destruct Hs as [t i j a b ? ? Ha Hb]. rewrite aget_tswap by done. repeat case_decide; done || lia.
Qed.

(** What is in the range after the swaps was in the range before. *)
Lemma swaps_inside l h t t' k x :
  swaps l h t t' -> l <= k <= h -> aget t' (k - 1) = Some x ->
  exists k', l <= k' <= h /\ aget t (k' - 1) = Some x.
Proof.
  intros Hs Hk. revert k x Hk. induction Hs as [|t1 t2 t3 Hs _ IH]; [eauto|].
  intros k x Hk Hx. destruct (IH k x Hk Hx) as (k' & Hk' & Hx'). clear IH.
  destruct Hs as [t i j a b ? ? Ha Hb]. rewrite aget_tswap in Hx' by done.
  repeat case_decide; simplify_eq; eauto.
Qed.

Lemma swaps_perm l h t t' : swaps l h t t' -> t' ≡ₚ t.
Proof.
  induction 1 as [|t1 t2 t3 Hs _ IH]; [done|]. rewrite IH. destruct Hs as [t i j a b ? ? Ha Hb].
  unfold tswap. by apply aset_swap_perm.
Qed.

Lemma swaps_mono l h l' h' t t' : l' <= l -> h <= h' -> swaps l h t t' -> swaps l' h' t t'.
Proof.
  intros ? ? Hs. induction Hs as [|t1 t2 t3 Hs _ IH]; [done|].
  eapply rtc_l; [|done]. destruct Hs. constructor; (lia || done).
Qed.

Lemma wp_tswap t i j a b Q :
  aget t (i - 1) = Some a -> aget t (j - 1) = Some b -> Q tt (tswap t i j a b) -> wpd (swap i j) Q t.
Proof.
  intros Ha Hb HQ. unfold swap, geti, seti. pose proof (aget_Some_range _ _ _ Ha). pose proof (aget_Some_range _ _ _ Hb).
  unfold wp, mbind, M_bind. rewrite Ha. cbn [deref mret M_ret]. rewrite Hb. cbn [deref mret M_ret].
  rewrite bool_decide_true by done. cbn [require mret M_ret put].
  rewrite bool_decide_true by (unfold in_range; by rewrite alen_aset). done.
Qed.

(** ** The partition step *)

Definition all_in (t : list V) (l h : Z) (P : V -> Prop) : Prop :=
  forall k x, l <= k <= h -> aget t (k - 1) = Some x -> P x.

Lemma all_in_ext t t' l h P :
  (forall k, l <= k <= h -> aget t' (k - 1) = aget t (k - 1)) -> all_in t l h P -> all_in t' l h P.
Proof. intros E H k x Hk Hx. apply (H k x Hk). by rewrite <- E. Qed.

Lemma all_in_app t l m h P : all_in t l m P -> all_in t (m + 1) h P -> all_in t l h P.
Proof. intros H1 H2 k x Hk Hx. destruct (decide (k <= m)); [apply (H1 k)|apply (H2 k)]; done || lia. Qed.

Lemma all_in_one t k x (P : V -> Prop) : aget t (k - 1) = Some x -> P x -> all_in t k k P.
Proof. intros Hx HP j y Hj Hy. assert (j = k) as -> by lia. congruence. Qed.

Lemma wp_geti t i x Q : aget t (i - 1) = Some x -> Q x t -> wpd (geti i) Q t.
Proof. intros Hx HQ. unfold wp, geti. by rewrite Hx. Qed.

Lemma aget_in (t : list V) i : 1 <= i <= alen t -> exists x, aget t (i - 1) = Some x.
Proof. intros. apply aget_is_Some. unfold in_range. lia. Qed.

Lemma wp_scan_down fuel p i j t Q :
  1 <= i <= j -> j <= alen t -> j - i < Z.of_nat fuel ->
  (forall j', i <= j' <= j -> all_in t (j' + 1) j (fun x => comp x p = false) ->
     (i < j' -> exists x, aget t (j' - 1) = Some x /\ comp x p = true) -> Q j' t) ->
  wpd (scan_down fuel p i j) Q t.
Proof.
  intros Hi Hj Hf HQ. unfold scan_down.
  apply (wp_loop (fun j' t' => t' = t /\ i <= j' <= j /\ all_in t (j' + 1) j (fun x => comp x p = false))
    (fun j' _ => Z.to_nat (j' - i))); [| |lia].
  - intros j' s (-> & Hj' & Hall). destruct (Z.ltb_spec i j') as [Hlt|Hge].
    + destruct (aget_in t j') as (x & Hx); [lia|]. wp_step. apply (wp_geti _ _ _ _ Hx).
      unfold sort_comp. destruct (comp x p) eqn:Hc; wp_step; [by eauto|].
      split; [|lia]. split_and!; [done|lia|lia|]. replace (j' - 1 + 1) with j' by lia.
      apply (all_in_app _ _ j'); [by eapply all_in_one|done].
    + wp_step. apply HQ; [done|done|lia].
  - split_and!; [done|lia|lia|]. intros k x Hk. lia.
Qed.

Lemma wp_scan_up fuel p i j t Q :
  1 <= i <= j -> j <= alen t -> j - i < Z.of_nat fuel ->
  (forall i', i <= i' <= j -> all_in t i (i' - 1) (fun x => comp x p = true) ->
     (i' < j -> exists x, aget t (i' - 1) = Some x /\ comp x p = false) -> Q i' t) ->
  wpd (scan_up fuel p i j) Q t.
Proof.
  intros Hi Hj Hf HQ. unfold scan_up.
  apply (wp_loop (fun i' t' => t' = t /\ i <= i' <= j /\ all_in t i (i' - 1) (fun x => comp x p = true))
    (fun i' _ => Z.to_nat (j - i'))); [| |lia].
  - intros i' s (-> & Hi' & Hall). destruct (Z.ltb_spec i' j) as [Hlt|Hge].
    + destruct (aget_in t i') as (x & Hx); [lia|]. wp_step. apply (wp_geti _ _ _ _ Hx).
      unfold sort_comp. destruct (comp x p) eqn:Hc; simpl; wp_step; [|by eauto].
      split; [|lia]. split_and!; [done|lia|lia|]. replace (i' + 1 - 1) with i' by lia.
      apply (all_in_app _ _ (i' - 1)); [done|]. replace (i' - 1 + 1) with i' by lia. by eapply all_in_one.
    + wp_step. apply HQ; [done|done|lia].
  - split_and!; [done|lia|lia|]. intros k x Hk. lia.
Qed.

(** The outer loop keeps: elements below [i] come before the pivot, elements
    above [j] do not; [j] moves at least every second round, which the
    measure counts with the bit that says whether [t[j]] comes before it. *)
Record part_inv (p : V) (lo up : Z) (t0 : list V) (ij : Z * Z) (t : list V) : Prop := {
  pi_ord : lo <= ij.1 <= ij.2 /\ ij.2 <= up;
  pi_swaps : swaps lo up t0 t;
  pi_low : all_in t lo (ij.1 - 1) (fun x => comp x p = true);
  pi_high : all_in t (ij.2 + 1) up (fun x => comp x p = false)
}.

Definition part_meas (p : V) (ij : Z * Z) (t : list V) : nat :=
  2 * Z.to_nat (ij.2 - ij.1) + match aget t (ij.2 - 1) with Some x => if comp x p then 1 else 0 | None => 0 end.

Lemma wp_partition_loop fuel p lo up t0 Q :
  1 <= lo <= up -> up <= alen t0 -> 2 * (up - lo) + 2 <= Z.of_nat fuel ->
  (forall i t, lo <= i <= up -> swaps lo up t0 t -> all_in t lo (i - 1) (fun x => comp x p = true) ->
     all_in t (i + 1) up (fun x => comp x p = false) -> Q i t) ->
  wpd (loop fuel (fun '(i, j) =>
    if i =? j then mret (inr i) else
    j ← scan_down fuel p i j;
    i ← scan_up fuel p i j;
    when (i <? j) (swap i j);;
    mret (inl (i, j))) (lo, up)) Q t0.
Proof.
  intros Hlo Hup Hf HQ. apply (wp_loop (part_inv p lo up t0) (part_meas p)).
  - intros [i j] t [[Hij Hj] Hs Hl Hh]. simpl in *. pose proof (alen_swaps _ _ _ _ Hs) as Hlen.
    destruct (Z.eqb_spec i j) as [->|Hne]; [wp_step; apply HQ; done || lia|].
    wp_step. apply wp_scan_down; [lia|lia|lia|]. intros j' Hj' Hd Hdx.
    wp_step. apply wp_scan_up; [lia|lia|lia|]. intros i' Hi' Hu Hux.
    wp_step. destruct (Z.ltb_spec i' j') as [Hlt|Hge]; simpl when.
    + destruct Hux as (a & Ha & Hca); [done|]. destruct Hdx as (b & Hb & Hcb); [lia|].
      apply (wp_tswap _ _ _ a b); [done|done|]. wp_step.
      assert (forall k, k <> i' -> k <> j' ->
        aget (tswap t i' j' a b) (k - 1) = aget t (k - 1)) as Hother.
      { intros k ? ?. rewrite aget_tswap by done. by rewrite !decide_False. }
      split.
      * split; simpl; [lia| | |].
        -- eapply rtc_r; [done|]. constructor; done || lia.
        -- apply (all_in_ext t); [intros; apply Hother; lia|].
           apply (all_in_app _ _ (i - 1)); [done|]. by replace (i - 1 + 1) with i by lia.
        -- apply (all_in_ext t); [intros; apply Hother; lia|]. by apply (all_in_app _ _ j).
      * unfold part_meas. simpl. rewrite aget_tswap, decide_True, Hca by done.
        destruct (decide (j' = j)) as [->|]; [|lia]. rewrite Hb, Hcb. lia.
    + wp_step. assert (i' = j') as -> by lia. split.
      * split; simpl; [lia|done| |].
        -- apply (all_in_app _ _ (i - 1)); [done|]. by replace (i - 1 + 1) with i by lia.
        -- by apply (all_in_app _ _ j).
      * unfold part_meas. simpl. destruct (aget t (j' - 1)); [destruct (comp _ _)|]; lia.
  - split; simpl; [lia|done| |]; intros k x Hk; lia.
  - unfold part_meas. simpl. destruct (aget t0 (up - 1)); [destruct (comp _ _)|]; lia.
Qed.

Definition strict : Prop :=
  (forall x, comp x x = false) /\ (forall x y z, comp x y = true -> comp y z = true -> comp x z = true).

(** No element of [m .. h] comes before one of [l .. m - 1]. *)
Definition sep (t : list V) (l m h : Z) : Prop :=
  forall a b x y, l <= a < m -> m <= b <= h ->
    aget t (a - 1) = Some x -> aget t (b - 1) = Some y -> comp y x = false.

Lemma sep_pivot p t l m h :
  strict -> all_in t l (m - 1) (fun x => x = p \/ comp x p = true) ->
  all_in t m h (fun y => y = p \/ comp y p = false) ->
  (all_in t l (m - 1) (fun x => comp x p = true) \/ all_in t m h (fun y => comp y p = false)) ->
  sep t l m h.
Proof.
  intros [Hirr Htr] Hl Hh Hor a b x y Ha Hb Hx Hy.
  pose proof (Hl a x ltac:(lia) Hx) as Hxp. pose proof (Hh b y Hb Hy) as Hyp.
  destruct (comp y x) eqn:Hyx; [|done]. destruct Hxp as [->|Hxp].
  - destruct Hor as [Ho|Ho]; [|pose proof (Ho b y Hb Hy); congruence].
    pose proof (Ho a p ltac:(lia) Hx). pose proof (Hirr p). congruence.
  - pose proof (Htr _ _ _ Hyx Hxp) as Hy'. destruct Hyp as [->|]; [|congruence].
    pose proof (Hirr p). congruence.
Qed.

Lemma wp_partition fuel lo up t Q :
  2 <= lo <= up -> up <= alen t -> 2 * (up - lo) + 2 <= Z.of_nat fuel ->
  (forall r t', lo <= r <= up -> swaps (lo - 1) up t t' -> (strict -> sep t' (lo - 1) r up) -> Q r t') ->
  wpd (partition fuel lo up) Q t.
Proof.
  intros Hlo Hup Hf HQ. unfold partition. destruct (aget_in t (lo - 1)) as (p & Hp); [lia|].
  wp_step. apply (wp_geti _ _ _ _ Hp). wp_step.
  apply (wp_partition_loop fuel p lo up t); [lia|lia|lia|]. intros i t1 Hi Hs Hl Hh.
  pose proof (alen_swaps _ _ _ _ Hs) as Hlen. destruct (aget_in t1 i) as (e & He); [lia|].
  assert (aget t1 (lo - 1 - 1) = Some p) as Hp1 by (rewrite (swaps_outside _ _ _ _ _ Hs); [done|lia]).
  assert (swaps (lo - 1) up t t1) as Hs1 by (eapply swaps_mono; [| |done]; lia).
  wp_step. apply (wp_geti _ _ _ _ He). wp_step. unfold sort_comp. wp_step.
  - apply (wp_tswap _ _ _ e p); [done|done|]. wp_step. apply HQ; [done| |].
    + eapply rtc_r; [done|]. constructor; done || lia.
    + assert (forall k, aget (tswap t1 i (lo - 1) e p) (k - 1) =
        if decide (k = lo - 1) then Some e else if decide (k = i) then Some p else aget t1 (k - 1)) as Hg
        by (intros; by rewrite aget_tswap).
      assert (all_in (tswap t1 i (lo - 1) e p) (lo - 1) (i - 1) (fun x => comp x p = true)) as Hl'.
      { intros k x Hk. rewrite Hg. repeat case_decide; [naive_solver|lia|]. apply Hl. lia. }
      intros Hst. apply (sep_pivot p); [done| | |by left].
      * intros k x Hk Hx. right. by apply (Hl' k).
      * intros k x Hk. rewrite Hg. repeat case_decide; [lia|naive_solver|]. right. apply (Hh k); done || lia.
  - wp_step. apply HQ; [done|done|]. intros Hst.
    assert (all_in t1 i up (fun y => comp y p = false)) as Hh'.
    { intros k x Hk. destruct (decide (k = i)) as [->|]; [naive_solver|]. apply Hh. lia. }
    apply (sep_pivot p); [done| | |by right].
    + intros k x Hk Hx. destruct (decide (k = lo - 1)) as [->|]; [left; congruence|].
      right. apply (Hl k); done || lia.
    + intros k x Hk Hx. right. by apply (Hh' k).
Qed.

(** ** The selection loop *)

Lemma sep_swaps l h t t' m n :
  swaps l h t t' -> 1 <= l -> h <= n -> m <= l \/ h < m -> sep t 1 m n -> sep t' 1 m n.
Proof.
  intros Hs Hl Hh Hm Hsep a b x y Ha Hb Hx Hy.
  assert (forall k z, 1 <= k <= n -> aget t' (k - 1) = Some z ->
    exists k', (k < m <-> k' < m) /\ 1 <= k' <= n /\ aget t (k' - 1) = Some z) as Hpre.
  { intros k z Hk Hz. destruct (decide (l <= k <= h)) as [Hin|Hout].
    - destruct (swaps_inside _ _ _ _ _ _ Hs Hin Hz) as (k' & Hk' & Hz'). exists k'. split_and!; done || lia.
    - exists k. rewrite (swaps_outside _ _ _ _ _ Hs Hout) in Hz. split_and!; done || lia. }
  destruct (Hpre a x) as (a' & ? & ? & Hx'); [lia|done|]. destruct (Hpre b y) as (b' & ? & ? & Hy'); [lia|done|].
  apply (Hsep a' b'); done || lia.
Qed.

Lemma sep_glue t l m h n :
  l <= m <= h + 1 -> sep t 1 l n -> sep t 1 (h + 1) n -> sep t l m h -> sep t 1 m n.
Proof.
  intros Hm S1 S2 S3 a b x y Ha Hb Hx Hy. destruct (decide (a < l)); [by apply (S1 a b x y); [lia|lia| |]|].
  destruct (decide (h < b)); [by apply (S2 a b x y); [lia|lia| |]|]. by apply (S3 a b x y); [lia|lia| |].
Qed.

Record sel_inv (K : Z) (t0 : list V) (lhj : Z * Z * Z) (t : list V) : Prop := {
  si_ord : 2 <= lhj.1.1 <= K /\ K <= lhj.1.2 <= alen t0 /\ lhj.1.1 <= lhj.2 <= lhj.1.2;
  si_swaps : swaps 1 (alen t0) t0 t;
  si_sep : strict -> sep t 1 (lhj.1.1 - 1) (alen t0) /\ sep t 1 lhj.2 (alen t0) /\
                     sep t 1 (lhj.1.2 + 1) (alen t0)
}.

(** One partition inside bounds that separate the array keeps the invariant. *)
Lemma wp_select_step fuel K t0 t low high Q :
  2 <= low <= K -> K <= high <= alen t0 -> 2 * alen t0 + 2 <= Z.of_nat fuel ->
  swaps 1 (alen t0) t0 t ->
  (strict -> sep t 1 (low - 1) (alen t0) /\ sep t 1 (high + 1) (alen t0)) ->
  (forall r t', sel_inv K t0 (low, high, r) t' -> Q r t') ->
  wpd (partition fuel low high) Q t.
Proof.
  intros Hl Hh Hf Hs Hsep HQ. pose proof (alen_swaps _ _ _ _ Hs) as Hlen.
  apply wp_partition; [lia|lia|lia|]. intros r t' Hr Hs' Hst. apply HQ. split; simpl; [lia| |].
  - etrans; [done|]. eapply swaps_mono; [| |done]; lia.
  - intros Hstr. destruct (Hsep Hstr) as [S1 S2].
    assert (sep t' 1 (low - 1) (alen t0)) as S1' by (eapply sep_swaps; [done|lia|lia|lia|done]).
    assert (sep t' 1 (high + 1) (alen t0)) as S2' by (eapply sep_swaps; [done|lia|lia|lia|done]).
    split_and!; [done| |done]. apply (sep_glue _ (low - 1) _ high); [lia|done|done|auto].
Qed.

Lemma wp_topK fuel K t Q :
  1 <= K < alen t -> 2 * alen t + 2 <= Z.of_nat fuel -> alen t <= INT_MAX ->
  (forall t', t' ≡ₚ t -> (strict -> sep t' 1 (K + 1) (alen t)) -> Q tt t') ->
  wpd (topK fuel K) Q t.
Proof.
  intros HK Hf Hmax HQ. unfold INT_MAX in Hmax. unfold topK. wp_step. wp_step.
  rewrite (proj2 (Z.ltb_ge _ _)) by lia. rewrite uwrap_small, swrap_small by (unfold in_s; lia). cbv zeta.
  rewrite (proj2 (Z.leb_gt _ _)) by lia. wp_step.
  assert (forall m, m <= 1 \/ alen t < m -> sep t 1 m (alen t)) as Htriv by (intros m Hm a b; lia).
  apply (wp_select_step fuel (K + 1) t t); [lia|lia|lia|done|intros _; split; apply Htriv; lia|].
  intros j t1 I1. unfold select. eapply (wp_loop (sel_inv (K + 1) t) (fun lhj _ => Z.to_nat (lhj.1.2 - lhj.1.1))); [| |simpl; lia].
  - intros [[low high] j'] t2 [(Ho1 & Ho2 & Ho3) Hs Hsep]. simpl in *.
    rewrite uwrap_small by lia. destruct (Z.eqb_spec j' (K + 1)) as [->|Hne].
    + wp_step. apply HQ; [by eapply swaps_perm|]. intros Hst. by apply Hsep.
    + destruct (Z.ltb_spec j' (K + 1)) as [Hlt|Hge]; simpl when.
      * do 2 wp_step; [apply Z.leb_le; unfold INT_MAX; lia|]. wp_step.
        apply (wp_select_step fuel (K + 1) t); [lia|lia|lia|done| |].
        { intros Hst. replace (j' + 1 - 1) with j' by lia. naive_solver. }
        intros r t3 I3. wp_step. split; [done|]. simpl. lia.
      * do 3 wp_step. apply (wp_select_step fuel (K + 1) t); [lia|lia|lia|done| |].
        { intros Hst. replace (j' - 1 + 1) with j' by lia. naive_solver. }
        intros r t3 I3. wp_step. split; [done|]. simpl. lia.
  - done.
Qed.

(** [sep] in terms of the two parts of the array. *)
Lemma sep_take_drop K t :
  0 <= K <= alen t -> sep t 1 (K + 1) (alen t) ->
  forall x y, x ∈ take (Z.to_nat K) t -> y ∈ drop (Z.to_nat K) t -> comp y x = false.
Proof.
  rewrite alen_length. intros HK Hs x y [i Hi]%list_elem_of_lookup [j Hj]%list_elem_of_lookup.
  apply lookup_take_Some in Hi as [Hi Hlt]. rewrite lookup_drop in Hj. pose proof (lookup_lt_Some _ _ _ Hj).
  apply (Hs (Z.of_nat i + 1) (Z.of_nat (Z.to_nat K + j) + 1)); [lia|lia| |].
  - rewrite aget_lookup by lia. rewrite <- Hi. f_equal. lia.
  - rewrite aget_lookup by lia. rewrite <- Hj. f_equal. lia.
Qed.

(** C20: for an array of [n] elements, n at most [INT_MAX] as the C code keeps
    positions in ints, and 1 <= K < n, [topK] returns for every
    comparison function and only permutes the array; when the function is a
    strict order, no element behind the first K comes before one of them. *)
Theorem topK_selects fuel K t :
  1 <= K < alen t -> 2 * alen t + 2 <= Z.of_nat fuel -> alen t <= INT_MAX ->
  exists t', topK fuel K t = Done tt t' /\ t' ≡ₚ t /\
    (strict -> forall x y, x ∈ take (Z.to_nat K) t' -> y ∈ drop (Z.to_nat K) t' -> comp y x = false).
Proof.
  intros HK Hf Hm.
  assert (wpd (topK fuel K) (fun _ t' => t' ≡ₚ t /\ (strict -> sep t' 1 (K + 1) (alen t))) t) as W.
  { apply wp_topK; auto. }
  apply wpd_Done in W as ([] & t' & E & Hp & Hs). exists t'. split_and!; [done|done|].
  assert (alen t' = alen t) as El by (rewrite !alen_length; by rewrite Hp).
  intros Hst. apply sep_take_drop; [lia|]. rewrite El. auto.
Qed.

(** ** K = 0 *)

Lemma partition_empty_hangs fuel h t : 1 <= alen t -> h < 2 -> partition fuel 2 h t = Fault OutOfFuel.
Proof.
  intros Ht Hh. unfold partition. destruct (aget_in t 1) as (p & Hp); [lia|].
  erewrite bind_Done; [|unfold geti; change (2 - 1 - 1) with (1 - 1); by rewrite Hp].
  unfold mbind at 1, M_bind at 1.
  match goal with |- context [loop _ ?g _ _] => assert (g (2, h) t = Fault OutOfFuel \/ g (2, h) t = Done (inl (2, h)) t) as Hg;
    [|enough (forall n, loop n g (2, h) t = Fault OutOfFuel) as -> by done; generalize dependent g] end.
  - rewrite (proj2 (Z.eqb_neq 2 h)) by lia. destruct fuel as [|fuel]; [by left|right].
    unfold scan_down, scan_up. cbn [loop]. unfold mbind, M_bind. rewrite (proj2 (Z.ltb_ge 2 h)) by lia. cbn [mret M_ret].
    rewrite (proj2 (Z.ltb_ge 2 h)) by lia. cbn [mret M_ret]. by rewrite (proj2 (Z.ltb_ge 2 h)) by lia.
  - intros g Hg n. induction n as [|n IH]; [done|]. cbn [loop]. unfold mbind, M_bind. by destruct Hg as [-> | ->].
Qed.

Lemma select_zero_hangs fuel n (t0 : list V) high j t :
  2 * alen t0 + 2 <= Z.of_nat fuel -> 2 <= j <= high -> high <= alen t0 -> high <= INT_MAX -> alen t = alen t0 ->
  select fuel n 1 (2, high, j) t = Fault OutOfFuel.
Proof.
  intros Hf. revert high j t. induction n as [|n IH]; intros high j t Hj Hh Hi Hl; [done|].
  unfold select. cbn [loop]. rewrite uwrap_small by (unfold INT_MAX in Hi; lia).
  rewrite (proj2 (Z.eqb_neq j 1)), (proj2 (Z.ltb_ge j 1)) by lia. simpl when.
  unfold mbind at 1, M_bind at 1. unfold mbind at 1, M_bind at 1. cbn [mret M_ret]. destruct (decide (j = 2)) as [->|Hne].
  { unfold mbind at 1, M_bind at 1. rewrite partition_empty_hangs by lia. done. }
  assert (wpd (partition fuel 2 (j - 1)) (fun r t2 => 2 <= r <= j - 1 /\ alen t2 = alen t0) t) as W.
  { apply wp_partition; [lia|lia|lia|]. intros r t2 Hr Hs _. pose proof (alen_swaps _ _ _ _ Hs). lia. }
  apply wpd_Done in W as (r & t2 & E & Hr & Hl2). rewrite (bind_Done _ _ _ _ _ E). cbn [mret M_ret].
  apply IH; lia.
Qed.

(** Called with K = 0 on an array of two or more elements [topK] does not
    return: its last partition gets an empty range, whose loop never ends, with
    any fuel that is enough for every other K. *)
Theorem topK_zero_diverges fuel t :
  2 <= alen t -> 2 * alen t + 2 <= Z.of_nat fuel -> topK fuel 0 t = Fault OutOfFuel.
Proof.
  intros Ht Hf. unfold topK, mbind at 1, M_bind at 1, gets.
  rewrite (proj2 (Z.ltb_ge _ _)) by lia. change (u64 0) with 0. cbv zeta.
  rewrite (proj2 (Z.leb_gt _ _)) by lia. pose proof (swrap_range 32 (alen t) eq_refl) as Hr32.
  assert (s32 (alen t) <= alen t) as Hle.
  { unfold swrap. pose proof (Z.mod_le (alen t + 2 ^ (32 - 1)) (2 ^ 32)). lia. }
  destruct (decide (s32 (alen t) < 2)) as [Hs|Hs].
  { unfold mbind, M_bind. by rewrite partition_empty_hangs by lia. }
  assert (wpd (partition fuel 2 (s32 (alen t))) (fun r t2 => 2 <= r <= s32 (alen t) /\ alen t2 = alen t) t) as W.
  { apply wp_partition; [lia|lia|lia|]. intros r t2 Hr Hsw _. pose proof (alen_swaps _ _ _ _ Hsw). lia. }
  apply wpd_Done in W as (r & t2 & E & Hr & Hl2). rewrite (bind_Done _ _ _ _ _ E).
  apply (select_zero_hangs fuel fuel t); [lia|lia|lia| |done]. unfold in_s in Hr32. unfold INT_MAX. lia.
Qed.

End topK.

Lemma topK_selects_witness :
  exists t', topK Z.ltb 20 2 [5; 3; 9; 1; 4] = Done tt t' /\ t' ≡ₚ [5; 3; 9; 1; 4] /\
    (strict Z.ltb -> forall x y, x ∈ take (Z.to_nat 2) t' -> y ∈ drop (Z.to_nat 2) t' -> (y <? x) = false).
Proof.
  apply (topK_selects Z.ltb 20 2 [5; 3; 9; 1; 4]); vm_compute; (split; discriminate || reflexivity) || discriminate || reflexivity.
Defined.

Lemma topK_zero_diverges_witness : topK Z.ltb 20 0 [5; 3] = Fault OutOfFuel.
Proof. apply (topK_zero_diverges Z.ltb 20 [5; 3]); vm_compute; discriminate. Defined.
