(* ===== verification/SocketEvent.v ===== *)
(** * Buffered sessions over a socket (socket_event.c, socket_util.c)

    A session has two chains of buffers, linked through [next] pointers in a
    heap; buffers that are read empty go to a free list shared by the sessions
    of a loop. The state holds that heap, the session, the watchers of the
    event loop and the answers the kernel gives to the next [read(2)] and
    [write(2)] calls; the bytes the kernel has accepted are recorded in [sent].
    A callback is always the last thing a handler does with its session, so the
    handlers return which callback they end with.

    The theorems show that the chains implement two byte streams: what arrives
    is appended to the input, [ev_session_read] takes a prefix of it,
    [ev_session_read_util] the shortest prefix that ends with the separator,
    and the bytes written are sent in order, each once. *)

From S2P Require Import Prelude Outcome.

Definition MIN_BUFFER_SIZE : Z := 256.
Definition MAX_BUFFER_SIZE : Z := 1024 * 1024.

(** ** Data *)

(** [data] is the block the node owns, [None] once it is freed. *)
Record data_buffer := MkDb {
  prev : option Z; next : option Z; data : option bytes; size : Z; wpos : Z; rpos : Z }.

Record ev_buffer := MkBuf { head : option Z; tail : option Z; total : Z }.

Record ev_session := MkSession {
  alive : Z; threshold : Z; input : ev_buffer; output : ev_buffer;
  rio : bool; wio : bool;                                   (* [ev_is_active] *)
  read_cb : bool; write_cb : bool; event_cb : bool }.       (* not NULL *)

Inductive errno := EINTR | EAGAIN | EOTHER | ENOERR.

(** Answers of [read(2)] and [write(2)]. [RSome b]: the bytes [b] are there, of
    which a read gets as many as it asks for, and none at the end of the
    stream; [WSome n]: the kernel takes up to [n] bytes. After the last answer
    the socket would block. *)
Inductive read_answer := RSome (b : bytes) | RErr (e : errno).
Inductive write_answer := WSome (n : Z) | WErr (e : errno).

Record world := MkWorld {
  heap : gmap Z data_buffer; brk : Z; freelist : option Z;
  session : ev_session;
  reads : list read_answer; writes : list write_answer; sent : bytes }.

Inductive callback := CallRead | CallWrite | CallEvent.

(** The two buffers of the session. *)
Inductive side := In | Out.

Definition buf (d : side) (s : ev_session) : ev_buffer := match d with In => input s | Out => output s end.

Definition with_buf (d : side) (b : ev_buffer) (s : ev_session) : ev_session :=
  match d with
  | In => MkSession (alive s) (threshold s) b (output s) (rio s) (wio s) (read_cb s) (write_cb s) (event_cb s)
  | Out => MkSession (alive s) (threshold s) (input s) b (rio s) (wio s) (read_cb s) (write_cb s) (event_cb s)
  end.

Definition with_next (n : option Z) (db : data_buffer) : data_buffer :=
  MkDb (prev db) n (data db) (size db) (wpos db) (rpos db).
Definition with_prev (p : option Z) (db : data_buffer) : data_buffer :=
  MkDb p (next db) (data db) (size db) (wpos db) (rpos db).
Definition with_data (d : option bytes) (db : data_buffer) : data_buffer :=
  MkDb (prev db) (next db) d (size db) (wpos db) (rpos db).
Definition with_pos (w r : Z) (db : data_buffer) : data_buffer :=
  MkDb (prev db) (next db) (data db) (size db) w r.

(** ** Memory *)

Abbreviation W := (M world).

Definition node_get (p : Z) : W data_buffer := w ← get; deref UseAfterFree (heap w !! p).
Definition set_heap (h : gmap Z data_buffer) : W unit :=
  modify (fun w => MkWorld h (brk w) (freelist w) (session w) (reads w) (writes w) (sent w)).
Definition node_set (p : Z) (db : data_buffer) : W unit :=
  w ← get; require UseAfterFree (bool_decide (is_Some (heap w !! p)));; set_heap (<[p := db]> (heap w)).
Definition node_free (p : Z) : W unit :=
  w ← get; require UseAfterFree (bool_decide (is_Some (heap w !! p)));; set_heap (delete p (heap w)).
Definition set_freelist (f : option Z) : W unit :=
  modify (fun w => MkWorld (heap w) (brk w) f (session w) (reads w) (writes w) (sent w)).
Definition session_set (s : ev_session) : W unit :=
  modify (fun w => MkWorld (heap w) (brk w) (freelist w) s (reads w) (writes w) (sent w)).
Definition set_buf (d : side) (b : ev_buffer) : W unit :=
  w ← get; session_set (with_buf d b (session w)).

(** [malloc] of a node. *)
Definition node_malloc : W Z :=
  w ← get;
  put (MkWorld (<[brk w := MkDb None None None 0 0 0]> (heap w)) (brk w + 1) (freelist w)
        (session w) (reads w) (writes w) (sent w));;
  mret (brk w).

Definition buffer_next : W Z :=
  w ← get;
  p ← match freelist w with
      | Some p => db ← node_get p; set_freelist (next db);; mret p
      | None => node_malloc
      end;
  node_set p (MkDb None None None 0 0 0);;
  mret p.

Definition buffer_reclaim (p : Z) : W unit :=
  w ← get;
  db ← node_get p;
  node_set p (with_next (freelist w) db);;
  set_freelist (Some p).

Definition buffer_append (d : side) (p : Z) : W unit :=
  db ← node_get p;
  w ← get;
  let b := buf d (session w) in
  let total := total b + (wpos db - rpos db) in
  require SignedOverflow (total <=? INT_MAX);;
  match head b with
  | None =>
      c_assert (bool_decide (tail b = None));;
      set_buf d (MkBuf (Some p) (Some p) total)
  | Some _ =>
      t ← deref NullDeref (tail b);
      tdb ← node_get t;
      node_set t (with_next (Some p) tdb);;
      db ← node_get p;
      node_set p (with_next None (with_prev (Some t) db));;
      set_buf d (MkBuf (head b) (Some p) total)
  end.

(** The nodes of a chain bound the loops over it. *)
Definition chain_fuel (w : world) : nat := S (base.size (heap w)).

Definition buffer_release (d : side) : W unit :=
  fuel ← gets chain_fuel;
  loop fuel (fun _ : unit =>
    w ← get;
    let b := buf d (session w) in
    match head b with
    | None => mret (inr tt)
    | Some tmp =>
        db ← node_get tmp;
        set_buf d (MkBuf (next db) (tail b) (total b));;
        node_free tmp;;
        mret (inl tt)
    end) tt.

Definition loop_ctx_clean : W unit :=
  fuel ← gets chain_fuel;
  loop fuel (fun _ : unit =>
    w ← get;
    match freelist w with
    | None => mret (inr tt)
    | Some tmp =>
        db ← node_get tmp;
        set_freelist (next db);;
        node_free tmp;;
        mret (inl tt)
    end) tt.

(** ** Watchers, callbacks and state *)

Definition with_watch (r w : bool) (s : ev_session) : ev_session :=
  MkSession (alive s) (threshold s) (input s) (output s) r w (read_cb s) (write_cb s) (event_cb s).
Definition with_alive (a : Z) (s : ev_session) : ev_session :=
  MkSession a (threshold s) (input s) (output s) (rio s) (wio s) (read_cb s) (write_cb s) (event_cb s).
Definition with_threshold (t : Z) (s : ev_session) : ev_session :=
  MkSession (alive s) t (input s) (output s) (rio s) (wio s) (read_cb s) (write_cb s) (event_cb s).

Definition ev_session_bind : W unit :=
  session_set (MkSession 1 MIN_BUFFER_SIZE (MkBuf None None 0) (MkBuf None None 0)
                 false false false false false).

Definition ev_session_setcb (r w e : bool) : W unit :=
  st ← get;
  let s := session st in
  session_set (MkSession (alive s) (threshold s) (input s) (output s) (rio s) (wio s) r w e).

Definition ev_session_enable (r w : bool) : W unit :=
  st ← get; let s := session st in session_set (with_watch (rio s || r) (wio s || w) s).

Definition ev_session_disable (r w : bool) : W unit :=
  st ← get; let s := session st in session_set (with_watch (rio s && negb r) (wio s && negb w) s).

Definition ev_session_free : W unit :=
  st ← get;
  session_set (with_alive 0 (session st));;
  ev_session_disable true true;;
  buffer_release In;;
  buffer_release Out.

Definition ev_session_input_size : W Z := st ← get; mret (u64 (total (input (session st)))).
Definition ev_session_output_size : W Z := st ← get; mret (u64 (total (output (session st)))).

(** The end of a handler after an error on the socket. *)
Definition fail_session : W (option callback) :=
  ev_session_disable true true;;
  st ← get;
  session_set (with_alive 0 (session st));;
  mret (if event_cb (session st) then Some CallEvent else None).

(** ** Reading from the socket *)

(** The calls of [read] up to the first that is not interrupted. *)
Fixpoint sys_read (answers : list read_answer) : read_answer * list read_answer :=
  match answers with
  | [] => (RErr EAGAIN, [])
  | RErr EINTR :: l => sys_read l
  | a :: l => (a, l)
  end.

Definition set_reads (l : list read_answer) : W unit :=
  modify (fun w => MkWorld (heap w) (brk w) (freelist w) (session w) l (writes w) (sent w)).

(** The next threshold after a read that filled the buffer or did not. *)
Definition next_threshold (full : bool) (t : Z) : Z :=
  if full then (let t := t * 2 in if MAX_BUFFER_SIZE <? t then MAX_BUFFER_SIZE else t)
  else (let t := Z.quot t 2 in if t <? MIN_BUFFER_SIZE then MIN_BUFFER_SIZE else t).

(** The loop of [_ev_read_cb]: the buffer is filled by one successful read; the
    result is [fail]. *)
Definition fill_buffer (p : Z) : W bool :=
  st ← get;
  let '(a, l) := sys_read (reads st) in
  set_reads l;;
  match a with
  | RErr EAGAIN => mret false
  | RErr ENOERR => c_assert false;; mret true
  | RErr _ => mret true
  | RSome b =>
      db ← node_get p;
      let n := Z.min (alen b) (size db - wpos db) in
      set_reads (if n <? alen b then RSome (drop (Z.to_nat n) b) :: l else l);;
      if n =? 0 then mret true else
      d ← deref NullDeref (data db);
      d ← deref OutOfBounds (memcpy d (wpos db) (take (Z.to_nat n) b));
      let wpos := wpos db + n in
      node_set p (with_pos wpos (rpos db) (with_data (Some d) db));;
      st ← get;
      let s := session st in
      session_set (with_threshold (next_threshold (wpos =? size db) (threshold s)) s);;
      mret false
  end.

Definition ev_read_cb : W (option callback) :=
  p ← buffer_next;
  st ← get;
  let t := threshold (session st) in
  db ← node_get p;
  node_set p (MkDb (prev db) (next db) (Some (replicate (Z.to_nat t) (z2b 0))) t (wpos db) (rpos db));;
  fail ← fill_buffer p;
  buffer_append In p;;
  if fail : bool then fail_session
  else st ← get; mret (if read_cb (session st) then Some CallRead else None).

(** ** Taking bytes from the input *)

(** One round of the loop of [ev_session_read]: [inl] with what is still needed
    and the bytes copied so far, or the result. [rpos + need] is a sum of ints. *)
Definition read_round (size : Z) (st : Z * bytes) : W ((Z * bytes) + bytes) :=
  let '(need, result) := st in
  if need <=? 0 then mret (inr result) else
  w ← get;
  let b := input (session w) in
  p ← deref NullDeref (head b);
  rdb ← node_get p;
  d ← deref NullDeref (data rdb);
  require SignedOverflow (rpos rdb + need <=? INT_MAX);;
  if rpos rdb + need <? wpos rdb then
    chunk ← deref OutOfBounds (slice d (rpos rdb) need);
    node_set p (with_pos (wpos rdb) (rpos rdb + need) rdb);;
    c_assert (alen (result ++ chunk) =? size);;
    mret (inl (0, result ++ chunk))
  else
    let left := wpos rdb - rpos rdb in
    chunk ← deref OutOfBounds (slice d (rpos rdb) left);
    node_set p (with_data None rdb);;
    match next rdb with
    | None => set_buf In (MkBuf None None (total b));; c_assert (need - left =? 0)
    | Some q => set_buf In (MkBuf (Some q) (tail b) (total b))
    end;;
    buffer_reclaim p;;
    mret (inl (need - left, result ++ chunk)).

Definition ev_session_read (size : Z) : W bytes :=
  w ← get;
  let t := u64 (total (input (session w))) in
  let size := if t <? size then t else size in
  result ← loop (S (chain_fuel w)) (read_round size) (s32 size, []);
  w ← get;
  let b := input (session w) in
  set_buf In (MkBuf (head b) (tail b) (s32 (u64 (total b) - size)));;
  mret result.

(** ** Searching a separator *)

(** [check_eol]: whether the separator starts at offset [from] of buffer [p],
    following the chain when the buffer ends inside it. *)
Definition check_eol (sep : bytes) (p : option Z) (from : Z) : W bool :=
  fuel ← gets chain_fuel;
  loop fuel (fun '(p, from, sep) =>
    match p with
    | None => mret (inr false)
    | Some p =>
        db ← node_get p;
        d ← deref NullDeref (data db);
        let sz := wpos db - from in
        if alen sep <=? sz then
          c ← deref OutOfBounds (slice d from (alen sep));
          mret (inr (bool_decide (c = sep)))
        else
          c ← deref OutOfBounds (slice d from sz);
          if (0 <? sz) && negb (bool_decide (c = take (Z.to_nat sz) sep)) then mret (inr false)
          else mret (inl (next db, 0, drop (Z.to_nat sz) sep))
    end) (p, from, sep).

(** The inner loop of [search_eol] over one buffer: [inr] of the offset of a
    match, or [inl] of the offset behind the buffer. *)
Fixpoint scan_buffer (n : nat) (sep : bytes) (p : Z) (i offset : Z) : W (Z + Z) :=
  match n with
  | O => mret (inl offset)
  | S n =>
      ret ← check_eol sep (Some p) i;
      if ret : bool then mret (inr offset) else scan_buffer n sep p (i + 1) (offset + 1)
  end.

Definition search_eol (sep : bytes) : W Z :=
  w ← get;
  loop (chain_fuel w) (fun '(current, offset) =>
    match current with
    | None => mret (inr (-1))
    | Some p =>
        db ← node_get p;
        r ← scan_buffer (Z.to_nat (wpos db - rpos db)) sep p (rpos db) offset;
        match r with
        | inr found => mret (inr (s32 (u64 (found + alen sep))))
        | inl offset => mret (inl (next db, offset))
        end
    end) (head (input (session w)), 0).

Definition ev_session_read_util (sep : bytes) : W (option bytes) :=
  offset ← search_eol sep;
  if offset <? 0 then mret None
  else result ← ev_session_read offset; mret (Some result).

(** ** Writing *)

(** [socket_write] of socket_util.c: the result, the bytes the kernel took and
    the answers that are left. *)
Fixpoint sys_write (answers : list write_answer) (d : bytes) (total : Z) : Z * bytes * list write_answer :=
  match answers with
  | [] => (total, [], [])
  | WErr EINTR :: l => sys_write l d total
  | WErr EAGAIN :: l => (total, [], l)
  | WErr _ :: l => (-1, [], l)
  | WSome n :: l =>
      let sz := Z.min (Z.max 0 n) (alen d) in
      if sz =? 0 then (-1, [], l)
      else if alen d - sz =? 0 then (total + sz, d, l)
      else
        let '(r, more, l) := sys_write l (drop (Z.to_nat sz) d) (total + sz) in
        (r, take (Z.to_nat sz) d ++ more, l)
  end.

Definition socket_write (d : bytes) : W Z :=
  w ← get;
  let '(r, took, l) := sys_write (writes w) d 0 in
  put (MkWorld (heap w) (brk w) (freelist w) (session w) (reads w) l (sent w ++ took));;
  mret r.

(** A new buffer that holds [d] from [r] on, at the end of the output. *)
Definition queue_output (d : bytes) (r : Z) : W unit :=
  p ← buffer_next;
  db ← node_get p;
  node_set p (MkDb (prev db) (next db) (Some d) (alen d) (alen d) r);;
  buffer_append Out p.

Definition ev_session_write (d : bytes) : W (Z * option callback) :=
  w ← get;
  let s := session w in
  if alive s =? 0 then mret (-1, None)
  else if negb (wio s) then
    t ← socket_write d;
    if t <? 0 then cb ← fail_session; mret (-1, cb)
    else if t =? alen d then mret (t, if write_cb s then Some CallWrite else None)
    else queue_output d t;; ev_session_enable false true;; mret (t, None)
  else queue_output d 0;; mret (0, None).

(** One round of the loop of [_ev_write_cb]: [inr (Some cb)] for the early
    returns, [inr None] when the output is empty. *)
Definition write_round (_ : unit) : W (unit + option (option callback)) :=
  w ← get;
  let b := output (session w) in
  match head b with
  | None => mret (inr None)
  | Some p =>
      wdb ← node_get p;
      d ← deref NullDeref (data wdb);
      let left := wpos wdb - rpos wdb in
      chunk ← deref OutOfBounds (slice d (rpos wdb) left);
      t ← socket_write chunk;
      if t <? 0 then cb ← fail_session; mret (inr (Some cb))
      else
        set_buf Out (MkBuf (head b) (tail b) (total b - t));;
        if t =? left then
          node_set p (with_data None wdb);;
          set_buf Out (MkBuf (next wdb) (tail b) (total b - t));;
          buffer_reclaim p;;
          match next wdb with
          | None => set_buf Out (MkBuf None None (total b - t));; mret (inr None)
          | Some _ => mret (inl tt)
          end
        else
          node_set p (with_pos (wpos wdb) (rpos wdb + t) wdb);;
          mret (inr (Some None))
  end.

Definition ev_write_cb : W (option callback) :=
  fuel ← gets chain_fuel;
  r ← loop fuel write_round tt;
  match r with
  | Some cb => mret cb
  | None =>
      ev_session_disable false true;;
      w ← get;
      c_assert (total (output (session w)) =? 0);;
      mret (if write_cb (session w) then Some CallWrite else None)
  end.

(** ** Chains in the heap

    [shape F w L lf]: the two buffers of [w] are chains through the nodes [L In]
    and [L Out], the free list goes through [lf], all these are different
    nodes, and the heap also holds the nodes [F] of everybody else. *)

Definition nodes := (list (Z * data_buffer)).

Fixpoint lseg (h : gmap Z data_buffer) (p : option Z) (l : nodes) : Prop :=
  match l with
  | [] => p = None
  | (a, n) :: l => p = Some a /\ h !! a = Some n /\ lseg h (next n) l
  end.

#[export] Instance side_eq_dec : EqDecision side.
Proof. solve_decision. Defined.

Definition upd (d : side) (l : nodes) (L : side -> nodes) : side -> nodes :=
  fun d' => if decide (d' = d) then l else L d'.

Definition owned (L : side -> nodes) (lf : nodes) : list Z := (L In).*1 ++ (L Out).*1 ++ lf.*1.

Record shape (F : gmap Z data_buffer) (w : world) (L : side -> nodes) (lf : nodes) : Prop := {
  sh_seg d : lseg (heap w) (head (buf d (session w))) (L d);
  sh_tail d : L d = [] \/ tail (buf d (session w)) = last (L d).*1;
  sh_free : lseg (heap w) (freelist w) lf;
  sh_nodup : NoDup (owned L lf);
  sh_frame : F ⊆ heap w;
  sh_disj a : a ∈ owned L lf -> F !! a = None;
  sh_brk a : is_Some (heap w !! a) -> a < brk w
}.

(** What the operations on the chains do not touch. *)
Definition ctl (w : world) :=
  let s := session w in
  (alive s, threshold s, rio s, wio s, (read_cb s, write_cb s, event_cb s), (reads w, writes w, sent w)).

Lemma lseg_ext h h' p l : (forall a, a ∈ l.*1 -> h' !! a = h !! a) -> lseg h p l -> lseg h' p l.
Proof.
  revert p. induction l as [|[a n] l IH]; intros p E; simpl; [done|].
  intros (-> & Hn & Hl). split_and!; [done|rewrite E; [done|by left]|].
  apply IH; [|done]. intros b Hb. apply E. by right.
Qed.

Lemma lseg_lookup h p l a n : lseg h p l -> (a, n) ∈ l -> h !! a = Some n.
Proof.
  revert p. induction l as [|[b m] l IH]; intros p; simpl; [by intros _ ?%elem_of_nil|].
  intros (-> & Hm & Hl) [[= -> ->]|Hin]%elem_of_cons; [done|eauto].
Qed.

Lemma lseg_in_heap h p l a : lseg h p l -> a ∈ l.*1 -> is_Some (h !! a).
Proof. intros Hl ([b n] & -> & Hin)%list_elem_of_fmap. simpl. exists n. by eapply lseg_lookup. Qed.

(** Linking a new node behind the last one. *)
Lemma lseg_snoc h p l t tn q n :
  lseg h p (l ++ [(t, tn)]) -> NoDup ((l ++ [(t, tn)]).*1) -> q ∉ (l ++ [(t, tn)]).*1 -> next n = None ->
  lseg (<[q := n]> (<[t := with_next (Some q) tn]> h)) p (l ++ [(t, with_next (Some q) tn); (q, n)]).
Proof.
  intros Hl Hnd Hq Hn. revert p Hl. induction l as [|[a m] l IH]; intros p; simpl in *.
  - intros (-> & Ht & Hnil). apply not_elem_of_cons in Hq as [Hqt _].
    rewrite lookup_insert_ne, !lookup_insert_eq by done. done.
  - intros (-> & Hm & Hl). apply NoDup_cons in Hnd as [Ha Hnd]. apply not_elem_of_cons in Hq as [Hqa Hq].
    split_and!; [done| |by apply IH].
    assert (a <> t). { intros ->. apply Ha. rewrite fmap_app. apply elem_of_app. right. by left. }
    by rewrite !lookup_insert_ne by done.
Qed.

Lemma upd_eq d l L : upd d l L d = l.
Proof. unfold upd. by rewrite decide_True. Qed.

Lemma upd_ne d d' l L : d' <> d -> upd d l L d' = L d'.
Proof. intros. unfold upd. by rewrite decide_False. Qed.

Lemma elem_of_owned L lf a : a ∈ owned L lf <-> (exists d, a ∈ (L d).*1) \/ a ∈ lf.*1.
Proof.
  unfold owned. rewrite !elem_of_app. split.
  - intros [?|[?|?]]; eauto.
  - intros [[[] ?]|?]; eauto.
Qed.

Lemma owned_upd d l L lf : exists k, owned (upd d l L) lf ≡ₚ l.*1 ++ k /\ owned L lf ≡ₚ (L d).*1 ++ k.
Proof.
  destruct d.
  - exists ((L Out).*1 ++ lf.*1). done.
  - exists ((L In).*1 ++ lf.*1). unfold owned, upd. simpl. split; solve_Permutation.
Qed.

Section shape_facts.
Context (F : gmap Z data_buffer) (w : world) (L : side -> nodes) (lf : nodes) (Sh : shape F w L lf).

Lemma shape_nodup d : NoDup (L d).*1.
Proof using Sh.
  destruct (owned_upd d [] L lf) as (k & _ & E). pose proof (sh_nodup _ _ _ _ Sh) as H.
  rewrite E in H. by apply NoDup_app in H as [? _].
Qed.

Lemma shape_sep d d' a : a ∈ (L d).*1 -> a ∈ (L d').*1 -> d = d'.
Proof using Sh.
  intros H1 H2. destruct (decide (d' = d)) as [->|Hne]; [done|]. exfalso.
  destruct (owned_upd d [] L lf) as (k & E' & E). pose proof (sh_nodup _ _ _ _ Sh) as H.
  rewrite E in H. apply NoDup_app in H as (_ & Hd & _). apply (Hd a H1).
  simpl in E'. rewrite <- E'. apply elem_of_owned. left. exists d'. by rewrite upd_ne.
Qed.

Lemma shape_sep_free d a : a ∈ (L d).*1 -> a ∉ lf.*1.
Proof using Sh.
  intros H1 H2. destruct (owned_upd d [] L lf) as (k & E' & E). pose proof (sh_nodup _ _ _ _ Sh) as H.
  rewrite E in H. apply NoDup_app in H as (_ & Hd & _). apply (Hd a H1).
  simpl in E'. rewrite <- E'. apply elem_of_owned. by right.
Qed.

Lemma shape_in_heap a : a ∈ owned L lf -> is_Some (heap w !! a).
Proof using Sh.
  intros [[d H]|H]%elem_of_owned; eapply lseg_in_heap; eauto; apply Sh.
Qed.

(** The chains fit in the fuel of the loops. *)
Lemma shape_fuel d : (length (L d) < chain_fuel w)%nat.
Proof using Sh.
  unfold chain_fuel. rewrite <- size_dom, <- (length_fmap fst (L d)).
  rewrite <- (size_list_to_set (C := gset Z) (L d).*1) by apply shape_nodup.
  apply le_n_S, subseteq_size. intros a. rewrite elem_of_list_to_set, elem_of_dom. intros Ha.
  apply shape_in_heap, elem_of_owned. eauto.
Qed.
End shape_facts.

(** *** Updates of the world *)

Definition upd_heap (h : gmap Z data_buffer) (w : world) : world :=
  MkWorld h (brk w) (freelist w) (session w) (reads w) (writes w) (sent w).
Definition upd_buf (d : side) (b : ev_buffer) (w : world) : world :=
  MkWorld (heap w) (brk w) (freelist w) (with_buf d b (session w)) (reads w) (writes w) (sent w).
Definition upd_free (f : option Z) (w : world) : world :=
  MkWorld (heap w) (brk w) f (session w) (reads w) (writes w) (sent w).

Lemma buf_with_buf d b s : buf d (with_buf d b s) = b.
Proof. by destruct d. Qed.

Lemma buf_with_buf_ne d d' b s : d' <> d -> buf d' (with_buf d b s) = buf d' s.
Proof. by destruct d, d'. Qed.

Lemma ctl_upd_buf d b w : ctl (upd_buf d b w) = ctl w.
Proof. by destruct d. Qed.

Lemma wp_node_get p n w Q : heap w !! p = Some n -> Q n w -> wpd (node_get p) Q w.
Proof. intros Hp HQ. unfold node_get. do 2 wp_step. by eapply wp_deref. Qed.

Lemma wp_node_set p n w Q :
  is_Some (heap w !! p) -> Q tt (upd_heap (<[p := n]> (heap w)) w) -> wpd (node_set p n) Q w.
Proof.
  intros Hp HQ. unfold node_set, set_heap. do 2 wp_step. wp_step. wp_step; [by apply bool_decide_eq_true|]. by wp_step.
Qed.

Lemma wp_node_free p w Q :
  is_Some (heap w !! p) -> Q tt (upd_heap (delete p (heap w)) w) -> wpd (node_free p) Q w.
Proof.
  intros Hp HQ. unfold node_free, set_heap. do 2 wp_step. wp_step. wp_step; [by apply bool_decide_eq_true|]. by wp_step.
Qed.

Lemma wp_set_buf d b w Q : Q tt (upd_buf d b w) -> wpd (set_buf d b) Q w.
Proof. intros HQ. unfold set_buf, session_set. do 2 wp_step. by wp_step. Qed.

(** *** Updates keep the shape *)

Section shape_steps.
Context (F : gmap Z data_buffer) (w : world) (L : side -> nodes) (lf : nodes).
Implicit Types (p : Z) (n : data_buffer).

Lemma shape_frame_lookup p n : shape (<[p := n]> F) w L lf -> heap w !! p = Some n /\ p ∉ owned L lf.
Proof.
  intros Sh. split.
  - eapply lookup_weaken; [|apply Sh]. apply lookup_insert_eq.
  - intros Hp%(sh_disj _ _ _ _ Sh). by rewrite lookup_insert_eq in Hp.
Qed.

(** A node of the caller changes. *)
Lemma shape_frame_set p n n' :
  shape (<[p := n]> F) w L lf -> shape (<[p := n']> F) (upd_heap (<[p := n']> (heap w)) w) L lf.
Proof.
  intros Sh. destruct (shape_frame_lookup p n Sh) as [Hp Hno].
  assert (forall a, a ∈ owned L lf -> <[p := n']> (heap w) !! a = heap w !! a) as Hsame.
  { intros a Ha. apply lookup_insert_ne. by intros ->. }
  split; simpl; try apply Sh.
  - intros d. eapply lseg_ext; [|apply Sh]. intros a Ha. apply Hsame, elem_of_owned. eauto.
  - eapply lseg_ext; [|apply Sh]. intros a Ha. apply Hsame, elem_of_owned. by right.
  - rewrite <- (insert_insert_eq F p n' n). apply insert_mono, Sh.
  - intros a Ha%(sh_disj _ _ _ _ Sh). destruct (decide (a = p)) as [->|].
    + by rewrite lookup_insert_eq in Ha.
    + by rewrite lookup_insert_ne in Ha |- * by done.
  - intros a [m Hm]. destruct (decide (a = p)) as [->|]; [by apply (sh_brk _ _ _ _ Sh)|].
    rewrite lookup_insert_ne in Hm by done. by apply (sh_brk _ _ _ _ Sh).
Qed.

(** The first node of a chain changes. *)
Lemma shape_head_set d p n n' l :
  shape F w L lf -> L d = (p, n) :: l -> next n' = next n ->
  shape F (upd_heap (<[p := n']> (heap w)) w) (upd d ((p, n') :: l) L) lf.
Proof.
  intros Sh Ed En. assert (p ∈ (L d).*1) as Hin by (rewrite Ed; by left).
  pose proof (shape_nodup _ _ _ _ Sh d) as Hnd. rewrite Ed in Hnd. apply NoDup_cons in Hnd as [Hpl _].
  destruct (owned_upd d ((p, n') :: l) L lf) as (k & E1 & E2). rewrite Ed in E2. simpl in *.
  assert (owned (upd d ((p, n') :: l) L) lf ≡ₚ owned L lf) as E by by rewrite E1, E2.
  split; simpl.
  - intros d'. destruct (decide (d' = d)) as [->|Hne].
    + rewrite upd_eq. pose proof (sh_seg _ _ _ _ Sh d) as Hs. rewrite Ed in Hs. simpl in Hs.
      destruct Hs as (-> & Hp & Hl). split_and!; [done|by rewrite lookup_insert_eq|].
      rewrite En. eapply lseg_ext; [|done]. intros a Ha. apply lookup_insert_ne. by intros ->.
    + rewrite upd_ne by done. eapply lseg_ext; [|apply Sh]. intros a Ha. apply lookup_insert_ne.
      intros ->. by pose proof (shape_sep _ _ _ _ Sh _ _ _ Ha Hin).
  - intros d'. destruct (decide (d' = d)) as [->|Hne]; [rewrite upd_eq|rewrite upd_ne by done; apply Sh].
    destruct (sh_tail _ _ _ _ Sh d) as [Ht|Ht]; [congruence|]. right. by rewrite Ht, Ed.
  - eapply lseg_ext; [|apply Sh]. intros a Ha. apply lookup_insert_ne. intros ->.
    by apply (shape_sep_free _ _ _ _ Sh _ _ Hin).
  - rewrite E. apply Sh.
  - apply insert_subseteq_r; [apply (sh_disj _ _ _ _ Sh), elem_of_owned; eauto|apply Sh].
  - intros a. rewrite E. apply Sh.
  - intros a Ha. apply (sh_brk _ _ _ _ Sh). destruct (decide (a = p)) as [->|].
    + eapply (shape_in_heap _ _ _ _ Sh), elem_of_owned. eauto.
    + by rewrite lookup_insert_ne in Ha by done.
Qed.

(** The first node of a chain is taken out and belongs to the caller. *)
Lemma shape_pop d p n l b :
  shape F w L lf -> L d = (p, n) :: l -> head b = next n -> l = [] \/ tail b = last l.*1 ->
  shape (<[p := n]> F) (upd_buf d b w) (upd d l L) lf /\ F !! p = None.
Proof.
  intros Sh Ed Eh Et. assert (p ∈ (L d).*1) as Hin by (rewrite Ed; by left).
  assert (F !! p = None) as HF by (apply (sh_disj _ _ _ _ Sh), elem_of_owned; eauto). split; [|done].
  pose proof (sh_seg _ _ _ _ Sh d) as Hs. rewrite Ed in Hs. destruct Hs as (_ & Hp & Hl).
  destruct (owned_upd d l L lf) as (k & E1 & E2). rewrite Ed in E2. simpl in E2.
  assert (p :: owned (upd d l L) lf ≡ₚ owned L lf) as E by by rewrite E1, E2.
  pose proof (sh_nodup _ _ _ _ Sh) as Hnd. rewrite <- E in Hnd. apply NoDup_cons in Hnd as [Hpno Hnd].
  split; simpl.
  - intros d'. destruct (decide (d' = d)) as [->|Hne].
    + by rewrite upd_eq, buf_with_buf, Eh.
    + rewrite upd_ne, buf_with_buf_ne by done. apply Sh.
  - intros d'. destruct (decide (d' = d)) as [->|Hne].
    + by rewrite upd_eq, buf_with_buf.
    + rewrite upd_ne, buf_with_buf_ne by done. apply Sh.
  - apply Sh.
  - done.
  - apply insert_subseteq_l; [done|apply Sh].
  - intros a Ha. rewrite lookup_insert_ne by (by intros ->). apply (sh_disj _ _ _ _ Sh).
    rewrite <- E. by right.
  - apply Sh.
Qed.

(** The first node of the free list becomes the caller's. *)
Lemma shape_unfree p n lf' :
  shape F w L lf -> lf = (p, n) :: lf' ->
  shape (<[p := n]> F) (upd_free (next n) w) L lf' /\ F !! p = None.
Proof.
  intros Sh ->. pose proof (sh_free _ _ _ _ Sh) as (_ & Hp & Hl).
  assert (owned L ((p, n) :: lf') ≡ₚ p :: owned L lf') as E by (unfold owned; simpl; solve_Permutation).
  pose proof (sh_nodup _ _ _ _ Sh) as Hnd. rewrite E in Hnd. apply NoDup_cons in Hnd as [Hpno Hnd].
  assert (F !! p = None) as HF by (apply (sh_disj _ _ _ _ Sh); rewrite E; by left). split; [|done].
  split; simpl; try apply Sh; try done.
  - apply insert_subseteq_l; [done|apply Sh].
  - intros a Ha. rewrite lookup_insert_ne by (by intros ->). apply (sh_disj _ _ _ _ Sh). rewrite E. by right.
Qed.

(** A node of the caller goes to the free list. *)
Lemma shape_free p n :
  shape (<[p := n]> F) w L lf -> F !! p = None ->
  let n' := with_next (freelist w) n in
  shape F (upd_free (Some p) (upd_heap (<[p := n']> (heap w)) w)) L ((p, n') :: lf).
Proof.
  intros Sh HF n'. destruct (shape_frame_lookup p n Sh) as [Hp Hno].
  pose proof (shape_frame_set p n n' Sh) as Sh'.
  assert (owned L ((p, n') :: lf) ≡ₚ p :: owned L lf) as E by (unfold owned; simpl; solve_Permutation).
  split; simpl; try apply Sh'.
  - split_and!; [done|by rewrite lookup_insert_eq|apply Sh'].
  - rewrite E. apply NoDup_cons. split; [done|apply Sh].
  - etrans; [|apply Sh']. by apply insert_subseteq.
  - intros a. rewrite E, elem_of_cons. intros [->|Ha]; [done|].
    pose proof (sh_disj _ _ _ _ Sh' a Ha) as Hd. rewrite lookup_insert_ne in Hd; [done|by intros ->].
Qed.

(** A node of the caller is linked into a chain, first or behind the last. *)
Lemma shape_push_first d p n tot :
  shape (<[p := n]> F) w L lf -> F !! p = None -> L d = [] -> next n = None ->
  shape F (upd_buf d (MkBuf (Some p) (Some p) tot) w) (upd d [(p, n)] L) lf.
Proof.
  intros Sh HF Ed En. destruct (shape_frame_lookup p n Sh) as [Hp Hno].
  destruct (owned_upd d [(p, n)] L lf) as (k & E1 & E2). rewrite Ed in E2. simpl in E1, E2.
  split; simpl; try apply Sh.
  - intros d'. destruct (decide (d' = d)) as [->|Hne].
    + rewrite upd_eq, buf_with_buf. simpl. by rewrite En.
    + rewrite upd_ne, buf_with_buf_ne by done. apply Sh.
  - intros d'. destruct (decide (d' = d)) as [->|Hne].
    + rewrite upd_eq, buf_with_buf. by right.
    + rewrite upd_ne, buf_with_buf_ne by done. apply Sh.
  - rewrite E1. apply NoDup_cons. rewrite <- E2. split; [done|apply Sh].
  - etrans; [|apply Sh]. by apply insert_subseteq.
  - intros a. rewrite E1, elem_of_cons, <- E2. intros [->|Ha]; [done|].
    pose proof (sh_disj _ _ _ _ Sh a Ha) as Hd. rewrite lookup_insert_ne in Hd; [done|by intros ->].
Qed.

Lemma shape_push_last d p n l t tn tot :
  shape (<[p := n]> F) w L lf -> F !! p = None -> L d = l ++ [(t, tn)] ->
  let n' := with_next None (with_prev (Some t) n) in
  shape F (upd_buf d (MkBuf (head (buf d (session w))) (Some p) tot)
             (upd_heap (<[p := n']> (<[t := with_next (Some p) tn]> (heap w))) w))
    (upd d (l ++ [(t, with_next (Some p) tn); (p, n')]) L) lf.
Proof.
  intros Sh HF Ed n'. destruct (shape_frame_lookup p n Sh) as [Hp Hno].
  set (l' := l ++ [(t, with_next (Some p) tn); (p, n')]).
  destruct (owned_upd d l' L lf) as (k & E1 & E2). rewrite Ed in E2.
  assert (owned (upd d l' L) lf ≡ₚ p :: owned L lf) as E.
  { rewrite E1, E2. unfold l'. rewrite !fmap_app. simpl. solve_Permutation. }
  assert (t ∈ (L d).*1) as Htin by (rewrite Ed, fmap_app; apply elem_of_app; right; by left).
  assert (p ∉ (L d).*1) as Hpd by (intros ?; apply Hno, elem_of_owned; eauto).
  assert (forall a, a <> p -> a <> t ->
    <[p := n']> (<[t := with_next (Some p) tn]> (heap w)) !! a = heap w !! a) as Hsame
    by (intros; by rewrite !lookup_insert_ne).
  split; simpl.
  - intros d'. destruct (decide (d' = d)) as [->|Hne].
    + rewrite upd_eq, buf_with_buf. simpl. pose proof (shape_nodup _ _ _ _ Sh d) as Hnd.
      rewrite Ed in Hnd, Hpd. pose proof (sh_seg _ _ _ _ Sh d) as Hs. rewrite Ed in Hs. by apply lseg_snoc.
    + rewrite upd_ne, buf_with_buf_ne by done. eapply lseg_ext; [|apply Sh]. intros a Ha. apply Hsame.
      * intros ->. apply Hno, elem_of_owned. eauto.
      * intros ->. by pose proof (shape_sep _ _ _ _ Sh _ _ _ Ha Htin).
  - intros d'. destruct (decide (d' = d)) as [->|Hne].
    + rewrite upd_eq, buf_with_buf. right. unfold l'. rewrite fmap_app. simpl.
      by rewrite (app_assoc _ [t] [p]), last_snoc.
    + rewrite upd_ne, buf_with_buf_ne by done. apply Sh.
  - eapply lseg_ext; [|apply Sh]. intros a Ha. apply Hsame.
    + intros ->. apply Hno, elem_of_owned. by right.
    + intros ->. by apply (shape_sep_free _ _ _ _ Sh _ _ Htin).
  - rewrite E. apply NoDup_cons. split; [done|apply Sh].
  - assert (F !! t = None) as HFt.
    { assert (t ∈ owned L lf) as Ho by (apply elem_of_owned; eauto).
      pose proof (sh_disj _ _ _ _ Sh t Ho) as Hd. rewrite lookup_insert_ne in Hd; [done|by intros ->]. }
    apply insert_subseteq_r; [done|]. apply insert_subseteq_r; [done|].
    etrans; [|apply Sh]. by apply insert_subseteq.
  - intros a. rewrite E, elem_of_cons. intros [->|Ha]; [done|].
    pose proof (sh_disj _ _ _ _ Sh a Ha) as Hd. rewrite lookup_insert_ne in Hd; [done|by intros ->].
  - intros a Ha. apply (sh_brk _ _ _ _ Sh). destruct (decide (a = p)) as [->|]; [by eauto|].
    destruct (decide (a = t)) as [->|]; [|by rewrite Hsame in Ha].
    eapply (shape_in_heap _ _ _ _ Sh), elem_of_owned. eauto.
Qed.

(** A fresh node, and giving one back to the allocator. *)
Lemma shape_malloc n :
  shape F w L lf ->
  shape (<[brk w := n]> F)
    (MkWorld (<[brk w := n]> (heap w)) (brk w + 1) (freelist w) (session w) (reads w) (writes w) (sent w)) L lf
  /\ F !! brk w = None.
Proof.
  intros Sh. assert (heap w !! brk w = None) as Hn.
  { apply eq_None_not_Some. intros Hs%(sh_brk _ _ _ _ Sh). lia. }
  assert (F !! brk w = None) as HF by (eapply lookup_weaken_None; [done|apply Sh]). split; [|done].
  assert (forall a, a ∈ owned L lf -> a <> brk w) as Hne.
  { intros a Ha ->. apply (shape_in_heap _ _ _ _ Sh) in Ha as [? ?]. congruence. }
  split; simpl; try apply Sh.
  - intros d. eapply lseg_ext; [|apply Sh]. intros a Ha. apply lookup_insert_ne, not_eq_sym, Hne, elem_of_owned. eauto.
  - eapply lseg_ext; [|apply Sh]. intros a Ha. apply lookup_insert_ne, not_eq_sym, Hne, elem_of_owned. by right.
  - apply insert_mono, Sh.
  - intros a Ha. rewrite lookup_insert_ne by (by apply not_eq_sym, Hne). by apply (sh_disj _ _ _ _ Sh).
  - intros a Ha. destruct (decide (a = brk w)) as [->|]; [lia|]. rewrite lookup_insert_ne in Ha by done.
    apply (sh_brk _ _ _ _ Sh) in Ha. lia.
Qed.

Lemma shape_delete p n :
  shape (<[p := n]> F) w L lf -> F !! p = None -> shape F (upd_heap (delete p (heap w)) w) L lf.
Proof.
  intros Sh HF. destruct (shape_frame_lookup p n Sh) as [Hp Hno].
  split; simpl; try apply Sh.
  - intros d. eapply lseg_ext; [|apply Sh]. intros a Ha. apply lookup_delete_ne.
    intros ->. apply Hno, elem_of_owned. eauto.
  - eapply lseg_ext; [|apply Sh]. intros a Ha. apply lookup_delete_ne.
    intros ->. apply Hno, elem_of_owned. by right.
  - rewrite <- (delete_insert_id F p n) by done. apply delete_mono, Sh.
  - intros a Ha. pose proof (sh_disj _ _ _ _ Sh a Ha) as Hd. rewrite lookup_insert_ne in Hd; [done|by intros ->].
  - intros a [m Hm]. apply lookup_delete_Some in Hm as [_ Hm]. apply (sh_brk _ _ _ _ Sh). eauto.
Qed.
End shape_steps.

(** ** The bytes in a chain *)

(** What matters of a node but its links. *)
Definition core (n : data_buffer) : option bytes * Z * Z := (data n, wpos n, rpos n).

Definition core_ok (c : option bytes * Z * Z) : Prop :=
  exists d, c.1.1 = Some d /\ 0 <= c.2 <= c.1.2 /\ c.1.2 <= alen d.

Definition content (c : option bytes * Z * Z) : bytes :=
  match c.1.1 with
  | Some d => take (Z.to_nat (c.1.2 - c.2)) (drop (Z.to_nat c.2) d)
  | None => []
  end.

Definition cores (l : nodes) : list (option bytes * Z * Z) := core <$> l.*2.
Definition stream (l : nodes) : bytes := mjoin (content <$> cores l).

Lemma stream_cons a n l : stream ((a, n) :: l) = content (core n) ++ stream l.
Proof. done. Qed.

Lemma stream_cores l l' c : cores l' = cores l ++ [c] -> stream l' = stream l ++ content c.
Proof.
  intros E. unfold stream. rewrite E, fmap_app, join_app. simpl. by rewrite app_nil_r.
Qed.

Lemma alen_content c : core_ok c -> alen (content c) = c.1.2 - c.2.
Proof.
  intros (d & E & Hr & Hw). unfold content. rewrite E, alen_take; [done|].
  rewrite alen_drop by lia. lia.
Qed.

Lemma slice_content d w r : core_ok (Some d, w, r) -> slice d r (w - r) = Some (content (Some d, w, r)).
Proof.
  intros (d' & [= <-] & Hr & Hw). simpl in *. unfold content. simpl.
  rewrite <- (take_drop (Z.to_nat r) d) at 1. rewrite <- (take_drop (Z.to_nat (w - r)) (drop (Z.to_nat r) d)) at 1.
  apply slice_mid; [by rewrite alen_take by lia|]. rewrite alen_take; [done|]. rewrite alen_drop by lia. lia.
Qed.

(** A prefix of the bytes of a node. *)
Lemma slice_content_prefix d w r k :
  core_ok (Some d, w, r) -> 0 <= k <= w - r ->
  slice d r k = Some (take (Z.to_nat k) (content (Some d, w, r))) /\
  content (Some d, w, r + k) = drop (Z.to_nat k) (content (Some d, w, r)).
Proof.
  intros (d' & [= <-] & Hr & Hw) Hk. simpl in *. unfold content. simpl. split.
  - rewrite take_take. replace (Z.to_nat k `min` Z.to_nat (w - r))%nat with (Z.to_nat k) by lia.
    rewrite <- (take_drop (Z.to_nat r) d) at 1. rewrite <- (take_drop (Z.to_nat k) (drop (Z.to_nat r) d)) at 1.
    apply slice_mid; [by rewrite alen_take by lia|]. rewrite alen_take; [done|]. rewrite alen_drop by lia. lia.
  - replace (Z.to_nat (r + k)) with (Z.to_nat r + Z.to_nat k)%nat by lia.
    rewrite <- drop_drop, take_drop_commute. do 2 f_equal. lia.
Qed.

(** ** The session invariant *)

Record sess_ok (F : gmap Z data_buffer) (w : world) (L : side -> nodes) (lf : nodes) : Prop := {
  so_shape : shape F w L lf;
  so_ok d : Forall core_ok (cores (L d));
  so_total d : total (buf d (session w)) = alen (stream (L d));
  so_max d : alen (stream (L d)) <= INT_MAX;
  so_settled d : L d = [] -> tail (buf d (session w)) = None;
  so_in : Forall (fun c => c.2 = 0) (drop 1 (cores (L In)));
  so_out : Forall (fun c => content c <> []) (cores (L Out));
  so_threshold : MIN_BUFFER_SIZE <= threshold (session w) <= MAX_BUFFER_SIZE;
  so_cap : Forall (fun c => c.1.2 <= MAX_BUFFER_SIZE) (cores (L In))
}.

(** The session as its client sees it: the bytes that arrived and were not read,
    and the bytes written and not yet sent. *)
Definition session_rep (F : gmap Z data_buffer) (w : world) (si so : bytes) : Prop :=
  exists L lf, sess_ok F w L lf /\ stream (L In) = si /\ stream (L Out) = so.

Lemma shape_ext F w w' L lf :
  heap w' = heap w -> brk w' = brk w -> freelist w' = freelist w ->
  (forall d, head (buf d (session w')) = head (buf d (session w)) /\
             tail (buf d (session w')) = tail (buf d (session w))) ->
  shape F w L lf -> shape F w' L lf.
Proof.
  intros E1 E2 E3 Eb Sh. split; rewrite ?E1, ?E2, ?E3; try apply Sh.
  - intros d. destruct (Eb d) as [-> _]. apply Sh.
  - intros d. destruct (Eb d) as [_ ->]. apply Sh.
Qed.

Definition empty_node : data_buffer := MkDb None None None 0 0 0.

Lemma wp_buffer_next F w L lf Q :
  shape F w L lf ->
  (forall p w' lf', shape (<[p := empty_node]> F) w' L lf' -> F !! p = None ->
     ctl w' = ctl w -> session w' = session w -> Q p w') ->
  wpd buffer_next Q w.
Proof.
  intros Sh HQ. unfold buffer_next. do 2 wp_step. wp_step.
  pose proof (sh_free _ _ _ _ Sh) as Hf. destruct lf as [|[p n] lf'].
  - simpl in Hf. rewrite Hf. unfold node_malloc. do 2 wp_step. wp_step. wp_step. wp_step. wp_step.
    destruct (shape_malloc F w L [] empty_node Sh) as [Sh' HF].
    apply wp_node_set; [exists empty_node; simpl; apply lookup_insert_eq|]. wp_step.
    eapply HQ; [|done|done|done]. by apply (shape_frame_set F _ L [] (brk w) empty_node).
  - destruct Hf as (-> & Hp & _). destruct (shape_unfree F w L _ p n lf' Sh eq_refl) as [Sh' HF].
    wp_step. apply (wp_node_get p n); [done|]. wp_step. unfold set_freelist. wp_step. wp_step. wp_step.
    apply wp_node_set; [by exists n|]. wp_step.
    eapply HQ; [|done|done|done]. by apply (shape_frame_set F (upd_free (next n) w) L lf' p n).
Qed.

Lemma wp_buffer_append F w L lf d p n Q :
  shape (<[p := n]> F) w L lf -> F !! p = None -> next n = None ->
  (L d = [] -> tail (buf d (session w)) = None) ->
  total (buf d (session w)) + (wpos n - rpos n) <= INT_MAX ->
  (forall w' l', shape F w' (upd d l' L) lf -> cores l' = cores (L d) ++ [core n] ->
     ctl w' = ctl w -> (forall d', d' <> d -> buf d' (session w') = buf d' (session w)) ->
     total (buf d (session w')) = total (buf d (session w)) + (wpos n - rpos n) -> Q tt w') ->
  wpd (buffer_append d p) Q w.
Proof.
  intros Sh HF Hn Hset Hmax HQ. unfold buffer_append.
  destruct (shape_frame_lookup F w L lf p n Sh) as [Hp Hno].
  wp_step. apply (wp_node_get p n); [done|]. do 2 wp_step. wp_step. wp_step; [by apply Z.leb_le|].
  destruct (list_snoc_cases (L d)) as [Ed|(l & [t tn] & Ed)].
  - pose proof (sh_seg _ _ _ _ Sh d) as Hs. rewrite Ed in Hs. simpl in Hs. rewrite Hs, (Hset Ed).
    wp_step. wp_step; [done|]. apply wp_set_buf. eapply HQ; [by apply shape_push_first| | | |].
    + by rewrite Ed.
    + apply ctl_upd_buf.
    + intros d' Hne. simpl. by apply buf_with_buf_ne.
    + simpl. by rewrite buf_with_buf.
  - assert (exists h, head (buf d (session w)) = Some h) as (h & Hh).
    { pose proof (sh_seg _ _ _ _ Sh d) as Hs. rewrite Ed in Hs. destruct l as [|[a ?] ?]; simpl in Hs; naive_solver. }
    assert (tail (buf d (session w)) = Some t) as Ht.
    { destruct (sh_tail _ _ _ _ Sh d) as [Ht|Ht]; rewrite Ed in Ht; [by destruct l|].
      rewrite Ht, fmap_app. simpl. by rewrite last_snoc. }
    assert (heap w !! t = Some tn) as Hth.
    { eapply lseg_lookup; [apply (sh_seg _ _ _ _ Sh d)|]. rewrite Ed. apply elem_of_app. right. by left. }
    assert (p <> t). { intros ->. apply Hno, elem_of_owned. left. exists d. rewrite Ed, fmap_app. apply elem_of_app. right. by left. }
    rewrite Hh, Ht. wp_step. wp_step; [done|]. wp_step. apply (wp_node_get t tn); [done|].
    wp_step. apply wp_node_set; [by exists tn|]. wp_step.
    apply (wp_node_get p n); [simpl; by rewrite lookup_insert_ne|].
    wp_step. apply wp_node_set; [simpl; rewrite lookup_insert_ne by done; by exists n|]. apply wp_set_buf.
    eapply HQ; [rewrite <- Hh; by apply (shape_push_last F w L lf d p n l t tn)| | | |].
    + rewrite Ed. unfold cores. rewrite !fmap_app. simpl. by rewrite <- app_assoc.
    + by rewrite ctl_upd_buf.
    + intros d' Hne. simpl. by apply buf_with_buf_ne.
    + simpl. by rewrite buf_with_buf.
Qed.

Lemma wp_buffer_reclaim F w L lf p n Q :
  shape (<[p := n]> F) w L lf -> F !! p = None ->
  (forall w' lf', shape F w' L lf' -> ctl w' = ctl w -> session w' = session w -> Q tt w') ->
  wpd (buffer_reclaim p) Q w.
Proof.
  intros Sh HF HQ. unfold buffer_reclaim. destruct (shape_frame_lookup F w L lf p n Sh) as [Hp Hno].
  do 2 wp_step. wp_step. apply (wp_node_get p n); [done|]. wp_step.
  apply wp_node_set; [by exists n|]. unfold set_freelist. wp_step.
  eapply HQ; [by apply (shape_free F w L lf p n)|done|done].
Qed.

(** *** Reading *)

(** Between two rounds of [ev_session_read]: [result] was copied, [need] bytes
    are missing of the [n] asked for; [s] is the stream at the beginning. *)
Record reading (F : gmap Z data_buffer) (w0 : world) (lo : nodes) (s : bytes) (n : Z)
    (st : Z * bytes) (w : world) (L : side -> nodes) (lf : nodes) : Prop := {
  rd_shape : shape F w L lf;
  rd_ok : Forall core_ok (cores (L In));
  rd_zero : Forall (fun c => c.2 = 0) (drop 1 (cores (L In)));
  rd_settled : L In = [] -> tail (input (session w)) = None;
  rd_out : L Out = lo /\ output (session w) = output (session w0);
  rd_ctl : ctl w = ctl w0;
  rd_total : total (input (session w)) = total (input (session w0));
  rd_stream : st.2 ++ stream (L In) = s;
  rd_need : 0 <= st.1 <= alen (stream (L In)) /\ alen st.2 + st.1 = n;
  rd_cap : Forall (fun c => c.1.2 <= MAX_BUFFER_SIZE) (cores (L In))
}.

Lemma lseg_end h p a n l : lseg h p ((a, n) :: l) -> next n = None <-> l = [].
Proof.
  intros (_ & _ & Hl). destruct l as [|[b m] l]; simpl in Hl; [by split|].
  destruct Hl as [-> _]. split; done.
Qed.

Lemma reading_tail b F w0 lo s n st w L lf p db l :
  reading F w0 lo s n st w L lf -> L In = (p, db) :: l ->
  b = (match next db with None => MkBuf None None (total (input (session w)))
       | Some q => MkBuf (Some q) (tail (input (session w))) (total (input (session w))) end) ->
  head b = next db /\ (l = [] \/ tail b = last l.*1) /\ (l = [] -> tail b = None) /\
  total b = total (input (session w)).
Proof.
  intros R E ->. pose proof (sh_seg _ _ _ _ (rd_shape _ _ _ _ _ _ _ _ _ R) In) as Hs. rewrite E in Hs.
  pose proof (lseg_end _ _ _ _ _ Hs) as He. destruct (next db) as [q|] eqn:En; simpl.
  - split_and!; [done| | |done].
    + right. destruct (sh_tail _ _ _ _ (rd_shape _ _ _ _ _ _ _ _ _ R) In) as [Ht|Ht]; [congruence|].
      simpl in Ht. rewrite Ht, E. destruct l; [naive_solver|done].
    + naive_solver.
  - destruct (proj1 He eq_refl). naive_solver.
Qed.

(** A round that empties the first buffer. *)
Lemma wp_read_full F w0 lo s n need result w L lf p db d l (Q : (Z * bytes) + bytes -> world -> Prop) :
  reading F w0 lo s n (need, result) w L lf -> L In = (p, db) :: l -> data db = Some d ->
  wpos db - rpos db <= need ->
  (forall w' L' lf', reading F w0 lo s n (need - (wpos db - rpos db), result ++ content (core db)) w' L' lf' ->
     length (L' In) = length l -> Q (inl (need - (wpos db - rpos db), result ++ content (core db))) w') ->
  wpd (node_set p (with_data None db);;
       match next db with
       | None => set_buf In (MkBuf None None (total (input (session w))));; c_assert (need - (wpos db - rpos db) =? 0)
       | Some q => set_buf In (MkBuf (Some q) (tail (input (session w))) (total (input (session w))))
       end;;
       buffer_reclaim p;;
       mret (inl (need - (wpos db - rpos db), result ++ content (core db)))) Q w.
Proof.
  intros R E Hd Hleft HQ. destruct (R) as [Sh Hok Hz _ [Ho1 Ho2] Hc Ht Hs [Hn Hsz] Hcap]. simpl in *.
  rewrite E in Hok, Hz, Hcap. apply Forall_cons in Hok as [Hcok Hok]. apply Forall_cons in Hcap as [_ Hcap].
  pose proof (alen_content _ Hcok) as Hlen. simpl in Hlen.
  assert (heap w !! p = Some db) as Hp.
  { eapply lseg_lookup; [apply (sh_seg _ _ _ _ Sh In)|]. rewrite E. by left. }
  wp_step. apply wp_node_set; [by exists db|].
  pose proof (shape_head_set F w L lf In p db (with_data None db) l Sh E eq_refl) as Sh1.
  set (b := match next db with None => MkBuf None None (total (input (session w)))
       | Some q => MkBuf (Some q) (tail (input (session w))) (total (input (session w))) end).
  destruct (reading_tail b _ _ _ _ _ _ _ _ _ _ _ _ R E eq_refl) as (Bh & Bt & Bs & Btot).
  destruct (shape_pop F _ _ lf In p (with_data None db) l b Sh1 (upd_eq _ _ _) Bh Bt) as [Sh2 HF].
  set (w1 := upd_heap (<[p := with_data None db]> (heap w)) w) in *.
  wp_step. apply (wp_mono _ (fun _ w2 => w2 = upd_buf In b w1)).
  { unfold b. destruct (next db) as [q|] eqn:En.
    - by apply wp_set_buf.
    - wp_step. apply wp_set_buf. wp_step; [|done]. apply Z.eqb_eq.
      pose proof (sh_seg _ _ _ _ Sh In) as Hl. rewrite E in Hl.
      apply (lseg_end _ _ _ _ _ Hl) in En as ->. rewrite E, stream_cons in Hn. simpl in Hn.
      rewrite alen_app, Hlen in Hn. change (alen (stream [])) with 0 in Hn. lia. }
  intros [] w2 ->. wp_step. eapply (wp_buffer_reclaim F _ _ lf p (with_data None db)); [done|done|].
  intros w3 lf' Sh3 Hc3 Hs3. wp_step. eapply (HQ w3 (upd In l (upd In ((p, with_data None db) :: l) L)) lf'); [|done].
  split; rewrite ?Hs3, ?Hc3, ?upd_eq; simpl; [done|done| |done| |done|by rewrite Btot| | |done].
  - destruct l; [done|]. by inversion Hz.
  - split; [done|]. by unfold w1.
  - rewrite <- Hs, E, stream_cons. by rewrite app_assoc.
  - rewrite E, stream_cons, alen_app, Hlen in Hn. rewrite alen_app, Hlen. lia.
Qed.

Lemma cores_cons a n l : cores ((a, n) :: l) = core n :: cores l.
Proof. done. Qed.

(** Rounds left: one for each buffer, and one more that takes a part of one. *)
Definition read_rank (l : nodes) (need : Z) : nat := length l + (if decide (0 < need) then 1 else 0).

Lemma wp_read_round F w0 lo s n st w L lf :
  reading F w0 lo s n st w L lf -> 0 <= n -> n + MAX_BUFFER_SIZE <= INT_MAX ->
  wpd (read_round n st) (fun r w' => match r with
    | inl st' => exists L' lf', reading F w0 lo s n st' w' L' lf' /\
        (read_rank (L' In) st'.1 < read_rank (L In) st.1)%nat
    | inr result => exists L' lf', reading F w0 lo s n (0, result) w' L' lf'
    end) w.
Proof.
  intros R Hn0 Hmax. destruct st as [need result]. destruct (R) as [Sh Hok Hz _ [Ho1 Ho2] Hc Ht Hs [Hn Hsz] Hcap]. simpl in *.
  destruct (Z.leb_spec need 0) as [Hle|Hgt].
  { wp_step. exists L, lf. by replace 0 with need by lia. }
  destruct (L In) as [|[p db] l] eqn:E.
  { change (alen (stream [])) with 0 in Hn. lia. }
  pose proof (sh_seg _ _ _ _ Sh In) as Hl. rewrite E in Hl. destruct Hl as (Hh & Hp & _). simpl in Hh.
  rewrite cores_cons in Hok, Hz, Hcap. apply Forall_cons in Hok as [Hcok Hok]. apply Forall_cons in Hcap as [Hcap1 Hcap].
  destruct (Hcok) as (d & Hd & Hr & Hw). simpl in Hd, Hr, Hw.
  assert (core db = (Some d, wpos db, rpos db)) as Ec by (unfold core; by rewrite Hd).
  do 2 wp_step. wp_step. wp_step; [done|]. wp_step. apply (wp_node_get p db); [done|].
  wp_step. wp_step; [done|]. rewrite Ec in Hcok. simpl in Hcap1. pose proof (alen_nonneg result).
  wp_step. wp_step; [apply Z.leb_le; lia|].
  destruct (Z.ltb_spec (rpos db + need) (wpos db)) as [Hlt|Hge].
  - destruct (slice_content_prefix d (wpos db) (rpos db) need Hcok ltac:(lia)) as [Hsl Hrest].
    wp_step. wp_step; [done|]. wp_step. apply wp_node_set; [by exists db|].
    pose proof (alen_content _ Hcok) as Hlen. simpl in Hlen.
    assert (alen (take (Z.to_nat need) (content (Some d, wpos db, rpos db))) = need) as Htk
      by (apply alen_take; lia).
    wp_step. wp_step; [apply Z.eqb_eq; rewrite alen_app, Htk; lia|]. wp_step.
    pose proof (shape_head_set F w L lf In p db (with_pos (wpos db) (rpos db + need) db) l Sh E eq_refl) as Sh1.
    eexists (upd In ((p, with_pos (wpos db) (rpos db + need) db) :: l) L), lf.
    assert (core (with_pos (wpos db) (rpos db + need) db) = (Some d, wpos db, rpos db + need)) as Ec'
      by (unfold core, with_pos; simpl; by rewrite Hd).
    split; [|unfold read_rank; simpl; repeat case_decide; lia].
    split; simpl; rewrite ?upd_eq, ?cores_cons, ?stream_cons, ?Ec'; try done.
    + apply Forall_cons. split; [|done]. exists d. simpl. split_and!; done || lia.
    + rewrite Hrest, <- app_assoc, (app_assoc (take _ _)), take_drop, <- Hs, stream_cons. by rewrite Ec.
    + split; [|rewrite alen_app, Htk; lia].
      pose proof (alen_nonneg (content (Some d, wpos db, rpos db + need) ++ stream l)). lia.
    + by apply Forall_cons.
  - wp_step. wp_step; [by apply slice_content|]. rewrite <- Ec in *.
    apply (wp_read_full F w0 lo s n need result w L lf p db d l); [done|done|done|lia|].
    intros w' L' lf' R' Hlen'. exists L', lf'. split; [done|]. unfold read_rank. rewrite Hlen'. simpl.
    repeat case_decide; lia.
Qed.

(** The invariant after the total was adjusted. *)
Lemma sess_ok_read F w L lf w1 L1 lf1 m :
  sess_ok F w L lf -> shape F w1 L1 lf1 -> ctl w1 = ctl w -> L1 Out = L Out ->
  output (session w1) = output (session w) -> Forall core_ok (cores (L1 In)) ->
  Forall (fun c => c.2 = 0) (drop 1 (cores (L1 In))) -> Forall (fun c => c.1.2 <= MAX_BUFFER_SIZE) (cores (L1 In)) -> (L1 In = [] -> tail (input (session w1)) = None) ->
  m = alen (stream (L1 In)) -> m <= INT_MAX ->
  sess_ok F (upd_buf In (MkBuf (head (input (session w1))) (tail (input (session w1))) m) w1) L1 lf1.
Proof.
  intros [Sh Kok Kt Km Ks Kin Kout Kth Kcap] Sh1 Hc Eo Eb Hok Hz Hcap Hset -> Hm. split.
  - eapply shape_ext; [| | | |exact Sh1]; try done. by intros [].
  - intros []; [done|by rewrite Eo].
  - intros []; [done|]. simpl. rewrite Eb, Eo. apply (Kt Out).
  - intros []; [done|]. rewrite Eo. apply Km.
  - intros []; [done|]. simpl. rewrite Eb, Eo. apply (Ks Out).
  - done.
  - by rewrite Eo.
  - assert (threshold (session w1) = threshold (session w)) as E by (unfold ctl in Hc; congruence).
    simpl. by rewrite E.
  - done.
Qed.

(** [ev_session_read] takes a prefix of the input. *)
Lemma wp_ev_session_read F w L lf n Q :
  sess_ok F w L lf -> 0 <= n -> alen (stream (L In)) + MAX_BUFFER_SIZE <= INT_MAX ->
  (forall w' L' lf', sess_ok F w' L' lf' -> stream (L' In) = drop (Z.to_nat n) (stream (L In)) ->
     L' Out = L Out -> ctl w' = ctl w -> Q (take (Z.to_nat n) (stream (L In))) w') ->
  wpd (ev_session_read n) Q w.
Proof.
  intros K Hn Hroom HQ. unfold ev_session_read. do 2 wp_step. pose proof (so_total _ _ _ _ K In) as Ht. simpl in Ht.
  pose proof (so_max _ _ _ _ K In) as Hmax. pose proof (alen_nonneg (stream (L In))) as Hs0. unfold INT_MAX in Hmax.
  rewrite Ht, (uwrap_small 64) by lia.
  set (m := if alen (stream (L In)) <? n then alen (stream (L In)) else n).
  assert (m = Z.min n (alen (stream (L In)))) as Hm by (unfold m; zcase; lia). clearbody m.
  rewrite (swrap_small 32) by (unfold in_s; lia). wp_step.
  set (s := stream (L In)) in *.
  assert (reading F w (L Out) s m (m, []) w L lf) as R0.
  { destruct K as [Sh Kok Kt Km Ks Kin Kout Kth Kcap].
    split; [done|apply Kok|done|apply (Ks In)|done|done|done|done| |done]. simpl. fold s. rewrite alen_nil. lia. }
  apply (wp_mono _ (fun result w' => exists L' lf', reading F w (L Out) s m (0, result) w' L' lf')).
  - apply (wp_loop_rank (fun k st w' => exists L' lf', reading F w (L Out) s m st w' L' lf' /\ k = read_rank (L' In) st.1)
      _ _ _ _ (read_rank (L In) m)).
    + intros k st w1 (L1 & lf1 & R1 & ->). eapply wp_mono; [apply (wp_read_round _ _ _ _ _ _ _ _ _ R1)|].
      { lia. } { lia. }
      intros [st'|result] w2; [|done]. intros (L2 & lf2 & R2 & Hlt). eauto 8.
    + eauto.
    + pose proof (shape_fuel _ _ _ _ (so_shape _ _ _ _ K) In). unfold read_rank. case_decide; lia.
  - intros result w1 (L1 & lf1 & R1). do 2 wp_step. wp_step. apply wp_set_buf. wp_step.
    destruct R1 as [Sh Rok Rz Rs [Ro1 Ro2] Rc Rt Rst [Rn Rsz] Rcap]. simpl in *.
    assert (alen result = m) as Hlen by lia.
    assert (alen s = alen result + alen (stream (L1 In))) as Hsum by by rewrite <- Rst, alen_app.
    assert (result = take (Z.to_nat n) s /\ stream (L1 In) = drop (Z.to_nat n) s) as [-> Es].
    { rewrite <- Rst. apply app_split_at; [done|]. by rewrite <- Hsum, Hlen. }
    apply (HQ _ L1 lf1); [|done|done|by rewrite ctl_upd_buf].
    rewrite Rt, Ht, (uwrap_small 64), (swrap_small 32) by (unfold in_s; lia).
    assert (alen (stream (L1 In)) = alen s - m) as Hl1 by lia.
    apply (sess_ok_read F w L lf w1 L1 lf1); try done; unfold INT_MAX; lia.
Qed.

(** *** Searching *)

(** The first of the first [n] positions of [s] at which [sep] starts. *)
Fixpoint first_sep (n : nat) (s sep : bytes) : option nat :=
  match n with
  | O => None
  | S n => if bool_decide (sep `prefix_of` s) then Some O else S <$> first_sep n (drop 1 s) sep
  end.

Lemma first_sep_add n m s sep :
  first_sep (n + m) s sep =
    match first_sep n s sep with
    | Some k => Some k
    | None => Nat.add n <$> first_sep m (drop n s) sep
    end.
Proof.
  revert s. induction n as [|n IH]; intros s; simpl.
  - rewrite drop_0. by destruct (first_sep m s sep).
  - case_bool_decide; [done|]. rewrite IH, drop_drop. simpl. by destruct (first_sep n _ sep), (first_sep m _ sep).
Qed.

Lemma first_sep_Some n s sep k :
  first_sep n s sep = Some k -> (k < n)%nat /\ sep `prefix_of` drop k s /\
  forall j, (j < k)%nat -> ~ sep `prefix_of` drop j s.
Proof.
  revert s k. induction n as [|n IH]; intros s k; simpl; [done|]. case_bool_decide as Hp.
  - intros [= <-]. rewrite drop_0. split_and!; [lia|done|lia].
  - destruct (first_sep n (drop 1 s) sep) as [k'|] eqn:E; [|done]. intros [= <-].
    destruct (IH _ _ E) as (Hk & Hpre & Hmin). rewrite drop_drop in Hpre. split_and!; [lia|done|].
    intros [|j] Hj; [by rewrite drop_0|]. specialize (Hmin j ltac:(lia)). by rewrite drop_drop in Hmin.
Qed.

Lemma first_sep_None n s sep :
  first_sep n s sep = None -> forall j, (j < n)%nat -> ~ sep `prefix_of` drop j s.
Proof.
  revert s. induction n as [|n IH]; intros s; simpl; [lia|]. case_bool_decide as Hp; [done|].
  destruct (first_sep n (drop 1 s) sep) eqn:E; [done|]. intros _ [|j] Hj; [by rewrite drop_0|].
  pose proof (IH _ E j ltac:(lia)) as Hj'. by rewrite drop_drop in Hj'.
Qed.

(** The bytes from offset [from] of the first node of a chain on. *)
Definition bytes_from (k : nodes) (from : Z) : bytes :=
  match k with
  | [] => []
  | (_, n) :: k => content (data n, wpos n, from) ++ stream k
  end.

Record chain_at (w : world) (k : nodes) (p : option Z) (from : Z) : Prop := {
  ca_seg : lseg (heap w) p k;
  ca_ok : Forall core_ok (cores k);
  ca_zero : Forall (fun c => c.2 = 0) (drop 1 (cores k));
  ca_from a n k' : k = (a, n) :: k' -> rpos n <= from <= wpos n
}.

Lemma chain_at_next w a n k p from :
  chain_at w ((a, n) :: k) p from -> chain_at w k (next n) 0 /\ bytes_from k 0 = stream k.
Proof.
  intros [Hs Hok Hz Hf]. destruct Hs as (-> & Ha & Hs). rewrite cores_cons in *. apply Forall_cons in Hok as [_ Hok].
  simpl in Hz. split.
  - split; [done|done| |].
    + destruct k as [|[b m] k]; [done|]. rewrite cores_cons in *. by apply Forall_cons in Hz as [_ Hz].
    + intros b m k' ->. rewrite cores_cons in *. apply Forall_cons in Hz as [Hz _]. apply Forall_cons in Hok as [Hok _].
      destruct Hok as (? & _ & Hr & _). simpl in *. lia.
  - destruct k as [|[b m] k]; [done|]. simpl. rewrite cores_cons in Hz. apply Forall_cons in Hz as [Hz _].
    rewrite stream_cons. unfold core in Hz |- *. simpl in Hz. by rewrite Hz.
Qed.

Lemma chain_at_core w a n k p from :
  chain_at w ((a, n) :: k) p from -> exists d, data n = Some d /\ core_ok (Some d, wpos n, from).
Proof.
  intros [_ Hok _ Hf]. rewrite cores_cons in Hok. apply Forall_cons in Hok as [(d & Hd & Hr & Hw) _].
  simpl in *. exists d. split; [done|]. exists d. specialize (Hf a n k eq_refl). simpl. split_and!; done || lia.
Qed.

(** Comparing with the part of the separator that lies in one node. *)
Lemma prefix_long (sep c r : bytes) : alen sep <= alen c -> take (Z.to_nat (alen sep)) c = sep <-> sep `prefix_of` c ++ r.
Proof.
  rewrite !alen_length, Nat2Z.id. intros Hl. split.
  - intros <-. exists (drop (length sep) c ++ r). by rewrite app_assoc, take_drop.
  - intros [k E]. apply (f_equal (take (length sep))) in E.
    by rewrite take_app_le, take_app_length in E by lia.
Qed.

Lemma prefix_short (sep c r : bytes) :
  alen c <= alen sep ->
  sep `prefix_of` c ++ r <->
  c = take (Z.to_nat (alen c)) sep /\ drop (Z.to_nat (alen c)) sep `prefix_of` r.
Proof.
  rewrite !alen_length, Nat2Z.id. intros Hl. split.
  - intros [k E]. assert (take (length c) sep = c) as Ec.
    { apply (f_equal (take (length c))) in E. by rewrite take_app_length, take_app_le in E by lia. }
    split; [done|]. exists k. apply (f_equal (drop (length c))) in E.
    by rewrite drop_app_length, drop_app_le in E by lia.
  - intros [Ec [k E]]. exists k. rewrite E, app_assoc. f_equal. rewrite Ec at 1. apply take_drop.
Qed.

Lemma wp_check_eol w k p from sep (Q : bool -> world -> Prop) :
  chain_at w k p from -> k <> [] -> (length k < chain_fuel w)%nat ->
  Q (bool_decide (sep `prefix_of` bytes_from k from)) w -> wpd (check_eol sep p from) Q w.
Proof.
  intros C Hk Hf HQ. unfold check_eol. wp_step. wp_step.
  remember (bool_decide (sep `prefix_of` bytes_from k from)) as b eqn:Eb0.
  apply (wp_loop_rank (fun r '(p, from, sep') w' => w' = w /\ exists k, r = length k /\
    chain_at w k p from /\ (k = [] -> sep' <> []) /\ b = bool_decide (sep' `prefix_of` bytes_from k from))
    _ _ _ _ (length k)); [|by eauto 8|done].
  clear C Hk Hf Eb0 k sep. intros r [[p' from'] sep'] w' (-> & k & -> & C & Hne & Eb).
  destruct k as [|[a n] k].
  - destruct (C) as [Hs _ _ _]. simpl in Hs. rewrite Hs. wp_step. replace b with false in HQ; [done|].
    rewrite Eb. symmetry. apply bool_decide_eq_false. intros ->%prefix_nil_inv. by apply Hne.
  - destruct (chain_at_next _ _ _ _ _ _ C) as [Cn Ebn]. destruct (chain_at_core _ _ _ _ _ _ C) as (d & Hd & Hcok).
    destruct (C) as [(-> & Ha & _) _ _ _]. wp_step. apply (wp_node_get a n); [done|]. wp_step. wp_step; [done|].
    pose proof (alen_content _ Hcok) as Hlen. simpl in Hlen. simpl in Eb. rewrite Hd in Eb. cbv zeta.
    pose proof (alen_nonneg (content (Some d, wpos n, from'))) as Hc0.
    destruct (Z.leb_spec (alen sep') (wpos n - from')) as [Hle|Hgt].
    + pose proof (alen_nonneg sep'). wp_step. wp_step; [apply slice_content_prefix; done || lia|]. wp_step.
      replace (bool_decide _) with b; [done|]. rewrite Eb. apply bool_decide_ext. symmetry. apply prefix_long. lia.
    + wp_step. wp_step; [by apply slice_content|].
      pose proof (prefix_short sep' (content (Some d, wpos n, from')) (stream k) ltac:(lia)) as Hps. rewrite Hlen in Hps.
      destruct ((0 <? _) && negb _) eqn:Hcmp; wp_step.
      * apply andb_true_iff in Hcmp as [_ Hcmp%negb_true_iff%bool_decide_eq_false].
        replace false with b; [done|]. rewrite Eb. apply bool_decide_eq_false. naive_solver.
      * assert (content (Some d, wpos n, from') = take (Z.to_nat (wpos n - from')) sep') as Hcont.
        { apply andb_false_iff in Hcmp as [Hcmp%Z.ltb_ge|Hcmp%negb_false_iff%bool_decide_eq_true]; [|done].
          replace (wpos n - from') with 0 in * by lia. rewrite take_0. by apply alen_0. }
        eexists (length k). split; [simpl; lia|]. split; [done|]. exists k. split_and!; [done|done| |].
        -- intros _ Hnil. apply (f_equal alen) in Hnil. rewrite alen_drop, alen_nil in Hnil by lia. lia.
        -- rewrite Eb, Ebn. apply bool_decide_ext. naive_solver.
Qed.

Lemma wp_scan_buffer w k a n p i offset sep m (Q : Z + Z -> world -> Prop) :
  chain_at w ((a, n) :: k) p i -> (length ((a, n) :: k) < chain_fuel w)%nat -> Z.of_nat m = wpos n - i ->
  Q (match first_sep m (bytes_from ((a, n) :: k) i) sep with
     | Some j => inr (offset + Z.of_nat j)
     | None => inl (offset + Z.of_nat m) end) w ->
  wpd (scan_buffer m sep a i offset) Q w.
Proof.
  revert i offset Q. induction m as [|m IH]; intros i offset Q C Hf Hm HQ; cbn [scan_buffer first_sep] in *.
  - wp_step. by replace (offset + Z.of_nat 0) with offset in HQ by lia.
  - destruct (chain_at_core _ _ _ _ _ _ C) as (d & Hd & Hcok). pose proof (ca_from _ _ _ _ C _ _ _ eq_refl) as Hi.
    assert (p = Some a) as -> by (by destruct C as [(? & _) _ _ _]).
    wp_step. apply (wp_check_eol _ ((a, n) :: k)); [done|done|done|].
    destruct (bool_decide _).
    { wp_step. by replace (offset + Z.of_nat 0) with offset in HQ by lia. }
    assert (bytes_from ((a, n) :: k) (i + 1) = drop 1 (bytes_from ((a, n) :: k) i)) as Enext.
    { simpl. rewrite Hd. destruct (slice_content_prefix d (wpos n) i 1 Hcok ltac:(lia)) as [_ ->].
      pose proof (alen_content _ Hcok) as Hl. simpl in Hl. rewrite alen_length in Hl.
      by rewrite drop_app_le by lia. }
    apply IH; [|done|lia|].
    { destruct C as [H1 H2 H3 _]. split; [done|done|done|]. intros ? ? ? [= <- <- <-]. lia. }
    rewrite Enext. destruct (first_sep m _ sep) as [j|]; simpl in HQ.
    + by replace (offset + 1 + Z.of_nat j) with (offset + Z.of_nat (S j)) by lia.
    + by replace (offset + 1 + Z.of_nat m) with (offset + Z.of_nat (S m)) by lia.
Qed.

(** [search_eol] finds the first separator of the stream. *)
Lemma wp_search_eol F w L lf sep Q :
  sess_ok F w L lf ->
  Q (match first_sep (length (stream (L In))) (stream (L In)) sep with
     | Some k => Z.of_nat k + alen sep
     | None => -1 end) w ->
  wpd (search_eol sep) Q w.
Proof.
  intros K HQ. unfold search_eol. do 2 wp_step. set (s := stream (L In)) in *.
  pose proof (shape_fuel _ _ _ _ (so_shape _ _ _ _ K) In) as Hfuel.
  pose proof (so_max _ _ _ _ K In) as Hmax. fold s in Hmax. unfold INT_MAX in Hmax.
  apply (wp_loop_rank (fun r '(p, offset) w' => w' = w /\ exists k m from, r = length k /\
    (length k <= length (L In))%nat /\ chain_at w k p from /\
    stream k = drop m s /\ (m <= length s)%nat /\ offset = Z.of_nat m /\ first_sep m s sep = None)
    _ _ _ _ (length (L In))); [| |done].
  - intros r [p offset] w' (-> & k & m & from & -> & Hlen & C & Es & Hm & -> & Hnone).
    assert (length (stream k) = length s - m)%nat as Hls by by rewrite Es, length_drop.
    destruct k as [|[a n] k].
    + destruct C as [Hs _ _ _]. simpl in Hs, Hls. rewrite Hs. wp_step.
      assert (m = length s) as -> by lia. by rewrite Hnone in HQ.
    + assert (chain_at w ((a, n) :: k) p (rpos n)) as C'.
      { destruct C as [H1 H2 H3 _]. split; [done|done|done|]. intros ? ? ? [= <- <- <-].
        rewrite cores_cons in H2. apply Forall_cons in H2 as [(? & _ & Hr & _) _]. simpl in Hr. lia. }
      destruct (chain_at_core _ _ _ _ _ _ C') as (d & Hd & Hcok). destruct (C') as [(-> & Ha & _) _ _ _].
      wp_step. apply (wp_node_get a n); [done|]. wp_step.
      pose proof (alen_content _ Hcok) as Hlc. simpl in Hlc. pose proof (alen_nonneg (content (Some d, wpos n, rpos n))).
      apply (wp_scan_buffer w k a n (Some a)); [done|lia|lia|].
      assert (bytes_from ((a, n) :: k) (rpos n) = drop m s) as ->.
      { rewrite <- Es, stream_cons. simpl. unfold core. by rewrite Hd. }
      set (c := Z.to_nat (wpos n - rpos n)).
      assert (m + c <= length s)%nat as Hmc.
      { rewrite stream_cons, length_app in Hls. unfold core in Hls. rewrite Hd in Hls.
        rewrite alen_length in Hlc. unfold c. lia. }
      pose proof (first_sep_add m c s sep) as Hadd. rewrite Hnone in Hadd.
      destruct (first_sep c (drop m s) sep) as [j|] eqn:Ej; simpl in Hadd.
      * wp_step. pose proof (first_sep_add (m + c) (length s - (m + c)) s sep) as Hall. rewrite Hadd in Hall.
        replace (m + c + (length s - (m + c)))%nat with (length s) in Hall by lia. rewrite Hall in HQ.
        apply first_sep_Some in Hadd as (Hj & Hp & _). apply prefix_length in Hp. rewrite length_drop in Hp.
        rewrite !alen_length in *. rewrite (uwrap_small 64), (swrap_small 32) by (unfold in_s; lia).
        by replace (Z.of_nat m + Z.of_nat j + Z.of_nat (length sep)) with (Z.of_nat (m + j) + Z.of_nat (length sep)) by lia.
      * wp_step. exists (length k). split; [simpl; lia|]. split; [done|].
        destruct (chain_at_next _ _ _ _ _ _ C') as [Cn _].
        exists k, (m + c)%nat, 0. split_and!; [done|simpl in *; lia|done| |done|lia|done].
        rewrite <- drop_drop, <- Es, stream_cons. unfold core. rewrite Hd.
        rewrite drop_app_length'; [done|]. rewrite alen_length in Hlc. unfold c. lia.
  - split; [done|]. exists (L In), 0%nat, (match L In with (_, n) :: _ => rpos n | [] => 0 end).
    split_and!; [done|done| |by rewrite drop_0|lia|done|done].
    pose proof (so_ok _ _ _ _ K In) as Hok.
    split; [apply (sh_seg _ _ _ _ (so_shape _ _ _ _ K) In)|done|apply K|]. intros a n k' E. rewrite E in Hok |- *.
    rewrite cores_cons in Hok. apply Forall_cons in Hok as [(? & _ & Hr & _) _]. simpl in Hr. lia.
Qed.

(** *** Filling the input *)

(** The node after [fill_buffer], and what the handler does afterwards. *)
Definition received (w : world) : bytes :=
  match (sys_read (reads w)).1 with
  | RSome b => take (Z.to_nat (threshold (session w))) b
  | _ => []
  end.

Definition read_fails (w : world) : bool :=
  match (sys_read (reads w)).1 with
  | RSome [] => true
  | RErr EAGAIN => false
  | RErr _ => true
  | _ => false
  end.

Lemma next_threshold_range full t :
  MIN_BUFFER_SIZE <= t <= MAX_BUFFER_SIZE -> MIN_BUFFER_SIZE <= next_threshold full t <= MAX_BUFFER_SIZE.
Proof.
  unfold next_threshold, MIN_BUFFER_SIZE, MAX_BUFFER_SIZE. intros Ht.
  rewrite Z.quot_div_nonneg by lia. destruct full; zcase; dlia.
Qed.

(** Session fields but the threshold. *)
Definition flags (s : ev_session) := (alive s, rio s, wio s, (read_cb s, write_cb s, event_cb s)).

Definition fresh_node (t : Z) : data_buffer := MkDb None None (Some (replicate (Z.to_nat t) (z2b 0))) t 0 0.

Lemma shape_ext_session F w w' L lf :
  heap w' = heap w -> brk w' = brk w -> freelist w' = freelist w ->
  input (session w') = input (session w) -> output (session w') = output (session w) ->
  shape F w L lf -> shape F w' L lf.
Proof. intros ? ? ? E1 E2. apply shape_ext; try done. intros []; simpl; by rewrite ?E1, ?E2. Qed.

Lemma wp_fill_buffer F w L lf p Q :
  shape (<[p := fresh_node (threshold (session w))]> F) w L lf ->
  MIN_BUFFER_SIZE <= threshold (session w) <= MAX_BUFFER_SIZE ->
  (sys_read (reads w)).1 <> RErr ENOERR ->
  (forall w' n, shape (<[p := n]> F) w' L lf -> core_ok (core n) -> content (core n) = received w -> rpos n = 0 ->
     next n = None -> input (session w') = input (session w) -> output (session w') = output (session w) ->
     flags (session w') = flags (session w) -> MIN_BUFFER_SIZE <= threshold (session w') <= MAX_BUFFER_SIZE ->
     writes w' = writes w -> sent w' = sent w -> Q (read_fails w) w') ->
  wpd (fill_buffer p) Q w.
Proof.
  intros Sh Ht Hno HQ. unfold fill_buffer, received, read_fails in *. do 2 wp_step.
  set (t := threshold (session w)) in *.
  destruct (shape_frame_lookup F w L lf p _ Sh) as [Hp _].
  assert (core_ok (core (fresh_node t))) as Hfresh.
  { eexists. split; [done|]. simpl. rewrite alen_replicate. lia. }
  assert (content (core (fresh_node t)) = []) as Hfc by done.
  destruct (sys_read (reads w)) as [a l]. simpl in *. wp_step. unfold set_reads. wp_step.
  set (w1 := MkWorld _ _ _ _ l _ _). assert (shape (<[p := fresh_node t]> F) w1 L lf) as Sh1
    by (eapply shape_ext_session; [..|done]; done).
  destruct a as [b|[]]; try (wp_step; by eapply (HQ w1 (fresh_node t))); [|done].
  wp_step. apply (wp_node_get p (fresh_node t)); [done|]. cbn [size wpos fresh_node]. rewrite Z.sub_0_r.
  set (n := Z.min (alen b) t). pose proof (alen_nonneg b). unfold MIN_BUFFER_SIZE, MAX_BUFFER_SIZE in Ht.
  wp_step. wp_step.
  set (w2 := MkWorld _ _ _ _ (if n <? alen b then _ else _) _ _).
  assert (shape (<[p := fresh_node t]> F) w2 L lf) as Sh2 by (eapply shape_ext_session; [..|done]; done).
  assert (take (Z.to_nat n) b = take (Z.to_nat t) b) as Etake.
  { unfold n. destruct (Z.min_spec (alen b) t) as [[? ->]|[? ->]]; [|done].
    rewrite alen_length in *. rewrite !take_ge by lia. done. }
  destruct (Z.eqb_spec n 0) as [Hn0|Hn0].
  { wp_step. assert (b = []) as -> by (apply alen_0; unfold n in Hn0; lia).
    rewrite take_nil in HQ. by eapply (HQ w2 (fresh_node t)). }
  assert (match b with [] => true | _ => false end = false) as Hb.
  { destruct b; [exfalso; apply Hn0; unfold n; rewrite alen_nil; lia|done]. }
  rewrite Hb in HQ.
  assert (alen (take (Z.to_nat n) b) = n) as Hlen by (apply alen_take; unfold n; lia).
  wp_step. wp_step; [done|]. wp_step.
  wp_step.
  { cbn [data fresh_node wpos]. replace (Z.to_nat t) with (Z.to_nat n + Z.to_nat (t - n))%nat by (unfold n; lia).
    rewrite replicate_add. apply (memcpy_mid [] (replicate (Z.to_nat n) (z2b 0)) _ (replicate (Z.to_nat (t - n)) (z2b 0)));
      [done|]. rewrite Hlen, alen_replicate. unfold n. lia. }
  wp_step. apply wp_node_set; [eauto|].
  set (nd := with_pos _ _ _). do 2 wp_step. wp_step. unfold session_set. wp_step. wp_step.
  pose proof (shape_frame_set F w2 L lf p (fresh_node t) nd Sh2) as Sh3.
  eapply (HQ _ nd); try done.
  - eapply shape_ext_session; [..|exact Sh3]; done.
  - eexists. split; [done|]. simpl. rewrite alen_app, Hlen, alen_replicate. unfold n. lia.
  - unfold content. simpl. rewrite drop_0, Z.sub_0_r, <- Etake.
    rewrite take_app_length'; [done|]. apply Nat2Z.inj. rewrite <- alen_length, Hlen. unfold n. lia.
  - simpl. by apply next_threshold_range.
Qed.

Lemma flags_ctl w w' : ctl w' = ctl w -> flags (session w') = flags (session w) /\
  threshold (session w') = threshold (session w) /\ reads w' = reads w /\ writes w' = writes w /\ sent w' = sent w.
Proof. unfold ctl, flags. intros H. split_and!; congruence. Qed.

(** Appending one node to a chain of a session in order. *)
Lemma sess_ok_append F w L lf d w' l' lf' n :
  sess_ok F w L lf -> shape F w' (upd d l' L) lf' -> cores l' = cores (L d) ++ [core n] -> core_ok (core n) ->
  (rpos n = 0 /\ wpos n <= MAX_BUFFER_SIZE) \/ d = Out -> content (core n) <> [] \/ d = In ->
  alen (stream (L d)) + alen (content (core n)) <= INT_MAX ->
  (forall d', d' <> d -> buf d' (session w') = buf d' (session w)) ->
  total (buf d (session w')) = total (buf d (session w)) + alen (content (core n)) ->
  MIN_BUFFER_SIZE <= threshold (session w') <= MAX_BUFFER_SIZE ->
  sess_ok F w' (upd d l' L) lf' /\ stream (upd d l' L d) = stream (L d) ++ content (core n) /\
  (forall d', d' <> d -> upd d l' L d' = L d').
Proof.
  intros [Sh Kok Kt Km Ks Kin Kout Kth Kcap] Sh' Ec Hok Hr Hne Hmax Hbuf Htot Hth.
  assert (stream l' = stream (L d) ++ content (core n)) as Est by by apply stream_cores.
  rewrite upd_eq. split; [|split; [done|intros; by apply upd_ne]].
  assert (l' <> []) as Hl' by (intros ->; by destruct (cores (L d))).
  split; [done| | | | | | |done|].
  - intros d'. destruct (decide (d' = d)) as [->|]; [rewrite upd_eq|by rewrite upd_ne].
    rewrite Ec. apply Forall_app. auto.
  - intros d'. destruct (decide (d' = d)) as [->|]; [rewrite upd_eq|by rewrite upd_ne, Hbuf].
    by rewrite Htot, Kt, Est, alen_app.
  - intros d'. destruct (decide (d' = d)) as [->|]; [rewrite upd_eq|by rewrite upd_ne].
    by rewrite Est, alen_app.
  - intros d'. destruct (decide (d' = d)) as [->|]; [by rewrite upd_eq|by rewrite upd_ne, Hbuf; auto].
  - destruct d; [|by rewrite upd_ne]. rewrite upd_eq, Ec. destruct (cores (L In)) as [|c k] eqn:E; [by simpl|].
    simpl in *. rewrite drop_0 in *. apply Forall_app. split; [done|]. apply Forall_cons. split; [|done].
    destruct Hr as [[? _]|]; [done|congruence].
  - destruct d; [by rewrite upd_ne|]. rewrite upd_eq, Ec. apply Forall_app. split; [done|].
    apply Forall_cons. split; [|done]. destruct Hne; [done|congruence].
  - destruct d; [|by rewrite upd_ne]. rewrite upd_eq, Ec. apply Forall_app. split; [done|].
    apply Forall_cons. split; [|done]. destruct Hr as [[_ ?]|]; [done|congruence].
Qed.

(** Changing the flags of a session. *)
Lemma sess_ok_ext F w w' L lf :
  sess_ok F w L lf -> heap w' = heap w -> brk w' = brk w -> freelist w' = freelist w ->
  input (session w') = input (session w) -> output (session w') = output (session w) ->
  threshold (session w') = threshold (session w) -> sess_ok F w' L lf.
Proof.
  intros [Sh Kok Kt Km Ks Kin Kout Kth Kcap] E1 E2 E3 E4 E5 E6.
  assert (forall d, buf d (session w') = buf d (session w)) as Eb by (by intros []).
  split; try done; [by eapply shape_ext_session|intros d; by rewrite Eb|intros d; rewrite Eb; auto|by rewrite E6].
Qed.

Lemma wp_fail_session w Q :
  (forall w', heap w' = heap w -> brk w' = brk w -> freelist w' = freelist w ->
     session w' = with_alive 0 (with_watch false false (session w)) -> reads w' = reads w -> writes w' = writes w ->
     sent w' = sent w -> Q (if event_cb (session w) then Some CallEvent else None) w') ->
  wpd fail_session Q w.
Proof.
  intros HQ. unfold fail_session, ev_session_disable, session_set. do 2 wp_step. wp_step. wp_step. wp_step. wp_step.
  wp_step. wp_step. wp_step. simpl. rewrite !andb_false_r. by apply HQ.
Qed.

Lemma wp_ev_read_cb F w L lf Q :
  sess_ok F w L lf -> (sys_read (reads w)).1 <> RErr ENOERR ->
  alen (stream (L In)) + MAX_BUFFER_SIZE <= INT_MAX ->
  (forall cb w' L' lf', sess_ok F w' L' lf' -> stream (L' In) = stream (L In) ++ received w ->
     L' Out = L Out -> writes w' = writes w -> sent w' = sent w ->
     (if read_fails w
      then alive (session w') = 0 /\ rio (session w') = false /\ wio (session w') = false /\
           cb = (if event_cb (session w) then Some CallEvent else None)
      else flags (session w') = flags (session w) /\
           cb = (if read_cb (session w) then Some CallRead else None)) -> Q cb w') ->
  wpd ev_read_cb Q w.
Proof.
  intros K Hno Hmax HQ. pose proof (so_threshold _ _ _ _ K) as Hth. unfold ev_read_cb. wp_step.
  apply (wp_buffer_next F w L lf); [apply K|]. intros p w1 lf1 Sh1 HF Hc1 Es1.
  destruct (shape_frame_lookup F w1 L lf1 p _ Sh1) as [Hp _].
  do 2 wp_step. wp_step. apply (wp_node_get p empty_node); [done|]. wp_step. apply wp_node_set; [by eexists|]. simpl.
  set (t := threshold (session w1)). pose proof (shape_frame_set F w1 L lf1 p empty_node (fresh_node t) Sh1) as Sh2.
  set (w2 := upd_heap _ w1) in *. apply flags_ctl in Hc1 as (Hf1 & Ht1 & Hr1 & Hw1 & Hs1).
  assert (received w2 = received w /\ read_fails w2 = read_fails w) as [Erec Efail].
  { unfold received, read_fails. simpl. by rewrite Hr1, Ht1. }
  wp_step. apply (wp_fill_buffer F w2 L lf1 p); [done|simpl; lia|simpl; by rewrite Hr1|].
  intros w3 n Sh3 Hok Hcont Hrpos Hnext Ein Eout Hf3 Ht3 Hw3 Hs3. rewrite Erec, Efail in *.
  pose proof (alen_content _ Hok) as Hlc. simpl in Hlc.
  assert (alen (content (core n)) <= MAX_BUFFER_SIZE) as Hlmax.
  { rewrite Hcont. unfold received. destruct (sys_read (reads w)).1; [|rewrite alen_nil; unfold MAX_BUFFER_SIZE; lia].
    rewrite alen_length, length_take. unfold MIN_BUFFER_SIZE in *. lia. }
  assert (forall d, buf d (session w3) = buf d (session w)) as Hb3.
  { intros []; simpl; [rewrite Ein|rewrite Eout]; simpl; by rewrite Es1. }
  wp_step. apply (wp_buffer_append F w3 L lf1 In p n); [done|done|done| | |].
  { rewrite Hb3. apply K. }
  { rewrite Hb3, (so_total _ _ _ _ K), <- Hlc. lia. }
  intros w4 l' Sh4 Ec Hc4 Hb4 Htot. apply flags_ctl in Hc4 as (Hf4 & Ht4 & Hr4 & Hw4 & Hs4).
  destruct (sess_ok_append F w L lf In w4 l' lf1 n) as (K4 & Est & Hother); try done.
  { left. lia. } { by right. } { lia. }
  { intros d' Hne. by rewrite Hb4, Hb3. } { rewrite Htot, Hb3, Hlc. done. } { by rewrite Ht4. }
  rewrite Hcont in Est.
  assert (flags (session w4) = flags (session w)) as Hf by (rewrite Hf4, Hf3; simpl; by rewrite Es1).
  destruct (read_fails w) eqn:Ef.
  - apply wp_fail_session. intros w5 E1 E2 E3 Es5 Er5 Ew5 Esent5.
    apply (HQ _ w5 (upd In l' L) lf1); [|done|by apply Hother|by rewrite Ew5, Hw4, Hw3|by rewrite Esent5, Hs4, Hs3|].
    + eapply sess_ok_ext; [exact K4|..]; try done; by rewrite Es5.
    + rewrite Es5. simpl. split_and!; [done..|].
      by assert (event_cb (session w4) = event_cb (session w)) as -> by (unfold flags in Hf; congruence).
  - do 3 wp_step. apply (HQ _ w4 (upd In l' L) lf1); [done|done|by apply Hother|by rewrite Hw4, Hw3|by rewrite Hs4, Hs3|].
    split; [done|].
    by assert (read_cb (session w4) = read_cb (session w)) as -> by (unfold flags in Hf; congruence).
Qed.

(** *** Writing *)

Lemma sys_write_spec l d t r took l' :
  sys_write l d t = (r, took, l') -> 0 <= t ->
  took `prefix_of` d /\ (r = -1 \/ r = t + alen took).
Proof.
  revert d t r took l'. induction l as [|a l IH]; intros d t r took l' E Ht; simpl in E.
  { injection E as <- <- <-. split; [apply prefix_nil|right; rewrite alen_nil; lia]. }
  destruct a as [n|[]]; try (injection E as <- <- <-; split; [apply prefix_nil|]; rewrite alen_nil; lia); [|by eapply IH].
  set (sz := Z.min (Z.max 0 n) (alen d)) in *. pose proof (alen_nonneg d).
  destruct (Z.eqb_spec sz 0) as [Hz|Hz].
  { injection E as <- <- <-. split; [apply prefix_nil|by left]. }
  destruct (Z.eqb_spec (alen d - sz) 0) as [Hall|Hpart].
  { injection E as <- <- <-. split; [done|right; lia]. }
  destruct (sys_write l _ _) as [[r1 more] l1] eqn:E1. injection E as <- <- <-.
  destruct (IH _ _ _ _ _ E1 ltac:(lia)) as [[k Hk] Hr].
  split.
  - exists k. by rewrite <- app_assoc, <- Hk, take_drop.
  - rewrite alen_app, alen_take by lia. lia.
Qed.

Lemma wp_socket_write d w Q :
  (forall r took rest l', d = took ++ rest -> r = -1 \/ r = alen took ->
     Q r (MkWorld (heap w) (brk w) (freelist w) (session w) (reads w) l' (sent w ++ took))) ->
  wpd (socket_write d) Q w.
Proof.
  intros HQ. unfold socket_write. do 2 wp_step. destruct (sys_write (writes w) d 0) as [[r took] l'] eqn:E.
  destruct (sys_write_spec _ _ _ _ _ _ E ltac:(lia)) as [[rest Hd] Hr]. do 3 wp_step. by eapply HQ.
Qed.

Lemma shape_retail F w L lf d b :
  shape F w L lf -> L d = [] -> head b = None -> shape F (upd_buf d b w) L lf.
Proof.
  intros Sh Ed Eh. split; simpl; try apply Sh.
  - intros d'. destruct (decide (d' = d)) as [->|]; [|rewrite buf_with_buf_ne by done; apply Sh].
    by rewrite buf_with_buf, Ed, Eh.
  - intros d'. destruct (decide (d' = d)) as [->|]; [by left|]. rewrite buf_with_buf_ne by done. apply Sh.
Qed.

Lemma shape_retotal F w L lf d b :
  shape F w L lf -> head b = head (buf d (session w)) -> tail b = tail (buf d (session w)) ->
  shape F (upd_buf d b w) L lf.
Proof.
  intros Sh Eh Et. eapply shape_ext; [..|exact Sh]; try done. intros d'. simpl.
  destruct (decide (d' = d)) as [->|]; [by rewrite buf_with_buf|by rewrite buf_with_buf_ne].
Qed.

(** What does not change when the output is sent. *)
Record sending (F : gmap Z data_buffer) (w0 : world) (L0 : side -> nodes)
    (w : world) (L : side -> nodes) (lf : nodes) : Prop := {
  sd_ok : sess_ok F w L lf;
  sd_in : L In = L0 In;
  sd_flags : flags (session w) = flags (session w0);
  sd_sent : sent w ++ stream (L Out) = sent w0 ++ stream (L0 Out)
}.

Definition failed (w0 w : world) (cb : option callback) : Prop :=
  alive (session w) = 0 /\ rio (session w) = false /\ wio (session w) = false /\
  cb = (if event_cb (session w0) then Some CallEvent else None).

(** The output after its first buffer was sent in part or in whole. *)
Lemma sess_ok_sent_part F w L lf p db l k w1 :
  sess_ok F w L lf -> L Out = (p, db) :: l -> 0 <= k < wpos db - rpos db ->
  heap w1 = heap w -> brk w1 = brk w -> freelist w1 = freelist w -> session w1 = session w ->
  let b := output (session w) in
  let db' := with_pos (wpos db) (rpos db + k) db in
  let w2 := upd_heap (<[p := db']> (heap w1)) (upd_buf Out (MkBuf (head b) (tail b) (total b - k)) w1) in
  sess_ok F w2 (upd Out ((p, db') :: l) L) lf /\
  stream ((p, db') :: l) = drop (Z.to_nat k) (stream (L Out)).
Proof.
  intros [Sh Kok Kt Km Ks Kin Kout Kth Kcap] E Hk E1 E2 E3 Es b db' w2.
  pose proof (Kok Out) as Hok. rewrite E, cores_cons in Hok. apply Forall_cons in Hok as [Hcok Hok].
  destruct (Hcok) as (d & Hd & Hr & Hw). simpl in Hd, Hr, Hw.
  assert (core db = (Some d, wpos db, rpos db)) as Ec by (unfold core; by rewrite Hd).
  assert (core db' = (Some d, wpos db, rpos db + k)) as Ec' by (unfold core; simpl; by rewrite Hd).
  rewrite Ec in Hcok. pose proof (alen_content _ Hcok) as Hlen. simpl in Hlen.
  destruct (slice_content_prefix d (wpos db) (rpos db) k Hcok ltac:(lia)) as [_ Hrest].
  assert (core_ok (core db')) as Hcok' by (rewrite Ec'; exists d; simpl; split_and!; done || lia).
  assert (stream ((p, db') :: l) = drop (Z.to_nat k) (stream (L Out))) as Est.
  { rewrite E, !stream_cons, Ec, Ec', Hrest. rewrite alen_length in Hlen. by rewrite drop_app_le by lia. }
  split; [|done]. pose proof (Kt Out) as Ht. simpl in Ht. fold b in Ht.
  assert (k <= alen (stream (L Out))) as Hkl.
  { rewrite E, stream_cons, alen_app, Ec, Hlen. pose proof (alen_nonneg (stream l)). lia. }
  assert (alen (drop (Z.to_nat k) (stream (L Out))) = alen (stream (L Out)) - k) as Hdl by (apply alen_drop; lia).
  assert (shape F w1 L lf) as Sh1 by (eapply shape_ext_session; [..|exact Sh]; rewrite ?Es; done).
  split.
  - assert (shape F (upd_buf Out (MkBuf (head b) (tail b) (total b - k)) w1) L lf) as Sh2
      by (apply shape_retotal; [done| |]; simpl; by rewrite Es).
    by apply (shape_head_set F _ L lf Out p db db' l Sh2 E).
  - intros []; [by rewrite upd_ne|]. rewrite upd_eq, cores_cons. by apply Forall_cons.
  - intros []; simpl; [rewrite Es; apply (Kt In)|]. by rewrite upd_eq, Est, Hdl, Ht.
  - intros []; [rewrite upd_ne by done; apply Km|]. rewrite upd_eq, Est, Hdl. pose proof (Km Out). lia.
  - intros []; simpl; [rewrite Es, upd_ne by done; apply (Ks In)|by rewrite upd_eq].
  - done.
  - rewrite upd_eq, cores_cons. rewrite E, cores_cons in Kout. apply Forall_cons in Kout as [_ Kout].
    apply Forall_cons. split; [|done]. intros Hnil%(f_equal alen). rewrite alen_content, alen_nil, Ec' in Hnil by done.
    simpl in Hnil. lia.
  - simpl. by rewrite Es.
  - done.
Qed.

Lemma sess_ok_sent_whole F w L lf p db l w3 lf3 L3 b3 :
  sess_ok F w L lf -> L Out = (p, db) :: l -> shape F w3 L3 lf3 ->
  L3 In = L In -> L3 Out = l -> input (session w3) = input (session w) -> output (session w3) = b3 ->
  total b3 = total (output (session w)) - (wpos db - rpos db) -> (l = [] -> tail b3 = None) ->
  threshold (session w3) = threshold (session w) ->
  sess_ok F w3 L3 lf3 /\ stream (L Out) = content (core db) ++ stream (L3 Out).
Proof.
  intros [Sh Kok Kt Km Ks Kin Kout Kth Kcap] E Sh3 Ein Eout Ei Eo Etot Etail Eth.
  pose proof (Kok Out) as Hok. rewrite E, cores_cons in Hok. apply Forall_cons in Hok as [Hcok Hok].
  pose proof (alen_content _ Hcok) as Hlen. simpl in Hlen.
  assert (stream (L Out) = content (core db) ++ stream (L3 Out)) as Est by (by rewrite E, Eout, stream_cons).
  assert (alen (stream (L3 Out)) = alen (stream (L Out)) - (wpos db - rpos db)) as Hl
    by (rewrite Est, alen_app; lia).
  split; [|done]. split.
  - done.
  - intros []; [rewrite Ein; apply Kok|by rewrite Eout].
  - intros []; simpl; [rewrite Ei, Ein; apply (Kt In)|]. rewrite Eo, Etot, Hl. f_equal. apply (Kt Out).
  - intros []; [rewrite Ein; apply Km|]. rewrite Hl. pose proof (Km Out).
    destruct Hcok as (? & _ & ? & _). simpl in *. lia.
  - intros []; simpl; [rewrite Ei, Ein; apply (Ks In)|]. rewrite Eo, Eout. done.
  - by rewrite Ein.
  - rewrite Eout. rewrite E, cores_cons in Kout. by apply Forall_cons in Kout as [_ Kout].
  - by rewrite Eth.
  - by rewrite Ein.
Qed.

(** The end of a round of [_ev_write_cb] that sent a whole buffer. *)
Lemma wp_sent_whole F w L lf p db l w1 (Q : unit + option (option callback) -> world -> Prop) :
  sess_ok F w L lf -> L Out = (p, db) :: l ->
  heap w1 = heap w -> brk w1 = brk w -> freelist w1 = freelist w ->
  session w1 = with_buf Out (MkBuf (head (output (session w))) (tail (output (session w)))
                               (total (output (session w)) - (wpos db - rpos db))) (session w) ->
  (forall r w' L' lf', sess_ok F w' L' lf' -> L' In = L In -> L' Out = l ->
     flags (session w') = flags (session w) -> reads w' = reads w1 -> writes w' = writes w1 -> sent w' = sent w1 ->
     r = (match l with [] => inr None | _ => inl tt end) -> Q r w') ->
  wpd (node_set p (with_data None db);;
       set_buf Out (MkBuf (next db) (tail (output (session w))) (total (output (session w)) - (wpos db - rpos db)));;
       buffer_reclaim p;;
       match next db with
       | None => set_buf Out (MkBuf None None (total (output (session w)) - (wpos db - rpos db)));; mret (inr None)
       | Some _ => mret (inl tt)
       end) Q w1.
Proof.
  intros K E E1 E2 E3 Es HQ. set (tot := total (output (session w)) - (wpos db - rpos db)) in *.
  pose proof (so_shape _ _ _ _ K) as Sh.
  assert (shape F w1 L lf) as Sh1.
  { eapply shape_ext; [..|exact Sh]; try done. intros []; by rewrite Es. }
  assert (heap w1 !! p = Some db) as Hp.
  { eapply lseg_lookup; [apply (sh_seg _ _ _ _ Sh1 Out)|]. rewrite E. by left. }
  pose proof (sh_seg _ _ _ _ Sh1 Out) as Hseg. rewrite E in Hseg. pose proof (lseg_end _ _ _ _ _ Hseg) as Hend.
  wp_step. apply wp_node_set; [by eexists|].
  pose proof (shape_head_set F w1 L lf Out p db (with_data None db) l Sh1 E eq_refl) as Sh2.
  wp_step. apply wp_set_buf.
  destruct (shape_pop F _ _ lf Out p (with_data None db) l (MkBuf (next db) (tail (output (session w))) tot) Sh2
    (upd_eq _ _ _) eq_refl) as [Sh3 HF].
  { destruct l; [by left|]. right. simpl.
    destruct (sh_tail _ _ _ _ Sh Out) as [Ht|Ht]; rewrite E in Ht; [done|]. simpl in Ht. by rewrite Ht. }
  wp_step. eapply wp_buffer_reclaim; [exact Sh3|done|]. intros w4 lf4 Sh4 Hc4 Es4.
  assert (ctl w4 = ctl w1) as Hc by (rewrite Hc4; by rewrite ctl_upd_buf).
  apply flags_ctl in Hc as (Hf4 & Ht4 & Hr4 & Hw4 & Hsn4).
  set (L4 := upd Out l (upd Out ((p, with_data None db) :: l) L)) in *.
  assert (flags (session w4) = flags (session w)) as Hf by (rewrite Hf4, Es; done).
  destruct (next db) as [q|] eqn:En.
  - assert (l <> []) as Hl by (intros ->; naive_solver). wp_step.
    destruct (sess_ok_sent_whole F w L lf p db l w4 lf4 L4 (MkBuf (Some q) (tail (output (session w))) tot))
      as [K4 _]; try done.
    { rewrite Es4. simpl. by rewrite Es. } { by rewrite Es4. } { by rewrite Ht4, Es. }
    eapply (HQ _ w4 L4 lf4); try done. by destruct l.
  - assert (l = []) as -> by naive_solver. wp_step. apply wp_set_buf. wp_step.
    pose proof (shape_retail F w4 L4 lf4 Out (MkBuf None None tot) Sh4 eq_refl eq_refl) as Sh5.
    destruct (sess_ok_sent_whole F w L lf p db [] _ lf4 L4 (MkBuf None None tot) K E Sh5)
      as [K5 _]; try done.
    { simpl. rewrite Es4. simpl. by rewrite Es. } { simpl. by rewrite Ht4, Es. }
    by eapply (HQ _ _ L4 lf4).
Qed.

Lemma wp_write_round F w L lf :
  sess_ok F w L lf ->
  wpd (write_round tt) (fun r w' => match r with
    | inl _ => exists L' lf', sending F w L w' L' lf' /\ (length (L' Out) < length (L Out))%nat
    | inr None => exists L' lf', sending F w L w' L' lf' /\ L' Out = []
    | inr (Some cb) => exists L' lf', sess_ok F w' L' lf' /\ L' In = L In /\
        ((failed w w' cb /\ L' = L /\ sent w' `prefix_of` sent w ++ stream (L Out)) \/ (sending F w L w' L' lf' /\ L' Out <> [] /\ cb = None))
    end) w.
Proof.
  intros K. unfold write_round. do 2 wp_step. pose proof (so_shape _ _ _ _ K) as Sh.
  pose proof (sh_seg _ _ _ _ Sh Out) as Hseg. simpl in Hseg.
  destruct (L Out) as [|[p db] l] eqn:E.
  { simpl in Hseg. rewrite Hseg. wp_step. exists L, lf. done. }
  destruct Hseg as (Hh & Hp & Hl). rewrite Hh.
  pose proof (so_ok _ _ _ _ K Out) as Hok. rewrite E, cores_cons in Hok. apply Forall_cons in Hok as [Hcok _].
  destruct (Hcok) as (d & Hd & Hr & Hw). simpl in Hd, Hr, Hw.
  assert (core db = (Some d, wpos db, rpos db)) as Ec by (unfold core; by rewrite Hd). rewrite Ec in Hcok.
  pose proof (alen_content _ Hcok) as Hlen. simpl in Hlen.
  wp_step. apply (wp_node_get p db); [done|]. wp_step. wp_step; [done|]. wp_step. wp_step; [by apply slice_content|].
  wp_step. apply wp_socket_write. intros t took rest l' Etk Ht. set (w1 := MkWorld _ _ _ _ _ l' _).
  assert (sess_ok F w1 L lf) as K1 by (by eapply sess_ok_ext).
  destruct (Z.ltb_spec t 0) as [Hneg|Hpos].
  { wp_step. apply wp_fail_session. intros w2 E1 E2 E3 Es2 _ _ Esn. wp_step. exists L, lf.
    split_and!; [eapply sess_ok_ext; [exact K1|..]; try done; by rewrite Es2|done|]. left.
    split_and!; [unfold failed; by rewrite Es2|done|]. rewrite Esn, stream_cons, Ec, Etk. simpl.
    rewrite <- (app_assoc took). apply prefix_app. by apply prefix_app_r. }
  assert (t = alen took) as -> by (pose proof (alen_nonneg took); lia).
  rewrite Etk, alen_app in Hlen. pose proof (alen_nonneg rest). pose proof (alen_nonneg took).
  wp_step. apply wp_set_buf. destruct (Z.eqb_spec (alen took) (wpos db - rpos db)) as [Hfull|Hpart].
  - rewrite Hfull, <- Hh. apply (wp_sent_whole F w1 L lf p db l); try done.
    intros r w' L' lf' K' Ein Eout Hf Er Ew Esn ->.
    assert (rest = []) as -> by (apply alen_0; lia). rewrite app_nil_r in Etk.
    assert (sending F w L w' L' lf') as Hs.
    { split; try done. rewrite Esn, Eout, E, stream_cons, Ec, Etk. simpl. by rewrite app_assoc. }
    destruct l; exists L', lf'; (split; [done|]); rewrite Eout; simpl; done || lia.
  - wp_step. apply wp_node_set; [by eexists|]. wp_step.
    destruct (sess_ok_sent_part F w L lf p db l (alen took) w1) as [K2 Est]; try done; [lia|].
    rewrite <- Hh. eexists _, lf. split; [exact K2|]. split; [done|]. right. rewrite upd_eq. split_and!; [|done|done].
    split; [exact K2|done|done|]. rewrite upd_eq, Est, E, stream_cons, Ec, Etk. simpl.
    rewrite alen_length, Nat2Z.id, <- (app_assoc took), drop_app_length, !app_assoc. done.
Qed.

Lemma stream_out_nil l : Forall (fun c => content c <> []) (cores l) -> stream l = [] -> l = [].
Proof.
  destruct l as [|[a n] l]; [done|]. rewrite cores_cons, stream_cons. intros [H _]%Forall_cons [E _]%app_eq_nil. done.
Qed.

Lemma wp_ev_write_cb F w L lf :
  sess_ok F w L lf ->
  wpd ev_write_cb (fun cb w' => exists L' lf', sess_ok F w' L' lf' /\ L' In = L In /\
    sent w' `prefix_of` sent w ++ stream (L Out) /\
    (failed w w' cb \/
     (alive (session w') = alive (session w) /\ sent w' ++ stream (L' Out) = sent w ++ stream (L Out) /\
      ((stream (L' Out) = [] /\ wio (session w') = false /\
        cb = if write_cb (session w) then Some CallWrite else None) \/
       (stream (L' Out) <> [] /\ wio (session w') = wio (session w) /\ cb = None))))) w.
Proof.
  intros K. unfold ev_write_cb. wp_step. wp_step. wp_step.
  apply (wp_mono _ (fun r w' => match r with
    | None => exists L' lf', sending F w L w' L' lf' /\ L' Out = []
    | Some cb => exists L' lf', sess_ok F w' L' lf' /\ L' In = L In /\ sent w' `prefix_of` sent w ++ stream (L Out) /\
        (failed w w' cb \/ (sending F w L w' L' lf' /\ L' Out <> [] /\ cb = None)) end)).
  - apply (wp_loop_rank (fun k (_ : unit) w' => exists L' lf', sending F w L w' L' lf' /\ k = length (L' Out))
      _ _ _ _ (length (L Out))).
    + intros k [] w1 (L1 & lf1 & S1 & ->). destruct (S1) as [K1 Ein1 Hf1 Hs1].
      eapply wp_mono; [by apply (wp_write_round F w1 L1 lf1)|].
      assert (forall w2 L2 lf2, sending F w1 L1 w2 L2 lf2 -> sending F w L w2 L2 lf2) as Htr.
      { intros w2 L2 lf2 []. split; [done|congruence|congruence|congruence]. }
      intros [[]|[cb|]] w2.
      * intros (L2 & lf2 & S2 & Hlt). eauto 8.
      * intros (L2 & lf2 & K2 & Ein2 & [(Hfail & -> & Hpre)|(S2 & Hne & ->)]).
        -- exists L1, lf2. split_and!; [done|done|by rewrite <- Hs1|]. left. unfold failed in *.
           assert (event_cb (session w1) = event_cb (session w)) as <- by (unfold flags in Hf1; congruence). done.
        -- exists L2, lf2. pose proof (Htr _ _ _ S2) as S2'. split_and!; [done|congruence| |by right; auto].
           destruct S2' as [_ _ _ <-]. by apply prefix_app_r.
      * intros (L2 & lf2 & S2 & Hnil). eauto.
    + exists L, lf. done.
    + apply (shape_fuel _ _ _ _ (so_shape _ _ _ _ K)).
  - intros [cb|] w1.
    + intros (L1 & lf1 & K1 & Ein & Hpre & Hor). wp_step. exists L1, lf1. split_and!; [done|done|done|].
      destruct Hor as [Hfail|([_ _ Hf Hs] & Hne & ->)]; [by left|right].
      split_and!; [unfold flags in Hf; congruence|done|]. right. split_and!; [|unfold flags in Hf; congruence|done].
      intros Hnil. apply Hne. by apply stream_out_nil; [apply K1|].
    + intros (L1 & lf1 & [K1 Ein Hf Hs] & Hnil). unfold ev_session_disable, session_set. do 2 wp_step. wp_step.
      wp_step. do 2 wp_step. wp_step. wp_step.
      { apply Z.eqb_eq. pose proof (so_total _ _ _ _ K1 Out) as Ht. simpl in Ht |- *. by rewrite Ht, Hnil. }
      wp_step. exists L1, lf1. rewrite Hnil in *. simpl.
      split_and!; [by eapply sess_ok_ext|done| |].
      * rewrite <- Hs. by apply prefix_app_r.
      * right. split_and!; [unfold flags in Hf; congruence|done|]. left. rewrite andb_false_r. split_and!; [done|done|].
        by assert (write_cb (session w1) = write_cb (session w)) as -> by (unfold flags in Hf; congruence).
Qed.

Lemma wp_queue_output F w L lf d r Q :
  sess_ok F w L lf -> 0 <= r < alen d -> alen (stream (L Out)) + (alen d - r) <= INT_MAX ->
  (forall w' L' lf', sess_ok F w' L' lf' -> L' In = L In -> stream (L' Out) = stream (L Out) ++ drop (Z.to_nat r) d ->
     ctl w' = ctl w -> Q tt w') ->
  wpd (queue_output d r) Q w.
Proof.
  intros K Hr Hmax HQ. unfold queue_output. wp_step. apply (wp_buffer_next F w L lf); [apply K|].
  intros p w1 lf1 Sh1 HF Hc1 Es1. destruct (shape_frame_lookup F w1 L lf1 p _ Sh1) as [Hp _].
  wp_step. apply (wp_node_get p empty_node); [done|]. wp_step. apply wp_node_set; [by eexists|]. simpl.
  set (n := MkDb None None (Some d) (alen d) (alen d) r).
  pose proof (shape_frame_set F w1 L lf1 p empty_node n Sh1) as Sh2.
  assert (core_ok (core n)) as Hok by (exists d; simpl; split_and!; done || lia).
  assert (content (core n) = drop (Z.to_nat r) d) as Hcont.
  { unfold content. simpl. apply take_ge. rewrite length_drop, alen_length in *. lia. }
  pose proof (alen_content _ Hok) as Hlen. simpl in Hlen.
  eapply (wp_buffer_append F _ L lf1 Out p n); [exact Sh2|done|done| | |]; simpl; rewrite ?Es1.
  { apply (so_settled _ _ _ _ K Out). }
  { pose proof (so_total _ _ _ _ K Out) as Ht. simpl in Ht. rewrite Ht. lia. }
  intros w3 l' Sh3 Ec Hc3 Hb3 Htot.
  pose proof (flags_ctl _ _ Hc1) as (_ & Ht1 & _). pose proof (flags_ctl _ _ Hc3) as (_ & Ht3 & _).
  destruct (sess_ok_append F w L lf Out w3 l' lf1 n) as (K3 & Est & Hother); try done.
  { by right. } { left. intros Hnil%(f_equal alen). rewrite Hlen, alen_nil in Hnil. lia. } { lia. }
  { simpl. rewrite Htot, Hlen. done. }
  { rewrite Ht3. simpl. rewrite Ht1. apply K. }
  rewrite Hcont in Est. eapply (HQ w3); [exact K3|by apply Hother|done|]. by rewrite Hc3, <- Hc1.
Qed.

Lemma wp_ev_session_write F w L lf d :
  sess_ok F w L lf -> alive (session w) <> 0 -> (wio (session w) = false -> stream (L Out) = []) ->
  0 < alen d -> alen (stream (L Out)) + alen d <= INT_MAX ->
  wpd (ev_session_write d) (fun '(r, cb) w' => exists L' lf', sess_ok F w' L' lf' /\ L' In = L In /\
    ((r = -1 /\ failed w w' cb /\ L' = L /\ sent w' `prefix_of` sent w ++ stream (L Out) ++ d) \/
     (0 <= r /\ alive (session w') = alive (session w) /\
      sent w' ++ stream (L' Out) = sent w ++ stream (L Out) ++ d /\
      (wio (session w') = false -> stream (L' Out) = []) /\
      (cb = None \/ stream (L' Out) = [] /\ cb = Some CallWrite)))) w.
Proof.
  intros K Ha Hwio Hd Hmax. unfold ev_session_write. do 2 wp_step. rewrite (proj2 (Z.eqb_neq _ _)) by done.
  destruct (wio (session w)) eqn:Ew; simpl.
  - wp_step. apply (wp_queue_output F w L lf); [done|lia|lia|]. intros w1 L1 lf1 K1 Ein Est Hc. wp_step.
    apply flags_ctl in Hc as (Hf & _ & _ & _ & Hs). exists L1, lf1. split_and!; [done|done|]. right.
    rewrite Hs, Est, drop_0. unfold flags in Hf. split_and!; [lia|congruence|done|congruence|by left].
  - specialize (Hwio eq_refl). rewrite Hwio in *. change (alen []) with 0 in Hmax. simpl.
    wp_step. apply wp_socket_write. intros t took rest l' -> Ht. set (w1 := MkWorld _ _ _ _ _ l' _).
    assert (sess_ok F w1 L lf) as K1 by (by eapply sess_ok_ext).
    pose proof (alen_nonneg took). pose proof (alen_nonneg rest). rewrite alen_app in *.
    destruct (Z.ltb_spec t 0) as [Hneg|Hpos].
    { wp_step. apply wp_fail_session. intros w2 E1 E2 E3 Es2 _ _ Esn. wp_step. exists L, lf.
      split_and!; [eapply sess_ok_ext; [exact K1|..]; try done; by rewrite Es2|done|]. left.
      split_and!; [done|unfold failed; by rewrite Es2|done|]. rewrite Esn. simpl.
      apply prefix_app. by apply prefix_app_r. }
    assert (t = alen took) as -> by lia. destruct (Z.eqb_spec (alen took) (alen took + alen rest)) as [Hall|Hpart].
    + wp_step. assert (rest = []) as -> by (apply alen_0; lia). exists L, lf. split_and!; [done|done|]. right.
      rewrite Hwio, !app_nil_r. split_and!; [done|done|done|done|].
      simpl. destruct (write_cb (session w)); [by right|by left].
    + wp_step. apply (wp_queue_output F w1 L lf); [done|rewrite alen_app; lia|rewrite Hwio, alen_nil, alen_app; lia|].
      intros w2 L2 lf2 K2 Ein Est Hc. apply flags_ctl in Hc as (Hf & Htr & _ & _ & Hs).
      unfold ev_session_enable, session_set. do 2 wp_step. wp_step. wp_step. wp_step.
      exists L2, lf2. split_and!; [by eapply sess_ok_ext|done|]. right. simpl.
      rewrite Est, Hwio, Hs, orb_true_r. simpl. rewrite alen_length, Nat2Z.id, drop_app_length, <- app_assoc.
      unfold flags in Hf. split_and!; [lia|simpl in Hf; congruence|done|done|by left].
Qed.

(** *** Releasing *)

Lemma lseg_start h p l : lseg h p l -> p = l.*1 !! 0%nat.
Proof. destruct l as [|[a n] l]; [done|]. by intros [-> _]. Qed.

Lemma shape_lists F w L L' lf : (forall d, L' d = L d) -> shape F w L lf -> shape F w L' lf.
Proof.
  intros E Sh. assert (owned L' lf = owned L lf) as Eo by (unfold owned; by rewrite !E).
  split; rewrite ?Eo; try apply Sh; intros d; rewrite E; apply Sh.
Qed.

Lemma shape_upd_id F w L lf d : shape F w L lf -> shape F w (upd d (L d) L) lf.
Proof. apply shape_lists. intros d'. unfold upd. by case_decide; subst. Qed.

Lemma shape_upd_upd F w L lf d l l' : shape F w (upd d l (upd d l' L)) lf -> shape F w (upd d l L) lf.
Proof. apply shape_lists. intros d'. unfold upd. by case_decide. Qed.

(** [buffer_release] frees the nodes of one chain and nothing else. *)
Lemma wp_buffer_release F w L lf d Q :
  shape F w L lf ->
  (forall w', shape F w' (upd d [] L) lf -> ctl w' = ctl w ->
     (forall a, heap w' !! a = if decide (a ∈ (L d).*1) then None else heap w !! a) -> Q tt w') ->
  wpd (buffer_release d) Q w.
Proof.
  intros Sh HQ. unfold buffer_release. wp_step. wp_step.
  apply (wp_loop_rank (fun k (_ : unit) w' => exists l1 l2, L d = l1 ++ l2 /\ k = length l2 /\
    shape F w' (upd d l2 L) lf /\ ctl w' = ctl w /\
    (forall a, heap w' !! a = if decide (a ∈ l1.*1) then None else heap w !! a)) _ _ _ _ (length (L d))).
  - intros k [] w1 (l1 & l2 & El & -> & Sh1 & Hc1 & Hh1). do 2 wp_step.
    pose proof (sh_seg _ _ _ _ Sh1 d) as Hs. rewrite upd_eq in Hs. destruct l2 as [|[p n] l2].
    + simpl in Hs. rewrite Hs. wp_step. rewrite app_nil_r in El. apply HQ; [done|done|]. by rewrite El.
    + destruct Hs as (Hh & Hp & Hl). rewrite Hh. wp_step. apply (wp_node_get p n); [done|].
      wp_step. apply wp_set_buf. set (b := MkBuf _ _ _).
      destruct (shape_pop F w1 _ lf d p n l2 b Sh1 (upd_eq _ _ _) eq_refl) as [Sh2 HF].
      { destruct l2; [by left|right]. simpl.
        destruct (sh_tail _ _ _ _ Sh1 d) as [Ht|Ht]; rewrite upd_eq in Ht; [done|]. by rewrite Ht. }
      wp_step. apply wp_node_free; [by exists n|]. wp_step. exists (length l2). split; [simpl; lia|].
      exists (l1 ++ [(p, n)]), l2. rewrite <- app_assoc. split_and!; [done|done| | |].
      * pose proof (shape_delete F _ _ lf p n Sh2 HF) as Sh3. eapply shape_upd_upd. exact Sh3.
      * by rewrite <- Hc1, <- (ctl_upd_buf d b w1).
      * intros a. simpl. rewrite fmap_app. simpl. destruct (decide (a = p)) as [->|Hne].
        -- rewrite lookup_delete_eq, decide_True; [done|]. apply elem_of_app. right. by left.
        -- rewrite lookup_delete_ne, Hh1 by done. apply decide_ext.
           rewrite elem_of_app, list_elem_of_singleton. naive_solver.
  - exists [], (L d). split_and!; [done|done| |done|].
    + eapply shape_upd_id. exact Sh.
    + intros a. rewrite decide_False; [done|]. simpl. by apply not_elem_of_nil.
  - apply (shape_fuel _ _ _ _ Sh).
Qed.

(** [ev_session_free] deletes the nodes of the two chains. *)
Lemma wp_ev_session_free F w L lf Q :
  sess_ok F w L lf ->
  (forall w', F ⊆ heap w' -> freelist w' = freelist w ->
     head (input (session w')) = None -> head (output (session w')) = None ->
     (forall a, heap w' !! a = if decide (a ∈ (L In).*1 ++ (L Out).*1) then None else heap w !! a) -> Q tt w') ->
  wpd ev_session_free Q w.
Proof.
  intros K HQ. pose proof (so_shape _ _ _ _ K) as Sh.
  unfold ev_session_free, ev_session_disable, session_set. do 2 wp_step. wp_step. wp_step. do 2 wp_step. wp_step. wp_step.
  wp_step. set (w1 := MkWorld _ _ _ _ _ _ _).
  assert (shape F w1 L lf) as Sh1 by (eapply shape_ext_session; [..|exact Sh]; done).
  apply (wp_buffer_release F w1 L lf In _ Sh1). intros w2 Sh2 _ H2.
  apply (wp_buffer_release F w2 _ lf Out _ Sh2). intros w3 Sh3 _ H3.
  apply HQ; [apply Sh3| |apply (sh_seg _ _ _ _ Sh3 In)|apply (sh_seg _ _ _ _ Sh3 Out)|].
  - rewrite (lseg_start _ _ _ (sh_free _ _ _ _ Sh3)). symmetry. apply (lseg_start _ _ _ (sh_free _ _ _ _ Sh)).
  - intros a. rewrite H3, H2. repeat case_decide; try done; exfalso; rewrite elem_of_app in *; naive_solver.
Qed.

(** ** Properties *)

(** C21: [ev_session_read(n)] returns the first [n] bytes of the input stream, or all
    of it when there are fewer, and leaves exactly the rest, however the stream
    is cut into buffers; it never touches memory of other sessions ([F]). At
    most [INT_MAX - MAX_BUFFER_SIZE] bytes are waiting, so that the sums of the
    positions fit an int. *)
Theorem ev_session_read_prefix F w si so n :
  session_rep F w si so -> 0 <= n -> alen si + MAX_BUFFER_SIZE <= INT_MAX ->
  exists w', ev_session_read n w = Done (take (Z.to_nat n) si) w' /\
    session_rep F w' (drop (Z.to_nat n) si) so /\ ctl w' = ctl w.
Proof.
  intros (L & lf & K & <- & <-) Hn Hroom.
  assert (wpd (ev_session_read n) (fun r w' => r = take (Z.to_nat n) (stream (L In)) /\
    session_rep F w' (drop (Z.to_nat n) (stream (L In))) (stream (L Out)) /\ ctl w' = ctl w) w) as W.
  { apply (wp_ev_session_read F w L lf n _ K Hn Hroom). intros w' L' lf' K' Es Eo Hc. split_and!; [done| |done].
    exists L', lf'. by rewrite Eo. }
  apply wpd_Done in W as (r & w' & E & -> & H). eauto.
Qed.

(** [ev_session_read_util(sep)] returns the shortest prefix of the input that
    ends with the separator and leaves what follows it; when the separator does
    not occur it returns NULL and changes nothing. The separator may be spread
    over several buffers. *)
Theorem ev_session_read_util_first F w si so sep :
  session_rep F w si so -> alen si + MAX_BUFFER_SIZE <= INT_MAX ->
  (exists a rest w', ev_session_read_util sep w = Done (Some (a ++ sep)) w' /\ si = a ++ sep ++ rest /\
     (forall j, (j < length a)%nat -> ~ sep `prefix_of` drop j si) /\ session_rep F w' rest so /\ ctl w' = ctl w) \/
  (ev_session_read_util sep w = Done None w /\ forall j, (j < length si)%nat -> ~ sep `prefix_of` drop j si).
Proof.
  intros (L & lf & K & <- & <-) Hroom. set (s := stream (L In)).
  destruct (first_sep (length s) s sep) as [k|] eqn:E.
  - left. pose proof (first_sep_Some _ _ _ _ E) as (Hk & [rest Hp] & Hmin).
    exists (take k s), rest.
    assert (s = take k s ++ sep ++ rest) as Es by (by rewrite <- Hp, take_drop).
    assert (length (take k s) = k) as Hlk by (rewrite length_take; lia).
    assert (wpd (ev_session_read_util sep) (fun r w' => r = Some (take k s ++ sep) /\
      session_rep F w' rest (stream (L Out)) /\ ctl w' = ctl w) w) as W.
    { unfold ev_session_read_util. wp_step. apply (wp_search_eol F w L lf); [done|]. fold s. rewrite E.
      pose proof (alen_nonneg sep). rewrite (proj2 (Z.ltb_ge _ _)) by lia.
      assert (Z.to_nat (Z.of_nat k + alen sep) = length (take k s ++ sep)) as En
        by (rewrite length_app, Hlk, alen_length; lia).
      wp_step. apply (wp_ev_session_read F w L lf _ _ K); [lia|done|]. fold s. rewrite En.
      assert (take (length (take k s ++ sep)) s = take k s ++ sep /\ drop (length (take k s ++ sep)) s = rest) as [Et Ed].
      { rewrite app_assoc in Es. remember (take k s ++ sep) as x eqn:Ex. clear Ex. rewrite Es.
        by rewrite take_app_length, drop_app_length. }
      rewrite Et, Ed. intros w' L' lf' K' Est Eo Hc. wp_step.
      split_and!; [done| |done]. exists L', lf'. by rewrite Eo. }
    apply wpd_Done in W as (r & w' & Er & -> & H1 & H2). exists w'. rewrite Hlk. done.
  - right. pose proof (first_sep_None _ _ _ E) as Hnone.
    assert (wpd (ev_session_read_util sep) (fun r w' => r = None /\ w' = w) w) as W.
    { unfold ev_session_read_util. wp_step. apply (wp_search_eol F w L lf); [done|]. fold s. rewrite E. simpl. by wp_step. }
    apply wpd_Done in W as (r & w' & Er & -> & ->). done.
Qed.

(** When the socket is readable the handler appends exactly the bytes that one
    read returns (at most the adaptive buffer size) to the input and ends with
    the read callback; at the end of the stream or on an error it marks the
    session dead, stops both watchers and ends with the event callback. *)
Theorem ev_read_cb_appends F w si so :
  session_rep F w si so -> (sys_read (reads w)).1 <> RErr ENOERR -> alen si + MAX_BUFFER_SIZE <= INT_MAX ->
  exists cb w', ev_read_cb w = Done cb w' /\ session_rep F w' (si ++ received w) so /\ sent w' = sent w /\
    if read_fails w then failed w w' cb
    else flags (session w') = flags (session w) /\ cb = if read_cb (session w) then Some CallRead else None.
Proof.
  intros (L & lf & K & <- & <-) Hno Hmax.
  assert (wpd ev_read_cb (fun cb w' => session_rep F w' (stream (L In) ++ received w) (stream (L Out)) /\
    sent w' = sent w /\ if read_fails w then failed w w' cb
    else flags (session w') = flags (session w) /\ cb = if read_cb (session w) then Some CallRead else None) w) as W.
  { apply (wp_ev_read_cb F w L lf _ K Hno Hmax). intros cb w' L' lf' K' Es Eo _ Hsent Hcb. split_and!; [|done|done].
    exists L', lf'. by rewrite Eo. }
  apply wpd_Done in W as (cb & w' & E & H). eauto.
Qed.

(** C22: writing data to a live session never loses or reorders a byte: what the
    kernel has taken followed by what is queued grows by exactly the data, and
    nothing is queued unless the write watcher runs; when the socket fails the
    call returns -1, the session is dead and what the kernel took is still a
    prefix of what was written. *)
Theorem ev_session_write_in_order F w si so d :
  session_rep F w si so -> alive (session w) <> 0 -> (wio (session w) = false -> so = []) ->
  0 < alen d -> alen so + alen d <= INT_MAX ->
  exists r cb w' so', ev_session_write d w = Done (r, cb) w' /\ session_rep F w' si so' /\
    ((r = -1 /\ failed w w' cb /\ so' = so /\ sent w' `prefix_of` sent w ++ so ++ d) \/
     (0 <= r /\ alive (session w') = alive (session w) /\ sent w' ++ so' = sent w ++ so ++ d /\
      (wio (session w') = false -> so' = []) /\ (cb = None \/ so' = [] /\ cb = Some CallWrite))).
Proof.
  intros (L & lf & K & <- & <-) Ha Hw Hd Hmax.
  pose proof (wp_ev_session_write F w L lf d K Ha Hw Hd Hmax) as W.
  apply wpd_Done in W as ([r cb] & w' & E & L' & lf' & K' & Ein & H).
  exists r, cb, w', (stream (L' Out)). split; [done|]. split; [exists L', lf'; by rewrite Ein|].
  destruct H as [(-> & Hf & -> & Hp)|H]; [left|right]; done.
Qed.

(** C23: when the socket is writable the handler sends queued bytes in order: either
    everything is sent, the watcher stops and the write callback follows, or the
    rest stays queued with the watcher running, or the socket failed; in every
    case the bytes taken by the kernel extend what was sent before by a prefix
    of the queue. *)
Theorem ev_write_cb_in_order F w si so :
  session_rep F w si so ->
  exists cb w' so', ev_write_cb w = Done cb w' /\ session_rep F w' si so' /\ sent w' `prefix_of` sent w ++ so /\
    (failed w w' cb \/
     (alive (session w') = alive (session w) /\ sent w' ++ so' = sent w ++ so /\
      ((so' = [] /\ wio (session w') = false /\ cb = if write_cb (session w) then Some CallWrite else None) \/
       (so' <> [] /\ wio (session w') = wio (session w) /\ cb = None)))).
Proof.
  intros (L & lf & K & <- & <-). pose proof (wp_ev_write_cb F w L lf K) as W.
  apply wpd_Done in W as (cb & w' & E & L' & lf' & K' & Ein & Hp & H).
  exists cb, w', (stream (L' Out)). split_and!; [done|exists L', lf'; by rewrite Ein|done|done].
Qed.

(** Freeing a session frees each buffer of its two chains exactly once and
    nothing else: the nodes of other sessions and of the free list stay. *)
Theorem ev_session_free_exact F w si so :
  session_rep F w si so ->
  exists w' (freed : list Z), ev_session_free w = Done tt w' /\ NoDup freed /\ F ⊆ heap w' /\
    freelist w' = freelist w /\ head (input (session w')) = None /\ head (output (session w')) = None /\
    forall a, heap w' !! a = if decide (a ∈ freed) then None else heap w !! a.
Proof.
  intros (L & lf & K & _ & _). pose proof (so_shape _ _ _ _ K) as Sh.
  assert (NoDup ((L In).*1 ++ (L Out).*1)) as Hnd.
  { pose proof (sh_nodup _ _ _ _ Sh) as H. unfold owned in H. rewrite app_assoc in H. by apply NoDup_app in H as [? _]. }
  assert (wpd ev_session_free (fun _ w' => F ⊆ heap w' /\ freelist w' = freelist w /\
    head (input (session w')) = None /\ head (output (session w')) = None /\
    forall a, heap w' !! a = if decide (a ∈ (L In).*1 ++ (L Out).*1) then None else heap w !! a) w) as W.
  { by apply (wp_ev_session_free F w L lf _ K). }
  apply wpd_Done in W as ([] & w' & E & H). exists w', ((L In).*1 ++ (L Out).*1). naive_solver.
Qed.

(** ** A concrete session

    Five bytes "ab\r\nc" arrive in two reads, the second one small; then
    the client writes four bytes of which the kernel takes three. *)

Definition demo0 : world :=
  after (ev_session_setcb true true true)
    (after (ev_session_enable true false)
       (after ev_session_bind
          (MkWorld ∅ 1 None (MkSession 0 0 (MkBuf None None 0) (MkBuf None None 0) false false false false false)
             [RErr EINTR; RSome [z2b 97; z2b 98; z2b 13]; RSome [z2b 10; z2b 99]] [WSome 3] []))).
Definition demo1 : world := after ev_read_cb demo0.
Definition demo2 : world := after ev_read_cb demo1.

Lemma demo0_rep : sess_ok ∅ demo0 (fun _ => []) [].
Proof.
  split; try done.
  - split; try done; [intros []; done|by left|by apply NoDup_nil|].
    intros a. simpl. rewrite lookup_empty. by intros [? ?].
  - by intros [].
  - by intros [].
Qed.

(** The invariant along the two reads. *)
Lemma demo_read w L lf w' :
  sess_ok ∅ w L lf -> (sys_read (reads w)).1 <> RErr ENOERR -> alen (stream (L In)) + MAX_BUFFER_SIZE <= INT_MAX ->
  ev_read_cb w = Done (Some CallRead) w' ->
  exists L' lf', sess_ok ∅ w' L' lf' /\ stream (L' In) = stream (L In) ++ received w /\ L' Out = L Out.
Proof.
  intros K H1 H2 E. apply (wpd_elim _ (fun _ w' => exists L' lf', sess_ok ∅ w' L' lf' /\
    stream (L' In) = stream (L In) ++ received w /\ L' Out = L Out) _ _ _ E).
  apply (wp_ev_read_cb ∅ w L lf); [done|done|done|]. eauto 8.
Qed.

Lemma demo2_rep : session_rep ∅ demo2 [z2b 97; z2b 98; z2b 13; z2b 10; z2b 99] [].
Proof.
  destruct (demo_read demo0 _ _ demo1 demo0_rep) as (L1 & lf1 & K1 & E1 & O1);
    [vm_compute; discriminate|vm_compute; discriminate|vm_compute; reflexivity|].
  destruct (demo_read demo1 _ _ demo2 K1) as (L2 & lf2 & K2 & E2 & O2);
    [vm_compute; discriminate|rewrite E1; vm_compute; discriminate|vm_compute; reflexivity|].
  exists L2, lf2. split; [exact K2|]. rewrite E2, O2, E1, O1. split; vm_compute; reflexivity.
Qed.

Lemma ev_session_read_prefix_witness :
  exists w', ev_session_read 4 demo2 = Done [z2b 97; z2b 98; z2b 13; z2b 10] w' /\
    session_rep ∅ w' [z2b 99] [] /\ ctl w' = ctl demo2.
Proof.
  apply (ev_session_read_prefix ∅ demo2 [z2b 97; z2b 98; z2b 13; z2b 10; z2b 99] [] 4); [exact demo2_rep|lia|vm_compute; discriminate].
Defined.

Lemma ev_session_read_util_witness :
  exists a rest w', ev_session_read_util [z2b 13; z2b 10] demo2 = Done (Some (a ++ [z2b 13; z2b 10])) w' /\
    [z2b 97; z2b 98; z2b 13; z2b 10; z2b 99] = a ++ [z2b 13; z2b 10] ++ rest.
Proof.
  destruct (ev_session_read_util_first ∅ demo2 _ [] [z2b 13; z2b 10] demo2_rep ltac:(vm_compute; discriminate))
    as [(a & rest & w' & H1 & H2 & _)|[H _]].
  - exact (ex_intro _ a (ex_intro _ rest (ex_intro _ w' (conj H1 H2)))).
  - vm_compute in H. discriminate.
Defined.

Lemma ev_read_cb_appends_witness :
  exists cb w', ev_read_cb demo0 = Done cb w' /\ session_rep ∅ w' [z2b 97; z2b 98; z2b 13] [].
Proof.
  destruct (ev_read_cb_appends ∅ demo0 [] []) as (cb & w' & H1 & H2 & _).
  - exists (fun _ => []), []. split; [exact demo0_rep|split; reflexivity].
  - vm_compute. discriminate.
  - vm_compute. discriminate.
  - exact (ex_intro _ cb (ex_intro _ w' (conj H1 H2))).
Defined.

Lemma ev_session_write_in_order_witness :
  exists r cb w' so', ev_session_write [z2b 1; z2b 2; z2b 3; z2b 4] demo2 = Done (r, cb) w' /\
    session_rep ∅ w' [z2b 97; z2b 98; z2b 13; z2b 10; z2b 99] so'.
Proof.
  destruct (ev_session_write_in_order ∅ demo2 _ [] [z2b 1; z2b 2; z2b 3; z2b 4] demo2_rep)
    as (r & cb & w' & so' & H1 & H2 & _).
  - vm_compute. discriminate.
  - reflexivity.
  - vm_compute. reflexivity.
  - vm_compute. discriminate.
  - exact (ex_intro _ r (ex_intro _ cb (ex_intro _ w' (ex_intro _ so' (conj H1 H2))))).
Defined.

Lemma ev_write_cb_in_order_witness :
  exists cb w' so', ev_write_cb demo2 = Done cb w' /\
    session_rep ∅ w' [z2b 97; z2b 98; z2b 13; z2b 10; z2b 99] so'.
Proof.
  destruct (ev_write_cb_in_order ∅ demo2 _ [] demo2_rep) as (cb & w' & so' & H1 & H2 & _).
  exact (ex_intro _ cb (ex_intro _ w' (ex_intro _ so' (conj H1 H2)))).
Defined.

Lemma ev_session_free_exact_witness :
  exists w' (freed : list Z), ev_session_free demo2 = Done tt w' /\ NoDup freed /\
    forall a, heap w' !! a = if decide (a ∈ freed) then None else heap demo2 !! a.
Proof.
  destruct (ev_session_free_exact ∅ demo2 _ [] demo2_rep) as (w' & freed & H1 & H2 & _ & _ & _ & _ & H3).
  exact (ex_intro _ w' (ex_intro _ freed (conj H1 (conj H2 H3)))).
Defined.
