(* ===== verification/Client.v ===== *)
(** * Client manager of the game gate (lua-client.c)

    A manager accepts connections, gives each an id, cuts their byte streams
    into frames, checks and decodes the frames and hands the messages to Lua.
    The clients are C structs in a heap of their own; the table of live clients
    is the container of ObjectContainer.v; the session of a client is anything
    that satisfies the interface [SessionLaws], which SocketEvent.v does. The
    Lua side is the parameter [script]: after each callback it gives the calls
    that Lua makes on the manager.

    The theorems show that every message packed by [lpacket_pack] is delivered
    once and in order however the network cuts the stream, that ids of live
    clients resolve to them and stale ids to nothing, and pin down the inputs on
    which the code aborts or uses freed memory. *)

From S2P Require Import Prelude Outcome ObjectContainer Packet SocketEvent.

Definition CACHED_SIZE : Z := 1024 * 1024.
Definition MAX_FREQ : Z := 100.
Definition ALIVE_TIME : Z := 60 * 1000000.
Definition MAX_SEQMENT : Z := 64 * 1024.

(** ** What a client needs of its session *)

Class Session (T : Type) := {
  s_input_size : M T Z;
  s_read : Z -> M T bytes;
  s_write : bytes -> M T (Z * option callback);
  s_free : M T unit;
  s_setcb : bool -> bool -> bool -> M T unit;
  s_enable : bool -> bool -> M T unit;
  s_disable : bool -> bool -> M T unit
}.

(** [s_rep s si]: the bytes [si] have arrived and were not read yet. *)
Class SessionLaws (T : Type) `{Session T} := {
  s_rep : T -> bytes -> Prop;
  s_input_size_ok s si : s_rep s si -> s_input_size s = Done (alen si) s;
  s_read_ok s si n : s_rep s si -> 0 <= n ->
    exists s', s_read n s = Done (take (Z.to_nat n) si) s' /\ s_rep s' (drop (Z.to_nat n) si);
  s_free_ok s si : s_rep s si -> exists s', s_free s = Done tt s';
  s_setcb_ok s si r w e : s_rep s si -> exists s', s_setcb r w e s = Done tt s' /\ s_rep s' si;
  s_enable_ok s si r w : s_rep s si -> exists s', s_enable r w s = Done tt s' /\ s_rep s' si
}.

#[export] Instance socket_session : Session world := {
  s_input_size := ev_session_input_size;
  s_read := ev_session_read;
  s_write := ev_session_write;
  s_free := ev_session_free;
  s_setcb := ev_session_setcb;
  s_enable := ev_session_enable;
  s_disable := ev_session_disable
}.

(** The sessions of socket_event.c keep the promise, as long as at most
    [INT_MAX - MAX_BUFFER_SIZE] bytes are waiting. *)
#[export] Instance socket_session_laws : SessionLaws world.
Proof.
  refine (Build_SessionLaws world _ (fun w si => (exists F so, session_rep F w si so) /\ alen si + MAX_BUFFER_SIZE <= INT_MAX) _ _ _ _ _).
  - intros w si [(F & so & L & lf & K & <- & _) _]. simpl. unfold ev_session_input_size, mbind, M_bind, get, mret, M_ret.
    pose proof (so_total _ _ _ _ K In) as Ht. pose proof (so_max _ _ _ _ K In) as Hm. simpl in Ht. unfold INT_MAX in Hm.
    by rewrite Ht, (uwrap_small 64) by (pose proof (alen_nonneg (stream (L In))); lia).
  - intros w si n [(F & so & L & lf & K & <- & <-) Hroom] Hn. simpl.
    assert (wpd (ev_session_read n) (fun out w' => out = take (Z.to_nat n) (stream (L In)) /\
      exists F so, session_rep F w' (drop (Z.to_nat n) (stream (L In))) so) w) as W.
    { apply (wp_ev_session_read F w L lf n _ K Hn Hroom). intros w' L' lf' K' E _ _. split; [done|].
      exists F, (stream (L' Out)), L', lf'. done. }
    apply wpd_Done in W as (out & w' & E & -> & H'). exists w'. split_and!; [done|done|].
    rewrite !alen_length, length_drop in *. lia.
  - intros w si [(F & so & L & lf & K & <- & <-) _]. simpl.
    assert (wpd ev_session_free (fun _ _ => True) w) as W by by apply (wp_ev_session_free F w L lf _ K).
    apply wpd_Done in W as ([] & w' & E & _). eauto.
  - intros w si r wr e [(F & so & L & lf & K & <- & <-) Hroom]. simpl.
    unfold ev_session_setcb, ev_session_enable, session_set, mbind, M_bind, get, modify. eexists. split; [reflexivity|].
    split; [|done]. exists F, (stream (L Out)), L, lf. split; [|done]. by eapply sess_ok_ext.
  - intros w si r wr [(F & so & L & lf & K & <- & <-) Hroom]. simpl.
    unfold ev_session_setcb, ev_session_enable, session_set, mbind, M_bind, get, modify. eexists. split; [reflexivity|].
    split; [|done]. exists F, (stream (L Out)), L, lf. split; [|done]. by eapply sess_ok_ext.
Defined.

(** ** Events seen by Lua and calls made by Lua *)

Inductive event :=
| EvAccept (id : Z)
| EvClose (id : Z)
| EvData (id message_id : Z) (data : bytes) (size : Z).

Inductive action :=
| ActClose (client_id : Z) (grace : bool)
| ActSend (client_id message_id : Z) (arg : lua_data).

(** ** The manager *)

(** The write callback of the session is NULL or [close_complete]. *)
Record ev_client (T : Type) := MkClient {
  sess : T; timer : bool; id : Z; need : Z; freq : Z; execute : Z; mark : Z; seed : Z; order : Z; tick : Z;
  closing : bool }.
Arguments MkClient {T}. Arguments sess {T}. Arguments timer {T}. Arguments id {T}. Arguments need {T}.
Arguments freq {T}. Arguments execute {T}. Arguments mark {T}. Arguments seed {T}. Arguments order {T}.
Arguments tick {T}. Arguments closing {T}.

Record client_manager (T : Type) := MkManager {
  clients : gmap Z (ev_client T);          (* the structs, by address *)
  next_addr : Z;
  container : object_container Z;
  max_offset : Z; mindex : Z;
  now : Z;                                 (* the loop's clock, in microseconds *)
  cached : bytes;                          (* CACHED_BUFFER *)
  events : list event }.
Arguments MkManager {T}. Arguments clients {T}. Arguments next_addr {T}. Arguments container {T}.
Arguments max_offset {T}. Arguments mindex {T}. Arguments now {T}. Arguments cached {T}. Arguments events {T}.

Section client.
Context {T : Type} `{Session T} (script : list event -> list action).

Abbreviation C := (M (client_manager T)).

Definition set_clients (m : gmap Z (ev_client T)) : C unit :=
  modify (fun s => MkManager m (next_addr s) (container s) (max_offset s) (mindex s) (now s) (cached s) (events s)).
Definition set_cached (b : bytes) : C unit :=
  modify (fun s => MkManager (clients s) (next_addr s) (container s) (max_offset s) (mindex s) (now s) b (events s)).
Definition add_event (e : event) : C unit :=
  modify (fun s => MkManager (clients s) (next_addr s) (container s) (max_offset s) (mindex s) (now s) (cached s)
                     (events s ++ [e])).

Definition on_container {A} (m : M (object_container Z) A) : C A :=
  zoom container (fun c s => MkManager (clients s) (next_addr s) c (max_offset s) (mindex s) (now s) (cached s) (events s)) m.

(** Access through a client pointer. *)
Definition cget (p : Z) : C (ev_client T) := s ← get; deref UseAfterFree (clients s !! p).
Definition cset (p : Z) (c : ev_client T) : C unit :=
  s ← get; require UseAfterFree (bool_decide (is_Some (clients s !! p)));; set_clients (<[p := c]> (clients s)).

Definition with_sess (t : T) (c : ev_client T) : ev_client T :=
  MkClient t (timer c) (id c) (need c) (freq c) (execute c) (mark c) (seed c) (order c) (tick c) (closing c).
Definition with_need (n : Z) (c : ev_client T) : ev_client T :=
  MkClient (sess c) (timer c) (id c) n (freq c) (execute c) (mark c) (seed c) (order c) (tick c) (closing c).
Definition with_execute (e : Z) (c : ev_client T) : ev_client T :=
  MkClient (sess c) (timer c) (id c) (need c) (freq c) e (mark c) (seed c) (order c) (tick c) (closing c).
Definition with_mark (m : Z) (c : ev_client T) : ev_client T :=
  MkClient (sess c) (timer c) (id c) (need c) (freq c) (execute c) m (seed c) (order c) (tick c) (closing c).
Definition with_seed (x : Z) (c : ev_client T) : ev_client T :=
  MkClient (sess c) (timer c) (id c) (need c) (freq c) (execute c) (mark c) x (order c) (tick c) (closing c).
Definition with_order (x : Z) (c : ev_client T) : ev_client T :=
  MkClient (sess c) (timer c) (id c) (need c) (freq c) (execute c) (mark c) (seed c) x (tick c) (closing c).
Definition with_freq (f : Z) (c : ev_client T) : ev_client T :=
  MkClient (sess c) (timer c) (id c) (need c) f (execute c) (mark c) (seed c) (order c) (tick c) (closing c).
Definition with_tick (t : Z) (c : ev_client T) : ev_client T :=
  MkClient (sess c) (timer c) (id c) (need c) (freq c) (execute c) (mark c) (seed c) (order c) t (closing c).
Definition with_closing (b : bool) (c : ev_client T) : ev_client T :=
  MkClient (sess c) (timer c) (id c) (need c) (freq c) (execute c) (mark c) (seed c) (order c) (tick c) b.

(** A session call of the client at [p]. *)
Definition on_session {A} (p : Z) (m : M T A) : C A := fun s =>
  match clients s !! p with
  | None => Fault UseAfterFree
  | Some c =>
      let upd t := MkManager (<[p := with_sess t c]> (clients s)) (next_addr s) (container s) (max_offset s)
                     (mindex s) (now s) (cached s) (events s) in
      match m (sess c) with
      | Done a t => Done a (upd t)
      | Raise e t => Raise e (upd t)
      | Fault f => Fault f
      end
  end.

(** [get_client]: the slot is the id modulo [max_offset]; a client that took over
    the slot of a closed one has another id. *)
Definition get_client (client_id : Z) : C (option Z) :=
  s ← get;
  let slot := u64 (client_id - (client_id / max_offset s) * max_offset s) in
  o ← on_container (container_get (s32 slot));
  match o with
  | None => mret None
  | Some p =>
      c ← cget p;
      if negb (id c =? client_id) then mret None else mret (Some p)
  end.

Definition close_client (p : Z) : C unit :=
  on_session p s_free;;
  c ← cget p;
  s ← get;
  let slot := u64 (id c - (id c / max_offset s) * max_offset s) in
  on_container (container_remove (s32 slot));;
  s ← get;
  set_clients (delete p (clients s)).

Definition client_manager_close (client_id : Z) (grace : bool) : C Z :=
  o ← get_client (u64 client_id);
  match o with
  | None => mret (-1)
  | Some p =>
      c ← cget p;
      if negb grace then
        (if negb (execute c =? 0) then cset p (with_mark 1 c) else close_client p);;
        mret 0
      else
        on_session p (s_setcb false true true);;
        on_session p (s_disable true false);;
        on_session p (s_enable false true);;
        c ← cget p;
        cset p (with_closing true c);;
        mret 0
  end.

(** The frame [client_manager_send] writes. *)
Definition send_frame (message_id : Z) (data : bytes) : bytes :=
  le_split 2 (alen data + 4) ++ le_split 2 message_id ++ data.

(** [client_manager_send]: a failing socket calls the event callback of the session,
    which is [on_error]. The client is not checked for NULL. *)
Definition client_manager_send (on_error : Z -> C unit) (client_id message_id : Z) (data : bytes) : C unit :=
  o ← get_client (u64 client_id);
  p ← deref NullDeref o;
  r ← on_session p (s_write (send_frame message_id data));
  match r.2 with
  | Some CallEvent => on_error p
  | Some CallWrite => c ← cget p; when (closing c) (close_client p)
  | _ => mret tt
  end.

(** The methods Lua calls. *)
Definition lclient_manager_close (client_id : Z) (grace : bool) : C unit :=
  let client_id := s32 client_id in
  o ← get_client (u64 client_id);
  match o with
  | None => luaL_error "client manager send failed,no such client"
  | Some _ => client_manager_close client_id grace;; mret tt
  end.

Definition lclient_manager_send (on_error : Z -> C unit) (client_id message_id : Z) (arg : lua_data) : C unit :=
  let client_id := s32 client_id in
  let message_id := s32 message_id in
  o ← get_client (u64 client_id);
  match o with
  | None => luaL_error "client manager send failed,no such client"
  | Some _ =>
      data ← data_arg arg;
      if alen data =? 0 then luaL_error "client manager send failed,size is zero"
      else client_manager_send on_error client_id message_id data
  end.

Definition run_action (on_error : Z -> C unit) (a : action) : C unit :=
  match a with
  | ActClose client_id grace => lclient_manager_close client_id grace
  | ActSend client_id message_id arg => lclient_manager_send on_error client_id message_id arg
  end.

(** [lua_pcall]: an error ends the Lua function and is dropped. *)
Definition lua_pcall (m : C unit) : C unit := fun s =>
  match m s with Raise _ s' => Done tt s' | r => r end.

(** [laccept], [lclose] and [ldata]. Lua may send to a client whose socket fails,
    which closes that client and calls Lua again: [fuel] bounds the depth of this
    recursion. *)
Fixpoint notify (fuel : nat) (e : event) : C unit :=
  add_event e;;
  s ← get;
  match fuel with
  | O => crash OutOfFuel
  | S fuel =>
      lua_pcall (for_each (script (events s)) (run_action (fun p =>
        c ← cget p;
        let id := s32 (id c) in
        close_client p;;
        notify fuel (EvClose id))))
  end.

Definition error_happen (fuel : nat) (p : Z) : C unit :=
  c ← cget p;
  let id := s32 (id c) in
  close_client p;;
  notify fuel (EvClose id).

(** ** Reading *)

(** The decoding loop over [data[0 .. need)]: every byte is xored with the seed, and
    the plain byte is added to it. *)
Fixpoint descramble (seed : Z) (l : bytes) : bytes * Z :=
  match l with
  | [] => ([], seed)
  | b :: l =>
      let plain := z2b (Z.lxor (b2z b) seed) in
      let '(out, seed') := descramble (u8 (seed + b2z plain)) l in
      (plain :: out, seed')
  end.

(** The branch of [read_complete] for a header. *)
Definition read_header (fuel : nat) (p : Z) : C (unit + bool) :=
  total ← on_session p s_input_size;
  if total <? 2 then mret (inr true) else
  header ← on_session p (s_read 2);
  h0 ← deref OutOfBounds (aget header 0);
  h1 ← deref OutOfBounds (aget header 1);
  c ← cget p;
  let need := Z.lor (b2z h0) (Z.shiftl (b2z h1) 8) - 2 in
  cset p (with_need need c);;
  c_assert (0 <? need);;
  if MAX_SEQMENT <? need then error_happen fuel p;; mret (inr false)
  else mret (inl tt).

(** The branch for a body. [CACHED_BUFFER] keeps the bytes of earlier frames behind
    the current one; [need] never exceeds its size. *)
Definition read_body (fuel : nat) (p : Z) : C (unit + bool) :=
  total ← on_session p s_input_size;
  c ← cget p;
  if total <? u64 (need c) then mret (inr true) else
  require UndefinedBehaviour (need c <=? CACHED_SIZE);;
  raw ← on_session p (s_read (need c));
  s ← get;
  let '(plain, seed) := descramble (seed c) raw in
  data ← deref OutOfBounds (memcpy (cached s) 0 plain);
  set_cached data;;
  c ← cget p;
  cset p (with_seed seed c);;
  sum ← deref OutOfFuel (checksum plain);
  d2 ← deref OutOfBounds (aget data 2); d3 ← deref OutOfBounds (aget data 3);
  d4 ← deref OutOfBounds (aget data 4); d5 ← deref OutOfBounds (aget data 5);
  let ord := Z.lor (b2z d2) (Z.shiftl (b2z d3) 8) in
  let message_id := Z.lor (b2z d4) (Z.shiftl (b2z d5) 8) in
  c ← cget p;
  if negb (sum =? 0) || negb (ord =? order c) then error_happen fuel p;; mret (inr false)
  else
    s ← get;
    cset p (with_tick (now s) (with_freq (freq c + 1) (with_order (u16 (order c + 1)) c)));;
    notify fuel (EvData (s32 (id c)) message_id (take (Z.to_nat (need c - 6)) (drop 6 data)) (u64 (need c - 6)));;
    c ← cget p;
    cset p (with_need 0 c);;
    mret (inl tt).

(** The while loop of [read_complete] and what follows: [rounds] bounds the loop.
    The result of a round says whether the code behind the loop is reached. *)
Definition read_rounds (fuel rounds : nat) (p : Z) : C unit :=
  go ← loop rounds (fun _ : unit =>
    c ← cget p;
    if negb (mark c =? 0) then mret (inr true)
    else if need c =? 0 then read_header fuel p else read_body fuel p) tt;
  if negb go then mret tt else
  c ← cget p;
  when (negb (mark c =? 0)) (close_client p);;
  c ← cget p;
  cset p (with_execute 0 c).

Definition read_complete (fuel rounds : nat) (p : Z) : C unit :=
  c ← cget p;
  cset p (with_execute 1 c);;
  read_rounds fuel rounds p.

(** ** The timer, accepting and closing *)

Definition timeout (fuel : nat) (p : Z) : C unit :=
  c ← cget p;
  when (MAX_FREQ <? freq c) (error_happen fuel p);;
  c ← cget p;
  cset p (with_freq 0 c);;
  c ← cget p;
  s ← get;
  when (negb (tick c =? 0) && (ALIVE_TIME <? now s - tick c)) (error_happen fuel p).

(** [accept_client] with the session of the new socket. *)
Definition accept_client (fuel : nat) (t : T) : C unit :=
  s ← get;
  let p := next_addr s in
  put (MkManager (<[p := MkClient t false 0 0 0 0 0 0 0 0 false]> (clients s)) (p + 1) (container s) (max_offset s)
        (mindex s) (now s) (cached s) (events s));;
  slot ← on_container (container_add (Some p));
  if slot =? -1 then
    on_session p s_free;;
    s ← get;
    set_clients (delete p (clients s))
  else
    s ← get;
    let index := mindex s in
    put (MkManager (clients s) (next_addr s) (container s) (max_offset s) (u32 (index + 1)) (now s) (cached s) (events s));;
    c ← cget p;
    let id := u64 (index * max_offset s + slot) in
    cset p (MkClient (sess c) true id 0 0 0 0 0 0 0 false);;
    on_session p (s_setcb true false true);;
    on_session p (s_enable true false);;
    notify fuel (EvAccept (s32 id)).

Definition close_complete (p : Z) : C unit := close_client p.

(** [for (; max > 0; offset++) max /= 10; max_offset = pow(10, offset)] *)
Fixpoint pow10_above (fuel : nat) (max : Z) : option Z :=
  match fuel with
  | O => None
  | S fuel => if max <=? 0 then Some 1 else Z.mul 10 <$> pow10_above fuel (max / 10)
  end.

Definition client_manager_create (max : Z) : C unit :=
  on_container (container_create (s32 max));;
  off ← deref OutOfFuel (pow10_above 21 max);
  s ← get;
  put (MkManager (clients s) (next_addr s) (container s) off 1 (now s) (cached s) (events s)).

Definition client_manager_release : C unit :=
  container_foreach container (fun _ p => close_client p).

End client.

(** ** Decoding what was packed *)

Lemma scramble_range seed l : 0 <= seed < 256 -> 0 <= (scramble seed l).2 < 256.
Proof.
  revert seed. induction l as [|b l IH]; intros seed Hs; simpl; [done|].
  pose proof (IH (u8 (seed + b2z b)) (uwrap_range 8 _ ltac:(lia))) as IHb.
  by destruct (scramble (u8 (seed + b2z b)) l).
Qed.

Lemma alen_scramble seed l : alen (scramble seed l).1 = alen l.
Proof.
  revert seed. induction l as [|b l IH]; intros seed; simpl; [done|].
  specialize (IH (u8 (seed + b2z b))). destruct (scramble _ l). simpl in *. by rewrite !alen_cons, IH.
Qed.

Lemma descramble_scramble seed l :
  0 <= seed < 256 -> descramble seed (scramble seed l).1 = (l, (scramble seed l).2).
Proof.
  revert seed. induction l as [|b l IH]; intros seed Hs; simpl; [done|].
  specialize (IH (u8 (seed + b2z b)) (uwrap_range 8 _ ltac:(lia))).
  destruct (scramble (u8 (seed + b2z b)) l) as [out seed'] eqn:E. simpl in *.
  assert (z2b (Z.lxor (b2z (z2b (Z.lxor (b2z b) seed))) seed) = b) as ->.
  { pose proof (b2z_range b). rewrite b2z_z2b_small by (apply (lxor_range 8); lia).
    by rewrite Z.lxor_assoc, Z.lxor_nilpotent, Z.lxor_0_r, z2b_b2z. }
  by rewrite IH.
Qed.

(** One frame, and the sender's state after it. *)
Definition frame (pk : packet) (m : Z * bytes) : bytes :=
  le_split 2 (alen m.2 + 8) ++ (scramble (wseed pk) (packet_plain (worder pk) m.1 m.2)).1.

Definition next_packet (pk : packet) (m : Z * bytes) : packet :=
  MkPacket (rseed pk) (rorder pk) (scramble (wseed pk) (packet_plain (worder pk) m.1 m.2)).2 (u16 (worder pk + 1)).

Fixpoint frames (pk : packet) (ms : list (Z * bytes)) : bytes :=
  match ms with
  | [] => []
  | m :: ms => frame pk m ++ frames (next_packet pk m) ms
  end.

Fixpoint last_packet (pk : packet) (ms : list (Z * bytes)) : packet :=
  match ms with [] => pk | m :: ms => last_packet (next_packet pk m) ms end.

(** The sender: one [lpacket_pack] after the other. *)
Fixpoint send_all (ms : list (Z * bytes)) : M packet bytes :=
  match ms with
  | [] => mret []
  | (id, data) :: ms => r ← lpacket_pack id (TSTRING data); rest ← send_all ms; mret (r.1 ++ rest)
  end.

(** The messages whose frame length is less than 2^16. [lpacket_pack] takes longer ones
    too, and stores the length modulo 2^16. *)
Definition fits (m : Z * bytes) : Prop := alen m.2 + 8 <= 65535.

(** 65528 bytes of data: the header of the frame says 0. *)
Example long_message_cut :
  match lpacket_pack 7 (TSTRING (replicate (Z.to_nat 65528) (z2b 0))) (MkPacket 0 0 0 0) with Done r _ => take 2 r.1 | _ => [] end = le_split 2 0.
Proof. vm_compute. reflexivity. Qed.

Definition packet_ok (pk : packet) : Prop := 0 <= wseed pk < 256 /\ 0 <= worder pk < 65536.

Lemma next_packet_ok pk m : packet_ok pk -> packet_ok (next_packet pk m).
Proof. intros []. split; cbn [wseed worder next_packet]; [by apply scramble_range|by apply (uwrap_range 16)]. Qed.

Lemma send_all_eq ms pk : Forall fits ms -> send_all ms pk = Done (frames pk ms) (last_packet pk ms).
Proof.
  revert pk. induction ms as [|[id data] ms IH]; intros pk Hf; simpl; [done|].
  apply Forall_cons in Hf as [Hm Hf]. unfold fits in Hm. simpl in Hm.
  erewrite bind_Done; [|apply (lpacket_pack_eq pk id (TSTRING data) data); [done|lia]].
  erewrite bind_Done; [|by apply IH]. done.
Qed.

Lemma alen_plain order id data : alen (packet_plain order id data) = alen data + 6.
Proof. unfold packet_plain. rewrite !alen_app, !alen_le_split. lia. Qed.

(** The receiver's view of a decoded body. *)
Lemma plain_fields order id data :
  0 <= order < 65536 -> alen data + 8 <= 65535 ->
  checksum (packet_plain order id data) = Some 0 /\
  exists b0 b1 b2 b3 b4 b5, packet_plain order id data = b0 :: b1 :: b2 :: b3 :: b4 :: b5 :: data /\
    Z.lor (b2z b2) (Z.shiftl (b2z b3) 8) = order /\ Z.lor (b2z b4) (Z.shiftl (b2z b5) 8) = u16 id.
Proof.
  intros Ho Hl. unfold packet_plain. set (body := le_split 2 order ++ le_split 2 (s32 id) ++ data).
  assert (alen body = alen data + 4) as Hb by (unfold body; rewrite !alen_app, !alen_le_split; lia). split.
  - apply checksum_verifies; [lia|]. apply checksum_eq. lia.
  - unfold body. rewrite !le_split2. eexists _, _, _, _, _, _. split; [done|]. rewrite !le_join2. split.
    + by apply uwrap_small.
    + rewrite <- (uwrap_uwrap 16 32), uwrap_swrap, uwrap_uwrap by lia. done.
Qed.

(** ** One client in the manager *)

Section reading.
Context {T : Type} `{SL : SessionLaws T} (script : list event -> list action).

Definition upd_client (p : Z) (c : ev_client T) (s : client_manager T) : client_manager T :=
  MkManager (<[p := c]> (clients s)) (next_addr s) (container s) (max_offset s) (mindex s) (now s) (cached s) (events s).

(** What the read path depends on. *)
Record cst (s : client_manager T) (p : Z) (c : ev_client T) (ev : list event) : Prop := {
  cst_client : clients s !! p = Some c;
  cst_events : events s = ev;
  cst_cached : alen (cached s) = CACHED_SIZE
}.

Lemma cst_upd s p c c' ev : cst s p c ev -> cst (upd_client p c' s) p c' ev.
Proof. intros []. split; [apply lookup_insert_eq|done|done]. Qed.

Lemma wp_cget s p c ev Q : cst s p c ev -> Q c s -> wpd (cget p) Q s.
Proof. intros [Hc _ _] HQ. unfold cget. do 2 wp_step. by eapply wp_deref. Qed.

Lemma wp_cset s p c c' ev Q : cst s p c ev -> Q tt (upd_client p c' s) -> wpd (cset p c') Q s.
Proof.
  intros [Hc _ _] HQ. unfold cset, set_clients. do 2 wp_step. wp_step.
  wp_step; [apply bool_decide_eq_true; by exists c|]. by wp_step.
Qed.

Lemma wp_on_session {A} s p c ev (m : M T A) a t Q :
  cst s p c ev -> m (sess c) = Done a t -> Q a (upd_client p (with_sess t c) s) -> wpd (on_session p m) Q s.
Proof. intros [Hc _ _] Hm HQ. unfold wp, on_session. by rewrite Hc, Hm. Qed.

Lemma wp_input_size s p c ev si Q :
  cst s p c ev -> s_rep (sess c) si -> (forall s', cst s' p c ev -> Q (alen si) s') ->
  wpd (on_session p s_input_size) Q s.
Proof.
  intros Hc Hr HQ. eapply wp_on_session; [done|by apply s_input_size_ok|].
  apply HQ. destruct c. by eapply cst_upd.
Qed.

Lemma wp_read s p c ev si n Q :
  cst s p c ev -> s_rep (sess c) si -> 0 <= n ->
  (forall s' t, cst s' p (with_sess t c) ev -> s_rep t (drop (Z.to_nat n) si) -> Q (take (Z.to_nat n) si) s') ->
  wpd (on_session p (s_read n)) Q s.
Proof.
  intros Hc Hr Hn HQ. destruct (s_read_ok _ _ n Hr Hn) as (t & E & Ht).
  eapply wp_on_session; [done|done|]. eapply HQ; [by eapply cst_upd|done].
Qed.

Lemma wp_notify_quiet fuel e s p c ev Q :
  (forall h, script h = []) -> (0 < fuel)%nat -> cst s p c ev ->
  (forall s', cst s' p c (ev ++ [e]) -> Q tt s') -> wpd (notify script fuel e) Q s.
Proof.
  intros Hq Hf [Hc He Hb] HQ. destruct fuel as [|fuel]; [lia|]. cbn [notify]. unfold add_event.
  do 2 wp_step. do 2 wp_step. rewrite Hq. cbn [for_each]. unfold lua_pcall, wp. cbn. apply HQ. split; simpl; [done|by rewrite He|done].
Qed.

Lemma wp_read_header fuel s p c ev si v Q :
  cst s p c ev -> s_rep (sess c) si -> 0 <= v < 65536 -> take 2 si = le_split 2 v -> 2 <= alen si ->
  2 < v -> v - 2 <= MAX_SEQMENT ->
  (forall s' t, cst s' p (with_need (v - 2) (with_sess t c)) ev -> s_rep t (drop 2 si) -> Q (inl tt) s') ->
  wpd (read_header script fuel p) Q s.
Proof.
  intros Hc Hr Hv Hh Hl Hv2 Hmax HQ. unfold read_header. wp_step.
  apply (wp_input_size s p c ev si); [done|done|]. intros s1 Hc1.
  rewrite (proj2 (Z.ltb_ge _ _)) by lia. wp_step. apply (wp_read s1 p c ev si 2); [done|done|lia|].
  intros s2 t Hc2 Ht. change (Z.to_nat 2) with 2%nat in *. rewrite Hh, le_split2.
  wp_step. wp_step; [aget_lit|]. wp_step. wp_step; [aget_lit|]. wp_step. eapply wp_cget; [done|].
  rewrite le_join2, uwrap_small by lia. wp_step. eapply wp_cset; [done|].
  wp_step. wp_step; [by apply Z.ltb_lt; lia|]. rewrite (proj2 (Z.ltb_ge _ _)) by lia. wp_step.
  eapply HQ; [by eapply cst_upd|done].
Qed.

Lemma wp_read_body fuel s p c ev si m rest Q :
  (forall h, script h = []) -> (0 < fuel)%nat ->
  cst s p c ev -> s_rep (sess c) si -> 0 <= seed c < 256 -> 0 <= order c < 65536 -> fits m -> need c = alen m.2 + 6 ->
  take (Z.to_nat (need c)) si = (scramble (seed c) (packet_plain (order c) m.1 m.2)).1 ->
  drop (Z.to_nat (need c)) si = rest -> need c <= alen si ->
  (forall s' c', cst s' p c' (ev ++ [EvData (s32 (id c)) (u16 m.1) m.2 (alen m.2)]) -> s_rep (sess c') rest ->
     id c' = id c -> mark c' = mark c -> need c' = 0 -> order c' = u16 (order c + 1) ->
     seed c' = (scramble (seed c) (packet_plain (order c) m.1 m.2)).2 -> Q (inl tt) s') ->
  wpd (read_body script fuel p) Q s.
Proof.
  intros Hq Hfl Hc Hr Hseed Hord Hfit Hneed Htake Hdrop Hlen HQ. unfold fits in Hfit. destruct m as [mid d]. cbn [fst snd] in *.
  pose proof (alen_nonneg d) as Hd0. unfold read_body. wp_step.
  apply (wp_input_size s p c ev si); [done|done|]. intros s1 Hc1. wp_step. eapply wp_cget; [done|].
  rewrite uwrap_small by lia. rewrite (proj2 (Z.ltb_ge _ _)) by lia.
  wp_step. wp_step; [apply Z.leb_le; unfold CACHED_SIZE; lia|].
  wp_step. apply (wp_read s1 p c ev si); [done|done|lia|]. intros s2 t Hc2 Ht. rewrite Htake, Hdrop in *.
  do 2 wp_step. rewrite descramble_scramble by done.
  destruct (plain_fields (order c) mid d Hord Hfit) as (Hsum & b0 & b1 & b2 & b3 & b4 & b5 & Hp & Eord & Eid).
  set (plain := packet_plain (order c) mid d) in *.
  set (seed' := (scramble (seed c) plain).2) in *.
  assert (alen plain = alen d + 6) as Hpl by apply alen_plain.
  assert (exists tl, memcpy (cached s2) 0 plain = Some (plain ++ tl) /\ alen (plain ++ tl) = CACHED_SIZE) as (tl & Hcpy & Htl).
  { pose proof (cst_cached _ _ _ _ Hc2) as Hcs. unfold CACHED_SIZE in *.
    exists (drop (Z.to_nat (alen plain)) (cached s2)).
    rewrite <- (take_drop (Z.to_nat (alen plain)) (cached s2)) at 1.
    rewrite <- (app_nil_l (take _ _ ++ _)). split.
    - rewrite (memcpy_mid [] _ plain) by (rewrite ?alen_nil, ?alen_take; lia). done.
    - rewrite alen_app, alen_drop by lia. lia. }
  wp_step. wp_step; [done|]. wp_step. unfold set_cached. wp_step.
  set (s3 := MkManager _ _ _ _ _ _ _ _).
  assert (cst s3 p (with_sess t c) ev) as Hc3 by (destruct Hc2; by split).
  wp_step. eapply wp_cget; [done|]. wp_step. eapply wp_cset; [done|].
  eapply cst_upd in Hc3. wp_step. wp_step; [done|]. rewrite Hp. cbn [app].
  do 4 (wp_step; wp_step; [aget_lit|]). wp_step. eapply wp_cget; [done|]. rewrite Eord, Eid. cbn [order with_seed with_sess].
  rewrite !Z.eqb_refl. cbn [negb orb]. do 2 wp_step. wp_step. eapply wp_cset; [done|]. eapply cst_upd in Hc3.
  wp_step. eapply (wp_notify_quiet fuel); [done|done|exact Hc3|]. intros s4 Hc4.
  wp_step. eapply wp_cget; [done|]. wp_step. eapply wp_cset; [done|]. eapply cst_upd in Hc4. wp_step.
  cbn [need id with_seed with_sess with_tick with_freq with_order] in *. rewrite Hneed in Hc4.
  replace (alen d + 6 - 6) with (alen d) in Hc4 by lia. rewrite (uwrap_small 64) in Hc4 by lia.
  assert (take (Z.to_nat (alen d)) (drop 6 (b0 :: b1 :: b2 :: b3 :: b4 :: b5 :: d ++ tl)) = d) as Ed.
  { simpl. by rewrite drop_0, alen_length, Nat2Z.id, take_app_length. }
  rewrite Ed in Hc4.
  eapply HQ; [exact Hc4|done..].
Qed.

(** ** The stream of frames *)

Definition to_event (cid : Z) (m : Z * bytes) : event := EvData (s32 cid) (u16 m.1) m.2 (alen m.2).

(** The client expects the messages [ms] packed from sender state [pk]: what has
    arrived and what is still to come ([fut]) spells out their frames, the first
    possibly without its header. *)
Record expecting (cid : Z) (pk : packet) (ms : list (Z * bytes)) (fut : bytes)
    (c : ev_client T) (si : bytes) : Prop := {
  ex_rep : s_rep (sess c) si;
  ex_mark : mark c = 0;
  ex_id : id c = cid;
  ex_seed : seed c = wseed pk;
  ex_order : order c = worder pk;
  ex_pk : packet_ok pk;
  ex_fits : Forall fits ms;
  ex_bytes : (need c = 0 /\ si ++ fut = frames pk ms) \/
    exists m ms', ms = m :: ms' /\ need c = alen m.2 + 6 /\
      si ++ fut = (scramble (wseed pk) (packet_plain (worder pk) m.1 m.2)).1 ++ frames (next_packet pk m) ms'
}.

Definition starved (c : ev_client T) (si : bytes) : Prop :=
  (need c = 0 /\ alen si < 2) \/ (0 < need c /\ alen si < need c).

Definition frames_rank (ms : list (Z * bytes)) (need : Z) : nat :=
  2 * length ms + (if decide (need = 0%Z) then 1 else 0).

Definition recv_state (p cid : Z) (ev0 : list event) (ms0 : list (Z * bytes)) (pk0 : packet) (fut : bytes)
    (rank : nat) (s : client_manager T) : Prop :=
  exists c si pk done ms, ms0 = done ++ ms /\ pk = last_packet pk0 done /\
    cst s p c (ev0 ++ (to_event cid <$> done)) /\ expecting cid pk ms fut c si /\
    rank = frames_rank ms (need c).

Definition recv_done (p cid : Z) (ev0 : list event) (ms0 : list (Z * bytes)) (pk0 : packet) (fut : bytes)
    (s : client_manager T) : Prop :=
  exists c si pk done ms, ms0 = done ++ ms /\ pk = last_packet pk0 done /\
    cst s p c (ev0 ++ (to_event cid <$> done)) /\ expecting cid pk ms fut c si /\ starved c si.

Lemma last_packet_snoc pk l m : last_packet pk (l ++ [m]) = next_packet (last_packet pk l) m.
Proof. revert pk. induction l as [|x l IH]; intros pk; simpl; [done|]. apply IH. Qed.

Lemma wp_round fuel p cid ev0 ms0 pk0 fut rank s :
  (forall h, script h = []) -> (0 < fuel)%nat -> recv_state p cid ev0 ms0 pk0 fut rank s ->
  wpd (c ← cget p;
       if negb (mark c =? 0) then mret (inr true)
       else if need c =? 0 then read_header script fuel p else read_body script fuel p)
    (fun r s' => match r with
     | inl _ => exists k, (k < rank)%nat /\ recv_state p cid ev0 ms0 pk0 fut k s'
     | inr go => go = true /\ recv_done p cid ev0 ms0 pk0 fut s'
     end) s.
Proof.
  intros Hq Hfl (c & si & pk & dn & ms & Ems & Epk & Hc & X & ->).
  destruct (X) as [Xr Xm Xi Xs Xo [Xp1 Xp2] Xf Xb].
  wp_step. eapply wp_cget; [done|]. rewrite Xm. cbn [Z.eqb negb].
  destruct Xb as [[Hn Hb]|(m & ms' & -> & Hn & Hb)].
  - rewrite Hn. cbn [Z.eqb]. destruct (decide (alen si < 2)) as [Hlt|Hge].
    { unfold read_header. wp_step. eapply (wp_input_size s p c); [done|done|]. intros s1 Hc1.
      rewrite (proj2 (Z.ltb_lt _ _)) by done. wp_step. split; [done|].
      exists c, si, pk, dn, ms. split_and!; [done|done|done|done|left; lia]. }
    destruct ms as [|m ms'].
    { simpl in Hb. apply app_eq_nil in Hb as [-> _]. rewrite alen_nil in Hge. lia. }
    apply Forall_cons in Xf as [Hfit Xf]. unfold fits in Hfit. pose proof (alen_nonneg m.2).
    cbn [frames] in Hb. unfold frame in Hb. rewrite <- app_assoc in Hb.
    destruct (app_prefix_of _ _ _ _ Hb) as [Ht Hd]; [rewrite alen_le_split; lia|].
    rewrite alen_le_split in Ht, Hd. change (Z.to_nat (Z.of_nat 2)) with 2%nat in *.
    eapply (wp_read_header _ s p c _ si (alen m.2 + 8)); [done|done|lia|done|lia|lia|unfold MAX_SEQMENT; lia|].
    intros s1 t Hc1 Hr1. replace (alen m.2 + 8 - 2) with (alen m.2 + 6) in Hc1 by lia.
    eexists. split; [|eexists _, (drop 2 si), pk, dn, (m :: ms'); split_and!; [done|done|exact Hc1| |reflexivity]].
    + unfold frames_rank. cbn [need with_need]. repeat case_decide; lia.
    + split; try done; [by apply Forall_cons|]. right. exists m, ms'. done.
  - rewrite (proj2 (Z.eqb_neq _ _)) by (pose proof (alen_nonneg m.2); lia).
    apply Forall_cons in Xf as [Hfit Xf]. destruct (decide (alen si < need c)) as [Hlt|Hge].
    { unfold read_body. wp_step. eapply (wp_input_size s p c); [done|done|]. intros s1 Hc1. wp_step. eapply wp_cget; [done|].
      unfold fits in Hfit. pose proof (alen_nonneg m.2). rewrite uwrap_small, (proj2 (Z.ltb_lt _ _)) by lia. wp_step.
      split; [done|]. exists c, si, pk, dn, (m :: ms'). split_and!; [done|done|done|done|right; lia]. }
    destruct (app_prefix_of _ _ _ _ Hb) as [Ht Hd]; [rewrite alen_scramble, alen_plain; lia|].
    rewrite alen_scramble, alen_plain, <- Hn in Ht, Hd.
    eapply (wp_read_body fuel s p c _ si m _ _ Hq Hfl Hc Xr); [by rewrite Xs|by rewrite Xo|done|done| |reflexivity|lia|].
    { by rewrite Xs, Xo. }
    intros s1 c1 Hc1 Hr1 Ei Em En Eo Es.
    eexists. split; [|eexists c1, _, (next_packet pk m), (dn ++ [m]), ms'; split_and!; [| | |split|reflexivity]].
    + unfold frames_rank. cbn [length]. repeat case_decide; lia.
    + by rewrite <- app_assoc.
    + by rewrite last_packet_snoc, Epk.
    + rewrite fmap_app, app_assoc. rewrite Xi in Hc1. exact Hc1.
    + exact Hr1.
    + congruence.
    + congruence.
    + by rewrite Es, Xs, Xo.
    + by rewrite Eo, Xo.
    + by apply next_packet_ok.
    + done.
    + left. split; [done|]. exact Hd.
Qed.

(** [read_complete] consumes every complete frame that has arrived. *)
Lemma wp_read_complete fuel rounds p cid ev0 ms0 pk0 fut rank s Q :
  (forall h, script h = []) -> (0 < fuel)%nat -> recv_state p cid ev0 ms0 pk0 fut rank s -> (rank < rounds)%nat ->
  (forall s', recv_done p cid ev0 ms0 pk0 fut s' -> Q tt s') ->
  wpd (read_complete script fuel rounds p) Q s.
Proof.
  intros Hq Hfl Hs Hr HQ. unfold read_complete, read_rounds.
  destruct Hs as (c & si & pk & dn & ms & Ems & Epk & Hc & X & Erank).
  wp_step. eapply wp_cget; [done|]. wp_step. eapply wp_cset; [done|]. apply (cst_upd _ _ _ (with_execute 1 c)) in Hc.
  wp_step. apply (wp_mono _ (fun go s' => go = true /\ recv_done p cid ev0 ms0 pk0 fut s')).
  - apply (wp_loop_rank (fun k _ s => recv_state p cid ev0 ms0 pk0 fut k s) _ _ _ _ rank); [|subst rank|done].
    + intros k [] s1 Hs1. by apply wp_round.
    + exists (with_execute 1 c), si, pk, dn, ms. split_and!; try done. destruct X. by split.
  - intros go s1 (-> & c1 & si1 & pk1 & dn1 & ms1 & E1 & E2 & Hc1 & X1 & St1). simpl.
    wp_step. eapply wp_cget; [done|]. rewrite (ex_mark _ _ _ _ _ _ X1). cbn [Z.eqb negb when]. wp_step. wp_step.
    wp_step. eapply wp_cget; [done|]. eapply wp_cset; [done|]. apply (cst_upd _ _ _ (with_execute 0 c1)) in Hc1.
    apply HQ. exists (with_execute 0 c1), si1, pk1, dn1, ms1. split_and!; try done. destruct X1. by split.
Qed.

(** ** Delivery in pieces *)

Lemma s_rep_fun t a b : s_rep t a -> s_rep t b -> a = b.
Proof.
  intros Ha Hb. set (n := Z.max (alen a) (alen b)). pose proof (alen_nonneg a).
  destruct (s_read_ok t a n Ha) as (t1 & E1 & _); [lia|]. destruct (s_read_ok t b n Hb) as (t2 & E2 & _); [lia|].
  rewrite E1 in E2. injection E2 as E _. rewrite !take_ge in E by (unfold n; rewrite !alen_length; lia). done.
Qed.

(** The bytes [chunk] arrive on the session of the client. *)
Definition arrive (p : Z) (chunk : bytes) (s s1 : client_manager T) : Prop :=
  exists c si t, clients s !! p = Some c /\ s_rep (sess c) si /\ s_rep t (si ++ chunk) /\
    s1 = upd_client p (with_sess t c) s.

(** However the chunks arrive, [read_complete] returns after each of them, and
    after the last one [Q] holds. *)
Fixpoint deliver (fuel rounds : nat) (p : Z) (chunks : list bytes) (Q : client_manager T -> Prop)
    (s : client_manager T) : Prop :=
  match chunks with
  | [] => Q s
  | chunk :: chunks => forall s1, arrive p chunk s s1 ->
      exists s2, read_complete script fuel rounds p s1 = Done tt s2 /\ deliver fuel rounds p chunks Q s2
  end.

(** A starved client that gets more bytes is ready for the next round. *)
Lemma recv_arrive p cid ev0 ms0 pk0 chunk fut s s1 :
  recv_done p cid ev0 ms0 pk0 (chunk ++ fut) s -> arrive p chunk s s1 ->
  exists rank, recv_state p cid ev0 ms0 pk0 fut rank s1 /\ (rank <= 2 * length ms0 + 1)%nat.
Proof.
  intros (c & si & pk & dn & ms & E1 & E2 & Hc & X & _) (c' & si' & t & Hl & Hr & Ht & ->).
  destruct (Hc) as [Hcl _ _]. assert (c' = c) as -> by congruence.
  assert (si' = si) as -> by (eapply s_rep_fun; [done|apply X]).
  eexists. split.
  - exists (with_sess t c), (si ++ chunk), pk, dn, ms. split_and!; [done|done|by eapply cst_upd| |reflexivity].
    destruct X as [Xr Xm Xi Xs Xo Xp Xf Xb]. split; try done.
    by rewrite <- app_assoc.
  - unfold frames_rank. rewrite E1, length_app. case_decide; lia.
Qed.

(** When nothing is to come, a starved client has seen every message. *)
Lemma recv_finished p cid ev0 ms0 pk0 s :
  recv_done p cid ev0 ms0 pk0 [] s ->
  exists c, cst s p c (ev0 ++ (to_event cid <$> ms0)) /\ s_rep (sess c) [] /\ need c = 0 /\
    seed c = wseed (last_packet pk0 ms0) /\ order c = worder (last_packet pk0 ms0).
Proof.
  intros (c & si & pk & dn & ms & E1 & E2 & Hc & [Xr Xm Xi Xs Xo Xp Xf Xb] & St). rewrite app_nil_r in Xb.
  destruct Xb as [[Hn Hb]|(m & ms' & -> & Hn & Hb)].
  - destruct ms as [|m ms']; last first.
    { exfalso. apply (f_equal alen) in Hb. cbn [frames] in Hb. unfold frame in Hb.
      rewrite !alen_app, alen_le_split, alen_scramble, alen_plain in Hb.
      pose proof (alen_nonneg m.2). pose proof (alen_nonneg (frames (next_packet pk m) ms')).
      destruct St; lia. }
    rewrite app_nil_r in E1. subst dn. exists c. simpl in Hb. subst si pk. done.
  - exfalso. apply (f_equal alen) in Hb. rewrite alen_app, alen_scramble, alen_plain in Hb.
    pose proof (alen_nonneg m.2). pose proof (alen_nonneg (frames (next_packet pk m) ms')). destruct St; lia.
Qed.

Lemma deliver_frames fuel rounds p cid ev0 ms0 pk0 chunks s :
  (forall h, script h = []) -> (0 < fuel)%nat -> (2 * length ms0 + 1 < rounds)%nat ->
  recv_done p cid ev0 ms0 pk0 (mjoin chunks) s ->
  deliver fuel rounds p chunks (recv_done p cid ev0 ms0 pk0 []) s.
Proof.
  intros Hq Hfl Hr. revert s. induction chunks as [|chunk chunks IH]; intros s Hs; [done|].
  intros s1 Ha. destruct (recv_arrive _ _ _ _ _ _ _ _ _ Hs Ha) as (rank & Hs1 & Hrank).
  assert (wpd (read_complete script fuel rounds p) (fun _ s2 => recv_done p cid ev0 ms0 pk0 (mjoin chunks) s2) s1) as W.
  { eapply wp_read_complete; [done|done|done|lia|done]. }
  apply wpd_Done in W as ([] & s2 & E & Hd). exists s2. split; [done|]. by apply IH.
Qed.

Lemma deliver_mono fuel rounds p chunks (Q Q' : client_manager T -> Prop) s :
  (forall s', Q s' -> Q' s') -> deliver fuel rounds p chunks Q s -> deliver fuel rounds p chunks Q' s.
Proof.
  intros HQ. revert s. induction chunks as [|chunk chunks IH]; intros s; simpl; [apply HQ|].
  intros Hd s1 Ha. destruct (Hd s1 Ha) as (s2 & E & Hd2). eauto.
Qed.


(** ** Inputs that abort the server *)

Lemma cget_Done (s : client_manager T) p c : clients s !! p = Some c -> cget p s = Done c s.
Proof. intros Hc. unfold cget, mbind, M_bind, get, deref. by rewrite Hc. Qed.

Lemma cset_Done (s : client_manager T) p c c' : clients s !! p = Some c -> cset p c' s = Done tt (upd_client p c' s).
Proof.
  intros Hc. unfold cset, mbind, M_bind, get, require. by rewrite bool_decide_true by (by exists c).
Qed.

Lemma on_session_Done {A} (s : client_manager T) p c (m : M T A) a t :
  clients s !! p = Some c -> m (sess c) = Done a t -> on_session p m s = Done a (upd_client p (with_sess t c) s).
Proof. intros Hc Hm. unfold on_session. by rewrite Hc, Hm. Qed.

Lemma upd_client_lookup (s : client_manager T) p c : clients (upd_client p c s) !! p = Some c.
Proof. apply lookup_insert_eq. Qed.

(** A peer that sends a header with a length of 0, 1 or 2 aborts the whole
    server: the length is checked with an assertion instead of closing the
    connection. *)
Theorem short_header_aborts fuel rounds p c s si v rest :
  clients s !! p = Some c -> s_rep (sess c) si -> mark c = 0 -> need c = 0 ->
  si = le_split 2 v ++ rest -> 0 <= v <= 2 -> (0 < rounds)%nat ->
  read_complete script fuel rounds p s = Fault AssertFail.
Proof.
  intros Hc Hr Hm Hn Hsi Hv Hrd. unfold read_complete, read_rounds.
  erewrite bind_Done by by apply cget_Done. erewrite bind_Done by by eapply cset_Done.
  apply bind_Fault. destruct rounds as [|rounds]; [lia|]. cbn [loop]. apply bind_Fault.
  erewrite bind_Done by (apply cget_Done, upd_client_lookup). simpl. rewrite Hm, Hn. simpl. unfold read_header.
  erewrite bind_Done; last first.
  { eapply on_session_Done; [apply upd_client_lookup|]. by apply s_input_size_ok. }
  assert (alen si = alen rest + 2) as Hlen by (rewrite Hsi, alen_app, alen_le_split; lia).
  pose proof (alen_nonneg rest). rewrite (proj2 (Z.ltb_ge _ _)) by lia.
  destruct (s_read_ok _ _ 2 Hr) as (t & Et & _); [lia|].
  erewrite bind_Done; last first.
  { eapply on_session_Done; [apply upd_client_lookup|]. simpl. exact Et. }
  change (Z.to_nat 2) with 2%nat. rewrite Hsi, le_split2. cbn [app take].
  erewrite bind_Done; [|unfold deref; rewrite aget_lookup by lia; reflexivity].
  erewrite bind_Done; [|unfold deref; rewrite aget_lookup by lia; reflexivity].
  erewrite bind_Done by (apply cget_Done, upd_client_lookup). rewrite le_join2, uwrap_small by lia.
  erewrite bind_Done by (eapply cset_Done, upd_client_lookup). apply bind_Fault.
  unfold c_assert. by rewrite (proj2 (Z.ltb_ge _ _)) by lia.
Qed.

End reading.

(** ** The table of clients *)

Section managing.
Context {T : Type} `{SL : SessionLaws T} (script : list event -> list action).

Definition with_container (c : object_container Z) (s : client_manager T) : client_manager T :=
  MkManager (clients s) (next_addr s) c (max_offset s) (mindex s) (now s) (cached s) (events s).

(** [live] maps the slots in use to the addresses of their clients. *)
Record mgr_ok (max : Z) (s : client_manager T) (live : gmap Z Z) : Prop := {
  mo_table : exists fl, c_ok max (container s) fl live;
  mo_max : 0 < max <= 999999999;
  mo_off : max < max_offset s <= 10 ^ 9;
  mo_index : 1 <= mindex s < 2 ^ 32;
  mo_live slot p : live !! slot = Some p ->
    exists c, clients s !! p = Some c /\ id c mod max_offset s = slot;
  mo_all p c : clients s !! p = Some c ->
    live !! (id c mod max_offset s) = Some p /\ 0 <= id c < mindex s * max_offset s /\
    (exists si, s_rep (sess c) si) /\ p < next_addr s
}.

Lemma slot_of x off : 0 <= x < 2 ^ 64 -> 0 < off -> u64 (x - x / off * off) = x mod off.
Proof.
  intros Hx Ho. pose proof (Z.mod_pos_bound x off Ho). pose proof (Z.mod_le x off ltac:(lia) Ho).
  replace (x - x / off * off) with (x mod off) by (rewrite Z.mod_eq by lia; ring).
  apply uwrap_small; lia.
Qed.

Lemma mo_id_range max s live p c : mgr_ok max s live -> clients s !! p = Some c -> 0 <= id c < 2 ^ 64.
Proof.
  intros K Hc. destruct (mo_all _ _ _ K p c Hc) as (_ & Hi & _). pose proof (mo_max _ _ _ K). pose proof (mo_off _ _ _ K).
  pose proof (mo_index _ _ _ K). assert (mindex s * max_offset s <= 2 ^ 32 * 10 ^ 9) by (apply Z.mul_le_mono_nonneg; lia). lia.
Qed.

(** A live slot is an [int]. *)
Lemma mo_slot max s live p c : mgr_ok max s live -> clients s !! p = Some c ->
  s32 (id c mod max_offset s) = id c mod max_offset s.
Proof.
  intros K Hc. destruct (mo_all _ _ _ K p c Hc) as (Hl & _). destruct (mo_table _ _ _ K) as [fl T'].
  assert (is_Some (live !! (id c mod max_offset s))) as Hs by (by exists p). apply (ok_dom _ _ _ _ T') in Hs.
  pose proof (mo_max _ _ _ K). apply swrap_small; unfold in_s; lia.
Qed.

Lemma get_client_spec max s live x :
  mgr_ok max s live -> 0 <= x < 2 ^ 64 ->
  exists o, get_client x s = Done o s /\ forall p, o = Some p <-> exists c, clients s !! p = Some c /\ id c = x.
Proof.
  intros K Hx. pose proof (mo_max _ _ _ K) as Hmax. pose proof (mo_off _ _ _ K) as Hoff.
  destruct (mo_table _ _ _ K) as [fl Tb]. unfold get_client, on_container.
  erewrite bind_Done by reflexivity. rewrite slot_of by lia.
  erewrite bind_Done; [|unfold zoom; rewrite (wp_container_get _ _ _ _ Tb); reflexivity].
  replace (MkManager _ _ _ _ _ _ _ _) with s by by destruct s.
  destruct (live !! s32 (x mod max_offset s)) as [p|] eqn:E.
  - destruct (mo_live _ _ _ K _ _ E) as (c & Hc & Hslot). erewrite bind_Done by by apply cget_Done.
    destruct (Z.eqb_spec (id c) x) as [Hid|Hid]; simpl; eexists; (split; [reflexivity|]); intros q; split.
    + intros [= <-]. eauto.
    + intros (c' & Hc' & Hid'). f_equal. destruct (mo_all _ _ _ K _ _ Hc) as (E1 & _).
      destruct (mo_all _ _ _ K _ _ Hc') as (E2 & _). congruence.
    + done.
    + intros (c' & Hc' & Hid'). destruct (mo_all _ _ _ K _ _ Hc') as (E2 & _).
      pose proof (mo_slot _ _ _ _ _ K Hc') as Es. rewrite Hid' in *. rewrite Es, E2 in E. congruence.
  - eexists; split; [reflexivity|]. intros q. split; [done|]. intros (c' & Hc' & Hid').
    destruct (mo_all _ _ _ K _ _ Hc') as (E2 & _). pose proof (mo_slot _ _ _ _ _ K Hc') as Es.
    rewrite Hid' in *. rewrite Es, E2 in E. done.
Qed.

(** Closing a client frees its session, its slot and its struct. *)
Lemma close_client_spec max s live p c :
  mgr_ok max s live -> clients s !! p = Some c ->
  exists tab, close_client p s = Done tt (MkManager (delete p (clients s)) (next_addr s) tab (max_offset s)
      (mindex s) (now s) (cached s) (events s)) /\
    exists fl, c_ok max tab fl (delete (id c mod max_offset s) live).
Proof.
  intros K Hc. pose proof (mo_max _ _ _ K) as Hmax. pose proof (mo_off _ _ _ K) as Hoff.
  destruct (mo_all _ _ _ K _ _ Hc) as (Hl & Hi & (si & Hr) & _). destruct (mo_table _ _ _ K) as [fl Tb].
  destruct (s_free_ok _ _ Hr) as [t Ht]. unfold close_client, on_container.
  erewrite bind_Done by by eapply on_session_Done. erewrite bind_Done by apply cget_Done, upd_client_lookup.
  erewrite bind_Done by reflexivity. cbn [id with_sess max_offset upd_client].
  rewrite slot_of, (mo_slot _ _ _ _ _ K Hc) by (try lia; by eapply mo_id_range).
  assert (wpd (container_remove (id c mod max_offset s)) (fun _ tab =>
    exists fl, c_ok max tab fl (delete (id c mod max_offset s) live)) (container s)) as W.
  { apply (wp_container_remove _ _ _ _ Tb); [by rewrite Hl|eauto]. }
  apply wpd_Done in W as ([] & tab & E & H'). exists tab. split; [|done].
  erewrite bind_Done; [|unfold zoom; cbn [container upd_client]; rewrite E; reflexivity].
  erewrite bind_Done by reflexivity. unfold set_clients, modify. cbn. do 2 f_equal. apply delete_insert_eq.
Qed.

Lemma mgr_ok_close max s live p c tab :
  mgr_ok max s live -> clients s !! p = Some c -> (exists fl, c_ok max tab fl (delete (id c mod max_offset s) live)) ->
  mgr_ok max (MkManager (delete p (clients s)) (next_addr s) tab (max_offset s) (mindex s) (now s) (cached s) (events s))
    (delete (id c mod max_offset s) live).
Proof.
  intros K Hc Tb. destruct (mo_all _ _ _ K _ _ Hc) as (Hl & _). split; simpl; try apply K; try done.
  - intros slot q [Hne Hq]%lookup_delete_Some. destruct (mo_live _ _ _ K _ _ Hq) as (c' & Hc' & E).
    exists c'. split; [|done]. rewrite lookup_delete_ne; [done|]. intros ->. congruence.
  - intros q c' [Hne Hq]%lookup_delete_Some. destruct (mo_all _ _ _ K _ _ Hq) as (E & H1 & H2).
    split; [|done]. rewrite lookup_delete_ne; [done|]. intros E'. rewrite E' in Hl. congruence.
Qed.

Lemma mgr_ok_fresh max s live : mgr_ok max s live -> clients s !! next_addr s = None.
Proof.
  intros K. apply eq_None_not_Some. intros [c Hc]. destruct (mo_all _ _ _ K _ _ Hc) as (_ & _ & _ & ?). lia.
Qed.

Lemma mgr_ok_accept max s live tab fl slot t c si :
  mgr_ok max s live -> mindex s + 1 < 2 ^ 32 -> 0 <= slot < max -> live !! slot = None ->
  c_ok max tab fl (<[slot := next_addr s]> live) -> s_rep (sess c) si -> id c = mindex s * max_offset s + slot ->
  mgr_ok max (MkManager (<[next_addr s := c]> (clients s)) (next_addr s + 1) tab (max_offset s) (mindex s + 1) (now s)
     (cached s) t) (<[slot := next_addr s]> live).
Proof.
  intros K Hix Hslot Hfree Tb Hr Hid. pose proof (mo_off _ _ _ K) as Hoff. pose proof (mo_index _ _ _ K) as Hi0.
  assert (id c mod max_offset s = slot) as Hmod.
  { rewrite Hid, Z.add_comm, Z.mod_add by lia. apply Z.mod_small. lia. }
  split; simpl; [eauto|apply K|done|lia| |].
  - intros sl q [[<- <-]|[Hne Hq]]%lookup_insert_Some; [exists c; by rewrite lookup_insert_eq|].
    destruct (mo_live _ _ _ K _ _ Hq) as (c' & Hc' & E). exists c'. split; [|done].
    rewrite lookup_insert_ne; [done|]. intros <-. by rewrite (mgr_ok_fresh _ _ _ K) in Hc'.
  - intros q c' [[<- <-]|[Hne Hq]]%lookup_insert_Some.
    + rewrite Hmod, lookup_insert_eq. split_and!; [done|nia|rewrite Hid; nia|eauto|lia].
    + destruct (mo_all _ _ _ K _ _ Hq) as (E & H1 & H2 & H3). rewrite lookup_insert_ne by congruence.
      split_and!; [done|lia|nia|done|lia].
Qed.

Lemma accept_client_spec fuel max s live t si :
  (forall h i, script (h ++ [EvAccept i]) = []) -> (0 < fuel)%nat -> mgr_ok max s live -> s_rep t si -> mindex s + 1 < 2 ^ 32 ->
  exists s', accept_client script fuel t s = Done tt s' /\
    ((Z.of_nat (base.size live) = max /\ clients s' = clients s /\ events s' = events s /\ mindex s' = mindex s /\
      max_offset s' = max_offset s /\ mgr_ok max s' live) \/
     (exists c slot, clients s' = <[next_addr s := c]> (clients s) /\ 0 <= slot /\ id c = mindex s * max_offset s + slot /\
        events s' = events s ++ [EvAccept (s32 (id c))] /\ mindex s' = mindex s + 1 /\ max_offset s' = max_offset s /\
        mgr_ok max s' (<[slot := next_addr s]> live))).
Proof.
  intros Hq Hfl K Hr Hix. pose proof (mo_max _ _ _ K) as Hmax. pose proof (mo_off _ _ _ K) as Hoff.
  pose proof (mo_index _ _ _ K) as Hi0. destruct (mo_table _ _ _ K) as [fl Tb].
  set (p := next_addr s). set (c0 := MkClient t false 0 0 0 0 0 0 0 0 false).
  unfold accept_client, on_container. erewrite bind_Done by reflexivity. erewrite bind_Done by reflexivity.
  fold p. set (s1 := MkManager _ _ _ _ _ _ _ _).
  assert (wpd (container_add (Some p)) (fun slot tab => (slot = -1 /\ Z.of_nat (base.size live) = max /\ tab = container s) \/
     (0 <= slot < max /\ live !! slot = None /\ exists fl', c_ok max tab fl' (<[slot := p]> live))) (container s)) as W.
  { apply (wp_container_add _ _ _ _ Tb); [left; split_and!; [done|lia|done]|]. intros sl fl' tab Hs Hl _ Kt. right. eauto. }
  apply wpd_Done in W as (slot & tab & E & W).
  erewrite bind_Done; [|unfold zoom; cbn [container s1]; rewrite E; reflexivity].
  destruct W as [(-> & Hfull & ->)|(Hslot & Hfree & fl' & Kt)].
  - rewrite Z.eqb_refl. destruct (s_free_ok _ _ Hr) as [t' Ht].
    erewrite bind_Done; [|eapply (on_session_Done _ p c0); [apply lookup_insert_eq|exact Ht]].
    erewrite bind_Done by reflexivity. unfold set_clients, modify. eexists. split; [reflexivity|]. left.
    cbn [clients upd_client s1 next_addr container max_offset mindex now cached events].
    rewrite !delete_insert_eq, delete_id by by apply (mgr_ok_fresh max _ live). split_and!; try done.
    destruct K as [? ? ? ? ? Ka]. split; try done. intros q c Hc. destruct (Ka q c Hc) as (?&?&?&?). simpl. split_and!; try done; lia.
  - rewrite (proj2 (Z.eqb_neq _ _)) by lia. erewrite bind_Done by reflexivity. erewrite bind_Done by reflexivity.
    cbn [clients s1 next_addr container max_offset mindex now cached events]. set (s2 := MkManager _ _ _ _ _ _ _ _).
    erewrite bind_Done by (apply (cget_Done s2 p c0), lookup_insert_eq).
    assert (mindex s * max_offset s + slot < 2 ^ 64) as Hwrap.
    { assert (mindex s * max_offset s <= 2 ^ 32 * 10 ^ 9) by (apply Z.mul_le_mono_nonneg; lia). lia. }
    rewrite (uwrap_small 64) by nia.
    erewrite bind_Done by (eapply cset_Done, lookup_insert_eq).
    destruct (s_setcb_ok _ _ true false true Hr) as (t1 & E1 & Hr1).
    erewrite bind_Done; [|eapply on_session_Done; [apply upd_client_lookup|exact E1]].
    destruct (s_enable_ok _ _ true false Hr1) as (t2 & E2 & Hr2).
    erewrite bind_Done; [|eapply on_session_Done; [apply upd_client_lookup|exact E2]].
    destruct fuel as [|fuel]; [lia|]. cbn [notify]. unfold add_event. erewrite bind_Done by reflexivity.
    erewrite bind_Done by reflexivity. cbn [events upd_client]. rewrite Hq. eexists. split; [reflexivity|]. right.
    eexists _, slot. cbn [clients upd_client s2 s1 next_addr container max_offset mindex now cached events].
    rewrite !insert_insert_eq, (uwrap_small 32) by lia. split_and!; [reflexivity|lia|done|done|done|done|].
    eapply mgr_ok_accept; try done.
Qed.

(** As many clients as slots in use. *)
Lemma mgr_ok_size max s live : mgr_ok max s live -> base.size (clients s) = base.size live.
Proof.
  intros K. assert ((map_to_list live).*2 ≡ₚ (map_to_list (clients s)).*1) as Hp.
  { apply NoDup_Permutation; [|apply NoDup_fst_map_to_list|].
    - apply NoDup_fmap_2_strong; [|apply NoDup_map_to_list].
      intros [i p] [j q] Hi%elem_of_map_to_list Hj%elem_of_map_to_list E. simpl in E. subst q.
      destruct (mo_live _ _ _ K _ _ Hi) as (c & Hc & <-). destruct (mo_live _ _ _ K _ _ Hj) as (c' & Hc' & <-). congruence.
    - intros p. rewrite !list_elem_of_fmap. split.
      + intros ([i q] & -> & Hi%elem_of_map_to_list). destruct (mo_live _ _ _ K _ _ Hi) as (c & Hc & _).
        exists (q, c). split; [done|]. by apply elem_of_map_to_list.
      + intros ([q c] & -> & Hc%elem_of_map_to_list). destruct (mo_all _ _ _ K _ _ Hc) as (Hl & _).
        eexists (_, q). split; [done|]. by apply elem_of_map_to_list. }
  apply Permutation_length in Hp. rewrite !length_fmap in Hp. by rewrite !length_map_to_list in Hp.
Qed.

Lemma pow10_above_spec fuel k max :
  0 <= max < 10 ^ k -> 0 <= k < Z.of_nat fuel -> exists off, pow10_above fuel max = Some off /\ max < off <= 10 ^ k.
Proof.
  revert k max. induction fuel as [|fuel IH]; intros k max Hm Hk; [lia|]. simpl.
  destruct (Z.leb_spec max 0); [exists 1; split; [done|]; lia|].
  assert (k <> 0) by (intros ->; change (10 ^ 0) with 1 in Hm; lia).
  assert (10 ^ k = 10 * 10 ^ (k - 1)) as E by (rewrite <- Z.pow_succ_r by lia; f_equal; lia).
  destruct (IH (k - 1) (max / 10)) as (off & -> & Ho); [|lia|].
  - split; [apply Z.div_pos; lia|apply Z.div_lt_upper_bound; lia].
  - exists (10 * off). split; [done|]. pose proof (Z.div_mod max 10 ltac:(lia)). pose proof (Z.mod_pos_bound max 10 ltac:(lia)). lia.
Qed.

Lemma client_manager_create_spec max s0 :
  0 < max <= 999999999 -> clients s0 = ∅ ->
  exists s, client_manager_create max s0 = Done tt s /\ mgr_ok max s ∅ /\ clients s = ∅ /\ mindex s = 1 /\
    pow10_above 21 max = Some (max_offset s).
Proof.
  intros Hm Hc. assert (wpd (container_create max) (fun _ tab => exists fl, c_ok max tab fl ∅) (container s0)) as W.
  { apply wp_container_create; [lia|eauto]. }
  apply wpd_Done in W as ([] & tab & E & Tb). unfold client_manager_create, on_container.
  erewrite bind_Done; [|unfold zoom; rewrite swrap_small by (unfold in_s; lia); rewrite E; reflexivity].
  destruct (pow10_above_spec 21 9 max) as (off & Eo & Ho); [lia|lia|]. rewrite Eo.
  erewrite bind_Done by reflexivity. erewrite bind_Done by reflexivity. eexists. split; [reflexivity|].
  split; [|done]. split; simpl; [done|done|lia|lia|by intros ? ? ?|]. intros p c. by rewrite Hc.
Qed.

Definition ids_of (s : client_manager T) : gset Z := map_to_set (fun _ c => id c) (clients s).

(** The states of a manager for [max] clients, with the set of all ids it ever
    gave out. [reach_io] is what happens on the connection of one client. *)
Inductive reach (fuel : nat) (max : Z) : client_manager T -> gset Z -> Prop :=
| reach_new s0 s :
    clients s0 = ∅ -> client_manager_create max s0 = Done tt s -> reach fuel max s ∅
| reach_accept s ids t si s' :
    reach fuel max s ids -> s_rep t si -> mindex s + 1 < 2 ^ 32 -> accept_client script fuel t s = Done tt s' ->
    reach fuel max s' (ids ∪ ids_of s')
| reach_io s ids p c c' si :
    reach fuel max s ids -> clients s !! p = Some c -> id c' = id c -> s_rep (sess c') si ->
    reach fuel max (upd_client p c' s) ids
| reach_close s ids p s' :
    reach fuel max s ids -> is_Some (clients s !! p) -> close_client p s = Done tt s' -> reach fuel max s' ids.

Lemma mgr_ok_io max s live p c c' si :
  mgr_ok max s live -> clients s !! p = Some c -> id c' = id c -> s_rep (sess c') si -> mgr_ok max (upd_client p c' s) live.
Proof.
  intros K Hc Hid Hr. split; simpl; try apply K.
  - intros slot q Hq. destruct (mo_live _ _ _ K _ _ Hq) as (c1 & Hc1 & E).
    destruct (decide (p = q)) as [<-|Hne]; [|exists c1; by rewrite lookup_insert_ne by done].
    exists c'. rewrite lookup_insert_eq, Hid. split; [done|]. congruence.
  - intros q c1 [[<- <-]|[Hne Hq]]%lookup_insert_Some; [|by apply K]. rewrite Hid.
    destruct (mo_all _ _ _ K _ _ Hc) as (?&?&_&?). eauto.
Qed.

Lemma reach_ok fuel max s ids :
  (forall h i, script (h ++ [EvAccept i]) = []) -> (0 < fuel)%nat -> 0 < max <= 999999999 -> reach fuel max s ids ->
  exists live, mgr_ok max s live /\ forall x, x ∈ ids -> x < mindex s * max_offset s.
Proof.
  intros Hq Hfl Hm. induction 1 as [s0 s Hc E|s ids t si s' _ (live & K & Hids) Hr Hix E
    |s ids p c c' si _ (live & K & Hids) Hc Hid Hr|s ids p s' _ (live & K & Hids) [c Hc] E].
  - destruct (client_manager_create_spec max s0 Hm Hc) as (s1 & E1 & K & _). rewrite E in E1. injection E1 as <-.
    exists ∅. split; [done|]. set_solver.
  - destruct (accept_client_spec fuel max s live t si Hq Hfl K Hr Hix) as (s1 & E1 & H').
    rewrite E in E1. injection E1 as <-. pose proof (mo_off _ _ _ K).
    assert (forall live', mgr_ok max s' live' -> forall x, x ∈ ids_of s' -> x < mindex s' * max_offset s') as Hnew.
    { intros live' K' x (i & c & Hc & <-)%elem_of_map_to_set. by apply (mo_all _ _ _ K' _ _ Hc). }
    destruct H' as [(_ & _ & _ & Ei & Eo & K')|(c & slot & _ & _ & _ & _ & Ei & Eo & K')];
      (eexists; split; [done|]; intros x [Hx|Hx]%elem_of_union; [|by eapply Hnew]; apply Hids in Hx; rewrite Ei, Eo; lia).
  - exists live. split; [by eapply mgr_ok_io|done].
  - destruct (close_client_spec max s live p c K Hc) as (tab & E1 & Tb). rewrite E in E1. injection E1 as ->.
    eexists. split; [by apply mgr_ok_close|done].
Qed.

(** C10: in every reachable state of the manager an id resolves to exactly the
    client that has it, and every other id, in particular one of a closed
    client, to nothing; accepting fails only when [max] clients are connected
    and otherwise gives an id that no client ever had; closing frees exactly
    the one client. Ids are unique for 2^32 - 2 connections. *)
Theorem client_ids_resolve fuel max s ids :
  (forall h i, script (h ++ [EvAccept i]) = []) -> (0 < fuel)%nat -> 0 < max <= 999999999 -> reach fuel max s ids ->
  (forall x, 0 <= x < 2 ^ 64 -> exists o, get_client x s = Done o s /\
     forall p, o = Some p <-> exists c, clients s !! p = Some c /\ id c = x) /\
  (forall t si, s_rep t si -> mindex s + 1 < 2 ^ 32 -> exists s', accept_client script fuel t s = Done tt s' /\
     ((Z.of_nat (base.size (clients s)) = max /\ clients s' = clients s /\ events s' = events s) \/
      exists p c, clients s !! p = None /\ clients s' = <[p := c]> (clients s) /\ (id c ∉ ids) /\
        events s' = events s ++ [EvAccept (s32 (id c))])) /\
  (forall p, is_Some (clients s !! p) -> exists s', close_client p s = Done tt s' /\
     clients s' = delete p (clients s) /\ events s' = events s).
Proof.
  intros Hq Hfl Hm (live & K & Hids)%reach_ok; [|done..]. split_and!.
  - intros x Hx. by apply (get_client_spec max s live).
  - intros t si Hr Hix. destruct (accept_client_spec fuel max s live t si Hq Hfl K Hr Hix) as (s' & E & H').
    exists s'. split; [done|]. rewrite (mgr_ok_size _ _ _ K).
    destruct H' as [(? & ? & ? & _)|(c & slot & Ec & Hslot & Hid & Ee & _)]; [by left|right].
    exists (next_addr s), c. split_and!; [by eapply mgr_ok_fresh|done| |done].
    intros Hx%Hids. lia.
  - intros p [c Hc]. destruct (close_client_spec max s live p c K Hc) as (tab & E & _). by eexists.
Qed.

(** The [int] that Lua knows a client by. *)
Lemma truncated_differs x : 2 ^ 31 <= x < 2 ^ 63 -> u64 (s32 x) <> x.
Proof.
  intros Hx E. pose proof (swrap_range 32 x ltac:(lia)) as Hr. unfold in_s in Hr.
  destruct (decide (0 <= s32 x)) as [Hp|Hn]; [rewrite uwrap_small in E by lia; lia|].
  assert (u64 (s32 x) = s32 x + 2 ^ 64) as E2; [|lia].
  unfold u64, uwrap. symmetry. apply (Z.mod_unique_pos _ _ (-1)); lia.
Qed.

(** What Lua does with the number of a client that is not [p] leaves [p] alone. *)
Lemma close_other max s live p c n :
  mgr_ok max s live -> clients s !! p = Some c -> u64 (s32 n) <> id c ->
  match lclient_manager_close n false s with Done _ s' | Raise _ s' => clients s' !! p = Some c | Fault _ => False end.
Proof.
  intros K Hc Hn. destruct (get_client_spec max s live (u64 (s32 n)) K) as (o & E & Ho); [apply uwrap_range; lia|].
  unfold lclient_manager_close. cbv zeta. rewrite (bind_Done _ _ _ _ _ E). destruct o as [q|]; [|done].
  destruct (proj1 (Ho q) eq_refl) as (c' & Hc' & E'). assert (q <> p) as Hqp by (intros ->; congruence).
  unfold client_manager_close. rewrite bind_assoc, (bind_Done _ _ _ _ _ E).
  rewrite bind_assoc, (bind_Done _ _ _ _ _ (cget_Done _ _ _ Hc')). cbn [negb]. rewrite bind_assoc.
  destruct (negb (execute c' =? 0)).
  - rewrite (bind_Done _ _ _ _ _ (cset_Done _ _ _ _ Hc')). unfold mbind, M_bind. cbn. by rewrite lookup_insert_ne.
  - destruct (close_client_spec max s live q c' K Hc') as (tab & E2 & _). rewrite (bind_Done _ _ _ _ _ E2).
    unfold mbind, M_bind. cbn. by rewrite lookup_delete_ne.
Qed.

(** C25: the ids are 64 bits wide but the callbacks and the calls from Lua pass
    them as [int]: once the ids have reached 2^31, [accept_client] announces the
    client that it adds with a number that is not its id, and when Lua closes the
    client of that number the new client stays open. *)
Theorem truncated_ids_lost fuel max s ids t si s' :
  (forall h i, script (h ++ [EvAccept i]) = []) -> (0 < fuel)%nat -> 0 < max <= 999999999 -> reach fuel max s ids ->
  s_rep t si -> mindex s + 1 < 2 ^ 32 -> 2 ^ 31 <= mindex s * max_offset s ->
  accept_client script fuel t s = Done tt s' -> clients s' <> clients s ->
  exists p c n, clients s !! p = None /\ clients s' = <[p := c]> (clients s) /\ events s' = events s ++ [EvAccept n] /\ n <> id c /\
    match lclient_manager_close n false s' with Done _ s2 | Raise _ s2 => clients s2 !! p = Some c | Fault _ => False end.
Proof.
  intros Hq Hfl Hm (live & K & Hids)%reach_ok Hr Hix Hbig E Hne; [|done..].
  destruct (accept_client_spec fuel max s live t si Hq Hfl K Hr Hix) as (s1 & E1 & H1). rewrite E1 in E. injection E as ->.
  destruct H1 as [(_ & Ec & _)|(c & slot & Ec & Hs & Hid & Ee & _ & _ & K1)]; [done|].
  assert (clients s' !! next_addr s = Some c) as Hc by (rewrite Ec; apply lookup_insert_eq).
  assert (2 ^ 31 <= id c < 2 ^ 63) as Hb.
  { destruct (mo_all _ _ _ K1 _ _ Hc) as (_ & Hi & _). pose proof (mo_off _ _ _ K1). pose proof (mo_index _ _ _ K1).
    assert (mindex s' * max_offset s' <= 2 ^ 32 * 10 ^ 9) by (apply Z.mul_le_mono_nonneg; lia). lia. }
  exists (next_addr s), c, (s32 (id c)). split_and!; [by eapply mgr_ok_fresh|done|done| |].
  - intros En. pose proof (swrap_range 32 (id c) ltac:(lia)) as Hw. unfold in_s in Hw. lia.
  - eapply close_other; [done|done|]. rewrite swrap_small by (lia || apply swrap_range; lia). by apply truncated_differs.
Qed.

(** A client that sent more than [MAX_FREQ] messages within a second is
    closed by its timer, and the timer then writes to the client it has just
    freed. *)
Theorem timeout_flood_uses_freed fuel fuel' max s ids p c :
  (forall h i, script (h ++ [EvAccept i]) = []) -> (forall h i, script (h ++ [EvClose i]) = []) -> (0 < fuel)%nat -> (0 < fuel')%nat -> 0 < max <= 999999999 -> reach fuel max s ids ->
  clients s !! p = Some c -> MAX_FREQ < freq c ->
  timeout script fuel' p s = Fault UseAfterFree.
Proof.
  intros Hq Hq' Hfl Hfl' Hm (live & K & Hids)%reach_ok Hc Hfr; [|done..].
  destruct (close_client_spec max s live p c K Hc) as (tab & E & _).
  unfold timeout. erewrite bind_Done by by apply cget_Done. rewrite (proj2 (Z.ltb_lt _ _)) by done. cbn [when].
  erewrite bind_Done; last first.
  { unfold error_happen. erewrite bind_Done by by apply cget_Done. erewrite bind_Done by exact E.
    destruct fuel' as [|fuel']; [lia|]. cbn [notify]. unfold add_event. erewrite bind_Done by reflexivity.
    erewrite bind_Done by reflexivity. cbn [events]. rewrite Hq'. reflexivity. }
  apply bind_Fault. unfold cget, mbind, M_bind, get. cbn [clients]. by rewrite lookup_delete_eq.
Qed.

(** C24: when Lua closes a client from that client's own data callback, the close
    is postponed with [mark]; after the callback [read_complete] leaves its loop,
    frees the client and then writes [execute] into the freed struct. *)
Theorem close_in_callback_uses_freed fuel fuel' rounds max s ids p c :
  (forall h i, script (h ++ [EvAccept i]) = []) -> (0 < fuel)%nat -> (0 < rounds)%nat -> 0 < max <= 999999999 ->
  reach fuel max s ids -> clients s !! p = Some c -> execute c = 1 -> id c < 2 ^ 31 ->
  exists c', client_manager_close (s32 (id c)) false s = Done 0 (upd_client p c' s) /\
    read_rounds script fuel' rounds p (upd_client p (with_need 0 c') s) = Fault UseAfterFree.
Proof.
  intros Hq Hfl Hrd Hm (live & K & Hids)%reach_ok Hc Hx Hid; [|done..].
  destruct (mo_all _ _ _ K _ _ Hc) as (_ & Hi & (si & Hr) & _).
  rewrite swrap_small by (unfold in_s; lia). exists (with_mark 1 c). split.
  - destruct (get_client_spec max s live (id c) K) as (o & E & Ho); [lia|].
    rewrite (proj2 (Ho p)) in E by eauto. unfold client_manager_close. rewrite uwrap_small by lia.
    erewrite bind_Done by exact E. cbv beta iota. erewrite bind_Done by by apply cget_Done. rewrite Hx. cbn [negb Z.eqb Pos.eqb].
    erewrite bind_Done by by eapply cset_Done. done.
  - pose proof (mgr_ok_io max s live p c (with_need 0 (with_mark 1 c)) si K Hc eq_refl Hr) as K2.
    destruct (close_client_spec max _ live p _ K2 (upd_client_lookup _ _ _)) as (tab & E & _).
    destruct rounds as [|rounds]; [lia|]. unfold read_rounds. cbn [loop].
    erewrite bind_Done; last first.
    { cbv beta. rewrite bind_assoc. erewrite bind_Done by (apply cget_Done, upd_client_lookup). reflexivity. }
    cbn [negb]. erewrite bind_Done by (apply cget_Done, upd_client_lookup). cbn [mark with_need with_mark Z.eqb negb when].
    erewrite bind_Done by exact E. apply bind_Fault. unfold cget, mbind, M_bind, get. cbn [clients]. by rewrite lookup_delete_eq.
Qed.

(** ** Managers that have served many clients *)

Lemma reach_cycle fuel max (s0 : client_manager T) t si (n : nat) :
  (forall h i, script (h ++ [EvAccept i]) = []) -> (0 < fuel)%nat -> 0 < max <= 999999999 -> clients s0 = ∅ ->
  s_rep t si -> Z.of_nat n < 2 ^ 32 - 2 ->
  exists s ids, reach fuel max s ids /\ clients s = ∅ /\ mindex s = 1 + Z.of_nat n /\
    pow10_above 21 max = Some (max_offset s).
Proof.
  intros Hq Hfl Hm H0 Hr. induction n as [|n IH]; intros Hn.
  - destruct (client_manager_create_spec max s0 Hm H0) as (s & E & _ & Hc & Hi & Ho).
    exists s, ∅. split; [exact (reach_new fuel max s0 s H0 E)|done].
  - destruct IH as (s & ids & R & Hc & Hi & Ho); [lia|].
    destruct (reach_ok fuel max s ids Hq Hfl Hm R) as (live & K & _).
    pose proof (mgr_ok_size _ _ _ K) as Hsz. rewrite Hc, map_size_empty in Hsz.
    destruct (accept_client_spec fuel max s live t si Hq Hfl K Hr) as (s1 & E1 & H1); [lia|].
    destruct H1 as [(Hfull & _)|(c & slot & Ec & _ & _ & _ & Ei & Eo & K1)]; [lia|].
    assert (reach fuel max s1 (ids ∪ ids_of s1)) as R1 by (eapply reach_accept; [done|done|lia|done]).
    assert (clients s1 !! next_addr s = Some c) as Hc1 by (rewrite Ec; apply lookup_insert_eq).
    destruct (close_client_spec max s1 _ _ _ K1 Hc1) as (tab & E2 & _).
    eexists _, _. split; [by eapply reach_close; [exact R1|exists c|exact E2]|].
    cbn [clients mindex max_offset]. rewrite Ec, Hc, delete_insert_eq, delete_empty, Ei, Eo.
    split_and!; [done|lia|done].
Qed.

(** A manager without clients whose next id is large. *)
Lemma reach_big_id fuel max (s0 : client_manager T) t si n off :
  (forall h i, script (h ++ [EvAccept i]) = []) -> (0 < fuel)%nat -> 0 < max <= 999999999 -> clients s0 = ∅ ->
  s_rep t si -> 0 <= n < 2 ^ 32 - 2 -> pow10_above 21 max = Some off ->
  exists s ids s', reach fuel max s ids /\ mindex s = 1 + n /\ max_offset s = off /\ accept_client script fuel t s = Done tt s' /\ clients s' <> clients s.
Proof.
  intros Hq Hfl Hm H0 Hr Hn Hoff.
  destruct (reach_cycle fuel max s0 t si (Z.to_nat n) Hq Hfl Hm H0 Hr) as (s & ids & R & Hc & Hi & Ho); [lia|].
  rewrite Z2Nat.id in Hi by lia. rewrite Hoff in Ho. injection Ho as ->.
  destruct (reach_ok fuel max s ids Hq Hfl Hm R) as (live & K & _).
  pose proof (mgr_ok_size _ _ _ K) as Hsz. rewrite Hc, map_size_empty in Hsz.
  destruct (accept_client_spec fuel max s live t si Hq Hfl K Hr) as (s1 & E1 & H1); [lia|].
  destruct H1 as [(Hfull & _)|(c & slot & Ec & _)]; [lia|].
  exists s, ids, s1. split_and!; try done. rewrite Ec, Hc. apply insert_non_empty.
Qed.
End managing.

(** ** Concrete managers over socket sessions *)

Definition quiet : list event -> list action := fun _ => [].
Definition blank : client_manager world := MkManager ∅ 1 (MkContainer [] 0 [] None) 0 0 0 [] [].
Definition mgr1 : client_manager world := after (client_manager_create 3) blank.
Definition mgr2 : client_manager world := after (accept_client quiet 1 demo0) mgr1.

Lemma demo0_s_rep : s_rep demo0 [].
Proof. split; [|vm_compute; discriminate]. exists ∅, [], (fun _ => []), []. split; [exact demo0_rep|done]. Qed.

Lemma mgr2_reach : reach quiet 1 3 mgr2 (∅ ∪ ids_of mgr2).
Proof.
  apply (reach_accept quiet 1 3 mgr1 ∅ demo0 [] mgr2); [|exact demo0_s_rep|reflexivity|vm_compute; reflexivity].
  apply (reach_new quiet 1 3 blank); [reflexivity|vm_compute; reflexivity].
Qed.

(** The client at address 1 after [k] messages in this second, inside its callback. *)
Definition client1 : ev_client world := default (MkClient demo0 false 0 0 0 0 0 0 0 0 false) (clients mgr2 !! 1).
Definition busy1 : ev_client world := with_execute 1 (with_freq 101 client1).
Definition mgr3 : client_manager world := upd_client 1 busy1 mgr2.

Lemma mgr3_reach : reach quiet 1 3 mgr3 (∅ ∪ ids_of mgr2).
Proof.
  apply (reach_io quiet 1 3 mgr2 _ 1 client1 busy1 []); [exact mgr2_reach|vm_compute; reflexivity|reflexivity|].
  assert (sess busy1 = sess client1) as -> by reflexivity.
  split; [|vm_compute; discriminate]. exists ∅, [], (fun _ => []), []. split; [|done].
  apply (sess_ok_ext ∅ demo0); [exact demo0_rep|vm_compute; reflexivity..].
Qed.

Lemma client_ids_resolve_witness :
  exists o, get_client 12 mgr2 = Done o mgr2 /\ (forall p, o = Some p <-> exists c, clients mgr2 !! p = Some c /\ id c = 12).
Proof.
  destruct (client_ids_resolve quiet 1 3 mgr2 _ (fun _ _ => eq_refl) ltac:(lia) ltac:(lia) mgr2_reach) as (H & _).
  exact (H 12 ltac:(lia)).
Defined.

Lemma truncated_ids_lost_witness :
  exists (s s' : client_manager world) p c n, accept_client quiet 1 demo0 s = Done tt s' /\ clients s' = <[p := c]> (clients s) /\
    events s' = events s ++ [EvAccept n] /\ n <> id c.
Proof.
  destruct (reach_big_id quiet 1 1000 blank demo0 [] 214748 10000 (fun _ _ => eq_refl) ltac:(lia) ltac:(lia) eq_refl
    demo0_s_rep ltac:(lia) eq_refl) as (s & ids & s' & R & Hi & Ho & E & Hne).
  destruct (truncated_ids_lost quiet 1 1000 s ids demo0 [] s' (fun _ _ => eq_refl) ltac:(lia) ltac:(lia) R demo0_s_rep ltac:(lia) ltac:(rewrite Hi, Ho; lia) E Hne)
    as (p & c & n & _ & H1 & H2 & H3 & _).
  exact (ex_intro _ s (ex_intro _ s' (ex_intro _ p (ex_intro _ c (ex_intro _ n (conj E (conj H1 (conj H2 H3)))))))).
Defined.

Lemma timeout_flood_witness : timeout quiet 1 1 mgr3 = Fault UseAfterFree.
Proof.
  apply (timeout_flood_uses_freed quiet 1 1 3 mgr3 _ 1 busy1 (fun _ _ => eq_refl) (fun _ _ => eq_refl)
    ltac:(lia) ltac:(lia) ltac:(lia) mgr3_reach); vm_compute; reflexivity.
Defined.

Lemma close_in_callback_witness :
  exists c', client_manager_close 12 false mgr3 = Done 0 (upd_client 1 c' mgr3) /\
    read_rounds quiet 1 1 1 (upd_client 1 (with_need 0 c') mgr3) = Fault UseAfterFree.
Proof.
  apply (close_in_callback_uses_freed quiet 1 1 1 3 mgr3 _ 1 busy1 (fun _ _ => eq_refl)
    ltac:(lia) ltac:(lia) ltac:(lia) mgr3_reach); vm_compute; reflexivity.
Defined.

(** One message, its frame cut in the middle. *)
Definition zero_cache : bytes := replicate (Z.to_nat CACHED_SIZE) (z2b 0).

Lemma alen_zero_cache : alen zero_cache = CACHED_SIZE.
Proof. unfold zero_cache, CACHED_SIZE. rewrite alen_replicate. lia. Qed.

Definition one_client (t : world) : client_manager world :=
  MkManager {[1 := MkClient t true 12 0 0 0 0 0 0 0 false]} 2 (MkContainer [] 0 [] None) 10 2 0
    zero_cache [].
Definition packet0 : packet := MkPacket 0 0 0 0.
Definition hello : list (Z * bytes) := [(7, [z2b 104; z2b 101; z2b 108; z2b 108; z2b 111])].


(** Two bytes with the value 2 have arrived. *)
Definition short0 : world :=
  MkWorld (heap demo0) (brk demo0) (SocketEvent.freelist demo0) (session demo0) [RSome (le_split 2 2)] [] [].
Definition short1 : world := after ev_read_cb short0.

Lemma short1_s_rep : s_rep short1 (le_split 2 2).
Proof.
  assert (sess_ok ∅ short0 (fun _ => []) []) as K.
  { apply (sess_ok_ext ∅ demo0); [exact demo0_rep|reflexivity..]. }
  destruct (demo_read short0 _ _ short1 K) as (L1 & lf1 & K1 & E1 & O1);
    [vm_compute; discriminate|vm_compute; discriminate|vm_compute; reflexivity|].
  split; [|vm_compute; discriminate]. exists ∅, [], L1, lf1. split; [exact K1|]. rewrite E1, O1. split; vm_compute; reflexivity.
Qed.

Lemma short_header_witness : read_complete quiet 1 1 1 (one_client short1) = Fault AssertFail.
Proof.
  apply (short_header_aborts quiet 1 1 1 (MkClient short1 true 12 0 0 0 0 0 0 0 false) (one_client short1) _ 2 [] eq_refl
    short1_s_rep); [reflexivity|reflexivity|by rewrite app_nil_r|lia|lia].
Defined.
