(* ===== verification/Codec.v ===== *)
(** * Writing to and reading from a stream of bytes

    The encoders append to a growing buffer and the decoders consume one; what
    such a computation does to the bytes is stated with [emits] and [reads] and
    composed along binds and loops. The state of the buffer is abstract: a
    component gives the relation between its state and the bytes. *)

From S2P Require Import Prelude Outcome.

Section writing.
Context {St : Type} {ok : St -> bytes -> Prop} {limit : Z}.

(** [m] returns [a] and appends [b], as long as the whole output stays within the limit. *)
Definition emits {A} (m : M St A) (a : A) (b : bytes) : Prop :=
  forall s out Q, ok s out -> alen out + alen b <= limit -> (forall s', ok s' (out ++ b) -> Q a s') -> wpd m Q s.

Lemma emits_ret {A} (a : A) : emits (mret a) a [].
Proof. intros s out Q K _ HQ. wp_step. apply HQ. by rewrite app_nil_r. Qed.

Lemma emits_bind {A B} (m : M St A) (k : A -> M St B) a c b1 b2 :
  emits m a b1 -> emits (k a) c b2 -> emits (m ≫= k) c (b1 ++ b2).
Proof.
  intros H1 H2 s out Q K Hl HQ. rewrite alen_app in Hl. pose proof (alen_nonneg b1). pose proof (alen_nonneg b2). wp_step.
  apply (H1 s out); [done|lia|]. intros s1 K1. apply (H2 s1 (out ++ b1)); [done|rewrite alen_app; lia|].
  intros s2 K2. apply HQ. by rewrite app_assoc.
Qed.

(** The value of a statement that is only run for its output. *)
Lemma emits_then {A} (m : M St unit) (a : A) b : emits m tt b -> emits (m;; mret a) a b.
Proof. intros H. rewrite <- (app_nil_r b). eapply emits_bind; [exact H|apply emits_ret]. Qed.

Lemma emits_for_each {X} (l : list X) (body : X -> M St unit) (f : X -> bytes) :
  (forall x, x ∈ l -> emits (body x) tt (f x)) -> emits (for_each l body) tt (mjoin (f <$> l)).
Proof.
  induction l as [|x l IH]; intros H; [apply emits_ret|]. cbn. eapply emits_bind; [apply H; by left|].
  apply IH. intros y Hy. apply H. by right.
Qed.

(** [m] runs like its output says, then [k] follows. *)
Lemma emits_run {A B} (m : M St A) (k : A -> M St B) a b s out :
  emits m a b -> ok s out -> alen out + alen b <= limit -> exists s', (m ≫= k) s = k a s' /\ ok s' (out ++ b).
Proof.
  intros He K Hl. assert (wpd m (fun a' s' => a' = a /\ ok s' (out ++ b)) s) as Wp by (by apply (He s out)).
  apply wpd_Done in Wp as (a' & s' & E & -> & K'). exists s'. split; [by apply bind_Done|done].
Qed.

End writing.
Arguments emits {St} ok limit {A}.

Section reading.
Context {St : Type} {at_rest : St -> bytes -> Prop}.

(** [m] consumes [b] and returns [a]. *)
Definition reads {A} (m : M St A) (a : A) (b : bytes) : Prop :=
  forall s rest Q, at_rest s (b ++ rest) -> (forall s', at_rest s' rest -> Q a s') -> wpd m Q s.

Lemma reads_ret {A} (a : A) : reads (mret a) a [].
Proof. intros s rest Q K HQ. wp_step. by apply HQ. Qed.

Lemma reads_bind {A B} (m : M St A) (k : A -> M St B) a c b1 b2 :
  reads m a b1 -> reads (k a) c b2 -> reads (m ≫= k) c (b1 ++ b2).
Proof.
  intros H1 H2 s rest Q K HQ. rewrite <- app_assoc in K. wp_step. apply (H1 s (b2 ++ rest)); [done|].
  intros s1 K1. by apply (H2 s1 rest).
Qed.

Lemma reads_map {A B} (m : M St A) (g : A -> B) a b : reads m a b -> reads (x ← m; mret (g x)) (g a) b.
Proof. intros H. rewrite <- (app_nil_r b). eapply reads_bind; [exact H|apply reads_ret]. Qed.

End reading.
Arguments reads {St} at_rest {A}.

(** ** Joined pieces *)

Lemma mjoin_cons {A} (x : list A) l : mjoin (x :: l) = x ++ mjoin l.
Proof. done. Qed.

Lemma mjoin_snoc {A} (l : list (list A)) x : mjoin (l ++ [x]) = mjoin l ++ x.
Proof. induction l as [|y l IH]; simpl; [by rewrite app_nil_r|]. by rewrite IH, app_assoc. Qed.

Lemma length_mjoin_elem {X} (f : X -> bytes) (l : list X) x : x ∈ l -> (length (f x) <= length (mjoin (f <$> l)))%nat.
Proof.
  intros (l1 & l2 & ->)%list_elem_of_split. rewrite fmap_app. cbn [fmap list_fmap].
  induction l1 as [|y l1 IH]; cbn [fmap list_fmap app]; rewrite mjoin_cons, length_app; unfold fmap in *; lia.
Qed.

Lemma length_mjoin_ge {X} (f : X -> bytes) (l : list X) n :
  (forall x, x ∈ l -> (n <= length (f x))%nat) -> (n * length l <= length (mjoin (f <$> l)))%nat.
Proof.
  induction l as [|x l IH]; intros H; [simpl; lia|]. cbn [fmap list_fmap]. rewrite mjoin_cons, length_app. simpl length at 1.
  pose proof (H x ltac:(by left)). pose proof (IH ltac:(intros y Hy; apply H; by right)). unfold fmap in *. lia.
Qed.

(** ** Overwriting a part of a buffer *)

Lemma memcpy_at (cur src : bytes) ptr :
  0 <= ptr -> ptr + alen src <= alen cur ->
  exists cur', memcpy cur ptr src = Some cur' /\ alen cur' = alen cur /\
    take (Z.to_nat (ptr + alen src)) cur' = take (Z.to_nat ptr) cur ++ src.
Proof.
  intros Hp Hl. pose proof (alen_nonneg src).
  set (a := take (Z.to_nat ptr) cur). set (b := take (Z.to_nat (alen src)) (drop (Z.to_nat ptr) cur)).
  set (c := drop (Z.to_nat (alen src)) (drop (Z.to_nat ptr) cur)).
  assert (cur = a ++ b ++ c) as E by (unfold a, b, c; by rewrite !take_drop).
  assert (alen a = ptr) as Ha by (apply alen_take; lia).
  assert (alen b = alen src) as Hb by (apply alen_take; rewrite alen_drop; lia).
  exists (a ++ src ++ c). split_and!.
  - rewrite E. apply memcpy_mid; [done|by rewrite Hb].
  - rewrite E, !alen_app. lia.
  - rewrite app_assoc. apply take_app_length'. rewrite length_app. rewrite !alen_length in *. lia.
Qed.

(** ** Integers as bytes *)

Lemma le_split_uwrap n z : le_split n (uwrap (8 * Z.of_nat n) z) = le_split n z.
Proof. unfold uwrap. rewrite Z.mul_comm. symmetry. apply le_split_mod. Qed.

Lemma combine_split_s w n v : w = 8 * Z.of_nat n -> 0 < w -> in_s w v -> swrap w (le_combine (le_split n v)) = v.
Proof.
  intros -> Hw Hv. rewrite le_combine_split, (Z.mul_comm (Z.of_nat n)). change (v mod 2 ^ (8 * Z.of_nat n)) with (uwrap (8 * Z.of_nat n) v).
  rewrite swrap_uwrap by done. by apply swrap_small.
Qed.

Lemma combine_split_u n v : 0 <= v < 2 ^ (8 * Z.of_nat n) -> le_combine (le_split n v) = v.
Proof. intros Hv. rewrite le_combine_split, (Z.mul_comm (Z.of_nat n)). by apply Z.mod_small. Qed.

(** ** C strings *)

(** The C string at the start of a buffer. *)
Fixpoint cstr (b : bytes) : bytes :=
  match b with
  | [] => []
  | c :: b => if b2z c =? 0 then [] else c :: cstr b
  end.

Lemma cstr_idem b : cstr (cstr b) = cstr b.
Proof. induction b as [|c b IH]; cbn; [done|]. destruct (b2z c =? 0) eqn:E; [done|]. cbn. by rewrite E, IH. Qed.

Lemma cstr_take b n : (length (cstr b) <= n)%nat -> cstr (take n (b ++ [z2b 0])) = cstr b.
Proof.
  revert n. induction b as [|c b IH]; intros [|n]; cbn [cstr app take length].
  - done.
  - by destruct n.
  - destruct (b2z c =? 0); [done|]. cbn. lia.
  - destruct (b2z c =? 0); [done|]. cbn. intros. f_equal. apply IH. lia.
Qed.

Lemma cstr_length b : alen (cstr b) <= alen b.
Proof. induction b as [|c b IH]; cbn; [done|]. rewrite alen_cons. pose proof (alen_nonneg b). case_match; rewrite ?alen_cons, ?alen_nil; lia. Qed.

(** A string without a zero byte is its own C string, also with the zero behind it. *)
Lemma cstr_app b r : z2b 0 ∉ b -> cstr (b ++ z2b 0 :: r) = b.
Proof.
  induction b as [|c b IH]; intros H; [done|]. apply not_elem_of_cons in H as [H1 H2]. cbn.
  destruct (Z.eqb_spec (b2z c) 0) as [E|]; [|by rewrite IH]. exfalso. apply H1. by rewrite <- (z2b_b2z c), E.
Qed.

Lemma cstr_id b : z2b 0 ∉ b -> cstr b = b.
Proof.
  induction b as [|c b IH]; intros H; [done|]. apply not_elem_of_cons in H as [H1 H2]. cbn.
  destruct (Z.eqb_spec (b2z c) 0) as [E|]; [|by rewrite IH]. exfalso. apply H1. by rewrite <- (z2b_b2z c), E.
Qed.
