(* ===== verification/LuaValue.v ===== *)
(** * Lua values as C code sees them

    [value] is what the C functions read through the Lua API: a table carries
    what [lua_rawlen], the traversal with [lua_next], [lua_getfield] and a call
    of its [__pairs] metamethod answer. [tree] is what they build and return.
    A double is its 64 bits; the conversions between doubles, floats and
    integers that the language does are defined on the bits. *)

From S2P Require Import Prelude Outcome.

(** Induction over values goes by their depth, not by their syntax. *)
Unset Elimination Schemes.

Inductive value :=
| VNil
| VBool (b : bool)
| VInt (z : Z)
| VReal (bits : Z)
| VStr (s : bytes)
| VLight (p : Z)                              (* light userdata *)
| VFunction (result : option value)           (* what a call with the table gives; [None] is an error *)
| VUserdata (block : bytes)                   (* full userdata, with the contents of its block *)
| VOther (typename : string)                  (* thread *)
| VTable (addr : Z)                           (* identity *)
    (rawlen : Z)                              (* [lua_rawlen], a border of the table *)
    (entries : list (value * value))          (* in the order of [lua_next] *)
    (index : list (value * value))            (* what [__index] answers for absent keys *)
    (pairs : option (list (value * value))).  (* what the iterator of [__pairs] yields *)

Inductive tree :=
| TNil
| TBool (b : bool)
| TInt (z : Z)
| TReal (bits : Z)
| TStr (s : bytes)
| TLight (p : Z)
| TTable (entries : list (tree * tree)).      (* in the order of insertion *)

Set Elimination Schemes.

(** ** Doubles *)

Definition dbl_exp (bits : Z) : Z := Z.land (Z.shiftr bits 52) 2047.
Definition dbl_man (bits : Z) : Z := Z.land bits (Z.ones 52).
Definition dbl_neg (bits : Z) : bool := Z.testbit bits 63.

Definition is_nan (bits : Z) : bool := (dbl_exp bits =? 2047) && negb (dbl_man bits =? 0).

(** The integer a double is equal to, if it is one that fits 64 bits. *)
Definition float_int (bits : Z) : option Z :=
  let e := dbl_exp bits in
  if e =? 2047 then None else
  let man := if e =? 0 then dbl_man bits else dbl_man bits + 2 ^ 52 in
  let k := Z.max e 1 - 1075 in
  if (k <? 0) && negb (man mod 2 ^ (- k) =? 0) then None else
  let abs := if k <? 0 then man / 2 ^ (- k) else man * 2 ^ k in
  let z := if dbl_neg bits then - abs else abs in
  if (- 2 ^ 63 <=? z) && (z <? 2 ^ 63) then Some z else None.

#[global] Arguments is_nan : simpl never.
#[global] Arguments float_int : simpl never.

(** [m * 2^k] rounded to [p] bits, ties to even, with exponents from [emin] on:
    the new mantissa and exponent. *)
Definition round_to (p emin m k : Z) : Z * Z :=
  let drop := Z.max (Z.log2 m + 1 - p) (emin - k) in
  if drop <=? 0 then (m, k) else
  let q := m / 2 ^ drop in
  let r := m mod 2 ^ drop in
  let half := 2 ^ (drop - 1) in
  let up := (half <? r) || ((r =? half) && Z.odd q) in
  (if up then q + 1 else q, k + drop).

(** The IEEE format with [mb] bits of mantissa and [eb] bits of exponent of
    [m * 2^k], which has at most [mb + 1] significant bits after rounding. *)
Definition encode_ieee (mb eb : Z) (neg : bool) (m k : Z) : Z :=
  let bias := 2 ^ (eb - 1) - 1 in
  let sign := if neg then 2 ^ (mb + eb) else 0 in
  if m =? 0 then sign else
  let '(m, k) := round_to (mb + 1) (1 - bias - mb) m k in
  if m =? 0 then sign else
  (* scale to [mb + 1] bits unless subnormal *)
  let shift := Z.min (mb - Z.log2 m) (k - (1 - bias - mb)) in
  let m := if 0 <=? shift then m * 2 ^ shift else m / 2 ^ (- shift) in
  let k := k - shift in
  let e := if m <? 2 ^ mb then 0 else k + bias + mb in
  if 2 ^ eb - 1 <=? e then sign + (2 ^ eb - 1) * 2 ^ mb      (* infinity *)
  else sign + e * 2 ^ mb + m mod 2 ^ mb.

(** [(double)i] for a 64-bit integer. *)
Definition int_double (z : Z) : Z := encode_ieee 52 11 (z <? 0) (Z.abs z) 0.

(** [(float)d] *)
Definition double_float (bits : Z) : Z :=
  let e := dbl_exp bits in
  let man := dbl_man bits in
  let sign := if dbl_neg bits then 2 ^ 31 else 0 in
  if e =? 2047 then
    if man =? 0 then sign + 255 * 2 ^ 23
    else sign + 255 * 2 ^ 23 + Z.lor (Z.shiftr man 29) (2 ^ 22)
  else encode_ieee 23 8 (dbl_neg bits) (if e =? 0 then man else man + 2 ^ 52) (Z.max e 1 - 1075).

(** [(double)f] *)
Definition float_double (bits : Z) : Z :=
  let e := Z.land (Z.shiftr bits 23) 255 in
  let man := Z.land bits (Z.ones 23) in
  let neg := Z.testbit bits 31 in
  let sign := if neg then 2 ^ 63 else 0 in
  if e =? 255 then
    if man =? 0 then sign + 2047 * 2 ^ 52
    else sign + 2047 * 2 ^ 52 + Z.lor (Z.shiftl man 29) (2 ^ 51)
  else encode_ieee 52 11 neg (if e =? 0 then man else man + 2 ^ 23) (Z.max e 1 - 150).

(** The conversions give bit patterns of their width. *)
Lemma encode_ieee_range mb eb neg m k :
  0 <= mb -> 0 < eb -> 0 <= encode_ieee mb eb neg m k < 2 ^ (mb + eb + 1).
Proof.
  intros Hmb Heb. unfold encode_ieee. set (bias := 2 ^ (eb - 1) - 1).
  assert (2 ^ (mb + eb + 1) = 2 * (2 ^ mb * 2 ^ eb)) as -> by (rewrite <- Z.pow_add_r, <- Z.pow_succ_r by lia; done).
  rewrite (Z.pow_add_r 2 mb eb) by lia.
  assert (0 < 2 ^ mb) by lia. assert (2 <= 2 ^ eb) by (change 2 with (2 ^ 1) at 1; apply Z.pow_le_mono_r; lia).
  set (sign := if neg then _ else 0). assert (0 <= sign <= 2 ^ mb * 2 ^ eb) by (unfold sign; case_match; nia).
  case_match; [nia|]. destruct (round_to _ _ m k) as [m1 k1]. case_match; [nia|].
  set (shift := Z.min _ _). set (m2 := if 0 <=? shift then _ else _).
  set (e := if m2 <? 2 ^ mb then 0 else _).
  assert (0 <= e) as He by (unfold e; case_match; [lia|]; unfold shift, bias; lia).
  pose proof (Z.mod_pos_bound m2 (2 ^ mb) ltac:(lia)) as Hr. clearbody e m2 sign.
  destruct (Z.leb_spec (2 ^ eb - 1) e); nia.
Qed.

Lemma lor_range w a b : 0 <= w -> 0 <= a < 2 ^ w -> 0 <= b < 2 ^ w -> 0 <= Z.lor a b < 2 ^ w.
Proof.
  intros Hw Ha Hb. assert (Z.lor a b = Z.lor a b mod 2 ^ w) as ->; [|apply Z.mod_pos_bound; lia].
  apply Z.bits_inj'. intros n Hn. destruct (decide (n < w)).
  - by rewrite Z.mod_pow2_bits_low by lia.
  - rewrite Z.mod_pow2_bits_high by lia. rewrite Z.lor_spec. by rewrite (testbit_high w a), (testbit_high w b) by lia.
Qed.

Lemma double_float_range b : 0 <= double_float b < 2 ^ 32.
Proof.
  unfold double_float. set (sign := if dbl_neg b then _ else _).
  assert (sign = 0 \/ sign = 2 ^ 31) as Hs by (unfold sign; case_match; auto).
  assert (0 <= dbl_man b < 2 ^ 52) as Hm by (unfold dbl_man; rewrite Z.land_ones by lia; apply Z.mod_pos_bound; lia).
  case_match; [|by apply (encode_ieee_range 23 8)]. case_match; [lia|].
  assert (0 <= Z.lor (Z.shiftr (dbl_man b) 29) (2 ^ 22) < 2 ^ 23); [|lia].
  apply lor_range; [lia| |lia]. rewrite Z.shiftr_div_pow2 by lia. split; [apply Z.div_pos; lia|apply Z.div_lt_upper_bound; lia].
Qed.

Lemma int_double_range z : 0 <= int_double z < 2 ^ 64.
Proof. by apply (encode_ieee_range 52 11). Qed.

(** ** Reading tables *)

(** [lua_rawequal] of two keys. Floats with an integer value are never keys. *)
Definition rawequal (a b : value) : bool :=
  match a, b with
  | VNil, VNil => true
  | VBool x, VBool y => eqb x y
  | VInt x, VInt y => x =? y
  | VReal x, VReal y => (x =? y) && negb (is_nan x)
  | VStr x, VStr y => bool_decide (x = y)
  | VLight x, VLight y => x =? y
  | VTable x _ _ _ _, VTable y _ _ _ _ => x =? y
  | _, _ => false
  end.

Fixpoint tlookup (k : value) (l : list (value * value)) : option value :=
  match l with
  | [] => None
  | (k', v) :: l => if rawequal k' k then Some v else tlookup k l
  end.

(** [lua_rawgeti] *)
Definition rawgeti (entries : list (value * value)) (i : Z) : value := default VNil (tlookup (VInt i) entries).

(** [lua_getfield] *)
Definition getfield (entries index : list (value * value)) (name : bytes) : value :=
  match tlookup (VStr name) entries with
  | Some v => v
  | None => default VNil (tlookup (VStr name) index)
  end.

(** [lua_next]: the entry behind the key, from the beginning for nil; [None] when the
    key is not in the table. *)
Fixpoint next_after (k : value) (l : list (value * value)) : option (option (value * value)) :=
  match l with
  | [] => None
  | (k', _) :: l => if rawequal k' k then Some (head l) else next_after k l
  end.
Definition lua_next (k : value) (l : list (value * value)) : option (option (value * value)) :=
  match k with VNil => Some (head l) | _ => next_after k l end.

(** [lua_tointeger] and [lua_tonumber] of a number. *)
Definition tointeger (v : value) : Z :=
  match v with VInt z => z | VReal b => default 0 (float_int b) | _ => 0 end.
Definition tonumber (v : value) : Z :=
  match v with VInt z => int_double z | VReal b => b | _ => 0 end.

(** ** Building tables *)

(** Keys of a table under construction; a table used as a key is a new object and
    equal to no other key. *)
Definition key_equal (a b : tree) : bool :=
  match a, b with
  | TBool x, TBool y => eqb x y
  | TInt x, TInt y => x =? y
  | TReal x, TReal y => x =? y
  | TStr x, TStr y => bool_decide (x = y)
  | TLight x, TLight y => x =? y
  | _, _ => false
  end.

Definition is_nil (t : tree) : bool := match t with TNil => true | _ => false end.

Fixpoint set_entry (k v : tree) (l : list (tree * tree)) : list (tree * tree) :=
  match l with
  | [] => if is_nil v then [] else [(k, v)]
  | (k', v') :: l => if key_equal k' k then (if is_nil v then l else (k, v) :: l) else (k', v') :: set_entry k v l
  end.

(** [lua_rawset]: a float key with an integer value becomes that integer. *)
Definition rawset {St} (k v : tree) (l : list (tree * tree)) : M St (list (tree * tree)) :=
  match k with
  | TNil => luaL_error "table index is nil"
  | TReal b =>
      match float_int b with
      | Some z => mret (set_entry (TInt z) v l)
      | None => if is_nan b then luaL_error "table index is NaN" else mret (set_entry k v l)
      end
  | _ => mret (set_entry k v l)
  end.

(** [lua_rawseti] *)
Definition rawseti (i : Z) (v : tree) (l : list (tree * tree)) : list (tree * tree) := set_entry (TInt i) v l.

(** A new key goes to the end. *)
Lemma set_entry_fresh k v l :
  (forall k' v', (k', v') ∈ l -> key_equal k' k = false) -> is_nil v = false -> set_entry k v l = l ++ [(k, v)].
Proof.
  induction l as [|[k' v'] l IH]; simpl; intros Hf Hv; [by rewrite Hv|].
  rewrite (Hf k' v') by left. f_equal. apply IH; [|done]. intros. eapply Hf. by right.
Qed.

Lemma set_entry_fresh_nil k v l :
  (forall k' v', (k', v') ∈ l -> key_equal k' k = false) -> is_nil v = true -> set_entry k v l = l.
Proof.
  induction l as [|[k' v'] l IH]; simpl; intros Hf Hv; [by rewrite Hv|].
  rewrite (Hf k' v') by left. f_equal. apply IH; [|done]. intros. eapply Hf. by right.
Qed.

(** The entries of a table that is an array. *)
Definition array_entries (l : list tree) : list (tree * tree) := imap (fun i t => (TInt (Z.of_nat i + 1), t)) l.

Lemma rawseti_snoc l t : is_nil t = false -> rawseti (alen l + 1) t (array_entries l) = array_entries (l ++ [t]).
Proof.
  intros Ht. unfold rawseti, array_entries. rewrite set_entry_fresh; [|intros k v Hk|done].
  - rewrite imap_app, alen_length. cbn. by rewrite Nat.add_0_r.
  - apply elem_of_lookup_imap_1 in Hk as (i & x & [= -> ->] & Hi). apply lookup_lt_Some in Hi. cbn. rewrite alen_length. lia.
Qed.
