(* ===== verification/Serialize.v ===== *)
(** * Serialization of Lua values (lua-serialize.c)

    [luaseri_pack] writes any number of Lua values into a chain of blocks and
    copies the chain into one buffer; [luaseri_unpack] reads the values back.
    The theorems show that what was packed is read back, that no input makes
    the reader leave its buffer or run forever, and what happens with values
    that cannot be packed. *)

From S2P Require Import Prelude Outcome Codec LuaValue.

Definition TYPE_NIL : Z := 0.
Definition TYPE_BOOLEAN : Z := 1.
Definition TYPE_NUMBER : Z := 2.
Definition TYPE_NUMBER_ZERO : Z := 0.
Definition TYPE_NUMBER_BYTE : Z := 1.
Definition TYPE_NUMBER_WORD : Z := 2.
Definition TYPE_NUMBER_DWORD : Z := 4.
Definition TYPE_NUMBER_QWORD : Z := 6.
Definition TYPE_NUMBER_REAL : Z := 8.
Definition TYPE_USERDATA : Z := 3.
Definition TYPE_SHORT_STRING : Z := 4.
Definition TYPE_LONG_STRING : Z := 5.
Definition TYPE_TABLE : Z := 6.
Definition MAX_COOKIE : Z := 32.
Definition BLOCK_SIZE : Z := 128.
Definition MAX_DEPTH : Z := 32.

Definition COMBINE_TYPE (t v : Z) : Z := Z.lor t (Z.shiftl v 3).

(** ** The chain of blocks *)

(** The blocks before the current one, in order, and the current one; [None] after
    [wb_free]. *)
Record write_block := MkWrite { filled : list bytes; current : option bytes; wlen : Z; wptr : Z }.

Abbreviation W := (M write_block).

Definition blk_alloc : bytes := replicate (Z.to_nat BLOCK_SIZE) (z2b 0).

(** The code from label [_again] on ([again]) or behind it. *)
Fixpoint wb_push_from (fuel : nat) (again : bool) (buffer : bytes) : W unit :=
  wb ← get;
  cur ← deref NullDeref (current wb);
  let '(filled, cur, ptr) := if again then (filled wb ++ [cur], blk_alloc, 0) else (filled wb, cur, wptr wb) in
  let sz := alen buffer in
  if ptr <=? BLOCK_SIZE - sz then
    cur ← deref OutOfBounds (memcpy cur ptr buffer);
    require SignedOverflow (wlen wb + sz <=? INT_MAX);;
    put (MkWrite filled (Some cur) (wlen wb + sz) (ptr + sz))
  else
    let copy := BLOCK_SIZE - ptr in
    part ← deref OutOfBounds (slice buffer 0 copy);
    cur ← deref OutOfBounds (memcpy cur ptr part);
    require SignedOverflow (wlen wb + copy <=? INT_MAX);;
    put (MkWrite filled (Some cur) (wlen wb + copy) ptr);;
    match fuel with
    | O => crash OutOfFuel
    | S fuel => wb_push_from fuel true (drop (Z.to_nat copy) buffer)
    end.

(** Every round but the last copies at least one byte. *)
Definition wb_push (buffer : bytes) : W unit :=
  wb ← get; wb_push_from (length buffer) (wptr wb =? BLOCK_SIZE) buffer.

Definition wb_init (b : bytes) : W unit := put (MkWrite [] (Some b) 0 0).

Definition wb_free : W unit := put (MkWrite [] None 0 0).

Definition push_byte (n : Z) : W unit := wb_push [z2b n].

Definition wb_nil : W unit := push_byte TYPE_NIL.

Definition wb_boolean (b : bool) : W unit := push_byte (COMBINE_TYPE TYPE_BOOLEAN (if b then 1 else 0)).

Definition wb_integer (v : Z) : W unit :=
  if v =? 0 then push_byte (COMBINE_TYPE TYPE_NUMBER TYPE_NUMBER_ZERO)
  else if negb (v =? s32 v) then
    push_byte (COMBINE_TYPE TYPE_NUMBER TYPE_NUMBER_QWORD);; wb_push (le_split 8 v)
  else if v <? 0 then
    push_byte (COMBINE_TYPE TYPE_NUMBER TYPE_NUMBER_DWORD);; wb_push (le_split 4 (s32 v))
  else if v <? 256 then
    push_byte (COMBINE_TYPE TYPE_NUMBER TYPE_NUMBER_BYTE);; wb_push (le_split 1 (u8 v))
  else if v <? 65536 then
    push_byte (COMBINE_TYPE TYPE_NUMBER TYPE_NUMBER_WORD);; wb_push (le_split 2 (u16 v))
  else
    push_byte (COMBINE_TYPE TYPE_NUMBER TYPE_NUMBER_DWORD);; wb_push (le_split 4 (u32 v)).

Definition wb_real (bits : Z) : W unit :=
  push_byte (COMBINE_TYPE TYPE_NUMBER TYPE_NUMBER_REAL);; wb_push (le_split 8 bits).

Definition wb_pointer (p : Z) : W unit := push_byte TYPE_USERDATA;; wb_push (le_split 8 p).

(** [len] is the size of the string as an [int]. *)
Definition wb_string (str : bytes) (len : Z) : W unit :=
  if len <? MAX_COOKIE then
    push_byte (COMBINE_TYPE TYPE_SHORT_STRING len);;
    when (0 <? len) (d ← deref OutOfBounds (slice str 0 len); wb_push d)
  else
    (if len <? 65536 then
       push_byte (COMBINE_TYPE TYPE_LONG_STRING 2);; wb_push (le_split 2 (u16 len))
     else
       push_byte (COMBINE_TYPE TYPE_LONG_STRING 4);; wb_push (le_split 4 (u32 len)));;
    d ← deref OutOfBounds (slice str 0 len); wb_push d.

(** ** Packing values

    A packing function gets the value at a stack index and gives the value that
    is at the index afterwards: a table may be replaced by what its [pack]
    method returns. *)

Definition wb_table_array (pack_one : value -> W value) (rawlen : Z) (entries : list (value * value)) : W Z :=
  let array_size := s32 rawlen in
  (if MAX_COOKIE - 1 <=? array_size then
     push_byte (COMBINE_TYPE TYPE_TABLE (MAX_COOKIE - 1));; wb_integer array_size
   else push_byte (COMBINE_TYPE TYPE_TABLE array_size));;
  for_each (seqZ 1 array_size) (fun i => pack_one (rawgeti entries i);; mret tt);;
  mret array_size.

(** The key on the stack is the argument of the next [lua_next]; without a [pack]
    method on a key every round moves on by one entry. *)
Definition wb_table_hash (pack_one : value -> W value) (entries : list (value * value)) (array_size : Z) : W unit :=
  loop (S (length entries)) (fun key =>
    o ← match lua_next key entries with None => luaL_error "invalid key to 'next'" | Some o => mret o end;
    match o with
    | None => mret (inr tt)
    | Some (k, v) =>
        if (match k with VInt x => (0 <? x) && (x <=? array_size) | _ => false end) then mret (inl k)
        else
          k ← pack_one k;
          pack_one v;;
          mret (inl k)
    end) VNil;;
  wb_nil.

(** The iterator of [__pairs] is one that keeps its position itself. *)
Definition wb_table_metapairs (pack_one : value -> W value) (pairs : list (value * value)) : W unit :=
  push_byte (COMBINE_TYPE TYPE_TABLE 0);;
  for_each pairs (fun kv => pack_one kv.1;; pack_one kv.2;; mret tt);;
  wb_nil.

Definition str_name : bytes := z2b <$> [95; 95; 110; 97; 109; 101].
Definition str_pack : bytes := z2b <$> [112; 97; 99; 107].

(** The call of the [pack] method of a table with a [__name]. *)
Definition call_pack (v : value) : value :=
  match v with
  | VTable _ _ entries index _ =>
      match tlookup (VStr str_name) entries with
      | None => v
      | Some _ => match getfield entries index str_pack with VFunction (Some r) => r | _ => v end
      end
  | _ => v
  end.

Definition wb_table (pack_one : value -> W value) (v : value) : W value :=
  let v := call_pack v in
  match v with
  | VTable _ _ _ _ (Some pairs) => wb_table_metapairs pack_one pairs;; mret v
  | VTable _ rawlen entries _ None =>
      array_size ← wb_table_array pack_one rawlen entries;
      wb_table_hash pack_one entries array_size;;
      mret v
  | _ => crash UndefinedBehaviour               (* the raw table functions on something else *)
  end.

(** The depth is checked on entry, so that [pack_fuel] nested calls are enough. *)
Definition pack_fuel : nat := 34.

Fixpoint pack_one (fuel : nat) (v : value) (depth : Z) : W value :=
  match fuel with
  | O => crash OutOfFuel
  | S fuel =>
      if MAX_DEPTH <? depth then wb_free;; luaL_error "serialize can't pack too depth table"
      else
        match v with
        | VNil => wb_nil;; mret v
        | VInt x => wb_integer x;; mret v
        | VReal n => wb_real n;; mret v
        | VBool b => wb_boolean b;; mret v
        | VStr str => wb_string str (s32 (alen str));; mret v
        | VLight p => wb_pointer p;; mret v
        | VTable _ _ _ _ _ => wb_table (fun v => pack_one fuel v (depth + 1)) v
        | _ => wb_free;; luaL_error "Unsupport type to serialize"
        end
  end.

Definition pack_from (args : list value) : W unit := for_each args (fun v => pack_one pack_fuel v 0;; mret tt).

(** [seri]: the blocks of the chain copied into one buffer of [len] bytes. *)
Fixpoint seri (b : list bytes) (len : Z) : W bytes :=
  if len <=? 0 then mret []
  else match b with
  | [] => crash NullDeref
  | blk :: b =>
      if BLOCK_SIZE <=? len then
        d ← deref OutOfBounds (slice blk 0 BLOCK_SIZE); rest ← seri b (len - BLOCK_SIZE); mret (d ++ rest)
      else deref OutOfBounds (slice blk 0 len)
  end.

(** [luaseri_pack] and [luaseri_tostring] differ in how Lua gets the buffer. *)
Definition luaseri_pack (args : list value) : W (bytes * Z) :=
  wb_init blk_alloc;;
  pack_from args;;
  wb ← get;
  cur ← deref NullDeref (current wb);
  buffer ← seri (filled wb ++ [cur]) (wlen wb);
  wb_free;;
  mret (buffer, wlen wb).

Definition luaseri_tostring (args : list value) : W bytes := r ← luaseri_pack args; mret r.1.

(** ** Reading *)

Record read_block := MkRead { buffer : bytes; rlen : Z; rptr : Z }.

Abbreviation R := (M read_block).

Definition invalid_stream {A} : R A := luaL_error "Invalid serialize stream".

(** [rb_read]: the offset of the data, [None] for NULL. *)
Definition rb_read (sz : Z) : R (option Z) :=
  rb ← get;
  if rlen rb <? sz then mret None
  else
    require SignedOverflow (bool_decide (in_s 32 (rptr rb + sz)) && bool_decide (in_s 32 (rlen rb - sz)));;
    put (MkRead (buffer rb) (rlen rb - sz) (rptr rb + sz));;
    mret (Some (rptr rb)).

(** The memory at an offset of the buffer. *)
Definition peek (p n : Z) : R bytes := rb ← get; deref OutOfBounds (slice (buffer rb) p n).

(** [rb_read], the test for NULL and the copy out of the buffer. *)
Definition rb_fetch (sz : Z) : R bytes :=
  o ← rb_read sz;
  match o with None => invalid_stream | Some p => peek p sz end.

Definition get_integer (cookie : Z) : R Z :=
  if cookie =? TYPE_NUMBER_ZERO then mret 0
  else if cookie =? TYPE_NUMBER_BYTE then d ← rb_fetch 1; mret (le_combine d)
  else if cookie =? TYPE_NUMBER_WORD then d ← rb_fetch 2; mret (le_combine d)
  else if cookie =? TYPE_NUMBER_DWORD then d ← rb_fetch 4; mret (s32 (le_combine d))
  else if cookie =? TYPE_NUMBER_QWORD then d ← rb_fetch 8; mret (s64 (le_combine d))
  else invalid_stream.

Definition get_real : R Z := d ← rb_fetch 8; mret (le_combine d).

Definition get_pointer : R Z := d ← rb_fetch 8; mret (le_combine d).

(** [lua_pushlstring] refuses a size that is negative as an [int]. *)
Definition get_buffer (len : Z) : R tree :=
  o ← rb_read len;
  match o with
  | None => invalid_stream
  | Some p =>
      if len <? 0 then luaL_error "memory allocation error: block too big"
      else s ← peek p len; mret (TStr s)
  end.

(** [unpack_table]: both loops read at least one byte per round. *)
Definition unpack_table (rounds : nat) (unpack_one : R tree) (array_size : Z) : R tree :=
  array_size ← (if array_size =? MAX_COOKIE - 1 then
      t ← rb_fetch 1;
      let type := le_combine t in
      let cookie := Z.shiftr type 3 in
      if negb (Z.land type 7 =? TYPE_NUMBER) || (cookie =? TYPE_NUMBER_REAL) then invalid_stream
      else n ← get_integer cookie; mret (s32 n)
    else mret array_size);
  arr ← loop rounds (fun st : Z * list (tree * tree) =>
    let '(i, t) := st in
    if array_size <? i then mret (inr t)
    else v ← unpack_one; mret (inl (i + 1, rawseti i v t))) (1, []);
  loop rounds (fun t =>
    k ← unpack_one;
    if is_nil k then mret (inr (TTable t))
    else
      v ← unpack_one;
      t ← rawset k v t;
      mret (inl t)) arr.

Definition push_value (table : Z -> R tree) (type cookie : Z) : R tree :=
  if type =? TYPE_NIL then mret TNil
  else if type =? TYPE_BOOLEAN then mret (TBool (negb (cookie =? 0)))
  else if type =? TYPE_NUMBER then
    if cookie =? TYPE_NUMBER_REAL then d ← get_real; mret (TReal d)
    else z ← get_integer cookie; mret (TInt z)
  else if type =? TYPE_USERDATA then p ← get_pointer; mret (TLight p)
  else if type =? TYPE_SHORT_STRING then get_buffer cookie
  else if type =? TYPE_LONG_STRING then
    if cookie =? 2 then d ← rb_fetch 2; get_buffer (le_combine d)
    else if negb (cookie =? 4) then invalid_stream
    else d ← rb_fetch 4; get_buffer (s32 (le_combine d))
  else if type =? TYPE_TABLE then table cookie
  else invalid_stream.

Fixpoint unpack_one (fuel : nat) : R tree :=
  match fuel with
  | O => crash OutOfFuel
  | S fuel =>
      t ← rb_fetch 1;
      let type := le_combine t in
      push_value (unpack_table fuel (unpack_one fuel)) (Z.land type 7) (Z.shiftr type 3)
  end.

(** The loop of [luaseri_unpack]. *)
Definition unpack_loop (fuel rounds : nat) (l : list tree) : R (list tree) :=
  loop rounds (fun l =>
    o ← rb_read 1;
    match o with
    | None => mret (inr l)
    | Some p =>
        t ← peek p 1;
        let type := le_combine t in
        v ← push_value (unpack_table fuel (unpack_one fuel)) (Z.land type 7) (Z.shiftr type 3);
        mret (inl (l ++ [v]))
    end) l.

(** The first argument of [luaseri_unpack]. *)
Inductive seri_arg :=
| SNone
| SString (s : bytes)
| SData (mem : option bytes) (len : Z).

Definition luaseri_unpack (arg : seri_arg) : M unit (list tree) := fun u =>
  match arg with
  | SNone => Done [] u
  | _ =>
      let '(buf, len) := match arg with SString s => (Some s, s32 (alen s)) | SData m n => (m, s32 n) | SNone => (None, 0) end in
      if len =? 0 then Done [] u
      else match buf with
      | None => Raise "deserialize null pointer" u
      | Some b =>
          let fuel := S (S (Z.to_nat len)) in
          match unpack_loop fuel fuel [] (MkRead b len 0) with
          | Done l _ => Done l u
          | Raise e _ => Raise e u
          | Fault f => Fault f
          end
      end
  end.

(** ** The chain holds what was pushed *)

Definition wb_ok (wb : write_block) (out : bytes) : Prop :=
  exists cur, current wb = Some cur /\ alen cur = BLOCK_SIZE /\ Forall (fun b => alen b = BLOCK_SIZE) (filled wb) /\
    0 <= wptr wb <= BLOCK_SIZE /\ mjoin (filled wb) ++ take (Z.to_nat (wptr wb)) cur = out /\ wlen wb = alen out.

Lemma alen_blk_alloc : alen blk_alloc = BLOCK_SIZE.
Proof. unfold blk_alloc. by rewrite alen_replicate. Qed.

(** The state at either entry of the loop: at [_again] the current block is full. *)
Definition push_at (wb : write_block) (again : bool) (out : bytes) : Prop :=
  exists cur, current wb = Some cur /\ alen cur = BLOCK_SIZE /\ Forall (fun b => alen b = BLOCK_SIZE) (filled wb) /\
    wlen wb = alen out /\
    if again then mjoin (filled wb) ++ cur = out
    else 0 <= wptr wb < BLOCK_SIZE /\ mjoin (filled wb) ++ take (Z.to_nat (wptr wb)) cur = out.

Lemma wp_wb_push_from fuel again buf wb out Q :
  push_at wb again out -> (length buf <= fuel)%nat -> alen out + alen buf <= INT_MAX ->
  (forall wb', wb_ok wb' (out ++ buf) -> Q tt wb') -> wpd (wb_push_from fuel again buf) Q wb.
Proof.
  revert again buf wb out. induction fuel as [fuel IH] using lt_wf_ind. intros again buf wb out P Hf Hmax HQ.
  assert (exists f0 cur0 p0, (forall cur, current wb = Some cur ->
      (if again then (filled wb ++ [cur], blk_alloc, 0) else (filled wb, cur, wptr wb)) = (f0, cur0, p0)) /\
    alen cur0 = BLOCK_SIZE /\ Forall (fun b => alen b = BLOCK_SIZE) f0 /\ 0 <= p0 < BLOCK_SIZE /\
    mjoin f0 ++ take (Z.to_nat p0) cur0 = out) as (f0 & cur0 & p0 & E0 & L0 & F0 & P0 & O0).
  { destruct P as (cur & Ec & Lc & Fa & _ & Hout). destruct again.
    - exists (filled wb ++ [cur]), blk_alloc, 0. split_and!; [congruence|apply alen_blk_alloc| |done|done|].
      + apply Forall_app. split; [done|by apply Forall_singleton].
      + by rewrite take_0, app_nil_r, mjoin_snoc.
    - exists (filled wb), cur, (wptr wb). destruct Hout. split_and!; try done; [congruence|lia..]. }
  assert (wlen wb = alen out) as Hlen by (destruct P as (?&?&?&?&?&?); done).
  assert (exists cur, current wb = Some cur) as [cur Ec] by (destruct P as (?&?&_); eauto).
  pose proof (alen_nonneg buf) as Hb0. unfold BLOCK_SIZE in *.
  destruct fuel as [|fuel]; cbn [wb_push_from]; do 2 wp_step; (wp_step; wp_step; [exact Ec|]);
    rewrite (E0 cur Ec); cbv zeta.
  - assert (buf = []) as -> by (apply nil_length_inv; lia). rewrite alen_nil in *.
    rewrite (proj2 (Z.leb_le _ _)) by (unfold BLOCK_SIZE; lia).
    destruct (memcpy_at cur0 [] p0) as (c' & E' & L' & T'); [lia|rewrite alen_nil; lia|].
    wp_step. wp_step; [exact E'|]. wp_step. wp_step; [by apply Z.leb_le; lia|]. wp_step. apply HQ.
    exists c'. cbn. rewrite alen_nil in T'. rewrite T', !app_nil_r. unfold BLOCK_SIZE. split_and!; try done; lia.
  - destruct (Z.leb_spec p0 (BLOCK_SIZE - alen buf)) as [Hle|Hgt]; unfold BLOCK_SIZE in *.
    + destruct (memcpy_at cur0 buf p0) as (c' & E' & L' & T'); [lia|lia|].
      wp_step. wp_step; [exact E'|]. wp_step. wp_step; [by apply Z.leb_le; lia|]. wp_step. apply HQ.
      exists c'. cbn. rewrite T', app_assoc, O0, alen_app. unfold BLOCK_SIZE. split_and!; try done; lia.
    + set (copy := 128 - p0). set (part := take (Z.to_nat copy) buf).
      assert (alen part = copy) as Lp by (apply alen_take; lia).
      assert (slice buf 0 copy = Some part) as Es.
      { rewrite <- (take_drop (Z.to_nat copy) buf) at 1. apply (slice_mid [] part); [done|by symmetry]. }
      wp_step. wp_step; [exact Es|].
      destruct (memcpy_at cur0 part p0) as (c' & E' & L' & T'); [lia|lia|].
      wp_step. wp_step; [exact E'|]. wp_step. wp_step; [by apply Z.leb_le; lia|]. wp_step. wp_step.
      assert (length (drop (Z.to_nat copy) buf) <= fuel)%nat as Hf'.
      { rewrite length_drop. assert (0 < copy) by lia. lia. }
      rewrite <- (take_drop (Z.to_nat copy) buf) in HQ, Hmax. fold part in HQ, Hmax. rewrite alen_app in Hmax. rewrite app_assoc in HQ.
      apply (IH fuel ltac:(lia) true _ _ (out ++ part)); [|done|rewrite alen_app; lia|exact HQ].
      exists c'. cbn. rewrite alen_app, Hlen, Lp. rewrite Lp in T'. split_and!; try done; [by rewrite L'|].
      rewrite <- (take_ge c' (Z.to_nat (p0 + copy))) by (rewrite alen_length in L'; lia).
      by rewrite T', app_assoc, O0.
Qed.

Lemma wp_wb_push buf wb out Q :
  wb_ok wb out -> alen out + alen buf <= INT_MAX ->
  (forall wb', wb_ok wb' (out ++ buf) -> Q tt wb') -> wpd (wb_push buf) Q wb.
Proof.
  intros (cur & Ec & Lc & Fa & Hp & Ho & Hl) Hmax HQ. unfold wb_push. do 2 wp_step.
  apply (wp_wb_push_from _ _ _ _ out); [|lia|done|done].
  exists cur. split_and!; try done. destruct (Z.eqb_spec (wptr wb) BLOCK_SIZE) as [E|E].
  - rewrite E, take_ge in Ho; [done|]. rewrite alen_length in Lc. lia.
  - split; [lia|done].
Qed.

Abbreviation emits := (Codec.emits wb_ok INT_MAX).

Lemma emits_push b : emits (wb_push b) tt b.
Proof. intros wb out Q. apply wp_wb_push. Qed.

(** ** What a value is packed to *)

Definition enc_int (v : Z) : bytes :=
  if v =? 0 then [z2b 2]
  else if negb (v =? s32 v) then z2b 50 :: le_split 8 v
  else if v <? 0 then z2b 34 :: le_split 4 v
  else if v <? 256 then z2b 10 :: le_split 1 v
  else if v <? 65536 then z2b 18 :: le_split 2 v
  else z2b 34 :: le_split 4 v.

Definition enc_header (n : Z) : bytes := if n <? 31 then [z2b (6 + 8 * n)] else z2b 254 :: enc_int n.

Definition enc_str (s : bytes) : bytes :=
  let len := alen s in
  if len <? 32 then z2b (4 + 8 * len) :: s
  else if len <? 65536 then z2b 21 :: le_split 2 len ++ s
  else z2b 37 :: le_split 4 len ++ s.

Definition array_key (n : Z) (k : value) : bool :=
  match k with VInt x => (0 <? x) && (x <=? n) | _ => false end.

Definition hash_part (n : Z) (entries : list (value * value)) : list (value * value) :=
  filter (fun kv => array_key n kv.1 = false) entries.

(** The encoding of a value with tables nested at most [d] deep. *)
Fixpoint enc (d : nat) (v : value) : bytes :=
  match v with
  | VNil => [z2b 0]
  | VBool b => [z2b (if b then 9 else 1)]
  | VInt z => enc_int z
  | VReal b => z2b 66 :: le_split 8 b
  | VStr s => enc_str s
  | VLight p => z2b 3 :: le_split 8 p
  | VFunction _ | VUserdata _ | VOther _ => []
  | VTable _ n entries _ _ =>
      match d with
      | O => []
      | S d =>
          enc_header n ++
          mjoin ((fun i => enc d (rawgeti entries i)) <$> seqZ 1 n) ++
          mjoin ((fun kv => enc d kv.1 ++ enc d kv.2) <$> hash_part n entries) ++ [z2b 0]
      end
  end.

(** Keys Lua allows in a table. *)
Definition is_key (k : value) : Prop :=
  match k with
  | VNil => False
  | VReal b => is_nan b = false /\ float_int b = None
  | _ => True
  end.

Fixpoint distinct (l : list (value * value)) : Prop :=
  match l with
  | [] => True
  | (k, _) :: l => (forall k' v', (k', v') ∈ l -> rawequal k k' = false) /\ distinct l
  end.

(** Values of the program that can be packed: numbers of their width, strings below
    2 GiB, tables nested at most [d] deep without [__name] and [__pairs]. *)
Fixpoint packable (d : nat) (v : value) : Prop :=
  match v with
  | VNil | VBool _ => True
  | VInt z => in_s 64 z
  | VReal b | VLight b => 0 <= b < 2 ^ 64
  | VStr s => alen s <= INT_MAX
  | VFunction _ | VUserdata _ | VOther _ => False
  | VTable _ n entries _ pairs =>
      match d with
      | O => False
      | S d =>
          pairs = None /\ tlookup (VStr str_name) entries = None /\ 0 <= n <= INT_MAX /\ distinct entries /\
          forall k x, (k, x) ∈ entries -> is_key k /\ x <> VNil /\ packable d k /\ packable d x
      end
  end.

Lemma emits_byte n : emits (push_byte n) tt [z2b n].
Proof. apply emits_push. Qed.

Lemma emits_integer v : in_s 64 v -> emits (wb_integer v) tt (enc_int v).
Proof.
  intros Hv. unfold wb_integer, enc_int. destruct (Z.eqb_spec v 0) as [->|H0]; [apply emits_byte|].
  destruct (Z.eqb_spec v (s32 v)) as [E|E]; cbn [negb].
  - repeat case_match; (eapply (emits_bind _ _ _ _ [_]); [apply emits_byte|]).
    + rewrite <- E. apply emits_push.
    + rewrite <- (le_split_uwrap 1 v). apply emits_push.
    + rewrite <- (le_split_uwrap 2 v). apply emits_push.
    + rewrite <- (le_split_uwrap 4 v). apply emits_push.
  - eapply (emits_bind _ _ _ _ [_]); [apply emits_byte|apply emits_push].
Qed.

Lemma emits_string s : alen s <= INT_MAX -> emits (wb_string s (s32 (alen s))) tt (enc_str s).
Proof.
  intros Hl. pose proof (alen_nonneg s). unfold INT_MAX in Hl. rewrite swrap_small by (unfold in_s; lia).
  assert (emits (d ← deref OutOfBounds (slice s 0 (alen s)); wb_push d) tt s) as Hs.
  { rewrite slice_all by done. cbn [deref]. rewrite <- (app_nil_l s) at 2. eapply emits_bind; [apply emits_ret|apply emits_push]. }
  unfold wb_string, enc_str. destruct (Z.ltb_spec (alen s) MAX_COOKIE) as [Hc|Hc]; unfold MAX_COOKIE in Hc.
  - rewrite (proj2 (Z.ltb_lt _ 32)) by lia. eapply (emits_bind _ _ _ _ [_]).
    + replace (4 + 8 * alen s) with (COMBINE_TYPE TYPE_SHORT_STRING (alen s)); [apply emits_byte|].
      unfold COMBINE_TYPE, TYPE_SHORT_STRING. rewrite (lor_shiftl 3) by lia. lia.
    + unfold when. destruct (Z.ltb_spec 0 (alen s)); [exact Hs|]. rewrite (alen_0 s) by lia. apply emits_ret.
  - rewrite (proj2 (Z.ltb_ge _ 32)) by lia. destruct (alen s <? 65536).
    + apply (emits_bind _ _ tt tt (z2b 21 :: le_split 2 (alen s)) s); [|exact Hs].
      rewrite <- (le_split_uwrap 2 (alen s)). eapply (emits_bind _ _ _ _ [_]); [apply emits_byte|apply emits_push].
    + apply (emits_bind _ _ tt tt (z2b 37 :: le_split 4 (alen s)) s); [|exact Hs].
      rewrite <- (le_split_uwrap 4 (alen s)). eapply (emits_bind _ _ _ _ [_]); [apply emits_byte|apply emits_push].
Qed.

(** ** Traversing a table *)

Lemma rawequal_refl d k : is_key k -> packable d k -> rawequal k k = true.
Proof.
  destruct k, d; cbn [is_key packable rawequal]; intros Hk Hp; rewrite ?Z.eqb_refl; try done;
    (by apply eqb_reflx) || (by apply bool_decide_eq_true) || (by destruct Hk as [-> _]).
Qed.

Lemma distinct_app pre k x post :
  distinct (pre ++ (k, x) :: post) -> forall k' x', (k', x') ∈ pre -> rawequal k' k = false.
Proof.
  induction pre as [|[k1 x1] pre IH]; simpl; intros Hd k' x' Hin; [by apply not_elem_of_nil in Hin|].
  destruct Hd as [H1 H2]. apply elem_of_cons in Hin as [[= -> ->]|Hin]; [|by eapply IH].
  apply (H1 k x). apply elem_of_app. right. by left.
Qed.

Lemma next_after_app pre k x post :
  (forall k' x', (k', x') ∈ pre -> rawequal k' k = false) -> rawequal k k = true ->
  next_after k (pre ++ (k, x) :: post) = Some (head post).
Proof.
  induction pre as [|[k1 x1] pre IH]; simpl; intros Hp Hk; [by rewrite Hk|].
  rewrite (Hp k1 x1) by left. apply IH; [|done]. intros k' x' H. eapply Hp. by right.
Qed.

(** The key on the stack after the entries [pre]. *)
Definition cursor (pre : list (value * value)) : value := default VNil (fst <$> last pre).

Lemma lua_next_cursor d pre post :
  distinct (pre ++ post) -> (forall k x, (k, x) ∈ pre ++ post -> is_key k /\ packable d k) ->
  lua_next (cursor pre) (pre ++ post) = Some (head post).
Proof.
  intros Hd Hk. destruct (list_snoc_cases pre) as [->|(pre' & [k x] & ->)]; [done|].
  unfold cursor. rewrite last_snoc. cbn. rewrite <- app_assoc in *. cbn [app] in *.
  destruct (Hk k x) as [Hk1 Hk2]; [apply elem_of_app; right; by left|].
  assert (next_after k (pre' ++ (k, x) :: post) = Some (head post)) as E.
  { apply next_after_app; [by eapply distinct_app|by eapply rawequal_refl]. }
  destruct k; done.
Qed.

Lemma cursor_snoc pre k x : cursor (pre ++ [(k, x)]) = k.
Proof. unfold cursor. by rewrite last_snoc. Qed.

Section tables.
Context (d : nat) (entries : list (value * value)) (n : Z) (pack : value -> W value) (f : value -> bytes).
Context (Hd : distinct entries).
Context (Hent : forall k x, (k, x) ∈ entries -> is_key k /\ packable d k /\ emits (pack k) k (f k) /\ emits (pack x) x (f x)).

Lemma emits_table_hash :
  emits (wb_table_hash pack entries n) tt (mjoin ((fun kv => f kv.1 ++ f kv.2) <$> hash_part n entries) ++ [z2b 0]).
Proof using All.
  eapply emits_bind; [|apply emits_byte]. change VNil with (cursor []).
  assert (forall post pre fuel, entries = pre ++ post -> (length post < fuel)%nat ->
    emits (loop fuel (fun key =>
      o ← match lua_next key entries with None => luaL_error "invalid key to 'next'" | Some o => mret o end;
      match o with
      | None => mret (inr tt)
      | Some (k, v) =>
          if array_key n k then mret (inl k)
          else k ← pack k; pack v;; mret (inl k)
      end) (cursor pre)) tt (mjoin ((fun kv => f kv.1 ++ f kv.2) <$> hash_part n post))) as H;
    [|by apply (H entries []); [done|lia]].
  induction post as [|[k x] post IH]; intros pre fuel E Hf; (destruct fuel as [|fuel]; [simpl in Hf; lia|]);
    cbn [loop]; rewrite <- (app_nil_l (mjoin _)).
  - eapply (emits_bind _ _ (inr tt)); [|apply emits_ret]. rewrite <- (app_nil_l []).
    assert (lua_next (cursor pre) entries = Some None) as En.
    { rewrite E at 1. apply (lua_next_cursor d); rewrite <- E; [done|naive_solver]. }
    rewrite En. eapply emits_bind; [apply emits_ret|apply (emits_ret (inr tt))].
  - assert ((k, x) ∈ entries) as Hin by (rewrite E; apply elem_of_app; right; by left).
    destruct (Hent k x Hin) as (Hk1 & Hk2 & Ek & Ex). simpl in Hf.
    assert (lua_next (cursor pre) entries = Some (Some (k, x))) as En.
    { rewrite E at 1. apply (lua_next_cursor d); rewrite <- E; [done|naive_solver]. }
    rewrite En. cbn [mret]. change (hash_part n ((k, x) :: post)) with (filter (fun kv => array_key n kv.1 = false) ((k, x) :: post)).
    pose proof (IH (pre ++ [(k, x)]) fuel ltac:(by rewrite <- app_assoc) ltac:(lia)) as IH'. rewrite cursor_snoc in IH'. rewrite filter_cons. cbn [fst]. destruct (array_key n k) eqn:Ea.
    + rewrite decide_False by done. eapply (emits_bind _ _ (inl k)); [|exact IH'].
      rewrite <- (app_nil_l []). eapply emits_bind; [apply emits_ret|]. cbv beta iota. rewrite Ea. apply emits_ret.
    + rewrite decide_True by done. cbn [fmap list_fmap mjoin list_join]. cbn. rewrite <- app_assoc.
      rewrite app_assoc. eapply (emits_bind _ _ (inl k)); [|exact IH'].
      rewrite <- (app_nil_l (f k ++ f x)). eapply emits_bind; [apply emits_ret|]. cbv beta iota. rewrite Ea.
      eapply emits_bind; [exact Ek|]. rewrite <- (app_nil_r (f x)). eapply emits_bind; [exact Ex|apply emits_ret].
Qed.

End tables.

(** The header with the size of the array part. *)
Lemma emits_header n :
  0 <= n <= INT_MAX ->
  emits (if MAX_COOKIE - 1 <=? n then push_byte (COMBINE_TYPE TYPE_TABLE (MAX_COOKIE - 1));; wb_integer n
         else push_byte (COMBINE_TYPE TYPE_TABLE n)) tt (enc_header n).
Proof.
  intros Hn. unfold INT_MAX in Hn. unfold enc_header. change (MAX_COOKIE - 1) with 31.
  destruct (Z.leb_spec 31 n), (Z.ltb_spec n 31); try lia.
  - eapply (emits_bind _ _ tt _ [_]); [apply emits_byte|]. apply emits_integer. unfold in_s. lia.
  - replace (6 + 8 * n) with (COMBINE_TYPE TYPE_TABLE n); [apply emits_byte|].
    unfold COMBINE_TYPE, TYPE_TABLE. rewrite (lor_shiftl 3) by lia. lia.
Qed.

Lemma emits_table_array (pack : value -> W value) (f : value -> bytes) n entries :
  0 <= n <= INT_MAX -> (forall i, emits (pack (rawgeti entries i)) (rawgeti entries i) (f (rawgeti entries i))) ->
  emits (wb_table_array pack n entries) n
    (enc_header n ++ mjoin ((fun i => f (rawgeti entries i)) <$> seqZ 1 n)).
Proof.
  intros Hn Hp. unfold wb_table_array. rewrite swrap_small by (unfold in_s, INT_MAX in *; lia). cbv zeta.
  eapply (emits_bind _ _ tt); [by apply emits_header|].
  apply emits_then. apply (emits_for_each _ _ (fun i => f (rawgeti entries i))). intros i _.
  rewrite <- (app_nil_r (f _)). eapply emits_bind; [apply Hp|apply emits_ret].
Qed.

Lemma tlookup_elem k l x : tlookup k l = Some x -> exists k', (k', x) ∈ l.
Proof.
  induction l as [|[k1 x1] l IH]; simpl; [done|]. case_match.
  - intros [= ->]. exists k1. by left.
  - intros [k' H']%IH. exists k'. by right.
Qed.

Lemma rawgeti_cases entries i : rawgeti entries i = VNil \/ exists k', (k', rawgeti entries i) ∈ entries.
Proof.
  unfold rawgeti. destruct (tlookup (VInt i) entries) as [x|] eqn:E; [|by left]. right. by apply tlookup_elem in E.
Qed.

(** [pack_one] of a packable value appends its encoding. *)
Lemma emits_pack_one d v fuel depth :
  packable d v -> 0 <= depth -> depth + Z.of_nat d <= MAX_DEPTH -> (d < fuel)%nat -> emits (pack_one fuel v depth) v (enc d v).
Proof.
  revert v fuel depth. induction d as [|d IH]; intros v fuel depth Hp H0 Hd Hf;
    (destruct fuel as [|fuel]; [lia|]); cbn [pack_one];
    rewrite (proj2 (Z.ltb_ge _ _)) by lia; destruct v; try done; cbn [packable] in Hp; cbn [enc];
    try (apply emits_then; first [by apply emits_byte|by apply emits_integer|by apply emits_string
      |destruct b; apply emits_byte|eapply (emits_bind _ _ tt _ [_]); [apply emits_byte|apply emits_push]]).
  destruct Hp as (-> & Hname & Hn & Hdist & Hent).
  assert (forall x, packable d x -> emits (pack_one fuel x (depth + 1)) x (enc d x)) as IHx.
  { intros x Hx. apply IH; [done|lia|lia|lia]. }
  unfold wb_table. cbn [call_pack]. rewrite Hname. cbv zeta. rewrite app_assoc.
  eapply emits_bind.
  - apply (emits_table_array _ (enc d)); [done|]. intros i. apply IHx.
    destruct (rawgeti_cases entries i) as [->|[k' Hk]]; [by destruct d|]. by destruct (Hent _ _ Hk) as (_ & _ & _ & ?).
  - apply emits_then. apply (emits_table_hash d); [done|]. intros k x Hin. destruct (Hent k x Hin) as (?&?&?&?). auto.
Qed.

(** [seri] copies the chain. *)
Lemma wp_seri bs cur len wb Q :
  Forall (fun b => alen b = BLOCK_SIZE) bs -> alen cur = BLOCK_SIZE -> alen (mjoin bs) <= len <= alen (mjoin bs) + BLOCK_SIZE ->
  Q (mjoin bs ++ take (Z.to_nat (len - alen (mjoin bs))) cur) wb -> wpd (seri (bs ++ [cur]) len) Q wb.
Proof.
  revert len Q. induction bs as [|b bs IH]; intros len Q Hbs Hcur Hlen HQ; cbn [seri app] in *.
  - change (mjoin []) with (@nil byte) in *. rewrite alen_nil, Z.sub_0_r in *. destruct (Z.leb_spec len 0) as [H|H].
    { replace (Z.to_nat len) with 0%nat in HQ by lia. rewrite take_0 in HQ. by wp_step. }
    assert (forall m, 0 <= m <= BLOCK_SIZE -> slice cur 0 m = Some (take (Z.to_nat m) cur)) as Hs.
    { intros m Hm. rewrite <- (take_drop (Z.to_nat m) cur) at 1. apply (slice_mid [] (take (Z.to_nat m) cur)); [done|].
      rewrite alen_take; lia. }
    destruct (Z.leb_spec BLOCK_SIZE len).
    + wp_step. wp_step; [apply Hs; unfold BLOCK_SIZE; lia|]. assert (len = BLOCK_SIZE) as -> by lia. wp_step.
      rewrite Z.sub_diag. cbn [seri]. change (0 <=? 0) with true. cbn match. wp_step. wp_step. by rewrite app_nil_r.
    + wp_step; [apply Hs; lia|]. done.
  - apply Forall_cons in Hbs as [Hb Hbs]. cbv beta in Hb. rewrite mjoin_cons, alen_app in *. pose proof (alen_nonneg (mjoin bs)). unfold BLOCK_SIZE in *.
    assert (0 < len) by lia. rewrite (proj2 (Z.leb_gt len 0)) by lia. rewrite (proj2 (Z.leb_le 128 len)) by lia.
    wp_step. wp_step; [by apply slice_all|]. wp_step. apply (IH (len - 128)); [done|done|lia|]. wp_step.
    rewrite app_assoc. replace (len - 128 - alen (mjoin bs)) with (len - (alen b + alen (mjoin bs))) by lia. done.
Qed.

Definition enc_list (d : nat) (vs : list value) : bytes := mjoin (enc d <$> vs).
Abbreviation enc_all := (enc_list 32).

Lemma enc_list_cons d v vs : enc_list d (v :: vs) = enc d v ++ enc_list d vs.
Proof. done. Qed.

Lemma luaseri_pack_eq vs wb :
  Forall (packable 32) vs -> alen (enc_all vs) <= INT_MAX ->
  luaseri_pack vs wb = Done (enc_all vs, alen (enc_all vs)) (MkWrite [] None 0 0).
Proof.
  intros Hvs Hlen. assert (wpd (luaseri_pack vs) (fun r wb' => r = (enc_all vs, alen (enc_all vs)) /\ wb' = MkWrite [] None 0 0) wb) as Wp;
    [|apply wpd_Done in Wp as (r & wb' & E & -> & ->); exact E].
  unfold luaseri_pack, wb_init. do 2 wp_step. wp_step.
  assert (emits (pack_from vs) tt (enc_all vs)) as He.
  { apply emits_for_each. intros v Hv. rewrite <- (app_nil_r (enc 32 v)). eapply emits_bind; [|apply emits_ret].
    apply emits_pack_one; [by eapply Forall_forall in Hvs|lia|done|unfold pack_fuel; lia]. }
  apply (He _ []); [|by rewrite alen_nil|].
  - exists blk_alloc. cbn. rewrite alen_nil. unfold BLOCK_SIZE. by split_and!.
  - intros wb1 (cur & Ec & Lc & Fa & Hp & Ho & Hl). cbn [app] in *. do 2 wp_step. wp_step. wp_step; [exact Ec|]. wp_step.
    assert (alen (mjoin (filled wb1)) + wptr wb1 = wlen wb1) as Hw.
    { rewrite Hl, <- Ho, alen_app, alen_take; lia. }
    apply wp_seri; [done|done|lia|]. wp_step. unfold wb_free. wp_step. wp_step.
    replace (wlen wb1 - alen (mjoin (filled wb1))) with (wptr wb1) by lia. by rewrite Ho, Hl.
Qed.

(** ** Reading back *)

Definition rb_at (rb : read_block) (rest : bytes) : Prop :=
  exists pre, buffer rb = pre ++ rest /\ rptr rb = alen pre /\ rlen rb = alen rest /\ alen (buffer rb) <= INT_MAX.

Abbreviation reads := (Codec.reads rb_at).

Lemma wp_rb_read b sz rb rest Q :
  rb_at rb (b ++ rest) -> sz = alen b ->
  (forall rb', rb_at rb' rest -> slice (buffer rb') (rptr rb) sz = Some b -> Q (Some (rptr rb)) rb') -> wpd (rb_read sz) Q rb.
Proof.
  intros (pre & Eb & Ep & El & Hm) -> HQ. unfold rb_read. do 2 wp_step. rewrite alen_app in El. rewrite Eb, !alen_app in Hm.
  pose proof (alen_nonneg b). pose proof (alen_nonneg rest). pose proof (alen_nonneg pre). unfold INT_MAX in Hm.
  rewrite (proj2 (Z.ltb_ge _ _)) by lia. wp_step. wp_step.
  { apply andb_true_iff. split; apply bool_decide_eq_true; unfold in_s; lia. }
  wp_step. wp_step. wp_step. apply HQ.
  - exists (pre ++ b). cbn. rewrite Eb, <- app_assoc. rewrite !alen_app. unfold INT_MAX. split_and!; [done|lia|lia|lia].
  - cbn. rewrite Eb. by apply slice_mid.
Qed.

Lemma reads_fetch b sz : sz = alen b -> reads (rb_fetch sz) b b.
Proof.
  intros Hs rb rest Q K HQ. unfold rb_fetch. wp_step. apply (wp_rb_read b sz rb rest); [done|done|].
  intros rb' K' Hsl. unfold peek. do 2 wp_step. wp_step; [exact Hsl|]. by apply HQ.
Qed.

Lemma reads_buffer s : alen s <= INT_MAX -> reads (get_buffer (alen s)) (TStr s) s.
Proof.
  intros Hl rb rest Q K HQ. unfold get_buffer. wp_step. apply (wp_rb_read s _ rb rest); [done|done|].
  intros rb' K' Hsl. rewrite (proj2 (Z.ltb_ge _ _)) by apply alen_nonneg. unfold peek. wp_step. do 2 wp_step.
  wp_step; [exact Hsl|]. wp_step. by apply HQ.
Qed.

(** What reading a packed value gives: a table with the entries of the array part
    first. *)
Fixpoint norm (d : nat) (v : value) : tree :=
  match v with
  | VNil | VFunction _ | VUserdata _ | VOther _ => TNil
  | VBool b => TBool b
  | VInt z => TInt z
  | VReal b => TReal b
  | VStr s => TStr s
  | VLight p => TLight p
  | VTable _ n entries _ _ =>
      match d with
      | O => TNil
      | S d => TTable (
          filter (fun kv => is_nil kv.2 = false) ((fun i => (TInt i, norm d (rawgeti entries i))) <$> seqZ 1 n) ++
          ((fun kv => (norm d kv.1, norm d kv.2)) <$> hash_part n entries))
      end
  end.

(** The type byte. *)
Lemma reads_head c b t fuel :
  0 <= c < 256 -> reads (push_value (unpack_table fuel (unpack_one fuel)) (c mod 8) (c / 8)) t b ->
  reads (unpack_one (S fuel)) t (z2b c :: b).
Proof.
  intros Hc H. cbn [unpack_one]. eapply (reads_bind _ _ _ _ [_]); [by apply reads_fetch|].
  cbv zeta. assert (le_combine [z2b c] = c) as ->.
  { change (Z.lor (b2z (z2b c)) 0 = c). rewrite Z.lor_0_r. by apply b2z_z2b_small. }
  change 7 with (Z.ones 3). rewrite Z.land_ones, Z.shiftr_div_pow2 by lia. exact H.
Qed.

(** An integer, its type byte aside. *)
Lemma enc_int_reads v : in_s 64 v ->
  exists c b, enc_int v = z2b c :: b /\ 0 <= c < 256 /\ c mod 8 = 2 /\ c / 8 <> 8 /\ reads (get_integer (c / 8)) v b.
Proof.
  intros Hv. unfold enc_int.
  assert (forall n z, reads (rb_fetch (Z.of_nat n)) (le_split n z) (le_split n z)) as Hf.
  { intros n z. apply reads_fetch. by rewrite alen_le_split. }
  destruct (Z.eqb_spec v 0) as [->|H0]; [by exists 2, []; split_and!; [done|lia|lia|done|done|apply reads_ret]|].
  destruct (Z.eqb_spec v (s32 v)) as [E|E]; cbn [negb].
  - assert (in_s 32 v) as H32 by (rewrite E; by apply swrap_range). unfold in_s in H32.
    repeat case_match; zcase; try done; eexists _, _; (split_and!; [done|lia|lia|done|done|]).
    + rewrite <- (app_nil_r (le_split 4 v)). eapply reads_bind; [apply (Hf 4%nat)|].
      rewrite (combine_split_s 32) by (unfold in_s; lia). apply reads_ret.
    + rewrite <- (app_nil_r (le_split 1 v)). eapply reads_bind; [apply (Hf 1%nat)|].
      rewrite combine_split_u by lia. apply reads_ret.
    + rewrite <- (app_nil_r (le_split 2 v)). eapply reads_bind; [apply (Hf 2%nat)|].
      rewrite combine_split_u by lia. apply reads_ret.
    + rewrite <- (app_nil_r (le_split 4 v)). eapply reads_bind; [apply (Hf 4%nat)|].
      rewrite (combine_split_s 32) by (unfold in_s; lia). apply reads_ret.
  - exists 50, (le_split 8 v). split_and!; [done|lia|lia|done|done|].
    rewrite <- (app_nil_r (le_split 8 v)). eapply reads_bind; [apply (Hf 8%nat)|].
    rewrite (combine_split_s 64) by (done || lia). apply reads_ret.
Qed.

Lemma enc_str_reads s f : alen s <= INT_MAX -> reads (unpack_one (S f)) (TStr s) (enc_str s).
Proof.
  intros Hl. unfold enc_str. pose proof (alen_nonneg s). unfold INT_MAX in Hl.
  assert (forall n, reads (rb_fetch (Z.of_nat n)) (le_split n (alen s)) (le_split n (alen s))) as Hf.
  { intros n. apply reads_fetch. by rewrite alen_le_split. }
  assert (reads (get_buffer (alen s)) (TStr s) s) as Hb by (apply reads_buffer; unfold INT_MAX; lia).
  destruct (Z.ltb_spec (alen s) 32); [|destruct (Z.ltb_spec (alen s) 65536)].
  - apply reads_head; [lia|]. replace ((4 + 8 * alen s) mod 8) with 4 by dlia.
    replace ((4 + 8 * alen s) / 8) with (alen s) by dlia. exact Hb.
  - apply reads_head; [lia|]. eapply reads_bind; [apply (Hf 2%nat)|]. by rewrite combine_split_u by lia.
  - apply reads_head; [lia|]. eapply reads_bind; [apply (Hf 4%nat)|]. by rewrite (combine_split_s 32) by (unfold in_s; lia).
Qed.

(** ** The loops of [unpack_table] *)

Fixpoint set_all (i : Z) (ts : list tree) (acc : list (tree * tree)) : list (tree * tree) :=
  match ts with [] => acc | t :: ts => set_all (i + 1) ts (rawseti i t acc) end.

Lemma reads_array (u : R tree) size (items : list (bytes * tree)) rounds i acc :
  (forall it, it ∈ items -> reads u it.2 it.1) -> i + alen items = size + 1 -> (length items < rounds)%nat ->
  reads (loop rounds (fun st : Z * list (tree * tree) =>
      let '(i, t) := st in
      if size <? i then mret (inr t)
      else v ← u; mret (inl (i + 1, rawseti i v t))) (i, acc))
    (set_all i items.*2 acc) (mjoin items.*1).
Proof.
  revert rounds i acc. induction items as [|[b t] items IH]; intros rounds i acc Hu Hi Hr;
    (destruct rounds as [|rounds]; [simpl in Hr; lia|]); cbn [loop].
  - rewrite alen_nil in Hi. change (mjoin [].*1) with (@nil byte ++ []). eapply (reads_bind _ _ (inr acc)); [|apply reads_ret].
    rewrite (proj2 (Z.ltb_lt _ _)) by lia. apply reads_ret.
  - rewrite alen_cons in Hi. pose proof (alen_nonneg items). cbn [fmap list_fmap]. rewrite mjoin_cons.
    eapply (reads_bind _ _ (inl (i + 1, rawseti i t acc))).
    + rewrite (proj2 (Z.ltb_ge _ _)) by lia. rewrite <- (app_nil_r b). eapply reads_bind; [|apply reads_ret].
      apply (Hu (b, t)). by left.
    + apply IH; [intros it Hit; apply Hu; by right|lia|simpl in Hr; lia].
Qed.

(** A key that is stored as it is. *)
Definition plain_key (t : tree) : Prop :=
  match t with TNil => False | TReal b => is_nan b = false /\ float_int b = None | _ => True end.

Definition set_pairs (kvs : list (tree * tree)) (acc : list (tree * tree)) : list (tree * tree) :=
  foldl (fun acc kv => set_entry kv.1 kv.2 acc) acc kvs.

Lemma reads_hash (u : R tree) (items : list ((bytes * tree) * (bytes * tree))) rounds acc :
  (forall it, it ∈ items -> reads u it.1.2 it.1.1 /\ reads u it.2.2 it.2.1 /\ plain_key it.1.2) ->
  reads u TNil [z2b 0] -> (length items < rounds)%nat ->
  reads (loop rounds (fun t =>
      k ← u;
      if is_nil k then mret (inr (TTable t))
      else v ← u; t ← rawset k v t; mret (inl t)) acc)
    (TTable (set_pairs ((fun it => (it.1.2, it.2.2)) <$> items) acc))
    (mjoin ((fun it => it.1.1 ++ it.2.1) <$> items) ++ [z2b 0]).
Proof.
  intros Hu Hnil. revert rounds acc. induction items as [|[[b1 k] [b2 x]] items IH]; intros rounds acc Hr;
    (destruct rounds as [|rounds]; [simpl in Hr; lia|]); cbn [loop].
  - change (mjoin _ ++ [z2b 0]) with ([z2b 0] ++ []). eapply (reads_bind _ _ (inr (TTable acc)));
      [|apply reads_ret]. change [z2b 0] with ([z2b 0] ++ []). eapply reads_bind; [exact Hnil|apply reads_ret].
  - destruct (Hu ((b1, k), (b2, x))) as (H1 & H2 & Hk); [by left|]. cbn [fst snd] in *.
    cbn [fmap list_fmap]. rewrite mjoin_cons, <- app_assoc. cbn [fst snd].
    eapply (reads_bind _ _ (inl (set_entry k x acc))).
    + eapply reads_bind; [exact H1|]. assert (is_nil k = false) as -> by by destruct k.
      rewrite <- (app_nil_r b2). eapply reads_bind; [exact H2|].
      assert (forall l, rawset k x l = (mret (set_entry k x l) : R _)) as ->.
      { intros l. destruct k; try done. cbn. destruct Hk as [Hk1 Hk2]. by rewrite Hk2, Hk1. }
      change (@nil byte) with (@nil byte ++ []). eapply reads_bind; apply reads_ret.
    + apply (IH ltac:(intros it Hit; apply Hu; by right) rounds (set_entry k x acc)). simpl in Hr. lia.
Qed.

Lemma set_all_eq (g : Z -> tree) m i acc :
  (forall k x, (k, x) ∈ acc -> exists j, k = TInt j /\ j < i) ->
  set_all i (g <$> seqZ i (Z.of_nat m)) acc =
  acc ++ filter (fun kv => is_nil kv.2 = false) ((fun j => (TInt j, g j)) <$> seqZ i (Z.of_nat m)).
Proof.
  revert i acc. induction m as [|m IH]; intros i acc Ha; [by rewrite app_nil_r|].
  rewrite seqZ_cons by lia. replace (Z.pred (Z.of_nat (S m))) with (Z.of_nat m) by lia. cbn [fmap list_fmap set_all].
  assert (forall k x, (k, x) ∈ acc -> key_equal k (TInt i) = false) as Hf.
  { intros k x (j & -> & Hj)%Ha. cbn. lia. }
  unfold rawseti. rewrite filter_cons. cbn [snd]. destruct (is_nil (g i)) eqn:En.
  - rewrite decide_False by done. rewrite set_entry_fresh_nil by done. apply IH. intros k x (j & -> & Hj)%Ha. exists j. split; [done|lia].
  - rewrite decide_True by done. rewrite set_entry_fresh by done. change (i + 1) with (Z.succ i). rewrite IH, <- app_assoc; [done|].
    intros k x [(j & -> & Hj)%Ha|[= -> ->]%list_elem_of_singleton]%elem_of_app; eexists; (split; [done|lia]).
Qed.

Lemma set_pairs_eq kvs acc :
  (forall k' x' k x, (k', x') ∈ acc -> (k, x) ∈ kvs -> key_equal k' k = false) ->
  (forall pre k x post, kvs = pre ++ (k, x) :: post -> is_nil x = false /\ forall k' x', (k', x') ∈ pre -> key_equal k' k = false) ->
  set_pairs kvs acc = acc ++ kvs.
Proof.
  revert acc. induction kvs as [|[k x] kvs IH]; intros acc Ha Hk; [by rewrite app_nil_r|].
  destruct (Hk [] k x kvs) as [Hx _]; [done|]. cbn [set_pairs foldl fst snd].
  rewrite set_entry_fresh; [|intros k' x' H'; eapply Ha; [done|by left]|done].
  change (foldl _ ?a kvs) with (set_pairs kvs a). rewrite IH, <- app_assoc; [done| |].
  - intros k' x' k1 x1 [H'|[= -> ->]%list_elem_of_singleton]%elem_of_app H1; [eapply Ha; [done|by right]|].
    apply list_elem_of_split in H1 as (pre & post & ->). destruct (Hk ((k, x) :: pre) k1 x1 post) as [_ H2]; [done|].
    eapply H2. by left.
  - intros pre k1 x1 post ->. destruct (Hk ((k, x) :: pre) k1 x1 post) as [H1 H2]; [done|].
    split; [done|]. intros k' x' H'. eapply H2. by right.
Qed.

Lemma norm_key_differs d a b : is_key a -> rawequal a b = false -> key_equal (norm d a) (norm d b) = false.
Proof.
  destruct d, a, b; cbn [norm key_equal rawequal is_key]; try done; intros Hk; try (destruct Hk as [-> _]; by rewrite andb_true_r).
Qed.

Lemma norm_is_nil d v : packable d v -> v <> VNil -> is_nil (norm d v) = false.
Proof. destruct d, v; cbn; done. Qed.

Lemma norm_plain_key d k : is_key k -> packable d k -> plain_key (norm d k).
Proof. destruct d, k; cbn [is_key packable norm plain_key]; done. Qed.

Lemma distinct_filter P `{!forall x, Decision (P x)} l : distinct l -> distinct (filter P l).
Proof.
  induction l as [|[k x] l IH]; [done|]. intros [H1 H2]. rewrite filter_cons. case_decide; [|auto].
  split; [|auto]. intros k' x' [_ H']%list_elem_of_filter. by eapply H1.
Qed.

Lemma enc_length d v : packable d v -> (1 <= length (enc d v))%nat.
Proof.
  intros Hp. destruct v; try (destruct d; cbn in *; lia || done).
  - destruct d; cbn [enc]; unfold enc_int; repeat case_match; simpl; lia.
  - destruct d; cbn [enc]; unfold enc_str; repeat case_match; simpl; lia.
  - destruct d; [done|]. cbn [enc]. rewrite !length_app. simpl. lia.
Qed.

Section read_table.
Context (d : nat) (entries : list (value * value)) (n : Z) (u : R tree) (rounds : nat).
Context (Hn : 0 <= n <= INT_MAX) (Hd : distinct entries).
Context (Hent : forall k x, (k, x) ∈ entries -> is_key k /\ x <> VNil /\ packable d k /\ packable d x).
Context (Hu0 : reads u TNil [z2b 0]).
Context (Hu1 : forall i, 1 <= i <= n -> reads u (norm d (rawgeti entries i)) (enc d (rawgeti entries i))).
Context (Hu2 : forall k x, (k, x) ∈ hash_part n entries -> reads u (norm d k) (enc d k) /\ reads u (norm d x) (enc d x)).
Context (Hr1 : n < Z.of_nat rounds) (Hr2 : (length (hash_part n entries) < rounds)%nat).

Definition array_bytes : bytes := mjoin ((fun i => enc d (rawgeti entries i)) <$> seqZ 1 n).
Definition hash_bytes : bytes := mjoin ((fun kv => enc d kv.1 ++ enc d kv.2) <$> hash_part n entries).
Definition array_entries : list (tree * tree) :=
  filter (fun kv => is_nil kv.2 = false) ((fun i => (TInt i, norm d (rawgeti entries i))) <$> seqZ 1 n).
Definition hash_entries : list (tree * tree) := (fun kv => (norm d kv.1, norm d kv.2)) <$> hash_part n entries.

Lemma reads_array_part :
  reads (loop rounds (fun st : Z * list (tree * tree) =>
      let '(i, t) := st in
      if n <? i then mret (inr t) else v ← u; mret (inl (i + 1, rawseti i v t))) (1, []))
    array_entries array_bytes.
Proof using All.
  pose proof (reads_array u n ((fun i => (enc d (rawgeti entries i), norm d (rawgeti entries i))) <$> seqZ 1 n) rounds 1 []) as H.
  rewrite <- !list_fmap_compose in H. unfold compose in H. cbn [fst snd] in H.
  rewrite <- (Z2Nat.id n) in H at 4 by lia. rewrite (set_all_eq (fun i => norm d (rawgeti entries i))) in H
    by (intros k x Hx; by apply not_elem_of_nil in Hx).
  rewrite Z2Nat.id in H by lia. apply H.
  - intros it (i & -> & Hi%elem_of_seqZ)%list_elem_of_fmap. apply Hu1. lia.
  - rewrite alen_length, length_fmap, length_seqZ. lia.
  - rewrite length_fmap, length_seqZ. lia.
Qed.

Lemma hash_part_elem k x : (k, x) ∈ hash_part n entries -> (k, x) ∈ entries /\ array_key n k = false.
Proof. intros [H1 H2]%list_elem_of_filter. done. Qed.

(** Every key of the table under construction is new. *)
Lemma set_pairs_hash : set_pairs hash_entries array_entries = array_entries ++ hash_entries.
Proof using All.
  apply set_pairs_eq.
  - intros k' x' k x [_ Ha]%list_elem_of_filter Hk.
    apply list_elem_of_fmap in Ha as (j & [= -> ->] & Hj%elem_of_seqZ).
    apply list_elem_of_fmap in Hk as ([k0 x0] & [= -> ->] & [_ Hk]%hash_part_elem). cbn in Hk |- *.
    destruct k0; try (by destruct d). destruct d; cbn in *; lia.
  - intros pre k x post E. unfold hash_entries in E. apply fmap_app_inv in E as (pre0 & post0 & -> & Epost & Eh).
    destruct post0 as [|[k0 x0] post0]; [done|]. injection Epost as -> -> ->.
    assert (distinct (pre0 ++ (k0, x0) :: post0)) as Hd' by (rewrite <- Eh; by apply distinct_filter).
    assert (forall y, y ∈ pre0 ++ (k0, x0) :: post0 -> y ∈ entries) as Hin.
    { intros [k x] Hy. rewrite <- Eh in Hy. by apply hash_part_elem in Hy as [? _]. }
    destruct (Hent k0 x0) as (_ & Hx & _ & Hpx); [apply Hin, elem_of_app; right; by left|]. split; [by apply norm_is_nil|].
    intros k' x' ([k1 x1] & [= -> ->] & Hp)%list_elem_of_fmap. apply norm_key_differs.
    + apply (Hent k1 x1). apply Hin, elem_of_app. by left.
    + by eapply distinct_app.
Qed.

Lemma reads_hash_part :
  reads (loop rounds (fun t =>
      k ← u;
      if is_nil k then mret (inr (TTable t))
      else v ← u; t ← rawset k v t; mret (inl t)) array_entries)
    (TTable (array_entries ++ hash_entries)) (hash_bytes ++ [z2b 0]).
Proof using All.
  rewrite <- set_pairs_hash.
  pose proof (reads_hash u ((fun kv => ((enc d kv.1, norm d kv.1), (enc d kv.2, norm d kv.2))) <$> hash_part n entries)
    rounds array_entries) as H.
  rewrite <- !list_fmap_compose in H. unfold compose in H. cbn [fst snd] in H. apply H.
  - intros it ([k x] & -> & Hkx)%list_elem_of_fmap. cbn [fst snd]. destruct (Hu2 k x Hkx) as [? ?].
    apply hash_part_elem in Hkx as [Hin _]. destruct (Hent k x Hin) as (? & ? & ? & ?).
    split_and!; [done|done|by apply norm_plain_key].
  - exact Hu0.
  - by rewrite length_fmap.
Qed.
End read_table.

Lemma reads_word x : 0 <= x < 2 ^ 64 -> reads (d ← rb_fetch 8; mret (le_combine d)) x (le_split 8 x).
Proof.
  intros Hx. rewrite <- (app_nil_r (le_split 8 x)). eapply reads_bind; [apply reads_fetch; by rewrite alen_le_split|].
  rewrite combine_split_u by lia. apply reads_ret.
Qed.

Definition is_table (v : value) : bool := match v with VTable _ _ _ _ _ => true | _ => false end.

Lemma reads_scalar d v f : is_table v = false -> packable d v -> reads (unpack_one (S f)) (norm d v) (enc d v).
Proof.
  intros Ht Hp. assert (norm d v = norm 0 v) as -> by (by destruct v, d). assert (enc d v = enc 0 v) as -> by (by destruct v, d).
  assert (packable 0 v) as Hp0 by (by destruct v, d). clear Hp. destruct v; try done; cbn [enc norm packable] in *.
  - apply reads_head; [lia|apply reads_ret].
  - destruct b; (apply reads_head; [lia|apply reads_ret]).
  - destruct (enc_int_reads z Hp0) as (c & b & -> & Hc & Hc1 & Hc2 & Hr). apply reads_head; [lia|]. rewrite Hc1.
    unfold push_value. cbn. rewrite (proj2 (Z.eqb_neq _ _)) by done. by apply reads_map.
  - apply reads_head; [lia|]. by apply reads_map, reads_word.
  - by apply enc_str_reads.
  - apply reads_head; [lia|]. by apply reads_map, reads_word.
Qed.

(** The header gives the size of the array part. *)
Lemma reads_header n f t b :
  0 <= n <= INT_MAX ->
  reads (arr ← loop f (fun st : Z * list (tree * tree) =>
      let '(i, t) := st in
      if n <? i then mret (inr t) else v ← unpack_one f; mret (inl (i + 1, rawseti i v t))) (1, []);
    loop f (fun t =>
      k ← unpack_one f;
      if is_nil k then mret (inr (TTable t))
      else v ← unpack_one f; t ← rawset k v t; mret (inl t)) arr) t b ->
  reads (unpack_one (S f)) t (enc_header n ++ b).
Proof.
  intros Hn H. unfold INT_MAX in Hn. unfold enc_header. destruct (Z.ltb_spec n 31).
  - apply reads_head; [lia|]. replace ((6 + 8 * n) mod 8) with 6 by dlia. replace ((6 + 8 * n) / 8) with n by dlia.
    unfold push_value. cbn [Z.eqb TYPE_NIL TYPE_BOOLEAN TYPE_NUMBER TYPE_USERDATA TYPE_SHORT_STRING TYPE_LONG_STRING TYPE_TABLE Pos.eqb].
    unfold unpack_table. change (MAX_COOKIE - 1) with 31. rewrite (proj2 (Z.eqb_neq n 31)) by lia.
    rewrite <- (app_nil_l b). eapply reads_bind; [apply reads_ret|exact H].
  - cbn [app]. apply reads_head; [lia|]. change (254 mod 8) with 6. change (254 / 8) with 31.
    unfold push_value. cbn [Z.eqb TYPE_NIL TYPE_BOOLEAN TYPE_NUMBER TYPE_USERDATA TYPE_SHORT_STRING TYPE_LONG_STRING TYPE_TABLE Pos.eqb].
    unfold unpack_table. change (31 =? MAX_COOKIE - 1) with true. cbv match. eapply reads_bind; [|exact H].
    destruct (enc_int_reads n) as (c & b' & -> & Hc & Hc1 & Hc2 & Hr); [unfold in_s; lia|].
    eapply (reads_bind _ _ _ _ [_]); [by apply reads_fetch|]. cbv zeta.
    assert (le_combine [z2b c] = c) as -> by (change (Z.lor (b2z (z2b c)) 0 = c); rewrite Z.lor_0_r; by apply b2z_z2b_small).
    change 7 with (Z.ones 3). rewrite Z.land_ones, Z.shiftr_div_pow2 by lia. change (2 ^ 3) with 8. rewrite Hc1.
    change (2 =? TYPE_NUMBER) with true. unfold TYPE_NUMBER_REAL. rewrite (proj2 (Z.eqb_neq (c / 8) 8)) by done. cbn [negb orb].
    pose proof (reads_map (get_integer (c / 8)) s32 n b' Hr) as Hm. rewrite swrap_small in Hm by (unfold in_s; lia). exact Hm.
Qed.

(** [unpack_one] reads back what [pack_one] wrote. *)
Lemma reads_unpack_one d v fuel :
  packable d v -> (length (enc d v) <= fuel)%nat -> reads (unpack_one fuel) (norm d v) (enc d v).
Proof.
  revert v fuel. induction d as [|d IH]; intros v fuel Hp Hf;
    (destruct fuel as [|fuel]; [pose proof (enc_length _ _ Hp); lia|]);
    (destruct (is_table v) eqn:Ht; [|by apply reads_scalar]); (destruct v as [| | | | | | | | |addr n entries index pairs]; try done).
  cbn [enc norm packable] in *. destruct Hp as (-> & Hname & Hn & Hdist & Hent).
  rewrite !length_app in Hf. assert (1 <= length (enc_header n))%nat as Hh
    by (unfold enc_header; case_match; simpl; lia).
  pose proof (length_mjoin_ge (fun i => enc d (rawgeti entries i)) (seqZ 1 n) 1) as L1.
  pose proof (length_mjoin_ge (fun kv => enc d kv.1 ++ enc d kv.2) (hash_part n entries) 1) as L2.
  rewrite length_seqZ in L1. cbn [length] in Hf.
  assert (forall i, packable d (rawgeti entries i)) as Hga.
  { intros i. destruct (rawgeti_cases entries i) as [->|[k' Hk]]; [by destruct d|]. by destruct (Hent _ _ Hk) as (_ & _ & _ & ?). }
  assert (forall k x, (k, x) ∈ hash_part n entries -> packable d k /\ packable d x) as Hha.
  { intros k x [Hin _]%hash_part_elem. by destruct (Hent _ _ Hin) as (_ & _ & ? & ?). }
  specialize (L1 ltac:(intros i _; by apply enc_length)).
  specialize (L2 ltac:(intros [k x] Hkx; destruct (Hha k x Hkx) as [? ?]; cbn [fst snd]; rewrite length_app; pose proof (enc_length d k ltac:(done)); lia)).
  apply reads_header; [done|]. rewrite app_assoc, <- (app_assoc (mjoin _)).
  assert (reads (unpack_one fuel) TNil [z2b 0]) as Hnil by (destruct fuel; [lia|]; by apply (reads_scalar 0 VNil)).
  assert (forall i, 1 <= i <= n -> reads (unpack_one fuel) (norm d (rawgeti entries i)) (enc d (rawgeti entries i))) as Ha.
  { intros i Hi. apply IH; [done|].
    pose proof (length_mjoin_elem (fun i => enc d (rawgeti entries i)) (seqZ 1 n) i ltac:(apply elem_of_seqZ; lia)). simpl in *. lia. }
  assert (forall k x, (k, x) ∈ hash_part n entries -> reads (unpack_one fuel) (norm d k) (enc d k) /\
    reads (unpack_one fuel) (norm d x) (enc d x)) as Hb.
  { intros k x Hkx. destruct (Hha k x Hkx) as [? ?].
    pose proof (length_mjoin_elem (fun kv => enc d kv.1 ++ enc d kv.2) _ _ Hkx) as L. cbn [fst snd] in L. rewrite length_app in L.
    split; (apply IH; [done|lia]). }
  eapply reads_bind; [eapply reads_array_part|eapply reads_hash_part]; eauto; lia.
Qed.

(** ** Whole messages *)

(** Reading a byte that is there. *)
Lemma read_or_fetch {A} (X : R A) (k : bytes -> R A) rb :
  1 <= rlen rb ->
  (o ← rb_read 1; match o with None => X | Some p => t ← peek p 1; k t end) rb = (t ← rb_fetch 1; k t) rb.
Proof.
  intros Hl. unfold rb_fetch. rewrite bind_assoc. unfold rb_read, mbind, M_bind, get.
  rewrite (proj2 (Z.ltb_ge _ _)) by lia. by destruct (require _ _ rb).
Qed.

Lemma wp_unpack_loop d fuel vs rounds l rb Q :
  Forall (packable d) vs -> rb_at rb (enc_list d vs) -> (length (enc_list d vs) <= fuel)%nat -> (length vs < rounds)%nat ->
  (forall rb', Q (l ++ (norm d <$> vs)) rb') -> wpd (unpack_loop fuel rounds l) Q rb.
Proof.
  unfold unpack_loop. revert rounds l rb. induction vs as [|v vs IH]; intros rounds l rb Hvs K Hf Hr HQ;
    (destruct rounds as [|rounds]; [simpl in Hr; lia|]); cbn [loop].
  - destruct K as (pre & Eb & Ep & El & Hm). unfold rb_read. do 2 wp_step. wp_step. change (enc_list d []) with (@nil byte) in El.
    wp_step. rewrite El, alen_nil. cbn [Z.ltb Z.compare]. wp_step. wp_step. wp_step. rewrite <- (app_nil_r l). apply HQ.
  - apply Forall_cons in Hvs as [Hv Hvs]. rewrite enc_list_cons in *. rewrite length_app in Hf.
    pose proof (enc_length _ _ Hv) as H1. pose proof (reads_unpack_one d v (S fuel) Hv ltac:(lia)) as Hu.
    assert (1 <= rlen rb) as Hl by (destruct K as (_ & _ & _ & -> & _); rewrite alen_length, length_app; lia).
    wp_step. eapply wp_eq; [by apply read_or_fetch|].
    eapply (wp_eq _ (v ← unpack_one (S fuel); mret (inl (l ++ [v])))); [cbn [unpack_one]; by rewrite bind_assoc|].
    wp_step. apply (Hu rb (enc_list d vs)); [done|]. intros rb' K'. wp_step. apply IH; [done|done|lia|simpl in Hr; lia|].
    intros rb2. rewrite <- app_assoc. apply HQ.
Qed.

Lemma enc_list_nil d vs : Forall (packable d) vs -> enc_list d vs = [] -> vs = [].
Proof.
  intros Hvs Hz. destruct vs as [|v vs]; [done|]. apply Forall_cons in Hvs as [Hv _].
  rewrite enc_list_cons in Hz. apply app_eq_nil in Hz as [Hz _]. pose proof (enc_length _ _ Hv). rewrite Hz in *. simpl in *. lia.
Qed.

(** Any buffer that starts with an encoding of values is read back. *)
Lemma unpack_enc_list d vs fuel :
  Forall (packable d) vs -> alen (enc_list d vs) <= INT_MAX -> (S (length (enc_list d vs)) <= fuel)%nat ->
  exists rb, unpack_loop fuel fuel [] (MkRead (enc_list d vs) (alen (enc_list d vs)) 0) = Done (norm d <$> vs) rb.
Proof.
  intros Hvs Hlen Hf. pose proof (length_mjoin_ge (enc d) vs 1) as L.
  specialize (L ltac:(intros x Hx; apply enc_length; by eapply Forall_forall in Hvs)). fold (enc_list d vs) in L.
  assert (wpd (unpack_loop fuel fuel []) (fun l _ => l = norm d <$> vs) (MkRead (enc_list d vs) (alen (enc_list d vs)) 0)) as W.
  { apply (wp_unpack_loop d fuel vs); [done| |lia|lia|done]. by exists []. }
  apply wpd_Done in W as (l & rb' & E' & ->). eauto.
Qed.

(** C3: whatever Lua values are packed, nil, booleans, integers, floats, strings,
    pointers and tables nested up to 32 deep, [luaseri_unpack] gives the same
    values back from the buffer of [luaseri_pack] and from the string of
    [luaseri_tostring]; both return and every access stays in its block. *)
Theorem serialize_roundtrip vs wb :
  Forall (packable 32) vs -> alen (enc_all vs) <= INT_MAX ->
  exists buf wb', luaseri_pack vs wb = Done (buf, alen buf) wb' /\ luaseri_tostring vs wb = Done buf wb' /\
    luaseri_unpack (SString buf) tt = Done (norm 32 <$> vs) tt /\
    luaseri_unpack (SData (Some buf) (alen buf)) tt = Done (norm 32 <$> vs) tt.
Proof.
  intros Hvs Hlen. exists (enc_all vs), (MkWrite [] None 0 0). rewrite (luaseri_pack_eq vs wb) by done.
  split; [done|]. split; [unfold luaseri_tostring; by erewrite bind_Done by by apply luaseri_pack_eq|].
  pose proof (alen_nonneg (enc_all vs)) as H0. unfold INT_MAX in Hlen. unfold luaseri_unpack.
  rewrite swrap_small by (unfold in_s; lia).
  destruct (Z.eqb_spec (alen (enc_all vs)) 0) as [E|E]; [by apply alen_0, enc_list_nil in E as ->|].
  destruct (unpack_enc_list 32 vs (S (S (Z.to_nat (alen (enc_all vs)))))) as [rb Erb]; [done|unfold INT_MAX; lia|rewrite alen_length; lia|].
  by rewrite Erb.
Qed.

(** ** Reading anything *)

(** [m] returns with [Q], raises a Lua error or overflows a signed integer. *)
Definition safe {A} (m : R A) (rb : read_block) (Q : A -> read_block -> Prop) : Prop :=
  match m rb with Done a rb' => Q a rb' | Raise _ _ => True | Fault f => f = SignedOverflow end.

Record rb_inv (rb : read_block) : Prop := {
  inv_ptr : 0 <= rptr rb;
  inv_len : 0 <= rlen rb;
  inv_end : rptr rb + rlen rb <= alen (buffer rb)
}.

(** At least [n] bytes further. *)
Definition ahead (n : Z) (rb rb' : read_block) : Prop := rb_inv rb' /\ rlen rb' <= rlen rb - n.

Lemma safe_ret {A} (a : A) rb (Q : A -> read_block -> Prop) : Q a rb -> safe (mret a) rb Q.
Proof. done. Qed.

Lemma safe_error {A} e rb (Q : A -> read_block -> Prop) : safe (luaL_error e) rb Q.
Proof. done. Qed.

Lemma safe_bind {A B} (m : R A) (k : A -> R B) rb Q1 Q :
  safe m rb Q1 -> (forall a rb', Q1 a rb' -> safe (k a) rb' Q) -> safe (m ≫= k) rb Q.
Proof. unfold safe, mbind, M_bind. intros H1 H2. destruct (m rb); [exact (H2 _ _ H1)|done|done]. Qed.

Lemma safe_mono {A} (m : R A) rb (Q1 Q : A -> read_block -> Prop) :
  safe m rb Q1 -> (forall a rb', Q1 a rb' -> Q a rb') -> safe m rb Q.
Proof. unfold safe. intros H1 H2. destruct (m rb); auto. Qed.

Lemma safe_eq {A} (m m' : R A) rb Q : m rb = m' rb -> safe m' rb Q -> safe m rb Q.
Proof. unfold safe. by intros ->. Qed.

Lemma ahead_refl rb : rb_inv rb -> ahead 0 rb rb.
Proof. split; [done|lia]. Qed.

Lemma ahead_trans n k j rb1 rb2 rb3 : ahead n rb1 rb2 -> ahead k rb2 rb3 -> j <= n + k -> ahead j rb1 rb3.
Proof. intros [? ?] [? ?] ?. split; [done|lia]. Qed.

(** A loop that reads a byte in every round ends. *)
Lemma safe_loop {B A} (body : B -> R (B + A)) fuel b rb (Q : A -> read_block -> Prop) :
  (forall b rb', ahead 0 rb rb' -> safe (body b) rb' (fun r rb2 =>
     match r with inl _ => ahead 1 rb' rb2 | inr a => Q a rb2 end)) ->
  rb_inv rb -> rlen rb < Z.of_nat fuel -> safe (loop fuel body b) rb Q.
Proof.
  revert b rb. induction fuel as [|fuel IH]; intros b rb Hb Hi Hf; [destruct Hi; lia|]. cbn [loop].
  eapply safe_bind; [apply Hb; by apply ahead_refl|]. intros [b'|a] rb2; cbn; [|done]. intros H2. apply IH.
  - intros b2 rb3 H3. apply Hb. by eapply ahead_trans; [exact H2|exact H3|lia].
  - apply H2.
  - destruct H2. lia.
Qed.

Lemma safe_rb_read sz rb :
  rb_inv rb -> safe (rb_read sz) rb (fun o rb' => match o with
    | None => rb' = rb
    | Some p => 0 <= sz -> ahead sz rb rb' /\ slice (buffer rb') p sz = Some (take (Z.to_nat sz) (drop (Z.to_nat p) (buffer rb')))
    end).
Proof.
  intros [H1 H2 H3]. unfold rb_read, safe, mbind, M_bind, get. destruct (Z.ltb_spec (rlen rb) sz); [done|].
  unfold require. destruct (bool_decide _ && bool_decide _); [|done]. cbn. intros Hs. split; [split; [split; cbn; lia|cbn; lia]|].
  rewrite <- (take_drop (Z.to_nat (rptr rb)) (buffer rb)) at 1.
  rewrite <- (take_drop (Z.to_nat sz) (drop (Z.to_nat (rptr rb)) (buffer rb))) at 1.
  apply slice_mid; [rewrite alen_take; lia|]. rewrite alen_take; [done|]. rewrite alen_drop; lia.
Qed.

Lemma safe_fetch sz rb (Q : bytes -> read_block -> Prop) :
  rb_inv rb -> 0 <= sz -> (forall d rb', ahead sz rb rb' -> Q d rb') -> safe (rb_fetch sz) rb Q.
Proof.
  intros Hi Hs HQ. unfold rb_fetch. eapply safe_bind; [by apply safe_rb_read|]. intros [p|] rb'; [|done].
  intros H. destruct (H Hs) as [Ha Hsl]. unfold peek, safe, mbind, M_bind, get. rewrite Hsl. by apply HQ.
Qed.

Lemma safe_get_integer cookie rb : rb_inv rb -> safe (get_integer cookie) rb (fun _ rb' => ahead 0 rb rb').
Proof.
  intros Hi. unfold get_integer.
  repeat case_match; try done; try (by apply safe_ret, ahead_refl);
    (eapply safe_bind; [apply (safe_fetch _ _ (fun _ rb' => ahead 0 rb rb')); [done|lia|intros d rb' Ha; eapply ahead_trans; [exact Ha|by apply ahead_refl, Ha|lia]]|];
     intros d rb' Ha; by apply safe_ret).
Qed.

Lemma safe_get_buffer len rb : rb_inv rb -> safe (get_buffer len) rb (fun _ rb' => ahead 0 rb rb').
Proof.
  intros Hi. unfold get_buffer. eapply safe_bind; [by apply safe_rb_read|]. intros [p|] rb'; [|done]. intros H.
  destruct (Z.ltb_spec len 0); [done|]. destruct (H ltac:(lia)) as [[Ha1 Ha2] Hsl].
  unfold peek, safe, mbind, M_bind, get. rewrite Hsl. cbn. split; [done|lia].
Qed.

Lemma safe_word rb : rb_inv rb -> safe (d ← rb_fetch 8; mret (le_combine d)) rb (fun _ rb' => ahead 0 rb rb').
Proof.
  intros Hi. eapply safe_bind; [apply (safe_fetch _ _ (fun _ rb' => ahead 8 rb rb')); [done|lia|done]|].
  intros d rb' [? ?]. apply safe_ret. split; [done|lia].
Qed.

Lemma safe_push_value table type cookie rb :
  rb_inv rb -> (forall c, safe (table c) rb (fun _ rb' => ahead 0 rb rb')) ->
  safe (push_value table type cookie) rb (fun _ rb' => ahead 0 rb rb').
Proof.
  intros Hi Ht. unfold push_value.
  assert (forall sz (k : bytes -> Z), 0 <= sz -> safe (d ← rb_fetch sz; get_buffer (k d)) rb (fun _ rb' => ahead 0 rb rb')) as Hs.
  { intros sz k H0. eapply safe_bind; [by apply (safe_fetch _ _ (fun _ rb' => ahead sz rb rb'))|]. intros d rb' Ha.
    eapply safe_mono; [apply safe_get_buffer, Ha|]. intros a rb2 H2. eapply ahead_trans; [exact Ha|exact H2|lia]. }
  repeat case_match; try done; try (by apply safe_ret, ahead_refl); try (by apply Hs); try (by apply safe_get_buffer); try apply Ht.
  - eapply safe_bind; [by apply safe_word|]. intros d rb' Ha. by apply safe_ret.
  - eapply safe_bind; [by apply safe_get_integer|]. intros d rb' Ha. by apply safe_ret.
  - eapply safe_bind; [by apply safe_word|]. intros d rb' Ha. by apply safe_ret.
Qed.

Lemma safe_unpack_table rounds (u : R tree) size rb :
  rb_inv rb -> rlen rb < Z.of_nat rounds ->
  (forall rb', ahead 0 rb rb' -> safe u rb' (fun _ rb2 => ahead 1 rb' rb2)) ->
  safe (unpack_table rounds u size) rb (fun _ rb' => ahead 0 rb rb').
Proof.
  intros Hi Hr Hu. unfold unpack_table.
  assert (forall a n b, ahead 0 rb a -> ahead n a b -> 0 <= n -> ahead 0 rb b) as Htr.
  { intros a n b Ha Hb Hn. eapply ahead_trans; [exact Ha|exact Hb|lia]. }
  apply (safe_bind _ _ _ (fun _ rb' => ahead 0 rb rb')).
  - case_match; [|by apply safe_ret, ahead_refl].
    eapply safe_bind; [apply (safe_fetch _ _ (fun _ rb' => ahead 1 rb rb')); [done|lia|done]|]. intros d rb1 H1. cbv zeta.
    case_match; [apply safe_error|]. eapply safe_bind; [apply safe_get_integer, H1|]. intros z rb2 H2. apply safe_ret.
    eapply ahead_trans; [exact H1|exact H2|lia].
  - intros n rb1 H1. assert (rlen rb1 < Z.of_nat rounds) as Hr1 by (destruct H1; lia).
    apply (safe_bind _ _ _ (fun _ rb' => ahead 0 rb rb')).
    + apply safe_loop; [|apply H1|done]. intros [i t] rb2 H2. case_match; [apply safe_ret; by eapply Htr|].
      eapply safe_bind; [apply Hu; by eapply Htr|]. intros v rb3 H3. by apply safe_ret.
    + intros t rb2 H2. assert (rlen rb2 < Z.of_nat rounds) as Hr2 by (destruct H2; lia).
      apply safe_loop; [|apply H2|done]. intros t' rb3 H3. assert (ahead 0 rb rb3) as H03 by by eapply Htr.
      eapply safe_bind; [by apply Hu|]. intros k rb4 H4. assert (ahead 0 rb rb4) as H04 by (eapply Htr; [exact H03|exact H4|lia]).
      case_match; [by apply safe_ret|]. eapply safe_bind; [by apply Hu|]. intros v rb5 H5.
      assert (ahead 1 rb3 rb5) as H35 by (eapply ahead_trans; [exact H4|exact H5|lia]).
      apply (safe_bind _ _ _ (fun _ rb' => rb' = rb5)); [|intros t2 rb6 ->; by apply safe_ret].
      unfold rawset. repeat case_match; done.
Qed.

Lemma safe_unpack_one fuel rb :
  rb_inv rb -> rlen rb < Z.of_nat fuel -> safe (unpack_one fuel) rb (fun _ rb' => ahead 1 rb rb').
Proof.
  revert rb. induction fuel as [|fuel IH]; intros rb Hi Hf; [destruct Hi; lia|]. cbn [unpack_one].
  eapply safe_bind; [apply (safe_fetch _ _ (fun _ rb' => ahead 1 rb rb')); [done|lia|done]|]. intros d rb1 H1. cbv zeta.
  eapply safe_mono.
  - apply safe_push_value; [apply H1|]. intros c. destruct (H1) as [Hi1 Hl1]. apply safe_unpack_table; [done|lia|].
    intros rb2 [Hi2 Hl2]. apply IH; [done|lia].
  - intros v rb2 H2. eapply ahead_trans; [exact H1|exact H2|lia].
Qed.

Lemma safe_unpack_loop fuel rb l :
  rb_inv rb -> rlen rb < Z.of_nat fuel -> safe (unpack_loop fuel fuel l) rb (fun _ _ => True).
Proof.
  intros Hi Hf. unfold unpack_loop. apply safe_loop; [|done|done]. intros l' rb1 H1.
  destruct (decide (1 <= rlen rb1)) as [Hl|Hl].
  - eapply safe_eq; [by apply read_or_fetch|].
    eapply safe_bind; [apply (safe_fetch _ _ (fun _ rb' => ahead 1 rb1 rb')); [apply H1|lia|done]|]. intros d rb2 H2. cbv zeta.
    assert (ahead 1 rb rb2) as H02 by (eapply ahead_trans; [exact H1|exact H2|lia]).
    eapply safe_bind.
    + apply safe_push_value; [apply H2|]. intros c. destruct (H02) as [Hi2 Hl2]. apply safe_unpack_table; [done|lia|].
      intros rb3 [Hi3 Hl3]. apply safe_unpack_one; [done|lia].
    + intros v rb3 H3. apply safe_ret. eapply ahead_trans; [exact H2|exact H3|lia].
  - unfold safe, rb_read, mbind, M_bind, get. rewrite (proj2 (Z.ltb_lt _ _)) by lia. done.
Qed.

(** C26: [luaseri_unpack] is safe on every input, also one that was not packed by
    [luaseri_pack]: it returns or raises a Lua error, and never reads outside
    its buffer or runs forever. The only undefined behaviour an input can cause
    is the overflow of [rb->len] by a string length of 2^31 or more. *)
Theorem unpack_any_input arg mem n :
  (arg = SString mem /\ n = alen mem) \/ arg = SData (Some mem) n -> 0 <= n <= alen mem -> alen mem <= INT_MAX ->
  (exists l, luaseri_unpack arg tt = Done l tt) \/ (exists e, luaseri_unpack arg tt = Raise e tt) \/
  luaseri_unpack arg tt = Fault SignedOverflow.
Proof.
  intros Harg Hn Hm. unfold INT_MAX in Hm.
  assert (luaseri_unpack arg tt = if n =? 0 then Done [] tt else
    match unpack_loop (S (S (Z.to_nat n))) (S (S (Z.to_nat n))) [] (MkRead mem n 0) with
    | Done l _ => Done l tt | Raise e _ => Raise e tt | Fault f => Fault f end) as ->.
  { destruct Harg as [[-> ->]| ->]; unfold luaseri_unpack; by rewrite swrap_small by (unfold in_s; lia). }
  destruct (Z.eqb_spec n 0); [by left; eexists|].
  pose proof (safe_unpack_loop (S (S (Z.to_nat n))) (MkRead mem n 0) []) as H. unfold safe in H.
  destruct (unpack_loop _ _ _ _) as [l rb|e rb|f]; [by left; eexists|by right; left; eexists|].
  right. right. rewrite H; [done| |cbn; lia]. split; cbn; lia.
Qed.

(** ** Values that cannot be packed *)

(** Tables nested [k] deep in the first element of the array. *)
Fixpoint nested (k : nat) (v : value) : Prop :=
  match k with
  | O => True
  | S k => exists addr n entries index, v = VTable addr n entries index None /\ tlookup (VStr str_name) entries = None /\
      1 <= n <= INT_MAX /\ nested k (rawgeti entries 1)
  end.

Lemma alen_enc_header n : alen (enc_header n) <= 10.
Proof.
  unfold enc_header, enc_int. repeat case_match; rewrite ?alen_cons, ?alen_le_split, ?alen_nil; lia.
Qed.

Lemma pack_one_too_deep k v fuel depth wb out :
  nested k v -> 0 <= depth -> depth + Z.of_nat k = MAX_DEPTH + 1 -> (k < fuel)%nat -> wb_ok wb out ->
  alen out + 10 * Z.of_nat k <= INT_MAX ->
  pack_one fuel v depth wb = Raise "serialize can't pack too depth table" (MkWrite [] None 0 0).
Proof.
  revert v fuel depth wb out. induction k as [|k IH]; intros v fuel depth wb out Hv H0 Hd Hf K Hl;
    (destruct fuel as [|fuel]; [lia|]); cbn [pack_one].
  - by rewrite (proj2 (Z.ltb_lt _ _)) by lia.
  - rewrite (proj2 (Z.ltb_ge _ _)) by lia. destruct Hv as (addr & n & entries & index & -> & Hname & Hn & Hv).
    unfold wb_table. cbn [call_pack]. rewrite Hname. cbv zeta. apply bind_Raise. unfold wb_table_array.
    rewrite swrap_small by (unfold in_s, INT_MAX in *; lia). cbv zeta. pose proof (alen_enc_header n) as Hh.
    match goal with |- (?m ≫= ?k) wb = _ => destruct (emits_run (ok := wb_ok) (limit := INT_MAX) m k tt (enc_header n) wb out) as (wb1 & -> & K1) end;
      [apply emits_header; lia|done|lia|].
    apply bind_Raise. rewrite seqZ_cons by lia. cbn [for_each]. apply bind_Raise, bind_Raise.
    apply (IH _ _ _ _ (out ++ enc_header n)); [done|lia|lia|lia|done|rewrite alen_app; lia].
Qed.

(** Tables nested more than 32 deep, and functions, threads and full userdata
    anywhere in the arguments' top level, are refused with a Lua error after the
    chain of blocks has been freed. *)
Theorem pack_refuses v vs wb :
  nested 33 v \/ (exists r, v = VFunction r) \/ (exists b, v = VUserdata b) \/ (exists t, v = VOther t) ->
  exists e, luaseri_pack (v :: vs) wb = Raise e (MkWrite [] None 0 0).
Proof.
  intros Hv. unfold luaseri_pack, wb_init. erewrite bind_Done by reflexivity. unfold pack_from. cbn [for_each].
  set (wb0 := MkWrite [] (Some blk_alloc) 0 0).
  assert (wb_ok wb0 []) as K by (exists blk_alloc; cbn; unfold BLOCK_SIZE; by split_and!).
  destruct Hv as [Hv|[[r ->]|[[b ->]|[t ->]]]]; eexists; apply bind_Raise, bind_Raise, bind_Raise; [|reflexivity..].
  apply (pack_one_too_deep 33 v pack_fuel 0 wb0 []); [done|lia|done|unfold pack_fuel; lia|done|rewrite alen_nil; unfold INT_MAX; lia].
Qed.

(** A string length of 2^31 overflows [rb->len]. *)
Lemma long_length_overflows : luaseri_unpack (SString (z2b <$> [37; 0; 0; 0; 128])) tt = Fault SignedOverflow.
Proof. vm_compute. reflexivity. Qed.

(** ** Concrete messages *)

Definition inner : value := VTable 2 0 [(VBool true, VReal 4607182418800017408)] [] None.
Definition sample : value :=
  VTable 1 2 [(VInt 1, VStr [z2b 97; z2b 98]); (VInt 2, VInt (-70000)); (VStr [z2b 120], inner); (VInt 9, VLight 4096)] [] None.

Ltac packable_table :=
  cbn [packable]; refine (conj eq_refl (conj eq_refl (conj _ (conj _ _))));
  [unfold INT_MAX; lia
  |repeat split; intros ? ? H; repeat (apply elem_of_cons in H as [[= -> ->]|H]; [reflexivity|]); by apply not_elem_of_nil in H
  |intros ? ? H; repeat (apply elem_of_cons in H as [[= -> ->]|H]; [refine (conj I (conj _ (conj _ _))); [discriminate|..]|]);
   [..|by apply not_elem_of_nil in H]].

Lemma inner_packable d : packable (S d) inner.
Proof. unfold inner. packable_table; destruct d; cbn [packable]; done || lia. Qed.

Lemma sample_packable d : packable (S (S d)) sample.
Proof.
  unfold sample. packable_table; try exact (inner_packable d); cbn [packable]; unfold in_s; lia || (vm_compute; discriminate).
Qed.

Lemma serialize_roundtrip_witness :
  exists buf wb', luaseri_pack [VNil; sample] (MkWrite [] None 0 0) = Done (buf, alen buf) wb' /\
    luaseri_unpack (SString buf) tt = Done [TNil; norm 32 sample] tt.
Proof.
  destruct (serialize_roundtrip [VNil; sample] (MkWrite [] None 0 0)) as (buf & wb' & H1 & _ & H3 & _).
  - apply Forall_cons. split; [exact I|]. apply Forall_cons. split; [exact (sample_packable 30)|by apply Forall_nil].
  - vm_compute. discriminate.
  - exact (ex_intro _ buf (ex_intro _ wb' (conj H1 H3))).
Defined.

Lemma unpack_any_input_witness :
  (exists l, luaseri_unpack (SString (z2b <$> [254; 10; 255; 6])) tt = Done l tt) \/
  (exists e, luaseri_unpack (SString (z2b <$> [254; 10; 255; 6])) tt = Raise e tt) \/
  luaseri_unpack (SString (z2b <$> [254; 10; 255; 6])) tt = Fault SignedOverflow.
Proof.
  apply (unpack_any_input _ (z2b <$> [254; 10; 255; 6]) 4); [left; split; reflexivity|vm_compute; split; discriminate|vm_compute; discriminate].
Defined.

Lemma pack_refuses_witness :
  exists e, luaseri_pack [VFunction None; VInt 1] (MkWrite [] None 0 0) = Raise e (MkWrite [] None 0 0).
Proof.
  apply (pack_refuses (VFunction None) [VInt 1]). right. left. exists None. reflexivity.
Defined.
