(* ===== verification/Protocol.v ===== *)
(** * Typed messages (lua-protocol.c)

    A context holds message descriptions by number; [lencode_protocol] writes the
    fields of a Lua table in the order of its description and
    [ldecode_protocol] reads them back. The theorems show that a decoded message
    has the fields of the encoded one, except for negative 32-bit integers, that
    decoding is safe on any input, and that a loaded description is stored
    as it was given. *)

From S2P Require Import Prelude Outcome Codec LuaValue.

Definition BUFFER_SIZE : Z := 128.
Definition MAX_DEPTH : Z := 32.
Definition TYPE_NUMBER_ZERO : Z := 0.
Definition TYPE_NUMBER_BYTE : Z := 1.
Definition TYPE_NUMBER_WORD : Z := 2.
Definition TYPE_NUMBER_DWORD : Z := 3.
Definition TYPE_NUMBER_QWORD : Z := 4.
Definition FTYPE_INT : Z := 0.
Definition FTYPE_FLOAT : Z := 1.
Definition FTYPE_DOUBLE : Z := 2.
Definition FTYPE_STRING : Z := 3.
Definition FTYPE_PROTOCOL : Z := 4.

Record message_writer := MkWriter { ptr : bytes; offset : Z; size : Z }.
Record message_reader := MkReader { rptr : bytes; roffset : Z; rsize : Z }.

(** The cells of [nest]; their number is [cap], and the first [nsize] are in use. *)
Unset Elimination Schemes.
Inductive field := MkField {
  fname : bytes; array : bool; type : Z; type_name : bytes; nest : list field; nsize : Z }.
Set Elimination Schemes.

Record protocol := MkProtocol { pname : bytes; pfield : list field; psize : Z }.

(** [strings] is the table in the private Lua state: the C strings kept for the names. *)
Record context := MkContext { slots : list (option protocol); strings : gmap bytes bytes }.

Abbreviation W := (M message_writer).
Abbreviation R := (M message_reader).

(** ** The writer *)

Definition writer_init : W unit := put (MkWriter (replicate (Z.to_nat BUFFER_SIZE) (z2b 0)) 0 BUFFER_SIZE).

Definition writer_release : W unit := put (MkWriter [] 0 0).

(** The while loop doubles a [size_t]. *)
Definition writer_reserve (sz : Z) : W unit :=
  w ← get;
  if u64 (size w) <? u64 (offset w + sz) then
    require SignedOverflow (size w * 2 <=? INT_MAX);;
    nsize ← loop 64 (fun n => if n <? u64 (offset w + sz) then mret (inl (u64 (n * 2))) else mret (inr n)) (size w * 2);
    nptr ← deref OutOfBounds (memcpy (replicate (Z.to_nat nsize) (z2b 0)) 0 (ptr w));
    put (MkWriter nptr (offset w) (s32 nsize))
  else mret tt.

Definition writer_push (data : bytes) : W unit :=
  writer_reserve (alen data);;
  w ← get;
  b ← deref OutOfBounds (memcpy (ptr w) (offset w) data);
  require SignedOverflow (offset w + alen data <=? INT_MAX);;
  put (MkWriter b (offset w + alen data) (size w)).

Definition write_byte (val : Z) : W unit := writer_push (le_split 1 val).

Definition write_short (val : Z) : W unit := writer_push (le_split 2 (u16 val)).

Definition write_int (val : Z) : W unit :=
  if val =? 0 then write_byte TYPE_NUMBER_ZERO
  else if negb (val =? s32 val) then write_byte TYPE_NUMBER_QWORD;; writer_push (le_split 8 val)
  else if val <? 0 then write_byte TYPE_NUMBER_DWORD;; writer_push (le_split 4 (s32 val))
  else if val <? 256 then write_byte TYPE_NUMBER_BYTE;; writer_push (le_split 1 (u8 val))
  else if val <? 65536 then write_byte TYPE_NUMBER_WORD;; writer_push (le_split 2 (u16 val))
  else write_byte TYPE_NUMBER_DWORD;; writer_push (le_split 4 (u32 val)).

(** The double is narrowed to a float by the call. *)
Definition write_float (bits : Z) : W unit := writer_push (le_split 4 (double_float bits)).

Definition write_double (bits : Z) : W unit := writer_push (le_split 8 bits).

Definition write_string (str : bytes) : W unit := write_short (alen str);; writer_push str.

(** ** The reader *)

Definition reader_pop (sz : Z) : R bytes :=
  r ← get;
  if u64 (rsize r - roffset r) <? sz then luaL_error "decode error:invalid mesasge"
  else
    data ← deref OutOfBounds (slice (rptr r) (roffset r) sz);
    put (MkReader (rptr r) (roffset r + sz) (rsize r));;
    mret data.

Definition reader_left : R Z := r ← get; mret (rsize r - roffset r).

Definition read_short : R Z := d ← reader_pop 2; mret (u16 (s16 (le_combine d))).

Definition read_int : R Z :=
  t ← reader_pop 1;
  let type := le_combine t in
  if type =? TYPE_NUMBER_ZERO then mret 0
  else if type =? TYPE_NUMBER_BYTE then d ← reader_pop 1; mret (le_combine d)
  else if type =? TYPE_NUMBER_WORD then d ← reader_pop 2; mret (le_combine d)
  else if type =? TYPE_NUMBER_DWORD then d ← reader_pop 4; mret (le_combine d)
  else if type =? TYPE_NUMBER_QWORD then d ← reader_pop 8; mret (s64 (le_combine d))
  else luaL_error "decode error:invalid int type".

(** As the double that is pushed. *)
Definition read_float : R Z := d ← reader_pop 4; mret (float_double (le_combine d)).

Definition read_double : R Z := d ← reader_pop 8; mret (le_combine d).

Definition read_string : R bytes :=
  n ← read_short;
  left ← reader_left;
  if u64 left <? n then luaL_error "decode error:invalid mesasge"
  else
    r ← get;
    data ← deref OutOfBounds (slice (rptr r) (roffset r) n);
    put (MkReader (rptr r) (roffset r + n) (rsize r));;
    mret data.

(** ** Packing *)

Definition fail_pack {A} (msg : string) : W A := writer_release;; luaL_error msg.

(** The four functions for fields of a plain type differ in the test of the Lua type
    ([accepts]) and in what they write. *)
Definition pack_plain (accepts : value -> bool) (write : value -> W unit) (f : field) (v : value) : W unit :=
  if array f then
    match v with
    | VTable _ rawlen entries _ _ =>
        let array_size := s32 rawlen in
        write_short array_size;;
        for_each (seqZ 1 array_size) (fun i =>
          let x := rawgeti entries i in
          if accepts x then write x else fail_pack "array member has another type")
    | _ => fail_pack "field expect table"
    end
  else if accepts v then write v else fail_pack "field has another type".

Definition is_number (v : value) : bool := match v with VInt _ | VReal _ => true | _ => false end.
Definition is_string (v : value) : bool := match v with VStr _ => true | _ => false end.
Definition tolstring (v : value) : bytes := match v with VStr s => s | _ => [] end.

Definition pack_int : field -> value -> W unit := pack_plain is_number (fun v => write_int (tointeger v)).
Definition pack_float : field -> value -> W unit := pack_plain is_number (fun v => write_float (tonumber v)).
Definition pack_double : field -> value -> W unit := pack_plain is_number (fun v => write_double (tonumber v)).
Definition pack_string : field -> value -> W unit := pack_plain is_string (fun v => write_string (tolstring v)).

(** [&fields[j]] for the fields in use. *)
Definition nth_field {St} (l : list field) (j : Z) : M St field := deref OutOfBounds (aget l j).

(** The fields of the table with these entries. *)
Definition pack_fields (pack_one : field -> value -> W unit) (l : list field) (n : Z) (entries index : list (value * value)) : W unit :=
  for_each (seqZ 0 n) (fun j => f ← nth_field l j; pack_one f (getfield entries index (fname f))).

Definition pack_field (pack_one : field -> value -> Z -> W unit) (parent : field) (v : value) (depth : Z) : W unit :=
  let depth := depth + 1 in
  if MAX_DEPTH <? depth then fail_pack "message pack too depth"
  else match v with
  | VTable _ rawlen entries index _ =>
      if array parent then
        let array_size := s32 rawlen in
        write_short array_size;;
        for_each (seqZ 0 array_size) (fun i =>
          match rawgeti entries (i + 1) with
          | VTable _ _ entries index _ => pack_fields (fun f v => pack_one f v depth) (nest parent) (nsize parent) entries index
          | _ => fail_pack "array member expect table"
          end)
      else pack_fields (fun f v => pack_one f v depth) (nest parent) (nsize parent) entries index
  | _ => fail_pack "field expect table"
  end.

(** The depth is checked, so that [msg_fuel] nested calls are enough. *)
Definition msg_fuel : nat := 33.

Fixpoint pack_one (fuel : nat) (f : field) (v : value) (depth : Z) : W unit :=
  if type f =? FTYPE_INT then pack_int f v
  else if type f =? FTYPE_FLOAT then pack_float f v
  else if type f =? FTYPE_DOUBLE then pack_double f v
  else if type f =? FTYPE_STRING then pack_string f v
  else if type f =? FTYPE_PROTOCOL then
    match fuel with
    | O => crash OutOfFuel
    | S fuel => pack_field (pack_one fuel) f v depth
    end
  else fail_pack "pack error:invalid type".

(** ** Unpacking

    A function gives the value that it stores under the name of the field. *)

(** [for (i = 1; i <= array_size; i++)] filling a new table. *)
Definition unpack_array {A} (n : Z) (read : R A) (mk : A -> tree) : R tree :=
  t ← loop (S (Z.to_nat n)) (fun st : Z * list (tree * tree) =>
    let '(i, t) := st in
    if n <? i then mret (inr t)
    else x ← read; mret (inl (i + 1, rawseti i (mk x) t))) (1, []);
  mret (TTable t).

Definition unpack_plain {A} (read : R A) (mk : A -> tree) (f : field) : R tree :=
  if array f then array_size ← read_short; unpack_array array_size read mk
  else x ← read; mret (mk x).

Definition unpack_int : field -> R tree := unpack_plain read_int TInt.
Definition unpack_float : field -> R tree := unpack_plain read_float TReal.
Definition unpack_double : field -> R tree := unpack_plain read_double TReal.
Definition unpack_string : field -> R tree := unpack_plain read_string TStr.

(** A new table with the fields of [l]. *)
Definition unpack_fields (unpack_one : field -> R tree) (l : list field) (n : Z) : R (list (tree * tree)) :=
  loop (S (Z.to_nat n)) (fun st : Z * list (tree * tree) =>
    let '(j, t) := st in
    if n <=? j then mret (inr t)
    else
      f ← nth_field l j;
      x ← unpack_one f;
      mret (inl (j + 1, set_entry (TStr (fname f)) x t))) (0, []).

Definition unpack_field (unpack_one : field -> Z -> R tree) (parent : field) (depth : Z) : R tree :=
  let depth := depth + 1 in
  if MAX_DEPTH <? depth then luaL_error "message unpack too depth"
  else
    let table := t ← unpack_fields (fun f => unpack_one f depth) (nest parent) (nsize parent); mret (TTable t) in
    if array parent then array_size ← read_short; unpack_array array_size table (fun t => t)
    else table.

Fixpoint unpack_one (fuel : nat) (f : field) (depth : Z) : R tree :=
  if type f =? FTYPE_INT then unpack_int f
  else if type f =? FTYPE_FLOAT then unpack_float f
  else if type f =? FTYPE_DOUBLE then unpack_double f
  else if type f =? FTYPE_STRING then unpack_string f
  else if type f =? FTYPE_PROTOCOL then
    match fuel with
    | O => crash OutOfFuel
    | S fuel => unpack_field (unpack_one fuel) f depth
    end
  else luaL_error "unpack error:invalid type".

(** ** Encoding and decoding a message *)

(** The test at the head of both functions: a negative index is not caught. *)
Definition find_protocol (ctx : context) (index : Z) : M unit protocol :=
  if alen (slots ctx) <=? index then luaL_error "index error"
  else
    o ← deref OutOfBounds (aget (slots ctx) index);
    match o with None => luaL_error "index error" | Some ptl => mret ptl end.

(** Run a computation on a buffer of its own. *)
Definition with_buffer {St A} (m : M St A) (s : St) : M unit A := fun u =>
  match m s with Done a _ => Done a u | Raise e _ => Raise e u | Fault f => Fault f end.

Definition lencode_protocol (ctx : context) (index : Z) (v : value) : M unit bytes :=
  let index := s32 index in
  ptl ← find_protocol ctx index;
  match v with
  | VTable _ _ entries idx _ =>
      with_buffer (
        writer_init;;
        pack_fields (fun f v => pack_one msg_fuel f v 1) (pfield ptl) (psize ptl) entries idx;;
        w ← get;
        out ← deref OutOfBounds (slice (ptr w) 0 (offset w));
        writer_release;;
        mret out) (MkWriter [] 0 0)
  | _ => luaL_error "table expected"
  end.

Inductive msg_arg :=
| MString (s : bytes)
| MData (mem : bytes) (n : Z)
| MOther.

Definition ldecode_protocol (ctx : context) (index : Z) (arg : msg_arg) : M unit tree :=
  let index := s32 index in
  ptl ← find_protocol ctx index;
  '(str, n) ← match arg with
    | MString s => mret (s, alen s)
    | MData mem n => mret (mem, u64 n)
    | MOther => luaL_error "unkown type"
    end;
  with_buffer (
    t ← unpack_fields (fun f => unpack_one msg_fuel f 1) (pfield ptl) (psize ptl);
    r ← get;
    if negb (roffset r =? rsize r) then luaL_error "decode error" else mret (TTable t)) (MkReader str 0 (s32 n)).

(** ** The writer holds what was pushed *)

(** Messages up to 1 GiB. *)
Definition msg_limit : Z := 2 ^ 30.

Definition writer_ok (w : message_writer) (out : bytes) : Prop :=
  alen (ptr w) = size w /\ offset w = alen out /\ BUFFER_SIZE <= size w <= INT_MAX /\ alen out <= size w /\
  take (Z.to_nat (alen out)) (ptr w) = out.

Lemma wp_double {St} target n (s : St) Q :
  0 < n -> n <= INT_MAX -> 0 <= target <= msg_limit ->
  (forall n', target <= n' -> n <= n' <= INT_MAX -> Q n' s) ->
  wpd (loop 64 (fun n => if n <? target then mret (inl (u64 (n * 2))) else mret (inr n)) n) Q s.
Proof.
  unfold INT_MAX, msg_limit. intros Hn Hmax Ht HQ.
  apply (wp_loop_rank (fun k m s' => s' = s /\ n <= m <= 2147483647 /\ target <= m * 2 ^ Z.of_nat k) _ _ _ _ 30).
  - intros k m s' (-> & Hm & Hk). destruct (Z.ltb_spec m target) as [Hlt|Hge]; wp_step.
    + destruct k as [|k]; [rewrite Z.mul_1_r in Hk; lia|]. exists k. rewrite uwrap_small by lia.
      split; [lia|]. split_and!; [done|lia|lia|]. rewrite Nat2Z.inj_succ, Z.pow_succ_r in Hk by lia. lia.
    + apply HQ; lia.
  - split_and!; [done|lia|lia|]. change (2 ^ Z.of_nat 30) with (2 ^ 30). lia.
  - lia.
Qed.

Lemma wp_writer_reserve sz w out Q :
  writer_ok w out -> 0 <= sz -> alen out + sz <= msg_limit ->
  (forall w', writer_ok w' out -> alen out + sz <= size w' -> Q tt w') -> wpd (writer_reserve sz) Q w.
Proof.
  intros (Hl & Ho & Hs & Hos & Ht) Hsz Hmax HQ. unfold writer_reserve. do 2 wp_step.
  pose proof (alen_nonneg out). unfold msg_limit, INT_MAX, BUFFER_SIZE in *.
  rewrite !uwrap_small by lia. destruct (Z.ltb_spec (size w) (offset w + sz)) as [Hlt|Hge].
  - wp_step. wp_step; [by apply Z.leb_le; unfold INT_MAX; lia|]. wp_step.
    apply wp_double; [lia|unfold INT_MAX; lia|unfold msg_limit; lia|]. intros n Hn1 Hn2. unfold INT_MAX in Hn2.
    assert (exists p', memcpy (replicate (Z.to_nat n) (z2b 0)) 0 (ptr w) = Some p' /\ alen p' = n /\
      take (Z.to_nat (alen (ptr w))) p' = ptr w) as (p' & Ep & Lp & Tp).
    { replace (Z.to_nat n) with (Z.to_nat (size w) + Z.to_nat (n - size w))%nat by lia. rewrite replicate_add.
      exists (ptr w ++ replicate (Z.to_nat (n - size w)) (z2b 0)). split_and!.
      - apply (memcpy_mid [] (replicate (Z.to_nat (size w)) (z2b 0)) (ptr w)); [done|rewrite alen_replicate; lia].
      - rewrite alen_app, alen_replicate. lia.
      - apply take_app_length'. rewrite alen_length. lia. }
    wp_step. wp_step; [exact Ep|]. wp_step. rewrite swrap_small by (unfold in_s; lia). apply HQ; [|cbn; lia].
    split_and!; cbn; unfold BUFFER_SIZE, INT_MAX; try lia.
    rewrite <- Tp, take_take in Ht. by replace (Z.to_nat (alen out) `min` Z.to_nat (alen (ptr w)))%nat with (Z.to_nat (alen out)) in Ht by lia.
  - wp_step. apply HQ; [|lia]. split_and!; unfold BUFFER_SIZE, INT_MAX; try done; lia.
Qed.

Abbreviation emits := (Codec.emits writer_ok msg_limit).

Lemma emits_writer_push b : emits (writer_push b) tt b.
Proof.
  intros w out Q K Hl HQ. pose proof (alen_nonneg b). pose proof (alen_nonneg out). unfold writer_push. wp_step.
  apply (wp_writer_reserve _ w out); [done|lia|done|]. intros w1 (Hl1 & Ho1 & Hs1 & Hos1 & Ht1) Hfit. do 2 wp_step.
  destruct (memcpy_at (ptr w1) b (offset w1)) as (p' & Ep & Lp & Tp); [lia|lia|].
  wp_step. wp_step; [exact Ep|]. wp_step. wp_step; [apply Z.leb_le; unfold msg_limit, INT_MAX in *; lia|]. wp_step. apply HQ.
  split_and!; cbn; rewrite ?alen_app; try lia. rewrite <- Ho1, Tp. by rewrite Ho1, Ht1.
Qed.

(** ** Integers *)

Definition enc_int (v : Z) : bytes :=
  if v =? 0 then [z2b 0]
  else if negb (v =? s32 v) then z2b 4 :: le_split 8 v
  else if v <? 0 then z2b 3 :: le_split 4 v
  else if v <? 256 then z2b 1 :: le_split 1 v
  else if v <? 65536 then z2b 2 :: le_split 2 v
  else z2b 3 :: le_split 4 v.

Lemma emits_write_byte n : emits (write_byte n) tt [z2b n].
Proof. apply emits_writer_push. Qed.

Lemma emits_short n : emits (write_short n) tt (le_split 2 n).
Proof. rewrite <- (le_split_uwrap 2 n). apply emits_writer_push. Qed.

Lemma emits_write_int v : emits (write_int v) tt (enc_int v).
Proof.
  unfold write_int, enc_int. destruct (Z.eqb_spec v 0) as [->|H0]; [apply emits_write_byte|].
  destruct (Z.eqb_spec v (s32 v)) as [E|E]; cbn [negb].
  - repeat case_match; (eapply (emits_bind _ _ _ _ [_]); [apply emits_write_byte|]).
    + rewrite <- E. apply emits_writer_push.
    + rewrite <- (le_split_uwrap 1 v). apply emits_writer_push.
    + rewrite <- (le_split_uwrap 2 v). apply emits_writer_push.
    + rewrite <- (le_split_uwrap 4 v). apply emits_writer_push.
  - eapply (emits_bind _ _ _ _ [_]); [apply emits_write_byte|apply emits_writer_push].
Qed.

(** The reader in front of [rest], the end of the message. *)
Definition reader_at (r : message_reader) (rest : bytes) : Prop :=
  exists pre, rptr r = pre ++ rest /\ roffset r = alen pre /\ rsize r = alen pre + alen rest /\ rsize r <= INT_MAX.

Abbreviation reads := (Codec.reads reader_at).

Lemma reads_pop b sz : sz = alen b -> reads (reader_pop sz) b b.
Proof.
  intros -> r rest Q (pre & Ep & Eo & Es & Hm) HQ. unfold reader_pop. do 2 wp_step. rewrite alen_app in Es.
  pose proof (alen_nonneg b). pose proof (alen_nonneg rest). pose proof (alen_nonneg pre). unfold INT_MAX in Hm.
  rewrite uwrap_small by lia. rewrite (proj2 (Z.ltb_ge _ _)) by lia.
  wp_step. wp_step; [rewrite Ep; by apply slice_mid|]. wp_step. wp_step. wp_step. apply HQ.
  exists (pre ++ b). cbn. rewrite Ep, <- app_assoc, alen_app. unfold INT_MAX. split_and!; [done|lia|lia|lia].
Qed.

Lemma reads_short n : 0 <= n < 65536 -> reads read_short n (le_split 2 n).
Proof.
  intros Hn. pose proof (reads_map (at_rest := reader_at) (reader_pop 2) (fun d => u16 (s16 (le_combine d))) (le_split 2 n) (le_split 2 n)) as H.
  cbv beta in H. rewrite combine_split_u, uwrap_swrap, uwrap_small in H by lia. apply H. apply reads_pop. by rewrite alen_le_split.
Qed.

(** What [read_int] makes of an integer: a negative one of 32 bits is read as unsigned. *)
Definition read_back (v : Z) : Z := if (- 2 ^ 31 <=? v) && (v <? 0) then v + 2 ^ 32 else v.

Lemma reads_int v : in_s 64 v -> reads read_int (read_back v) (enc_int v).
Proof.
  intros Hv. unfold enc_int, read_back.
  assert (forall c k (g : bytes -> Z) n x, 0 <= c < 256 ->
    (forall t, le_combine t = c -> (let type := le_combine t in
      if type =? TYPE_NUMBER_ZERO then mret 0
      else if type =? TYPE_NUMBER_BYTE then d ← reader_pop 1; mret (le_combine d)
      else if type =? TYPE_NUMBER_WORD then d ← reader_pop 2; mret (le_combine d)
      else if type =? TYPE_NUMBER_DWORD then d ← reader_pop 4; mret (le_combine d)
      else if type =? TYPE_NUMBER_QWORD then d ← reader_pop 8; mret (s64 (le_combine d))
      else luaL_error "decode error:invalid int type") = (d ← reader_pop k; mret (g d))) ->
    k = Z.of_nat n -> g (le_split n v) = x -> reads read_int x (z2b c :: le_split n v)) as H.
  { intros c k g n x Hc Ht -> <-. unfold read_int. eapply (reads_bind _ _ _ _ [_]); [by apply reads_pop|].
    rewrite Ht; [apply reads_map, reads_pop; by rewrite alen_le_split|].
    change (Z.lor (b2z (z2b c)) 0 = c). rewrite Z.lor_0_r. by apply b2z_z2b_small. }
  destruct (Z.eqb_spec v 0) as [->|H0].
  { change [z2b 0] with ([z2b 0] ++ []). eapply (reads_bind _ _ _ _ [_]); [by apply reads_pop|apply reads_ret]. }
  unfold in_s in Hv. destruct (Z.eqb_spec v (s32 v)) as [E|E]; cbn [negb].
  - assert (in_s 32 v) as H32 by (rewrite E; by apply swrap_range). unfold in_s in H32.
    rewrite (proj2 (Z.leb_le _ _)) by lia. cbn [andb]. repeat case_match; zcase; try lia.
    + eapply (H 3 4 le_combine 4%nat); [lia|by intros t ->|done|]. rewrite le_combine_split. symmetry. apply (Z.mod_unique_pos _ _ (-1)); lia.
    + eapply (H 1 1 le_combine 1%nat); [lia|by intros t ->|done|]. apply combine_split_u. lia.
    + eapply (H 2 2 le_combine 2%nat); [lia|by intros t ->|done|]. apply combine_split_u. lia.
    + eapply (H 3 4 le_combine 4%nat); [lia|by intros t ->|done|]. apply combine_split_u. lia.
  - assert (~ in_s 32 v) as H32 by (intros H32; apply E; by rewrite swrap_small). unfold in_s in H32.
    replace ((- 2 ^ 31 <=? v) && (v <? 0)) with false by (symmetry; apply andb_false_iff; zcase; lia).
    eapply (H 4 8 (fun d => s64 (le_combine d)) 8%nat); [lia|by intros t ->|done|]. by apply (combine_split_s 64).
Qed.

(** ** What a message is encoded to and decoded from *)

Definition plain_type (ty : Z) : bool :=
  (ty =? FTYPE_INT) || (ty =? FTYPE_FLOAT) || (ty =? FTYPE_DOUBLE) || (ty =? FTYPE_STRING).

Definition plain_ok (ty : Z) (v : value) : Prop :=
  if ty =? FTYPE_INT then is_number v = true /\ in_s 64 (tointeger v)
  else if ty =? FTYPE_FLOAT then is_number v = true
  else if ty =? FTYPE_DOUBLE then is_number v = true /\ 0 <= tonumber v < 2 ^ 64
  else is_string v = true /\ alen (tolstring v) < 65536.

Definition plain_enc (ty : Z) (v : value) : bytes :=
  if ty =? FTYPE_INT then enc_int (tointeger v)
  else if ty =? FTYPE_FLOAT then le_split 4 (double_float (tonumber v))
  else if ty =? FTYPE_DOUBLE then le_split 8 (tonumber v)
  else le_split 2 (alen (tolstring v)) ++ tolstring v.

(** A float field keeps the nearest float of the number. *)
Definition plain_dec (ty : Z) (v : value) : tree :=
  if ty =? FTYPE_INT then TInt (read_back (tointeger v))
  else if ty =? FTYPE_FLOAT then TReal (float_double (double_float (tonumber v)))
  else if ty =? FTYPE_DOUBLE then TReal (tonumber v)
  else TStr (tolstring v).

(** The length and the elements of an array; a table without its metatable. *)
Definition rawlen_of (v : value) : Z := match v with VTable _ n _ _ _ => n | _ => 0 end.
Definition element (v : value) (i : Z) : value := match v with VTable _ _ entries _ _ => rawgeti entries i | _ => VNil end.
Definition get_of (v : value) (name : bytes) : value :=
  match v with VTable _ _ entries index _ => getfield entries index name | _ => VNil end.
Definition is_table (v : value) : bool := match v with VTable _ _ _ _ _ => true | _ => false end.

(** [one] for a plain field, or for every element of an array. *)
Definition array_ok (f : field) (one : value -> Prop) (v : value) : Prop :=
  if array f then is_table v = true /\ 0 <= rawlen_of v < 65536 /\ forall i, 1 <= i <= rawlen_of v -> one (element v i)
  else one v.
Definition array_enc (f : field) (one : value -> bytes) (v : value) : bytes :=
  if array f then le_split 2 (rawlen_of v) ++ mjoin ((fun i => one (element v i)) <$> seqZ 1 (rawlen_of v)) else one v.
Definition array_dec (f : field) (one : value -> tree) (v : value) : tree :=
  if array f then
    TTable (foldl (fun t i => rawseti i (one (element v i)) t) [] (seqZ 1 (rawlen_of v)))
  else one v.

Definition used (l : list field) (n : Z) : list field := take (Z.to_nat n) l.

(** The fields of one table, given the functions of one field. *)
Definition fields_ok (one : field -> value -> Prop) (l : list field) (n : Z) (v : value) : Prop :=
  is_table v = true /\ 0 <= n <= alen l /\ forall f, f ∈ used l n -> one f (get_of v (fname f)).
Definition fields_enc (one : field -> value -> bytes) (l : list field) (n : Z) (v : value) : bytes :=
  mjoin ((fun f => one f (get_of v (fname f))) <$> used l n).
Definition fields_dec (one : field -> value -> tree) (l : list field) (n : Z) (v : value) : list (tree * tree) :=
  foldl (fun t f => set_entry (TStr (fname f)) (one f (get_of v (fname f))) t) [] (used l n).

(** A field with messages nested at most [d] deep: the value has its type, its
    encoding, what is decoded from it. *)
Fixpoint field_ok (d : nat) (f : field) (v : value) : Prop :=
  if plain_type (type f) then array_ok f (plain_ok (type f)) v
  else match d with
  | O => False
  | S d => type f = FTYPE_PROTOCOL /\ array_ok f (fields_ok (field_ok d) (nest f) (nsize f)) v
  end.

Fixpoint field_enc (d : nat) (f : field) (v : value) : bytes :=
  if plain_type (type f) then array_enc f (plain_enc (type f)) v
  else match d with
  | O => []
  | S d => array_enc f (fields_enc (field_enc d) (nest f) (nsize f)) v
  end.

Fixpoint field_dec (d : nat) (f : field) (v : value) : tree :=
  if plain_type (type f) then array_dec f (plain_dec (type f)) v
  else match d with
  | O => TNil
  | S d => array_dec f (fun v => TTable (fields_dec (field_dec d) (nest f) (nsize f) v)) v
  end.

(** *** Encoding *)

Lemma for_each_used {St} (l : list field) n (body : field -> M St unit) s :
  0 <= n <= alen l -> for_each (seqZ 0 n) (fun j => f ← nth_field l j; body f) s = for_each (used l n) body s.
Proof.
  intros Hn. unfold used. rewrite alen_length in Hn.
  assert (forall (l1 l2 : list field) s, l = l1 ++ l2 ->
    for_each (seqZ (alen l1) (n - alen l1)) (fun j => f ← nth_field l j; body f) s = for_each (take (Z.to_nat (n - alen l1)) l2) body s) as H.
  { intros l1 l2. revert l1. induction l2 as [|f l2 IH]; intros l1 s0 E.
    - rewrite app_nil_r in E. subst l1. rewrite take_nil, seqZ_nil; [done|]. rewrite alen_length. lia.
    - destruct (decide (n - alen l1 <= 0)) as [Hz|Hz].
      + rewrite seqZ_nil by done. replace (Z.to_nat (n - alen l1)) with 0%nat by lia. done.
      + rewrite seqZ_cons by lia. replace (Z.to_nat (n - alen l1)) with (S (Z.to_nat (n - alen l1 - 1))) by lia.
        assert (aget l (alen l1) = Some f) as Ea by (rewrite E, aget_app_r, Z.sub_diag by lia; apply aget_cons_0).
        cbn [take for_each]. unfold nth_field. cbv beta. rewrite Ea. cbn [deref]. unfold mbind, M_bind. cbn [mret M_ret]. destruct (body f s0); try done.
        specialize (IH (l1 ++ [f]) s1 ltac:(by rewrite <- app_assoc)). rewrite alen_snoc in IH.
        replace (Z.succ (alen l1)) with (alen l1 + 1) by lia. replace (Z.pred (n - alen l1)) with (n - (alen l1 + 1)) by lia.
        replace (n - alen l1 - 1) with (n - (alen l1 + 1)) by lia. exact IH. }
  specialize (H [] l s eq_refl). by rewrite alen_nil, Z.sub_0_r in H.
Qed.

Lemma emits_eq {A} (m m' : W A) a b : (forall w, m w = m' w) -> emits m' a b -> emits m a b.
Proof. intros E H w out Q K Hl HQ. unfold wp. rewrite E. by apply (H w out). Qed.

Lemma emits_fields (one : field -> value -> W unit) (enc1 : field -> value -> bytes) (ok1 : field -> value -> Prop) l n v :
  (forall f x, ok1 f x -> emits (one f x) tt (enc1 f x)) -> fields_ok ok1 l n v ->
  exists entries index, (exists a r p, v = VTable a r entries index p) /\ emits (pack_fields one l n entries index) tt (fields_enc enc1 l n v).
Proof.
  intros H (Ht & Hn & Hf). destruct v as [| | | | | | | | |a r entries index p]; try done.
  exists entries, index. split; [eauto|]. unfold pack_fields. eapply emits_eq; [intros w; by apply for_each_used|].
  apply (emits_for_each _ _ (fun f => enc1 f (getfield entries index (fname f)))). intros f Hin. apply H. by apply (Hf f Hin).
Qed.

(** The elements of an array field. *)
Lemma emits_array f (one : value -> W unit) (enc1 : value -> bytes) (ok1 : value -> Prop) a r entries index p (i0 : Z) :
  (forall x, ok1 x -> emits (one x) tt (enc1 x)) -> array f = true -> array_ok f ok1 (VTable a r entries index p) ->
  emits (write_short (s32 r);; for_each (seqZ i0 (s32 r)) (fun i => one (rawgeti entries (i + (1 - i0))))) tt
    (array_enc f enc1 (VTable a r entries index p)).
Proof.
  intros H Hf Hok. unfold array_ok, array_enc in *. rewrite Hf in *. destruct Hok as (_ & Hr & Hel). cbn in Hr, Hel.
  rewrite swrap_small by (unfold in_s; lia). cbn [rawlen_of]. eapply emits_bind; [apply emits_short|].
  replace (seqZ 1 r) with ((fun i => i + (1 - i0)) <$> seqZ i0 r).
  - rewrite <- list_fmap_compose. apply (emits_for_each _ _ (fun i => enc1 (rawgeti entries (i + (1 - i0))))).
    intros i Hi%elem_of_seqZ. apply H, Hel. lia.
  - apply list_eq. intros j. rewrite list_lookup_fmap. destruct (decide (j < Z.to_nat r)%nat).
    + rewrite !lookup_seqZ_lt by lia. simpl. f_equal. lia.
    + rewrite !lookup_seqZ_ge by lia. done.
Qed.

Lemma emits_pack_plain accepts write enc1 (ok1 : value -> Prop) f v :
  (forall x, ok1 x -> accepts x = true /\ emits (write x) tt (enc1 x)) -> array_ok f ok1 v ->
  emits (pack_plain accepts write f v) tt (array_enc f enc1 v).
Proof.
  intros H Hok. unfold pack_plain. destruct (array f) eqn:Ef.
  - destruct v as [| | | | | | | | |a r entries index p]; try (unfold array_ok in Hok; rewrite Ef in Hok; by destruct Hok).
    pose proof (emits_array f (fun x => if accepts x then write x else fail_pack "array member has another type") enc1 ok1
      a r entries index p 1) as Ha.
    eapply emits_eq; [|apply Ha; [|done|exact Hok]].
    + intros w. cbv zeta. unfold mbind, M_bind. destruct (write_short _ w) as [u w1|e w1|fl]; [|done|done].
      change (1 - 1) with 0. generalize (seqZ 1 (s32 r)) as l. clear. intros l. revert w1.
      induction l as [|i l IH]; intros w1; [done|]. cbn [for_each]. rewrite Z.add_0_r. unfold mbind, M_bind.
      destruct (_ w1) as [u2 w2|e2 w2|fl2]; [apply IH|done|done].
    + intros x Hx. destruct (H x Hx) as [-> ?]. done.
  - unfold array_ok, array_enc in *. rewrite Ef in *. destruct (H v Hok) as [-> ?]. done.
Qed.

Lemma emits_plain f v fuel depth :
  plain_type (type f) = true -> array_ok f (plain_ok (type f)) v ->
  emits (pack_one fuel f v depth) tt (array_enc f (plain_enc (type f)) v).
Proof.
  unfold plain_type. intros Ht Hok.
  assert (forall fuel, pack_one fuel f v depth =
    if type f =? FTYPE_INT then pack_int f v else if type f =? FTYPE_FLOAT then pack_float f v
    else if type f =? FTYPE_DOUBLE then pack_double f v else pack_string f v) as ->.
  { intros [|k]; cbn [pack_one]; repeat case_match; try done. }
  unfold plain_ok, plain_enc in *. destruct (type f =? FTYPE_INT), (type f =? FTYPE_FLOAT), (type f =? FTYPE_DOUBLE);
    (eapply emits_pack_plain; [|exact Hok]); intros x Hx; cbn in Hx |- *.
  1-4: split; [apply Hx|apply emits_write_int].
  1-2: split; [done|apply emits_writer_push].
  - split; [apply Hx|apply emits_writer_push].
  - split; [apply Hx|]. eapply emits_bind; [apply emits_short|apply emits_writer_push].
Qed.

(** [pack_one] appends the encoding of the field. *)
Lemma emits_pack_field_of d f v fuel depth :
  field_ok d f v -> 1 <= depth -> depth + Z.of_nat d <= MAX_DEPTH -> (d <= fuel)%nat ->
  emits (pack_one fuel f v depth) tt (field_enc d f v).
Proof.
  revert f v fuel depth. induction d as [|d IH]; intros f v fuel depth Hok H1 Hd Hf;
    cbn [field_ok field_enc] in *; (destruct (plain_type (type f)) eqn:Hp; [by apply emits_plain|]); [done|].
  destruct Hok as [Ht Hok]. destruct fuel as [|fuel]; [lia|]. cbn [pack_one]. rewrite Ht. cbn.
  assert (forall g x, field_ok d g x -> emits (pack_one fuel g x (depth + 1)) tt (field_enc d g x)) as IHx.
  { intros g x Hx. apply IH; [done|lia|lia|lia]. }
  unfold pack_field. rewrite (proj2 (Z.ltb_ge _ _)) by lia. cbv zeta. destruct (array f) eqn:Ef.
  - destruct v as [| | | | | | | | |a r entries index p]; try (unfold array_ok in Hok; rewrite Ef in Hok; by destruct Hok).
    apply (emits_array f (fun x => match x with
        | VTable _ _ entries index _ => pack_fields (fun f v => pack_one fuel f v (depth + 1)) (nest f) (nsize f) entries index
        | _ => fail_pack "array member expect table" end) _ (fields_ok (field_ok d) (nest f) (nsize f)) a r entries index p 0);
      [|done|exact Hok].
    intros x Hx. destruct (emits_fields _ _ _ _ _ _ IHx Hx) as (es & ix & (? & ? & ? & ->) & He). exact He.
  - unfold array_ok, array_enc in *. rewrite Ef in *.
    destruct (emits_fields _ _ _ _ _ _ IHx Hok) as (es & ix & (? & ? & ? & ->) & He). exact He.
Qed.

(** *** Decoding *)

Lemma reads_unpack_array {A} (read : R A) (mk : A -> tree) (val : Z -> A) (enc1 : Z -> bytes) n :
  0 <= n -> (forall i, 1 <= i <= n -> reads read (val i) (enc1 i)) ->
  reads (unpack_array n read mk) (TTable (foldl (fun t i => rawseti i (mk (val i)) t) [] (seqZ 1 n))) (mjoin (enc1 <$> seqZ 1 n)).
Proof.
  intros Hn H. unfold unpack_array. apply (reads_map _ TTable).
  assert (forall k i t fuel, i + Z.of_nat k = n + 1 -> 1 <= i -> (k < fuel)%nat ->
    reads (loop fuel (fun st : Z * list (tree * tree) => let '(i, t) := st in
        if n <? i then mret (inr t) else x ← read; mret (inl (i + 1, rawseti i (mk x) t))) (i, t))
      (foldl (fun t i => rawseti i (mk (val i)) t) t (seqZ i (Z.of_nat k))) (mjoin (enc1 <$> seqZ i (Z.of_nat k)))) as Hk.
  { induction k as [|k IH]; intros i t fuel Hi H1 Hf; (destruct fuel as [|fuel]; [lia|]); cbn [loop].
    - change (mjoin _) with (@nil byte ++ []). eapply (reads_bind _ _ (inr t)); [|apply reads_ret].
      rewrite (proj2 (Z.ltb_lt _ _)) by lia. apply reads_ret.
    - rewrite seqZ_cons by lia. cbn [fmap list_fmap foldl]. rewrite mjoin_cons.
      replace (Z.pred (Z.of_nat (S k))) with (Z.of_nat k) by lia. change (Z.succ i) with (i + 1).
      eapply (reads_bind _ _ (inl (i + 1, rawseti i (mk (val i)) t))).
      + rewrite (proj2 (Z.ltb_ge _ _)) by lia. rewrite <- (app_nil_r (enc1 i)). eapply reads_bind; [apply H; lia|apply reads_ret].
      + apply IH; lia. }
  specialize (Hk (Z.to_nat n) 1 [] (S (Z.to_nat n))). rewrite Z2Nat.id in Hk by lia. apply Hk; lia.
Qed.

Lemma reads_fields (one : field -> R tree) (val : field -> tree) (enc1 : field -> bytes) l n :
  0 <= n <= alen l -> (forall f, f ∈ used l n -> reads (one f) (val f) (enc1 f)) ->
  reads (unpack_fields one l n) (foldl (fun t f => set_entry (TStr (fname f)) (val f) t) [] (used l n)) (mjoin (enc1 <$> used l n)).
Proof.
  intros Hn H. unfold unpack_fields, used in *. rewrite alen_length in Hn.
  assert (forall (l2 l1 : list field) t fuel, l = l1 ++ l2 -> alen l1 <= n -> n - alen l1 < Z.of_nat fuel ->
    reads (loop fuel (fun st : Z * list (tree * tree) => let '(j, t) := st in
        if n <=? j then mret (inr t)
        else f ← nth_field l j; x ← one f; mret (inl (j + 1, set_entry (TStr (fname f)) x t))) (alen l1, t))
      (foldl (fun t f => set_entry (TStr (fname f)) (val f) t) t (take (Z.to_nat (n - alen l1)) l2))
      (mjoin (enc1 <$> take (Z.to_nat (n - alen l1)) l2))) as Hk.
  { induction l2 as [|f l2 IH]; intros l1 t fuel E Hl Hf; (destruct fuel as [|fuel]; [lia|]); cbn [loop].
    - rewrite app_nil_r in E. subst l1. rewrite take_nil. change (mjoin _) with (@nil byte ++ []).
      eapply (reads_bind _ _ (inr t)); [|apply reads_ret]. rewrite (proj2 (Z.leb_le _ _)) by (rewrite alen_length; lia). apply reads_ret.
    - destruct (Z.leb_spec n (alen l1)) as [Hle|Hgt].
      { replace (Z.to_nat (n - alen l1)) with 0%nat by lia. change (mjoin _) with (@nil byte ++ []).
        eapply (reads_bind _ _ (inr t)); apply reads_ret. }
      assert (aget l (alen l1) = Some f) as Ea by (rewrite E, aget_app_r, Z.sub_diag by lia; apply aget_cons_0).
      replace (Z.to_nat (n - alen l1)) with (S (Z.to_nat (n - (alen l1 + 1)))) by lia. cbn [take fmap list_fmap foldl]. rewrite mjoin_cons.
      eapply (reads_bind _ _ (inl (alen l1 + 1, set_entry (TStr (fname f)) (val f) t))).
      + unfold nth_field. rewrite Ea. cbn [deref]. rewrite <- (app_nil_l (enc1 f)). eapply reads_bind; [apply reads_ret|].
        rewrite <- (app_nil_r (enc1 f)). eapply reads_bind; [|apply reads_ret]. apply H. rewrite E.
        rewrite take_app_ge by (rewrite alen_length in *; lia). apply elem_of_app. right.
        destruct (Z.to_nat n - length l1)%nat eqn:En; [rewrite alen_length in *; lia|]. by left.
      + rewrite <- alen_snoc with (x := f). apply IH; [by rewrite <- app_assoc|rewrite alen_snoc; lia|rewrite alen_snoc; lia]. }
  specialize (Hk l [] [] (S (Z.to_nat n)) eq_refl). rewrite alen_nil, Z.sub_0_r in Hk. apply Hk; lia.
Qed.

Lemma reads_unpack_plain {A} (read : R A) (mk : A -> tree) (val : value -> A) enc1 (ok1 : value -> Prop) f v :
  (forall x, ok1 x -> reads read (val x) (enc1 x)) -> array_ok f ok1 v ->
  reads (unpack_plain read mk f) (array_dec f (fun x => mk (val x)) v) (array_enc f enc1 v).
Proof.
  intros H Hok. unfold unpack_plain, array_ok, array_dec, array_enc in *. destruct (array f).
  - destruct Hok as (_ & Hn & Hel). eapply reads_bind; [apply reads_short; lia|].
    apply (reads_unpack_array read mk (fun i => val (element v i)) (fun i => enc1 (element v i))); [lia|]. intros i Hi. by apply H, Hel.
  - by apply (reads_map read mk), H.
Qed.

Lemma reads_string s : alen s < 65536 -> reads read_string s (le_split 2 (alen s) ++ s).
Proof.
  intros Hs. pose proof (alen_nonneg s). eapply reads_bind; [apply reads_short; lia|].
  intros r rest Q (pre & Ep & Eo & Es & Hm) HQ. unfold reader_left. wp_step. do 2 wp_step. wp_step. rewrite alen_app in Es.
  pose proof (alen_nonneg rest). pose proof (alen_nonneg pre). unfold INT_MAX in Hm.
  rewrite uwrap_small by lia. rewrite (proj2 (Z.ltb_ge _ _)) by lia. do 2 wp_step.
  wp_step. wp_step; [rewrite Ep; by apply slice_mid|]. wp_step. wp_step. wp_step. apply HQ.
  exists (pre ++ s). cbn. rewrite Ep, <- app_assoc, alen_app. unfold INT_MAX. split_and!; [done|lia|lia|lia].
Qed.

Lemma reads_plain f v fuel depth :
  plain_type (type f) = true -> array_ok f (plain_ok (type f)) v ->
  reads (unpack_one fuel f depth) (array_dec f (plain_dec (type f)) v) (array_enc f (plain_enc (type f)) v).
Proof.
  unfold plain_type. intros Ht Hok.
  assert (forall fuel, unpack_one fuel f depth =
    if type f =? FTYPE_INT then unpack_int f else if type f =? FTYPE_FLOAT then unpack_float f
    else if type f =? FTYPE_DOUBLE then unpack_double f else unpack_string f) as ->.
  { intros [|k]; cbn [unpack_one]; repeat case_match; try done. }
  unfold plain_ok, plain_enc, plain_dec in *. destruct (type f =? FTYPE_INT), (type f =? FTYPE_FLOAT), (type f =? FTYPE_DOUBLE).
  1-4: eapply (reads_unpack_plain read_int TInt (fun x => read_back (tointeger x)) _ _ f v); [|exact Hok]; intros x [_ Hx]; by apply reads_int.
  1-2: eapply (reads_unpack_plain read_float TReal (fun x => float_double (double_float (tonumber x))) _ _ f v); [|exact Hok];
    intros x _; pose proof (double_float_range (tonumber x)) as Hr;
    pose proof (reads_map (at_rest := reader_at) (reader_pop 4) (fun d => float_double (le_combine d)) (le_split 4 (double_float (tonumber x))) (le_split 4 (double_float (tonumber x)))) as Hm;
    cbv beta in Hm; rewrite combine_split_u in Hm by exact Hr; apply Hm, reads_pop; by rewrite alen_le_split.
  - eapply (reads_unpack_plain read_double TReal tonumber _ _ f v); [|exact Hok]. intros x [_ Hx].
    pose proof (reads_map (at_rest := reader_at) (reader_pop 8) le_combine (le_split 8 (tonumber x)) (le_split 8 (tonumber x))) as Hm.
    rewrite combine_split_u in Hm by exact Hx. apply Hm, reads_pop. by rewrite alen_le_split.
  - eapply (reads_unpack_plain read_string TStr tolstring _ _ f v); [|exact Hok]. intros x [_ Hx]. by apply reads_string.
Qed.

(** [unpack_one] reads what [pack_one] wrote. *)
Lemma reads_unpack_field_of d f v fuel depth :
  field_ok d f v -> 1 <= depth -> depth + Z.of_nat d <= MAX_DEPTH -> (d <= fuel)%nat ->
  reads (unpack_one fuel f depth) (field_dec d f v) (field_enc d f v).
Proof.
  revert f v fuel depth. induction d as [|d IH]; intros f v fuel depth Hok H1 Hd Hf;
    cbn [field_ok field_enc field_dec] in *; (destruct (plain_type (type f)) eqn:Hp; [by apply reads_plain|]); [done|].
  destruct Hok as [Ht Hok]. destruct fuel as [|fuel]; [lia|]. cbn [unpack_one]. rewrite Ht. cbn.
  unfold unpack_field. rewrite (proj2 (Z.ltb_ge _ _)) by lia. cbv zeta.
  assert (forall x, fields_ok (field_ok d) (nest f) (nsize f) x ->
    reads (t ← unpack_fields (fun f => unpack_one fuel f (depth + 1)) (nest f) (nsize f); mret (TTable t))
      (TTable (fields_dec (field_dec d) (nest f) (nsize f) x)) (fields_enc (field_enc d) (nest f) (nsize f) x)) as Hx.
  { intros x (_ & Hn & Hfs). apply (reads_map _ TTable).
    apply (reads_fields _ (fun g => field_dec d g (get_of x (fname g))) (fun g => field_enc d g (get_of x (fname g)))); [done|].
    intros g Hg. apply IH; [by apply Hfs|lia|lia|lia]. }
  unfold array_ok, array_enc, array_dec in *. destruct (array f); [|by apply Hx].
  destruct Hok as (_ & Hn & Hel). eapply reads_bind; [apply reads_short; lia|].
  apply (reads_unpack_array _ (fun t => t) (fun i => TTable (fields_dec (field_dec d) (nest f) (nsize f) (element v i)))
    (fun i => fields_enc (field_enc d) (nest f) (nsize f) (element v i))); [lia|]. intros i Hi. by apply Hx, Hel.
Qed.

(** ** Whole messages *)

Lemma find_protocol_Done ctx index ptl :
  aget (slots ctx) index = Some (Some ptl) -> find_protocol ctx index tt = Done ptl tt.
Proof.
  intros E. pose proof (aget_Some_range _ _ _ E) as Hr. unfold in_range in Hr. unfold find_protocol.
  rewrite (proj2 (Z.leb_gt _ _)) by lia. unfold mbind, M_bind, deref. by rewrite E.
Qed.

Lemma lencode_eq ctx index ptl v :
  alen (slots ctx) <= INT_MAX -> aget (slots ctx) index = Some (Some ptl) ->
  fields_ok (field_ok 31) (pfield ptl) (psize ptl) v -> alen (fields_enc (field_enc 31) (pfield ptl) (psize ptl) v) <= msg_limit ->
  lencode_protocol ctx index v tt = Done (fields_enc (field_enc 31) (pfield ptl) (psize ptl) v) tt.
Proof.
  intros Hs E Hok Hl. pose proof (aget_Some_range _ _ _ E) as Hr. unfold in_range, INT_MAX in *.
  unfold lencode_protocol. rewrite swrap_small by (unfold in_s; lia). erewrite bind_Done by by apply find_protocol_Done.
  set (out := fields_enc _ _ _ _) in *.
  destruct (emits_fields (fun f v => pack_one msg_fuel f v 1) (field_enc 31) (field_ok 31) (pfield ptl) (psize ptl) v)
    as (es & ix & (a & r & p & ->) & He); [|done|].
  { intros f x Hx. apply emits_pack_field_of; [done|lia|unfold MAX_DEPTH; lia|unfold msg_fuel; lia]. }
  match goal with |- with_buffer ?m ?w tt = _ => assert (wpd m (fun b _ => b = out) w) as Wp end;
    [|apply wpd_Done in Wp as (b & w' & E' & ->); unfold with_buffer; by rewrite E'].
  unfold writer_init. do 2 wp_step. wp_step. apply (He _ []); [|by rewrite alen_nil|].
  - split_and!; cbn; rewrite ?alen_nil, ?alen_replicate; try done.
  - intros w1 (Hl1 & Ho1 & Hs1 & Hos1 & Ht1). cbn [app] in *. do 2 wp_step. wp_step. wp_step.
    + rewrite <- (take_drop (Z.to_nat (offset w1)) (ptr w1)). apply (slice_mid []); [done|].
      rewrite alen_take; [done|]. pose proof (alen_nonneg out). unfold out in *. lia.
    + wp_step. unfold writer_release. wp_step. wp_step. rewrite Ho1. exact Ht1.
Qed.

Lemma ldecode_enc ctx index ptl v :
  alen (slots ctx) <= INT_MAX -> aget (slots ctx) index = Some (Some ptl) ->
  fields_ok (field_ok 31) (pfield ptl) (psize ptl) v -> alen (fields_enc (field_enc 31) (pfield ptl) (psize ptl) v) <= INT_MAX ->
  ldecode_protocol ctx index (MString (fields_enc (field_enc 31) (pfield ptl) (psize ptl) v)) tt =
    Done (TTable (fields_dec (field_dec 31) (pfield ptl) (psize ptl) v)) tt.
Proof.
  intros Hs E (_ & Hn & Hfs) Hl. pose proof (aget_Some_range _ _ _ E) as Hr. unfold in_range, INT_MAX in *.
  set (out := fields_enc _ _ _ _) in *. pose proof (alen_nonneg out).
  unfold ldecode_protocol. rewrite swrap_small by (unfold in_s; lia). erewrite bind_Done by by apply find_protocol_Done.
  erewrite bind_Done by reflexivity. cbv beta iota. rewrite swrap_small by (unfold in_s; lia).
  match goal with |- with_buffer ?m ?w tt = _ => assert (wpd m (fun b _ => b = TTable (fields_dec (field_dec 31) (pfield ptl) (psize ptl) v)) w) as Wp end;
    [|apply wpd_Done in Wp as (b & w' & E' & ->); unfold with_buffer; by rewrite E'].
  wp_step. pose proof (reads_fields (fun f => unpack_one msg_fuel f 1) (fun f => field_dec 31 f (get_of v (fname f)))
    (fun f => field_enc 31 f (get_of v (fname f))) (pfield ptl) (psize ptl) Hn) as Hrd.
  eapply (Hrd _ _ []).
  - exists []. cbn. rewrite app_nil_r, alen_nil. split_and!; done.
  - intros r (pre & Ep & Eo & Es & _). do 2 wp_step. rewrite alen_nil, Z.add_0_r in Es. rewrite Eo, Es, Z.eqb_refl. cbn [negb]. by wp_step.
  Unshelve. intros f Hf. apply reads_unpack_field_of; [by apply Hfs|lia|unfold MAX_DEPTH; lia|unfold msg_fuel; lia].
Qed.


(** An [int] field comes back as it was exactly when it is not a negative number
    of 32 bits; such a number v is decoded as v + 2^32. *)
Theorem negative_int_misread ctx index ptl f a r entries idx p :
  alen (slots ctx) <= INT_MAX -> aget (slots ctx) index = Some (Some ptl) ->
  used (pfield ptl) (psize ptl) = [f] -> 0 <= psize ptl <= alen (pfield ptl) -> type f = FTYPE_INT -> array f = false ->
  forall z, in_s 64 z -> getfield entries idx (fname f) = VInt z ->
  exists buf, lencode_protocol ctx index (VTable a r entries idx p) tt = Done buf tt /\
    (ldecode_protocol ctx index (MString buf) tt = Done (TTable [(TStr (fname f), TInt z)]) tt <-> ~ (- 2 ^ 31 <= z < 0)) /\
    (- 2 ^ 31 <= z < 0 -> ldecode_protocol ctx index (MString buf) tt = Done (TTable [(TStr (fname f), TInt (z + 2 ^ 32))]) tt).
Proof.
  intros Hs E Hu Hn Ht Ha z Hz Hg. set (v := VTable a r entries idx p).
  assert (field_ok 31 f (get_of v (fname f))) as Hf.
  { cbn [field_ok v get_of]. rewrite Ht, Hg. cbn. unfold array_ok. rewrite Ha. done. }
  assert (fields_ok (field_ok 31) (pfield ptl) (psize ptl) v) as Hok.
  { split_and!; [done|lia|lia|]. rewrite Hu. intros g ->%list_elem_of_singleton. exact Hf. }
  assert (fields_enc (field_enc 31) (pfield ptl) (psize ptl) v = enc_int z) as Ee.
  { unfold fields_enc. rewrite Hu. cbn [fmap list_fmap]. rewrite mjoin_cons, app_nil_r. cbn [field_enc v get_of].
    rewrite Ht, Hg. cbn. unfold array_enc. by rewrite Ha. }
  assert (fields_dec (field_dec 31) (pfield ptl) (psize ptl) v = [(TStr (fname f), TInt (read_back z))]) as Ed.
  { unfold fields_dec. rewrite Hu. cbn [foldl field_dec v get_of]. rewrite Ht, Hg. cbn. unfold array_dec. by rewrite Ha. }
  assert (alen (enc_int z) <= 9) as Hl by (unfold enc_int; repeat case_match; rewrite ?alen_cons, ?alen_le_split, ?alen_nil; lia).
  exists (enc_int z). rewrite <- Ee. rewrite (lencode_eq ctx index ptl v) by (rewrite ?Ee; unfold msg_limit; done || lia).
  rewrite (ldecode_enc ctx index ptl v) by (rewrite ?Ee; unfold INT_MAX; done || lia). rewrite Ed. split; [done|]. unfold read_back.
  destruct (Z.leb_spec (- 2 ^ 31) z), (Z.ltb_spec z 0); cbn [andb]; (split; [split|]); try done; try lia.
  intros [= ?]. lia.
Qed.

(** ** Decoding anything *)

(** No fault; a Lua error is allowed. *)
Abbreviation safe m Q := (wp m Q (fun _ _ => True)).

Record reader_inv (r : message_reader) : Prop := {
  inv_off : 0 <= roffset r <= rsize r;
  inv_size : rsize r <= alen (rptr r);
  inv_max : alen (rptr r) <= INT_MAX
}.

Lemma safe_slice r n : reader_inv r -> 0 <= n <= rsize r - roffset r ->
  exists d, slice (rptr r) (roffset r) n = Some d /\ alen d = n /\ reader_inv (MkReader (rptr r) (roffset r + n) (rsize r)).
Proof.
  intros [H1 H2 H3] Hn. set (a := take (Z.to_nat (roffset r)) (rptr r)). set (t := drop (Z.to_nat (roffset r)) (rptr r)).
  set (b := take (Z.to_nat n) t). assert (alen t = alen (rptr r) - roffset r) as Lt by (apply alen_drop; lia).
  assert (alen b = n) as Lb by (apply alen_take; lia). exists b. split_and!; [|done|split; cbn; lia].
  assert (rptr r = a ++ b ++ drop (Z.to_nat n) t) as -> by (unfold a, b, t; by rewrite !take_drop).
  apply slice_mid; [|done]. unfold a. rewrite alen_take; lia.
Qed.

Lemma safe_pop sz r Q : reader_inv r -> 0 <= sz -> (forall d r', reader_inv r' -> alen d = sz -> Q d r') -> safe (reader_pop sz) Q r.
Proof.
  intros Hi Hs HQ. destruct (Hi) as [H1 H2 H3]. unfold INT_MAX in H3. unfold reader_pop. do 2 wp_step. rewrite uwrap_small by lia.
  destruct (Z.ltb_spec (rsize r - roffset r) sz) as [Hlt|Hge]; [done|].
  destruct (safe_slice r sz Hi) as (d & Ed & Ld & Hi'); [lia|]. wp_step. wp_step; [exact Ed|]. wp_step. wp_step. wp_step. by apply HQ.
Qed.

Lemma safe_short r Q : reader_inv r -> (forall n r', reader_inv r' -> 0 <= n < 65536 -> Q n r') -> safe read_short Q r.
Proof.
  intros Hi HQ. unfold read_short. wp_step. apply safe_pop; [done|lia|]. intros d r' Hi' _. wp_step. apply HQ; [done|].
  by apply (uwrap_range 16).
Qed.

(** [m] ends in a good state. *)
Definition tame {A} (m : R A) : Prop := forall r, reader_inv r -> safe m (fun _ r' => reader_inv r') r.

Lemma tame_read_int : tame read_int.
Proof.
  intros r Hi. unfold read_int. wp_step. apply safe_pop; [done|lia|]. intros t r1 Hi1 _. cbv zeta.
  repeat case_match; try done; try (wp_step; done); (wp_step; apply safe_pop; [done|lia|]; intros d r2 Hi2 _; by wp_step).
Qed.

Lemma tame_float : tame read_float.
Proof. intros r Hi. unfold read_float. wp_step. apply safe_pop; [done|lia|]. intros d r1 Hi1 _. by wp_step. Qed.

Lemma tame_double : tame read_double.
Proof. intros r Hi. unfold read_double. wp_step. apply safe_pop; [done|lia|]. intros d r1 Hi1 _. by wp_step. Qed.

Lemma tame_string : tame read_string.
Proof.
  intros r Hi. unfold read_string, reader_left. wp_step. apply safe_short; [done|]. intros n r1 Hi1 Hn. wp_step. do 2 wp_step. wp_step.
  destruct (Hi1) as [H1 H2 H3]. unfold INT_MAX in H3. rewrite uwrap_small by lia.
  destruct (Z.ltb_spec (rsize r1 - roffset r1) n) as [Hlt|Hge]; [done|]. do 2 wp_step.
  destruct (safe_slice r1 n Hi1) as (d & Ed & Ld & Hi'); [lia|]. wp_step. wp_step; [exact Ed|]. wp_step. wp_step. by wp_step.
Qed.

Lemma tame_array {A} n (read : R A) mk : tame read -> tame (unpack_array n read mk).
Proof.
  intros H r Hi. unfold unpack_array. wp_step. apply (wp_mono _ (fun _ r' => reader_inv r')); [|intros t r'; intros; by wp_step].
  apply (wp_loop (fun st r => reader_inv r /\ 1 <= st.1) (fun st _ => Z.to_nat (n + 1 - st.1))).
  - intros [i t] s [Hs Hi1]. cbn [fst] in *. destruct (Z.ltb_spec n i); [by wp_step|]. wp_step.
    eapply wp_mono; [by apply H|]. intros x s1 Hs1. wp_step. cbn. split; [split; [done|lia]|lia].
  - cbn. split; [done|lia].
  - cbn. lia.
Qed.

Lemma tame_plain {A} (read : R A) mk f : tame read -> tame (unpack_plain read mk f).
Proof.
  intros H r Hi. unfold unpack_plain. destruct (array f); wp_step.
  - apply safe_short; [done|]. intros n r1 Hi1 _. by apply tame_array.
  - eapply wp_mono; [by apply H|]. intros x r1 Hi1. by wp_step.
Qed.

(** Descriptions whose arrays hold the fields they count, down to depth [d]. *)
Fixpoint fields_wf (d : nat) (l : list field) (n : Z) : Prop :=
  0 <= n <= alen l /\ match d with O => True | S d => forall f, f ∈ used l n -> fields_wf d (nest f) (nsize f) end.

Lemma tame_fields (one : field -> R tree) l n :
  0 <= n <= alen l -> (forall f, f ∈ used l n -> tame (one f)) -> tame (unpack_fields one l n).
Proof.
  intros Hn H r Hi. unfold unpack_fields.
  apply (wp_loop (fun st r => reader_inv r /\ 0 <= st.1) (fun st _ => Z.to_nat (n - st.1))).
  - intros [j t] s [Hs Hj]. cbn [fst] in *. destruct (Z.leb_spec n j); [by wp_step|]. wp_step. unfold nth_field.
    destruct (aget_is_Some l j) as [f Ef]; [unfold in_range; lia|]. wp_step; [exact Ef|]. wp_step.
    eapply wp_mono; [apply H; [|done]|].
    + unfold used. rewrite aget_lookup in Ef by lia. apply (list_elem_of_lookup_2 _ (Z.to_nat j)). by rewrite lookup_take_lt by lia.
    + intros x s1 Hs1. wp_step. cbn. split; [split; [done|lia]|lia].
  - cbn. split; [done|lia].
  - cbn. lia.
Qed.

Lemma tame_unpack_one d f depth fuel :
  fields_wf d (nest f) (nsize f) -> 1 <= depth <= MAX_DEPTH -> MAX_DEPTH <= depth + Z.of_nat d -> MAX_DEPTH < depth + Z.of_nat fuel ->
  tame (unpack_one fuel f depth).
Proof.
  unfold MAX_DEPTH. revert d f depth. induction fuel as [|fuel IH]; intros d f depth Hwf Hdep Hd Hf r Hi; [lia|]. cbn [unpack_one].
  case_match; [by apply (tame_plain _ _ _ tame_read_int)|]. case_match; [by apply (tame_plain _ _ _ tame_float)|].
  case_match; [by apply (tame_plain _ _ _ tame_double)|]. case_match; [by apply (tame_plain _ _ _ tame_string)|].
  case_match; [|done]. unfold unpack_field, MAX_DEPTH. destruct (Z.ltb_spec 32 (depth + 1)) as [Hlt|Hge]; [done|].
  destruct d as [|d]; [lia|]. destruct Hwf as [Hn Hwf].
  assert (tame (t ← unpack_fields (fun f => unpack_one fuel f (depth + 1)) (nest f) (nsize f); mret (TTable t))) as Ht.
  { intros r1 Hi1. wp_step. eapply wp_mono; [apply tame_fields; [done| |done]|intros t r2 Hi2; by wp_step].
    intros g Hg. apply (IH d); [by apply Hwf|lia|lia|lia]. }
  cbv zeta. destruct (array f); [|by apply Ht]. wp_step. apply safe_short; [done|]. intros n r1 Hi1 _. by apply tame_array.
Qed.

(** C28: decoding is safe on every message, also one that was never encoded: with a
    well-formed description [ldecode_protocol] returns a table or raises a Lua
    error; it stays within the message and ends. *)
Theorem decode_any_message ctx index ptl mem n :
  alen (slots ctx) <= INT_MAX -> aget (slots ctx) index = Some (Some ptl) -> fields_wf 32 (pfield ptl) (psize ptl) ->
  0 <= n <= alen mem -> alen mem <= INT_MAX ->
  (exists t, ldecode_protocol ctx index (MData mem n) tt = Done t tt) \/
  (exists e, ldecode_protocol ctx index (MData mem n) tt = Raise e tt).
Proof.
  intros Hs E [Hn Hwf] Hm Hmax. pose proof (aget_Some_range _ _ _ E) as Hr. unfold in_range, INT_MAX in *.
  unfold ldecode_protocol. rewrite swrap_small by (unfold in_s; lia). erewrite bind_Done by by apply find_protocol_Done.
  erewrite bind_Done by reflexivity. cbv beta iota. rewrite uwrap_small, swrap_small by (unfold in_s; lia).
  match goal with |- context [with_buffer ?m ?w tt] => assert (safe m (fun _ _ => True) w) as Wp end.
  { wp_step. eapply wp_mono; [apply tame_fields; [done| |split; cbn; unfold INT_MAX; lia]|].
    - intros f Hf. apply (tame_unpack_one 31); [by apply Hwf|unfold MAX_DEPTH; lia|unfold MAX_DEPTH; lia|unfold MAX_DEPTH, msg_fuel; lia].
    - intros t r _. do 2 wp_step. case_match; [done|by wp_step]. }
  unfold wp in Wp. unfold with_buffer.
  match goal with |- context [match ?x with Done _ _ => _ | _ => _ end] => destruct x end;
    [by left; eexists|by right; eexists|done].
Qed.

(** ** Examples *)

(** A message with a number x, and one with a name and a list of such messages. *)
Definition ex_x : field := MkField [z2b 120] false FTYPE_INT [z2b 105] [] 0.
Definition ex_list : field := MkField [z2b 112] true FTYPE_PROTOCOL [z2b 112] [ex_x; ex_x] 1.
Definition ex_name : field := MkField [z2b 110] false FTYPE_STRING [z2b 115] [] 0.
Definition ex_ptl : protocol := MkProtocol [z2b 109] [ex_name; ex_list; ex_x] 2.
Definition ex_ctx : context := MkContext [None; Some (MkProtocol [z2b 112] [ex_x] 1); Some ex_ptl] ∅.
Definition ex_point (z : Z) : value := VTable 1 0 [(VStr [z2b 120], VInt z)] [] None.
Definition ex_value : value :=
  VTable 0 0 [(VStr [z2b 110], VStr [z2b 65]); (VStr [z2b 112], VTable 2 2 [(VInt 1, ex_point 7); (VInt 2, ex_point (2 ^ 40))] [] None)] [] None.

Lemma ex_x_ok d z : in_s 64 z -> field_ok d ex_x (VInt z).
Proof. by destruct d. Qed.

Lemma ex_value_ok : fields_ok (field_ok 31) (pfield ex_ptl) (psize ex_ptl) ex_value.
Proof.
  split_and!; [done|by vm_compute|by vm_compute|]. change (used (pfield ex_ptl) (psize ex_ptl)) with [ex_name; ex_list].
  intros f [->|[->|[]%not_elem_of_nil]%elem_of_cons]%elem_of_cons; [by vm_compute|].
  change (FTYPE_PROTOCOL = FTYPE_PROTOCOL /\ array_ok ex_list (fields_ok (field_ok 30) [ex_x; ex_x] 1) (get_of ex_value [z2b 112])).
  split; [done|]. split_and!; [done|by vm_compute|by vm_compute|]. change (rawlen_of (get_of ex_value [z2b 112])) with 2. intros i Hi.
  assert (exists z, in_s 64 z /\ element (get_of ex_value [z2b 112]) i = ex_point z) as (z & Hz & ->).
  { assert (i = 1 \/ i = 2) as [-> | ->] by lia; [by exists 7|by exists (2 ^ 40)]. }
  split_and!; [done|by vm_compute|by vm_compute|]. change (used [ex_x; ex_x] 1) with [ex_x].
  intros g ->%list_elem_of_singleton. change (get_of (ex_point z) (fname ex_x)) with (VInt z). by apply ex_x_ok.
Qed.


Lemma negative_int_misread_witness :
  exists buf, lencode_protocol ex_ctx 1 (ex_point (-1)) tt = Done buf tt /\
    ldecode_protocol ex_ctx 1 (MString buf) tt = Done (TTable [(TStr [z2b 120], TInt 4294967295)]) tt.
Proof.
  destruct (negative_int_misread ex_ctx 1 (MkProtocol [z2b 112] [ex_x] 1) ex_x 1 0 [(VStr [z2b 120], VInt (-1))] [] None) with (z := -1)
    as (buf & He & _ & Hd); [by vm_compute|by vm_compute|done|by vm_compute|done|done|done|done|].
  exists buf. split; [exact He|]. apply Hd. lia.
Defined.

Lemma decode_any_message_witness :
  (exists t, ldecode_protocol ex_ctx 1 (MData [z2b 3; z2b 1; z2b 0; z2b 0; z2b 0; z2b 9] 5) tt = Done t tt) \/
  (exists e, ldecode_protocol ex_ctx 1 (MData [z2b 3; z2b 1; z2b 0; z2b 0; z2b 0; z2b 9] 5) tt = Raise e tt).
Proof.
  apply (decode_any_message ex_ctx 1 (MkProtocol [z2b 112] [ex_x] 1)); [by vm_compute|by vm_compute| |by vm_compute|by vm_compute].
  split; [by vm_compute|]. change (used _ _) with [ex_x]. intros f ->%list_elem_of_singleton. split; [by vm_compute|].
  change (used _ _) with (@nil field). by intros f ?%not_elem_of_nil.
Defined.
