(* ===== verification/ProtocolContext.v ===== *)
(** * Message descriptions (lua-protocol.c, the context)

    [lload_protocol] copies the description of a message from a Lua table into C
    arrays that grow by doubling; [ldump_protocol] and [ldetail_protocol] show what
    is stored. The theorems show that a description is stored as it was given, that
    the other descriptions stay and that what is stored is well formed for
    Protocol.v. *)

From S2P Require Import Prelude Outcome Codec LuaValue Protocol.

Definition blank_field : field := MkField [] false 0 [] [] 0.

(** Lua's conversions between strings and numbers. *)
Section context.
Context (str2int : bytes -> Z) (num2str : value -> bytes).

Abbreviation strs := (gmap bytes bytes).

Definition lua_tointeger (v : value) : Z := match v with VStr s => str2int s | _ => tointeger v end.
Definition lua_toboolean (v : value) : bool := match v with VNil | VBool false => false | _ => true end.
Definition lua_tostring (v : value) : option bytes :=
  match v with VStr s => Some s | VInt _ | VReal _ => Some (num2str v) | _ => None end.

(** [lua_getfield] of a stack value; the fields read here are no string methods. *)
Definition index_field {St : Type} (v : value) (name : bytes) : M St value :=
  match v with
  | VTable _ _ entries index _ => mret (getfield entries index name)
  | VStr _ => mret VNil
  | _ => luaL_error "attempt to index a value"
  end.

Definition lua_rawlen (v : value) : Z := match v with VTable _ n _ _ _ => n | VStr s => alen s | _ => 0 end.
Definition lua_rawgeti {St : Type} (v : value) (i : Z) : M St value :=
  match v with VTable _ _ entries _ _ => mret (rawgeti entries i) | _ => crash UndefinedBehaviour end.

(** ** Names *)

(** [str_alloc]: the table keeps one copy of every name; [str] has a zero behind it. *)
Definition str_alloc (str : bytes) (sz : Z) : M strs bytes :=
  t ← get;
  match t !! cstr str with
  | Some p => mret p
  | None =>
      key ← deref OutOfBounds (slice (str ++ [z2b 0]) 0 sz);
      put (<[key := cstr key]> t);;
      mret (cstr key)
  end.

Definition on_strs {X A : Type} (m : M strs A) : M (strs * X) A := zoom fst (fun t st => (t, st.2)) m.

(** A name given as [char*], with [strlen]. *)
Definition alloc_name {X : Type} (name : option bytes) : M (strs * X) bytes :=
  nm ← deref NullDeref name;
  on_strs (str_alloc nm (alen (cstr nm))).

(** ** Growing arrays of fields *)

(** An array of fields with the number of them in use; its length is the [cap] of the
    code, and the empty list stands for [NULL]. *)
Abbreviation cells := (list field * Z)%type.

(** Doubles a full array. *)
Definition grow (l : list field) (n : Z) : list field :=
  if alen l <=? n then l ++ replicate (length l) blank_field else l.

(** Fills the next field of the array; the other members of it stay. *)
Definition create_field (name : option bytes) (arr : bool) (ty : Z) (tname : option bytes) : M (strs * cells) Z :=
  '(t, (l, n)) ← get;
  let l := grow l n in
  put (t, (l, n));;
  f ← deref OutOfBounds (aget l n);
  nm ← alloc_name name;
  tn ← alloc_name tname;
  '(t, _) ← get;
  put (t, (aset l n (MkField nm arr ty tn (nest f) (nsize f)), n + 1));;
  mret n.

(** The same in a field's own array, which starts as [NULL]. *)
Definition create_nest_field (name : option bytes) (arr : bool) (ty : Z) (tname : option bytes) : M (strs * cells) Z :=
  '(t, (l, _)) ← get;
  when (bool_decide (l = [])) (put (t, (replicate 4 blank_field, 0)));;
  create_field name arr ty tname.

(** ** Importing a description *)

Definition s_type : bytes := z2b <$> [116; 121; 112; 101].
Definition s_array : bytes := z2b <$> [97; 114; 114; 97; 121].
Definition s_name : bytes := z2b <$> [110; 97; 109; 101].
Definition s_type_name : bytes := z2b <$> [116; 121; 112; 101; 95; 110; 97; 109; 101].
Definition s_fields : bytes := z2b <$> [102; 105; 101; 108; 100; 115].

(** The four entries of one field's description. *)
Definition read_desc {St : Type} (elem : value) : M St (Z * bool * option bytes * option bytes) :=
  ty ← index_field elem s_type;
  arr ← index_field elem s_array;
  nm ← index_field elem s_name;
  tn ← index_field elem s_type_name;
  mret (s32 (lua_tointeger ty), lua_toboolean arr, lua_tostring nm, lua_tostring tn).

(** Work on the array of field [j]. *)
Definition in_cell {A : Type} (j : Z) (m : M (strs * cells) A) : M (strs * cells) A :=
  zoom (fun st => let f := default blank_field (aget st.2.1 j) in (st.1, (nest f, nsize f)))
    (fun s st => let f := default blank_field (aget st.2.1 j) in
      (s.1, (aset st.2.1 j (MkField (fname f) (array f) (type f) (type_name f) s.2.1 s.2.2), st.2.2))) m.

(** The loop over the list [v] of descriptions; [nested] reads the list of a message. *)
Definition import_fields (create : option bytes -> bool -> Z -> option bytes -> M (strs * cells) Z)
    (nested : value -> M (strs * cells) unit) (v : value) : M (strs * cells) unit :=
  for_each (seqZ 1 (s32 (lua_rawlen v))) (fun i =>
    elem ← lua_rawgeti v i;
    '(ty, arr, nm, tn) ← read_desc elem;
    j ← create nm arr ty tn;
    when (ty =? FTYPE_PROTOCOL) (fields ← index_field elem s_fields; in_cell j (nested fields))).

(** [lload_protocol] reserves 72 slots of the Lua stack and every level takes two:
    [import_levels] levels below the first fit, and an empty list below them. *)
Definition import_levels : nat := 34.

Fixpoint import_nest_field (levels : nat) (v : value) : M (strs * cells) unit :=
  match levels with
  | O => if 0 <? s32 (lua_rawlen v) then crash UndefinedBehaviour else mret tt
  | S levels => import_fields create_nest_field (import_nest_field levels) v
  end.

Definition import_field (v : value) : M (strs * cells) unit := import_fields create_field (import_nest_field import_levels) v.

(** ** Loading *)

Definition lprotocol_ctx_new : context := MkContext (replicate 64 None) ∅.

Definition create_protocol (id : Z) (name : bytes) (sz : Z) : M context unit :=
  nm ← zoom strings (fun t c => MkContext (slots c) t) (str_alloc name sz);
  c ← get;
  let ptl := MkProtocol nm (replicate 4 blank_field) 0 in
  let cap := alen (slots c) in
  slots ← (if cap <=? id then
      require SignedOverflow ((cap * 2 <=? INT_MAX) && (id <? INT_MAX));;
      let ncap := if cap * 2 <=? id then id + 1 else cap * 2 in
      mret (slots c ++ replicate (Z.to_nat (ncap - cap)) None)
    else mret (slots c));
  require OutOfBounds (bool_decide (in_range slots id));;
  put (MkContext (aset slots id (Some ptl)) (strings c)).

(** Work on the array of the description in slot [id]. *)
Definition in_slot {A : Type} (id : Z) (m : M (strs * cells) A) : M context A :=
  let ptl c := default (MkProtocol [] [] 0) (mjoin (aget (slots c) id)) in
  zoom (fun c => (strings c, (pfield (ptl c), psize (ptl c))))
    (fun s c => MkContext (aset (slots c) id (Some (MkProtocol (pname (ptl c)) s.2.1 s.2.2))) s.1) m.

Definition lload_protocol (vid vname tbl : value) : M context unit :=
  let id := s32 (lua_tointeger vid) in
  match tbl with
  | VTable _ _ entries index _ =>
      c ← get;
      (if id <? alen (slots c) then
         o ← deref OutOfBounds (aget (slots c) id);
         match o with Some _ => luaL_error "id already load" | None => mret tt end
       else mret tt);;
      name ← deref NullDeref (lua_tostring vname);
      create_protocol id name (alen name + 1);;
      match getfield entries index s_fields with
      | VNil => mret tt
      | fields => in_slot id (import_field fields)
      end
  | _ => luaL_error "table expected"
  end.

(** ** Showing what is stored *)

(** [lua_seti] of consecutive indices into a new table. *)
Definition dump_cells (one : field -> M unit tree) (l : list field) (n : Z) : M unit tree :=
  t ← loop (S (Z.to_nat n)) (fun st : Z * list (tree * tree) =>
    let '(i, t) := st in
    if n <=? i then mret (inr t)
    else f ← nth_field l i; x ← one f; mret (inl (i + 1, rawseti (i + 1) x t))) (0, []);
  mret (TTable t).

Definition dump_entry (nested : field -> M unit tree) (f : field) : M unit tree :=
  let t := [(TStr s_name, TStr (fname f)); (TStr s_array, TInt (if array f then 1 else 0));
            (TStr s_type, TInt (type f)); (TStr s_type_name, TStr (type_name f))] in
  if type f =? FTYPE_PROTOCOL then n ← nested f; mret (TTable (t ++ [(TStr s_fields, n)]))
  else mret (TTable t).

(** [ldetail_protocol] reserves no stack: of the 20 slots every C function has, 8 levels
    below the first can be used, and an empty table below them. *)
Definition dump_levels : nat := 8.

Fixpoint dump_nest (levels : nat) (parent : field) : M unit tree :=
  match levels with
  | O => if 0 <? nsize parent then crash UndefinedBehaviour else mret (TTable [])
  | S levels => dump_cells (dump_entry (dump_nest levels)) (nest parent) (nsize parent)
  end.

Definition ldetail_protocol (c : context) (vindex : value) : M unit (option tree) :=
  let index := s32 (lua_tointeger vindex) in
  if alen (slots c) <=? index then mret None
  else
    o ← deref OutOfBounds (aget (slots c) index);
    match o with
    | None => mret None
    | Some ptl =>
        fields ← dump_cells (dump_entry (dump_nest dump_levels)) (pfield ptl) (psize ptl);
        mret (Some (TTable [(TStr s_name, TStr (pname ptl)); (TStr s_fields, fields)]))
    end.

Definition ldump_protocol (c : context) : tree :=
  TTable (foldl (fun t i =>
    match mjoin (aget (slots c) i) with
    | Some ptl => set_entry (TStr (pname ptl)) (TInt i) t
    | None => t
    end) [] (seqZ 0 (alen (slots c)))).

(** ** What a description says *)

(** [one] of every element of a list. *)
Definition list_ok (one : value -> Prop) (w : value) : Prop :=
  is_table w = true /\ 0 <= rawlen_of w <= INT_MAX /\ forall i, 1 <= i <= rawlen_of w -> one (element w i).
Definition list_tree (one : value -> tree) (n : Z) (w : value) : list (tree * tree) :=
  (fun i => (TInt i, one (element w i))) <$> seqZ 1 n.

(** A field's description with messages nested at most [d] deep, and how it is shown. *)
Fixpoint desc_ok (d : nat) (e : value) : Prop :=
  is_table e = true /\ is_string (get_of e s_name) = true /\ is_string (get_of e s_type_name) = true /\
  (exists ty, get_of e s_type = VInt ty /\ in_s 32 ty) /\
  (tointeger (get_of e s_type) = FTYPE_PROTOCOL ->
   let w := get_of e s_fields in
   match d with O => is_table w = true /\ rawlen_of w = 0 | S d => list_ok (desc_ok d) w end).

Fixpoint desc_tree (d : nat) (e : value) : tree :=
  let t := [(TStr s_name, TStr (cstr (tolstring (get_of e s_name))));
            (TStr s_array, TInt (if lua_toboolean (get_of e s_array) then 1 else 0));
            (TStr s_type, TInt (tointeger (get_of e s_type)));
            (TStr s_type_name, TStr (cstr (tolstring (get_of e s_type_name))))] in
  let w := get_of e s_fields in
  TTable (if tointeger (get_of e s_type) =? FTYPE_PROTOCOL
          then t ++ [(TStr s_fields, TTable (match d with O => [] | S d => list_tree (desc_tree d) (rawlen_of w) w end))]
          else t).

(** The lists: [O] has no fields. *)
Definition descs_ok (d : nat) (w : value) : Prop :=
  match d with O => is_table w = true /\ rawlen_of w = 0 | S d => list_ok (desc_ok d) w end.
Definition descs_tree (d : nat) (w : value) : tree :=
  TTable (match d with O => [] | S d => list_tree (desc_tree d) (rawlen_of w) w end).

(** ** Names are kept *)

Definition strs_ok (t : strs) : Prop := forall k p, t !! k = Some p -> p = cstr k.

Lemma wp_str_alloc b n t Q :
  strs_ok t -> alen (cstr b) <= n <= alen b + 1 -> (forall t', strs_ok t' -> Q (cstr b) t') -> wpd (str_alloc b n) Q t.
Proof.
  intros Ht Hn HQ. unfold str_alloc. do 2 wp_step. pose proof (alen_nonneg (cstr b)). destruct (t !! cstr b) as [p|] eqn:E.
  - wp_step. rewrite (Ht _ _ E), cstr_idem. by apply HQ.
  - wp_step. wp_step; [apply slice_take; rewrite alen_snoc; lia|].
    rewrite cstr_take by (rewrite alen_length in *; lia). do 2 wp_step. wp_step. apply HQ. intros k p [[<- <-]|[_ Hp]]%lookup_insert_Some; [|by apply Ht].
    symmetry. apply cstr_take. rewrite alen_length in *. lia.
Qed.

Lemma wp_alloc_name {X : Type} b t (x : X) Q :
  strs_ok t -> (forall t', strs_ok t' -> Q (cstr b) (t', x)) -> wpd (alloc_name (Some b)) Q (t, x).
Proof.
  intros Ht HQ. unfold alloc_name, on_strs. wp_step. wp_step; [done|]. wp_step. pose proof (cstr_length b).
  apply wp_str_alloc; [done|lia|]. intros t' Ht'. by apply HQ.
Qed.

(** ** Arrays of fields *)

(** The first [n] fields of [l] stand for the first [n] elements of [w], the rest is blank. *)
Record filled (P : field -> value -> Prop) (w : value) (l : list field) (n : Z) : Prop := {
  filled_n : 0 <= n <= alen l;
  filled_used i : 0 <= i < n -> exists f, aget l i = Some f /\ P f (element w (i + 1));
  filled_rest i : n <= i < alen l -> aget l i = Some blank_field
}.

Lemma filled_blank P w k : filled P w (replicate k blank_field) 0.
Proof. split; rewrite ?alen_replicate; [lia|lia|]. intros i Hi. apply aget_replicate; lia. Qed.

Lemma filled_grow P w l n : 0 < alen l -> filled P w l n -> filled P w (grow l n) n /\ n < alen (grow l n).
Proof.
  intros Hl [Hn Hu Hr]. unfold grow. destruct (Z.leb_spec (alen l) n) as [Hle|]; [|done].
  assert (alen (l ++ replicate (length l) blank_field) = 2 * alen l) as El by (rewrite alen_app, alen_replicate, alen_length; lia).
  split; [split|]; rewrite ?El; try lia.
  - intros i Hi. rewrite aget_app_l by lia. by apply Hu.
  - intros i Hi. rewrite aget_app_r by lia. apply aget_replicate. rewrite alen_length in *. lia.
Qed.

Lemma filled_snoc P w l n f :
  filled P w l n -> n < alen l -> P f (element w (n + 1)) -> filled P w (aset l n f) (n + 1).
Proof.
  intros [Hn Hu Hr] Hl HP. split; rewrite ?alen_aset; [lia| |].
  - intros i Hi. destruct (decide (i = n)) as [->|].
    + exists f. by rewrite aget_aset_eq by (unfold in_range; lia).
    + rewrite aget_aset_ne by lia. apply Hu. lia.
  - intros i Hi. rewrite aget_aset_ne by lia. apply Hr. lia.
Qed.

(** A new field at the end, all of it set but its own array. *)
Definition creates (create : option bytes -> bool -> Z -> option bytes -> M (strs * cells) Z) (l : list field) (n : Z) : Prop :=
  forall P w t nm arr ty tn Q, strs_ok t -> filled P w l n ->
  (forall t' l', strs_ok t' -> filled P w l' n -> n < alen l' ->
    Q n (t', (aset l' n (MkField (cstr nm) arr ty (cstr tn) [] 0), n + 1))) ->
  wpd (create (Some nm) arr ty (Some tn)) Q (t, (l, n)).

Lemma wp_create_field l n : 0 < alen l -> creates create_field l n.
Proof.
  intros Hl P w t nm arr ty tn Q Ht Hf HQ. destruct (filled_grow P w l n Hl Hf) as [Hg Hlt].
  unfold create_field. do 2 wp_step. do 2 wp_step. wp_step. wp_step; [apply (filled_rest _ _ _ _ Hg); lia|].
  wp_step. apply wp_alloc_name; [done|]. intros t1 H1. wp_step. apply wp_alloc_name; [done|]. intros t2 H2.
  do 2 wp_step. do 2 wp_step. wp_step. by apply HQ.
Qed.

Lemma wp_create_nest_field l n : creates create_nest_field l n.
Proof.
  intros P w t nm arr ty tn Q Ht Hf HQ. unfold create_nest_field. do 2 wp_step. wp_step. wp_step.
  - wp_step. assert (n = 0) as -> by (destruct Hf as [Hn _ _]; case_bool_decide; [subst l; rewrite alen_nil in Hn; lia|done]).
    apply wp_create_field with P w; [done|done|apply filled_blank|done].
  - apply (wp_create_field l n) with P w; [|done|done|done]. destruct l; [by case_bool_decide|rewrite alen_cons; pose proof (alen_nonneg l); lia].
Qed.

(** ** Importing *)

(** Field [f] shows the description [e]. *)
Definition shows (d : nat) (f : field) (e : value) : Prop :=
  dump_entry (dump_nest d) f tt = Done (desc_tree d e) tt /\ forall k, fields_wf k (nest f) (nsize f).

Lemma wp_read_desc {St : Type} d e (s : St) Q :
  desc_ok d e ->
  Q (tointeger (get_of e s_type), lua_toboolean (get_of e s_array), Some (tolstring (get_of e s_name)), Some (tolstring (get_of e s_type_name))) s ->
  wpd (read_desc e) Q s.
Proof.
  intros Hd HQ. assert (desc_ok d e) as Hd' by done. destruct d; destruct Hd as (Ht & Hn & Htn & (ty & Ety & Hty) & _);
    (destruct e as [| | | | | | | | |a r es ix p]; try done; cbn [get_of] in *; unfold read_desc; cbn [index_field]; do 4 (wp_step; wp_step); wp_step;
     rewrite Ety in *; cbn [lua_tointeger tointeger] in *; rewrite swrap_small by (done || lia);
     destruct (getfield es ix s_name); try done; destruct (getfield es ix s_type_name); done).
Qed.

Lemma fields_wf_filled P w l n k :
  filled P w l n -> (forall f e, P f e -> forall j, fields_wf j (nest f) (nsize f)) -> fields_wf k l n.
Proof.
  intros [Hn Hu _] HP. destruct k as [|k]; (split; [done|]); [done|]. intros f [i Hi]%list_elem_of_lookup_1.
  apply lookup_take_Some in Hi as [Hi Hlt]. destruct (Hu (Z.of_nat i)) as (g & Eg & Hg); [lia|].
  rewrite aget_lookup, Nat2Z.id, Hi in Eg by lia. injection Eg as ->. by eapply HP.
Qed.

Lemma dump_filled d w l n :
  filled (shows d) w l n -> dump_cells (dump_entry (dump_nest d)) l n tt = Done (TTable (list_tree (desc_tree d) n w)) tt.
Proof.
  intros [Hn Hu _]. unfold dump_cells.
  match goal with |- (?m ≫= ?k) _ = _ => assert (wpd m (fun t _ => t = list_tree (desc_tree d) n w) tt) as H end.
  { apply (wp_loop (fun st _ => 0 <= st.1 <= n /\ st.2 = list_tree (desc_tree d) st.1 w) (fun st _ => Z.to_nat (n - st.1))); [|cbn; split; [lia|done]|cbn; lia].
    intros [i t] [] [Hi Et]. cbn [fst snd] in *. subst t. destruct (Z.leb_spec n i); [wp_step; f_equal; lia|].
    destruct (Hu i) as (f & Ef & Hs & _); [lia|]. wp_step. unfold nth_field. wp_step; [exact Ef|]. wp_step. eapply wp_Done; [exact Hs|].
    wp_step. cbn [fst snd]. split; [split; [lia|]|lia]. unfold rawseti. rewrite set_entry_fresh; [|intros k' v' Hk|by destruct d].
    - unfold list_tree. rewrite (seqZ_app 1 i 1) by lia. rewrite fmap_app. do 2 f_equal. by rewrite (Z.add_comm 1 i).
    - apply list_elem_of_fmap in Hk as (j & [= -> ->] & Hj%elem_of_seqZ). cbn. lia. }
  apply wpd_Done in H as (t & [] & E & ->). by erewrite bind_Done.
Qed.

(** Reading a list of descriptions of depth [d] into an array that is [NULL]. *)
Definition nests (d : nat) (nested : value -> M (strs * cells) unit) : Prop :=
  forall w t Q, descs_ok d w -> strs_ok t ->
  (forall t' l n, strs_ok t' -> (forall f, nest f = l -> nsize f = n -> dump_nest d f tt = Done (descs_tree d w) tt) ->
    (forall k, fields_wf k l n) -> Q tt (t', (l, n))) ->
  wpd (nested w) Q (t, ([], 0)).

Lemma desc_nested d e : desc_ok d e -> tointeger (get_of e s_type) = FTYPE_PROTOCOL -> descs_ok d (get_of e s_fields).
Proof. by destruct d; intros (_ & _ & _ & _ & H). Qed.

Lemma desc_tree_eq d e : desc_tree d e =
  let t := [(TStr s_name, TStr (cstr (tolstring (get_of e s_name))));
            (TStr s_array, TInt (if lua_toboolean (get_of e s_array) then 1 else 0));
            (TStr s_type, TInt (tointeger (get_of e s_type)));
            (TStr s_type_name, TStr (cstr (tolstring (get_of e s_type_name))))] in
  TTable (if tointeger (get_of e s_type) =? FTYPE_PROTOCOL then t ++ [(TStr s_fields, descs_tree d (get_of e s_fields))] else t).
Proof. by destruct d. Qed.

(** One turn of the loop of [import_fields]. *)
Lemma wp_import_one create nested d w i n t l Q :
  creates create l n -> nests d nested -> is_table w = true -> i = n + 1 -> desc_ok d (element w i) -> strs_ok t -> filled (shows d) w l n ->
  (forall t' l', strs_ok t' -> filled (shows d) w l' (n + 1) -> 0 < alen l' -> Q tt (t', (l', n + 1))) ->
  wpd (elem ← lua_rawgeti w i;
       '(ty, arr, nm, tn) ← read_desc elem;
       j ← create nm arr ty tn;
       when (ty =? FTYPE_PROTOCOL) (fields ← index_field elem s_fields; in_cell j (nested fields))) Q (t, (l, n)).
Proof.
  intros Hc Hn Hw -> Hd Ht Hf HQ. wp_step. assert (lua_rawgeti w (n + 1) (t, (l, n)) = Done (element w (n + 1)) (t, (l, n))) as E by by destruct w.
  eapply wp_Done; [exact E|]. set (e := element w (n + 1)) in *. wp_step. apply (wp_read_desc d); [done|]. wp_step.
  apply (Hc (shows d) w); [done|done|]. intros t1 l1 H1 Hf1 Hlt. pose proof (filled_n _ _ _ _ Hf1) as Hnn. wp_step.
  - match goal with H : (_ =? _) = true |- _ => apply Z.eqb_eq in H; rename H into Ety end.
    wp_step. assert (forall St (s : St), index_field e s_fields s = Done (get_of e s_fields) s) as Ei.
    { intros. destruct d, e; by destruct Hd as [? _]. }
    eapply wp_Done; [apply Ei|]. unfold in_cell. wp_step. cbn [fst snd]. rewrite aget_aset_eq by (unfold in_range; lia). cbn [default id nest nsize].
    apply Hn; [by apply desc_nested|done|]. intros t2 l2 n2 H2 Hs Hwf. cbn [default id fst snd fname array type type_name].
    apply HQ; [done| |rewrite !alen_aset; lia]. rewrite aset_aset. apply filled_snoc; [done|done|]. split; [|done].
    fold e. rewrite desc_tree_eq. unfold dump_entry. cbn [fname array type type_name]. rewrite Ety, Z.eqb_refl. erewrite bind_Done; [|by apply Hs]. reflexivity.
  - apply HQ; [done| |rewrite alen_aset; lia]. apply filled_snoc; [done|done|]. split.
    + fold e. rewrite desc_tree_eq. unfold dump_entry. cbn [fname array type type_name]. by destruct (tointeger _ =? _).
    + intros k. cbn [nest nsize]. apply (fields_wf_filled (fun _ _ => False) VNil [] 0); [apply (filled_blank _ _ 0)|done].
Qed.

Lemma wp_import_fields create nested d w t l Q :
  (forall l' n, l' = l \/ 0 < alen l' -> creates create l' n) -> nests d nested ->
  list_ok (desc_ok d) w -> strs_ok t -> filled (shows d) w l 0 ->
  (forall t' l', strs_ok t' -> filled (shows d) w l' (rawlen_of w) -> Q tt (t', (l', rawlen_of w))) ->
  wpd (import_fields create nested w) Q (t, (l, 0)).
Proof.
  intros Hc Hn (Hw & Hr & Hd) Ht Hf HQ. unfold import_fields.
  assert (s32 (lua_rawlen w) = rawlen_of w) as ->.
  { unfold INT_MAX in *. destruct w; try done. cbn [lua_rawlen rawlen_of] in *. apply swrap_small; [lia|]. unfold in_s. lia. }
  eapply wp_mono; [apply (wp_for_each (fun k s => exists t' l' n, s = (t', (l', n)) /\ k = seqZ (n + 1) (rawlen_of w - n) /\ n <= rawlen_of w /\
    strs_ok t' /\ filled (shows d) w l' n /\ (l' = l \/ 0 < alen l')))|].
  - intros i k s (t' & l' & n & -> & Ek & Hle & Ht' & Hf' & Hl'). pose proof (filled_n _ _ _ _ Hf') as Hnn.
    destruct (decide (n = rawlen_of w)) as [->|]; [by rewrite Z.sub_diag in Ek|].
    rewrite seqZ_cons in Ek by lia. injection Ek as -> ->. apply wp_import_one with d; [by apply Hc|done|done|done|apply Hd; lia|done|done|].
    intros t2 l2 H2 Hf2 Hl2. exists t2, l2, (n + 1). split_and!; [done|f_equal; lia|lia|done|done|by right].
  - exists t, l, 0. rewrite Z.sub_0_r. split_and!; try done; [lia|by left].
  - intros [] s (t' & l' & n & -> & Ek & Hle & Ht' & Hf' & _). replace n with (rawlen_of w) in *; [by apply HQ|].
    apply (f_equal length) in Ek. rewrite length_seqZ in Ek. cbn in Ek. lia.
Qed.

Lemma wp_import_nest_field d levels : (d <= levels)%nat -> nests d (import_nest_field levels).
Proof.
  revert levels. induction d as [|d IH]; intros levels Hl w t Q Hd Ht HQ.
  - assert (import_nest_field levels w (t, ([], 0)) = Done tt (t, ([], 0))) as E.
    { destruct Hd as [Hw Hr]. destruct w; try done. cbn [rawlen_of] in Hr. subst. by destruct levels. }
    eapply wp_Done; [exact E|]. apply HQ; [done| |].
    + intros f _ En. cbn [dump_nest]. by rewrite En.
    + intros k. apply (fields_wf_filled (fun _ _ => False) VNil); [apply (filled_blank _ _ 0)|done].
  - destruct levels as [|levels]; [lia|]. cbn [import_nest_field].
    apply (wp_import_fields _ _ d); [|apply IH; lia|done|done|apply (filled_blank _ _ 0)|].
    + intros l' n _. apply wp_create_nest_field.
    + intros t' l' Ht' Hf. apply HQ; [done| |].
      * intros f Ef En. cbn [dump_nest]. rewrite Ef, En. by apply dump_filled.
      * intros k. apply (fields_wf_filled _ _ _ _ _ Hf). by intros f e [_ H].
Qed.
(** ** Loading a message *)

(** The slot of a message, free or not there yet. *)
Definition slot (c : context) (id : Z) : option protocol := mjoin (aget (slots c) id).

Lemma wp_create_protocol id nm c Q :
  strs_ok (strings c) -> 0 <= id < INT_MAX -> alen (slots c) < 2 ^ 30 -> slot c id = None ->
  (forall c', strs_ok (strings c') -> in_range (slots c') id -> (forall j, j <> id -> slot c' j = slot c j) ->
    slot c' id = Some (MkProtocol (cstr nm) (replicate 4 blank_field) 0) -> Q tt c') ->
  wpd (create_protocol id nm (alen nm + 1)) Q c.
Proof.
  intros Ht Hid Hs Hfree HQ. unfold create_protocol. wp_step. wp_step. pose proof (cstr_length nm). apply wp_str_alloc; [done|lia|].
  intros t Ht'. do 2 wp_step. cbn [slots strings]. pose proof (alen_nonneg (slots c)). wp_step.
  assert (forall l, in_range l id -> (forall j, mjoin (aget l j) = slot c j) ->
    wpd (require OutOfBounds (bool_decide (in_range l id));;
         put (MkContext (aset l id (Some (MkProtocol (cstr nm) (replicate 4 blank_field) 0))) t)) Q (MkContext (slots c) t)) as Hput.
  { intros l Hl Hj. wp_step. wp_step; [by apply bool_decide_eq_true_2|]. wp_step. apply HQ; cbn [strings slots]; [done| | |].
    - unfold in_range. by rewrite alen_aset.
    - intros j Hne. rewrite <- Hj. unfold slot. cbn [slots]. by rewrite aget_aset_ne by lia.
    - unfold slot. cbn [slots]. by rewrite aget_aset_eq. }
  destruct (Z.leb_spec (alen (slots c)) id) as [Hle|Hgt].
  - wp_step. wp_step; [unfold INT_MAX in *; lia|]. wp_step. set (k := if alen (slots c) * 2 <=? id then _ else _).
    assert (id < k /\ alen (slots c) <= k) as [Hk1 Hk2] by (unfold k; destruct (Z.leb_spec (alen (slots c) * 2) id); lia).
    apply Hput; [unfold in_range; rewrite alen_app, alen_replicate; lia|]. intros j. unfold slot.
    destruct (decide (0 <= j)); [|rewrite !aget_None by (unfold in_range; lia); done].
    destruct (decide (j < alen (slots c))); [by rewrite aget_app_l|]. rewrite aget_app_r by lia.
    rewrite (aget_None (slots c)) by (unfold in_range; lia). destruct (aget (replicate _ _) _) as [o|] eqn:E; [|done].
    apply aget_elem_of, elem_of_replicate_inv in E. by subst o.
  - wp_step. apply Hput; [unfold in_range; lia|done].
Qed.

Lemma lload_taken vid nm tbl c ptl :
  is_table tbl = true -> slot c (s32 (lua_tointeger vid)) = Some ptl -> lload_protocol vid nm tbl c = Raise "id already load" c.
Proof.
  intros Ht Hs. destruct tbl as [| | | | | | | | |a r es ix p]; try done. unfold lload_protocol, slot in *. erewrite bind_Done by reflexivity.
  destruct (aget (slots c) (s32 (lua_tointeger vid))) as [o|] eqn:E; [|done]. cbn in Hs. subst o.
  apply bind_Raise. pose proof (aget_Some_range _ _ _ E) as [_ Hr]. by rewrite (proj2 (Z.ltb_lt _ _) Hr).
Qed.

Lemma ldetail_slot c id ptl t :
  0 <= id < INT_MAX -> slot c id = Some ptl ->
  dump_cells (dump_entry (dump_nest dump_levels)) (pfield ptl) (psize ptl) tt = Done t tt ->
  ldetail_protocol c (VInt id) tt = Done (Some (TTable [(TStr s_name, TStr (pname ptl)); (TStr s_fields, t)])) tt.
Proof.
  intros Hid Hs Hd. unfold ldetail_protocol, slot in *. cbn [lua_tointeger tointeger]. rewrite swrap_small by (unfold in_s, INT_MAX in *; lia).
  destruct (aget (slots c) id) as [o|] eqn:E; [|done]. cbn in Hs. subst o. pose proof (aget_Some_range _ _ _ E) as [_ Hr].
  rewrite (proj2 (Z.leb_gt _ _) Hr). cbn [deref]. erewrite bind_Done by reflexivity. cbv beta iota. by erewrite bind_Done.
Qed.


End context.

(** A position: a name and a list of points, each an x and a y. *)
Module example.
Definition str (l : list Z) : bytes := z2b <$> l.
Definition entry (name : bytes) (v : value) : value * value := (VStr name, v).
Definition desc (name : bytes) (ty : Z) (arr : bool) (more : list (value * value)) : value :=
  VTable 0 0 ([entry s_type (VInt ty); entry s_array (VBool arr); entry s_name (VStr name); entry s_type_name (VStr name)] ++ more) [] None.
Definition descs (l : list value) : value := VTable 0 (alen l) (imap (fun i v => (VInt (Z.of_nat i + 1), v)) l) [] None.
Definition point : value := descs [desc (str [120]) FTYPE_INT false []; desc (str [121]) FTYPE_DOUBLE false []].
Definition fields : value :=
  descs [desc (str [110]) FTYPE_STRING false []; desc (str [112]) FTYPE_PROTOCOL true [entry s_fields point]].
Definition message : value := VTable 0 0 [entry s_fields fields] [] None.
Definition fresh : context := lprotocol_ctx_new.

Lemma desc_fine d name ty arr more :
  in_s 32 ty -> (ty = FTYPE_PROTOCOL -> descs_ok d (get_of (desc name ty arr more) s_fields)) -> desc_ok d (desc name ty arr more).
Proof.
  intros Hty Hn. destruct d; (split_and!; [done|done|done|by exists ty|exact Hn]).
Qed.

Lemma descs_fine (P : value -> Prop) a b : P a -> P b -> list_ok P (descs [a; b]).
Proof.
  intros Ha Hb. split_and!; [done|by vm_compute|by vm_compute|]. change (rawlen_of (descs [a; b])) with 2. intros i Hi.
  assert (i = 1 \/ i = 2) as [-> | ->] by lia; done.
Qed.

Lemma fields_fine : list_ok (desc_ok dump_levels) fields.
Proof.
  apply descs_fine; apply desc_fine; [done|done|done|]. intros _. by apply descs_fine; apply desc_fine.
Qed.
End example.

