(* ===== verification/ProtocolParser.v ===== *)
(** * The parser of protocol descriptions (lua-protocol-parser.c)

    The text form of the messages: nested protocols with typed fields, comments and imports.
    Protocols are nodes of a heap, named by their index; each has a hash table of the ones
    declared in it. A string is its bytes up to the zero. Errors that the parser reports
    with a long jump and a message on stderr end the parse, as [luaL_error] does here. *)

From S2P Require Import Prelude Outcome Codec LuaValue.

Definition TYPE_PROTOCOL : Z := 4.
Definition MAX_DEPTH : Z := 32.

Definition str (s : string) : bytes := (fun c => z2b (Z.of_nat (Ascii.nat_of_ascii c))) <$> String.list_ascii_of_string s.

(** "int", "float", "double", "string" *)
Definition BUILTIN_TYPE : list bytes := [str "int"; str "float"; str "double"; str "string"].

Record field := MkField { f_name : bytes; f_type : Z; f_array : bool; f_protocol : option Z }.

(** [slots] are the chains of [children], in the order of [next]. *)
Record protocol := MkProtocol { p_parent : option Z; slots : list (list Z); p_file : bytes; p_name : bytes; fields : list field }.

Record lexer := MkLexer { cursor : bytes; line : Z; file : bytes }.

(** The parser and the lexer at work: the heap of protocols, of which 0 is the root; the
    files of [importer], with room for [isize]; the size of the token buffer. *)
Record parser_context := MkParser { protos : list protocol; importer : list bytes; isize : Z; token_size : Z; path : bytes; lex : lexer }.

Abbreviation Ps := (M parser_context).

Definition with_protos (l : list protocol) (p : parser_context) : parser_context := MkParser l (importer p) (isize p) (token_size p) (path p) (lex p).
Definition with_lex (l : lexer) (p : parser_context) : parser_context := MkParser (protos p) (importer p) (isize p) (token_size p) (path p) l.
Definition with_token_size (n : Z) (p : parser_context) : parser_context := MkParser (protos p) (importer p) (isize p) n (path p) (lex p).
Definition with_cursor (c : bytes) (l : lexer) : lexer := MkLexer c (line l) (file l).

Definition get_proto (id : Z) : Ps protocol := p ← get; deref NullDeref (aget (protos p) id).
Definition set_proto (id : Z) (x : protocol) : Ps unit := modify (fun p => with_protos (aset (protos p) id x) p).

(** ** The tables of protocols *)

(** One step for the character [ch], a [char] converted to [size_t]. *)
Definition hash_step (i hash ch : Z) : Z :=
  let ch := u64 (s8 ch) in
  if Z.land i 1 =? 0 then Z.lxor hash (Z.lxor (Z.lxor (u64 (Z.shiftl hash 7)) ch) (Z.shiftr hash 3))
  else Z.lxor hash (u64 (Z.lnot (Z.lxor (Z.lxor (u64 (Z.shiftl hash 11)) ch) (Z.shiftr hash 5)))).

Fixpoint hash_from (i hash : Z) (s : bytes) : Z :=
  match s with [] => hash | c :: s => hash_from (i + 1) (hash_step i hash (b2z c)) s end.

Definition strhash (s : bytes) : Z := hash_from 0 0 s.

Definition create_table (size : Z) : list (list Z) := replicate (Z.to_nat size) [].

(** [memcmp] may be asked for more bytes than an object has, with a difference before its end.
    The C standard leaves that undefined, which is a fault when [memcmp_strict] is true; a
    [memcmp] that stops at the first difference reads no further. *)
Class Memcmp := memcmp_strict : bool.

Section parser.
Context `{Memcmp}.

(** [memcmp] over the length of [name]: a protocol whose name only starts with it is found
    too. Where the name in the chain is shorter, its zero is the difference that is found, and
    the bytes behind it are asked for too. *)
Fixpoint query_chain (chain : list Z) (name : bytes) : Ps (option Z) :=
  match chain with
  | [] => mret None
  | id :: chain =>
      x ← get_proto id;
      require OutOfBounds (negb memcmp_strict || (alen name <=? alen (p_name x) + 1));;
      if bool_decide (take (length name) (p_name x) = name) then mret (Some id) else query_chain chain name
  end.

Definition query_protocol (table : Z) (name : bytes) : Ps (option Z) :=
  t ← get_proto table;
  let index := strhash name mod alen (slots t) in
  slot ← deref OutOfBounds (aget (slots t) index);
  query_chain slot name.

Definition push_slot (table : list (list Z)) (index id : Z) : list (list Z) := aset table index (id :: default [] (aget table index)).

(** Every protocol is put at the head of its new chain. *)
Definition rehash_table (table : list (list Z)) (nsize : Z) : Ps (list (list Z)) :=
  loop (S (length (mjoin table))) (fun '(l, nslots) =>
    match l with
    | [] => mret (inr nslots)
    | id :: l =>
        x ← get_proto id;
        mret (inl (l, push_slot nslots (strhash (p_name x) mod nsize) id))
    end) (mjoin table, create_table nsize).

Definition set_slots (s : list (list Z)) (x : protocol) : protocol := MkProtocol (p_parent x) s (p_file x) (p_name x) (fields x).

Definition add_protocol (table id : Z) : Ps unit :=
  t ← get_proto table;
  x ← get_proto id;
  let size := alen (slots t) in
  let index := strhash (p_name x) mod size in
  slot ← deref OutOfBounds (aget (slots t) index);
  let s := push_slot (slots t) index id in
  match slot with
  | [] => set_proto table (set_slots s t)
  | _ =>
      if size / 8 <=? alen slot + 1 then
        require SignedOverflow (size * 2 <=? INT_MAX);;
        s ← rehash_table s (size * 2);
        set_proto table (set_slots s t)
      else set_proto table (set_slots s t)
  end.

(** The array of fields grows as needed. *)
Definition create_field (proto : Z) (array : bool) (field_type : Z) (reference : option Z) (field_name : bytes) : Ps unit :=
  x ← get_proto proto;
  set_proto proto (MkProtocol (p_parent x) (slots x) (p_file x) (p_name x) (fields x ++ [MkField field_name field_type array reference])).

Definition create_protocol (file name : bytes) (parent : option Z) : Ps Z :=
  p ← get;
  put (with_protos (protos p ++ [MkProtocol parent (create_table 4) file name []]) p);;
  mret (alen (protos p)).

(** ** The lexer *)

(** The character under the cursor; 0 at the end. *)
Definition peek (s : bytes) : Z := match s with [] => 0 | c :: _ => b2z c end.
Definition current : Ps Z := p ← get; mret (peek (cursor (lex p))).

Definition eos : Ps bool := c ← current; mret (c =? 0).

Definition isspace (c : Z) : bool := (c =? 32) || ((9 <=? c) && (c <=? 13)).

(** [skip_space], and [next_line] when inside a comment, which call each other; the rest of
    the text and the number of the line. *)
Fixpoint skip_from (comment : bool) (s : bytes) (line : Z) : bytes * Z :=
  match s with
  | [] => (s, if comment then line + 1 else line)
  | c :: r =>
      if b2z c =? 0 then (s, if comment then line + 1 else line)
      else if comment then
        if b2z c =? 10 then skip_from false r (line + 1) else skip_from true r line
      else if isspace (b2z c) then skip_from false r (if b2z c =? 10 then line + 1 else line)
      else if b2z c =? 35 then skip_from true r line
      else (s, line)
  end.

Definition skip_space : Ps unit :=
  modify (fun p => let '(s, l) := skip_from false (cursor (lex p)) (line (lex p)) in with_lex (MkLexer s l (file (lex p))) p).

(** [size] characters, unless the cursor is at the end. *)
Definition skip (size : Z) : Ps unit :=
  e ← eos;
  if e : bool then mret tt else
  p ← get;
  require OutOfBounds (size <=? alen (cursor (lex p)));;
  put (with_lex (with_cursor (drop (Z.to_nat size) (cursor (lex p))) (lex p)) p).

Definition expect (ch : Z) : Ps bool := c ← current; mret (c =? ch).

Definition expect_space : Ps bool := c ← current; mret (isspace c).

Definition ident (c : Z) : bool := (c =? 95) || ((65 <=? c) && (c <=? 90)) || ((97 <=? c) && (c <=? 122)) || ((48 <=? c) && (c <=? 57)).

(** One character of a token, into a buffer that is doubled when it is full. *)
Definition token_char (sa : bytes * bytes) : Ps (bytes * bytes + bytes * bytes) :=
  match sa with
  | (c :: s, acc) =>
      if ident (b2z c) then
        p ← get;
        let index := alen acc in
        (if token_size p <=? index then
           require SignedOverflow (token_size p * 2 <=? INT_MAX);;
           put (with_token_size (if token_size p * 2 <? index then index else token_size p * 2) p)
         else mret tt);;
        mret (inl (s, acc ++ [c]))
      else mret (inr (c :: s, acc))
  | ([], acc) => mret (inr ([], acc))
  end.

(** The token at the cursor. Its zero is written behind its last character, also when the
    buffer is full. *)
Definition next_token : Ps bytes :=
  p ← get;
  r ← loop (S (length (cursor (lex p)))) token_char (cursor (lex p), []);
  modify (fun p => with_lex (with_cursor r.1 (lex p)) p);;
  skip_space;;
  p ← get;
  require OutOfBounds (alen r.2 <? token_size p);;
  mret r.2.

(** [strncmp(name, word, len) == 0] for a name of [len] characters *)
Definition starts (name word : bytes) : bool := bool_decide (take (length name) word = name).

(** ** Protocols *)

Definition syntax_error {A} : Ps A := luaL_error "parse error".

(** The head of a declaration, up to the brace: the new protocol. *)
Definition protocol_open (parent : Z) : Ps Z :=
  name ← next_token;
  b ← expect 123;
  if negb b then syntax_error else
  o ← query_protocol parent name;
  match o with
  | Some _ => syntax_error
  | None =>
      p ← get;
      proto ← create_protocol (file (lex p)) name (Some parent);
      add_protocol parent proto;;
      skip 1;;
      skip_space;;
      mret proto
  end.

(** The index of the type in the table, from [i] on. *)
Fixpoint builtin_type (i : Z) (types : list bytes) (name : bytes) : Z :=
  match types with
  | [] => TYPE_PROTOCOL
  | t :: types => if starts name t then i else builtin_type (i + 1) types name
  end.

(** The protocol that a name refers to, in this protocol or in one around it. A protocol is
    younger than the one around it. *)
Fixpoint lookup_protocol (fuel : nat) (cur : Z) (name : bytes) : Ps (option Z) :=
  match fuel with
  | O => crash OutOfFuel
  | S fuel =>
      r ← query_protocol cur name;
      match r with
      | Some id => mret (Some id)
      | None =>
          x ← get_proto cur;
          match p_parent x with
          | Some parent => lookup_protocol fuel parent name
          | None => mret None
          end
      end
  end.

(** A field of the type [name]. *)
Definition parse_field (proto : Z) (name : bytes) : Ps unit :=
  let field_type := builtin_type 0 BUILTIN_TYPE name in
  p ← get;
  let isarray := bool_decide (take 2 (cursor (lex p)) = z2b <$> [91; 93]) in
  (if isarray then
     skip 2;;
     b ← expect_space;
     if negb b then syntax_error else skip_space
   else mret tt);;
  ref_proto ←
    (if field_type =? TYPE_PROTOCOL then
       p ← get;
       r ← lookup_protocol (S (length (protos p))) proto name;
       match r with Some id => mret (Some id) | None => syntax_error end
     else mret None);
  name ← next_token;
  if alen name =? 0 then syntax_error else
  create_field proto isarray field_type ref_proto name.

(** What is between the braces. Each round takes at least one character. *)
Fixpoint parse_body (fuel : nat) (proto : Z) : Ps unit :=
  match fuel with
  | O => crash OutOfFuel
  | S fuel =>
      b ← expect 125;
      if b : bool then skip 1;; skip_space else
      name ← next_token;
      if alen name =? 0 then syntax_error else
      (if starts name (str "protocol") then child ← protocol_open proto; parse_body fuel child
       else parse_field proto name);;
      parse_body fuel proto
  end.

Definition protocol_parse (parent : Z) : Ps unit :=
  p ← get;
  proto ← protocol_open parent;
  parse_body (S (length (cursor (lex p)))) proto.

(** ** Files *)

Section files.
(** The contents of the files. *)
Context (fopen : bytes -> option bytes).

(** The importers that are done have a file that starts with this name. *)
Definition has_import (name : bytes) : Ps bool :=
  p ← get; mret (existsb (fun f => bool_decide (take (length name) f = name)) (importer p)).

(** The array of importers is copied to one of the same size when it is full. *)
Definition parse_end : Ps unit :=
  p ← get;
  require OutOfBounds (alen (importer p) <? isize p);;
  put (MkParser (protos p) (importer p ++ [file (lex p)]) (isize p) (token_size p) (path p) (lex p)).

(** [snprintf] into 64 bytes. *)
Definition snprintf64 (s : bytes) : bytes := take 63 s.

Definition lexer_execute (protocol_import : bytes -> Ps unit) : Ps unit :=
  name ← next_token;
  if alen name =? 0 then syntax_error else
  if starts name (str "protocol") then protocol_parse 0
  else if starts name (str "import") then
    b ← expect 34;
    if negb b then syntax_error else
    skip 1;;
    name ← next_token;
    if alen name =? 0 then syntax_error else
    skip 1;;
    h ← has_import name;
    (if h : bool then mret tt else protocol_import name);;
    skip_space
  else syntax_error.

(** The name of the file, read with [parse_begin]. *)
Definition protocol_import (parse_begin : bytes -> Ps unit) (name : bytes) : Ps unit := parse_begin (snprintf64 (name ++ str ".protocol")).

(** The lexer of the file that is at work is kept while the other file is read. Each round of
    the loop takes at least one character. *)
Fixpoint parse_begin (fuel : nat) (name : bytes) : Ps unit :=
  match fuel with
  | O => crash OutOfFuel
  | S fuel =>
      p ← get;
      match fopen (snprintf64 (path p ++ name)) with
      | None => syntax_error
      | Some data =>
          put (with_lex (MkLexer data 1 name) p);;
          skip_space;;
          loop (S (length data)) (fun _ =>
            e ← eos;
            if e : bool then mret (inr tt) else
            lexer_execute (protocol_import (parse_begin fuel));;
            mret (inl tt)) tt;;
          parse_end;;
          modify (with_lex (lex p))
      end
  end.

(** ** The result *)

(** [lua_setfield] *)
Definition setfield (k : bytes) (v : tree) (l : list (tree * tree)) : list (tree * tree) := set_entry (TStr k) v l.

Definition export_field (i : Z) (f : field) : Ps tree :=
  type_name ←
    (if f_type f =? TYPE_PROTOCOL then
       id ← deref NullDeref (f_protocol f);
       x ← get_proto id;
       mret (p_name x)
     else deref OutOfBounds (aget BUILTIN_TYPE (f_type f)));
  mret (TTable (setfield (str "index") (TInt i) (setfield (str "name") (TStr (f_name f)) (setfield (str "type_name") (TStr type_name)
    (setfield (str "array") (TBool (f_array f)) (setfield (str "type") (TInt (f_type f)) [])))))).

(** One round of the loop over the fields. *)
Definition export_next (lit : list field * Z * list (tree * tree)) : Ps (list field * Z * list (tree * tree) + list (tree * tree)) :=
  match lit with
  | ([], _, t) => mret (inr t)
  | (f :: l, i, t) => x ← export_field i f; mret (inl (l, i + 1, setfield (f_name f) x t))
  end.

Definition export_fields (l : list field) : Ps (list (tree * tree)) := loop (S (length l)) export_next (l, 0, []).

(** One round of the loop over the protocols below. *)
Definition export_child (export : Z -> Ps tree) (lt : list Z * list (tree * tree)) : Ps (list Z * list (tree * tree) + list (tree * tree)) :=
  match lt with
  | ([], t) => mret (inr t)
  | (id :: l, t) => c ← export id; y ← get_proto id; mret (inl (l, setfield (p_name y) c t))
  end.

(** The slots that [luaL_checkstack] reserves; [depth] levels of protocols take two each, and
    a field two more. *)
Definition stack_slots : Z := MAX_DEPTH * 2 + 8.

Fixpoint protocol_export (fuel : nat) (root depth : Z) : Ps tree :=
  match fuel with
  | O => crash OutOfFuel
  | S fuel =>
      let depth := depth + 1 in
      require UndefinedBehaviour (depth * 2 <=? stack_slots);;
      x ← get_proto root;
      children ← loop (S (length (mjoin (slots x)))) (export_child (fun id => protocol_export fuel id depth)) (mjoin (slots x), []);
      let t := match mjoin (slots x) with [] => [] | _ => setfield (str "children") (TTable children) [] end in
      let t := setfield (str "file") (TStr (p_file x)) t in
      match fields x with
      | [] => mret (TTable t)
      | l =>
          require UndefinedBehaviour (depth * 2 + 2 <=? stack_slots);;
          fs ← export_fields l;
          mret (TTable (setfield (str "fields") (TTable fs) t))
      end
  end.

Definition parser_init (dir : bytes) : parser_context :=
  MkParser [MkProtocol None (create_table 4) (str "root") (str "root") []] [] 4 64 dir (MkLexer [] 0 []).

(** [imports] bounds the depth of the imports. *)
Definition parse_from (imports : nat) (name : bytes) : Ps tree :=
  parse_begin imports name;;
  p ← get;
  t ← protocol_export (S (length (protos p))) 0 0;
  mret (TTable (setfield (str "root") t [])).

Definition parse (imports : nat) (dir name : bytes) : outcome parser_context tree := parse_from imports name (parser_init dir).
End files.
End parser.

(** The [memcmp] that stops at the first difference is the one that is meant where nothing else
    is said. *)
#[export] Instance lenient : Memcmp := false.
Definition strict : Memcmp := true.

(** ** The tables find what was put in

    A heap is described by the names of its protocols, which never change. A table of the
    protocol [id] holds younger protocols, each in the chain of its hash. *)

Definition names (h : list protocol) : list bytes := p_name <$> h.

Definition wf_table (ns : list bytes) (id : Z) (s : list (list Z)) : Prop :=
  0 < alen s <= 16 * alen ns /\ NoDup (mjoin s) /\
  forall i chain k, aget s i = Some chain -> k ∈ chain -> id < k /\ exists n, aget ns k = Some n /\ strhash n mod alen s = i.

Definition wf_field (ns : list bytes) (f : field) : Prop :=
  if f_type f =? TYPE_PROTOCOL then exists r, f_protocol f = Some r /\ in_range ns r else 0 <= f_type f < 4.

Definition wf_node (ns : list bytes) (id : Z) (x : protocol) : Prop :=
  (match p_parent x with Some q => 0 <= q < id | None => True end) /\ wf_table ns id (slots x) /\ Forall (wf_field ns) (fields x).

Definition wf_heap (h : list protocol) : Prop :=
  0 < alen h /\ forall id x, aget h id = Some x -> wf_node (names h) id x.

Lemma alen_names h : alen (names h) = alen h.
Proof. apply alen_fmap. Qed.

Lemma aget_names h id : aget (names h) id = p_name <$> aget h id.
Proof. apply aget_fmap. Qed.

Lemma names_set h id x y : aget h id = Some x -> p_name y = p_name x -> names (aset h id y) = names h.
Proof.
  intros H E. unfold names. rewrite fmap_aset, E. apply aset_id. by rewrite aget_fmap, H.
Qed.

(** The names of the table: its protocols, in the order of an export. *)
Lemma elem_of_slots (s : list (list Z)) k : k ∈ mjoin s <-> exists i chain, aget s i = Some chain /\ k ∈ chain.
Proof.
  rewrite list_elem_of_join. split.
  - intros (chain & Hk & [i Hi]%list_elem_of_lookup). exists (Z.of_nat i), chain. split; [|done]. rewrite aget_lookup by lia. by rewrite Nat2Z.id.
  - intros (i & chain & Hi & Hk). exists chain. split; [done|]. by eapply aget_elem_of.
Qed.

Lemma wf_table_slot ns id s n : wf_table ns id s -> exists chain, aget s (strhash n mod alen s) = Some chain.
Proof.
  intros [Hs _]. destruct (aget_is_Some s (strhash n mod alen s)) as [c Hc]; [|by exists c].
  unfold in_range. pose proof (Z.mod_pos_bound (strhash n) (alen s)). lia.
Qed.

Lemma wf_table_elem ns id s k : wf_table ns id s -> k ∈ mjoin s -> id < k /\ exists n, aget ns k = Some n.
Proof.
  intros (_ & _ & H) (i & chain & Hi & Hk)%elem_of_slots. destruct (H i chain k Hi Hk) as (? & n & ? & _). eauto.
Qed.

Lemma wf_table_grow ns ns' id s : wf_table ns id s -> wf_table (ns ++ ns') id s.
Proof.
  intros (Hs & Hd & H). split_and!; [rewrite ?alen_app; pose proof (alen_nonneg ns'); lia..|done|]. intros i chain k Hi Hk.
  destruct (H i chain k Hi Hk) as (? & n & Hn & ?). split; [done|]. exists n. split; [|done].
  rewrite aget_app_l; [done|]. apply aget_Some_range in Hn. unfold in_range in Hn. lia.
Qed.

Lemma get_proto_Done (p : parser_context) id x : aget (protos p) id = Some x -> get_proto id p = Done x p.
Proof. intros H. unfold get_proto. cbv [get mbind M_bind]. by rewrite H. Qed.

Lemma wp_get_proto id x Q E p : aget (protos p) id = Some x -> Q x p -> wp (get_proto id) Q E p.
Proof. intros H HQ. eapply wp_Done; [by apply get_proto_Done|done]. Qed.

Lemma query_chain_spec chain name p :
  (forall k, k ∈ chain -> in_range (protos p) k) ->
  exists r, query_chain chain name p = Done r p /\
    match r with
    | Some k => k ∈ chain /\ exists x, aget (protos p) k = Some x /\ take (length name) (p_name x) = name
    | None => forall k, k ∈ chain -> aget (names (protos p)) k <> Some name
    end.
Proof.
  induction chain as [|id chain IH]; intros Hr; [exists None; split; [done|set_solver]|]. cbn [query_chain].
  destruct (aget_is_Some (protos p) id (Hr id ltac:(set_solver))) as [x Hx].
  rewrite (bind_Done _ _ _ _ _ (get_proto_Done p id x Hx)). rewrite (bind_Done _ _ tt p p) by done. case_bool_decide as Et.
  { exists (Some id). split; [done|]. split; [set_solver|eauto]. }
  destruct IH as (r & -> & Hq); [intros; apply Hr; set_solver|]. exists r. split; [done|]. destruct r as [k|].
  - destruct Hq as [? ?]. split; [set_solver|done].
  - intros k [->|Hk]%elem_of_cons; [|by apply Hq]. rewrite aget_names, Hx. cbn. intros [= E]. apply Et. rewrite E. apply firstn_all.
Qed.

(** A query finds a protocol of the table whose name starts with the one asked for, and only
    fails when the name is not in the table. *)
Lemma query_protocol_spec table t name p :
  aget (protos p) table = Some t -> wf_table (names (protos p)) table (slots t) ->
  exists r, query_protocol table name p = Done r p /\
    match r with
    | Some k => k ∈ mjoin (slots t) /\ exists x, aget (protos p) k = Some x /\ take (length name) (p_name x) = name
    | None => forall k, k ∈ mjoin (slots t) -> aget (names (protos p)) k <> Some name
    end.
Proof.
  intros Ht Hw. unfold query_protocol. rewrite (bind_Done _ _ _ _ _ (get_proto_Done p table t Ht)). cbv zeta.
  destruct (wf_table_slot _ _ _ name Hw) as [chain Hc]. rewrite Hc. cbn [deref].
  destruct (query_chain_spec chain name p) as (r & Hr & Hq).
  { intros k Hk. destruct (wf_table_elem _ _ _ k Hw) as (_ & n & Hn); [apply elem_of_slots; eauto|].
    apply aget_Some_range in Hn. unfold in_range in *. by rewrite alen_names in Hn. }
  exists r. split; [exact Hr|]. destruct r as [k|].
  - destruct Hq as [Hk Hx]. split; [apply elem_of_slots; eauto|done].
  - intros k (i & chain' & Hi & Hk)%elem_of_slots Hn. destruct Hw as (_ & _ & Hw). destruct (Hw i chain' k Hi Hk) as (_ & n & Hn' & <-).
    rewrite Hn in Hn'. injection Hn' as <-. rewrite Hc in Hi. injection Hi as <-. by apply (Hq k).
Qed.

Lemma aget_split {A} (l : list A) i x y : aget l i = Some x -> exists a b, l = a ++ x :: b /\ aset l i y = a ++ y :: b.
Proof.
  intros H. pose proof (aget_Some_range _ _ _ H) as Hr. rewrite aget_lookup in H by apply Hr. apply list_elem_of_split_length in H as (a & b & -> & Hl).
  exists a, b. split; [done|]. apply aget_ext; [by rewrite alen_aset, !alen_app, !alen_cons|]. intros j. rewrite aget_aset by done.
  assert (alen a = i) as Ha by (rewrite alen_length; destruct Hr; lia). case_decide as E.
  - subst j. rewrite aget_app_r by lia. replace (i - alen a) with 0 by lia. by rewrite aget_cons_0.
  - destruct (Z.lt_ge_cases j (alen a)); [by rewrite !aget_app_l|]. rewrite !aget_app_r by lia.
    replace (j - alen a) with (j - alen a - 1 + 1) by lia. by rewrite !aget_cons by lia.
Qed.

Lemma join_push (s : list (list Z)) i chain k : aget s i = Some chain -> mjoin (push_slot s i k) ≡ₚ k :: mjoin s.
Proof.
  intros H. unfold push_slot. rewrite H. change (default [] (Some chain)) with chain. destruct (aget_split s i chain (k :: chain) H) as (a & b & -> & ->).
  rewrite !join_app. symmetry. apply Permutation_middle.
Qed.

(** The table with [k] at the head of its chain. *)
Lemma wf_table_push ns id s k n :
  wf_table ns id s -> id < k -> aget ns k = Some n -> k ∉ mjoin s ->
  wf_table ns id (push_slot s (strhash n mod alen s) k) /\ mjoin (push_slot s (strhash n mod alen s) k) ≡ₚ k :: mjoin s.
Proof.
  intros Hw Hk Hn Hd. destruct (wf_table_slot _ _ _ n Hw) as [chain Hc]. pose proof (join_push s _ chain k Hc) as Hj. split; [|done].
  destruct Hw as (Hs & Hd' & H). split_and!; [..|rewrite Hj; by constructor|]; unfold push_slot in *; rewrite Hc in *; change (default [] (Some chain)) with chain in *; rewrite !alen_aset; [lia..|].
  intros i c j. rewrite aget_aset by (by eapply aget_Some_range). case_decide as E; [|apply H].
  intros [= <-] [->|Hjc]%elem_of_cons; [eauto|]. rewrite <- E. by apply (H _ chain).
Qed.

Lemma join_create_table n : mjoin (create_table n) = [].
Proof. unfold create_table. by induction (Z.to_nat n). Qed.

Lemma wf_create_table ns id n : 0 < n <= 16 * alen ns -> wf_table ns id (create_table n).
Proof.
  intros Hn. split_and!; [..|rewrite join_create_table; constructor|]; unfold create_table; rewrite ?alen_replicate, ?Z2Nat.id by lia; [lia..|]. intros i c k Hi.
  apply aget_elem_of, elem_of_replicate in Hi as [-> _]. set_solver.
Qed.

Lemma rehash_table_spec p id s nsize :
  wf_table (names (protos p)) id s -> 0 < nsize <= 16 * alen (protos p) ->
  exists s', rehash_table s nsize p = Done s' p /\ wf_table (names (protos p)) id s' /\ mjoin s' ≡ₚ mjoin s.
Proof.
  intros Hw Hn.
  enough (wpd (rehash_table s nsize) (fun s' p' => p' = p /\ wf_table (names (protos p)) id s' /\ mjoin s' ≡ₚ mjoin s) p) as H.
  { apply wpd_Done in H as (s' & p' & ? & -> & ?). eauto. }
  apply (wp_loop (fun '(l, ns) p' => p' = p /\ alen ns = nsize /\ wf_table (names (protos p)) id ns /\ l ++ mjoin ns ≡ₚ mjoin s)
    (fun '(l, _) _ => length l)); [|split_and!; try done|cbn; lia].
  2: { unfold create_table. by rewrite alen_replicate, Z2Nat.id by lia. }
  2: { apply wf_create_table. by rewrite alen_names. }
  2: { by rewrite join_create_table, app_nil_r. }
  intros [l ns] p' (-> & Hl & Hns & Hp). destruct l as [|k l]; [wp_step; by split_and!|].
  destruct (wf_table_elem _ _ _ k Hw) as (Hk & n & Hnk); [rewrite <- Hp; set_solver|].
  pose proof Hnk as Hx. rewrite aget_names in Hx. apply fmap_Some in Hx as (x & Hx & ->).
  wp_step. apply (wp_get_proto _ x); [done|]. wp_step. subst nsize. destruct (wf_table_push _ _ _ k _ Hns Hk Hnk) as [Hw' Hj].
  { destruct Hw as (_ & Hd & _). rewrite <- Hp in Hd. apply NoDup_cons in Hd as [Hd _]. set_solver. }
  split_and!; try done; [|by rewrite Hj, <- Permutation_middle, <- Hp|cbn; lia].
  unfold push_slot. by rewrite alen_aset.
Qed.

Lemma alen_distinct (l : list Z) n : NoDup l -> (forall k, k ∈ l -> 0 < k < n) -> 0 < n -> alen l + 1 <= n.
Proof.
  intros Hd H Hn. assert (l ⊆+ seqZ 1 (n - 1)) as Hl%submseteq_length.
  { apply NoDup_submseteq; [done|]. intros k Hk. apply elem_of_seqZ. specialize (H k Hk). lia. }
  rewrite length_seqZ in Hl. rewrite alen_length. lia.
Qed.

(** A chain and one more protocol are no more than the protocols there are. *)
Lemma chain_bound h table s i chain id :
  wf_table (names h) table s -> 0 <= table < id -> in_range h id -> id ∉ mjoin s -> aget s i = Some chain -> alen chain + 2 <= alen h.
Proof.
  intros Hw Hlt Hr Hd Hc. assert (forall k, k ∈ mjoin s -> 0 < k < alen h) as Hk.
  { intros k Hk. destruct (wf_table_elem _ _ _ k Hw Hk) as (? & n & Hn%aget_Some_range). unfold in_range in Hn. rewrite alen_names in Hn. lia. }
  unfold in_range in Hr. destruct (aget_split s i chain chain Hc) as (a & b & -> & _). rewrite join_app in *.
  replace (alen chain + 2) with (alen (id :: chain) + 1) by (rewrite alen_cons; lia). apply alen_distinct; [| |lia].
  - destruct Hw as (_ & Hw & _). rewrite join_app in Hw. apply NoDup_app in Hw as (_ & _ & Hw). cbn in Hw. apply NoDup_app in Hw as (Hw & _).
    constructor; [|done]. set_solver.
  - intros k [->|H]%elem_of_cons; [lia|]. apply Hk. set_solver.
Qed.

(** What [add_protocol] does: the protocol joins the table, the other protocols stay. *)
Lemma add_protocol_spec p table t id x :
  aget (protos p) table = Some t -> aget (protos p) id = Some x -> 0 <= table < id -> id ∉ mjoin (slots t) ->
  wf_table (names (protos p)) table (slots t) -> 16 * alen (protos p) <= INT_MAX ->
  exists s, add_protocol table id p = Done tt (with_protos (aset (protos p) table (set_slots s t)) p) /\
    wf_table (names (protos p)) table s /\ mjoin s ≡ₚ id :: mjoin (slots t).
Proof.
  intros Ht Hx Hlt Hd Hw Hb. unfold add_protocol. rewrite (bind_Done _ _ _ _ _ (get_proto_Done p table t Ht)), (bind_Done _ _ _ _ _ (get_proto_Done p id x Hx)).
  cbv zeta. destruct (wf_table_slot _ _ _ (p_name x) Hw) as [chain Hc]. rewrite Hc. cbn [deref].
  destruct (wf_table_push _ _ _ id (p_name x) Hw (proj2 Hlt)) as [Hw' Hj]; [by rewrite aget_names, Hx|done|].
  set (s' := push_slot _ _ _) in *. change (deref OutOfBounds (Some chain)) with (mret chain : Ps (list Z)).
  destruct chain as [|k chain]; [by exists s'|]. cbv [mbind M_bind mret M_ret]. case_match eqn:Es; [|by exists s'].
  apply Z.leb_le in Es. assert (alen (slots t) * 2 <= 16 * alen (protos p)) as Hsz.
  { pose proof (chain_bound _ _ _ _ _ id Hw Hlt (aget_Some_range _ _ _ Hx) Hd Hc). dlia. }
  unfold require. rewrite (proj2 (Z.leb_le _ _)) by lia. cbv [mret M_ret].
  destruct (rehash_table_spec p table s' (alen (slots t) * 2) Hw') as (s'' & -> & Hw'' & Hj''); [destruct Hw; lia|].
  exists s''. split_and!; [done..|]. by rewrite Hj''.
Qed.

(** ** The lexer *)

Definition is_word (w : bytes) : Prop := Forall (fun c => ident (b2z c) = true) w.

(** No token of the text fills the buffer. *)
Definition runs_short (s : bytes) : Prop := forall a w b, s = a ++ w ++ b -> is_word w -> alen w < 64.

Lemma skip_from_suffix comment s l : (skip_from comment s l).1 `suffix_of` s.
Proof.
  revert comment l. induction s as [|c s IH]; intros comment l; [done|]. cbn [skip_from].
  repeat case_match; try done; apply suffix_cons_r, IH.
Qed.

Lemma token_loop w s acc p fuel :
  is_word w -> ident (peek s) = false -> alen acc + alen w <= 64 <= token_size p -> (length w < fuel)%nat ->
  loop fuel token_char (w ++ s, acc) p = Done (s, acc ++ w) p.
Proof.
  intros Hw Hs. revert acc fuel. induction w as [|c w IH]; intros acc [|fuel] Hl Hf; try (cbn in Hf; lia).
  - rewrite app_nil_r. destruct s as [|c s]; [done|]. cbn -[ident]. cbn [peek] in Hs. by rewrite Hs.
  - apply Forall_cons in Hw as [Hc Hw]. rewrite alen_cons in Hl. pose proof (alen_nonneg w). cbn [loop].
    rewrite (bind_Done _ _ (inl (w ++ s, acc ++ [c])) _ p).
    + rewrite (IH Hw (acc ++ [c])); [by rewrite <- app_assoc|rewrite alen_snoc; lia|cbn in Hf; lia].
    + cbn -[ident]. rewrite Hc. cbv [get mbind M_bind]. rewrite (proj2 (Z.leb_gt _ _)) by lia. done.
Qed.

Definition spaced (s : bytes) (l : lexer) : lexer := MkLexer (skip_from false s (line l)).1 (skip_from false s (line l)).2 (file l).

Lemma skip_space_Done p : skip_space p = Done tt (with_lex (spaced (cursor (lex p)) (lex p)) p).
Proof. unfold skip_space, spaced, modify. by destruct (skip_from _ _ _). Qed.

Lemma next_token_Done p w s :
  cursor (lex p) = w ++ s -> is_word w -> ident (peek s) = false -> alen w < 64 <= token_size p ->
  next_token p = Done w (with_lex (spaced s (lex p)) p).
Proof.
  intros Hc Hw Hs Hl. unfold next_token. rewrite (bind_Done _ _ p p p) by done. rewrite Hc.
  rewrite (bind_Done _ _ _ _ _ (token_loop w s [] p (S (length (w ++ s))) Hw Hs ltac:(rewrite alen_nil; lia) ltac:(rewrite length_app; lia))).
  rewrite (bind_Done _ _ tt _ (with_lex (with_cursor s (lex p)) p)) by done. rewrite (bind_Done _ _ _ _ _ (skip_space_Done _)).
  cbv [get mbind M_bind]. unfold require. cbn [token_size with_lex snd app]. by rewrite (proj2 (Z.ltb_lt _ _)) by lia.
Qed.

Lemma word_split s : exists w r, s = w ++ r /\ is_word w /\ ident (peek r) = false.
Proof.
  induction s as [|c s (w & r & -> & Hw & Hr)]; [by exists [], []; repeat constructor|]. destruct (ident (b2z c)) eqn:E.
  - exists (c :: w), r. split_and!; try done. by constructor.
  - exists [], (c :: w ++ r). split_and!; try done. constructor.
Qed.

Lemma skip_one p c s : cursor (lex p) = c :: s -> b2z c <> 0 -> skip 1 p = Done tt (with_lex (with_cursor s (lex p)) p).
Proof.
  intros Hc H0. unfold skip, eos, current. cbv [get mbind M_bind mret M_ret]. rewrite Hc. cbn [peek]. rewrite (proj2 (Z.eqb_neq _ _)) by done.
  cbv beta iota. rewrite Hc. unfold require. rewrite alen_cons, (proj2 (Z.leb_le _ _)) by (pose proof (alen_nonneg s); lia). done.
Qed.

(** ** The heap stays well formed *)

Lemma wf_field_grow ns ns' f : wf_field ns f -> wf_field (ns ++ ns') f.
Proof.
  unfold wf_field. case_match; [|done]. intros (r & ? & Hr). exists r. split; [done|]. unfold in_range in *. rewrite alen_app. pose proof (alen_nonneg ns'). lia.
Qed.

Lemma wf_node_grow ns ns' id x : wf_node ns id x -> wf_node (ns ++ ns') id x.
Proof.
  intros (? & ? & Hf). split_and!; [done|by apply wf_table_grow|]. eapply Forall_impl; [done|]. intros f. apply wf_field_grow.
Qed.

Lemma wf_heap_set h id x y :
  wf_heap h -> aget h id = Some x -> p_name y = p_name x -> wf_node (names h) id y -> wf_heap (aset h id y).
Proof.
  intros [Hl Hw] Hx Hn Hy. split; [by rewrite alen_aset|]. rewrite (names_set h id x y) by done. intros j z.
  rewrite aget_aset by (by eapply aget_Some_range). case_decide; [intros [= <-]; by subst|apply Hw].
Qed.

Lemma wf_heap_snoc h x : wf_heap h -> wf_node (names h ++ [p_name x]) (alen h) x -> wf_heap (h ++ [x]).
Proof.
  intros [Hl Hw] Hx. split; [rewrite alen_snoc; lia|]. unfold names. rewrite fmap_app. intros j z [Hj|[-> <-]]%aget_snoc; [|done].
  by apply wf_node_grow, Hw.
Qed.

Lemma wf_heap_node h id x : wf_heap h -> aget h id = Some x -> wf_node (names h) id x.
Proof. intros [_ H]. apply H. Qed.

(** The heap with a new protocol [w] in the table of [parent]. *)
Definition opened (h : list protocol) (parent : Z) (t : protocol) (sl : list (list Z)) (file w : bytes) : list protocol :=
  aset (h ++ [MkProtocol (Some parent) (create_table 4) file w []]) parent (set_slots sl t).

Lemma alen_opened h parent t sl file w : alen (opened h parent t sl file w) = alen h + 1.
Proof. unfold opened. by rewrite alen_aset, alen_snoc. Qed.

Lemma names_opened h parent t sl file w : aget h parent = Some t -> names (opened h parent t sl file w) = names h ++ [w].
Proof.
  intros Ht. unfold opened. rewrite (names_set _ _ t); [unfold names; by rewrite fmap_app| |done].
  rewrite aget_app_l; [done|]. apply aget_Some_range in Ht. apply Ht.
Qed.

Lemma wf_heap_open h parent t file w :
  wf_heap h -> aget h parent = Some t -> wf_heap (h ++ [MkProtocol (Some parent) (create_table 4) file w []]).
Proof.
  intros Hw Ht. apply wf_heap_snoc; [done|]. apply aget_Some_range in Ht. unfold in_range in Ht. split_and!; cbn; [lia..|apply wf_create_table|constructor].
  rewrite alen_snoc, alen_names. lia.
Qed.

Lemma fresh_id h parent t : wf_heap h -> aget h parent = Some t -> alen h ∉ mjoin (slots t).
Proof.
  intros Hw Ht Hk. destruct (wf_heap_node _ _ _ Hw Ht) as (_ & Hs & _). destruct (wf_table_elem _ _ _ _ Hs Hk) as (_ & n & Hn%aget_Some_range).
  unfold in_range in Hn. rewrite alen_names in Hn. lia.
Qed.

(** A declaration that starts well: the protocol is new, unless a query finds its name. *)
Lemma protocol_open_spec p parent t w s r :
  cursor (lex p) = w ++ s -> is_word w -> ident (peek s) = false -> alen w < 64 <= token_size p ->
  cursor (spaced s (lex p)) = z2b 123 :: r ->
  wf_heap (protos p) -> aget (protos p) parent = Some t -> 16 * (alen (protos p) + 1) <= INT_MAX ->
  (exists k x, k ∈ mjoin (slots t) /\ aget (protos p) k = Some x /\ take (length w) (p_name x) = w /\
     protocol_open parent p = Raise "parse error" (with_lex (spaced s (lex p)) p)) \/
  (exists sl, (forall k, k ∈ mjoin (slots t) -> aget (names (protos p)) k <> Some w) /\ mjoin sl ≡ₚ alen (protos p) :: mjoin (slots t) /\
     wf_heap (opened (protos p) parent t sl (file (lex p)) w) /\
     protocol_open parent p = Done (alen (protos p))
       (with_lex (spaced r (with_cursor r (spaced s (lex p)))) (with_protos (opened (protos p) parent t sl (file (lex p)) w) p))).
Proof.
  intros Hc Hw Hs Hl Hr Hh Ht Hb. unfold protocol_open. rewrite (bind_Done _ _ _ _ _ (next_token_Done p w s Hc Hw Hs Hl)).
  set (p1 := with_lex _ p). assert (cursor (lex p1) = z2b 123 :: r) as Hc1 by exact Hr.
  rewrite (bind_Done (expect 123) _ true p1 p1) by (unfold expect, current; cbv [get mbind M_bind mret M_ret]; by rewrite Hc1).
  destruct (wf_heap_node _ _ _ Hh Ht) as (_ & Hst & _).
  destruct (query_protocol_spec parent t w p1 Ht Hst) as (o & Ho & Hq). cbn [negb]. rewrite (bind_Done _ _ _ _ _ Ho). destruct o as [k|].
  { left. destruct Hq as (? & x & ? & ?). by exists k, x. }
  right. rewrite (bind_Done get _ p1 p1 p1) by done. set (x := MkProtocol (Some parent) (create_table 4) (file (lex p)) w []).
  set (p2 := with_protos (protos p ++ [x]) p1). rewrite (bind_Done (create_protocol _ _ _) _ (alen (protos p)) p1 p2) by done.
  pose proof (aget_Some_range _ _ _ Ht) as Hrt. unfold in_range in Hrt.
  assert (aget (protos p2) parent = Some t) as Ht2 by (cbn; rewrite aget_app_l; [done|lia]).
  assert (aget (protos p2) (alen (protos p)) = Some x) as Hx2 by (cbn; rewrite aget_app_r, Z.sub_diag by lia; apply aget_cons_0).
  pose proof (wf_heap_open _ _ _ (file (lex p)) w Hh Ht) as Hh2. destruct (wf_heap_node _ _ _ Hh2 Ht2) as (Hpar & Hst2 & Hf2).
  destruct (add_protocol_spec p2 parent t (alen (protos p)) x Ht2 Hx2 ltac:(lia) (fresh_id _ _ _ Hh Ht) Hst2) as (sl & Ha & Hsl & Hj).
  { cbn. rewrite alen_snoc. lia. }
  exists sl. split_and!; [done|done| |].
  - apply (wf_heap_set _ _ t); [done|done|done|]. by split_and!.
  - rewrite (bind_Done _ _ _ _ _ Ha). rewrite (bind_Done (skip 1) _ _ _ _ (skip_one (with_protos (aset (protos p2) parent (set_slots sl t)) p2) (z2b 123) r Hc1 ltac:(done))).
    by rewrite (bind_Done _ _ _ _ _ (skip_space_Done _)).
Qed.

(** The protocols that a name in the body of [cur] may refer to. *)
Inductive visible (h : list protocol) : Z -> Z -> Prop :=
| visible_here cur x k : aget h cur = Some x -> k ∈ mjoin (slots x) -> visible h cur k
| visible_around cur x q k : aget h cur = Some x -> p_parent x = Some q -> visible h q k -> visible h cur k.

Lemma lookup_protocol_spec fuel cur name p :
  wf_heap (protos p) -> in_range (protos p) cur -> (Z.to_nat cur < fuel)%nat ->
  exists r, lookup_protocol fuel cur name p = Done r p /\
    match r with
    | Some k => visible (protos p) cur k /\ exists x, aget (protos p) k = Some x /\ take (length name) (p_name x) = name
    | None => forall k, visible (protos p) cur k -> aget (names (protos p)) k <> Some name
    end.
Proof.
  intros Hh. revert cur. induction fuel as [|fuel IH]; intros cur Hr Hf; [lia|]. cbn [lookup_protocol].
  destruct (aget_is_Some _ _ Hr) as [x Hx]. destruct (wf_heap_node _ _ _ Hh Hx) as (Hq & Hs & _).
  destruct (query_protocol_spec cur x name p Hx Hs) as (o & Ho & Hk). rewrite (bind_Done _ _ _ _ _ Ho). destruct o as [k|].
  { exists (Some k). destruct Hk as [? ?]. split_and!; [done|by eapply visible_here|done]. }
  rewrite (bind_Done _ _ _ _ _ (get_proto_Done p cur x Hx)). destruct (p_parent x) as [q|] eqn:Eq.
  - destruct (IH q) as (r & -> & Hv); [unfold in_range in *; lia|unfold in_range in *; lia|]. exists r. split; [done|].
    destruct r as [k|]; [destruct Hv; split; [by eapply visible_around|done]|].
    intros k Hv'. inversion Hv'; simplify_eq; [by apply Hk|by apply Hv].
  - exists None. split; [done|]. intros k Hv'. inversion Hv'; simplify_eq. by apply Hk.
Qed.

(** ** Any text is read or refused

    A text without quotes, so without imports, whose tokens fit the buffer. *)

Definition sound (n : Z) (p : parser_context) : Prop :=
  wf_heap (protos p) /\ 64 <= token_size p /\ runs_short (cursor (lex p)) /\ Forall (fun c => b2z c <> 34) (cursor (lex p)) /\
  alen (protos p) + alen (cursor (lex p)) <= n.

(** What is kept from [p] to [p']: the rest of the text gets shorter. *)
Definition further (n : Z) (p p' : parser_context) : Prop :=
  sound n p' /\ alen (protos p) <= alen (protos p') /\ alen (cursor (lex p')) <= alen (cursor (lex p)) /\
  importer p' = importer p /\ isize p' = isize p.

Definition refused (e : string) (_ : parser_context) : Prop := e = "parse error"%string.

Lemma alen_suffix {A} (s' s : list A) : s' `suffix_of` s -> alen s' <= alen s.
Proof. intros [a ->]. rewrite alen_app. pose proof (alen_nonneg a). lia. Qed.

Lemma sound_lex n p l : sound n p -> cursor l `suffix_of` cursor (lex p) -> further n p (with_lex l p).
Proof.
  intros (Hh & Ht & Hr & Hq & Hn) Hs. pose proof (alen_suffix _ _ Hs). unfold further, sound. cbn [protos with_lex lex token_size importer isize].
  split_and!; try done; [| |lia].
  - destruct Hs as [a Ha]. intros b w c Hw. apply (Hr (a ++ b) w c). by rewrite Ha, Hw, <- app_assoc.
  - destruct Hs as [a Ha]. rewrite Ha in Hq. by apply Forall_app in Hq as [_ Hq].
Qed.

Lemma further_trans n p p' p'' : further n p p' -> further n p' p'' -> further n p p''.
Proof. intros (? & ? & ? & ? & ?) (? & ? & ? & ? & ?). unfold further. split_and!; [done|lia|lia|congruence|congruence]. Qed.

Lemma further_refl n p : sound n p -> further n p p.
Proof. intros H. by split_and!. Qed.

Lemma spaced_suffix s l : cursor (spaced s l) `suffix_of` s.
Proof. apply skip_from_suffix. Qed.

Lemma wp_next_token n p (Q : bytes -> parser_context -> Prop) E :
  sound n p ->
  (forall w p', is_word w -> further n p p' -> alen w + alen (cursor (lex p')) <= alen (cursor (lex p)) -> protos p' = protos p -> Q w p') ->
  wp next_token Q E p.
Proof.
  intros Hp HQ. destruct (word_split (cursor (lex p))) as (w & r & Hc & Hw & Hr). pose proof (spaced_suffix r (lex p)) as Hs.
  assert (cursor (spaced r (lex p)) `suffix_of` cursor (lex p)) as Hs' by (rewrite Hc; by apply suffix_app_r).
  eapply wp_Done; [apply (next_token_Done p w r Hc Hw Hr)|].
  { destruct Hp as (_ & ? & Hrun & _). split; [|done]. by apply (Hrun [] w r). }
  apply HQ; [done|by apply sound_lex| |done]. cbn [lex with_lex]. rewrite Hc, alen_app. apply alen_suffix in Hs. lia.
Qed.

Lemma wp_skip_space n p (Q : unit -> parser_context -> Prop) E :
  sound n p -> (forall p', further n p p' -> protos p' = protos p -> Q tt p') -> wp skip_space Q E p.
Proof.
  intros Hp HQ. eapply wp_Done; [apply skip_space_Done|]. apply HQ; [|done]. apply sound_lex; [done|]. apply spaced_suffix.
Qed.

Lemma wp_skip_chars n p k (Q : unit -> parser_context -> Prop) E :
  sound n p -> 0 <= k <= alen (cursor (lex p)) ->
  (forall p', further n p p' -> protos p' = protos p -> Q tt p') -> wp (skip k) Q E p.
Proof.
  intros Hp Hk HQ. unfold skip, eos, current. repeat wp_step. case_match; [wp_step; apply HQ; [by apply further_refl|done]|].
  repeat wp_step; [apply Z.leb_le; lia|]. apply HQ; [|done]. apply sound_lex; [done|]. cbn [cursor with_cursor].
  exists (take (Z.to_nat k) (cursor (lex p))). by rewrite take_drop.
Qed.

Lemma wp_expect ch (Q : bool -> parser_context -> Prop) E p : Q (peek (cursor (lex p)) =? ch) p -> wp (expect ch) Q E p.
Proof. done. Qed.

Lemma peek_cons s ch : peek s = ch -> ch <> 0 -> exists r, s = z2b ch :: r.
Proof. intros <-. destruct s as [|c r]; [done|]. cbn [peek]. rewrite z2b_b2z. eauto. Qed.

Lemma suffix_cons_skip s l c r : cursor (spaced s l) = c :: r -> alen r + 1 <= alen s.
Proof. intros H. pose proof (alen_suffix _ _ (spaced_suffix s l)) as Ha. rewrite H, alen_cons in Ha. lia. Qed.

Lemma ahead_open n p parent t sl w s r :
  sound n p -> cursor (lex p) = w ++ s -> cursor (spaced s (lex p)) = z2b 123 :: r ->
  wf_heap (opened (protos p) parent t sl (file (lex p)) w) ->
  let p' := with_lex (spaced r (with_cursor r (spaced s (lex p)))) (with_protos (opened (protos p) parent t sl (file (lex p)) w) p) in
  further n p p' /\ alen (cursor (lex p')) < alen (cursor (lex p)).
Proof.
  intros Hp Hc Hr Hh p'. pose proof (suffix_cons_skip _ _ _ _ Hr). pose proof (alen_suffix _ _ (spaced_suffix r (with_cursor r (spaced s (lex p))))) as Hs.
  assert (cursor (lex p') `suffix_of` cursor (lex p)) as Hsuf.
  { etrans; [apply spaced_suffix|]. rewrite Hc. apply suffix_app_r. etrans; [|apply (spaced_suffix s (lex p))]. rewrite Hr. by apply suffix_cons_r. }
  destruct (sound_lex n p (lex p') Hp Hsuf) as ((_ & Ht & Hq & Hn & Hb) & _). pose proof (alen_nonneg w).
  assert (alen (cursor (lex p')) < alen (cursor (lex p))) as Hlt by (rewrite Hc, alen_app; cbn [lex with_lex p']; lia).
  split; [|done]. destruct Hp as (_ & _ & _ & _ & Hp). unfold further, sound. cbn [protos with_lex with_protos token_size importer isize p'].
  rewrite alen_opened. split_and!; try done; cbn [lex with_lex p'] in *; lia.
Qed.

Lemma wp_protocol_open n p parent :
  sound n p -> 16 * (n + 1) <= INT_MAX -> in_range (protos p) parent ->
  wp (protocol_open parent) (fun id p' => further n p p' /\ in_range (protos p') id /\ alen (cursor (lex p')) < alen (cursor (lex p))) refused p.
Proof.
  intros Hp Hb Hr. destruct (aget_is_Some _ _ Hr) as [t Ht]. pose proof Hp as (Hh & Htok & Hrun & _ & Hn). pose proof (alen_nonneg (cursor (lex p))).
  destruct (word_split (cursor (lex p))) as (w & s & Hc & Hw & Hs). pose proof (Hrun [] w s Hc Hw) as Hl.
  destruct (decide (peek (cursor (spaced s (lex p))) = 123)) as [E|E].
  - apply peek_cons in E as [r E]; [|done].
    destruct (protocol_open_spec p parent t w s r Hc Hw Hs ltac:(lia) E Hh Ht ltac:(lia)) as [(k & x & _ & _ & _ & He)|(sl & _ & _ & Hh' & Ho)].
    + unfold wp. by rewrite He.
    + eapply wp_Done; [exact Ho|]. destruct (ahead_open n p parent t sl w s r Hp Hc E Hh') as [Ha Hlt]. split_and!; [done| |done].
      unfold in_range. cbn [protos with_lex with_protos]. rewrite alen_opened. pose proof (alen_nonneg (protos p)). lia.
  - unfold protocol_open. wp_step. eapply wp_Done; [apply (next_token_Done p w s); [done..|lia]|]. wp_step. apply wp_expect.
    cbn [lex with_lex]. by rewrite (proj2 (Z.eqb_neq _ _)).
Qed.

Lemma builtin_type_range name : 0 <= builtin_type 0 BUILTIN_TYPE name <= TYPE_PROTOCOL.
Proof. unfold TYPE_PROTOCOL. cbn [builtin_type BUILTIN_TYPE]. repeat case_match; unfold TYPE_PROTOCOL; lia. Qed.

Lemma wp_new_field n p proto array ty ref name :
  sound n p -> in_range (protos p) proto -> wf_field (names (protos p)) (MkField name ty array ref) ->
  wp (create_field proto array ty ref name) (fun _ p' => further n p p' /\ lex p' = lex p) refused p.
Proof.
  intros Hp Hr Hf. destruct (aget_is_Some _ _ Hr) as [x Hx]. pose proof Hp as (Hh & Ht & Hrun & Hq & Hn). unfold create_field. wp_step.
  apply (wp_get_proto _ x); [done|]. unfold set_proto. wp_step. split; [|done]. destruct (wf_heap_node _ _ _ Hh Hx) as (? & ? & ?).
  unfold further, sound. cbn [protos with_protos lex token_size importer isize]. rewrite alen_aset. split_and!; try done.
  apply (wf_heap_set _ _ x); [done..|]. split_and!; [done..|]. apply Forall_app. by repeat constructor.
Qed.

(** The type of a field: its brackets. *)
Lemma wp_brackets n p :
  sound n p ->
  wp (if bool_decide (take 2 (cursor (lex p)) = z2b <$> [91; 93]) then skip 2;; b ← expect_space; if negb b then syntax_error else skip_space else mret tt)
    (fun _ p' => further n p p' /\ protos p' = protos p) refused p.
Proof.
  intros Hp. case_bool_decide as E; [|by wp_step; split; [apply further_refl|]].
  assert (2 <= alen (cursor (lex p))) as Hl.
  { rewrite <- (take_drop 2 (cursor (lex p))), E, alen_app. pose proof (alen_nonneg (drop 2 (cursor (lex p)))). change (alen (z2b <$> [91; 93])) with 2. lia. }
  wp_step. apply (wp_skip_chars n); [done|lia|]. intros p1 Ha1 E1. repeat wp_step. unfold expect_space, current. repeat wp_step. case_match; [done|].
  apply (wp_skip_space n); [apply Ha1|]. intros p2 Ha2 E2. split; [by eapply further_trans|congruence].
Qed.

Lemma wp_parse_field n p proto name :
  sound n p -> in_range (protos p) proto -> wp (parse_field proto name) (fun _ p' => further n p p') refused p.
Proof.
  intros Hp Hr. unfold parse_field. pose proof (builtin_type_range name) as Hty. set (ty := builtin_type _ _ _) in *. cbv zeta. wp_step. wp_step. wp_step.
  eapply wp_mono; [by apply wp_brackets|]. intros [] p1 [Ha1 E1]. wp_step.
  apply wp_mono with (fun ref p' => p' = p1 /\ forall a m, wf_field (names (protos p1)) (MkField m ty a ref)).
  - unfold wf_field. cbn [f_type f_protocol]. destruct (ty =? TYPE_PROTOCOL) eqn:E.
    + repeat wp_step. pose proof Ha1 as ((Hh & _) & _). rewrite <- E1 in Hr.
      destruct (lookup_protocol_spec (S (length (protos p1))) proto name p1 Hh Hr) as (r & Hl & Hv).
      { unfold in_range in Hr. rewrite alen_length in Hr. lia. }
      eapply wp_Done; [exact Hl|]. destruct r as [k|]; [|done]. wp_step. split; [done|]. intros _ _. exists k. split; [done|].
      destruct Hv as (_ & x & Hx%aget_Some_range & _). unfold in_range in *. by rewrite alen_names.
    + wp_step. split; [done|]. intros _ _. apply Z.eqb_neq in E. unfold TYPE_PROTOCOL in *. lia.
  - intros ref p2 [-> Hf]. wp_step. apply (wp_next_token n); [apply Ha1|]. intros w p2 _ Ha2 _ E2. case_match; [done|].
    eapply wp_mono; [apply (wp_new_field n)|].
    + apply Ha2.
    + by rewrite E2, E1.
    + rewrite E2. apply Hf.
    + intros [] p3 [Ha3 _]. eapply further_trans; [done|]. by eapply further_trans.
Qed.

Lemma wp_parse_body n fuel proto p :
  16 * (n + 1) <= INT_MAX -> sound n p -> in_range (protos p) proto -> alen (cursor (lex p)) < Z.of_nat fuel ->
  wp (parse_body fuel proto) (fun _ p' => further n p p') refused p.
Proof.
  intros Hb. revert proto p. induction fuel as [|fuel IH]; intros proto p Hp Hr Hf; [pose proof (alen_nonneg (cursor (lex p))); lia|].
  cbn [parse_body]. wp_step. apply wp_expect. destruct (_ =? 125) eqn:E.
  { apply Z.eqb_eq, peek_cons in E as [r E]; [|done]. wp_step. apply (wp_skip_chars n); [done|rewrite E, alen_cons; pose proof (alen_nonneg r); lia|].
    intros p1 Ha1 _. apply (wp_skip_space n); [apply Ha1|]. intros p2 Ha2 _. by eapply further_trans. }
  wp_step. apply (wp_next_token n); [done|]. intros w p1 _ Ha1 Hl1 E1. destruct (alen w =? 0) eqn:Ew; [done|]. apply Z.eqb_neq in Ew.
  pose proof (alen_nonneg w). wp_step. apply wp_mono with (fun _ p2 => further n p1 p2).
  - assert (in_range (protos p1) proto) as Hr1 by (by rewrite E1). case_match.
    + wp_step. eapply wp_mono; [apply (wp_protocol_open n); [apply Ha1|done|done]|]. intros id p2 (Ha2 & Hr2 & Hl2).
      eapply wp_mono; [apply IH; [apply Ha2|done|lia]|]. intros [] p3 Ha3. by eapply further_trans.
    + apply wp_parse_field; [apply Ha1|done].
  - intros [] p2 Ha2. pose proof Ha2 as (_ & Hn2 & Hl2 & _). eapply wp_mono; [apply IH; [apply Ha2| |lia]|].
    + unfold in_range in *. rewrite E1 in Hn2. lia.
    + intros [] p3 Ha3. eapply further_trans; [done|]. by eapply further_trans.
Qed.

Lemma wp_lexer_execute n import p :
  16 * (n + 1) <= INT_MAX -> sound n p ->
  wp (lexer_execute import) (fun _ p' => further n p p' /\ alen (cursor (lex p')) < alen (cursor (lex p))) refused p.
Proof.
  intros Hb Hp. unfold lexer_execute. wp_step. apply (wp_next_token n); [done|]. intros w p1 _ Ha1 Hl1 E1.
  destruct (alen w =? 0) eqn:Ew; [done|]. apply Z.eqb_neq in Ew. pose proof (alen_nonneg w). case_match.
  - unfold protocol_parse. repeat wp_step. eapply wp_mono; [apply (wp_protocol_open n); [apply Ha1|done|]|].
    { destruct Ha1 as [[[? _] _] _]. unfold in_range. lia. }
    intros id p2 (Ha2 & Hr2 & Hl2). eapply wp_mono; [apply (wp_parse_body n); [done|apply Ha2|done|]|].
    { rewrite !alen_length in *. lia. }
    intros [] p3 Ha3. split; [eapply further_trans; [done|]; by eapply further_trans|]. destruct Ha3 as (_ & _ & ? & _). lia.
  - case_match; [|done]. wp_step. apply wp_expect. destruct (_ =? 34) eqn:E; [|done]. exfalso.
    apply Z.eqb_eq, peek_cons in E as [r E]; [|done]. destruct Ha1 as [(_ & _ & _ & Hq & _) _]. rewrite E in Hq. by apply Forall_cons in Hq as [? _].
Qed.

Lemma wf_root dir : wf_heap (protos (parser_init dir)).
Proof.
  cbn [protos parser_init]. split; [rewrite alen_cons, alen_nil; lia|].
  intros id x [Hx|[-> ->]]%(aget_snoc []); [by rewrite aget_None in Hx by (unfold in_range; rewrite alen_nil; lia)|].
  split_and!; [done|apply wf_create_table; rewrite alen_names, alen_cons, alen_nil; lia|constructor].
Qed.

Lemma wp_parse_begin fopen fuel dir name data :
  fopen (snprintf64 (dir ++ name)) = Some data -> runs_short data -> Forall (fun c => b2z c <> 34) data -> 16 * (alen data + 2) <= INT_MAX ->
  wp (parse_begin fopen (S fuel) name) (fun _ p => wf_heap (protos p)) refused (parser_init dir).
Proof.
  intros Hd Hr Hq Hb. cbn [parse_begin]. wp_step. wp_step. cbn [path parser_init]. rewrite Hd. set (n := alen data + 1).
  assert (sound n (with_lex (MkLexer data 1 name) (parser_init dir))) as Hp.
  { unfold sound. split_and!; [apply (wf_root dir)|done..|]. cbn [protos lex with_lex parser_init cursor]. rewrite alen_cons, alen_nil. unfold n. lia. }
  wp_step. wp_step. wp_step. apply (wp_skip_space n); [done|]. intros p1 Ha1 _. wp_step.
  apply (wp_loop (fun _ p => further n p1 p) (fun _ p => length (cursor (lex p)))).
  - intros [] p2 Ha2. wp_step. unfold eos, current. repeat wp_step. case_match eqn:E; wp_step.
    + unfold parse_end. repeat wp_step; [|by destruct Ha2 as [[? _] _]]. destruct Ha2 as (_ & _ & _ & -> & ->), Ha1 as (_ & _ & _ & -> & ->). done.
    + eapply wp_mono; [apply (wp_lexer_execute n); [unfold n; lia|apply Ha2]|]. intros [] p3 [Ha3 Hl3]. wp_step.
      split; [by eapply further_trans|]. rewrite !alen_length in Hl3. lia.
  - apply further_refl, Ha1.
  - destruct Ha1 as (_ & _ & Hl & _). cbn [cursor with_lex lex] in Hl. rewrite !alen_length in Hl. lia.
Qed.

(** ** The export *)

(** The protocols below [id] are nested at most [n] levels deep. *)
Fixpoint fits (n : nat) (h : list protocol) (id : Z) : bool :=
  match n with
  | O => false
  | S n => match aget h id with Some x => forallb (fits n h) (mjoin (slots x)) | None => false end
  end.

Lemma export_field_Done p i f : wf_field (names (protos p)) f -> exists t, export_field i f p = Done t p.
Proof.
  unfold wf_field, export_field. destruct (f_type f =? TYPE_PROTOCOL).
  - intros (r & -> & Hr). unfold in_range in Hr. rewrite alen_names in Hr. destruct (aget_is_Some (protos p) r Hr) as [x Hx].
    eexists. rewrite (bind_Done _ _ (p_name x) p p); [done|]. change (deref NullDeref (Some r)) with (mret r : Ps Z).
    rewrite (bind_Done _ _ r p p) by done. by rewrite (bind_Done _ _ _ _ _ (get_proto_Done p r x Hx)).
  - intros Hf. destruct (aget_is_Some BUILTIN_TYPE (f_type f)) as [w Hw]; [done|]. rewrite Hw. by eexists.
Qed.

Lemma export_fields_wp p l : Forall (wf_field (names (protos p))) l -> wpd (export_fields l) (fun _ p' => p' = p) p.
Proof.
  intros Hf. apply (wp_loop (fun '(l, _, _) p' => p' = p /\ Forall (wf_field (names (protos p))) l) (fun '(l, _, _) _ => length l)); [|done|cbn; lia].
  intros [[k i] t] p' [-> Hk]. destruct k as [|f k]; cbn [export_next]; [by wp_step|]. apply Forall_cons in Hk as [Hf1 Hk].
  destruct (export_field_Done p i f Hf1) as [x Hx]. wp_step. eapply wp_Done; [exact Hx|]. wp_step. split; [done|cbn; lia].
Qed.

Lemma protocol_export_wp k fuel id depth p :
  wf_heap (protos p) -> fits k (protos p) id = true -> in_range (protos p) id -> alen (protos p) - id < Z.of_nat fuel ->
  (depth + Z.of_nat k) * 2 + 2 <= stack_slots -> wpd (protocol_export fuel id depth) (fun _ p' => p' = p) p.
Proof.
  intros Hh. revert k id depth. induction fuel as [|fuel IH]; intros k id depth Hk Hr Hf Hd; [unfold in_range in Hr; lia|].
  destruct k as [|k]; [done|]. cbn [fits] in Hk. destruct (aget_is_Some _ _ Hr) as [x Hx]. rewrite Hx in Hk.
  cbn [protocol_export]. cbv zeta. repeat wp_step; [apply Z.leb_le; lia|]. apply (wp_get_proto _ x); [done|]. wp_step.
  destruct (wf_heap_node _ _ _ Hh Hx) as (_ & Hs & Hfl).
  apply (wp_loop (fun '(l, _) p' => p' = p /\ forall j, j ∈ l -> j ∈ mjoin (slots x)) (fun '(l, _) _ => length l)); [|done|cbn; lia].
  intros [l t] p' [-> Hl]. destruct l as [|j l]; cbn [export_child].
  - wp_step. destruct (fields x); [by wp_step|]. repeat wp_step; [apply Z.leb_le; lia|]. eapply wp_mono; [by apply export_fields_wp|]. intros fs p' ->. by wp_step.
  - destruct (wf_table_elem _ _ _ j Hs (Hl j ltac:(set_solver))) as (Hj & nm & Hnm%aget_Some_range). unfold in_range in *. rewrite alen_names in Hnm.
    destruct (aget_is_Some (protos p) j Hnm) as [y Hy]. wp_step. eapply wp_mono; [apply (IH k j); [|unfold in_range; lia|lia|lia]|].
    + rewrite forallb_forall in Hk. apply Hk, list_elem_of_In. set_solver.
    + intros c p' ->. wp_step. apply (wp_get_proto _ y); [done|]. wp_step. split_and!; [done|set_solver|cbn; lia].
Qed.

(** ** Both ways to count the reads of [memcmp] *)

(** [c1] runs as [c2] does, or accesses memory out of bounds. *)
Definition below {A} (c1 c2 : Ps A) : Prop := forall p, c1 p = c2 p \/ c1 p = Fault OutOfBounds.

Lemma below_refl {A} (c : Ps A) : below c c.
Proof. by left. Qed.

Lemma below_bind {A B} (c1 c2 : Ps A) (k1 k2 : A -> Ps B) : below c1 c2 -> (forall a, below (k1 a) (k2 a)) -> below (c1 ≫= k1) (c2 ≫= k2).
Proof. intros Hc Hk p. unfold mbind, M_bind. destruct (Hc p) as [-> | ->]; [|by right]. destruct (c2 p); [apply Hk|by left..]. Qed.

Lemma below_loop {B A} fuel (f1 f2 : B -> Ps (B + A)) b : (forall b, below (f1 b) (f2 b)) -> below (loop fuel f1 b) (loop fuel f2 b).
Proof.
  intros Hf. revert b. induction fuel as [|fuel IH]; intros b; [apply below_refl|]. cbn [loop]. apply below_bind; [done|].
  intros [b'|a]; [apply IH|apply below_refl].
Qed.

Create HintDb below discriminated.
#[local] Hint Constants Opaque : below.
#[local] Hint Extern 0 (below ?c ?c) => apply below_refl : below.

Ltac below :=
  repeat first
    [ solve [auto with below]
    | apply below_bind; [|intros ?]
    | apply below_loop; intros ?
    | match goal with |- below (match ?x with _ => _ end) _ => destruct x end
    | match goal with |- below (if ?x then _ else _) _ => destruct x end ].

Lemma below_query_protocol table name : below (@query_protocol strict table name) (query_protocol table name).
Proof.
  assert (forall chain, below (@query_chain strict chain name) (query_chain chain name)) as Hc.
  { induction chain as [|id chain IH]; [apply below_refl|]. cbn [query_chain]. apply below_bind; [apply below_refl|]. intros x. apply below_bind; [|intros _; below].
    intros p. unfold require. cbn. destruct (_ <=? _); [by left|by right]. }
  unfold query_protocol. below.
Qed.
#[local] Hint Resolve below_query_protocol : below.

Lemma below_protocol_open parent : below (@protocol_open strict parent) (protocol_open parent).
Proof. unfold protocol_open. below. Qed.
#[local] Hint Resolve below_protocol_open : below.

Lemma below_lookup fuel cur name : below (@lookup_protocol strict fuel cur name) (lookup_protocol fuel cur name).
Proof. revert cur. induction fuel as [|fuel IH]; intros cur; cbn [lookup_protocol]; below. Qed.
#[local] Hint Resolve below_lookup : below.

Lemma below_parse_field proto name : below (@parse_field strict proto name) (parse_field proto name).
Proof. unfold parse_field. cbv zeta. below. Qed.
#[local] Hint Resolve below_parse_field : below.

Lemma below_parse_body fuel proto : below (@parse_body strict fuel proto) (parse_body fuel proto).
Proof. revert proto. induction fuel as [|fuel IH]; intros proto; cbn [parse_body]; below. Qed.
#[local] Hint Resolve below_parse_body : below.

Lemma below_parse_begin fopen fuel name : below (@parse_begin strict fopen fuel name) (parse_begin fopen fuel name).
Proof.
  revert name. induction fuel as [|fuel IH]; intros name; cbn [parse_begin]; [apply below_refl|].
  assert (forall i1 i2, (forall n, below (i1 n) (i2 n)) -> below (@lexer_execute strict i1) (lexer_execute i2)) as Hl by (intros i1 i2 Hi; unfold lexer_execute, protocol_parse; below).
  assert (forall n, below (protocol_import (@parse_begin strict fopen fuel) n) (protocol_import (parse_begin fopen fuel) n)) as Hi by (intros n; apply IH). below.
Qed.

Lemma below_parse fopen imports dir name :
  @parse strict fopen imports dir name = parse fopen imports dir name \/ @parse strict fopen imports dir name = Fault OutOfBounds.
Proof. unfold parse. generalize (parser_init dir). fold (below (@parse_from strict fopen imports name) (parse_from fopen imports name)). unfold parse_from. pose proof (below_parse_begin fopen imports name). below. Qed.

(** C39: Any description without quotes (so without imports) whose names have fewer than 64
    characters is either refused with an error or read into a well-formed heap of protocols;
    the export of one that is nested at most 34 deep below the root ends with a table. No input
    makes the parser run forever, write out of bounds or read out of bounds, but for one place:
    when the bytes that [memcmp] is asked for behind the end of a shorter name count as read,
    the parse may end there, and is the same otherwise. *)
Theorem parse_total fopen imports dir name data :
  fopen (snprintf64 (dir ++ name)) = Some data -> runs_short data -> Forall (fun c => b2z c <> 34) data -> 16 * (alen data + 2) <= INT_MAX ->
  ((exists p, parse fopen (S imports) dir name = Raise "parse error" p) \/
   (exists p, parse_begin fopen (S imports) name (parser_init dir) = Done tt p /\ wf_heap (protos p) /\
      (fits 35 (protos p) 0 = true -> exists t, parse fopen (S imports) dir name = Done t p))) /\
  (@parse strict fopen (S imports) dir name = parse fopen (S imports) dir name \/ @parse strict fopen (S imports) dir name = Fault OutOfBounds).
Proof.
  intros Hd Hr Hq Hb. split; [|apply below_parse].
  pose proof (wp_parse_begin fopen imports dir name data Hd Hr Hq Hb) as Hw. unfold parse, parse_from, wp in *.
  destruct (parse_begin _ _ _ _) as [[] p|e p|] eqn:E; [right|left; exists p; rewrite (bind_Raise _ _ _ _ _ E); by rewrite Hw|done].
  exists p. split_and!; [done..|]. intros Hf. rewrite (bind_Done _ _ _ _ _ E). rewrite (bind_Done get _ p p p) by done.
  assert (wpd (protocol_export (S (length (protos p))) 0 0) (fun _ p' => p' = p) p) as (t & p' & Ht & ->)%wpd_Done.
  { apply (protocol_export_wp 35); [done|done|destruct Hw; unfold in_range; lia|rewrite alen_length; lia|done]. }
  rewrite (bind_Done _ _ _ _ _ Ht). by eexists.
Qed.

(** One file [m]. *)
Definition one_file (data : string) (f : bytes) : option bytes := if bool_decide (f = str "m") then Some (str data) else None.

Lemma runs_short_text s : alen s < 64 -> runs_short s.
Proof. intros Hs a w b -> _. rewrite !alen_app in Hs. pose proof (alen_nonneg a). pose proof (alen_nonneg b). lia. Qed.

Lemma parse_total_witness :
  let text := "protocol a { int[] b protocol c { string d } c e }"%string in
  fits 35 (protos (after (parse_begin (one_file text) 1 (str "m")) (parser_init []))) 0 = true /\
  ((exists p, parse (one_file text) 1 [] (str "m") = Raise "parse error" p) \/
   (exists p, parse_begin (one_file text) 1 (str "m") (parser_init []) = Done tt p /\ wf_heap (protos p) /\
      (fits 35 (protos p) 0 = true -> exists t, parse (one_file text) 1 [] (str "m") = Done t p))) /\
  (@parse strict (one_file text) 1 [] (str "m") = parse (one_file text) 1 [] (str "m") \/ @parse strict (one_file text) 1 [] (str "m") = Fault OutOfBounds).
Proof.
  intros text. split; [vm_compute; reflexivity|]. apply (parse_total (one_file text) 0 [] (str "m") (str text)).
  - vm_compute. reflexivity.
  - apply runs_short_text. vm_compute. reflexivity.
  - apply (bool_decide_unpack _). vm_compute. exact I.
  - vm_compute. discriminate.
Defined.

(** A token of 64 characters: its zero is written one byte behind the buffer. *)
Example token_overflow : parse (fun _ => Some (replicate 64 (z2b 107))) 1 [] (str "m") = Fault OutOfBounds.
Proof. vm_compute. reflexivity. Qed.

(** The two names share a chain: [memcmp] is asked for four bytes of a name of one. *)
Example memcmp_overread :
  @parse strict (one_file "protocol a { } protocol item { }") 1 [] (str "m") = Fault OutOfBounds /\
  match parse (one_file "protocol a { } protocol item { }") 1 [] (str "m") with Done _ _ => True | _ => False end.
Proof. split; [vm_compute; reflexivity|vm_compute; exact I]. Qed.

(** The start of a keyword or of a type is as good as all of it. *)
Example keyword_prefix : parse (one_file "p a { i b }") 1 [] (str "m") = parse (one_file "protocol a { int b }") 1 [] (str "m").
Proof. vm_compute. reflexivity. Qed.

Definition returns {St A} (o : outcome St A) : bool := match o with Done _ _ => true | _ => false end.

(** A name is taken by a longer one that starts with it, when the two share a chain. *)
Example name_prefix_taken :
  parse (one_file "protocol ad { }") 1 [] (str "m") <> parse (one_file "protocol ad { } protocol a { }") 1 [] (str "m") /\
  returns (parse (one_file "protocol ad { } protocol a { }") 1 [] (str "m")) = false /\
  returns (parse (one_file "protocol ae { } protocol a { }") 1 [] (str "m")) = true.
Proof. split_and!; vm_compute; [discriminate|reflexivity..]. Qed.

(** The files [x1] to [x4] and one that imports them all. *)
Definition five_files (f : bytes) : option bytes :=
  if bool_decide (f = str "m") then Some (str "import 'x1' import 'x2' import 'x3' import 'x4'" ≫= fun c => [if b2z c =? 39 then z2b 34 else c]) else Some [].

(** The fifth file that is done is written behind the array of importers. *)
Example fifth_file_overflow : parse five_files 2 [] (str "m") = Fault OutOfBounds.
Proof. vm_compute. reflexivity. Qed.

(** A file that imports itself: a file only counts as imported when it is done. *)
Definition own_import (_ : bytes) : option bytes := Some (str "import 'm'" ≫= fun c => [if b2z c =? 39 then z2b 34 else c]).

Lemma own_import_diverges fuel name p : token_size p = 64 -> importer p = [] -> parse_begin own_import fuel name p = Fault OutOfFuel.
Proof.
  intros Ht Hi. destruct p as [h i n t d l]. cbn in Ht, Hi. subst. revert name l. induction fuel as [|fuel IH]; intros name l; [done|].
  set (at_text := fun c => MkParser h [] n 64 d (MkLexer c 1 name)).
  cbn [parse_begin]. rewrite (bind_Done get _ (MkParser h [] n 64 d l) _ (MkParser h [] n 64 d l)) by done.
  unfold own_import at 1. rewrite (bind_Done (put _) _ tt _ (at_text (default [] (own_import [])))) by done.
  rewrite (bind_Done skip_space _ tt _ (at_text (default [] (own_import [])))) by (vm_compute; reflexivity). apply bind_Fault. cbn [loop]. apply bind_Fault.
  rewrite (bind_Done eos _ false _ (at_text (default [] (own_import [])))) by (vm_compute; reflexivity). apply bind_Fault. unfold lexer_execute.
  rewrite (bind_Done next_token _ (str "import") _ (at_text (z2b 34 :: str "m" ++ [z2b 34]))) by (vm_compute; reflexivity).
  change (alen (str "import") =? 0) with false. change (starts (str "import") (str "protocol")) with false. change (starts (str "import") (str "import")) with true.
  cbv beta iota. rewrite (bind_Done (expect 34) _ true _ (at_text (z2b 34 :: str "m" ++ [z2b 34]))) by done. cbn [negb].
  rewrite (bind_Done (skip 1) _ tt _ (at_text ((str "m" ++ [z2b 34])))) by (vm_compute; reflexivity).
  rewrite (bind_Done next_token _ (str "m") _ (at_text ([z2b 34]))) by (vm_compute; reflexivity).
  change (alen (str "m") =? 0) with false. cbv beta iota.
  rewrite (bind_Done (skip 1) _ tt _ (at_text ([]))) by (vm_compute; reflexivity).
  rewrite (bind_Done (has_import _) _ false _ (at_text [])) by done. apply bind_Fault, IH.
Qed.

(** Protocols nested deeper than the slots that are reserved for them. *)
Example deep_nesting_overflow :
  parse (fun _ => Some (concat (replicate 36 (str "p a{")) ++ concat (replicate 36 (str "}")))) 1 [] (str "m") = Fault UndefinedBehaviour.
Proof. vm_compute. reflexivity. Qed.
