(* ===== verification/ProtocolPrint.v ===== *)
(** * Descriptions of protocols: what is written is read back

    The abstract syntax of a description, its text, and the table that stands for it. The
    parser of ProtocolParser.v reads the text of a well-scoped description into that table.
    Tables are compared up to the order of their entries, which in the result is the order of
    the hash tables. *)

From S2P Require Import Prelude Outcome Codec LuaValue ProtocolParser.

(** ** Descriptions *)

Unset Elimination Schemes.

Inductive item :=
| IField (array : bool) (type name : bytes)
| IProto (name : bytes) (body : list item).

Set Elimination Schemes.

Definition space : bytes := str " ".
Definition newline : bytes := [z2b 10].

Fixpoint print_item (i : item) : bytes :=
  match i with
  | IField array type name => type ++ (if array then str "[]" else []) ++ space ++ name ++ newline
  | IProto name body => str "protocol" ++ space ++ name ++ str " {" ++ newline ++ concat (map print_item body) ++ str "}" ++ newline
  end.

Definition print (b : list item) : bytes := concat (map print_item b).

Fixpoint fields_of (b : list item) : list (bool * bytes * bytes) :=
  match b with
  | [] => []
  | IField array type name :: b => (array, type, name) :: fields_of b
  | IProto _ _ :: b => fields_of b
  end.

Fixpoint protos_of (b : list item) : list item :=
  match b with
  | [] => []
  | IField _ _ _ :: b => protos_of b
  | IProto name body :: b => IProto name body :: protos_of b
  end.

Definition item_name (i : item) : bytes := match i with IField _ _ name => name | IProto name _ => name end.

Fixpoint item_depth (i : item) : nat :=
  match i with IField _ _ _ => 0%nat | IProto _ body => S (foldr Nat.max 0%nat (map item_depth body)) end.

Definition depth (b : list item) : nat := foldr Nat.max 0%nat (map item_depth b).

(** ** The table of a description *)

Definition field_tree (i : Z) (f : bool * bytes * bytes) : tree :=
  let '(array, type, name) := f in
  TTable [(TStr (str "type"), TInt (builtin_type 0 BUILTIN_TYPE type)); (TStr (str "array"), TBool array); (TStr (str "type_name"), TStr type);
          (TStr (str "name"), TStr name); (TStr (str "index"), TInt i)].

Fixpoint field_entries (i : Z) (l : list (bool * bytes * bytes)) : list (tree * tree) :=
  match l with [] => [] | f :: l => (TStr (f.2), field_tree i f) :: field_entries (i + 1) l end.

Fixpoint kid_entries (f : item -> tree) (b : list item) : list (tree * tree) :=
  match b with
  | [] => []
  | i :: b => match i with IField _ _ _ => kid_entries f b | IProto name _ => (TStr name, f i) :: kid_entries f b end
  end.

Definition node_tree (file : bytes) (kids : list (tree * tree)) (fields : list (tree * tree)) : tree :=
  TTable ((match kids with [] => [] | _ => [(TStr (str "children"), TTable kids)] end) ++ [(TStr (str "file"), TStr file)] ++
          (match fields with [] => [] | _ => [(TStr (str "fields"), TTable fields)] end)).

Fixpoint item_tree (file : bytes) (i : item) : tree :=
  match i with
  | IField _ _ _ => TNil
  | IProto _ body => node_tree file (kid_entries (item_tree file) body) (field_entries 0 (fields_of body))
  end.

(** The table for a file, whose protocols are those of the root. *)
Definition file_tree (file : bytes) (b : list item) : tree :=
  TTable [(TStr (str "root"), node_tree (str "root") (kid_entries (item_tree file) b) [])].

Unset Elimination Schemes.

(** The same entries, in any order. *)
Inductive same_table : tree -> tree -> Prop :=
| same_refl t : same_table t t
| same_entries l l' k : l ≡ₚ l' -> Forall2 (fun e f => e.1 = f.1 /\ same_table e.2 f.2) l' k -> same_table (TTable l) (TTable k).

Set Elimination Schemes.

(** ** Scopes

    [all] are the names of the protocols of the description. [env] are the names declared so
    far, from the protocol at hand outwards. A type is a builtin one or the name of a protocol
    in [env] that is not the start of a keyword or of a builtin type. *)

Definition word (w : bytes) : Prop := is_word w /\ 0 < alen w < 64.

Definition prefix_free (all : list bytes) : Prop := forall a b, a ∈ all -> b ∈ all -> take (length a) b = a -> a = b.

Definition type_ok (env : list (list bytes)) (t : bytes) : Prop :=
  t ∈ BUILTIN_TYPE \/ (t ∈ mjoin env /\ starts t (str "protocol") = false /\ builtin_type 0 BUILTIN_TYPE t = TYPE_PROTOCOL).

Definition field_names (b : list item) : list bytes := snd <$> fields_of b.

Inductive well_scoped (all : list bytes) : list (list bytes) -> list item -> Prop :=
| ws_nil env : well_scoped all env []
| ws_field env array type name b :
    word type -> type_ok env type -> word name ->
    well_scoped all env b -> well_scoped all env (IField array type name :: b)
| ws_proto mine outer name body b :
    word name -> name ∈ all -> name ∉ mine -> NoDup (field_names body) ->
    well_scoped all ([] :: (name :: mine) :: outer) body -> well_scoped all ((name :: mine) :: outer) b ->
    well_scoped all (mine :: outer) (IProto name body :: b).

(** ** The words of the text *)

(** A text that starts with a name or a brace. *)
Definition solid (s : bytes) : Prop := match s with [] => True | c :: _ => ident (b2z c) = true \/ b2z c = 125 end.

Lemma ident_char c : ident c = true -> isspace c = false /\ c <> 0 /\ c <> 35 /\ c <> 91 /\ c <> 125.
Proof. unfold ident, isspace. intros H. split_and!; [lia|..]; intros ->; done. Qed.

Lemma skip_from_solid s l : solid s -> skip_from false s l = (s, l).
Proof.
  destruct s as [|c s]; [done|]. cbn [solid skip_from]. intros [H|H].
  - destruct (ident_char _ H) as (-> & H0 & H35 & _). by rewrite (proj2 (Z.eqb_neq _ _) H0), (proj2 (Z.eqb_neq _ _) H35).
  - by rewrite H.
Qed.

Lemma solid_word w s : word w -> solid (w ++ s).
Proof. intros [Hw Hl]. destruct w as [|c w]; [rewrite alen_nil in Hl; lia|]. apply Forall_cons in Hw as [Hc _]. by left. Qed.

Lemma solid_item all env i b s : well_scoped all env (i :: b) -> solid (print_item i ++ s).
Proof. intros H. inversion H; subst; cbn [print_item]; rewrite <- app_assoc; [by apply solid_word|by left]. Qed.

Lemma solid_body all env b s : well_scoped all env b -> solid s -> solid (print b ++ s).
Proof. intros H Hs. destruct b as [|i b]; [done|]. unfold print. cbn [map concat]. rewrite <- app_assoc. by eapply solid_item. Qed.

Lemma spaced_solid s l : solid s -> cursor (spaced s l) = s.
Proof. intros H. unfold spaced. by rewrite skip_from_solid. Qed.

Lemma spaced_space s l : solid s -> cursor (spaced (space ++ s) l) = s.
Proof. intros H. unfold spaced. cbn. by rewrite skip_from_solid. Qed.

Lemma spaced_newline s l : solid s -> cursor (spaced (newline ++ s) l) = s.
Proof. intros H. unfold spaced. cbn. by rewrite skip_from_solid. Qed.

(** ** Related lists *)

Section related.
Context {A B : Type}.
Implicit Types (R S : A -> B -> Prop) (l : list A) (k : list B).

Lemma related_l R l k x : Forall2 R l k -> x ∈ l -> exists y, y ∈ k /\ R x y.
Proof. induction 1 as [|a b l k Hab H IH]; [set_solver|]. intros [->|Hx]%elem_of_cons; [exists b; set_solver|]. destruct (IH Hx) as (y & ? & ?). exists y. set_solver. Qed.

Lemma related_r R l k y : Forall2 R l k -> y ∈ k -> exists x, x ∈ l /\ R x y.
Proof. induction 1 as [|a b l k Hab H IH]; [set_solver|]. intros [->|Hy]%elem_of_cons; [exists a; set_solver|]. destruct (IH Hy) as (x & ? & ?). exists x. set_solver. Qed.

Lemma related_impl R S l k : Forall2 R l k -> (forall x y, x ∈ l -> y ∈ k -> R x y -> S x y) -> Forall2 S l k.
Proof.
  induction 1 as [|a b l k Hab H IH]; intros HS; constructor; [apply HS; [set_solver|set_solver|done]|].
  apply IH. intros x y Hx Hy. apply HS; set_solver.
Qed.
End related.

(** ** Protocols on the heap *)

Definition field_holds (ns : list bytes) (f : field) (d : bool * bytes * bytes) : Prop :=
  let '(array, type, name) := d in
  f_array f = array /\ f_name f = name /\ f_type f = builtin_type 0 BUILTIN_TYPE type /\
  (f_type f = TYPE_PROTOCOL -> exists k, f_protocol f = Some k /\ aget ns k = Some type).

Unset Elimination Schemes.

(** The node [id] and those below it are the protocol [i]. *)
Inductive holds (h : list protocol) (file : bytes) : item -> Z -> Prop :=
| holds_proto name body id x kids :
    aget h id = Some x -> p_name x = name -> p_file x = file -> Forall2 (field_holds (names h)) (fields x) (fields_of body) ->
    mjoin (slots x) ≡ₚ kids -> Forall (fun k => id < k) kids -> Forall2 (holds h file) (protos_of body) kids ->
    holds h file (IProto name body) id.

Set Elimination Schemes.

(** The node [x] at [id] has the fields and protocols [b]. *)
Definition content (h : list protocol) (file : bytes) (id : Z) (x : protocol) (b : list item) : Prop :=
  Forall2 (field_holds (names h)) (fields x) (fields_of b) /\
  exists kids, mjoin (slots x) ≡ₚ kids /\ Forall (fun k => id < k) kids /\ Forall2 (holds h file) (protos_of b) kids.

Lemma holds_content h file name b id x :
  aget h id = Some x -> p_name x = name -> p_file x = file -> content h file id x b -> holds h file (IProto name b) id.
Proof. intros ? ? ? (? & kids & ? & ? & ?). by apply (holds_proto h file name b id x kids). Qed.

Lemma fields_of_app a b : fields_of (a ++ b) = fields_of a ++ fields_of b.
Proof. induction a as [|[]]; cbn; congruence. Qed.

Lemma protos_of_app a b : protos_of (a ++ b) = protos_of a ++ protos_of b.
Proof. induction a as [|[]]; cbn; congruence. Qed.

Lemma aget_names_grow (ns l : list bytes) k t : aget ns k = Some t -> aget (ns ++ l) k = Some t.
Proof. intros H. rewrite aget_app_l; [done|]. by apply aget_Some_range in H as [_ ?]. Qed.

Lemma field_holds_grow ns l f d : field_holds ns f d -> field_holds (ns ++ l) f d.
Proof.
  destruct d as [[a t] n]. intros (? & ? & ? & H). split_and!; try done. intros E. destruct (H E) as (k & ? & ?). exists k. split; [done|]. by apply aget_names_grow.
Qed.

Lemma fields_grow ns l fs ds : Forall2 (field_holds ns) fs ds -> Forall2 (field_holds (ns ++ l)) fs ds.
Proof. intros H. eapply Forall2_impl; [exact H|]. intros f d. apply field_holds_grow. Qed.

(** What is below a node does not change when the nodes from there on do not. *)
Lemma holds_frame h h' l file i id :
  names h' = names h ++ l -> (forall j, id <= j < alen h -> aget h' j = aget h j) -> holds h file i id -> holds h' file i id.
Proof.
  intros Hn. remember (Z.to_nat (alen h - id)) as n eqn:E. revert i id E. induction n as [n IH] using lt_wf_ind. intros i id E Hf H.
  destruct H as [name body id x kids Hx ? ? Hfs Hk Hlt Hb]. pose proof (aget_Some_range _ _ _ Hx) as Hr. unfold in_range in Hr.
  apply (holds_proto h' file name body id x kids); try done; [by rewrite Hf by lia|rewrite Hn; by apply fields_grow|].
  eapply related_impl; [exact Hb|]. intros i k _ Hin Hi. rewrite Forall_forall in Hlt. specialize (Hlt k Hin).
  apply (IH (Z.to_nat (alen h - k))); [lia|done| |done]. intros j Hj. apply Hf. lia.
Qed.

Lemma content_frame h h' l file id x b :
  names h' = names h ++ l -> (forall j, id < j < alen h -> aget h' j = aget h j) -> content h file id x b -> content h' file id x b.
Proof.
  intros Hn Hf (Hfs & kids & Hk & Hlt & Hb). split; [rewrite Hn; by apply fields_grow|]. exists kids. split_and!; [done..|].
  eapply related_impl; [exact Hb|]. intros i k _ Hin Hi. rewrite Forall_forall in Hlt. specialize (Hlt k Hin).
  eapply holds_frame; [done| |done]. intros j Hj. apply Hf. lia.
Qed.

(** ** The scopes on the heap *)

(** The names in the table of [x]. *)
Definition child_names (h : list protocol) (x : protocol) (ns : list bytes) : Prop :=
  (forall k, k ∈ mjoin (slots x) -> in_range h k) /\
  forall n, n ∈ ns <-> exists k, k ∈ mjoin (slots x) /\ aget (names h) k = Some n.

Inductive env_at (h : list protocol) : Z -> list (list bytes) -> Prop :=
| env_root cur x ns : aget h cur = Some x -> p_parent x = None -> child_names h x ns -> env_at h cur [ns]
| env_in cur x q ns env :
    aget h cur = Some x -> p_parent x = Some q -> q < cur -> child_names h x ns -> env_at h q env -> env_at h cur (ns :: env).

Lemma child_names_grow h h' l x ns : names h' = names h ++ l -> child_names h x ns -> child_names h' x ns.
Proof.
  intros Hn [Hr Hc]. split.
  - intros k Hk. specialize (Hr k Hk). unfold in_range in *. rewrite <- (alen_names h'), Hn, alen_app, alen_names. pose proof (alen_nonneg l). lia.
  - intros n. rewrite Hc. split; intros (k & Hk & E); exists k; (split; [done|]); rewrite Hn in *; [by apply aget_names_grow|].
    rewrite aget_app_l in E; [done|]. rewrite alen_names. by apply Hr.
Qed.

Lemma env_frame h h' l cur env :
  names h' = names h ++ l -> (forall j, j <= cur -> aget h' j = aget h j) -> env_at h cur env -> env_at h' cur env.
Proof.
  intros Hn Hf He. induction He as [cur x ns Hx Hp Hc|cur x q ns env Hx Hp Hlt Hc He IH].
  - apply (env_root h' cur x); [by rewrite Hf by lia|done|by eapply child_names_grow].
  - apply (env_in h' cur x q); [by rewrite Hf by lia|done|done|by eapply child_names_grow|]. apply IH. intros j Hj. apply Hf. lia.
Qed.

Lemma env_visible h cur env t : env_at h cur env -> t ∈ mjoin env -> exists k, visible h cur k /\ aget (names h) k = Some t.
Proof.
  intros He. induction He as [cur x ns Hx Hp [_ Hc]|cur x q ns env Hx Hp Hlt [_ Hc] He IH]; cbn; [rewrite app_nil_r|rewrite elem_of_app].
  - intros (k & ? & ?)%Hc. exists k. split; [by eapply visible_here|done].
  - intros [(k & ? & ?)%Hc|Ht]; [exists k; split; [by eapply visible_here|done]|]. destruct (IH Ht) as (k & ? & ?). exists k. split; [by eapply visible_around|done].
Qed.

Lemma visible_env h cur env k n : env_at h cur env -> visible h cur k -> aget (names h) k = Some n -> n ∈ mjoin env.
Proof.
  intros He. revert k n. induction He as [cur x ns Hx Hp [_ Hc]|cur x q ns env Hx Hp Hlt [_ Hc] He IH]; intros k n Hv Hn; cbn; [rewrite app_nil_r|rewrite elem_of_app].
  - inversion Hv; simplify_eq. apply Hc. eauto.
  - inversion Hv; simplify_eq; [left; apply Hc; eauto|right; by eapply IH].
Qed.

(** A type in scope is found, under its own name. *)
Lemma lookup_in_scope all p cur env t fuel :
  wf_heap (protos p) -> env_at (protos p) cur env -> prefix_free all -> (forall n, n ∈ mjoin env -> n ∈ all) -> t ∈ mjoin env ->
  in_range (protos p) cur -> (Z.to_nat cur < fuel)%nat ->
  exists k, lookup_protocol fuel cur t p = Done (Some k) p /\ aget (names (protos p)) k = Some t.
Proof.
  intros Hh He Hpf Hall Ht Hr Hf. destruct (lookup_protocol_spec fuel cur t p Hh Hr Hf) as (r & Hl & Hq). destruct r as [k|].
  - exists k. split; [done|]. destruct Hq as (Hv & x & Hx & E). assert (aget (names (protos p)) k = Some (p_name x)) as Hn by (by rewrite aget_names, Hx).
    rewrite Hn. f_equal. symmetry. apply Hpf; [by apply Hall| |done]. apply Hall. by eapply visible_env.
  - destruct (env_visible _ _ _ _ He Ht) as (k & Hv & Hn). by destruct (Hq k Hv).
Qed.

(** ** The text of a body *)

Lemma expect_Done ch p : expect ch p = Done (peek (cursor (lex p)) =? ch) p.
Proof. done. Qed.

Lemma expect_word ch p w s : cursor (lex p) = w ++ s -> word w -> ident ch = false -> expect ch p = Done false p.
Proof.
  intros Hc [Hw Hl] Hch. rewrite expect_Done, Hc. destruct w as [|c w]; [rewrite alen_nil in Hl; lia|]. apply Forall_cons in Hw as [Hw _].
  cbn [app peek]. by rewrite (proj2 (Z.eqb_neq _ _)) by (intros E; by rewrite E, Hch in Hw).
Qed.

Lemma next_word p w s : cursor (lex p) = w ++ s -> word w -> ident (peek s) = false -> 64 <= token_size p ->
  next_token p = Done w (with_lex (spaced s (lex p)) p).
Proof. intros Hc [Hw Hl] Hs Ht. apply next_token_Done; [done..|]. lia. Qed.

Definition bracketed (a : bool) : bytes := if a then str "[]" ++ space else [].

Lemma brackets_Done p a name s :
  cursor (lex p) = bracketed a ++ name ++ s -> word name ->
  exists l, (if bool_decide (take 2 (cursor (lex p)) = z2b <$> [91; 93]) then skip 2;; b ← expect_space; if negb b then syntax_error else skip_space else mret tt) p
      = Done tt (with_lex l p) /\ bool_decide (take 2 (cursor (lex p)) = z2b <$> [91; 93]) = a /\ cursor l = name ++ s /\ file l = file (lex p).
Proof.
  intros Hc Hn. rewrite Hc. destruct a.
  - rewrite bool_decide_eq_true_2 by done. set (p1 := with_lex (with_cursor (space ++ name ++ s) (lex p)) p).
    rewrite (bind_Done (skip 2) _ tt _ p1).
    + rewrite (bind_Done expect_space _ true p1 p1) by done. cbn [negb]. rewrite skip_space_Done. eexists. split_and!; [done|done| |done].
      apply spaced_space. by apply solid_word.
    + unfold skip, eos, current. cbv [get mbind M_bind mret M_ret]. rewrite Hc. change (peek _ =? 0) with false. cbv beta iota. rewrite Hc.
      unfold require. rewrite (proj2 (Z.leb_le _ _)); [done|]. cbn [bracketed]. rewrite !alen_app. change (alen (str "[]")) with 2.
      pose proof (alen_nonneg space). pose proof (alen_nonneg name). pose proof (alen_nonneg s). lia.
  - rewrite bool_decide_eq_false_2.
    + exists (lex p). split_and!; [by destruct p|done|done|done].
    + destruct Hn as [Hn Hl]. cbn [bracketed app]. destruct name as [|c name]; [rewrite alen_nil in Hl; lia|]. apply Forall_cons in Hn as [Hi _].
      intros E. injection E as E _. by rewrite E in Hi.
Qed.

Lemma builtin_name t : t ∈ BUILTIN_TYPE ->
  starts t (str "protocol") = false /\ builtin_type 0 BUILTIN_TYPE t <> TYPE_PROTOCOL /\ aget BUILTIN_TYPE (builtin_type 0 BUILTIN_TYPE t) = Some t.
Proof.
  intros H. repeat (apply elem_of_cons in H as [->|H]; [split_and!; [vm_compute; reflexivity|vm_compute; discriminate|vm_compute; reflexivity]|]). set_solver.
Qed.

Lemma type_ok_word env t : type_ok env t -> starts t (str "protocol") = false.
Proof. intros [H%builtin_name|(_ & ? & _)]; [apply H|done]. Qed.

Definition add_field (x : protocol) (f : field) : protocol := MkProtocol (p_parent x) (slots x) (p_file x) (p_name x) (fields x ++ [f]).

(** A field behind its type. *)
Lemma parse_field_Done all p proto x env a t name s :
  cursor (lex p) = bracketed a ++ name ++ newline ++ s -> word name -> solid s -> 64 <= token_size p ->
  wf_heap (protos p) -> aget (protos p) proto = Some x -> env_at (protos p) proto env -> prefix_free all -> (forall n, n ∈ mjoin env -> n ∈ all) -> type_ok env t ->
  exists l f, parse_field proto t p = Done tt (with_lex l (with_protos (aset (protos p) proto (add_field x f)) p)) /\ cursor l = s /\ file l = file (lex p) /\
    field_holds (names (protos p)) f (a, t, name) /\ wf_field (names (protos p)) f.
Proof.
  intros Hc Hn Hs Htok Hh Hx He Hpf Hall Ht. destruct (brackets_Done p a name (newline ++ s) Hc Hn) as (l & Hb & Ha & Hl & Hfile).
  unfold parse_field. cbv zeta. rewrite (bind_Done get _ p p p) by done. rewrite (bind_Done _ _ _ _ _ Hb), Ha. set (p1 := with_lex l p).
  assert (exists r, (if builtin_type 0 BUILTIN_TYPE t =? TYPE_PROTOCOL
      then p ← get; r ← lookup_protocol (S (length (protos p))) proto t; match r with Some id => mret (Some id) | None => syntax_error end else mret None) p1 = Done r p1 /\
      (builtin_type 0 BUILTIN_TYPE t = TYPE_PROTOCOL -> exists k, r = Some k /\ aget (names (protos p)) k = Some t)) as (r & Hr & Hk).
  { destruct (builtin_type 0 BUILTIN_TYPE t =? TYPE_PROTOCOL) eqn:E; [|exists None; split; [done|by intros E'; rewrite E' in E]]. apply Z.eqb_eq in E. destruct Ht as [Ht%builtin_name|(Ht & _ & _)]; [by destruct Ht as (_ & ? & _)|].
    rewrite (bind_Done get _ p1 p1 p1) by done. pose proof (aget_Some_range _ _ _ Hx) as Hr.
    destruct (lookup_in_scope all p1 proto env t (S (length (protos p1))) Hh He Hpf Hall Ht Hr) as (k & Hk & Hnm); [unfold in_range in Hr; rewrite alen_length in Hr; cbn; lia|].
    exists (Some k). rewrite (bind_Done _ _ _ _ _ Hk). split; [done|eauto]. }
  rewrite (bind_Done _ _ _ _ _ Hr). rewrite (bind_Done _ _ _ _ _ (next_word p1 name (newline ++ s) Hl Hn ltac:(done) Htok)).
  rewrite (proj2 (Z.eqb_neq _ _)) by (destruct Hn; lia). unfold create_field. set (p2 := with_lex _ p1).
  rewrite (bind_Done _ _ _ _ _ (get_proto_Done p2 proto x Hx)). exists (spaced (newline ++ s) l), (MkField name (builtin_type 0 BUILTIN_TYPE t) a r).
  split_and!; [done|by apply spaced_newline|done| |].
  - split_and!; [done..|]. cbn [f_type f_protocol]. intros E. destruct (Hk E) as (k & -> & ?). eauto.
  - unfold wf_field. cbn [f_type f_protocol]. pose proof (builtin_type_range t) as Hty. case_match eqn:E.
    + apply Z.eqb_eq in E. destruct (Hk E) as (k & -> & Hnm%aget_Some_range). eauto.
    + apply Z.eqb_neq in E. unfold TYPE_PROTOCOL in *. lia.
Qed.

(** ** Opening a protocol *)

Lemma opened_parent h parent x sl file w : aget h parent = Some x -> aget (opened h parent x sl file w) parent = Some (set_slots sl x).
Proof.
  intros Hx%aget_Some_range. unfold opened. apply aget_aset_eq. unfold in_range in *. rewrite alen_snoc. lia.
Qed.

Lemma opened_new h parent x sl file w :
  aget h parent = Some x -> aget (opened h parent x sl file w) (alen h) = Some (MkProtocol (Some parent) (create_table 4) file w []).
Proof.
  intros Hx%aget_Some_range. unfold opened, in_range in *. rewrite aget_aset_ne by lia. rewrite aget_app_r, Z.sub_diag by lia. apply aget_cons_0.
Qed.

Lemma opened_other h parent x sl file w j : aget h parent = Some x -> j <> parent -> j < alen h -> aget (opened h parent x sl file w) j = aget h j.
Proof.
  intros Hx%aget_Some_range ? ?. unfold opened, in_range in *. rewrite aget_aset_ne by lia. by rewrite aget_app_l.
Qed.

Lemma env_opened h parent x sl file w mine outer :
  aget h parent = Some x -> env_at h parent (mine :: outer) -> mjoin sl ≡ₚ alen h :: mjoin (slots x) ->
  let h' := opened h parent x sl file w in env_at h' parent ((w :: mine) :: outer) /\ env_at h' (alen h) ([] :: (w :: mine) :: outer).
Proof.
  intros Hx He Hsl h'. pose proof (names_opened h parent x sl file w Hx) as Hn. fold h' in Hn.
  pose proof (aget_Some_range _ _ _ Hx) as Hr. unfold in_range in Hr.
  assert (forall ns, child_names h x ns -> child_names h' (set_slots sl x) (w :: ns)) as Hc.
  { intros ns Hns. destruct (child_names_grow _ _ _ _ _ Hn Hns) as [Hr' Hc]. split; cbn [slots set_slots].
    - intros k. rewrite Hsl. intros [->|Hk]%elem_of_cons; [|by apply Hr']. unfold in_range, h'. rewrite alen_opened. lia.
    - intros n. rewrite elem_of_cons, Hc. assert (aget (names h') (alen h) = Some w) as Hw.
      { rewrite Hn, <- (alen_names h), aget_app_r, Z.sub_diag by lia. apply aget_cons_0. }
      split.
      + intros [->|(k & Hk & ?)]; [exists (alen h); split; [rewrite Hsl; set_solver|done]|exists k; split; [rewrite Hsl; set_solver|done]].
      + intros (k & Hk & Hnk). rewrite Hsl in Hk. apply elem_of_cons in Hk as [->|Hk]; [left; congruence|right; eauto]. }
  assert (env_at h' parent ((w :: mine) :: outer)) as He'.
  { inversion He as [cur y ns Hy Hp Hns|cur y q ns env Hy Hp Hlt Hns Hq]; subst; simplify_eq.
    - apply (env_root h' parent (set_slots sl x)); [by apply opened_parent|done|by apply Hc].
    - apply (env_in h' parent (set_slots sl x) q); [by apply opened_parent|done|done|by apply Hc|].
      eapply env_frame; [done| |done]. intros j Hj. apply opened_other; [done|lia|lia]. }
  split; [done|]. apply (env_in h' (alen h) _ parent [] _ (opened_new h parent x sl file w Hx)); [done|lia| |done].
  split; cbn [slots]; rewrite join_create_table; [set_solver|]. intros n. split; [set_solver|]. intros (k & Hk & _). set_solver.
Qed.

(** The scope of a node is what it has. *)
Lemma content_names h file id x b : content h file id x b -> child_names h x (item_name <$> protos_of b).
Proof.
  intros (_ & kids & Hk & _ & Hb).
  assert (forall k, k ∈ kids -> exists i, i ∈ protos_of b /\ aget (names h) k = Some (item_name i)) as H1.
  { intros k Hin. destruct (related_r _ _ _ _ Hb Hin) as (i & Hi & Hh). exists i. split; [done|]. destruct Hh as [name body id' y ? Hy <- _ _ _ _ _].
    by rewrite aget_names, Hy. }
  split.
  - intros k Hin. rewrite Hk in Hin. destruct (H1 k Hin) as (i & _ & Hn%aget_Some_range). unfold in_range in *. by rewrite alen_names in Hn.
  - intros n. rewrite list_elem_of_fmap. setoid_rewrite Hk. split.
    + intros (i & -> & Hi). destruct (related_l _ _ _ _ Hb Hi) as (k & Hin & Hh). exists k. split; [done|].
      destruct Hh as [name body id' y ? Hy <- _ _ _ _ _]. by rewrite aget_names, Hy.
    + intros (k & Hin & Hn). destruct (H1 k Hin) as (i & Hi & Hn'). exists i. split; [congruence|done].
Qed.

(** ** The text of a protocol is read into the heap *)

Section read.
Context (all : list bytes) (size : Z).
Hypothesis (Hall : prefix_free all) (Hsize : 16 * (size + 1) <= INT_MAX).

Definition room (p : parser_context) : Prop := wf_heap (protos p) /\ 64 <= token_size p /\ alen (protos p) + alen (cursor (lex p)) <= size.

(** The heap after the body of [proto] was read: only [proto] and new nodes have changed. *)
Definition extends (h h' : list protocol) (proto : Z) (x x' : protocol) : Prop :=
  wf_heap h' /\ (exists l, names h' = names h ++ l) /\ (forall j, j <> proto -> j < alen h -> aget h' j = aget h j) /\
  aget h' proto = Some x' /\ p_parent x' = p_parent x /\ p_name x' = p_name x /\ p_file x' = p_file x.

Lemma extends_trans h h1 h2 proto x x1 x2 : extends h h1 proto x x1 -> extends h1 h2 proto x1 x2 -> extends h h2 proto x x2.
Proof.
  intros (_ & [l Hl] & Hf1 & _ & ? & ? & ?) (? & [l' Hl'] & Hf2 & ? & ? & ? & ?). unfold extends. split_and!; try congruence.
  - exists (l ++ l'). by rewrite Hl', Hl, app_assoc.
  - intros j Hj Hlt. rewrite Hf2; [by apply Hf1|done|]. rewrite <- (alen_names h1), Hl, alen_app, alen_names. pose proof (alen_nonneg l). lia.
Qed.

(** [m] reads the text up to [rest] and adds [b] to what [proto] has. *)
Definition adds (m : Ps unit) (p : parser_context) (proto : Z) (x : protocol) (done b : list item) (rest : bytes) : Prop :=
  exists h' l' x', m p = Done tt (with_lex l' (with_protos h' p)) /\ cursor l' = rest /\ file l' = file (lex p) /\
    extends (protos p) h' proto x x' /\ alen h' + alen rest <= size /\ content h' (file (lex p)) proto x' (done ++ b).

Definition reads_body (env : list (list bytes)) (b : list item) : Prop := forall p proto x done fuel rest,
  room p -> aget (protos p) proto = Some x -> content (protos p) (file (lex p)) proto x done -> env_at (protos p) proto env -> (forall n, n ∈ mjoin env -> n ∈ all) ->
  cursor (lex p) = print b ++ str "}" ++ newline ++ rest -> solid rest -> alen (cursor (lex p)) < Z.of_nat fuel ->
  adds (parse_body fuel proto) p proto x done b rest.

Lemma reads_nil env : reads_body env [].
Proof.
  intros p proto x done fuel rest (Hh & Ht & Hn) Hx Hcon He _ Hc Hs Hf. destruct fuel as [|fuel]; [pose proof (alen_nonneg (cursor (lex p))); lia|]. unfold adds. cbn [parse_body].
  rewrite (bind_Done (expect 125) _ true p p) by (rewrite expect_Done, Hc; done).
  rewrite (bind_Done (skip 1) _ tt p (with_lex (with_cursor (newline ++ rest) (lex p)) p)) by (by apply (skip_one p (z2b 125) (newline ++ rest) Hc)). rewrite skip_space_Done.
  exists (protos p), (spaced (newline ++ rest) (with_cursor (newline ++ rest) (lex p))), x. rewrite app_nil_r. split_and!; try done.
  - by apply spaced_newline.
  - split_and!; try done. exists []. by rewrite app_nil_r.
  - rewrite Hc, !alen_app in Hn. pose proof (alen_nonneg (str "}")). pose proof (alen_nonneg newline). pose proof (alen_nonneg (print [])). lia.
Qed.

(** The steps of [m] are followed by those of [m']. *)
Lemma adds_after m m' p proto x done a b s rest :
  adds m p proto x done a s ->
  (forall h' l' x', cursor l' = s -> file l' = file (lex p) -> extends (protos p) h' proto x x' -> alen h' + alen s <= size ->
     content h' (file (lex p)) proto x' (done ++ a) -> adds m' (with_lex l' (with_protos h' p)) proto x' (done ++ a) b rest) ->
  adds (m;; m') p proto x done (a ++ b) rest.
Proof.
  intros (h1 & l1 & x1 & H1 & Hc1 & Hf1 & He1 & Hn1 & Hcon1) Hm'.
  destruct (Hm' h1 l1 x1 Hc1 Hf1 He1 Hn1 Hcon1) as (h2 & l2 & x2 & H2 & Hc2 & Hf2 & He2 & Hn2 & Hcon2).
  cbn [lex with_lex] in Hf2, Hcon2. rewrite Hf1 in Hf2, Hcon2.
  exists h2, l2, x2. rewrite (bind_Done _ _ _ _ _ H1). split_and!; [exact H2|done|done|by eapply extends_trans|done|].
  by rewrite app_assoc.
Qed.

Lemma content_field h file proto x done f a t name :
  content h file proto x done -> field_holds (names h) f (a, t, name) -> content h file proto (add_field x f) (done ++ [IField a t name]).
Proof.
  intros (Hf & kids & Hk & Hlt & Hb) Hh. split; [rewrite fields_of_app; apply Forall2_app; [done|constructor; [done|constructor]]|].
  exists kids. split_and!; [done..|]. rewrite protos_of_app. cbn [protos_of]. by rewrite app_nil_r.
Qed.

(** A field, behind the word of its type. *)
Lemma adds_field p proto x done env a t name s :
  room p -> aget (protos p) proto = Some x -> content (protos p) (file (lex p)) proto x done -> env_at (protos p) proto env -> (forall n, n ∈ mjoin env -> n ∈ all) ->
  cursor (lex p) = bracketed a ++ name ++ newline ++ s -> word name -> solid s -> type_ok env t ->
  adds (parse_field proto t) p proto x done [IField a t name] s.
Proof.
  intros (Hh & Ht & Hn) Hx Hcon He Henv Hc Hw Hs Hty.
  destruct (parse_field_Done all p proto x env a t name s Hc Hw Hs Ht Hh Hx He Hall Henv Hty) as (l & f & Hp & Hl & Hf & Hfh & Hwf).
  pose proof (aget_Some_range _ _ _ Hx) as Hr. pose proof (names_set (protos p) proto x (add_field x f) Hx eq_refl) as Hns.
  exists (aset (protos p) proto (add_field x f)), l, (add_field x f). split_and!; [done..| | |].
  - split_and!; [|exists []; by rewrite Hns, app_nil_r| |by apply aget_aset_eq|done..].
    + destruct (wf_heap_node _ _ _ Hh Hx) as (? & ? & ?). apply (wf_heap_set _ _ x); [done..|]. split_and!; [done..|]. apply Forall_app. by repeat constructor.
    + intros j Hj _. apply aget_aset_ne; [apply Hr|done].
  - rewrite alen_aset. rewrite Hc, !alen_app in Hn. pose proof (alen_nonneg (bracketed a)). pose proof (alen_nonneg name). pose proof (alen_nonneg newline). lia.
  - apply content_field; [|by rewrite Hns]. eapply (content_frame (protos p) _ []); [by rewrite Hns, app_nil_r| |done].
    intros j Hj. apply aget_aset_ne; [apply Hr|lia].
Qed.

(** The scopes after [b] was added. *)
Lemma env_after h h' file proto x x' mine outer done b :
  env_at h proto (mine :: outer) -> aget h proto = Some x -> content h file proto x done -> extends h h' proto x x' ->
  content h' file proto x' (done ++ b) -> env_at h' proto (((item_name <$> protos_of b) ++ mine) :: outer).
Proof.
  intros He Hx Hc (_ & [l Hl] & Hf & Hx' & Hp & _) Hc'. pose proof (aget_Some_range _ _ _ Hx) as Hr. unfold in_range in Hr.
  assert (forall ns, child_names h x ns -> child_names h' x' ((item_name <$> protos_of b) ++ ns)) as Hn.
  { intros ns [_ Hns]. apply content_names in Hc as [_ Hc], Hc' as [Hr' Hc']. split; [done|]. intros n. rewrite <- Hc', protos_of_app, fmap_app, !elem_of_app.
    rewrite (Hc n), <- (Hns n). tauto. }
  inversion He as [cur y ns Hy Hp' Hns|cur y q ns env Hy Hp' Hlt Hns Hq]; subst; simplify_eq.
  - apply (env_root h' proto x'); [done|congruence|by apply Hn].
  - apply (env_in h' proto x' q); [done|congruence|done|by apply Hn|]. eapply env_frame; [done| |done]. intros j Hj. apply Hf; lia.
Qed.

(** The new node is closed. *)
Lemma content_proto h h2 file proto x sl done name body y' :
  content h file proto x done -> aget h proto = Some x -> mjoin sl ≡ₚ alen h :: mjoin (slots x) ->
  extends (opened h proto x sl file name) h2 (alen h) (MkProtocol (Some proto) (create_table 4) file name []) y' -> content h2 file (alen h) y' body ->
  extends h h2 proto x (set_slots sl x) /\ content h2 file proto (set_slots sl x) (done ++ [IProto name body]).
Proof.
  intros (Hfs & kids & Hk & Hlt & Hb) Hx Hsl (Hw & [l Hl] & Hf & Hy' & _ & Hny & Hfy) Hc. rewrite alen_opened in Hf. rewrite (names_opened _ _ _ _ _ _ Hx), <- app_assoc in Hl.
  pose proof (aget_Some_range _ _ _ Hx) as Hr. unfold in_range in Hr.
  assert (forall j, j <> proto -> j < alen h -> aget h2 j = aget h j) as Hfr.
  { intros j Hj Hjl. rewrite Hf by lia. by apply opened_other. }
  split; [split_and!; try done; [by exists ([name] ++ l)|rewrite Hf by lia; by apply opened_parent]|].
  split; [rewrite fields_of_app; cbn [fields_of fields set_slots]; rewrite app_nil_r, Hl; by apply fields_grow|].
  exists (kids ++ [alen h]). split_and!.
  - cbn [slots set_slots]. by rewrite Hsl, Hk, Permutation_app_comm.
  - apply Forall_app. split; [done|]. constructor; [lia|constructor].
  - rewrite protos_of_app. apply Forall2_app; [|constructor; [by apply (holds_content h2 file name body _ y')|constructor]].
    eapply related_impl; [exact Hb|]. intros i k _ Hin Hi. rewrite Forall_forall in Hlt. specialize (Hlt k Hin).
    eapply holds_frame; [exact Hl| |done]. intros j Hj. apply Hfr; lia.
Qed.

(** A protocol, behind the keyword. *)
Lemma adds_proto p proto x done mine outer name body fuel rest :
  room p -> aget (protos p) proto = Some x -> content (protos p) (file (lex p)) proto x done -> env_at (protos p) proto (mine :: outer) ->
  (forall n, n ∈ mjoin (mine :: outer) -> n ∈ all) -> word name -> name ∈ all -> name ∉ mine ->
  well_scoped all ([] :: (name :: mine) :: outer) body -> reads_body ([] :: (name :: mine) :: outer) body ->
  cursor (lex p) = name ++ str " {" ++ newline ++ print body ++ str "}" ++ newline ++ rest -> solid rest -> alen (cursor (lex p)) < Z.of_nat fuel ->
  adds (child ← protocol_open proto; parse_body fuel child) p proto x done [IProto name body] rest.
Proof.
  intros (Hh & Ht & Hn) Hx Hcon He Henv [Hw Hwl] Hin Hmine Hws Hbody Hc Hs Hf. set (tail := print body ++ _) in *.
  assert (solid tail) as Htail by (by apply (solid_body all _ body _ Hws); right).
  assert (alen (cursor (lex p)) = alen name + 3 + alen tail) as Hlen.
  { rewrite Hc, !alen_app. change (alen (str " {")) with 2. change (alen newline) with 1. lia. }
  pose proof (alen_nonneg name). pose proof (alen_nonneg tail).
  destruct (protocol_open_spec p proto x name (str " {" ++ newline ++ tail) (newline ++ tail) Hc Hw ltac:(done) ltac:(lia) ltac:(done) Hh Hx ltac:(lia))
    as [(k & y & Hk & Hy & Hpre & _)|(sl & _ & Hsl & Hh1 & Ho)].
  { exfalso. apply Hmine. destruct (content_names _ _ _ _ _ Hcon) as [_ Hcn].
    assert (p_name y ∈ mine) as Hym.
    { inversion He as [cur z ns Hz Hp' [_ Hns]|cur z q ns env Hz Hp' Hlt [_ Hns] Hq]; subst; simplify_eq; apply Hns; exists k; by rewrite aget_names, Hy. }
    replace name with (p_name y); [done|]. symmetry. apply Hall; [done| |done]. apply Henv. cbn. set_solver. }
  destruct (env_opened _ _ _ sl (file (lex p)) name _ _ Hx He Hsl) as [_ He1]. set (h1 := opened _ _ _ _ _ _) in *.
  set (l1 := spaced (newline ++ tail) _) in *. pose (p1 := with_lex l1 (with_protos h1 p)).
  assert (cursor l1 = tail) as Hc1 by (by apply spaced_newline). assert (alen h1 = alen (protos p) + 1) as Hl1 by apply alen_opened.
  assert (adds (parse_body fuel (alen (protos p))) p1 (alen (protos p)) (MkProtocol (Some proto) (create_table 4) (file (lex p)) name []) [] body rest)
    as (h2 & l2 & y' & Hp2 & Hc2 & Hf2 & He2 & Hn2 & Hcon2).
  { apply Hbody; [|by apply opened_new| |done| |exact Hc1|done|cbn [lex with_lex p1]; rewrite Hc1; lia].
    - split_and!; [done..|]. cbn [protos lex with_lex with_protos p1]. rewrite Hc1. lia.
    - split; [constructor|]. exists []. cbn [slots]. rewrite join_create_table. by repeat constructor.
    - intros n. cbn. rewrite elem_of_cons. intros [->|Hn']; [done|]. by apply Henv. }
  destruct (content_proto _ _ _ _ _ _ _ name body y' Hcon Hx Hsl He2 Hcon2) as [He3 Hcon3].
  exists h2, l2, (set_slots sl x). rewrite (bind_Done _ _ _ _ _ Ho). split_and!; done.
Qed.

Lemma adds_lex (m m' : Ps unit) p l proto x done b rest :
  m p = m' (with_lex l p) -> file l = file (lex p) -> adds m' (with_lex l p) proto x done b rest -> adds m p proto x done b rest.
Proof.
  intros Hm Hl (h & l' & x' & Hm' & Hc & Hf & He & Hn & Hcon). cbn [lex with_lex protos] in *. rewrite Hl in *.
  exists h, l', x'. rewrite Hm, Hm'. by split_and!.
Qed.

Lemma body_word p w s fuel proto :
  cursor (lex p) = w ++ s -> word w -> ident (peek s) = false -> 64 <= token_size p ->
  parse_body (S fuel) proto p =
    ((if starts w (str "protocol") then child ← protocol_open proto; parse_body fuel child else parse_field proto w);; parse_body fuel proto) (with_lex (spaced s (lex p)) p).
Proof.
  intros Hc Hw Hs Ht. cbn [parse_body]. rewrite (bind_Done _ _ _ _ _ (expect_word 125 p w s Hc Hw ltac:(done))).
  rewrite (bind_Done _ _ _ _ _ (next_word p w s Hc Hw Hs Ht)). by rewrite (proj2 (Z.eqb_neq _ _)) by (destruct Hw; lia).
Qed.

Lemma keyword_word : word (str "protocol").
Proof. split; [unfold is_word; by repeat constructor|vm_compute; by split]. Qed.

Lemma spaced_field (a : bool) name s l : word name -> cursor (spaced ((if a then str "[]" else []) ++ space ++ name ++ s) l) = bracketed a ++ name ++ s.
Proof. intros Hn. destruct a; [done|]. exact (spaced_space (name ++ s) l (solid_word _ _ Hn)). Qed.

(** The rest of a body, when its first item was read. *)
Lemma adds_rest env mine outer i b p proto x done m fuel rest :
  reads_body (((item_name <$> protos_of [i]) ++ mine) :: outer) b -> (forall n, n ∈ mjoin (((item_name <$> protos_of [i]) ++ mine) :: outer) -> n ∈ all) -> env = mine :: outer ->
  room p -> aget (protos p) proto = Some x -> content (protos p) (file (lex p)) proto x done -> env_at (protos p) proto env ->
  adds m p proto x done [i] (print b ++ str "}" ++ newline ++ rest) -> solid rest -> alen (print b ++ str "}" ++ newline ++ rest) < Z.of_nat fuel ->
  adds (m;; parse_body fuel proto) p proto x done (i :: b) rest.
Proof.
  intros Hb Henv -> (_ & Ht & _) Hx Hcon He Hm Hs Hf. apply (adds_after m _ p proto x done [i] b _ rest Hm). intros h1 l1 x1 Hc1 Hf1 He1 Hn1 Hcon1.
  apply Hb; try done.
  - split_and!; [apply He1|done|]. cbn [protos lex with_lex with_protos]. by rewrite Hc1.
  - apply He1.
  - cbn [lex with_lex]. by rewrite Hf1.
  - by eapply env_after.
  - cbn [lex with_lex]. by rewrite Hc1.
Qed.

(** The text of a body. *)
Lemma reads_scoped env b : well_scoped all env b -> reads_body env b.
Proof.
  induction 1 as [env|env a t name b Ht Hty Hname Hb IH|mine outer name body b Hw Hin Hmine _ Hbody IHbody Hb IH]; [apply reads_nil|..];
    intros p proto x done fuel rest Hroom Hx Hcon He Henv Hc Hs Hf;
    (destruct fuel as [|fuel]; [pose proof (alen_nonneg (cursor (lex p))); lia|]); pose proof Hroom as (Hh & Htok & Hn);
    unfold print in Hc; cbn [map concat print_item] in Hc; fold (print b) in Hc; rewrite <- !app_assoc in Hc.
  - set (tail := print b ++ _) in Hc. assert (solid tail) as Htail by (by apply (solid_body all _ b _ Hb); right).
    set (s := (if a then _ else _) ++ _) in Hc. assert (alen s <= alen (cursor (lex p))) as Hsl by (rewrite Hc, alen_app; pose proof (alen_nonneg t); lia).
    eapply adds_lex; [apply (body_word p t s); [done|done|by destruct a|done]|done|]. rewrite (type_ok_word _ _ Hty).
    set (p1 := with_lex _ p). assert (cursor (lex p1) = bracketed a ++ name ++ newline ++ tail) as Hc1 by (by apply spaced_field).
    assert (alen (cursor (lex p1)) <= alen s) as Hl1 by apply alen_suffix, spaced_suffix. assert (room p1) as Hroom1 by (split_and!; [done..|]; cbn [protos p1 with_lex]; lia).
    assert (alen tail < Z.of_nat fuel) as Hft.
    { rewrite Hc1, !alen_app in Hl1. pose proof (alen_nonneg (bracketed a)). change (alen newline) with 1 in Hl1. destruct Hname. lia. }
    destruct env as [|mine outer]; [by inversion He|].
    apply (adds_rest (mine :: outer) mine outer); try done. by apply (adds_field p1 proto x done (mine :: outer)).
  - fold (print body) in Hc. set (tail := print b ++ _) in Hc. assert (solid tail) as Htail by (by apply (solid_body all _ b _ Hb); right).
    set (s := name ++ _) in Hc. assert (solid s) as Hss by (by apply solid_word).
    eapply adds_lex; [apply (body_word p (str "protocol") (space ++ s) fuel proto Hc keyword_word); done|done|]. change (starts (str "protocol") (str "protocol")) with true. cbv iota.
    set (p1 := with_lex _ p). assert (cursor (lex p1) = s) as Hc1 by (by apply spaced_space).
    assert (alen (cursor (lex p1)) < alen (cursor (lex p))) as Hl1.
    { rewrite Hc, Hc1, !alen_app. change (alen (str "protocol")) with 8. change (alen space) with 1. lia. }
    assert (room p1) as Hroom1 by (split_and!; [done..|]; cbn [protos p1 with_lex]; lia).
    assert (alen tail < Z.of_nat fuel) as Hft.
    { rewrite Hc1 in Hl1. unfold s in Hl1. rewrite !alen_app in Hl1. pose proof (alen_nonneg (print body)). pose proof (alen_nonneg (str " {")). pose proof (alen_nonneg newline).
      pose proof (alen_nonneg (str "}")). destruct Hw. lia. }
    apply (adds_rest (mine :: outer) mine outer); try done.
    + intros n. cbn. rewrite elem_of_cons. intros [->|Hn']; [done|]. by apply Henv.
    + apply (adds_proto p1 proto x done mine outer); try done. lia.
Qed.
End read.

(** ** The text of a file *)

(** The keyword at the top level. *)
Lemma lexer_protocol import p s :
  cursor (lex p) = str "protocol" ++ space ++ s -> solid s -> 64 <= token_size p ->
  lexer_execute import p = protocol_parse 0 (with_lex (spaced (space ++ s) (lex p)) p).
Proof. intros Hc Hs Ht. unfold lexer_execute. by rewrite (bind_Done _ _ _ _ _ (next_word p (str "protocol") (space ++ s) Hc keyword_word ltac:(done) Ht)). Qed.

Section file.
Context (all : list bytes) (size : Z).
Hypothesis (Hall : prefix_free all) (Hsize : 16 * (size + 1) <= INT_MAX).

Definition round (import : bytes -> Ps unit) (_ : unit) : Ps (unit + unit) := e ← eos; if e : bool then mret (inr tt) else lexer_execute import;; mret (inl tt).

Lemma round_step {A} import (k : unit + unit -> Ps A) p c s : cursor (lex p) = c :: s -> b2z c <> 0 -> (round import tt ≫= k) p = (lexer_execute import;; k (inl tt)) p.
Proof.
  intros Hc H0. unfold round, eos, current. cbv [get mbind M_bind mret M_ret]. rewrite Hc. cbn [peek]. rewrite (proj2 (Z.eqb_neq _ _) H0). by destruct (lexer_execute import p).
Qed.

Lemma round_proto import p mine x done name body rest :
  room size p -> aget (protos p) 0 = Some x -> content (protos p) (file (lex p)) 0 x done -> env_at (protos p) 0 [mine] ->
  (forall n, n ∈ mine -> n ∈ all) -> word name -> name ∈ all -> name ∉ mine -> well_scoped all [[]; name :: mine] body ->
  cursor (lex p) = print_item (IProto name body) ++ rest -> solid rest ->
  adds size (lexer_execute import) p 0 x done [IProto name body] rest.
Proof.
  intros Hroom Hx Hcon He Henv Hw Hin Hmine Hws Hc Hs. pose proof Hroom as (Hh & Ht & Hn). cbn [print_item] in Hc. fold (print body) in Hc. rewrite <- !app_assoc in Hc.
  set (s := name ++ _) in Hc. assert (solid s) as Hss by (by apply solid_word). set (p1 := with_lex (spaced (space ++ s) (lex p)) p).
  assert (cursor (lex p1) = s) as Hc1 by (by apply spaced_space).
  assert (alen (cursor (lex p1)) <= alen (cursor (lex p))) as Hl1 by (rewrite Hc, Hc1, !alen_app; pose proof (alen_nonneg (str "protocol")); pose proof (alen_nonneg space); lia).
  eapply (adds_lex _ _ (child ← protocol_open 0; parse_body (S (length (cursor (lex p1)))) child) p); [by rewrite (lexer_protocol import p s Hc Hss Ht)|done|].
  apply (adds_proto all size Hall Hsize p1 0 x done mine []); try done.
  - split_and!; [done..|]. cbn [protos p1 with_lex]. lia.
  - intros n. cbn. rewrite app_nil_r. apply Henv.
  - by apply (reads_scoped all size Hall Hsize).
  - rewrite alen_length. lia.
Qed.

Lemma adds_file import b mine : well_scoped all [mine] b -> fields_of b = [] -> forall p x done fuel,
  room size p -> aget (protos p) 0 = Some x -> content (protos p) (file (lex p)) 0 x done -> env_at (protos p) 0 [mine] ->
  (forall n, n ∈ mine -> n ∈ all) -> cursor (lex p) = print b -> (length (print b) < fuel)%nat ->
  adds size (loop fuel (round import) tt) p 0 x done b [].
Proof.
  revert mine. induction b as [|i b IH]; intros mine Hws Hfs p x done [|fuel] Hroom Hx Hcon He Henv Hc Hf; try lia; cbn [loop].
  - unfold adds. rewrite (bind_Done (round import tt) _ (inr tt) p p) by (unfold round, eos, current; cbv [get mbind M_bind mret M_ret]; by rewrite Hc).
    exists (protos p), (lex p), x. rewrite app_nil_r. destruct Hroom as (Hh & _ & Hn). split_and!; try done; [by destruct p| |].
    + split_and!; try done. exists []. by rewrite app_nil_r.
    + rewrite Hc in Hn. done.
  - inversion Hws as [|? ? ? ? ? ? ? ? ?|m o name body b' Hw Hin Hmine Hnd Hbody Hb]; subst; [done|]. unfold print in Hc, Hf. cbn [map concat] in Hc, Hf. fold (print b) in Hc, Hf.
    assert (solid (print b)) as Hs by (pose proof (solid_body all _ b [] Hb I) as Hs; by rewrite app_nil_r in Hs).
    pose proof (round_proto import p mine x done name body (print b) Hroom Hx Hcon He Henv Hw Hin Hmine Hbody Hc Hs) as Hm.
    unfold adds. rewrite (round_step import _ p (z2b 112) _ Hc) by done. apply (adds_after size _ _ p 0 x done [IProto name body] b _ [] Hm). intros h1 l1 x1 Hc1 Hf1 He1 Hn1 Hcon1.
    apply (IH (name :: mine)); try done.
    + split_and!; [apply He1|apply Hroom|]. cbn [protos lex with_lex with_protos]. by rewrite Hc1.
    + apply He1.
    + cbn [lex with_lex]. by rewrite Hf1.
    + by apply (env_after (protos p) h1 (file (lex p)) 0 x x1 mine [] done [IProto name body]).
    + intros n [->|Hn]%elem_of_cons; [done|by apply Henv].
    + rewrite length_app in Hf. cbn [print_item] in Hf. rewrite length_app in Hf. cbn in Hf. lia.
Qed.
End file.

(** The heap that the text of a file leaves. *)
Lemma reads_file fopen imports dir name all b :
  prefix_free all -> well_scoped all [[]] b -> fields_of b = [] -> fopen (snprintf64 (dir ++ name)) = Some (print b) -> 16 * (alen (print b) + 2) <= INT_MAX ->
  exists p x, parse_begin fopen (S imports) name (parser_init dir) = Done tt p /\ wf_heap (protos p) /\ aget (protos p) 0 = Some x /\ p_file x = str "root" /\
    content (protos p) name 0 x b.
Proof.
  intros Hall Hws Hfs Hd Hb. set (p0 := with_lex (MkLexer (print b) 1 name) (parser_init dir)).
  assert (solid (print b)) as Hs by (pose proof (solid_body all _ b [] Hws I) as Hs; by rewrite app_nil_r in Hs).
  set (root := MkProtocol None (create_table 4) (str "root") (str "root") []).
  set (p1 := with_lex (spaced (print b) (lex p0)) p0). assert (cursor (lex p1) = print b) as Hc1 by (by apply spaced_solid).
  assert (adds (alen (print b) + 1) (loop (S (length (print b))) (round (protocol_import (parse_begin fopen imports))) tt) p1 0 root [] b [])
    as (h & l & x & Hp & _ & Hf & (Hw & _ & _ & Hx & _ & _ & Hfile) & _ & Hcon).
  { apply (adds_file all (alen (print b) + 1) Hall ltac:(lia) _ b [] Hws Hfs); [|done| | |set_solver|done|lia].
    - split_and!; [apply (wf_root dir)|done|]. rewrite Hc1. change (protos p1) with [root]. rewrite alen_cons, alen_nil. lia.
    - split; [constructor|]. exists []. cbn [slots root]. rewrite join_create_table. by repeat constructor.
    - apply (env_root _ _ root); [done|done|]. split; cbn [slots root]; rewrite join_create_table; [set_solver|]. intros n. split; [set_solver|]. intros (k & Hk & _). set_solver. }
  cbn [parse_begin]. rewrite (bind_Done get _ (parser_init dir) _ (parser_init dir)) by done. cbn [path parser_init]. rewrite Hd.
  rewrite (bind_Done (put _) _ tt _ p0) by done. rewrite (bind_Done skip_space _ tt p0 p1) by apply skip_space_Done. rewrite (bind_Done _ _ _ _ _ Hp).
  eexists (MkParser h [file l] 4 64 dir (MkLexer [] 0 [])), x. split_and!; [done|done|done|done|exact Hcon].
Qed.

(** ** The export *)

Lemma ws_field_type all env b a t n : well_scoped all env b -> (a, t, n) ∈ fields_of b -> exists env', type_ok env' t.
Proof.
  induction 1 as [env|env a' t' n' b Ht Hty Hn Hb IH|mine outer name body b Hw Hin Hmine Hnd Hbody IHbody Hb IH]; cbn [fields_of]; [set_solver| |done].
  intros [[= -> -> ->]|H]%elem_of_cons; [by exists env|by apply IH].
Qed.

Lemma ws_kid all env b name body :
  well_scoped all env b -> IProto name body ∈ protos_of b -> exists outer, well_scoped all ([] :: outer) body /\ NoDup (field_names body).
Proof.
  induction 1 as [env|env a' t' n' b Ht Hty Hn Hb IH|mine outer name' body' b Hw Hin Hmine Hnd Hbody IHbody Hb IH]; cbn [protos_of]; [set_solver|done|].
  intros [[= -> ->]|H]%elem_of_cons; [eauto|by apply IH].
Qed.

Lemma ws_names all mine outer b :
  well_scoped all (mine :: outer) b -> NoDup (item_name <$> protos_of b) /\ forall n, n ∈ item_name <$> protos_of b -> n ∉ mine.
Proof.
  remember (mine :: outer) as env eqn:E. intros H. revert mine outer E. induction H as [env|env a' t' n' b Ht Hty Hn Hb IH|mine' outer' name' body' b Hw Hin Hmine Hnd Hbody IHbody Hb IH];
    intros mine outer E; cbn [protos_of]; [split; [constructor|set_solver]|by eapply IH|].
  injection E as -> ->. destruct (IH _ _ eq_refl) as [Hd Hn]. cbn. split.
  - constructor; [|done]. intros Hx. apply (Hn _ Hx). set_solver.
  - intros n [->|Hx]%elem_of_cons; [done|]. intros Hm. apply (Hn n Hx). set_solver.
Qed.

Lemma depth_kid b name body : IProto name body ∈ protos_of b -> (S (depth body) <= depth b)%nat.
Proof.
  induction b as [|i b IH]; [set_solver|]. unfold depth in *. destruct i as [a t n|n c]; cbn [protos_of map foldr item_depth].
  - exact IH.
  - intros [[= -> ->]|H]%elem_of_cons; [lia|]. specialize (IH H). lia.
Qed.

Lemma kid_entries_fmap f b : kid_entries f b = (fun i => (TStr (item_name i), f i)) <$> protos_of b.
Proof. induction b as [|[] b IH]; cbn; congruence. Qed.

Lemma setfield_fresh k v l : (forall k' v', (TStr k', v') ∈ l -> k' <> k) -> Forall (fun e => exists k', e.1 = TStr k') l -> is_nil v = false -> setfield k v l = l ++ [(TStr k, v)].
Proof.
  intros Hk Hs Hv. apply set_entry_fresh; [|done]. intros k' v' Hin. rewrite Forall_forall in Hs. destruct (Hs _ Hin) as [k'' E]. cbn in E. subst k'.
  cbn [key_equal]. apply bool_decide_eq_false_2. by apply (Hk _ v').
Qed.

(** A field is written as described. *)
Lemma export_field_tree p i f a t n env :
  field_holds (names (protos p)) f (a, t, n) -> type_ok env t -> export_field i f p = Done (field_tree i (a, t, n)) p.
Proof.
  intros (<- & <- & Ht & Hr) Hty. unfold export_field. assert ((if f_type f =? TYPE_PROTOCOL then id ← deref NullDeref (f_protocol f); x ← get_proto id; mret (p_name x)
    else deref OutOfBounds (aget BUILTIN_TYPE (f_type f))) p = Done t p) as Hname.
  { destruct (f_type f =? TYPE_PROTOCOL) eqn:E.
    - apply Z.eqb_eq in E. destruct (Hr E) as (k & -> & Hk). rewrite aget_names in Hk. apply fmap_Some in Hk as (x & Hx & ->).
      change (deref NullDeref (Some k)) with (mret k : Ps Z). rewrite (bind_Done _ _ k p p) by done. by rewrite (bind_Done _ _ _ _ _ (get_proto_Done p k x Hx)).
    - apply Z.eqb_neq in E. destruct Hty as [(_ & _ & Hb)%builtin_name|(_ & _ & Hb)]; [|congruence]. by rewrite Ht, Hb. }
  rewrite (bind_Done _ _ _ _ _ Hname). cbn [field_tree]. by rewrite Ht.
Qed.

Lemma export_fields_loop p fs ds i acc fuel :
  Forall2 (field_holds (names (protos p))) fs ds -> (forall a t n, (a, t, n) ∈ ds -> exists env, type_ok env t) -> NoDup (snd <$> ds) ->
  (forall k v, (TStr k, v) ∈ acc -> k ∉ snd <$> ds) -> Forall (fun e => exists k, e.1 = TStr k) acc ->
  (length fs < fuel)%nat -> loop fuel export_next (fs, i, acc) p = Done (acc ++ field_entries i ds) p.
Proof.
  intros H. revert i acc fuel. induction H as [|f [[a t] n] fs ds Hf H IH]; intros i acc [|fuel] Hty Hnd Hacc Hs Hl; try (cbn in Hl; lia); [cbn; by rewrite app_nil_r|].
  destruct (Hty a t n) as [env Henv]; [set_solver|]. cbn [loop export_next]. rewrite fmap_cons in Hnd. apply NoDup_cons in Hnd as [Hn Hnd].
  rewrite (bind_Done _ _ (inl (fs, i + 1, acc ++ [(TStr n, field_tree i (a, t, n))])) p p).
  - rewrite IH; [by rewrite <- app_assoc|intros a' t' n' Hin; apply (Hty a' t' n'); by right|done| | |cbn in Hl; lia].
    + intros k v [Hk|[= -> ->]%list_elem_of_singleton]%elem_of_app; [|done]. specialize (Hacc k v Hk). cbn in Hacc. set_solver.
    + apply Forall_app. split; [done|]. constructor; [by exists n|constructor].
  - rewrite (bind_Done _ _ _ _ _ (export_field_tree p i f a t n env Hf Henv)). destruct Hf as (_ & -> & _). rewrite setfield_fresh; [done| |done|done].
    intros k v Hk ->. apply (Hacc n v Hk). set_solver.
Qed.

(** What the loop over the protocols below writes, [G] being the table of each. *)
Lemma export_kids_loop export p l (nm : Z -> bytes) (G : Z -> tree) acc fuel :
  (forall k, k ∈ l -> export k p = Done (G k) p /\ is_nil (G k) = false /\ exists y, aget (protos p) k = Some y /\ p_name y = nm k) ->
  NoDup (nm <$> l) -> (forall k v, (TStr k, v) ∈ acc -> k ∉ nm <$> l) -> Forall (fun e => exists k, e.1 = TStr k) acc ->
  (length l < fuel)%nat -> loop fuel (export_child export) (l, acc) p = Done (acc ++ ((fun k => (TStr (nm k), G k)) <$> l)) p.
Proof.
  revert acc fuel. induction l as [|k l IH]; intros acc [|fuel] Hk Hnd Hacc Hs Hl; try (cbn in Hl; lia); [cbn; by rewrite app_nil_r|]. destruct (Hk k) as (He & Hnil & y & Hy & Hny); [set_solver|].
  rewrite fmap_cons in Hnd. apply NoDup_cons in Hnd as [Hn Hnd]. cbn [loop export_child].
  rewrite (bind_Done _ _ (inl (l, acc ++ [(TStr (nm k), G k)])) p p).
  - rewrite IH; [by rewrite <- app_assoc|intros; apply Hk; set_solver|done| | |cbn in Hl; lia].
    + intros j v [Hj|[= -> ->]%list_elem_of_singleton]%elem_of_app; [|done]. specialize (Hacc j v Hj). cbn in Hacc. set_solver.
    + apply Forall_app. split; [done|]. constructor; [by eexists|constructor].
  - rewrite (bind_Done _ _ _ _ _ He), (bind_Done _ _ _ _ _ (get_proto_Done p k y Hy)), Hny. rewrite setfield_fresh; [done| |done|done].
    intros j v Hj ->. apply (Hacc (nm k) v Hj). set_solver.
Qed.

Lemma node_same file e l k fs : e ≡ₚ l -> Forall2 (fun e f => e.1 = f.1 /\ same_table e.2 f.2) l k -> same_table (node_tree file e fs) (node_tree file k fs).
Proof.
  intros He Hl. assert (forall e : tree * tree, e.1 = e.1 /\ same_table e.2 e.2) as Hr by (split; [done|apply same_refl]).
  unfold node_tree. destruct Hl as [|x y l k Hxy Hl].
  - apply Permutation_nil_r in He as ->. apply same_refl.
  - destruct e as [|e0 e]; [by apply Permutation_nil_l in He|]. eapply same_entries; [done|]. constructor.
    + split; [done|]. eapply same_entries; [exact He|]. by constructor.
    + constructor; [apply Hr|]. destruct fs; constructor; [apply Hr|constructor].
Qed.

(** The table that a node with given fields and protocols is written to. *)
Lemma export_node p fuel id d x b (nm : Z -> bytes) (G : Z -> tree) :
  aget (protos p) id = Some x -> Forall2 (field_holds (names (protos p))) (fields x) (fields_of b) ->
  (forall a t n, (a, t, n) ∈ fields_of b -> exists env, type_ok env t) -> NoDup (field_names b) ->
  (forall k, k ∈ mjoin (slots x) -> protocol_export fuel k (d + 1) p = Done (G k) p /\ is_nil (G k) = false /\ exists y, aget (protos p) k = Some y /\ p_name y = nm k) ->
  NoDup (nm <$> mjoin (slots x)) -> (d + 2) * 2 <= stack_slots ->
  protocol_export (S fuel) id d p = Done (node_tree (p_file x) ((fun k => (TStr (nm k), G k)) <$> mjoin (slots x)) (field_entries 0 (fields_of b))) p.
Proof.
  intros Hx Hfs Hty Hnd Hk Hkd Hd. cbn [protocol_export]. cbv zeta. rewrite (bind_Done (require _ _) _ tt p p) by (unfold require; by rewrite (proj2 (Z.leb_le _ _)) by lia).
  rewrite (bind_Done _ _ _ _ _ (get_proto_Done p id x Hx)).
  assert (loop (S (length (mjoin (slots x)))) (export_child (fun id => protocol_export fuel id (d + 1))) (mjoin (slots x), []) p = Done ((fun k => (TStr (nm k), G k)) <$> mjoin (slots x)) p) as Hl.
  { apply (export_kids_loop _ p _ nm G []); [done|done|set_solver|constructor|lia]. }
  rewrite (bind_Done _ _ _ _ _ Hl).
  pose proof (export_fields_loop p _ _ 0 [] (S (length (fields x))) Hfs Hty Hnd ltac:(set_solver) ltac:(constructor) ltac:(lia)) as Hf. cbn [app] in *.
  destruct (fields x) as [|f fs].
  - apply Forall2_nil_inv_l in Hfs as ->. by destruct (mjoin (slots x)).
  - apply Forall2_cons_inv_l in Hfs as (dd & ds & _ & _ & Eds). rewrite (bind_Done (require _ _) _ tt p p) by (unfold require; by rewrite (proj2 (Z.leb_le _ _)) by lia).
    rewrite Eds in Hf |- *. unfold export_fields. rewrite (bind_Done _ _ _ _ _ Hf). by destruct (mjoin (slots x)).
Qed.

Lemma export_content all p file fuel : forall id d x b outer,
  aget (protos p) id = Some x -> content (protos p) file id x b -> well_scoped all ([] :: outer) b -> NoDup (field_names b) ->
  (d + 1 + Z.of_nat (depth b)) * 2 + 2 <= stack_slots -> alen (protos p) - id < Z.of_nat fuel ->
  exists t, protocol_export fuel id d p = Done t p /\ is_nil t = false /\
    same_table t (node_tree (p_file x) (kid_entries (item_tree file) b) (field_entries 0 (fields_of b))).
Proof.
  induction fuel as [|fuel IH]; intros id d x b outer Hx Hcon Hws Hnd Hd Hf; pose proof (aget_Some_range _ _ _ Hx) as Hr; unfold in_range in Hr; [lia|].
  destruct Hcon as (Hfs & kids & Hk & Hlt & Hb). set (G := fun k => match protocol_export fuel k (d + 1) p with Done t _ => t | _ => TNil end).
  set (nm := fun k => default [] (aget (names (protos p)) k)).
  assert (Forall2 (fun i k => nm k = item_name i /\ same_table (G k) (item_tree file i) /\
     protocol_export fuel k (d + 1) p = Done (G k) p /\ is_nil (G k) = false /\ exists y, aget (protos p) k = Some y /\ p_name y = nm k) (protos_of b) kids) as Hkids.
  { eapply related_impl; [exact Hb|]. intros i k Hi Hin Hh. rewrite Forall_forall in Hlt. specialize (Hlt k Hin).
    destruct Hh as [name body k y kids' Hy Hn Hfile Hfs' Hk' Hlt' Hb']. destruct (ws_kid _ _ _ _ _ Hws Hi) as (outer' & Hws' & Hnd'). pose proof (depth_kid _ _ _ Hi).
    destruct (IH k (d + 1) y body outer' Hy) as (t & Ht & Hnil & Hsame); [split; [done|]; by exists kids'|done|done|lia|lia|]. rewrite Hfile in Hsame.
    unfold G, nm. rewrite Ht, aget_names, Hy. cbn [fmap option_fmap option_map]. by split_and!; try exists y. }
  assert (nm <$> kids = item_name <$> protos_of b) as Hnames.
  { clear -Hkids. induction Hkids as [|i k il kl (Hi & _) H IH]; [done|]. by rewrite !fmap_cons, Hi, IH. }
  eexists. split_and!; [apply (export_node p fuel id d x b nm G); try done|done|].
  - intros a t n Hin. by eapply ws_field_type.
  - intros k Hin. rewrite Hk in Hin. destruct (related_r _ _ _ k Hkids Hin) as (i & _ & _ & _ & ?). done.
  - rewrite Hk, Hnames. by apply (ws_names all [] outer).
  - lia.
  - rewrite kid_entries_fmap. apply (node_same _ _ ((fun k => (TStr (nm k), G k)) <$> kids)); [by rewrite Hk|]. apply Forall2_fmap, Forall2_flip.
    eapply related_impl; [exact Hkids|]. intros i k _ _ (-> & ? & _). done.
Qed.

(** C7: The text of a description is read back: for protocols whose names and types are in scope
    and are no prefix of one another, with names of fewer than 64 characters and at most 34
    levels, the parser returns the table with every protocol below the one it is declared in,
    the file it is from, and its fields with their index, type and brackets. [memcmp] stops at
    the first difference here; [below_parse] says what changes when it does not. *)
Theorem parse_print fopen imports dir name all b :
  prefix_free all -> well_scoped all [[]] b -> fields_of b = [] -> (depth b <= 34)%nat ->
  fopen (snprintf64 (dir ++ name)) = Some (print b) -> 16 * (alen (print b) + 2) <= INT_MAX ->
  exists t p, parse fopen (S imports) dir name = Done t p /\ same_table t (file_tree name b).
Proof.
  intros Hall Hws Hfs Hd Hfile Hb. destruct (reads_file fopen imports dir name all b Hall Hws Hfs Hfile Hb) as (p & x & Hp & Hh & Hx & Hroot & Hcon).
  destruct (export_content all p name (S (length (protos p))) 0 0 x b [] Hx Hcon Hws) as (t & Ht & Hnil & Hs); [unfold field_names; rewrite Hfs; constructor|unfold stack_slots, MAX_DEPTH; lia|rewrite alen_length; lia|].
  exists (TTable [(TStr (str "root"), t)]), p. unfold parse, parse_from. rewrite (bind_Done _ _ _ _ _ Hp). rewrite (bind_Done get _ p p p) by done. rewrite (bind_Done _ _ _ _ _ Ht).
  split; [unfold setfield; cbn [set_entry]; by rewrite Hnil|]. rewrite Hfs, Hroot in Hs. eapply same_entries; [done|]. constructor; [|constructor]. by split.
Qed.

(** Two protocols; [role] is declared in [login], refers to itself, and [reply] to [login]. *)
Definition sample : list item :=
  [IProto (str "login") [IField false (str "string") (str "account");
                         IProto (str "role") [IField false (str "int") (str "uid"); IField true (str "role") (str "friends")];
                         IField true (str "role") (str "roles")];
   IProto (str "reply") [IField false (str "login") (str "who")]].

Definition sample_names : list bytes := [str "login"; str "role"; str "reply"].

Lemma sample_prefix_free : prefix_free sample_names.
Proof.
  intros a b Ha Hb. unfold sample_names in Ha, Hb. rewrite !elem_of_cons in Ha, Hb.
  destruct Ha as [->|[->|[->|Ha]]]; [..|set_solver]; destruct Hb as [->|[->|[->|Hb]]]; try set_solver; vm_compute; intros; congruence.
Qed.

Ltac solve_word := split; [unfold is_word; apply Forall_forall; intros c Hc; vm_compute in Hc; repeat (apply elem_of_cons in Hc as [->|Hc]; [vm_compute; reflexivity|]); set_solver|vm_compute; by split].

Lemma sample_scoped : well_scoped sample_names [[]] sample.
Proof.
  assert (forall w env, w ∈ [str "string"; str "int"] -> type_ok env w) as Hb by (intros w env Hw; left; unfold BUILTIN_TYPE; set_solver).
  assert (forall w env, w ∈ mjoin env -> w = str "role" \/ w = str "login" -> type_ok env w) as Hr.
  { intros w env Hw [->| ->]; right; (split_and!; [done|vm_compute; reflexivity|vm_compute; reflexivity]). }
  unfold sample. repeat match goal with
  | |- well_scoped _ _ [] => apply ws_nil
  | |- well_scoped _ _ (IField _ _ _ :: _) => apply ws_field
  | |- well_scoped _ _ (IProto _ _ :: _) => apply ws_proto
  | |- word _ => solve_word
  | |- NoDup _ => apply (bool_decide_unpack _); vm_compute; exact I
  | |- _ ∈ sample_names => unfold sample_names; set_solver
  | |- _ ∉ _ => apply (bool_decide_unpack _); vm_compute; exact I
  | |- type_ok _ (str "string") => apply Hb; set_solver
  | |- type_ok _ (str "int") => apply Hb; set_solver
  | |- type_ok _ _ => apply Hr; [cbn; set_solver|by auto]
  end.
Qed.

Lemma parse_print_witness :
  exists t p, parse (fun _ => Some (print sample)) 1 [] (str "login.protocol") = Done t p /\ same_table t (file_tree (str "login.protocol") sample).
Proof.
  apply (parse_print (fun _ => Some (print sample)) 0 [] (str "login.protocol") sample_names sample).
  - exact sample_prefix_free.
  - exact sample_scoped.
  - reflexivity.
  - vm_compute. lia.
  - reflexivity.
  - vm_compute. discriminate.
Defined.
