(* ===== verification/Itoa.v ===== *)
(** * Decimal text of integers (convert/milo/itoa.cpp)

    [u32toa] and [u64toa] take the number apart into pairs of digits, look the pairs
    up in a table and write them with as few branches as they can. The theorems show
    that every digit of every number comes out as in the schoolbook conversion, that
    the table is never left and how much of the caller's buffer is used. *)

From Stdlib Require Import String.
From S2P Require Import Prelude Outcome.

(** The bytes written so far; [*buffer++ = c] adds one. *)
Abbreviation B := (M bytes).
Definition push (c : byte) : B unit := modify (fun b => b ++ [c]).

Definition cDigitsLut : bytes := list_byte_of_string
  ("0001020304050607080910111213141516171819202122232425262728293031323334353637383940414243444546474849" ++
   "5051525354555657585960616263646566676869707172737475767778798081828384858687888990919293949596979899").

(** [*buffer++ = cDigitsLut[i]] *)
Definition push_lut (i : Z) : B unit := c ← deref OutOfBounds (aget cDigitsLut i); push c.

(** [*buffer++ = '0' + a] *)
Definition push_digit (a : Z) : B unit := push (z2b (48 + a)).

(** The index of a pair, [x << 1]. *)
Definition pair_index (x : Z) : Z := u32 (Z.shiftl x 1).

Definition u32toa (value : Z) : B unit :=
  if value <? 10000 then
    let d1 := pair_index (value / 100) in
    let d2 := pair_index (value mod 100) in
    when (1000 <=? value) (push_lut d1);;
    when (100 <=? value) (push_lut (d1 + 1));;
    when (10 <=? value) (push_lut d2);;
    push_lut (d2 + 1)
  else if value <? 100000000 then
    let b := value / 10000 in
    let c := value mod 10000 in
    let d1 := pair_index (b / 100) in
    let d2 := pair_index (b mod 100) in
    let d3 := pair_index (c / 100) in
    let d4 := pair_index (c mod 100) in
    when (10000000 <=? value) (push_lut d1);;
    when (1000000 <=? value) (push_lut (d1 + 1));;
    when (100000 <=? value) (push_lut d2);;
    push_lut (d2 + 1);;
    push_lut d3;; push_lut (d3 + 1);; push_lut d4;; push_lut (d4 + 1)
  else
    let a := value / 100000000 in
    let value := value mod 100000000 in
    (if 10 <=? a then
       let i := pair_index a in
       push_lut i;; push_lut (i + 1)
     else push_digit a);;
    let b := value / 10000 in
    let c := value mod 10000 in
    let d1 := pair_index (b / 100) in
    let d2 := pair_index (b mod 100) in
    let d3 := pair_index (c / 100) in
    let d4 := pair_index (c mod 100) in
    push_lut d1;; push_lut (d1 + 1);; push_lut d2;; push_lut (d2 + 1);;
    push_lut d3;; push_lut (d3 + 1);; push_lut d4;; push_lut (d4 + 1).

Definition i32toa_fast (value : Z) : B unit :=
  let u := u32 value in
  if value <? 0 then push (z2b 45);; u32toa (u32 (Z.lnot u + 1))
  else u32toa u.

Definition kTen8 : Z := 100000000.
Definition kTen9 : Z := kTen8 * 10.
Definition kTen10 : Z := kTen8 * 100.
Definition kTen11 : Z := kTen8 * 1000.
Definition kTen12 : Z := kTen8 * 10000.
Definition kTen13 : Z := kTen8 * 100000.
Definition kTen14 : Z := kTen8 * 1000000.
Definition kTen15 : Z := kTen8 * 10000000.
Definition kTen16 : Z := kTen8 * kTen8.

(** Values below 10^8. *)
Definition u64toa_small (value : Z) : B unit :=
  let v := u32 value in
  if v <? 10000 then
    let d1 := pair_index (v / 100) in
    let d2 := pair_index (v mod 100) in
    when (1000 <=? v) (push_lut d1);;
    when (100 <=? v) (push_lut (d1 + 1));;
    when (10 <=? v) (push_lut d2);;
    push_lut (d2 + 1)
  else
    let b := v / 10000 in
    let c := v mod 10000 in
    let d1 := pair_index (b / 100) in
    let d2 := pair_index (b mod 100) in
    let d3 := pair_index (c / 100) in
    let d4 := pair_index (c mod 100) in
    when (10000000 <=? value) (push_lut d1);;
    when (1000000 <=? value) (push_lut (d1 + 1));;
    when (100000 <=? value) (push_lut d2);;
    push_lut (d2 + 1);;
    push_lut d3;; push_lut (d3 + 1);; push_lut d4;; push_lut (d4 + 1).

(** Values from 10^8 to 10^16. *)
Definition u64toa_middle (value : Z) : B unit :=
  let v0 := u32 (value / kTen8) in
  let v1 := u32 (value mod kTen8) in
  let b0 := v0 / 10000 in
  let c0 := v0 mod 10000 in
  let d1 := pair_index (b0 / 100) in
  let d2 := pair_index (b0 mod 100) in
  let d3 := pair_index (c0 / 100) in
  let d4 := pair_index (c0 mod 100) in
  let b1 := v1 / 10000 in
  let c1 := v1 mod 10000 in
  let d5 := pair_index (b1 / 100) in
  let d6 := pair_index (b1 mod 100) in
  let d7 := pair_index (c1 / 100) in
  let d8 := pair_index (c1 mod 100) in
  when (kTen15 <=? value) (push_lut d1);;
  when (kTen14 <=? value) (push_lut (d1 + 1));;
  when (kTen13 <=? value) (push_lut d2);;
  when (kTen12 <=? value) (push_lut (d2 + 1));;
  when (kTen11 <=? value) (push_lut d3);;
  when (kTen10 <=? value) (push_lut (d3 + 1));;
  when (kTen9 <=? value) (push_lut d4);;
  when (kTen8 <=? value) (push_lut (d4 + 1));;
  push_lut d5;; push_lut (d5 + 1);; push_lut d6;; push_lut (d6 + 1);;
  push_lut d7;; push_lut (d7 + 1);; push_lut d8;; push_lut (d8 + 1).

(** The digits in front of the last sixteen. *)
Definition u64toa_head (a : Z) : B unit :=
  if a <? 10 then push_digit a
  else if a <? 100 then
    let i := pair_index a in push_lut i;; push_lut (i + 1)
  else if a <? 1000 then
    push_digit (a / 100);;
    let i := pair_index (a mod 100) in push_lut i;; push_lut (i + 1)
  else
    let i := pair_index (a / 100) in
    let j := pair_index (a mod 100) in
    push_lut i;; push_lut (i + 1);; push_lut j;; push_lut (j + 1).

(** The last sixteen digits. *)
Definition u64toa_tail (value : Z) : B unit :=
  let v0 := u32 (value / kTen8) in
  let v1 := u32 (value mod kTen8) in
  let b0 := v0 / 10000 in
  let c0 := v0 mod 10000 in
  let d1 := pair_index (b0 / 100) in
  let d2 := pair_index (b0 mod 100) in
  let d3 := pair_index (c0 / 100) in
  let d4 := pair_index (c0 mod 100) in
  let b1 := v1 / 10000 in
  let c1 := v1 mod 10000 in
  let d5 := pair_index (b1 / 100) in
  let d6 := pair_index (b1 mod 100) in
  let d7 := pair_index (c1 / 100) in
  let d8 := pair_index (c1 mod 100) in
  push_lut d1;; push_lut (d1 + 1);; push_lut d2;; push_lut (d2 + 1);;
  push_lut d3;; push_lut (d3 + 1);; push_lut d4;; push_lut (d4 + 1);;
  push_lut d5;; push_lut (d5 + 1);; push_lut d6;; push_lut (d6 + 1);;
  push_lut d7;; push_lut (d7 + 1);; push_lut d8;; push_lut (d8 + 1).

Definition u64toa_large (value : Z) : B unit :=
  let a := u32 (value / kTen16) in
  let value := value mod kTen16 in
  u64toa_head a;; u64toa_tail value.

Definition u64toa (value : Z) : B unit :=
  if value <? kTen8 then u64toa_small value
  else if value <? kTen16 then u64toa_middle value
  else u64toa_large value.

Definition i64toa_fast (value : Z) : B unit :=
  let u := u64 value in
  if value <? 0 then push (z2b 45);; u64toa (u64 (Z.lnot u + 1))
  else u64toa u.

(** ** The schoolbook conversion *)

Definition digit (d : Z) : byte := z2b (48 + d).

(** [fuel] bounds the digits after the first. *)
Fixpoint decimal_pos (fuel : nat) (n : Z) : bytes :=
  match fuel with
  | O => [digit n]
  | S fuel => if n <? 10 then [digit n] else decimal_pos fuel (n / 10) ++ [digit (n mod 10)]
  end.

(** 20 digits hold every 64-bit number. *)
Definition decimal (z : Z) : bytes := if z <? 0 then z2b 45 :: decimal_pos 19 (- z) else decimal_pos 19 z.

(** ** Digits *)

Definition dg (n : Z) (k : Z) : Z := n / 10 ^ k mod 10.

Lemma dg_div n j k : 0 <= j -> 0 <= k -> dg (n / 10 ^ j) k = dg n (j + k).
Proof. intros. unfold dg. rewrite Z.div_div, <- Z.pow_add_r by lia. done. Qed.

Lemma dg_mod n j k : 0 <= k < j -> dg (n mod 10 ^ j) k = dg n k.
Proof.
  intros. unfold dg. replace (10 ^ j) with (10 ^ k * 10 ^ (j - k)) by (rewrite <- Z.pow_add_r by lia; f_equal; lia).
  assert (0 < 10 ^ k /\ 0 < 10 ^ (j - k)) as [Hk Hj] by lia.
  rewrite Z.rem_mul_r, (Z.mul_comm (10 ^ k)), Z.div_add, Z.div_small, Z.add_0_l by (lia || apply Z.mod_pos_bound; lia).
  apply Z.mod_mod_divide. exists (10 ^ (j - k - 1)). rewrite Z.mul_comm, <- Z.pow_succ_r by lia. f_equal. lia.
Qed.

Lemma dg_0 n : 0 <= n < 10 -> dg n 0 = n.
Proof. intros. unfold dg. rewrite Z.div_1_r. by apply Z.mod_small. Qed.

(** The digits from position [k] down, without leading zeros. *)
Definition lead (k : nat) (n : Z) : bytes := if 10 ^ Z.of_nat k <=? n then [digit (dg n (Z.of_nat k))] else [].
Fixpoint leads (k : nat) (n : Z) : bytes :=
  match k with
  | O => [digit (dg n 0)]
  | S k' => lead k n ++ leads k' n
  end.

Lemma lead_div k n : lead k (n / 10) = lead (S k) n.
Proof.
  unfold lead. assert (10 ^ Z.of_nat (S k) = 10 * 10 ^ Z.of_nat k) as E by (rewrite Nat2Z.inj_succ, Z.pow_succ_r by lia; done).
  assert (10 ^ Z.of_nat k <= n / 10 <-> 10 ^ Z.of_nat (S k) <= n) as Hiff.
  { rewrite E. split; intros; [|apply Z.div_le_lower_bound; lia]. pose proof (Z.mul_div_le n 10). lia. }
  destruct (Z.leb_spec (10 ^ Z.of_nat k) (n / 10)), (Z.leb_spec (10 ^ Z.of_nat (S k)) n); try lia; [|done].
  change (n / 10) with (n / 10 ^ 1). rewrite dg_div by lia. do 3 f_equal. lia.
Qed.

Lemma leads_low k n : leads (S k) n = (if 10 <=? n then leads k (n / 10) else []) ++ [digit (dg n 0)].
Proof.
  induction k as [|k IH].
  - change (leads 1 n) with (lead 1 n ++ leads 0 n). unfold lead. change (10 ^ Z.of_nat 1) with 10. case_match; [|done].
    cbn [leads]. change (n / 10) with (n / 10 ^ 1). by rewrite dg_div.
  - change (leads (S (S k)) n) with (lead (S (S k)) n ++ leads (S k) n). rewrite IH.
    destruct (Z.leb_spec 10 n) as [|Hlt].
    + change (leads (S k) (n / 10)) with (lead (S k) (n / 10) ++ leads k (n / 10)). by rewrite lead_div, app_assoc.
    + unfold lead. rewrite (proj2 (Z.leb_gt _ _)); [done|]. eapply Z.lt_le_trans; [done|].
      change 10 with (10 ^ 1) at 1. apply Z.pow_le_mono_r; lia.
Qed.

(** The schoolbook digits. *)
Lemma decimal_leads fuel k n : (k <= fuel)%nat -> 0 <= n < 10 ^ (Z.of_nat k + 1) -> decimal_pos fuel n = leads k n.
Proof.
  revert k n. induction fuel as [|fuel IH]; intros k n Hk Hn.
  - destruct k; [|lia]. cbn. rewrite dg_0; [done|]. exact Hn.
  - cbn [decimal_pos]. destruct k as [|k].
    { change (10 ^ (Z.of_nat 0 + 1)) with 10 in Hn. rewrite (proj2 (Z.ltb_lt _ _)) by lia. cbn [leads]. by rewrite dg_0 by lia. }
    rewrite leads_low. destruct (Z.ltb_spec n 10) as [Hlt|Hge].
    + rewrite (proj2 (Z.leb_gt _ _)) by lia. by rewrite dg_0 by lia.
    + rewrite (proj2 (Z.leb_le _ _)) by lia. rewrite <- IH; [unfold dg; by rewrite Z.div_1_r|lia|].
      rewrite Nat2Z.inj_succ in Hn. replace (Z.succ (Z.of_nat k) + 1) with (Z.succ (Z.of_nat k + 1)) in Hn by lia.
      rewrite Z.pow_succ_r in Hn by lia. split; [apply Z.div_pos; lia|apply Z.div_lt_upper_bound; lia].
Qed.

Lemma leads_full k n :
  10 ^ Z.of_nat k <= n -> leads k n = (fun j => digit (dg n (Z.of_nat j))) <$> reverse (seq 0 (S k)).
Proof.
  induction k as [|k IH]; intros Hn; [done|]. rewrite (seq_S (S k)), reverse_snoc. cbn [fmap list_fmap leads].
  rewrite IH by (etrans; [|exact Hn]; apply Z.pow_le_mono_r; lia). unfold lead. by rewrite (proj2 (Z.leb_le _ _) Hn).
Qed.

(** The digits from position [j] on, then those below. *)
Lemma leads_split k j n :
  10 ^ Z.of_nat j <= n -> leads (k + j) n = leads k (n / 10 ^ Z.of_nat j) ++ ((fun i => digit (dg n (Z.of_nat i))) <$> reverse (seq 0 j)).
Proof.
  revert n. induction j as [|j IH]; intros n Hn; [by rewrite Nat.add_0_r, Z.div_1_r, app_nil_r|].
  rewrite Nat2Z.inj_succ, Z.pow_succ_r in * by lia. pose proof (Z.pow_pos_nonneg 10 (Z.of_nat j)).
  rewrite Nat.add_succ_r, leads_low, (proj2 (Z.leb_le _ _)), IH by (try apply Z.div_le_lower_bound; lia). rewrite Z.div_div by lia.
  rewrite <- app_assoc. f_equal. cbn [seq]. rewrite reverse_cons, fmap_app. f_equal. rewrite <- fmap_S_seq, <- fmap_reverse, <- list_fmap_compose.
  apply list_fmap_ext. intros i x _. cbn. change (n / 10) with (n / 10 ^ 1). rewrite dg_div by lia. do 2 f_equal. lia.
Qed.

Lemma length_leads k n : alen (leads k n) <= Z.of_nat k + 1.
Proof.
  induction k as [|k IH]; cbn [leads]; [done|]. rewrite alen_app. unfold lead. case_match; rewrite ?alen_cons, alen_nil; lia.
Qed.

(** ** What is written *)

Definition writes (m : B unit) (b : bytes) : Prop := forall s, m s = Done tt (s ++ b).

Lemma writes_bind m k b c : writes m b -> writes k c -> writes (m;; k) (b ++ c).
Proof. intros H1 H2 s. erewrite bind_Done by apply H1. by rewrite H2, app_assoc. Qed.

Lemma writes_when (c : bool) m b : writes m b -> writes (when c m) (if c then b else []).
Proof. intros H s. destruct c; [apply H|]. cbn. by rewrite app_nil_r. Qed.

Lemma writes_digit a : writes (push_digit a) [digit a].
Proof. done. Qed.

Lemma lut_pairs : Forall (fun x => aget cDigitsLut (pair_index x) = Some (digit (dg x 1)) /\
  aget cDigitsLut (pair_index x + 1) = Some (digit (dg x 0))) (seqZ 0 100).
Proof. apply (bool_decide_unpack _). by vm_compute. Qed.

Lemma writes_high x : 0 <= x < 100 -> writes (push_lut (pair_index x)) [digit (dg x 1)].
Proof.
  intros Hx s. pose proof lut_pairs as H. rewrite Forall_forall in H. destruct (H x) as [E _]; [by apply elem_of_seqZ|].
  unfold push_lut. by rewrite E.
Qed.

Lemma writes_low x : 0 <= x < 100 -> writes (push_lut (pair_index x + 1)) [digit (dg x 0)].
Proof.
  intros Hx s. pose proof lut_pairs as H. rewrite Forall_forall in H. destruct (H x) as [_ E]; [by apply elem_of_seqZ|].
  unfold push_lut. by rewrite E.
Qed.

Lemma writes_eq m b b' : writes m b -> b = b' -> writes m b'.
Proof. by intros ? <-. Qed.

(** What a sequence of writes puts into the buffer. *)
Ltac write_pairs :=
  lazymatch goal with
  | |- writes (_;; _) _ => eapply writes_bind; [write_pairs|write_pairs]
  | |- writes (when _ _) _ => apply writes_when; write_pairs
  | |- writes (push_lut (pair_index _ + 1)) _ => apply writes_low; Z.div_mod_to_equations; lia
  | |- writes (push_lut (pair_index _)) _ => apply writes_high; Z.div_mod_to_equations; lia
  | |- writes (push_digit _) _ => apply writes_digit
  end.

(** The digits of quotients and remainders by powers of ten. *)
Ltac digits :=
  change 100000000 with (10 ^ 8); change 10000 with (10 ^ 4); change 100 with (10 ^ 2);
  repeat (rewrite ?dg_div, ?dg_mod by lia).

(** Eight digits, as the last lines of the branches write them. *)
Definition eight (n : Z) : bytes := (fun k => digit (dg n k)) <$> [7; 6; 5; 4; 3; 2; 1; 0].

Lemma writes_eight v : 0 <= v < 10 ^ 8 ->
  writes (push_lut (pair_index (v / 10000 / 100));; push_lut (pair_index (v / 10000 / 100) + 1);;
          push_lut (pair_index ((v / 10000) mod 100));; push_lut (pair_index ((v / 10000) mod 100) + 1);;
          push_lut (pair_index (v mod 10000 / 100));; push_lut (pair_index (v mod 10000 / 100) + 1);;
          push_lut (pair_index ((v mod 10000) mod 100));; push_lut (pair_index ((v mod 10000) mod 100) + 1))
    (eight v).
Proof. intros Hv. eapply writes_eq; [write_pairs|]. digits. reflexivity. Qed.

(** A number of [k + 1] digits. *)
Lemma decimal_full k n :
  (k <= 19)%nat -> 10 ^ Z.of_nat k <= n < 10 ^ (Z.of_nat k + 1) ->
  decimal_pos 19 n = (fun j => digit (dg n (Z.of_nat j))) <$> reverse (seq 0 (S k)).
Proof.
  intros Hk Hn. rewrite (decimal_leads 19 k); [apply leads_full; lia|done|]. split; [|lia]. pose proof (Z.pow_pos_nonneg 10 (Z.of_nat k)). lia.
Qed.

(** Numbers below 10^8, the branches that [u32toa] and [u64toa] share. *)
Lemma writes_small v : 0 <= v < 10 ^ 8 -> writes (u64toa_small v) (decimal_pos 19 v).
Proof.
  intros Hv. unfold u64toa_small. cbv zeta. rewrite uwrap_small by lia. destruct (Z.ltb_spec v 10000).
  - eapply writes_eq; [write_pairs|]. digits. by rewrite (decimal_leads 19 3) by (change (10 ^ (Z.of_nat 3 + 1)) with 10000; lia).
  - eapply writes_eq; [write_pairs|]. digits. rewrite (decimal_leads 19 7) by (change (10 ^ (Z.of_nat 7 + 1)) with (10 ^ 8); lia).
    change (leads 7 v) with (lead 7 v ++ lead 6 v ++ lead 5 v ++ leads 4 v). by rewrite (leads_full 4).
Qed.

Lemma writes_middle v : 10 ^ 8 <= v < 10 ^ 16 -> writes (u64toa_middle v) (decimal_pos 19 v).
Proof.
  intros Hv. unfold u64toa_middle. cbv zeta. change kTen8 with (10 ^ 8).
  assert (0 <= v / 10 ^ 8 < 10 ^ 8) by (Z.div_mod_to_equations; lia). assert (0 <= v mod 10 ^ 8 < 10 ^ 8) by (Z.div_mod_to_equations; lia).
  rewrite !uwrap_small by lia. eapply writes_eq.
  { do 8 (eapply writes_bind; [write_pairs|]). by apply writes_eight. }
  rewrite (decimal_leads 19 15) by (change (10 ^ (Z.of_nat 15 + 1)) with (10 ^ 16); lia). unfold eight. cbn [fmap list_fmap]. digits.
  change (leads 15 v) with (lead 15 v ++ lead 14 v ++ lead 13 v ++ lead 12 v ++ lead 11 v ++ lead 10 v ++ lead 9 v ++ lead 8 v ++ leads 7 v).
  rewrite (leads_full 7) by (change (10 ^ Z.of_nat 7) with (10 ^ 7); lia). reflexivity.
Qed.

Lemma writes_tail n : 0 <= n ->
  writes (u64toa_tail (n mod 10 ^ 16)) ((fun j => digit (dg n (Z.of_nat j))) <$> reverse (seq 0 16)).
Proof.
  intros Hn. set (r := n mod 10 ^ 16). assert (0 <= r < 10 ^ 16) as Hr by (apply Z.mod_pos_bound; lia).
  assert (0 <= r / 10 ^ 8 < 10 ^ 8) by (Z.div_mod_to_equations; lia). assert (0 <= r mod 10 ^ 8 < 10 ^ 8) by (Z.div_mod_to_equations; lia).
  unfold u64toa_tail. cbv zeta. change kTen8 with (10 ^ 8). rewrite !uwrap_small by lia. eapply writes_eq.
  { do 8 (eapply writes_bind; [write_pairs|]). by apply writes_eight. }
  unfold eight. cbn [fmap list_fmap]. digits. unfold r. repeat rewrite dg_mod by lia. reflexivity.
Qed.

Lemma writes_head a : 0 <= a < 10000 -> writes (u64toa_head a) (decimal_pos 19 a).
Proof.
  intros Ha. unfold u64toa_head. cbv zeta. destruct (Z.ltb_spec a 10); [|destruct (Z.ltb_spec a 100); [|destruct (Z.ltb_spec a 1000)]];
    (eapply writes_eq; [write_pairs|]).
  - rewrite (decimal_leads 19 0) by (change (10 ^ (Z.of_nat 0 + 1)) with 10; lia). cbn [leads]. by rewrite dg_0 by lia.
  - by rewrite (decimal_full 1) by (change (10 ^ Z.of_nat 1) with 10; change (10 ^ (Z.of_nat 1 + 1)) with 100; lia).
  - rewrite (decimal_full 2) by (change (10 ^ Z.of_nat 2) with 100; change (10 ^ (Z.of_nat 2 + 1)) with 1000; lia).
    rewrite <- (dg_0 (a / 100)) by (Z.div_mod_to_equations; lia). digits. reflexivity.
  - rewrite (decimal_full 3) by (change (10 ^ Z.of_nat 3) with 1000; change (10 ^ (Z.of_nat 3 + 1)) with 10000; lia).
    digits. reflexivity.
Qed.

Lemma writes_large v : 10 ^ 16 <= v < 2 ^ 64 -> writes (u64toa_large v) (decimal_pos 19 v).
Proof.
  intros Hv. unfold u64toa_large. change kTen16 with (10 ^ 16). cbv zeta.
  assert (0 <= v / 10 ^ 16 < 10000) as Ha by (Z.div_mod_to_equations; lia). rewrite uwrap_small by lia.
  rewrite (decimal_leads 19 (3 + 16)), (leads_split 3 16) by (lia || change (10 ^ (Z.of_nat (3 + 16) + 1)) with (10 ^ 20); lia).
  apply writes_bind; [|apply writes_tail; lia]. rewrite <- (decimal_leads 19 3) by (lia || done). by apply writes_head.
Qed.

Lemma writes_u64toa v : 0 <= v < 2 ^ 64 -> writes (u64toa v) (decimal_pos 19 v).
Proof.
  intros Hv. unfold u64toa. change kTen8 with (10 ^ 8). change kTen16 with (10 ^ 16).
  destruct (Z.ltb_spec v (10 ^ 8)); [by apply writes_small; lia|]. destruct (Z.ltb_spec v (10 ^ 16)); [by apply writes_middle; lia|by apply writes_large; lia].
Qed.

Lemma writes_u32toa v : 0 <= v < 2 ^ 32 -> writes (u32toa v) (decimal_pos 19 v).
Proof.
  intros Hv. destruct (Z.ltb_spec v (10 ^ 8)) as [Hlt|Hge].
  - assert (u32toa v = u64toa_small v) as ->; [|by apply writes_small; lia].
    unfold u32toa, u64toa_small. rewrite uwrap_small by lia. by rewrite (proj2 (Z.ltb_lt v 100000000) Hlt).
  - unfold u32toa. cbv zeta. rewrite !(proj2 (Z.ltb_ge _ _)) by lia. change 100000000 with (10 ^ 8).
    assert (0 < v / 10 ^ 8 < 100) as Ha by (Z.div_mod_to_equations; lia).
    rewrite (decimal_leads 19 (1 + 8)), (leads_split 1 8) by (lia || change (10 ^ (Z.of_nat (1 + 8) + 1)) with (10 ^ 10); lia).
    apply writes_bind.
    + rewrite <- (decimal_leads 19 1) by (lia || done). destruct (Z.leb_spec 10 (v / 10 ^ 8)); (eapply writes_eq; [write_pairs|]).
      * by rewrite (decimal_full 1) by (change (10 ^ Z.of_nat 1) with 10; change (10 ^ (Z.of_nat 1 + 1)) with 100; lia).
      * rewrite (decimal_leads 19 0) by (change (10 ^ (Z.of_nat 0 + 1)) with 10; lia). cbn [leads]. by rewrite dg_0 by lia.
    + eapply writes_eq; [apply (writes_eight (v mod 10 ^ 8)), Z.mod_pos_bound; lia|].
      unfold eight. cbn [fmap list_fmap]. repeat rewrite dg_mod by lia. reflexivity.
Qed.

(** [~u + 1] of the two's complement of a negative number. *)
Lemma negate_wrap w z : 0 < w -> - 2 ^ (w - 1) <= z < 0 -> uwrap w (Z.lnot (uwrap w z) + 1) = - z.
Proof.
  intros Hw Hz. assert (2 ^ w = 2 * 2 ^ (w - 1)) by (rewrite <- Z.pow_succ_r by lia; f_equal; lia).
  assert (Z.lnot (uwrap w z) + 1 = 0 - uwrap w z) as -> by (pose proof (Z.add_lnot_diag (uwrap w z)); lia).
  unfold uwrap. rewrite Zminus_mod_idemp_r, Z.sub_0_l. apply Z.mod_small. lia.
Qed.

Lemma length_decimal k z : (k <= 19)%nat -> Z.abs z < 10 ^ (Z.of_nat k + 1) -> alen (decimal z) <= Z.of_nat k + 2.
Proof.
  intros Hk Hz. unfold decimal. destruct (Z.ltb_spec z 0); rewrite ?alen_cons, (decimal_leads 19 k) by lia;
    [pose proof (length_leads k (- z))|pose proof (length_leads k z)]; lia.
Qed.

(** The signed conversion of width [w] over the unsigned one. *)
Lemma writes_signed w (utoa : Z -> B unit) value :
  0 < w -> (forall v, 0 <= v < 2 ^ w -> writes (utoa v) (decimal_pos 19 v)) -> in_s w value ->
  writes (let u := uwrap w value in if value <? 0 then push (z2b 45);; utoa (uwrap w (Z.lnot u + 1)) else utoa u) (decimal value).
Proof.
  intros Hw Hu Hv. assert (2 ^ w = 2 * 2 ^ (w - 1)) by (rewrite <- Z.pow_succ_r by lia; f_equal; lia). unfold in_s in Hv.
  unfold decimal. cbv zeta. destruct (Z.ltb_spec value 0).
  - rewrite negate_wrap by lia. change (z2b 45 :: ?l) with ([z2b 45] ++ l). apply writes_bind; [done|]. apply Hu. lia.
  - rewrite uwrap_small by lia. apply Hu. lia.
Qed.

(** C29: [i64toa_fast] writes the decimal text of every 64-bit integer and
    [i32toa_fast] that of every 32-bit integer, digit for digit what the schoolbook
    conversion gives, sign and all, with no index outside the table; the texts have
    at most 20 and 11 bytes, so that with the final zero they fit the buffers of 64
    bytes they are called with. *)
Theorem itoa_is_decimal :
  (forall value out, in_s 64 value ->
    i64toa_fast value out = Done tt (out ++ decimal value) /\ alen (decimal value) <= 20) /\
  (forall value out, in_s 32 value ->
    i32toa_fast value out = Done tt (out ++ decimal value) /\ alen (decimal value) <= 11).
Proof.
  split; intros value out Hv; split.
  - by apply (writes_signed 64 u64toa); [lia|apply writes_u64toa|].
  - unfold in_s in Hv. apply (length_decimal 18); [lia|]. change (10 ^ (Z.of_nat 18 + 1)) with (10 ^ 19). lia.
  - by apply (writes_signed 32 u32toa); [lia|apply writes_u32toa|].
  - unfold in_s in Hv. apply (length_decimal 9); [lia|]. change (10 ^ (Z.of_nat 9 + 1)) with (10 ^ 10). lia.
Qed.

Lemma itoa_is_decimal_witness :
  i64toa_fast (- 2 ^ 63) [] = Done tt (list_byte_of_string "-9223372036854775808") /\ i32toa_fast 70 [] = Done tt (list_byte_of_string "70").
Proof.
  split.
  - apply (proj1 itoa_is_decimal (- 2 ^ 63) []). unfold in_s. lia.
  - apply (proj2 itoa_is_decimal 70 []). unfold in_s. lia.
Defined.
