(* ===== verification/Dtoa.v ===== *)
(** * Decimal text of doubles (convert/milo/dtoa.cpp)

    The Grisu2 algorithm as the code has it: scaled boundaries of the double, a table
    of powers of ten, digit generation in 64-bit integers and the layout of the text.
    The theorems show where the text that [Prettify] lays out stands for the digits
    and exponent it is given, and that [DigitGen] leaves its table of powers for
    doubles with many digits. *)

From S2P Require Import Prelude Outcome LuaValue Itoa.

(** The caller's array; a pointer into it is an index. *)
Abbreviation B := (M bytes).

Definition write (i : Z) (c : byte) : B unit :=
  b ← get; require OutOfBounds (bool_decide (in_range b i));; put (aset b i c).

(** [memmove(&buffer[dst], &buffer[src], n)] with [size_t] [n]. *)
Definition memmove (dst src n : Z) : B unit :=
  b ← get;
  data ← deref OutOfBounds (slice b src (u64 n));
  b ← deref OutOfBounds (memcpy b dst data);
  put b.

Definition kDiySignificandSize : Z := 64.
Definition kDpSignificandSize : Z := 52.
Definition kDpExponentBias : Z := 0x3FF + kDpSignificandSize.
Definition kDpMinExponent : Z := - kDpExponentBias.
Definition kDpExponentMask : Z := 0x7FF0000000000000.
Definition kDpSignificandMask : Z := 0x000FFFFFFFFFFFFF.
Definition kDpHiddenBit : Z := 0x0010000000000000.

Record DiyFp := MkFp { f : Z; e : Z }.

Definition DiyFp_of_double (bits : Z) : DiyFp :=
  let biased_e := Z.shiftr (Z.land bits kDpExponentMask) kDpSignificandSize in
  let significand := Z.land bits kDpSignificandMask in
  if negb (biased_e =? 0) then MkFp (u64 (significand + kDpHiddenBit)) (biased_e - kDpExponentBias)
  else MkFp significand (kDpMinExponent + 1).

Definition minus (x y : DiyFp) : B DiyFp :=
  c_assert (e x =? e y);;
  c_assert (f y <=? f x);;
  mret (MkFp (f x - f y) (e x)).

(** The branch for gcc with 128-bit integers. *)
Definition times (x y : DiyFp) : DiyFp :=
  let p := f x * f y in
  let h := Z.shiftr p 64 in
  let l := u64 p in
  MkFp (if Z.testbit l 63 then u64 (h + 1) else h) (e x + e y + 64).

(** [__builtin_clzll] is undefined for 0. *)
Definition Normalize (x : DiyFp) : B DiyFp :=
  require UndefinedBehaviour (negb (f x =? 0));;
  let s := 63 - Z.log2 (f x) in
  mret (MkFp (u64 (Z.shiftl (f x) s)) (e x - s)).

(** A bit of [f] gets to its place in 64 rounds or never. *)
Definition NormalizeBoundary (x : DiyFp) : B DiyFp :=
  res ← loop 64 (fun res : DiyFp =>
    if Z.land (f res) (Z.shiftl kDpHiddenBit 1) =? 0 then mret (inl (MkFp (u64 (Z.shiftl (f res) 1)) (e res - 1)))
    else mret (inr res)) x;
  let s := kDiySignificandSize - kDpSignificandSize - 2 in
  mret (MkFp (u64 (Z.shiftl (f res) s)) (e res - s)).

(** The boundaries, the lower one first. *)
Definition NormalizedBoundaries (x : DiyFp) : B (DiyFp * DiyFp) :=
  pl ← NormalizeBoundary (MkFp (u64 (Z.shiftl (f x) 1 + 1)) (e x - 1));
  let mi := if f x =? kDpHiddenBit then MkFp (u64 (Z.shiftl (f x) 2 - 1)) (e x - 2) else MkFp (u64 (Z.shiftl (f x) 1 - 1)) (e x - 1) in
  require UndefinedBehaviour ((0 <=? e mi - e pl) && (e mi - e pl <? 64));;
  mret (MkFp (u64 (Z.shiftl (f mi) (e mi - e pl))) (e pl), pl).

(** 10^-348, 10^-340, ..., 10^340 *)
Definition kCachedPowers_F : list Z := [
   0xfa8fd5a0081c0288; 0xbaaee17fa23ebf76; 0x8b16fb203055ac76; 0xcf42894a5dce35ea;
   0x9a6bb0aa55653b2d; 0xe61acf033d1a45df; 0xab70fe17c79ac6ca; 0xff77b1fcbebcdc4f;
   0xbe5691ef416bd60c; 0x8dd01fad907ffc3c; 0xd3515c2831559a83; 0x9d71ac8fada6c9b5;
   0xea9c227723ee8bcb; 0xaecc49914078536d; 0x823c12795db6ce57; 0xc21094364dfb5637;
   0x9096ea6f3848984f; 0xd77485cb25823ac7; 0xa086cfcd97bf97f4; 0xef340a98172aace5;
   0xb23867fb2a35b28e; 0x84c8d4dfd2c63f3b; 0xc5dd44271ad3cdba; 0x936b9fcebb25c996;
   0xdbac6c247d62a584; 0xa3ab66580d5fdaf6; 0xf3e2f893dec3f126; 0xb5b5ada8aaff80b8;
   0x87625f056c7c4a8b; 0xc9bcff6034c13053; 0x964e858c91ba2655; 0xdff9772470297ebd;
   0xa6dfbd9fb8e5b88f; 0xf8a95fcf88747d94; 0xb94470938fa89bcf; 0x8a08f0f8bf0f156b;
   0xcdb02555653131b6; 0x993fe2c6d07b7fac; 0xe45c10c42a2b3b06; 0xaa242499697392d3;
   0xfd87b5f28300ca0e; 0xbce5086492111aeb; 0x8cbccc096f5088cc; 0xd1b71758e219652c;
   0x9c40000000000000; 0xe8d4a51000000000; 0xad78ebc5ac620000; 0x813f3978f8940984;
   0xc097ce7bc90715b3; 0x8f7e32ce7bea5c70; 0xd5d238a4abe98068; 0x9f4f2726179a2245;
   0xed63a231d4c4fb27; 0xb0de65388cc8ada8; 0x83c7088e1aab65db; 0xc45d1df942711d9a;
   0x924d692ca61be758; 0xda01ee641a708dea; 0xa26da3999aef774a; 0xf209787bb47d6b85;
   0xb454e4a179dd1877; 0x865b86925b9bc5c2; 0xc83553c5c8965d3d; 0x952ab45cfa97a0b3;
   0xde469fbd99a05fe3; 0xa59bc234db398c25; 0xf6c69a72a3989f5c; 0xb7dcbf5354e9bece;
   0x88fcf317f22241e2; 0xcc20ce9bd35c78a5; 0x98165af37b2153df; 0xe2a0b5dc971f303a;
   0xa8d9d1535ce3b396; 0xfb9b7cd9a4a7443c; 0xbb764c4ca7a44410; 0x8bab8eefb6409c1a;
   0xd01fef10a657842c; 0x9b10a4e5e9913129; 0xe7109bfba19c0c9d; 0xac2820d9623bf429;
   0x80444b5e7aa7cf85; 0xbf21e44003acdd2d; 0x8e679c2f5e44ff8f; 0xd433179d9c8cb841;
   0x9e19db92b4e31ba9; 0xeb96bf6ebadf77d9; 0xaf87023b9bf0ee6b].
Definition kCachedPowers_E : list Z := [
   (-1220); (-1193); (-1166); (-1140); (-1113); (-1087); (-1060); (-1034); (-1007); (-980); (-954); (-927); (-901); (-874); (-847);
   (-821); (-794); (-768); (-741); (-715); (-688); (-661); (-635); (-608); (-582); (-555); (-529); (-502); (-475); (-449);
   (-422); (-396); (-369); (-343); (-316); (-289); (-263); (-236); (-210); (-183); (-157); (-130); (-103); (-77); (-50);
   (-24); 3; 30; 56; 83; 109; 136; 162; 189; 216; 242; 269; 295; 322; 348;
   375; 402; 428; 455; 481; 508; 534; 561; 588; 614; 641; 667; 694; 720; 747;
   774; 800; 827; 853; 880; 907; 933; 960; 986; 1013; 1039; 1066].

(** [m * 2^k] rounded to a double, as mantissa and exponent. *)
Definition round_double (m k : Z) : Z * Z :=
  let '(q, k) := round_to 53 (-1074) (Z.abs m) k in (Z.sgn m * q, k).

(** [(-61 - e) * 0.30102999566398114 + 347] in doubles; the constant is
    0x1.34413509f79fep-2. *)
Definition decimal_estimate (e : Z) : Z * Z :=
  let '(m, k) := round_double ((-61 - e) * 0x134413509f79fe) (-54) in
  let k' := Z.min k 0 in
  round_double (m * 2 ^ (k - k') + 347 * 2 ^ (- k')) k'.

(** [k] is the ceiling of a positive double. *)
Definition GetCachedPower (e : Z) : B (DiyFp * Z) :=
  let '(m, x) := decimal_estimate e in
  let t := if 0 <=? x then m * 2 ^ x else Z.quot m (2 ^ (- x)) in
  let exact := if 0 <=? x then true else Z.rem m (2 ^ (- x)) =? 0 in
  let k := if exact then t else t + 1 in
  let index := u32 (Z.shiftr k 3 + 1) in
  c_assert (index <? alen kCachedPowers_F);;
  pf ← deref OutOfBounds (aget kCachedPowers_F index);
  pe ← deref OutOfBounds (aget kCachedPowers_E index);
  mret (MkFp pf pe, - (-348 + index * 8)).

(** The rest grows by [ten_kappa] as long as it is below [delta], which is less than
    ten of them. *)
Definition GrisuRound (at_ len delta rest ten_kappa wp_w : Z) : B unit :=
  loop 32 (fun rest =>
    if (rest <? wp_w) && (ten_kappa <=? u64 (delta - rest)) &&
       ((u64 (rest + ten_kappa) <? wp_w) || (u64 (rest + ten_kappa - wp_w) <? u64 (wp_w - rest)))
    then
      b ← get;
      c ← deref OutOfBounds (aget b (at_ + len - 1));
      write (at_ + len - 1) (z2b (b2z c - 1));;
      mret (inl (u64 (rest + ten_kappa)))
    else mret (inr tt)) rest.

Definition CountDecimalDigit32 (n : Z) : Z :=
  if n <? 10 then 1
  else if n <? 100 then 2
  else if n <? 1000 then 3
  else if n <? 10000 then 4
  else if n <? 100000 then 5
  else if n <? 1000000 then 6
  else if n <? 10000000 then 7
  else if n <? 100000000 then 8
  else if n <? 1000000000 then 9
  else 10.

Definition kPow10 : list Z := [1; 10; 100; 1000; 10000; 100000; 1000000; 10000000; 100000000; 1000000000].

(** The switch of the first loop: the divisor for [kappa]. *)
Definition kappa_divisor (kappa : Z) : B Z :=
  if kappa =? 10 then mret 1000000000
  else if kappa =? 9 then mret 100000000
  else if kappa =? 8 then mret 10000000
  else if kappa =? 7 then mret 1000000
  else if kappa =? 6 then mret 100000
  else if kappa =? 5 then mret 10000
  else if kappa =? 4 then mret 1000
  else if kappa =? 3 then mret 100
  else if kappa =? 2 then mret 10
  else if kappa =? 1 then mret 1
  else crash UndefinedBehaviour.

(** The digit [d], leading zeros left out; the new length. *)
Definition put_digit (at_ len d : Z) : B Z :=
  if negb (d =? 0) || negb (len =? 0) then write (at_ + len) (z2b (48 + d));; mret (len + 1) else mret len.

(** The integer part: at most ten digits. [inr]: the digits are done. *)
Definition DigitGen_int (at_ sh wp_w delta p2 p1 kappa : Z) (K : Z) : B (Z + Z * Z) :=
  loop 11 (fun st : Z * Z * Z =>
    let '(p1, kappa, len) := st in
    if kappa <=? 0 then mret (inr (inl len))
    else
      q ← kappa_divisor kappa;
      let d := p1 / q in
      let p1 := p1 mod q in
      len ← put_digit at_ len d;
      let kappa := kappa - 1 in
      let tmp := u64 (u64 (Z.shiftl p1 sh) + p2) in
      if tmp <=? delta then
        ten ← deref OutOfBounds (aget kPow10 kappa);
        GrisuRound at_ len delta tmp (u64 (Z.shiftl ten sh)) wp_w;;
        mret (inr (inr (len, K + kappa)))
      else mret (inl (p1, kappa, len))) (p1, kappa, 0).

(** The fraction: [delta] is at least 1 and grows tenfold, so that it passes the
    60-bit fraction within 19 rounds. *)
Definition DigitGen_frac (at_ sh wp_w delta p2 len : Z) (K : Z) : B (Z * Z) :=
  loop 20 (fun st : Z * Z * Z * Z =>
    let '(p2, delta, kappa, len) := st in
    let p2 := u64 (p2 * 10) in
    let delta := u64 (delta * 10) in
    let d := swrap 8 (Z.shiftr p2 sh) in
    len ← put_digit at_ len d;
    let p2 := Z.land p2 (2 ^ sh - 1) in
    let kappa := kappa - 1 in
    if p2 <? delta then
      ten ← deref OutOfBounds (aget kPow10 (- kappa));
      GrisuRound at_ len delta p2 (2 ^ sh) (u64 (wp_w * ten));;
      mret (inr (len, K + kappa))
    else mret (inl (p2, delta, kappa, len))) (p2, delta, 0, len).

(** Returns the number of digits and [K]. *)
Definition DigitGen (W Mp : DiyFp) (delta : Z) (at_ : Z) (K : Z) : B (Z * Z) :=
  let sh := - e Mp in
  require UndefinedBehaviour ((0 <=? sh) && (sh <? 64));;
  wp_w ← minus Mp W;
  let p1 := u32 (Z.shiftr (f Mp) sh) in
  let p2 := Z.land (f Mp) (2 ^ sh - 1) in
  r ← DigitGen_int at_ sh (f wp_w) delta p2 p1 (CountDecimalDigit32 p1) K;
  match r with
  | inr done => mret done
  | inl len => DigitGen_frac at_ sh (f wp_w) delta p2 len K
  end.

Definition Grisu2 (value at_ : Z) : B (Z * Z) :=
  let v := DiyFp_of_double value in
  '(w_m, w_p) ← NormalizedBoundaries v;
  '(c_mk, K) ← GetCachedPower (e w_p);
  n ← Normalize v;
  let W := times n c_mk in
  let Wp := times w_p c_mk in
  let Wm := times w_m c_mk in
  let Wm := MkFp (u64 (f Wm + 1)) (e Wm) in
  let Wp := MkFp (u64 (f Wp - 1)) (e Wp) in
  DigitGen W Wp (u64 (f Wp - f Wm)) at_ K.

(** ** The text *)

(** The table of pairs is the one of itoa.cpp. *)
Definition GetDigitsLut : bytes := cDigitsLut.

Definition write_two (i K : Z) : B unit :=
  d0 ← deref OutOfBounds (aget GetDigitsLut (K * 2));
  d1 ← deref OutOfBounds (aget GetDigitsLut (K * 2 + 1));
  write i d0;; write (i + 1) d1.

Definition WriteExponent (K i : Z) : B unit :=
  '(K, i) ← (if K <? 0 then write i (z2b 45);; mret (- K, i + 1) else mret (K, i));
  i ← (if 100 <=? K then write i (z2b (48 + K / 100));; write_two (i + 1) (K mod 100);; mret (i + 3)
       else if 10 <=? K then write_two i K;; mret (i + 2)
       else write i (z2b (48 + K));; mret (i + 1));
  write i (z2b 0).

(** ['0'] in the places from [i] to before [j]. *)
Definition write_zeros (i j : Z) : B unit := for_each (seqZ i (j - i)) (fun k => write k (z2b 48)).

Definition Prettify (at_ length k : Z) : B unit :=
  let kk := length + k in
  if (length <=? kk) && (kk <=? 21) then
    write_zeros (at_ + length) (at_ + kk);;
    write (at_ + kk) (z2b 46);;
    write (at_ + kk + 1) (z2b 48);;
    write (at_ + kk + 2) (z2b 0)
  else if (0 <? kk) && (kk <=? 21) then
    memmove (at_ + kk + 1) (at_ + kk) (length - kk);;
    write (at_ + kk) (z2b 46);;
    write (at_ + length + 1) (z2b 0)
  else if (-6 <? kk) && (kk <=? 0) then
    let offset := 2 - kk in
    memmove (at_ + offset) at_ length;;
    write at_ (z2b 48);;
    write (at_ + 1) (z2b 46);;
    write_zeros (at_ + 2) (at_ + offset);;
    write (at_ + length + offset) (z2b 0)
  else if length =? 1 then
    write (at_ + 1) (z2b 101);;
    WriteExponent (kk - 1) (at_ + 2)
  else
    memmove (at_ + 2) (at_ + 1) (length - 1);;
    write (at_ + 1) (z2b 46);;
    write (at_ + length + 1) (z2b 101);;
    WriteExponent (kk - 1) (at_ + length + 2).

Definition is_inf (bits : Z) : bool := (dbl_exp bits =? 2047) && (dbl_man bits =? 0).

(** Zero and minus zero. *)
Definition is_zero (bits : Z) : bool := (dbl_exp bits =? 0) && (dbl_man bits =? 0).

Definition dtoa_fast (value : Z) : B unit :=
  c_assert (negb (is_nan value));;
  c_assert (negb (is_inf value));;
  if is_zero value then write 0 (z2b 48);; write 1 (z2b 46);; write 2 (z2b 48);; write 3 (z2b 0)
  else
    '(value, at_) ← (if dbl_neg value then write 0 (z2b 45);; mret (Z.clearbit value 63, 1) else mret (value, 0));
    '(length, K) ← Grisu2 value at_;
    Prettify at_ length K.

(** ** The table of powers *)

(** The fraction loop after [j] rounds, as long as the fraction is not
    below [delta]. *)
Lemma frac_rounds fuel j at_ sh wp_w delta p2 len K buf :
  0 <= sh <= 60 -> 0 <= j -> 20 <= Z.of_nat fuel + j -> 1 <= delta ->
  (forall i, j < i <= 9 -> delta * 10 ^ i <= (p2 * 10 ^ i) mod 2 ^ sh) -> delta * 10 ^ j <= (p2 * 10 ^ j) mod 2 ^ sh ->
  0 <= at_ -> 0 <= len -> at_ + len + Z.of_nat fuel <= alen buf ->
  loop fuel (fun st : Z * Z * Z * Z =>
    let '(p2, delta, kappa, len) := st in
    let p2 := u64 (p2 * 10) in
    let delta := u64 (delta * 10) in
    let d := swrap 8 (Z.shiftr p2 sh) in
    len ← put_digit at_ len d;
    let p2 := Z.land p2 (2 ^ sh - 1) in
    let kappa := kappa - 1 in
    if p2 <? delta then
      ten ← deref OutOfBounds (aget kPow10 (- kappa));
      GrisuRound at_ len delta p2 (2 ^ sh) (u64 (wp_w * ten));;
      mret (inr (len, K + kappa))
    else mret (inl (p2, delta, kappa, len))) ((p2 * 10 ^ j) mod 2 ^ sh, delta * 10 ^ j, - j, len) buf = Fault OutOfBounds.
Proof.
  intros Hsh Hj Hfuel Hd Hlow Hjj Hat. revert j len buf Hj Hfuel Hlow Hjj. induction fuel as [|fuel IH]; intros j len buf Hj Hfuel Hlow Hjj Hlen Hbuf.
  - exfalso. assert (2 ^ sh <= 2 ^ 60) by (apply Z.pow_le_mono_r; lia). assert (10 ^ 20 <= 10 ^ j) by (apply Z.pow_le_mono_r; lia).
    pose proof (Z.mod_pos_bound (p2 * 10 ^ j) (2 ^ sh) ltac:(lia)). nia.
  - cbn [loop]. set (q := (p2 * 10 ^ j) mod 2 ^ sh) in *. assert (0 <= q < 2 ^ sh) as Hq by (apply Z.mod_pos_bound; lia).
    assert (2 ^ sh <= 2 ^ 60) as Hs60 by (apply Z.pow_le_mono_r; lia).
    assert (0 < 10 ^ j) by (apply Z.pow_pos_nonneg; lia). rewrite !uwrap_small by nia.
    assert (exists len' buf', put_digit at_ len (swrap 8 (Z.shiftr (q * 10) sh)) buf = Done len' buf' /\ alen buf' = alen buf /\ 0 <= len' <= len + 1) as (len' & buf' & Ep & Hb & Hl').
    { unfold put_digit, write. destruct (negb _ || negb _); [|by exists len, buf; split_and!; try lia].
      eexists (len + 1), _. split; [|split; [apply (alen_aset _ (at_ + len))|lia]]. erewrite bind_Done; [reflexivity|].
      erewrite bind_Done by reflexivity. rewrite bool_decide_eq_true_2 by (unfold in_range; lia). erewrite bind_Done by reflexivity. reflexivity. }
    assert (Z.land (q * 10) (2 ^ sh - 1) = (p2 * 10 ^ (j + 1)) mod 2 ^ sh) as Eq.
    { replace (2 ^ sh - 1) with (Z.ones sh) by (rewrite Z.ones_equiv; lia). rewrite Z.land_ones by lia. unfold q.
      rewrite Z.mul_mod_idemp_l, <- Z.mul_assoc, Z.add_1_r, Z.pow_succ_r by lia. by rewrite (Z.mul_comm 10). }
    assert (delta * 10 ^ j * 10 = delta * 10 ^ (j + 1)) as Ed by (rewrite Z.add_1_r, Z.pow_succ_r by lia; lia).
    rewrite bind_assoc. erewrite bind_Done by exact Ep. rewrite Eq, Ed. replace (- j - 1) with (- (j + 1)) by lia. rewrite Z.opp_involutive.
    destruct (Z.ltb_spec ((p2 * 10 ^ (j + 1)) mod 2 ^ sh) (delta * 10 ^ (j + 1))) as [Hlt|Hge].
    + destruct (decide (j + 1 <= 9)); [specialize (Hlow (j + 1)); lia|].
      rewrite (aget_None kPow10) by (unfold in_range; change (alen kPow10) with 10; lia). done.
    + erewrite bind_Done by reflexivity. apply IH; [lia|lia|intros; apply Hlow; lia|done|lia|lia].
Qed.

Definition str64 : bytes := replicate 64 (z2b 0).

(** [DigitGen] reads behind its table of ten powers of ten whenever the fraction
    needs ten digits or more: while the first nine rounds leave the fraction at or
    above [delta], the loop ends with a read of [kPow10] outside of it, whatever the
    other numbers are. The double next to one third is such a number. *)
Theorem dtoa_leaves_table :
  (forall at_ sh wp_w delta p2 len K buf,
    0 <= sh <= 60 -> 1 <= delta <= p2 -> p2 < 2 ^ sh ->
    (forall i, 1 <= i <= 9 -> delta * 10 ^ i <= (p2 * 10 ^ i) mod 2 ^ sh) ->
    0 <= at_ -> 0 <= len -> at_ + len + 20 <= alen buf ->
    DigitGen_frac at_ sh wp_w delta p2 len K buf = Fault OutOfBounds) /\
  dtoa_fast 0x3FD5555555555555 str64 = Fault OutOfBounds.
Proof.
  split; [|by vm_compute]. intros at_ sh wp_w delta p2 len K buf Hsh Hd Hp Hi Hat Hlen Hbuf.
  assert ((p2 * 10 ^ 0) mod 2 ^ sh = p2) as E by (rewrite Z.mul_1_r; apply Z.mod_small; lia).
  pose proof (frac_rounds 20 0 at_ sh wp_w delta p2 len K buf) as H. rewrite E, Z.mul_1_r in H.
  apply H; [lia|lia|lia|lia|intros; apply Hi; lia|lia|lia|lia|lia].
Qed.

(** A fraction of one seventh. *)
Lemma dtoa_leaves_table_witness : DigitGen_frac 0 60 5 1 (2 ^ 60 / 7) 0 0 str64 = Fault OutOfBounds.
Proof.
  apply (proj1 dtoa_leaves_table); [lia| |by vm_compute| |lia|lia|by vm_compute].
  - split; [lia|by vm_compute].
  - intros i Hi. assert (i ∈ seqZ 1 9) as Hin by (apply elem_of_seqZ; lia). clear Hi. revert i Hin.
    apply (proj1 (Forall_forall _ _)). apply (bool_decide_unpack _). by vm_compute.
Defined.
