(* ===== verification/Strtod.v ===== *)
(** * Numbers in text (C's strtod and conversions)

    [strtod] of the C library in the C locale, as far as lua-redis.c uses it: the
    value, and whether there is a number at all; and the conversions of a double to
    integers. The lemmas show that the decimal text of an integer below 2^53 is read
    as that integer. *)

From S2P Require Import Prelude Outcome LuaValue Itoa.

Definition is_space (c : byte) : bool := (b2z c =? 32) || ((9 <=? b2z c) && (b2z c <=? 13)).

Fixpoint skip_space (b : bytes) : bytes :=
  match b with c :: r => if is_space c then skip_space r else b | [] => [] end.

(** An optional sign. *)
Definition read_sign (b : bytes) : bool * bytes :=
  match b with
  | c :: r => if b2z c =? 45 then (true, r) else if b2z c =? 43 then (false, r) else (false, b)
  | [] => (false, [])
  end.

Definition dec_digit (c : byte) : option Z := if (48 <=? b2z c) && (b2z c <=? 57) then Some (b2z c - 48) else None.
Definition hex_digit (c : byte) : option Z :=
  let c := b2z c in
  if (48 <=? c) && (c <=? 57) then Some (c - 48)
  else if (65 <=? c) && (c <=? 70) then Some (c - 55)
  else if (97 <=? c) && (c <=? 102) then Some (c - 87) else None.

Section number.
Context (value : byte -> option Z).

(** The digits at the start and what follows. *)
Fixpoint read_digits (b : bytes) : list Z * bytes :=
  match b with
  | c :: r => match value c with Some d => let '(l, r) := read_digits r in (d :: l, r) | None => ([], b) end
  | [] => ([], [])
  end.

(** Digits with an optional point: the digits, how many of them are behind the point, the rest. *)
Definition read_mantissa (b : bytes) : list Z * Z * bytes :=
  let '(ds, r) := read_digits b in
  match r with
  | c :: r' => if b2z c =? 46 then let '(fs, r'') := read_digits r' in (ds ++ fs, alen fs, r'') else (ds, 0, r)
  | [] => (ds, 0, [])
  end.
End number.

(** An exponent behind the letter [letter] (given in lower case); 0 when it has no digits. *)
Definition read_exponent (letter : Z) (b : bytes) : Z :=
  match b with
  | c :: r =>
      if (b2z c =? letter) || (b2z c =? letter - 32) then
        let '(neg, r) := read_sign r in
        let '(ds, _) := read_digits dec_digit r in
        let x := foldl (fun n d => n * 10 + d) 0 ds in
        if neg then - x else x
      else 0
  | [] => 0
  end.

(** [m * 10^x] rounded to a double: a quotient gets 64 bits and a sticky bit. *)
Definition dec_double (neg : bool) (m x : Z) : Z :=
  if 0 <=? x then encode_ieee 52 11 neg (m * 10 ^ x) 0
  else
    let d := 10 ^ (- x) in
    let s := Z.max 0 (Z.log2 d - Z.log2 m + 66) in
    let q := m * 2 ^ s / d in
    encode_ieee 52 11 neg (2 * q + (if (m * 2 ^ s) mod d =? 0 then 0 else 1)) (- s - 1).

Definition lower (c : byte) : Z := if (65 <=? b2z c) && (b2z c <=? 90) then b2z c + 32 else b2z c.

(** [None] when there is no number. *)
Definition strtod (b : bytes) : option Z :=
  let '(neg, b) := read_sign (skip_space b) in
  let sign := if neg then 2 ^ 63 else 0 in
  let word := lower <$> take 3 b in
  if bool_decide (word = [105; 110; 102]) then Some (sign + 2047 * 2 ^ 52)
  else if bool_decide (word = [110; 97; 110]) then Some (sign + 2047 * 2 ^ 52 + 2 ^ 51)
  else
    let '(hs, hf, hr) := read_mantissa hex_digit (drop 2 b) in
    if bool_decide (take 2 word = [48; 120]) && negb (bool_decide (hs = [])) then
      Some (encode_ieee 52 11 neg (foldl (fun n d => n * 16 + d) 0 hs) (read_exponent 112 hr - 4 * hf))
    else
      let '(ds, df, dr) := read_mantissa dec_digit b in
      if bool_decide (ds = []) then None
      else Some (dec_double neg (foldl (fun n d => n * 10 + d) 0 ds) (read_exponent 101 dr - df)).

(** The conversion of a double to an integer of [w] bits, undefined outside its range. *)
Definition double_int (w bits : Z) : option Z :=
  let e := dbl_exp bits in
  if e =? 2047 then None else
  let man := if e =? 0 then dbl_man bits else dbl_man bits + 2 ^ 52 in
  let k := Z.max e 1 - 1075 in
  let abs := if k <? 0 then man / 2 ^ (- k) else man * 2 ^ k in
  let z := if dbl_neg bits then - abs else abs in
  if (- 2 ^ (w - 1) <=? z) && (z <? 2 ^ (w - 1)) then Some z else None.
#[global] Arguments double_int : simpl never.

(** ** Integers *)

(** The parts of a double with an integer value. *)
Lemma encode_int_parts neg m :
  0 < m < 2 ^ 53 ->
  let sh := 52 - Z.log2 m in
  0 <= sh <= 52 /\ 2 ^ 52 <= m * 2 ^ sh < 2 ^ 53 /\
  encode_ieee 52 11 neg m 0 = (if neg then 2 ^ 63 else 0) + (1075 - sh) * 2 ^ 52 + (m * 2 ^ sh - 2 ^ 52).
Proof.
  intros Hm sh. pose proof (Z.log2_spec m ltac:(lia)) as [Hl Hu]. pose proof (Z.log2_nonneg m).
  assert (Z.log2 m < 53) by (apply Z.log2_lt_pow2; lia).
  assert (2 ^ 52 = 2 ^ Z.log2 m * 2 ^ sh) as E1 by (rewrite <- Z.pow_add_r by lia; f_equal; lia).
  assert (2 ^ 53 = 2 ^ Z.succ (Z.log2 m) * 2 ^ sh) as E2 by (rewrite <- Z.pow_add_r by lia; f_equal; lia).
  assert (0 < 2 ^ sh) by lia. assert (2 ^ 52 <= m * 2 ^ sh < 2 ^ 53) as Hr by (rewrite E1, E2; nia).
  split_and!; [lia|lia|lia|lia|]. unfold encode_ieee. change (1 - (2 ^ (11 - 1) - 1) - 52) with (-1074).
  assert (round_to (52 + 1) (-1074) m 0 = (m, 0)) as -> by (unfold round_to; by rewrite (proj2 (Z.leb_le _ 0)) by lia).
  rewrite (proj2 (Z.eqb_neq m 0)) by lia.
  replace (Z.min (52 - Z.log2 m) (0 - -1074)) with sh by lia. rewrite (proj2 (Z.leb_le 0 sh)) by lia.
  rewrite (proj2 (Z.ltb_ge _ _)) by lia. change (2 ^ (11 - 1) - 1) with 1023. change (2 ^ 11 - 1) with 2047.
  rewrite (proj2 (Z.leb_gt _ _)) by lia. change (2 ^ (52 + 11)) with (2 ^ 63). replace (0 - sh + 1023 + 52) with (1075 - sh) by lia.
  rewrite <- (Z.mod_unique (m * 2 ^ sh) (2 ^ 52) 1 (m * 2 ^ sh - 2 ^ 52)) by lia. done.
Qed.

Lemma bits_parts (neg : bool) x y :
  0 <= x < 2 ^ 11 -> 0 <= y < 2 ^ 52 ->
  let b := (if neg then 2 ^ 63 else 0) + x * 2 ^ 52 + y in
  dbl_exp b = x /\ dbl_man b = y /\ dbl_neg b = neg.
Proof.
  intros Hx Hy b. unfold dbl_exp, dbl_man, dbl_neg.
  change 2047 with (Z.ones 11). rewrite !Z.land_ones, Z.shiftr_div_pow2 by lia.
  set (s := if neg then 2048 else 0). assert (b = (s + x) * 2 ^ 52 + y) as -> by (unfold b, s; destruct neg; lia).
  rewrite Z.div_add_l, (Z.div_small y) by lia. split_and!.
  - unfold s. destruct neg; Z.div_mod_to_equations; lia.
  - rewrite Z.add_comm, Z.mod_add, Z.mod_small by lia. done.
  - rewrite Z.testbit_eqb by lia. replace (((s + x) * 2 ^ 52 + y) / 2 ^ 63) with (if neg then 1 else 0).
    + by destruct neg.
    + apply (Z.div_unique _ _ _ (x * 2 ^ 52 + y)); [|unfold s; destruct neg; lia]. lia.
Qed.

(** The fields of a double with an integer value: the mantissa is the integer, shifted. *)
Lemma encode_int_fields neg m : 0 <= m < 2 ^ 53 ->
  let b := encode_ieee 52 11 neg m 0 in
  let k := Z.max (dbl_exp b) 1 - 1075 in
  dbl_neg b = neg /\ dbl_exp b <> 2047 /\ k <= 0 /\ (if dbl_exp b =? 0 then dbl_man b else dbl_man b + 2 ^ 52) = m * 2 ^ (- k).
Proof.
  intros Hm. cbv zeta. destruct (decide (m = 0)) as [->|Hne]; [by destruct neg|].
  destruct (encode_int_parts neg m) as (Hsh & Hr & ->); [lia|]. set (sh := 52 - Z.log2 m) in *.
  destruct (bits_parts neg (1075 - sh) (m * 2 ^ sh - 2 ^ 52)) as (-> & -> & ->); [lia|lia|].
  rewrite (proj2 (Z.eqb_neq _ 0)) by lia. replace (Z.max (1075 - sh) 1 - 1075) with (- sh) by lia. rewrite Z.opp_involutive.
  split_and!; [done|lia|lia|lia].
Qed.

Lemma shifted_back m k : k <= 0 -> (if k <? 0 then m * 2 ^ (- k) / 2 ^ (- k) else m * 2 ^ (- k) * 2 ^ k) = m.
Proof.
  intros Hk. destruct (Z.ltb_spec k 0); [apply Z.div_mul; lia|]. replace k with 0 by lia. lia.
Qed.

(** [(double)z] converts back to [z] when both types hold it. *)
Lemma double_int_double w z : in_s w z -> Z.abs z < 2 ^ 53 -> double_int w (int_double z) = Some z.
Proof.
  unfold in_s. intros Hzw Hz. unfold int_double. destruct (encode_int_fields (z <? 0) (Z.abs z)) as (En & He & Hk & Em); [lia|].
  unfold double_int. cbv zeta. rewrite (proj2 (Z.eqb_neq _ _) He), Em, En, shifted_back by done.
  replace (if z <? 0 then - Z.abs z else Z.abs z) with z by (destruct (Z.ltb_spec z 0); lia).
  by rewrite (proj2 (Z.leb_le _ _)), (proj2 (Z.ltb_lt _ _)) by lia.
Qed.

Lemma float_int_double z : Z.abs z < 2 ^ 53 -> float_int (int_double z) = Some z.
Proof.
  intros Hz. unfold int_double. destruct (encode_int_fields (z <? 0) (Z.abs z)) as (En & He & Hk & Em); [lia|].
  unfold float_int. cbv zeta. rewrite (proj2 (Z.eqb_neq _ _) He), Em, En, shifted_back, Z.mod_mul, andb_false_r by (done || lia).
  replace (if z <? 0 then - Z.abs z else Z.abs z) with z by (destruct (Z.ltb_spec z 0); lia).
  by rewrite (proj2 (Z.leb_le _ _)), (proj2 (Z.ltb_lt _ _)) by lia.
Qed.

(** *** Decimal text *)

Lemma dec_digit_digit d : 0 <= d < 10 -> dec_digit (digit d) = Some d.
Proof.
  intros. unfold dec_digit, digit. rewrite b2z_z2b_small by lia.
  rewrite (proj2 (Z.leb_le _ _)), (proj2 (Z.leb_le _ _)) by lia. cbn. f_equal. lia.
Qed.

Lemma read_digits_app value (l : list Z) (t : Z -> byte) r :
  (forall d, d ∈ l -> value (t d) = Some d) -> (forall c r', r = c :: r' -> value c = None) -> read_digits value ((t <$> l) ++ r) = (l, r).
Proof.
  intros H Hr. induction l as [|d l IH]; cbn.
  - destruct r as [|c r']; [done|]. cbn. by rewrite (Hr c r').
  - rewrite H by left. rewrite IH; [done|]. intros x Hx. apply H. by right.
Qed.

(** The digits of a number. *)
Fixpoint digit_list (fuel : nat) (n : Z) : list Z :=
  match fuel with
  | O => [n]
  | S fuel => if n <? 10 then [n] else digit_list fuel (n / 10) ++ [n mod 10]
  end.

Lemma decimal_digit_list fuel n : decimal_pos fuel n = digit <$> digit_list fuel n.
Proof. revert n. induction fuel as [|fuel IH]; intros n; cbn; [done|]. case_match; [done|]. by rewrite IH, fmap_app. Qed.

Lemma digit_list_value fuel n : foldl (fun n d => n * 10 + d) 0 (digit_list fuel n) = n.
Proof.
  revert n. induction fuel as [|fuel IH]; intros n; cbn; [done|]. case_match; [done|]. rewrite foldl_app, IH. cbn.
  pose proof (Z.div_mod n 10). lia.
Qed.

Lemma digit_list_range fuel n d : 0 <= n < 10 ^ (Z.of_nat fuel + 1) -> d ∈ digit_list fuel n -> 0 <= d < 10.
Proof.
  revert n. induction fuel as [|fuel IH]; intros n Hn; cbn [digit_list].
  - intros ->%list_elem_of_singleton. exact Hn.
  - destruct (Z.ltb_spec n 10); [intros ->%list_elem_of_singleton; lia|].
    intros [Hd| ->%list_elem_of_singleton]%elem_of_app; [|apply Z.mod_pos_bound; lia].
    apply (IH (n / 10)); [|done]. rewrite Nat2Z.inj_succ in Hn. replace (Z.succ (Z.of_nat fuel) + 1) with (Z.succ (Z.of_nat fuel + 1)) in Hn by lia.
    rewrite Z.pow_succ_r in Hn by lia. split; [apply Z.div_pos; lia|apply Z.div_lt_upper_bound; lia].
Qed.

Lemma digit_list_cons fuel n : exists d l, digit_list fuel n = d :: l.
Proof.
  revert n. induction fuel as [|fuel IH]; intros n; cbn; [by eexists _, _|]. case_match; [by eexists _, _|].
  destruct (IH (n / 10)) as (d & l & ->). by eexists _, _.
Qed.

Lemma lower_digit d : 0 <= d < 10 -> lower (digit d) = 48 + d.
Proof. intros. unfold lower, digit. rewrite b2z_z2b_small by lia. by rewrite (proj2 (Z.leb_gt 65 _)) by lia. Qed.

(** Digits behind a sign. *)
Lemma strtod_digits (neg : bool) d l :
  (forall x, x ∈ d :: l -> 0 <= x < 10) ->
  strtod ((if neg then [z2b 45] else []) ++ (digit <$> d :: l)) = Some (dec_double neg (foldl (fun n d => n * 10 + d) 0 (d :: l)) 0).
Proof.
  intros Hr. assert (0 <= d < 10) as Hd by (apply Hr; left). set (b := digit <$> d :: l).
  assert (b2z (digit d) = 48 + d) as Eb by (unfold digit; rewrite b2z_z2b_small by lia; done).
  assert (read_sign (skip_space ((if neg then [z2b 45] else []) ++ b)) = (neg, b)) as Es.
  { destruct neg; [done|]. unfold b. cbn [fmap list_fmap app skip_space]. unfold is_space. rewrite Eb.
    rewrite (proj2 (Z.eqb_neq _ _)), (proj2 (Z.leb_gt _ 13)), andb_false_r by lia. cbn [orb read_sign]. rewrite Eb.
    by rewrite !(proj2 (Z.eqb_neq _ _)) by lia. }
  assert (read_mantissa dec_digit b = (d :: l, 0, [])) as Em.
  { unfold read_mantissa, b. rewrite <- (app_nil_r (digit <$> d :: l)), (read_digits_app dec_digit (d :: l) digit); [done| |done].
    intros x Hx. by apply dec_digit_digit, Hr. }
  assert (lower <$> take 3 b = (48 + d) :: (lower <$> take 2 (digit <$> l))) as Ew.
  { unfold b. cbn [fmap list_fmap take]. by rewrite lower_digit. }
  unfold strtod. rewrite Es. cbv zeta. rewrite Ew, !(bool_decide_eq_false_2 (_ :: _ = _)).
  - destruct (read_mantissa hex_digit (drop 2 b)) as [[hs hf] hr]. assert (bool_decide (take 2 ((48 + d) :: (lower <$> take 2 (digit <$> l))) = [48; 120]) = false) as ->.
    { apply bool_decide_eq_false_2. destruct l as [|x l]; cbn [fmap list_fmap take]; [done|].
      assert (0 <= x < 10) by (apply Hr; right; left). rewrite (lower_digit x) by done. intros [=]. lia. }
    cbn [andb]. rewrite Em, bool_decide_eq_false_2 by done. reflexivity.
  - intros [=]. lia.
  - intros [=]. lia.
Qed.

(** The decimal text of an integer is read as that integer. *)
Lemma strtod_decimal z : Z.abs z < 2 ^ 53 -> strtod (decimal z) = Some (int_double z).
Proof.
  intros Hz. assert (forall (neg : bool) n, 0 <= n < 2 ^ 53 ->
    strtod ((if neg then [z2b 45] else []) ++ decimal_pos 19 n) = Some (encode_ieee 52 11 neg n 0)) as H.
  { intros neg n Hn. rewrite decimal_digit_list. destruct (digit_list_cons 19 n) as (d & l & E). rewrite E, strtod_digits.
    - rewrite <- E, digit_list_value. unfold dec_double. cbn [Z.leb Z.compare]. by rewrite Z.mul_1_r.
    - intros x Hx. apply (digit_list_range 19 n); [|by rewrite E]. change (10 ^ (Z.of_nat 19 + 1)) with (10 ^ 20). lia. }
  unfold decimal, int_double. destruct (Z.ltb_spec z 0).
  - rewrite Z.abs_neq by lia. apply (H true). lia.
  - rewrite Z.abs_eq by lia. apply (H false). lia.
Qed.
