(* ===== verification/Redis.v ===== *)
(** * The redis client (lua-redis.c)

    [_cmd] writes a command, an array of strings, in the protocol of redis; the
    collector takes the pieces of the reply stream ([_push]) and gives back one reply
    at a time ([_pop]), keeping its place in a phase and a cursor while a reply is
    not complete. The theorems show that complete replies are delivered exactly,
    however the stream is cut into buffers, that a command comes back as the strings
    it was made of, and on which streams the collector fails. *)

From Stdlib Require Import String.
From S2P Require Import Prelude Outcome Codec LuaValue Itoa Dtoa Strtod.

Definition BUFFER_SIZE : Z := 1024.
Definition PHASE_BEGIN : Z := 1.
Definition PHASE_STATUS : Z := 2.
Definition PHASE_NUMBER : Z := 3.
Definition PHASE_STRING : Z := 4.
Definition PHASE_ARRAY : Z := 5.

(** ** Commands *)

Record write_buffer := MkWb { ptr : bytes; wsize : Z; woffset : Z }.
Abbreviation W := (M write_buffer).

(** [i32toa_fast(n, str)] and the like with [*end = 0]: the text, when it fits. *)
Definition to_array {St : Type} (m : M bytes unit) : M St bytes :=
  match m [] with
  | Done _ text =>
      deref OutOfBounds (memcpy str64 0 (text ++ [z2b 0]));; mret text
  | Raise msg _ => luaL_error msg
  | Fault x => crash x
  end.

(** The text in [str]; a double that does not fit the integer type is undefined. *)
Definition conv_number {St : Type} (d : Z) : M St bytes :=
  i32 ← deref UndefinedBehaviour (double_int 32 d);
  i64 ← deref UndefinedBehaviour (double_int 64 d);
  if bool_decide (float_int d = Some i32) then to_array (i32toa_fast i32)
  else if bool_decide (float_int d = Some i64) then to_array (i64toa_fast i64)
  else
    match dtoa_fast d str64 with
    | Done _ str => mret (cstr str)
    | Raise msg _ => luaL_error msg
    | Fault x => crash x
    end.

Definition wb_init : W unit := put (MkWb (replicate (Z.to_nat BUFFER_SIZE) (z2b 0)) BUFFER_SIZE 0).

Definition wb_reservce (len : Z) : W unit :=
  b ← get;
  if u64 (woffset b + len) <=? wsize b then mret tt
  else
    nsize ← loop 64 (fun n => if n <? u64 (woffset b + len) then mret (inl (u64 (n * 2))) else mret (inr n)) (u64 (wsize b * 2));
    nptr ← deref OutOfBounds (memcpy (replicate (Z.to_nat nsize) (z2b 0)) 0 (ptr b));
    put (MkWb nptr nsize (woffset b)).

Definition wb_addlstring (str : bytes) : W unit :=
  wb_reservce (alen str);;
  b ← get;
  p ← deref OutOfBounds (memcpy (ptr b) (woffset b) str);
  put (MkWb p (wsize b) (u64 (woffset b + alen str))).

Definition wb_addchar (c : byte) : W unit :=
  wb_reservce 1;;
  b ← get;
  p ← deref OutOfBounds (memcpy (ptr b) (woffset b) [c]);
  put (MkWb p (wsize b) (u64 (woffset b + 1))).

Definition wb_addstring (str : bytes) : W unit := wb_addlstring str.

Definition wb_addnumber (d : Z) : W unit := str ← conv_number d; wb_addlstring str.

Definition wb_release : W unit := put (MkWb [] 0 0).

Definition crlf : bytes := [z2b 13; z2b 10].

Definition cmd_arg (v : value) : W unit :=
  wb_addchar (z2b 36);;
  match v with
  | VInt _ | VReal _ =>
      str ← conv_number (tonumber v);
      wb_addnumber (int_double (alen str));;
      wb_addstring crlf;;
      wb_addlstring str
  | VBool val =>
      wb_addchar (z2b 49);;
      wb_addstring crlf;;
      wb_addnumber (if val then int_double 1 else int_double 0)
  | VStr str =>
      wb_addnumber (int_double (alen str));;
      wb_addstring crlf;;
      wb_addlstring str
  | _ => luaL_error "value not support type"
  end;;
  wb_addstring crlf.

Definition cmd_body (args : list value) : W unit :=
  wb_addchar (z2b 42);;
  wb_addnumber (int_double (alen args));;
  wb_addstring crlf;;
  for_each args cmd_arg.

(** The command as a Lua string. *)
Definition _cmd (args : list value) : W bytes :=
  wb_init;;
  cmd_body args;;
  b ← get;
  str ← deref OutOfBounds (slice (ptr b) 0 (woffset b));
  wb_release;;
  mret str.

(** ** The collector *)

(** A node of the list; [prev] is written and never read. *)
Record read_buffer := MkRb { addr : Z; data : bytes; size : Z; offset : Z }.

(** [head] is the list up to [tail]; [array_ref] is the table in the registry, [reserve]
    has the [size] of the code as its length, [brk] is the next address of [malloc]. *)
Record data_collector := MkCol {
  head : list read_buffer;
  freelist : list Z;
  cursor_rb : option Z; cursor_offset : Z; cursor_total : Z;
  total : Z;
  phase : Z;
  string_size : Z;
  array_count : Z; array_index : Z; array_reserve : Z; array_ref : list (tree * tree);
  reserve : bytes;
  brk : Z
}.
Abbreviation C := (M data_collector).

Definition set_list (l : list read_buffer) (fl : list Z) (c : data_collector) : data_collector :=
  MkCol l fl (cursor_rb c) (cursor_offset c) (cursor_total c) (total c) (phase c) (string_size c)
    (array_count c) (array_index c) (array_reserve c) (array_ref c) (reserve c) (brk c).
Definition set_cursor (rb : option Z) (off tot : Z) (c : data_collector) : data_collector :=
  MkCol (head c) (freelist c) rb off tot (total c) (phase c) (string_size c)
    (array_count c) (array_index c) (array_reserve c) (array_ref c) (reserve c) (brk c).
Definition set_total (n : Z) (c : data_collector) : data_collector :=
  MkCol (head c) (freelist c) (cursor_rb c) (cursor_offset c) (cursor_total c) n (phase c) (string_size c)
    (array_count c) (array_index c) (array_reserve c) (array_ref c) (reserve c) (brk c).
Definition set_phase (p : Z) (c : data_collector) : data_collector :=
  MkCol (head c) (freelist c) (cursor_rb c) (cursor_offset c) (cursor_total c) (total c) p (string_size c)
    (array_count c) (array_index c) (array_reserve c) (array_ref c) (reserve c) (brk c).
Definition set_string (n : Z) (c : data_collector) : data_collector :=
  MkCol (head c) (freelist c) (cursor_rb c) (cursor_offset c) (cursor_total c) (total c) (phase c) n
    (array_count c) (array_index c) (array_reserve c) (array_ref c) (reserve c) (brk c).
Definition set_array (count index rsv : Z) (ref : list (tree * tree)) (c : data_collector) : data_collector :=
  MkCol (head c) (freelist c) (cursor_rb c) (cursor_offset c) (cursor_total c) (total c) (phase c) (string_size c)
    count index rsv ref (reserve c) (brk c).
Definition set_reserve (b : bytes) (c : data_collector) : data_collector :=
  MkCol (head c) (freelist c) (cursor_rb c) (cursor_offset c) (cursor_total c) (total c) (phase c) (string_size c)
    (array_count c) (array_index c) (array_reserve c) (array_ref c) b (brk c).
Definition set_brk (n : Z) (c : data_collector) : data_collector :=
  MkCol (head c) (freelist c) (cursor_rb c) (cursor_offset c) (cursor_total c) (total c) (phase c) (string_size c)
    (array_count c) (array_index c) (array_reserve c) (array_ref c) (reserve c) n.

Definition _create_collector : data_collector := MkCol [] [] None 0 0 0 PHASE_BEGIN 0 0 0 0 [] (replicate 64 (z2b 0)) 1.

(** [strdup] copies up to the first zero byte. *)
Definition _push (str : bytes) : C unit :=
  c ← get;
  let sz := alen str in
  let '(a, fl, next) := match freelist c with a :: fl => (a, fl, brk c) | [] => (brk c, [], brk c + 1) end in
  let rb := MkRb a (cstr str ++ [z2b 0]) (s32 sz) 0 in
  put (set_brk next (set_total (s32 (total c + sz)) (set_list (head c ++ [rb]) fl c))).

(** [reserve] grows to hold [count] bytes and a zero; [count + 1] is compared as a
    [size_t]. *)
Definition grow_reserve (count : Z) : C unit :=
  c ← get;
  require SignedOverflow (count <? INT_MAX);;
  if alen (reserve c) <? u64 (count + 1) then
    nsize ← loop 64 (fun n => if n <? u64 (count + 1) then mret (inl (u64 (n * 2))) else mret (inr n)) (u64 (alen (reserve c) * 2));
    put (set_reserve (reserve c ++ replicate (Z.to_nat (nsize - alen (reserve c))) (z2b 0)) c)
  else mret tt.

(** One round of the loop of [eat]: [need] bytes are missing, the [left] of the code. *)
Definition eat_round (off need : Z) : C (Z * Z) :=
  c ← get;
  match head c with
  | [] => crash NullDeref
  | rb :: rest =>
      if offset rb + need <? size rb then
        d ← deref OutOfBounds (slice (data rb) (offset rb) need);
        r ← deref OutOfBounds (memcpy (reserve c) off d);
        put (set_reserve r (set_list (MkRb (addr rb) (data rb) (size rb) (offset rb + need) :: rest) (freelist c) c));;
        mret (off + need, 0)
      else
        let n := size rb - offset rb in
        d ← deref OutOfBounds (slice (data rb) (offset rb) n);
        r ← deref OutOfBounds (memcpy (reserve c) off d);
        put (set_reserve r (set_list rest (addr rb :: freelist c) c));;
        c_assert (negb (bool_decide (rest = [])) || (need - n =? 0));;
        mret (off + n, need - n)
  end.

Definition eat (count : Z) : C bytes :=
  c ← get;
  c_assert (count <=? total c);;
  grow_reserve count;;
  c ← get;
  loop (S (length (head c))) (fun st : Z * Z =>
    let '(off, need) := st in
    if need <=? 0 then mret (inr tt) else st ← eat_round off need; mret (inl st)) (0, count);;
  c ← get;
  require SignedOverflow (bool_decide (in_s 32 (total c - count)));;
  r ← deref OutOfBounds (memcpy (reserve c) count [z2b 0]);
  put (set_reserve r (set_total (total c - count) c));;
  mret r.

(** [check_eol] from node [rb :: rest] on. *)
Fixpoint check_eol {St : Type} (nodes : list read_buffer) (from : Z) (sep : bytes) : M St bool :=
  match nodes with
  | [] => crash AssertFail
  | rb :: rest =>
      let sz := size rb - from in
      if alen sep <=? u64 sz then
        d ← deref OutOfBounds (slice (data rb) from (alen sep));
        mret (bool_decide (d = sep))
      else
        d ← (if 0 <? sz then deref OutOfBounds (slice (data rb) from sz) else mret []);
        if bool_decide (d = take (Z.to_nat sz) sep) then check_eol rest 0 (drop (Z.to_nat sz) sep)
        else mret false
  end.

(** One node of the loop of [search_eol]: [None] goes on to the next. *)
Definition search_node (rb : read_buffer) (rest : list read_buffer) (from : Z) (sep : bytes) : C (option Z) :=
  loop (S (Z.to_nat (size rb - from))) (fun i =>
    if size rb <=? i then mret (inr None)
    else
      c ← get;
      if u64 (total c) <? u64 (cursor_total c + alen sep) then
        put (set_cursor (cursor_rb c) i (cursor_total c) c);; mret (inr (Some 0))
      else
        found ← check_eol (St := data_collector) (rb :: rest) i sep;
        if (found : bool) then
          put (set_cursor None (cursor_offset c) (cursor_total c) c);;
          mret (inr (Some (cursor_total c + alen sep)))
        else
          put (set_cursor (cursor_rb c) (cursor_offset c) (cursor_total c + 1) c);;
          mret (inl (i + 1))) from.

Fixpoint search_nodes (nodes : list read_buffer) (from : Z) (sep : bytes) : C Z :=
  match nodes with
  | [] => crash AssertFail
  | rb :: rest =>
      r ← search_node rb rest from sep;
      match r with Some n => mret n | None => search_nodes rest 0 sep end
  end.

(** The nodes from the one at address [a] on. *)
Fixpoint nodes_from (a : Z) (l : list read_buffer) : option (list read_buffer) :=
  match l with
  | [] => None
  | rb :: rest => if addr rb =? a then Some l else nodes_from a rest
  end.

(** The length of the line with its end, 0 when there is none yet. *)
Definition search_eol (sep : bytes) : C Z :=
  c ← get;
  (match cursor_rb c with
   | Some _ => mret tt
   | None =>
       rb ← deref NullDeref (hd_error (head c));
       put (set_cursor (Some (addr rb)) (offset rb) 0 c)
   end);;
  c ← get;
  a ← deref NullDeref (cursor_rb c);
  nodes ← deref UseAfterFree (nodes_from a (head c));
  search_nodes nodes (cursor_offset c) sep.

(** The line as a C string; its last two bytes are cleared. *)
Definition eat_until_eol (sep : bytes) : C (option bytes) :=
  c ← get;
  if total c =? 0 then mret None
  else
    n ← search_eol sep;
    if n =? 0 then mret None
    else
      line ← eat (s32 n);
      line ← deref OutOfBounds (memcpy line (n - 1) [z2b 0]);
      line ← deref OutOfBounds (memcpy line (n - 2) [z2b 0]);
      c ← get;
      put (set_reserve line c);;
      mret (Some line).

(** The number at the start of a C string, as a 64-bit integer. *)
Definition strtonumber (line : bytes) : C Z :=
  match strtod (cstr line) with
  | None => luaL_error "parse number error"
  | Some d => deref UndefinedBehaviour (double_int 64 d)
  end.

Definition eat_status : C (option tree) :=
  o ← eat_until_eol crlf;
  match o with
  | None => mret None
  | Some line => c ← get; put (set_phase PHASE_BEGIN c);; mret (Some (TStr (cstr line)))
  end.

(** The integer goes through a double once more. *)
Definition eat_number : C (option tree) :=
  o ← eat_until_eol crlf;
  match o with
  | None => mret None
  | Some line =>
      n ← strtonumber line;
      z ← deref UndefinedBehaviour (double_int 64 (int_double n));
      c ← get;
      put (set_phase PHASE_BEGIN c);;
      mret (Some (TInt z))
  end.

(** [lua_pushlstring] of the first [n] bytes. *)
Definition push_bytes (str : bytes) (n : Z) : C tree := d ← deref OutOfBounds (slice str 0 n); mret (TStr d).

Definition eat_string_body : C (option tree) :=
  c ← get;
  if u64 (total c) <? u64 (string_size c + 2) then mret None
  else
    str ← eat (s32 (string_size c));
    t ← push_bytes str (string_size c);
    eat 2;;
    c ← get;
    put (set_phase PHASE_BEGIN c);;
    mret (Some t).

Definition eat_string : C (option tree) :=
  c ← get;
  if string_size c =? 0 then
    o ← eat_until_eol crlf;
    match o with
    | None => mret None
    | Some line =>
        n ← strtonumber line;
        c ← get;
        put (set_string (u64 n) c);;
        eat_string_body
    end
  else eat_string_body.

(** An element of an array, of type [type]: [None] when it is not complete. *)
Definition eat_element (type : Z) : C (option tree) :=
  c ← get;
  if type =? 0 then
    o ← (if array_reserve c =? 2 ^ 64 - 1 then mret (Some (TInt (-1)))
         else if u64 (total c) <? u64 (array_reserve c + 2) then mret None
         else
           str ← eat (s32 (array_reserve c));
           t ← push_bytes str (array_reserve c);
           mret (Some t));
    match o with
    | None => mret None
    | Some t => eat 2;; mret (Some t)
    end
  else mret (Some (TInt (s64 (array_reserve c)))).

(** The header of an element: its type, [None] when the line is not there yet. *)
Definition eat_header : C (option Z) :=
  c ← get;
  if array_reserve c =? 0 then
    o ← eat_until_eol crlf;
    match o with
    | None => mret None
    | Some line =>
        ch ← deref OutOfBounds (aget line 0);
        type ← (if b2z ch =? 36 then mret 0 else if b2z ch =? 58 then mret 1 else crash AssertFail);
        n ← strtonumber (drop 1 line);
        c ← get;
        put (set_array (array_count c) (array_index c) (u64 n) (array_ref c) c);;
        mret (Some type)
    end
  else mret (Some 0).

(** The loop over the elements; [index] runs up to a [uint32_t] [count], and an element
    takes at least two bytes of those that are there. *)
Definition eat_elements : C (option tree) :=
  c ← get;
  loop (S (S (Z.to_nat (total c)))) (fun _ : unit =>
    c ← get;
    if array_count c <=? array_index c then
      put (set_phase PHASE_BEGIN c);; mret (inr (Some (TTable (array_ref c))))
    else
      h ← eat_header;
      match h with
      | None => mret (inr None)
      | Some type =>
          o ← eat_element type;
          match o with
          | None => mret (inr None)
          | Some t =>
              c ← get;
              put (set_array (array_count c) (u32 (array_index c + 1)) 0 (rawseti (array_index c + 1) t (array_ref c)) c);;
              mret (inl tt)
          end
      end) tt.

Definition eat_array : C (option tree) :=
  c ← get;
  if array_count c =? 0 then
    o ← eat_until_eol crlf;
    match o with
    | None => mret None
    | Some line =>
        n ← strtonumber line;
        c ← get;
        put (set_array (u32 n) (array_index c) (array_reserve c) (array_ref c) c);;
        eat_elements
    end
  else eat_elements.

(** [_pop]: a reply, or nothing. The phase changes once from [PHASE_BEGIN]. *)
Definition _pop : C (option tree) :=
  loop 2 (fun _ : unit =>
    c ← get;
    if phase c =? PHASE_BEGIN then
      match head c with
      | [] => mret (inr None)
      | rb :: _ =>
          ch ← deref OutOfBounds (aget (data rb) (offset rb));
          let ch := b2z ch in
          (if (ch =? 43) || (ch =? 45) then put (set_phase PHASE_STATUS c)
           else if ch =? 58 then put (set_phase PHASE_NUMBER c)
           else if ch =? 36 then put (set_string 0 (set_phase PHASE_STRING c))
           else if ch =? 42 then put (set_array 0 0 0 [] (set_phase PHASE_ARRAY c))
           else luaL_error "error char");;
          eat 1;;
          mret (inl tt)
      end
    else if phase c =? PHASE_STATUS then r ← eat_status; mret (inr r)
    else if phase c =? PHASE_NUMBER then r ← eat_number; mret (inr r)
    else if phase c =? PHASE_STRING then r ← eat_string; mret (inr r)
    else if phase c =? PHASE_ARRAY then r ← eat_array; mret (inr r)
    else luaL_error "unknown phase") tt.

(** ** What the collector holds *)

(** [y] is in node [rb] from position [i] on. *)
Definition at_pos (rb : read_buffer) (i : Z) (y : bytes) : Prop :=
  exists x, data rb = x ++ y ++ [z2b 0] /\ i = alen x /\ size rb = alen x + alen y.

(** The list of nodes holds [s]; every node but the first is untouched. *)
Inductive holds : list read_buffer -> bytes -> Prop :=
| holds_nil : holds [] []
| holds_cons rb rest y ys :
    at_pos rb (offset rb) y -> y <> [] -> Forall2 (fun rb y => offset rb = 0 /\ at_pos rb 0 y /\ y <> []) rest ys ->
    holds (rb :: rest) (y ++ mjoin ys).

(** Streams up to 1 GiB. *)
Definition stream_limit : Z := 2 ^ 30.

(** At the start of a line, with [s] to come. *)
Definition at_line (c : data_collector) (s : bytes) : Prop :=
  holds (head c) s /\ total c = alen s /\ alen s <= stream_limit /\ 1 <= alen (reserve c) <= 2 ^ 32 /\ cursor_rb c = None.

(** What the functions below leave alone. *)
Definition core (c : data_collector) : Z * Z * (Z * Z * Z * list (tree * tree)) :=
  (phase c, string_size c, (array_count c, array_index c, array_reserve c, array_ref c)).

Lemma slice_at rb i y n :
  at_pos rb i y -> 0 <= n <= alen y -> slice (data rb) i n = Some (take (Z.to_nat n) y).
Proof.
  intros (x & -> & -> & _) Hn. rewrite <- (take_drop (Z.to_nat n) y) at 1. rewrite <- app_assoc.
  apply slice_mid; [done|]. symmetry. by apply alen_take.
Qed.

Lemma at_pos_cons rb i ch y : at_pos rb i (ch :: y) -> at_pos rb (i + 1) y.
Proof.
  intros (x & E & -> & Es). exists (x ++ [ch]). rewrite alen_snoc, alen_cons in *. split_and!; [by rewrite E, <- app_assoc|lia|lia].
Qed.

Lemma at_pos_drop rb i y1 y2 : at_pos rb i (y1 ++ y2) -> at_pos rb (i + alen y1) y2.
Proof.
  intros (x & E & -> & Es). exists (x ++ y1). rewrite !alen_app in *. split_and!; [by rewrite E, <- !app_assoc|lia|lia].
Qed.

Lemma holds_rest rest ys : Forall2 (fun rb y => offset rb = 0 /\ at_pos rb 0 y /\ y <> []) rest ys -> holds rest (mjoin ys).
Proof.
  destruct 1 as [|rb y rest ys (E & Hp & Hy) H]; [apply holds_nil|]. rewrite mjoin_cons. apply holds_cons; [by rewrite E|done|done].
Qed.

(** ** Searching *)

Lemma check_eol_cons {St : Type} rb rest from sep :
  check_eol (St := St) (rb :: rest) from sep =
  let sz := size rb - from in
  if alen sep <=? u64 sz then
    d ← deref OutOfBounds (slice (data rb) from (alen sep));
    mret (bool_decide (d = sep))
  else
    d ← (if 0 <? sz then deref OutOfBounds (slice (data rb) from sz) else mret []);
    if bool_decide (d = take (Z.to_nat sz) sep) then check_eol rest 0 (drop (Z.to_nat sz) sep)
    else mret false.
Proof. done. Qed.

Lemma check_eol_prefix {St : Type} rest ys rb i y sep (s : St) :
  at_pos rb i y -> Forall2 (fun rb y => offset rb = 0 /\ at_pos rb 0 y /\ y <> []) rest ys ->
  alen (y ++ mjoin ys) < 2 ^ 63 -> sep <> [] -> alen sep <= alen (y ++ mjoin ys) ->
  check_eol (rb :: rest) i sep s = Done (bool_decide (sep `prefix_of` y ++ mjoin ys)) s.
Proof.
  intros Hp Hr Hl Hs Hle. revert rb i y sep Hp Hl Hs Hle. induction Hr as [|rb2 y2 rest ys (E2 & Hp2 & Hy2) Hr IH]; intros rb i y sep Hp Hl Hs Hle.
  - rewrite check_eol_cons. cbv zeta. destruct (Hp) as (x & Ed & Ei & Es). cbn in Hl, Hle. rewrite app_nil_r in *.
    pose proof (alen_nonneg sep). replace (size rb - i) with (alen y) by lia. rewrite uwrap_small by lia. rewrite (proj2 (Z.leb_le _ _)) by lia.
    rewrite (slice_at rb i y) by (done || lia). cbn [deref]. erewrite bind_Done by reflexivity.
    unfold mret, M_ret. f_equal. apply bool_decide_ext. rewrite alen_length. rewrite Nat2Z.id. split.
    + intros <-. apply prefix_take.
    + intros [k ->]. by rewrite take_app_length.
  - rewrite check_eol_cons. cbv zeta. destruct (Hp) as (x & Ed & Ei & Es). rewrite mjoin_cons in *. rewrite !alen_app in *.
    pose proof (alen_nonneg sep). pose proof (alen_nonneg y). pose proof (alen_nonneg y2). pose proof (alen_nonneg (mjoin ys)).
    replace (size rb - i) with (alen y) by lia. rewrite uwrap_small by lia. destruct (Z.leb_spec (alen sep) (alen y)) as [Hfit|Hlong].
    + rewrite (slice_at rb i y) by (done || lia). cbn [deref]. erewrite bind_Done by reflexivity.
      unfold mret, M_ret. f_equal. apply bool_decide_ext. rewrite !alen_length in *. rewrite Nat2Z.id. split.
      * intros <-. apply prefix_app_r, prefix_take.
      * intros [k Ek]. rewrite <- (take_app_le y (y2 ++ mjoin ys)) by lia. by rewrite Ek, take_app_length.
    + assert ((if 0 <? alen y then deref OutOfBounds (slice (data rb) i (alen y)) else mret []) s = Done y s) as Ey.
      { destruct (Z.ltb_spec 0 (alen y)).
        - rewrite (slice_at rb i y) by (done || lia). rewrite alen_length, Nat2Z.id, take_ge by lia. done.
        - by rewrite (alen_0 y) by lia. }
      erewrite bind_Done by exact Ey. rewrite !alen_length in *. rewrite Nat2Z.id. destruct (decide (y = take (length y) sep)) as [E|Hne].
      * rewrite (bool_decide_eq_true_2 _ E).
        rewrite IH with (y := y2); [|done|rewrite alen_app, !alen_length; lia| |rewrite alen_app, !alen_length, length_drop; lia].
        -- f_equal. apply bool_decide_ext. rewrite <- (take_drop (length y) sep) at 2. rewrite <- E. split; [apply prefix_app|apply prefix_app_inv].
        -- intros E0. apply (f_equal length) in E0. rewrite length_drop in E0. cbn in E0. lia.
      * rewrite (bool_decide_eq_false_2 _ Hne). unfold mret, M_ret. f_equal. symmetry. apply bool_decide_eq_false_2. intros [k Ek]. apply Hne.
        rewrite <- (take_app_length y (y2 ++ mjoin ys)) at 1. rewrite Ek. apply take_app_le. lia.
Qed.

(** A line: no carriage return and no zero byte. *)
Definition is_line (line : bytes) : Prop := (z2b 13 ∉ line) /\ (z2b 0 ∉ line).

Lemma crlf_prefix ch l r : crlf `prefix_of` (ch :: l ++ crlf ++ r) -> ch = z2b 13.
Proof. intros [k [= E _]]. done. Qed.

(** The loop in one node, [y] from position [i] on: the line ends in it or goes on. *)
Lemma wp_search_node rb rest ys y i line tl c Q :
  at_pos rb i y -> Forall2 (fun rb y => offset rb = 0 /\ at_pos rb 0 y /\ y <> []) rest ys ->
  y ++ mjoin ys = line ++ crlf ++ tl -> is_line line -> 0 <= cursor_total c ->
  total c = cursor_total c + alen (y ++ mjoin ys) -> total c <= stream_limit ->
  (alen line < alen y -> forall o t, Q (Some (cursor_total c + alen line + 2)) (set_cursor None o t c)) ->
  (forall line', line = y ++ line' -> forall o, Q None (set_cursor (cursor_rb c) o (cursor_total c + alen y) c)) ->
  wpd (search_node rb rest i crlf) Q c.
Proof.
  intros Hp Hr. unfold search_node. replace (Z.to_nat (size rb - i)) with (length y) by (destruct Hp as (x & _ & -> & ->); rewrite !alen_length; lia).
  revert i line c Hp. induction y as [|ch y IH]; intros i line c Hp E Hline Ht Htot Hlim HS HN; cbn [loop length].
  - wp_step. destruct Hp as (x & _ & -> & Es). rewrite Es, alen_nil. rewrite (proj2 (Z.leb_le _ _)) by lia. wp_step. wp_step.
    replace c with (set_cursor (cursor_rb c) (cursor_offset c) (cursor_total c + alen (A := byte) []) c); [by apply (HN line)|].
    rewrite alen_nil, Z.add_0_r. by destruct c.
  - wp_step. assert (alen (ch :: y ++ mjoin ys) = alen line + 2 + alen tl) as El.
    { change (ch :: y ++ mjoin ys) with ((ch :: y) ++ mjoin ys). rewrite E, !alen_app. unfold crlf. rewrite !alen_cons, alen_nil. lia. }
    rewrite (app_comm_cons y (mjoin ys) ch) in El. pose proof (alen_nonneg line). pose proof (alen_nonneg tl). unfold stream_limit in Hlim.
    assert (i < size rb) by (destruct Hp as (x & _ & -> & ->); rewrite alen_cons; pose proof (alen_nonneg y); lia).
    rewrite (proj2 (Z.leb_gt _ _)) by lia. do 2 wp_step. change (alen crlf) with 2. rewrite !uwrap_small by lia.
    rewrite (proj2 (Z.ltb_ge _ _)) by lia. wp_step.
    eapply wp_Done; [apply (check_eol_prefix rest ys rb i (ch :: y)); [done|done|lia|done|change (alen crlf) with 2; lia]|].
    rewrite E. destruct line as [|ch' line].
    + rewrite bool_decide_eq_true_2 by by exists tl. do 2 wp_step. wp_step. wp_step.
      rewrite alen_nil in HS. rewrite Z.add_0_r in HS. apply HS. rewrite alen_cons. pose proof (alen_nonneg y). lia.
    + injection E as -> E. destruct Hline as [[H13 H13']%not_elem_of_cons [_ Hz]%not_elem_of_cons].
      rewrite bool_decide_eq_false_2 by (intros Hpre; apply H13; symmetry; by eapply (crlf_prefix ch' line tl)). do 2 wp_step. wp_step.
      apply (IH (i + 1) line); [by apply at_pos_cons in Hp|done|by split|cbn; lia| |done| |]; rewrite ?alen_cons in *; cbn [cursor_total set_cursor total] in *.
      * rewrite Htot. cbn [app]. rewrite alen_cons. lia.
      * intros Hlt o t. replace (cursor_total c + 1 + alen line + 2) with (cursor_total c + (alen line + 1) + 2) by lia. apply HS; lia.
      * intros line' -> o. replace (cursor_total c + 1 + alen y) with (cursor_total c + (alen y + 1)) by lia. by apply (HN line').
Qed.

Lemma wp_search_nodes nodes i y ys line tl c Q rb rest :
  nodes = rb :: rest -> at_pos rb i y -> Forall2 (fun rb y => offset rb = 0 /\ at_pos rb 0 y /\ y <> []) rest ys ->
  y ++ mjoin ys = line ++ crlf ++ tl -> is_line line -> 0 <= cursor_total c ->
  total c = cursor_total c + alen (y ++ mjoin ys) -> total c <= stream_limit ->
  (forall o t, Q (cursor_total c + alen line + 2) (set_cursor None o t c)) ->
  wpd (search_nodes nodes i crlf) Q c.
Proof.
  intros ->. intros Hp Hr. revert rb i y line c Hp. induction Hr as [|rb2 y2 rest ys (E2 & Hp2 & Hy2) Hr IH]; intros rb i y line c Hp E Hline Ht Htot Hlim HQ.
  - cbn [search_nodes]. wp_step. apply (wp_search_node rb [] [] y i line tl); [done|done|done|done|done|done|done| |].
    + intros _ o t. wp_step. apply HQ.
    + intros line' El o. exfalso. rewrite El in E. cbn in E. rewrite app_nil_r in E. apply (f_equal length) in E. rewrite !length_app in E. cbn in E. lia.
  - change (search_nodes (rb :: rb2 :: rest) i crlf) with
      (r ← search_node rb (rb2 :: rest) i crlf; match r with Some n => mret n | None => search_nodes (rb2 :: rest) 0 crlf end).
    wp_step. apply (wp_search_node rb (rb2 :: rest) (y2 :: ys) y i line tl); [done|by constructor|done|done|done|done|done| |].
    + intros _ o t. wp_step. apply HQ.
    + intros line' El o. subst line. rewrite mjoin_cons in *. rewrite <- !app_assoc in E. apply app_inv_head in E. pose proof (alen_nonneg y).
      apply (IH rb2 0 y2 line'); [done|done| |cbn; lia| |done|].
      * destruct Hline as [H1 H2]. split; set_solver.
      * cbn [total cursor_total set_cursor]. rewrite Htot, !alen_app. lia.
      * intros o' t'. cbn [cursor_total set_cursor]. replace (cursor_total c + alen y + alen line' + 2) with (cursor_total c + alen (y ++ line') + 2) by (rewrite alen_app; lia).
        apply HQ.
Qed.

Lemma wp_find_eol c line tl Q :
  at_line c (line ++ crlf ++ tl) -> is_line line ->
  (forall o t, Q (alen line + 2) (set_cursor None o t c)) -> wpd (search_eol crlf) Q c.
Proof.
  intros (Hh & Htot & Hlim & Hres & Hc) Hline HQ. unfold search_eol. do 2 wp_step. wp_step. rewrite Hc.
  inversion Hh as [|rb rest y ys Hp Hy Hr Eh Es]; [by destruct line|]. wp_step. wp_step; [done|]. wp_step. wp_step. wp_step. wp_step.
  cbn [cursor_rb set_cursor]. wp_step; [done|]. wp_step. cbn [head set_cursor]. rewrite <- Eh.
  wp_step; [cbn [nodes_from]; by rewrite Z.eqb_refl|]. cbn [cursor_offset set_cursor].
  eapply wp_search_nodes; [done|exact Hp|exact Hr|exact Es|done|done| |cbn; lia|].
  - cbn [total cursor_total set_cursor]. by rewrite Es.
  - intros o t. cbn [cursor_total set_cursor]. apply HQ.
Qed.

(** ** Taking bytes off *)

(** [loop] doubles [n] until it is enough. *)
Lemma wp_double_to {St : Type} target n (s : St) Q :
  0 < n <= 2 ^ 32 -> 0 <= target <= 2 ^ 31 -> (forall n', target <= n' -> n <= n' <= 2 ^ 32 -> Q n' s) ->
  wpd (loop 64 (fun n => if n <? target then mret (inl (u64 (n * 2))) else mret (inr n)) n) Q s.
Proof.
  intros Hn Ht HQ.
  apply (wp_loop_rank (fun k m s' => s' = s /\ n <= m <= 2 ^ 32 /\ target <= m * 2 ^ Z.of_nat k) _ _ _ _ 31).
  - intros k m s' (-> & Hm & Hk). destruct (Z.ltb_spec m target) as [Hlt|Hge]; wp_step; [|apply HQ; lia].
    destruct k as [|k]; [rewrite Z.mul_1_r in Hk; lia|]. exists k. rewrite uwrap_small by lia.
    split; [lia|]. split_and!; [done|lia|lia|]. rewrite Nat2Z.inj_succ, Z.pow_succ_r in Hk by lia. lia.
  - split_and!; [done|lia|lia|]. change (2 ^ Z.of_nat 31) with (2 ^ 31). lia.
  - lia.
Qed.

(** The bytes already in [reserve], then those that are missing. *)
Definition eaten (c0 : data_collector) (s : bytes) (a1 a2 : bytes) (c : data_collector) : Prop :=
  holds (head c) (a2 ++ s) /\
  exists r, reserve c = a1 ++ r /\ alen a2 < alen r /\ alen (reserve c) <= 2 ^ 32 /\ c = set_reserve (reserve c) (set_list (head c) (freelist c) c0).

Lemma wp_eat_round c0 s a1 a2 c Q :
  eaten c0 s a1 a2 c -> a2 <> [] ->
  (forall b1 b2 c', a2 = b1 ++ b2 -> eaten c0 s (a1 ++ b1) b2 c' -> b2 = [] \/ (length (head c') < length (head c))%nat ->
    Q (alen (a1 ++ b1), alen b2) c') ->
  wpd (eat_round (alen a1) (alen a2)) Q c.
Proof.
  intros (Hh & r & Er & Hr & Hlim & Ec) Ha HQ. unfold eat_round. do 2 wp_step.
  inversion Hh as [E1 E2|rb rest y ys Hp Hy Hrest Eh Es]; [by destruct a2|]. destruct (Hp) as (x & Ed & Eo & Esz).
  pose proof (alen_nonneg x). pose proof (alen_nonneg y). pose proof (alen_nonneg a2).
  assert (forall b, alen b < alen r -> memcpy (reserve c) (alen a1) b = Some (a1 ++ b ++ drop (length b) r)) as Hcpy.
  { intros b Hb. rewrite Er. rewrite <- (take_drop (length b) r) at 1. apply memcpy_mid; [done|].
    rewrite alen_length, length_take. rewrite !alen_length in *. lia. }
  destruct (Z.ltb_spec (offset rb + alen a2) (size rb)) as [Hlt|Hge].
  - assert (exists y2, y = a2 ++ y2 /\ s = y2 ++ mjoin ys) as (y2 & -> & ->).
    { exists (drop (length a2) y). rewrite !alen_length in *. assert (a2 = take (length a2) y) as E.
      { rewrite <- (take_app_length a2 s) at 1. rewrite <- Es. apply take_app_le. lia. }
      rewrite E at 1. rewrite take_drop. split; [done|]. rewrite <- (drop_app_length a2 s), <- Es. apply drop_app_le. lia. }
    wp_step. wp_step; [rewrite (slice_at _ _ _ _ Hp) by (rewrite alen_app in *; lia); by rewrite alen_length, Nat2Z.id, take_app_length|].
    wp_step. wp_step; [by apply Hcpy|]. do 2 wp_step. wp_step. replace (alen a1 + alen a2) with (alen (a1 ++ a2)) by apply alen_app.
    change 0 with (alen (A := byte) []). apply (HQ a2 []); [by rewrite app_nil_r| |by left]. split.
    + cbn [head set_reserve set_list]. apply holds_cons; [|intros ->; rewrite alen_app, alen_nil in *; lia|done]. by apply at_pos_drop.
    + exists (drop (length a2) r). cbn [reserve head freelist set_reserve set_list]. rewrite <- app_assoc, Er in *. split_and!; [done| | |].
      * rewrite !alen_length, length_drop in *. cbn. lia.
      * rewrite !alen_app, !alen_length, length_drop in *. lia.
      * rewrite Ec. done.
  - assert (exists b2, a2 = y ++ b2 /\ mjoin ys = b2 ++ s) as (b2 & -> & Ej).
    { exists (drop (length y) a2). rewrite !alen_length in *. assert (y = take (length y) a2) as E.
      { rewrite <- (take_app_length y (mjoin ys)) at 1. rewrite Es. apply take_app_le. lia. }
      rewrite E at 1. rewrite take_drop. split; [done|]. rewrite <- (drop_app_length y (mjoin ys)), Es. apply drop_app_le. lia. }
    rewrite alen_app in *. replace (size rb - offset rb) with (alen y) by lia. pose proof (alen_nonneg b2).
    wp_step. wp_step; [rewrite (slice_at _ _ _ _ Hp) by lia; by rewrite alen_length, Nat2Z.id, take_ge by lia|].
    wp_step. wp_step; [apply Hcpy; lia|]. do 2 wp_step. wp_step. wp_step.
    { destruct rest; cbn; [|done]. apply Z.eqb_eq. inversion Hrest; subst. cbn in Ej. symmetry in Ej. apply app_eq_nil in Ej as [-> _]. rewrite alen_nil. lia. }
    wp_step. replace (alen y + alen b2 - alen y) with (alen b2) by lia. replace (alen a1 + alen y) with (alen (a1 ++ y)) by apply alen_app.
    apply (HQ y b2); [done| |right; cbn; rewrite <- Eh; cbn; lia]. split.
    + cbn [head set_reserve set_list]. rewrite <- Ej. by apply holds_rest.
    + exists (drop (length y) r). cbn [reserve head freelist set_reserve set_list]. rewrite <- app_assoc, Er in *. split_and!; [done| | |].
      * rewrite !alen_length, length_drop in *. lia.
      * rewrite !alen_app, !alen_length, length_drop in *. lia.
      * rewrite Ec. done.
Qed.

Lemma wp_grow_reserve n c Q :
  0 <= n <= stream_limit -> 1 <= alen (reserve c) <= 2 ^ 32 ->
  (forall r, n < alen r -> 1 <= alen r <= 2 ^ 32 -> Q tt (set_reserve r c)) -> wpd (grow_reserve n) Q c.
Proof.
  unfold stream_limit. intros Hn Hr HQ. unfold grow_reserve. do 2 wp_step. wp_step. wp_step; [unfold INT_MAX; lia|].
  rewrite uwrap_small by lia. destruct (Z.ltb_spec (alen (reserve c)) (n + 1)).
  - wp_step. rewrite uwrap_small by lia. apply wp_double_to; [lia|lia|]. intros m Hm1 Hm2. wp_step.
    apply HQ; rewrite alen_app, alen_replicate; lia.
  - wp_step. replace c with (set_reserve (reserve c) c) by by destruct c. apply HQ; lia.
Qed.

(** [eat] takes [a] off the stream and leaves it in [reserve] with a zero behind it. *)
Lemma wp_eat a s c Q :
  holds (head c) (a ++ s) -> total c = alen (a ++ s) -> alen (a ++ s) <= stream_limit -> 1 <= alen (reserve c) <= 2 ^ 32 ->
  (forall l fl t, holds l s -> alen (a ++ z2b 0 :: t) <= 2 ^ 32 ->
    Q (a ++ z2b 0 :: t) (set_reserve (a ++ z2b 0 :: t) (set_total (alen s) (set_list l fl c)))) ->
  wpd (eat (alen a)) Q c.
Proof.
  intros Hh Htot Hlim Hres HQ. pose proof (alen_nonneg a). pose proof (alen_nonneg s). rewrite alen_app in *.
  unfold eat. do 2 wp_step. wp_step. wp_step; [apply Z.leb_le; lia|]. wp_step. apply wp_grow_reserve; [lia|done|].
  intros r0 Hr0 Hr0'. do 2 wp_step. wp_step. set (c0 := set_reserve r0 c).
  eapply wp_mono; [apply (wp_loop (fun st c' => exists a1 a2, a = a1 ++ a2 /\ st = (alen a1, alen a2) /\ eaten c s a1 a2 c')
    (fun st c' => if st.2 <=? 0 then 0%nat else length (head c')) _ (fun _ c' => eaten c s a [] c'))|].
  - intros st c1 (a1 & a2 & Ea & -> & He). destruct (Z.leb_spec (alen a2) 0) as [Hle|Hgt].
    + wp_step. pose proof (alen_nonneg a2). assert (a2 = []) as -> by (apply alen_0; lia). rewrite app_nil_r in Ea. by subst.
    + wp_step. assert (a2 <> []) by (intros ->; rewrite alen_nil in Hgt; lia). apply (wp_eat_round c s); [done|done|].
      intros b1 b2 c2 -> He2 Hm. wp_step. split; [exists (a1 ++ b1), b2; by rewrite <- app_assoc|]. cbn [snd].
      destruct (Z.leb_spec (alen b2) 0) as [_|Hb2].
      * destruct He as [Hh1 _]. rewrite (proj2 (Z.leb_gt _ _) Hgt). destruct (head c1); [|cbn; lia].
        inversion Hh1. destruct b1; [|done]. by destruct b2.
      * rewrite (proj2 (Z.leb_gt _ _) Hgt). destruct Hm as [->|]; [rewrite alen_nil in Hb2; lia|done].
  - exists [], a. rewrite alen_nil. split_and!; [done|done|]. split; [done|]. exists r0. split_and!; [done|done|cbn; lia|by destruct c].
  - cbn [snd]. case_match; [lia|]. unfold c0. cbn [head set_reserve]. lia.
  - intros _ c1 (Hh1 & r & Er & Hr & Hrl & Ec). rewrite alen_nil in Hr. do 2 wp_step.
    assert (total c1 = total c) as -> by by rewrite Ec. unfold stream_limit in Hlim.
    wp_step. wp_step; [apply bool_decide_eq_true_2; unfold in_s; lia|]. wp_step.
    destruct r as [|ch t]; [rewrite alen_nil in Hr; lia|]. wp_step.
    { rewrite Er. apply (memcpy_mid a [ch] [z2b 0] t); done. }
    wp_step. wp_step. wp_step. replace (total c - alen a) with (alen s) by lia. rewrite Ec.
    change (a ++ [z2b 0] ++ t) with (a ++ z2b 0 :: t). apply (HQ (head c1) (freelist c1) t); [exact Hh1|].
    rewrite Er, alen_app, alen_cons in Hrl. rewrite alen_app, alen_cons. lia.
Qed.

(** The same at the start of a line. *)
Lemma wp_eat_at a s c n Q :
  at_line c (a ++ s) -> n = alen a ->
  (forall c' t, at_line c' s -> core c' = core c -> reserve c' = a ++ z2b 0 :: t -> Q (a ++ z2b 0 :: t) c') -> wpd (eat n) Q c.
Proof.
  intros (Hh & Htot & Hlim & Hres & Hc) -> HQ. apply (wp_eat a s); [done|done|done|done|]. intros l fl t Hl Ht. apply HQ; [|done|done].
  pose proof (alen_nonneg a). pose proof (alen_nonneg t). rewrite alen_app in *. rewrite alen_cons in Ht.
  unfold at_line. split_and!; cbn; rewrite ?alen_app, ?alen_cons; try done; lia.
Qed.

Lemma set_cursor_line c s o t : at_line c s -> at_line (set_cursor None o t c) s.
Proof. intros (? & ? & ? & ? & ?). unfold at_line. split_and!; cbn; done || lia. Qed.

Lemma set_reserve_line c s r : at_line c s -> 1 <= alen r <= 2 ^ 32 -> at_line (set_reserve r c) s.
Proof. intros (? & ? & ? & ? & ?) ?. unfold at_line. split_and!; cbn; done || lia. Qed.

(** A line is taken off with its end, which is cleared. *)
Lemma wp_eat_until_eol line tl c Q :
  at_line c (line ++ crlf ++ tl) -> is_line line ->
  (forall c' t, at_line c' tl -> core c' = core c -> Q (Some (line ++ z2b 0 :: t)) c') ->
  wpd (eat_until_eol crlf) Q c.
Proof.
  intros Hl Hline HQ. pose proof Hl as (Hh & Htot & Hlim & Hres & Hc). pose proof (alen_nonneg line). pose proof (alen_nonneg tl).
  unfold eat_until_eol. do 2 wp_step. rewrite Htot, !alen_app. change (alen crlf) with 2. rewrite (proj2 (Z.eqb_neq _ _)) by lia.
  wp_step. apply (wp_find_eol c line tl); [done|done|]. intros o t0. rewrite (proj2 (Z.eqb_neq _ _)) by lia. wp_step.
  rewrite !alen_app in Hlim. change (alen crlf) with 2 in Hlim. unfold stream_limit in Hlim. rewrite swrap_small by (unfold in_s; lia).
  apply (wp_eat_at (line ++ crlf) tl); [rewrite <- app_assoc; by apply set_cursor_line|rewrite alen_app; done|].
  intros c' t Hl' Hcore Er. wp_step. unfold crlf.
  replace ((line ++ [z2b 13; z2b 10]) ++ z2b 0 :: t) with ((line ++ [z2b 13]) ++ [z2b 10] ++ z2b 0 :: t) by by rewrite <- !app_assoc.
  wp_step; [apply (memcpy_mid (line ++ [z2b 13]) [z2b 10] [z2b 0] (z2b 0 :: t)); [rewrite alen_snoc; lia|done]|].
  wp_step. rewrite <- app_assoc. cbn [app]. wp_step; [apply (memcpy_mid line [z2b 13] [z2b 0] (z2b 0 :: z2b 0 :: t)); [lia|done]|].
  do 2 wp_step. wp_step. wp_step. wp_step. cbn [app]. apply HQ; [|done]. apply set_reserve_line; [done|].
  destruct Hl' as (_ & _ & _ & Hr & _). rewrite Er in Hr. unfold crlf in Hr. rewrite !alen_app, !alen_cons, !alen_nil in *. lia.
Qed.

(** ** Replies *)

(** The elements the arrays of the code can have. *)
Inductive item := IStr (s : bytes) | INum (z : Z).

Inductive reply :=
| RStatus (error : bool) (s : bytes)
| RNumber (z : Z)
| RString (s : bytes)
| RArray (l : list item).

(** The text of a reply, as redis sends it. *)
Definition bulk (s : bytes) : bytes := decimal (alen s) ++ crlf ++ s ++ crlf.
Definition item_text (x : item) : bytes :=
  match x with IStr s => z2b 36 :: bulk s | INum z => z2b 58 :: decimal z ++ crlf end.
Definition reply_text (r : reply) : bytes :=
  match r with
  | RStatus error s => z2b (if error then 45 else 43) :: s ++ crlf
  | RNumber z => z2b 58 :: decimal z ++ crlf
  | RString s => z2b 36 :: bulk s
  | RArray l => z2b 42 :: decimal (alen l) ++ crlf ++ mjoin (item_text <$> l)
  end.

(** The Lua value of a reply. *)
Definition item_tree (x : item) : tree := match x with IStr s => TStr s | INum z => TInt z end.
Definition reply_tree (r : reply) : tree :=
  match r with
  | RStatus _ s | RString s => TStr s
  | RNumber z => TInt z
  | RArray l => TTable (array_entries (item_tree <$> l))
  end.

(** Integers that a double holds, lines that are lines. *)
Definition item_ok (x : item) : Prop := match x with IStr _ => True | INum z => Z.abs z < 2 ^ 53 end.
Definition reply_ok (r : reply) : Prop :=
  match r with
  | RStatus _ s => is_line s
  | RNumber z => Z.abs z < 2 ^ 53
  | RString _ => True
  | RArray l => Forall item_ok l
  end.

Lemma decimal_line z : Z.abs z < 2 ^ 53 -> is_line (decimal z).
Proof.
  intros Hz. assert (forall c, c ∈ decimal z -> 45 <= b2z c) as H.
  { assert (forall n c, 0 <= n < 2 ^ 53 -> c ∈ decimal_pos 19 n -> 45 <= b2z c) as H.
    { intros n c Hn. rewrite decimal_digit_list. intros (d & -> & Hd)%list_elem_of_fmap.
      apply (digit_list_range 19 n) in Hd; [|change (10 ^ (Z.of_nat 19 + 1)) with (10 ^ 20); lia]. unfold digit. rewrite b2z_z2b_small by lia. lia. }
    intros c. unfold decimal. destruct (Z.ltb_spec z 0); [|apply H; lia]. intros [->|Hc]%elem_of_cons; [done|]. apply (H (- z)); [lia|done]. }
  split; intros Hin%H; done.
Qed.

Lemma wp_strtonumber z t c Q : Z.abs z < 2 ^ 53 -> Q z c -> wpd (strtonumber (decimal z ++ z2b 0 :: t)) Q c.
Proof.
  intros Hz HQ. unfold strtonumber. destruct (decimal_line z Hz) as [_ H0]. rewrite cstr_app, strtod_decimal by done.
  wp_step; [|exact HQ]. apply double_int_double; unfold in_s; lia.
Qed.

Lemma wp_eat_status c error s tl Q :
  at_line c (s ++ crlf ++ tl) -> is_line s ->
  (forall c', at_line c' tl -> phase c' = PHASE_BEGIN -> Q (Some (reply_tree (RStatus error s))) c') -> wpd eat_status Q c.
Proof.
  intros Hl Hs HQ. unfold eat_status. wp_step. apply (wp_eat_until_eol s tl); [done|done|]. intros c' t Hl' Hc. do 2 wp_step. do 2 wp_step. wp_step.
  rewrite cstr_app by apply Hs. by apply HQ.
Qed.

Lemma wp_eat_number c z tl Q :
  at_line c (decimal z ++ crlf ++ tl) -> Z.abs z < 2 ^ 53 ->
  (forall c', at_line c' tl -> phase c' = PHASE_BEGIN -> Q (Some (TInt z)) c') -> wpd eat_number Q c.
Proof.
  intros Hl Hz HQ. unfold eat_number. wp_step. apply (wp_eat_until_eol (decimal z) tl); [done|by apply decimal_line|].
  intros c' t Hl' Hc. wp_step. apply wp_strtonumber; [done|]. wp_step. wp_step; [apply double_int_double; unfold in_s; lia|].
  do 2 wp_step. do 2 wp_step. wp_step. by apply HQ.
Qed.

(** The bytes of a string and their end. *)
Lemma wp_eat_bytes {A : Type} s tl c (k : tree -> C A) Q :
  at_line c (s ++ crlf ++ tl) -> (forall c', at_line c' tl -> core c' = core c -> wpd (k (TStr s)) Q c') ->
  wpd (str ← eat (s32 (alen s)); t ← push_bytes str (alen s); eat 2;; k t) Q c.
Proof.
  intros Hl HQ. pose proof Hl as (_ & _ & Hlim & _). pose proof (alen_nonneg s). pose proof (alen_nonneg (crlf ++ tl)).
  rewrite alen_app in Hlim. unfold stream_limit in Hlim. rewrite swrap_small by (unfold in_s; lia).
  wp_step. apply (wp_eat_at s (crlf ++ tl)); [done|done|]. intros c1 t Hl1 Hc1 _. wp_step. unfold push_bytes. wp_step.
  wp_step; [apply (slice_mid [] s (z2b 0 :: t)); done|]. wp_step. wp_step.
  apply (wp_eat_at crlf tl); [done|done|]. intros c2 t2 Hl2 Hc2 _. apply HQ; [done|congruence].
Qed.

Lemma wp_eat_string c s tl Q :
  at_line c (bulk s ++ tl) -> string_size c = 0 ->
  (forall c', at_line c' tl -> phase c' = PHASE_BEGIN -> Q (Some (TStr s)) c') -> wpd eat_string Q c.
Proof.
  unfold bulk. rewrite <- !app_assoc. intros Hl Hz HQ. pose proof Hl as (_ & _ & Hlim & _). unfold stream_limit in Hlim.
  assert (0 <= alen s <= 2 ^ 30) as Hs by (rewrite !alen_app in Hlim; pose proof (alen_nonneg (decimal (alen s))); pose proof (alen_nonneg s); pose proof (alen_nonneg tl); change (alen crlf) with 2 in Hlim; lia).
  unfold eat_string. do 2 wp_step. rewrite Hz. cbn [Z.eqb]. wp_step.
  apply (wp_eat_until_eol (decimal (alen s)) (s ++ crlf ++ tl)); [done|apply decimal_line; lia|]. intros c1 t Hl1 Hc1. wp_step.
  apply wp_strtonumber; [lia|]. do 2 wp_step. do 2 wp_step. rewrite uwrap_small by lia. unfold eat_string_body. do 2 wp_step.
  cbn [string_size set_string total]. pose proof Hl1 as (_ & Ht1 & Hlim1 & _). rewrite Ht1. unfold stream_limit in Hlim1.
  assert (alen s + 2 <= alen (s ++ crlf ++ tl)) by (rewrite !alen_app; pose proof (alen_nonneg tl); change (alen crlf) with 2; lia).
  rewrite !uwrap_small by lia. rewrite (proj2 (Z.ltb_ge _ _)) by lia.
  apply (wp_eat_bytes s tl); [done|]. intros c2 Hl2 _. do 2 wp_step. do 2 wp_step. wp_step. by apply HQ.
Qed.

(** The first line of an element, the rest of it, its type and number. *)
Definition item_head (x : item) : Z * Z * bytes :=
  match x with IStr s => (0, alen s, s ++ crlf) | INum z => (1, z, []) end.

Lemma item_text_head x : item_text x = (let '(type, n, rest) := item_head x in z2b (if type =? 0 then 36 else 58) :: decimal n ++ crlf ++ rest).
Proof. by destruct x. Qed.

Lemma wp_eat_header x type n rest tl c Q :
  item_head x = (type, n, rest) -> Z.abs n < 2 ^ 53 -> at_line c (item_text x ++ tl) -> array_reserve c = 0 ->
  (forall c', at_line c' (rest ++ tl) -> core c' = core c ->
    Q (Some type) (set_array (array_count c) (array_index c) (u64 n) (array_ref c) c')) ->
  wpd eat_header Q c.
Proof.
  intros Ex Hn Hl Hr HQ. rewrite item_text_head, Ex in Hl. set (ch := z2b (if type =? 0 then 36 else 58)) in *.
  assert ((type = 0 \/ type = 1) /\ is_line (ch :: decimal n)) as [Hty Hline].
  { destruct (decimal_line n Hn) as [H1 H2]. destruct x; injection Ex as <- <- <-; (split; [lia|split; apply not_elem_of_cons; done]). }
  replace ((ch :: decimal n ++ crlf ++ rest) ++ tl) with ((ch :: decimal n) ++ crlf ++ rest ++ tl) in Hl by (cbn; by rewrite <- !app_assoc).
  unfold eat_header. do 2 wp_step. rewrite Hr. cbn [Z.eqb]. wp_step. apply (wp_eat_until_eol _ _ _ _ Hl Hline). intros c1 t Hl1 Hc1.
  wp_step. cbn [app]. wp_step; [apply aget_cons_0|]. wp_step. apply (wp_Done _ _ _ type _ c1).
  { by destruct Hty as [-> | ->]. }
  wp_step. cbn [drop]. apply wp_strtonumber; [done|]. do 2 wp_step. do 2 wp_step. wp_step.
  pose proof Hc1 as Hc2. injection Hc2 as _ _ -> -> _ ->. by apply HQ.
Qed.

Lemma wp_eat_element x type n rest tl c Q :
  item_head x = (type, n, rest) -> item_ok x -> at_line c (rest ++ tl) -> array_reserve c = u64 n ->
  (forall c', at_line c' tl -> core c' = core c -> Q (Some (item_tree x)) c') ->
  wpd (eat_element type) Q c.
Proof.
  intros Ex Hok Hl Hr HQ. unfold eat_element. do 2 wp_step. rewrite Hr. destruct x as [s|z]; injection Ex as <- <- <-; cbn [Z.eqb].
  - rewrite <- app_assoc in Hl. pose proof Hl as (_ & Htot & Hlim & _). unfold stream_limit in Hlim. rewrite !alen_app in *.
    pose proof (alen_nonneg s). pose proof (alen_nonneg tl). change (alen crlf) with 2 in *. rewrite !uwrap_small by lia.
    rewrite (proj2 (Z.eqb_neq _ _)) by lia. rewrite (proj2 (Z.ltb_ge _ _)) by lia. rewrite swrap_small by (unfold in_s; lia).
    do 2 wp_step. apply (wp_eat_at s (crlf ++ tl)); [done|done|]. intros c1 t Hl1 Hc1 _. wp_step. unfold push_bytes. wp_step.
    wp_step; [apply (slice_mid [] s (z2b 0 :: t)); done|]. wp_step. wp_step. wp_step.
    apply (wp_eat_at crlf tl); [done|done|]. intros c2 t2 Hl2 Hc2 _. wp_step. apply HQ; [done|congruence].
  - wp_step. cbn in Hok. rewrite swrap_uwrap, swrap_small by (unfold in_s; lia). by apply HQ.
Qed.

(** In the loop over the elements of [l]: those of [fin] are in the table, those of
    [todo] are to come. *)
Definition in_array (l fin todo : list item) (tl : bytes) (c : data_collector) : Prop :=
  l = fin ++ todo /\ at_line c (mjoin (item_text <$> todo) ++ tl) /\
  array_count c = alen l /\ array_index c = alen fin /\ array_reserve c = 0 /\ array_ref c = array_entries (item_tree <$> fin).

Lemma item_head_ok x s type n rest : item_head x = (type, n, rest) -> item_ok x -> alen (item_text x ++ s) <= stream_limit -> Z.abs n < 2 ^ 53.
Proof.
  unfold stream_limit. destruct x as [b|z]; intros [= <- <- <-] Hok Hl; [|done]. cbn [item_text] in Hl. unfold bulk in Hl.
  rewrite alen_app, alen_cons, !alen_app in Hl. pose proof (alen_nonneg (decimal (alen b))). pose proof (alen_nonneg b). pose proof (alen_nonneg s).
  change (alen crlf) with 2 in Hl. lia.
Qed.

Lemma wp_eat_elements l tl c Q :
  in_array l [] l tl c -> Forall item_ok l -> alen l < 2 ^ 32 ->
  (forall c', at_line c' tl -> phase c' = PHASE_BEGIN -> Q (Some (reply_tree (RArray l))) c') -> wpd eat_elements Q c.
Proof.
  intros Hin Hok Hcnt HQ. unfold eat_elements. do 2 wp_step.
  apply (wp_loop_rank (fun k _ c => exists fin todo, k = length todo /\ in_array l fin todo tl c) _ _ _ _ (length l)); [|by exists [], l|].
  - intros k [] c1 (fin & todo & -> & El & Hl & Hc & Hi & Hr & Ht). do 2 wp_step. rewrite Hc, Hi, El, alen_app.
    destruct todo as [|x todo].
    + rewrite alen_nil, Z.add_0_r, Z.leb_refl. do 2 wp_step. wp_step. rewrite app_nil_r in El. subst fin. rewrite Ht. by apply HQ.
    + rewrite alen_cons. pose proof (alen_nonneg todo). rewrite (proj2 (Z.leb_gt _ _)) by lia. cbn [fmap list_fmap] in Hl.
      rewrite mjoin_cons, <- app_assoc in Hl. assert (item_ok x) as Hx by (rewrite El in Hok; apply Forall_app in Hok as [_ Hok]; by inversion Hok).
      destruct (item_head x) as [[type n] rest] eqn:Ex. pose proof Hl as (_ & _ & Hlim & _).
      assert (Z.abs n < 2 ^ 53) as Hn by by eapply item_head_ok.
      wp_step. apply (wp_eat_header x type n rest (mjoin (item_text <$> todo) ++ tl)); [done|done|done|done|]. intros c2 Hl2 Hc2. wp_step.
      apply (wp_eat_element x type n rest (mjoin (item_text <$> todo) ++ tl)); [done|done|done|done|]. intros c3 Hl3 Hc3. do 2 wp_step. do 2 wp_step. wp_step.
      exists (length todo). split; [cbn; lia|]. exists (fin ++ [x]), todo. split; [done|].
      injection Hc3 as _ _ Hc3 Hi3 _ Ht3. unfold in_array. cbn [array_count array_index array_reserve array_ref set_array] in *.
      rewrite Hc3, Hi3, Ht3, Hi, Ht, alen_snoc, fmap_app. split_and!; [by rewrite <- app_assoc|exact Hl3|by rewrite Hc, El| |done|].
      * apply uwrap_small. pose proof (alen_nonneg fin). rewrite El, alen_app, alen_cons in Hcnt. lia.
      * change (item_tree <$> [x]) with [item_tree x]. rewrite <- rawseti_snoc by by destruct x. by rewrite !alen_length, length_fmap.
  - destruct Hin as (_ & (_ & Ht & _) & _). rewrite Ht, alen_app. pose proof (alen_nonneg tl).
    assert (length l <= length (mjoin (item_text <$> l)))%nat; [|rewrite alen_length; lia].
    rewrite <- (Nat.mul_1_l (length l)). apply length_mjoin_ge. intros [s|z] _; cbn; lia.
Qed.

Lemma wp_eat_array l tl c Q :
  at_line c (decimal (alen l) ++ crlf ++ mjoin (item_text <$> l) ++ tl) -> Forall item_ok l -> core c = (phase c, string_size c, (0, 0, 0, [])) ->
  (forall c', at_line c' tl -> phase c' = PHASE_BEGIN -> Q (Some (reply_tree (RArray l))) c') -> wpd eat_array Q c.
Proof.
  intros Hl Hok Hc HQ. injection Hc as Hc Hi Hr Ht. pose proof Hl as (_ & _ & Hlim & _). unfold stream_limit in Hlim.
  assert (length l <= length (mjoin (item_text <$> l)))%nat.
  { rewrite <- (Nat.mul_1_l (length l)). apply length_mjoin_ge. intros [s|z] _; cbn; lia. }
  assert (0 <= alen l <= 2 ^ 30) as Hn.
  { rewrite !alen_app in Hlim. pose proof (alen_nonneg (decimal (alen l))). pose proof (alen_nonneg tl). change (alen crlf) with 2 in Hlim.
    rewrite !alen_length in *. lia. }
  unfold eat_array. do 2 wp_step. rewrite Hc. cbn [Z.eqb]. wp_step.
  apply (wp_eat_until_eol (decimal (alen l)) (mjoin (item_text <$> l) ++ tl)); [done|apply decimal_line; lia|]. intros c1 t Hl1 Hc1. wp_step.
  apply wp_strtonumber; [lia|]. do 2 wp_step. do 2 wp_step. rewrite uwrap_small by lia. injection Hc1 as _ _ Hc1 Hi1 Hr1 Ht1.
  apply (wp_eat_elements l tl); [|done|lia|done]. unfold in_array. cbn. rewrite Hi1, Hr1, Ht1. done.
Qed.

(** ** Popping *)

Lemma first_byte c ch s : at_line c (ch :: s) -> exists rb rest, head c = rb :: rest /\ aget (data rb) (offset rb) = Some ch.
Proof.
  intros (Hh & _). inversion Hh as [|rb rest y ys (x & Ed & Eo & _) Hy _ Eh Es]. exists rb, rest. split; [done|].
  destruct y as [|ch' y]; [done|]. injection Es as -> _. rewrite Ed, aget_app_r, Eo, Z.sub_diag by lia. apply aget_cons_0.
Qed.

Lemma wp_pop c r tl Q :
  at_line c (reply_text r ++ tl) -> phase c = PHASE_BEGIN -> reply_ok r ->
  (forall c', at_line c' tl -> phase c' = PHASE_BEGIN -> Q (Some (reply_tree r)) c') -> wpd _pop Q c.
Proof.
  intros Hl Hph Hok HQ.
  assert (exists ch text, reply_text r = ch :: text) as (ch & text & Er) by (destruct r; by eexists _, _).
  rewrite Er in Hl. destruct (first_byte c ch (text ++ tl) Hl) as (rb & rest & Eh & Ech). unfold _pop. cbn [loop]. wp_step. do 2 wp_step. rewrite Hph, Eh.
  cbn [Z.eqb Pos.eqb PHASE_BEGIN]. wp_step. wp_step; [exact Ech|]. wp_step.
  apply (wp_Done _ _ _ tt _ (match r with
    | RStatus _ _ => set_phase PHASE_STATUS c | RNumber _ => set_phase PHASE_NUMBER c
    | RString _ => set_string 0 (set_phase PHASE_STRING c) | RArray _ => set_array 0 0 0 [] (set_phase PHASE_ARRAY c) end)).
  { destruct r as [[] s|z|s|l]; injection Er as <- _; reflexivity. }
  wp_step. apply (wp_eat_at [ch] (text ++ tl)); [by destruct r|done|]. intros c1 t Hl1 Hc1 _. wp_step. wp_step. do 2 wp_step.
  destruct r as [error s|z|s|l]; injection Er as _ <-; injection Hc1 as Hph1 Hs1 Hn1 Hi1 Hr1 Ht1; cbn in Hph1, Hs1, Hn1, Hi1, Hr1, Ht1;
    rewrite Hph1; rewrite <- ?app_assoc in Hl1; cbn [Z.eqb Pos.eqb PHASE_BEGIN PHASE_STATUS PHASE_NUMBER PHASE_STRING PHASE_ARRAY]; wp_step.
  - apply (wp_eat_status c1 error s tl); [done|done|]. intros c2 H2 H2'. do 2 wp_step. by apply HQ.
  - apply (wp_eat_number c1 z tl); [done|done|]. intros c2 H2 H2'. do 2 wp_step. by apply HQ.
  - apply (wp_eat_string c1 s tl); [done|done|]. intros c2 H2 H2'. do 2 wp_step. by apply HQ.
  - apply (wp_eat_array l tl c1); [done|done|unfold core; congruence|]. intros c2 H2 H2'. do 2 wp_step. by apply HQ.
Qed.

Lemma holds_empty l : holds l [] -> l = [].
Proof. remember (@nil byte) as s eqn:E. destruct 1 as [|rb rest y ys _ Hy _]; [done|]. by apply app_eq_nil in E as [-> _]. Qed.

Lemma pop_empty c : at_line c [] -> phase c = PHASE_BEGIN -> _pop c = Done None c.
Proof.
  intros (Hh & _) Hph. pose proof (holds_empty _ Hh) as E.
  unfold _pop. cbn [loop]. rewrite (bind_Done _ _ (inr None) c c); [done|]. erewrite bind_Done by reflexivity. by rewrite Hph, E.
Qed.

(** ** Pushing *)

Lemma holds_snoc l s rb y : holds l s -> offset rb = 0 -> at_pos rb 0 y -> y <> [] -> holds (l ++ [rb]) (s ++ y).
Proof.
  intros Hh Ho Hp Hy. destruct Hh as [|rb0 rest y0 ys Hp0 Hy0 Hr].
  - cbn. rewrite <- (app_nil_r y). apply (holds_cons rb [] y []); [by rewrite Ho|done|constructor].
  - rewrite <- app_assoc, <- mjoin_snoc. apply (holds_cons rb0 (rest ++ [rb])); [done|done|]. apply Forall2_app; [done|]. by repeat constructor.
Qed.

Lemma wp_push str c s Q :
  at_line c s -> str <> [] -> z2b 0 ∉ str -> alen (s ++ str) <= stream_limit ->
  (forall c', at_line c' (s ++ str) -> phase c' = phase c -> Q tt c') -> wpd (_push str) Q c.
Proof.
  intros (Hh & Htot & Hlim & Hres & Hc) Hne Hz Hl HQ. unfold _push. do 2 wp_step. pose proof (alen_nonneg str). pose proof (alen_nonneg s).
  rewrite alen_app in Hl. unfold stream_limit in Hl. rewrite !swrap_small, cstr_id by (done || unfold in_s; lia).
  destruct (freelist c); wp_step; (apply HQ; [|done]; unfold at_line; cbn; split_and!; try lia; try done;
    [apply holds_snoc; [done|done|by exists []|done]|rewrite alen_app; lia|rewrite alen_app; unfold stream_limit; lia]).
Qed.

Fixpoint pops (n : nat) : C (list (option tree)) :=
  match n with
  | O => mret []
  | S n => r ← _pop; rs ← pops n; mret (r :: rs)
  end.

Lemma wp_pushes ps c s Q :
  at_line c s -> Forall (fun p => p <> [] /\ z2b 0 ∉ p) ps -> alen (s ++ mjoin ps) <= stream_limit ->
  (forall c', at_line c' (s ++ mjoin ps) -> phase c' = phase c -> Q tt c') -> wpd (for_each ps _push) Q c.
Proof.
  revert c s. induction ps as [|p ps IH]; intros c s Hl Hps Hlim HQ; cbn [for_each].
  - wp_step. apply HQ; [by rewrite app_nil_r|done].
  - inversion Hps as [|? ? [Hne Hz] Hps']; subst. rewrite mjoin_cons in *. rewrite app_assoc in *.
    wp_step. apply (wp_push p c s); [done|done|done|rewrite (alen_app (s ++ p)) in Hlim; pose proof (alen_nonneg (mjoin ps)); lia|].
    intros c' Hl' Hph. apply (IH c' (s ++ p)); [done|done|done|]. intros c'' H1 H2. apply HQ; [done|congruence].
Qed.

Lemma wp_pops rs c tl Q :
  at_line c (mjoin (reply_text <$> rs) ++ tl) -> phase c = PHASE_BEGIN -> Forall reply_ok rs ->
  (forall c', at_line c' tl -> phase c' = PHASE_BEGIN -> Q ((fun r => Some (reply_tree r)) <$> rs) c') -> wpd (pops (length rs)) Q c.
Proof.
  revert c Q. induction rs as [|r rs IH]; intros c Q Hl Hph Hok HQ; cbn [pops length]; [wp_step; by apply HQ|].
  cbn [fmap list_fmap] in Hl. rewrite mjoin_cons, <- app_assoc in Hl. inversion Hok; subst.
  wp_step. apply (wp_pop c r (mjoin (reply_text <$> rs) ++ tl)); [done|done|done|]. intros c1 Hl1 Hph1. wp_step.
  apply IH; [done|done|done|]. intros c2 Hl2 Hph2. wp_step. by apply HQ.
Qed.

Lemma create_line : at_line _create_collector [] /\ phase _create_collector = PHASE_BEGIN.
Proof. split; [|done]. split_and!; [constructor|done|done|by vm_compute|by vm_compute|done]. Qed.

(** C5: whole replies are delivered exactly, however the stream is cut into
    pieces: after any pieces that make up the text of some replies have been pushed,
    as many pops give the values of these replies in order (status lines, integers
    below 2^53, strings, arrays of strings and integers), and one more gives
    nothing. The pieces are not empty and have no zero byte. *)
Theorem replies_delivered ps rs :
  Forall (fun p => p <> [] /\ z2b 0 ∉ p) ps -> Forall reply_ok rs ->
  mjoin ps = mjoin (reply_text <$> rs) -> alen (mjoin ps) <= stream_limit ->
  exists c, (for_each ps _push;; pops (length rs)) _create_collector = Done ((fun r => Some (reply_tree r)) <$> rs) c /\
    _pop c = Done None c.
Proof.
  intros Hps Hrs E Hlim. destruct create_line as [Hl Hph].
  assert (wpd (for_each ps _push;; pops (length rs)) (fun v c => v = ((fun r => Some (reply_tree r)) <$> rs) /\ at_line c [] /\ phase c = PHASE_BEGIN)
    _create_collector) as Wp.
  { wp_step. apply (wp_pushes ps _ []); [done|done|done|]. intros c1 Hl1 Hph1. rewrite app_nil_l, E in Hl1.
    apply (wp_pops rs c1 []); [by rewrite app_nil_r|congruence|done|]. done. }
  apply wpd_Done in Wp as (v & c & E' & -> & Hl' & Hph'). exists c. split; [done|]. by apply pop_empty.
Qed.

(** ** Commands *)

Definition wb_ok (w : write_buffer) (out : bytes) : Prop :=
  alen (ptr w) = wsize w /\ woffset w = alen out /\ BUFFER_SIZE <= wsize w <= 2 ^ 32 /\ alen out <= wsize w /\
  take (Z.to_nat (alen out)) (ptr w) = out.

Abbreviation emits := (Codec.emits wb_ok stream_limit).

Lemma wp_wb_reservce len w out Q :
  wb_ok w out -> 0 <= len -> alen out + len <= stream_limit ->
  (forall w', wb_ok w' out -> alen out + len <= wsize w' -> Q tt w') -> wpd (wb_reservce len) Q w.
Proof.
  intros (Hl & Ho & Hs & Hos & Ht) Hlen Hmax HQ. unfold wb_reservce. do 2 wp_step. pose proof (alen_nonneg out).
  unfold stream_limit, BUFFER_SIZE in *. rewrite !uwrap_small by lia. destruct (Z.leb_spec (woffset w + len) (wsize w)) as [Hle|Hgt].
  - wp_step. apply HQ; [|lia]. split_and!; unfold BUFFER_SIZE; try done; lia.
  - wp_step. apply wp_double_to; [lia|lia|]. intros n Hn1 Hn2.
    replace (Z.to_nat n) with (Z.to_nat (wsize w) + Z.to_nat (n - wsize w))%nat by lia. rewrite replicate_add.
    wp_step. wp_step; [apply (memcpy_mid [] (replicate (Z.to_nat (wsize w)) (z2b 0)) (ptr w)); [done|rewrite alen_replicate; lia]|]. wp_step.
    apply HQ; [|cbn; lia]. split_and!; cbn; unfold BUFFER_SIZE; rewrite ?alen_app, ?alen_replicate; try lia.
    rewrite take_app_le; [done|]. rewrite alen_length in *. lia.
Qed.

Lemma emits_addlstring b : emits (wb_addlstring b) tt b.
Proof.
  intros w out Q K Hl HQ. pose proof (alen_nonneg b). pose proof (alen_nonneg out). unfold wb_addlstring. wp_step.
  apply (wp_wb_reservce _ w out); [done|lia|done|]. intros w1 (Hl1 & Ho1 & Hs1 & Hos1 & Ht1) Hfit. do 2 wp_step.
  destruct (memcpy_at (ptr w1) b (woffset w1)) as (p' & Ep & Lp & Tp); [lia|lia|]. unfold stream_limit in Hl.
  wp_step. wp_step; [exact Ep|]. wp_step. apply HQ.
  split_and!; cbn; rewrite ?alen_app, ?uwrap_small by lia; try lia. rewrite <- Ho1, Tp. by rewrite Ho1, Ht1.
Qed.

Lemma emits_addchar c : emits (wb_addchar c) tt [c].
Proof. exact (emits_addlstring [c]). Qed.

(** The text of a number that an [int32_t] holds. *)
Lemma conv_int {St : Type} z (s : St) : in_s 32 z -> conv_number (int_double z) s = Done (decimal z) s.
Proof.
  intros Hz. pose proof Hz as Hz'. unfold in_s in Hz'. unfold conv_number.
  rewrite (double_int_double 32), (double_int_double 64), float_int_double by (unfold in_s; lia). cbn [deref].
  do 2 erewrite bind_Done by reflexivity. rewrite bool_decide_eq_true_2 by done.
  assert (i32toa_fast z [] = Done tt (decimal z) /\ alen (decimal z) <= 11) as [E Hlen].
  { split; [apply (writes_signed 32 u32toa z); [lia|apply writes_u32toa|done]|]. apply (length_decimal 9); [lia|]. change (10 ^ (Z.of_nat 9 + 1)) with (10 ^ 10). lia. }
  unfold to_array. rewrite E.
  destruct (memcpy_at str64 (decimal z ++ [z2b 0]) 0) as (b & -> & _); [lia|rewrite alen_snoc; change (alen str64) with 64; lia|done].
Qed.

Lemma emits_conv {A : Type} z (k : bytes -> W A) a b :
  in_s 32 z -> emits (k (decimal z)) a b -> emits (str ← conv_number (int_double z); k str) a b.
Proof. intros Hz Hk w out Q K Hl HQ. wp_step. eapply wp_Done; [by apply conv_int|]. by apply (Hk w out). Qed.

Lemma emits_addnumber z : in_s 32 z -> emits (wb_addnumber (int_double z)) tt (decimal z).
Proof. intros Hz. by apply emits_conv, emits_addlstring. Qed.

(** The text of an argument, for those that are sent. *)
Definition arg_ok (v : value) : Prop :=
  match v with VStr s => alen s < 2 ^ 31 | VBool _ => True | VInt z => in_s 32 z | _ => False end.
Definition arg_text (v : value) : bytes :=
  match v with VStr s => s | VBool b => decimal (if b then 1 else 0) | VInt z => decimal z | _ => [] end.

Lemma emits_cmd_arg v : arg_ok v -> emits (cmd_arg v) tt (item_text (IStr (arg_text v))).
Proof.
  intros Hv. unfold cmd_arg. cbn [item_text]. unfold bulk. change (z2b 36 :: ?l) with ([z2b 36] ++ l).
  eapply emits_bind; [apply emits_addchar|]. rewrite !app_assoc. eapply emits_bind; [|apply emits_addlstring]. rewrite <- !app_assoc.
  assert (forall s : bytes, alen s < 2 ^ 31 -> in_s 32 (alen s)) as Hs by (intros s ?; pose proof (alen_nonneg s); unfold in_s; lia).
  destruct v as [|b|z| |s| | | | |]; cbn [arg_text arg_ok tonumber] in *; try contradiction.
  - assert (decimal (alen (decimal (if b then 1 else 0))) = [z2b 49]) as -> by (destruct b; by vm_compute).
    eapply emits_bind; [apply emits_addchar|eapply emits_bind; [apply emits_addlstring|]].
    destruct b; [apply (emits_addnumber 1)|apply (emits_addnumber 0)]; unfold in_s; lia.
  - apply emits_conv; [done|]. eapply emits_bind; [apply emits_addnumber|eapply emits_bind; apply emits_addlstring].
    apply Hs. eapply Z.le_lt_trans; [apply (length_decimal 9); [lia|]|done]. unfold in_s in Hv. change (10 ^ (Z.of_nat 9 + 1)) with (10 ^ 10). lia.
  - eapply emits_bind; [by apply emits_addnumber, Hs|eapply emits_bind; apply emits_addlstring].
Qed.

Lemma init_ok : wb_ok (MkWb (replicate (Z.to_nat BUFFER_SIZE) (z2b 0)) BUFFER_SIZE 0) [].
Proof.
  unfold wb_ok. cbn [ptr wsize woffset]. rewrite alen_nil, alen_replicate, Z2Nat.id by (unfold BUFFER_SIZE; lia).
  unfold BUFFER_SIZE. split_and!; lia || reflexivity.
Qed.

Lemma cmd_text args w :
  Forall arg_ok args -> alen (reply_text (RArray ((fun v => IStr (arg_text v)) <$> args))) <= stream_limit ->
  exists w', _cmd args w = Done (reply_text (RArray ((fun v => IStr (arg_text v)) <$> args))) w'.
Proof.
  intros Hargs Hlim. set (text := reply_text _) in *.
  assert (emits (cmd_body args) tt text) as He.
  { unfold text. cbn [reply_text]. change (z2b 42 :: ?l) with ([z2b 42] ++ l). eapply emits_bind; [apply emits_addchar|].
    replace (alen ((fun v => IStr (arg_text v)) <$> args)) with (alen args) by by rewrite !alen_length, length_fmap.
    eapply emits_bind; [apply emits_addnumber|eapply emits_bind; [apply emits_addlstring|]].
    - assert (length args <= length (mjoin (item_text <$> ((fun v => IStr (arg_text v)) <$> args))))%nat as Hlen.
      { rewrite <- list_fmap_compose, <- (Nat.mul_1_l (length args)). apply length_mjoin_ge. intros x _. cbn. lia. }
      unfold text, stream_limit in Hlim. cbn [reply_text] in Hlim. rewrite alen_cons, !alen_app in Hlim. pose proof (alen_nonneg crlf).
      pose proof (alen_nonneg (decimal (alen ((fun v => IStr (arg_text v)) <$> args)))). unfold in_s. rewrite !alen_length in *. lia.
    - rewrite <- list_fmap_compose. apply emits_for_each. intros v Hv. rewrite Forall_forall in Hargs. by apply emits_cmd_arg, Hargs. }
  assert (wpd (_cmd args) (fun v _ => v = text) w) as Wp; [|apply wpd_Done in Wp as (v & w' & E & ->); by exists w'].
  unfold _cmd, wb_init, wb_release. do 2 wp_step. wp_step. apply (He _ []); [|done|].
  - apply init_ok.
  - intros w1 (Hl1 & Ho1 & Hs1 & Hos1 & Ht1). rewrite app_nil_l in *. do 2 wp_step. pose proof (alen_nonneg text). wp_step.
    wp_step; [apply slice_take; lia|]. wp_step. wp_step. wp_step. by rewrite Ho1.
Qed.

(** The texts have no zero byte when the strings in them have none. *)
Lemma number_no_zero z s : Z.abs z < 2 ^ 53 -> z2b 0 ∉ s -> z2b 0 ∉ decimal z ++ crlf ++ s.
Proof.
  intros Hz Hs. destruct (decimal_line z Hz) as [_ Hd]. assert (z2b 0 ∉ crlf) by (apply (bool_decide_unpack _); by vm_compute).
  by intros [?|[?|?]%elem_of_app]%elem_of_app.
Qed.

Lemma item_no_zero s : alen s < 2 ^ 53 -> z2b 0 ∉ s -> z2b 0 ∉ item_text (IStr s).
Proof.
  intros Hl Hs. cbn [item_text]. unfold bulk. pose proof (alen_nonneg s). apply not_elem_of_cons. split; [done|].
  apply number_no_zero; [lia|]. assert (z2b 0 ∉ crlf) by (apply (bool_decide_unpack _); by vm_compute). by intros [?|?]%elem_of_app.
Qed.

Lemma cmd_no_zero args :
  Forall arg_ok args -> Forall (fun v => z2b 0 ∉ arg_text v) args ->
  alen (reply_text (RArray ((fun v => IStr (arg_text v)) <$> args))) <= stream_limit ->
  z2b 0 ∉ reply_text (RArray ((fun v => IStr (arg_text v)) <$> args)).
Proof.
  intros Hok Hz Hlim. cbn [reply_text] in *. unfold stream_limit in Hlim. rewrite alen_cons, !alen_app in Hlim.
  set (l := (fun v => IStr (arg_text v)) <$> args) in *. pose proof (alen_nonneg (decimal (alen l))). pose proof (alen_nonneg l).
  assert (alen l <= alen (mjoin (item_text <$> l))) as Hlen.
  { rewrite !alen_length. apply Nat2Z.inj_le. rewrite <- (Nat.mul_1_l (length l)). apply length_mjoin_ge. intros [s|z] _; cbn; lia. }
  change (alen crlf) with 2 in Hlim. apply not_elem_of_cons. split; [done|]. apply number_no_zero; [lia|].
  intros (t & Ht & (x & -> & (v & -> & Hv)%list_elem_of_fmap)%list_elem_of_fmap)%list_elem_of_join. revert Ht.
  rewrite Forall_forall in Hz. apply item_no_zero; [|by apply Hz].
  assert (alen (item_text (IStr (arg_text v))) <= alen (mjoin (item_text <$> l))) as Hx.
  { rewrite !alen_length. apply Nat2Z.inj_le, length_mjoin_elem, list_elem_of_fmap. by exists v. }
  cbn [item_text] in Hx. unfold bulk in Hx. rewrite alen_cons, !alen_app in Hx.
  pose proof (alen_nonneg (decimal (alen (arg_text v)))). change (alen crlf) with 2 in Hx. lia.
Qed.

(** C30: a command sent by [_cmd] and read back by a collector gives the arguments it
    was made of, as strings: when they are booleans, 32-bit integers and strings
    without zero bytes, and the command is within [stream_limit], the text is the
    array of their texts, and a collector that is given the text returns these.
    [_cmd] takes strings with zero bytes too, but [_push] copies a text with strdup, up
    to the first one. *)
Theorem cmd_then_pop args w :
  Forall arg_ok args -> Forall (fun v => z2b 0 ∉ arg_text v) args ->
  alen (reply_text (RArray ((fun v => IStr (arg_text v)) <$> args))) <= stream_limit ->
  exists text w' c, _cmd args w = Done text w' /\ text = reply_text (RArray ((fun v => IStr (arg_text v)) <$> args)) /\
    (_push text;; _pop) _create_collector = Done (Some (TTable (array_entries ((fun v => TStr (arg_text v)) <$> args)))) c.
Proof.
  intros Hargs Hz Hlim. destruct (cmd_text args w Hargs Hlim) as (w' & E). set (r := RArray _) in *. exists (reply_text r), w'.
  destruct create_line as [Hl Hph].
  assert (wpd (_push (reply_text r);; _pop) (fun v _ => v = Some (reply_tree r)) _create_collector) as Wp.
  { wp_step. apply (wp_push _ _ []); [done|done| |done|].
    - by apply cmd_no_zero.
    - intros c1 Hl1 Hph1. apply (wp_pop c1 r []); [by rewrite app_nil_r|congruence| |done].
      apply Forall_fmap, Forall_forall. done. }
  apply wpd_Done in Wp as (v & c & E' & ->). exists c. split_and!; [done|done|]. rewrite E'. unfold r. cbn [reply_tree].
  by rewrite <- list_fmap_compose.
Qed.

(** ** Streams that fail *)

(** Text with [|] for the end of a line. *)
Definition text (s : string) : bytes :=
  mjoin ((fun c => if b2z c =? 124 then crlf else [c]) <$> list_byte_of_string s).

Lemma eat_minus_one c : 0 <= total c <= 2 ^ 30 -> 1 <= alen (reserve c) -> eat (-1) c = Fault OutOfBounds.
Proof.
  intros Ht Hr. unfold eat. erewrite bind_Done by reflexivity. rewrite (proj2 (Z.leb_le _ _)) by lia. erewrite bind_Done by reflexivity.
  unfold grow_reserve. erewrite (bind_Done _ _ tt c c).
  - erewrite bind_Done by reflexivity. erewrite (bind_Done (loop _ _ _)); [|reflexivity]. erewrite bind_Done by reflexivity.
    erewrite bind_Done; [|by rewrite bool_decide_eq_true_2 by (unfold in_s; lia)]. apply bind_Fault.
    by rewrite memcpy_neg by lia.
  - erewrite bind_Done by reflexivity. erewrite bind_Done by reflexivity. change (u64 (-1 + 1)) with 0. by rewrite (proj2 (Z.ltb_ge _ _)) by lia.
Qed.

Lemma eat_string_null c ch tl :
  at_line c (decimal (-1) ++ crlf ++ ch :: tl) -> string_size c = 0 -> eat_string c = Fault OutOfBounds.
Proof.
  intros Hl Hs. unfold eat_string. erewrite bind_Done by reflexivity. rewrite Hs. cbn [Z.eqb].
  apply bind_wp_Fault, (wp_eat_until_eol (decimal (-1)) (ch :: tl)); [done|by apply decimal_line|]. intros c1 t (_ & Ht & Hlim & Hr & _) _.
  apply bind_wp_Fault, wp_strtonumber; [done|]. do 2 erewrite bind_Done by reflexivity. unfold eat_string_body. erewrite bind_Done by reflexivity.
  unfold stream_limit in Hlim. rewrite alen_cons in *. pose proof (alen_nonneg tl). cbn [string_size set_string total]. rewrite Ht.
  change (u64 (u64 (-1) + 2)) with 1. rewrite uwrap_small, (proj2 (Z.ltb_ge _ _)) by lia. apply bind_Fault.
  change (s32 (u64 (-1))) with (-1). apply eat_minus_one; cbn; lia.
Qed.

(** C31: replies that the collector does not survive, or mistakes: the reply for a
    missing value, [$-1], makes it write in front of its buffer as soon as one more
    byte is there; inside an array the end of it is taken from the next element and
    the program aborts when there is none; an empty string whose end comes in a later
    piece is a Lua error; and a line that comes in three pieces, with a pop after
    each, is not found, and the next reply is taken for a part of it. *)
Theorem streams_that_fail :
  (forall c ch tl, at_line c (text "$-1|" ++ ch :: tl) -> phase c = PHASE_BEGIN -> _pop c = Fault OutOfBounds) /\
  (_push (text "*1|$-1|");; _pop) _create_collector = Fault AssertFail /\
  (exists c, (_push (text "$0|");; _pop;; _push (text "|");; _pop) _create_collector = Raise "parse number error" c) /\
  (exists c, (_push (text "+O");; r1 ← _pop; _push [z2b 75; z2b 13];; r2 ← _pop; _push [z2b 10];; r3 ← _pop;
     _push (text "+more|");; r4 ← _pop; mret [r1; r2; r3; r4]) _create_collector = Done [None; None; None; Some (TStr (text "OK|+m"))] c).
Proof.
  split; [|split; [by vm_compute|split; [eexists; by vm_compute|eexists; by vm_compute]]].
  intros c ch tl Hl Hph. change (text "$-1|" ++ ch :: tl) with (z2b 36 :: decimal (-1) ++ crlf ++ ch :: tl) in Hl.
  destruct (first_byte c _ _ Hl) as (rb & rest & Eh & Ech). unfold _pop. cbn [loop].
  apply bind_wp_Fault. do 2 wp_step. rewrite Hph, Eh. cbn [Z.eqb Pos.eqb PHASE_BEGIN]. wp_step. wp_step; [exact Ech|].
  change (b2z (z2b 36)) with 36. cbn [Z.eqb Pos.eqb orb]. do 2 wp_step. wp_step.
  apply (wp_eat_at [z2b 36] (decimal (-1) ++ crlf ++ ch :: tl)); [done|done|]. intros c1 t Hl1 Hc1 _. wp_step.
  injection Hc1 as Hp1 Hs1 _ _ _ _. cbn in Hp1, Hs1. apply bind_Fault. erewrite bind_Done by reflexivity. rewrite Hp1.
  cbn [Z.eqb Pos.eqb PHASE_BEGIN PHASE_STATUS PHASE_NUMBER PHASE_STRING]. apply bind_Fault. by apply (eat_string_null c1 ch tl).
Qed.

(** ** Examples *)

Definition ex_replies : list reply :=
  [RStatus false (text "OK"); RNumber (-42); RString (text "hi"); RArray [IStr (text "a"); INum 7; IStr []]].

Lemma replies_delivered_witness :
  exists c, (for_each [text "+OK|:-4"; text "2|$2|hi|*3|$1|"; text "a|:7|$0||"] _push;; pops 4) _create_collector
    = Done ((fun r => Some (reply_tree r)) <$> ex_replies) c /\ _pop c = Done None c.
Proof.
  apply (replies_delivered [text "+OK|:-4"; text "2|$2|hi|*3|$1|"; text "a|:7|$0||"] ex_replies).
  - apply (bool_decide_unpack _). by vm_compute.
  - repeat constructor; apply (bool_decide_unpack _); by vm_compute.
  - by vm_compute.
  - by vm_compute.
Defined.

Definition ex_args : list value := [VStr (text "SET"); VInt (-5); VBool true].

Lemma cmd_then_pop_witness :
  exists t w' c, _cmd ex_args (MkWb [] 0 0) = Done t w' /\
    t = text "*3|$3|SET|$2|-5|$1|1|" /\
    (_push t;; _pop) _create_collector = Done (Some (TTable (array_entries [TStr (text "SET"); TStr (text "-5"); TStr (text "1")]))) c.
Proof.
  destruct (cmd_then_pop ex_args (MkWb [] 0 0)) as (t & w' & c & H1 & H2 & H3).
  - repeat constructor; by vm_compute.
  - apply (bool_decide_unpack _). by vm_compute.
  - by vm_compute.
  - exists t, w', c. split; [exact H1|split; [rewrite H2; by vm_compute|exact H3]].
Defined.

Lemma streams_that_fail_witness :
  _pop (after (_push (text "$-1|+OK|")) _create_collector) = Fault OutOfBounds.
Proof.
  apply (proj1 streams_that_fail _ (z2b 43) (text "OK|")); [|by vm_compute].
  destruct create_line as [Hl _].
  assert (wpd (_push (text "$-1|+OK|")) (fun _ c => at_line c (text "$-1|+OK|")) _create_collector) as Wp.
  { apply (wp_push _ _ []); [done|done|apply (bool_decide_unpack _); by vm_compute|by vm_compute|done]. }
  apply wpd_Done in Wp as ([] & c & E & H). unfold after. rewrite E. exact H.
Defined.
