(* ===== verification/Ikcp.v ===== *)
(** * Reliable messages over datagrams (ikcp.c, lua-ikcp.c)

    KCP cuts messages into numbered segments, sends them in datagrams, acknowledges
    what arrives, sends again what is not acknowledged in time and puts the segments
    back into order. This file translates the whole protocol: sending, receiving, the
    parser of datagrams with acknowledgements and round trip times, the flush with its
    windows, retransmission and probing, the schedule, the settings and the Lua binding.
    The four queues of segments are lists, in the order in which the intrusive lists
    link them; a segment is in one queue at a time. The datagrams given to the [output]
    callback are collected in [outs]. IkcpNet.v connects two endpoints. *)

From S2P Require Import Prelude Outcome Codec.

#[local] Open Scope c_scope.

Definition IKCP_RTO_NDL : Z := 30.
Definition IKCP_RTO_MIN : Z := 100.
Definition IKCP_RTO_DEF : Z := 200.
Definition IKCP_RTO_MAX : Z := 60000.
Definition IKCP_CMD_PUSH : Z := 81.
Definition IKCP_CMD_ACK : Z := 82.
Definition IKCP_CMD_WASK : Z := 83.
Definition IKCP_CMD_WINS : Z := 84.
Definition IKCP_ASK_SEND : Z := 1.
Definition IKCP_ASK_TELL : Z := 2.
Definition IKCP_WND_SND : Z := 32.
Definition IKCP_WND_RCV : Z := 32.
Definition IKCP_MTU_DEF : Z := 1400.
Definition IKCP_INTERVAL : Z := 100.
Definition IKCP_OVERHEAD : Z := 24.
Definition IKCP_DEADLINK : Z := 20.
Definition IKCP_THRESH_INIT : Z := 2.
Definition IKCP_THRESH_MIN : Z := 2.
Definition IKCP_PROBE_INIT : Z := 7000.
Definition IKCP_PROBE_LIMIT : Z := 120000.

(** [struct IKCPSEG] without its links; [conv] and [xmit] are [s_conv] and [s_xmit]. *)
Record IKCPSEG := MkSeg {
  s_conv : Z; cmd : Z; frg : Z; wnd : Z; ts : Z; sn : Z; una : Z; len : Z; resendts : Z; rto : Z;
  fastack : Z; s_xmit : Z;
  data : bytes }.

(** [struct IKCPCB]: [buffer] is the size of the buffer, [output] tells whether the
    callback is set; there is no log callback. *)
Record IKCPCB := MkKcp {
  conv : Z; mtu : Z; mss : Z; state : Z; snd_una : Z; snd_nxt : Z; rcv_nxt : Z; ts_recent : Z;
  ts_lastack : Z; ssthresh : Z; rx_rttval : Z; rx_srtt : Z; rx_rto : Z; rx_minrto : Z; snd_wnd : Z;
  rcv_wnd : Z; rmt_wnd : Z; cwnd : Z; probe : Z; current : Z; interval : Z; ts_flush : Z; xmit : Z;
  nrcv_buf : Z; nsnd_buf : Z; nrcv_que : Z; nsnd_que : Z; nodelay : Z; updated : Z; ts_probe : Z;
  probe_wait : Z; dead_link : Z; incr : Z;
  snd_queue : list IKCPSEG; rcv_queue : list IKCPSEG; snd_buf : list IKCPSEG; rcv_buf : list IKCPSEG;
  acklist : list Z;
  ackcount : Z; ackblock : Z; buffer : Z; fastresend : Z; nocwnd : Z; stream : Z;
  output : bool;
  outs : list bytes }.

#[export] Instance IKCPSEG_eta : Eta IKCPSEG := fun s =>
  MkSeg (s_conv s) (cmd s) (frg s) (wnd s) (ts s) (sn s) (una s) (len s) (resendts s) (rto s)
    (fastack s) (s_xmit s) (data s).
#[export] Instance set_s_conv : Setter s_conv := ltac:(field_setter).
#[export] Instance set_cmd : Setter cmd := ltac:(field_setter).
#[export] Instance set_frg : Setter frg := ltac:(field_setter).
#[export] Instance set_wnd : Setter wnd := ltac:(field_setter).
#[export] Instance set_ts : Setter ts := ltac:(field_setter).
#[export] Instance set_sn : Setter sn := ltac:(field_setter).
#[export] Instance set_una : Setter una := ltac:(field_setter).
#[export] Instance set_len : Setter len := ltac:(field_setter).
#[export] Instance set_resendts : Setter resendts := ltac:(field_setter).
#[export] Instance set_rto : Setter rto := ltac:(field_setter).
#[export] Instance set_fastack : Setter fastack := ltac:(field_setter).
#[export] Instance set_s_xmit : Setter s_xmit := ltac:(field_setter).

#[export] Instance IKCPCB_eta : Eta IKCPCB := fun k =>
  MkKcp (conv k) (mtu k) (mss k) (state k) (snd_una k) (snd_nxt k) (rcv_nxt k) (ts_recent k)
    (ts_lastack k) (ssthresh k) (rx_rttval k) (rx_srtt k) (rx_rto k) (rx_minrto k) (snd_wnd k)
    (rcv_wnd k) (rmt_wnd k) (cwnd k) (probe k) (current k) (interval k) (ts_flush k) (xmit k)
    (nrcv_buf k) (nsnd_buf k) (nrcv_que k) (nsnd_que k) (nodelay k) (updated k) (ts_probe k)
    (probe_wait k) (dead_link k) (incr k) (snd_queue k) (rcv_queue k) (snd_buf k) (rcv_buf k)
    (acklist k) (ackcount k) (ackblock k) (buffer k) (fastresend k) (nocwnd k) (stream k)
    (output k) (outs k).
#[export] Instance set_mtu : Setter mtu := ltac:(field_setter).
#[export] Instance set_mss : Setter mss := ltac:(field_setter).
#[export] Instance set_state : Setter state := ltac:(field_setter).
#[export] Instance set_snd_una : Setter snd_una := ltac:(field_setter).
#[export] Instance set_snd_nxt : Setter snd_nxt := ltac:(field_setter).
#[export] Instance set_rcv_nxt : Setter rcv_nxt := ltac:(field_setter).
#[export] Instance set_ssthresh : Setter ssthresh := ltac:(field_setter).
#[export] Instance set_rx_rttval : Setter rx_rttval := ltac:(field_setter).
#[export] Instance set_rx_srtt : Setter rx_srtt := ltac:(field_setter).
#[export] Instance set_rx_rto : Setter rx_rto := ltac:(field_setter).
#[export] Instance set_rx_minrto : Setter rx_minrto := ltac:(field_setter).
#[export] Instance set_snd_wnd : Setter snd_wnd := ltac:(field_setter).
#[export] Instance set_rcv_wnd : Setter rcv_wnd := ltac:(field_setter).
#[export] Instance set_rmt_wnd : Setter rmt_wnd := ltac:(field_setter).
#[export] Instance set_cwnd : Setter cwnd := ltac:(field_setter).
#[export] Instance set_probe : Setter probe := ltac:(field_setter).
#[export] Instance set_current : Setter current := ltac:(field_setter).
#[export] Instance set_interval : Setter interval := ltac:(field_setter).
#[export] Instance set_ts_flush : Setter ts_flush := ltac:(field_setter).
#[export] Instance set_xmit : Setter xmit := ltac:(field_setter).
#[export] Instance set_nrcv_buf : Setter nrcv_buf := ltac:(field_setter).
#[export] Instance set_nsnd_buf : Setter nsnd_buf := ltac:(field_setter).
#[export] Instance set_nrcv_que : Setter nrcv_que := ltac:(field_setter).
#[export] Instance set_nsnd_que : Setter nsnd_que := ltac:(field_setter).
#[export] Instance set_nodelay : Setter nodelay := ltac:(field_setter).
#[export] Instance set_updated : Setter updated := ltac:(field_setter).
#[export] Instance set_ts_probe : Setter ts_probe := ltac:(field_setter).
#[export] Instance set_probe_wait : Setter probe_wait := ltac:(field_setter).
#[export] Instance set_incr : Setter incr := ltac:(field_setter).
#[export] Instance set_snd_queue : Setter snd_queue := ltac:(field_setter).
#[export] Instance set_rcv_queue : Setter rcv_queue := ltac:(field_setter).
#[export] Instance set_snd_buf : Setter snd_buf := ltac:(field_setter).
#[export] Instance set_rcv_buf : Setter rcv_buf := ltac:(field_setter).
#[export] Instance set_acklist : Setter acklist := ltac:(field_setter).
#[export] Instance set_ackcount : Setter ackcount := ltac:(field_setter).
#[export] Instance set_ackblock : Setter ackblock := ltac:(field_setter).
#[export] Instance set_buffer : Setter buffer := ltac:(field_setter).
#[export] Instance set_fastresend : Setter fastresend := ltac:(field_setter).
#[export] Instance set_nocwnd : Setter nocwnd := ltac:(field_setter).
#[export] Instance set_stream : Setter stream := ltac:(field_setter).
#[export] Instance set_output : Setter output := ltac:(field_setter).
#[export] Instance set_outs : Setter outs := ltac:(field_setter).

Abbreviation K := (M IKCPCB).

(** ** Numbers on the wire *)

Definition ikcp_encode8u (c : Z) : bytes := [z2b c].
Definition ikcp_encode16u (w : Z) : bytes := le_split 2 w.
Definition ikcp_encode32u (l : Z) : bytes := le_split 4 l.

(** A decoder reads at [p] and returns [p] moved past what it has read. *)
Definition ikcp_decode8u (p : bytes) : K (bytes * Z) :=
  d ← deref OutOfBounds (slice p 0 1); mret (drop 1 p, le_combine d).
Definition ikcp_decode16u (p : bytes) : K (bytes * Z) :=
  d ← deref OutOfBounds (slice p 0 2); mret (drop 2 p, le_combine d).
Definition ikcp_decode32u (p : bytes) : K (bytes * Z) :=
  d ← deref OutOfBounds (slice p 0 4); mret (drop 4 p, le_combine d).

Definition _imin_ (a b : Z) : Z := if a <=? b then a else b.
Definition _imax_ (a b : Z) : Z := if b <=? a then a else b.
Definition _ibound_ (lower middle upper : Z) : Z := _imin_ (_imax_ lower middle) upper.

Definition _itimediff (later earlier : Z) : Z := s32 (later - earlier).

(** The value of an [int] expression. *)
Definition c_int (z : Z) : K Z :=
  require SignedOverflow ((-2147483648 <=? z) && (z <=? 2147483647));; mret z.

(** ** Creation and output *)

Definition ikcp_create (conv_ : Z) : IKCPCB := {|
  conv := conv_; mtu := IKCP_MTU_DEF; mss := u32 (IKCP_MTU_DEF - IKCP_OVERHEAD); state := 0;
  snd_una := 0; snd_nxt := 0; rcv_nxt := 0; ts_recent := 0; ts_lastack := 0; ssthresh := IKCP_THRESH_INIT;
  rx_rttval := 0; rx_srtt := 0; rx_rto := IKCP_RTO_DEF; rx_minrto := IKCP_RTO_MIN;
  snd_wnd := IKCP_WND_SND; rcv_wnd := IKCP_WND_RCV; rmt_wnd := IKCP_WND_RCV; cwnd := 0; probe := 0;
  current := 0; interval := IKCP_INTERVAL; ts_flush := IKCP_INTERVAL; xmit := 0;
  nrcv_buf := 0; nsnd_buf := 0; nrcv_que := 0; nsnd_que := 0; nodelay := 0; updated := 0;
  ts_probe := 0; probe_wait := 0; dead_link := IKCP_DEADLINK; incr := 0;
  snd_queue := []; rcv_queue := []; snd_buf := []; rcv_buf := [];
  acklist := []; ackcount := 0; ackblock := 0; buffer := u32 ((IKCP_MTU_DEF + IKCP_OVERHEAD) * 3);
  fastresend := 0; nocwnd := 0; stream := 0; output := false; outs := [] |}.

Definition ikcp_setoutput (k : IKCPCB) : IKCPCB := k <| output := true |>.

Definition ikcp_output (d : bytes) : K unit :=
  k ← get;
  c_assert (output k);;
  when (negb (alen d =? 0)) (put (k <| outs := outs k ++ [d] |>)).

(** A segment from [ikcp_segment_new]; what is not assigned here is assigned before it is read. *)
Definition fresh_segment (frg_ len_ : Z) (d : bytes) : IKCPSEG :=
  MkSeg 0 0 frg_ 0 0 0 0 len_ 0 0 0 0 d.

(** ** Receiving *)

(** The loop of [ikcp_peeksize]. *)
Fixpoint peek_length (q : list IKCPSEG) (length : Z) : Z :=
  match q with
  | [] => length
  | seg :: q =>
      let length := s32 (length + len seg) in
      if frg seg =? 0 then length else peek_length q length
  end.

Definition ikcp_peeksize (k : IKCPCB) : Z :=
  match rcv_queue k with
  | [] => -1
  | seg :: _ =>
      if frg seg =? 0 then s32 (len seg)
      else if nrcv_que k <? u32 (frg seg + 1) then -1
      else peek_length (rcv_queue k) 0
  end.

(** Merge fragments: the loop over the queue [q]. [copied] is what the caller's buffer
    of [cap] bytes holds (NULL is [None]); the head of the queue is deleted unless
    [ispeek]. *)
Fixpoint merge_fragments (q : list IKCPSEG) (cap : option Z) (ispeek : bool) (copied : bytes) (length : Z)
    : K (bytes * Z) :=
  match q with
  | [] => mret (copied, length)
  | seg :: q =>
      copied ← match cap with
               | None => mret copied
               | Some cap =>
                   d ← deref OutOfBounds (slice (data seg) 0 (len seg));
                   require OutOfBounds (alen copied + len seg <=? cap);;
                   mret (copied ++ d)
               end;
      let length := s32 (length + len seg) in
      when (negb ispeek) (modify (fun k => k <| rcv_queue := q |> <| nrcv_que := u32 (nrcv_que k - 1) |>));;
      if frg seg =? 0 then mret (copied, length) else merge_fragments q cap ispeek copied length
  end.

(** Move available data from rcv_buf to rcv_queue: the loop over [buf], the rest of rcv_buf. *)
Fixpoint rcv_move (buf : list IKCPSEG) (k : IKCPCB) : IKCPCB :=
  match buf with
  | [] => k
  | seg :: buf =>
      if (sn seg =? rcv_nxt k) && (nrcv_que k <? rcv_wnd k) then
        rcv_move buf (k <| rcv_buf := buf |> <| nrcv_buf := u32 (nrcv_buf k - 1) |>
          <| rcv_queue := rcv_queue k ++ [seg] |> <| nrcv_que := u32 (nrcv_que k + 1) |>
          <| rcv_nxt := u32 (rcv_nxt k + 1) |>)
      else k
  end.

(** The result and what was copied to [cap] bytes of buffer. *)
Definition ikcp_recv (cap : option Z) (length : Z) : K (Z * bytes) :=
  k ← get;
  match rcv_queue k with
  | [] => mret (-1, [])
  | _ =>
      let ispeek := length <? 0 in
      length ← (if length <? 0 then c_int (- length) else mret length);
      let peeksize := ikcp_peeksize k in
      if peeksize <? 0 then mret (-2, [])
      else if length <? peeksize then mret (-3, [])
      else
        let recover := rcv_wnd k <=? nrcv_que k in
        '(copied, length) ← merge_fragments (rcv_queue k) cap ispeek [] 0;
        c_assert (length =? peeksize);;
        modify (fun k => rcv_move (rcv_buf k) k);;
        modify (fun k => if (nrcv_que k <? rcv_wnd k) && recover
                         then k <| probe := Z.lor (probe k) IKCP_ASK_TELL |> else k);;
        mret (length, copied)
  end.

(** ** Sending *)

(** Streaming mode: the last segment is replaced by one that also holds the first bytes
    of the message; the bytes that are left. *)
Definition stream_append (buf : bytes) (length : Z) : K (bytes * Z) :=
  k ← get;
  match last (snd_queue k) with
  | Some old =>
      if len old <? mss k then
        let capacity := s32 (mss k - len old) in
        let extend := if length <? capacity then length else capacity in
        d ← deref OutOfBounds (slice (data old) 0 (len old));
        e ← deref OutOfBounds (slice buf 0 extend);
        put (k <| snd_queue := removelast (snd_queue k) ++ [fresh_segment 0 (u32 (len old + extend)) (d ++ e)] |>);;
        mret (drop (Z.to_nat extend) buf, length - extend)
      else mret (buf, length)
  | None => mret (buf, length)
  end.

(** One round of the fragmenting loop. *)
Definition send_fragment (count i : Z) (buf : bytes) (length : Z) : K (bytes * Z) :=
  k ← get;
  let size := if s32 (mss k) <? length then s32 (mss k) else length in
  d ← (if 0 <? length then deref OutOfBounds (slice buf 0 size) else mret []);
  let frg := if stream k =? 0 then count - i - 1 else 0 in
  put (k <| snd_queue := snd_queue k ++ [fresh_segment frg size d] |> <| nsnd_que := u32 (nsnd_que k + 1) |>);;
  mret (drop (Z.to_nat size) buf, length - size).

Definition send_fragments (count : Z) (buf : bytes) (length : Z) : K unit :=
  loop (S (Z.to_nat count)) (fun st : Z * bytes * Z => let '(i, buf, length) := st in
    if i <? count then
      '(buf, length) ← send_fragment count i buf length;
      mret (inl (i + 1, buf, length))
    else mret (inr tt)) (0, buf, length).

Definition ikcp_send (buf : bytes) (length : Z) : K Z :=
  k ← get;
  c_assert (0 <? mss k);;
  if length <? 0 then mret (-1)
  else
    '(buf, length) ← (if stream k =? 0 then mret (buf, length) else stream_append buf length);
    if negb (stream k =? 0) && (length <=? 0) then mret 0
    else
      let count := if length <=? s32 (mss k) then 1 else s32 (u32 (length + mss k - 1) / mss k) in
      if 255 <? count then mret (-2)
      else
        let count := if count =? 0 then 1 else count in
        send_fragments count buf length;;
        mret 0.

(** ** Acknowledgements *)

(** The round trip times are [IINT32], the interval is [IUINT32]; [delta] is a [long]. *)
Definition ikcp_update_ack (rtt : Z) : K unit :=
  k ← get;
  '(srtt, rttval) ← (if rx_srtt k =? 0 then mret (rtt, Z.quot rtt 2)
    else
      delta ← c_int (rtt - rx_srtt k);
      let delta := if delta <? 0 then - delta else delta in
      v ← c_int (3 * rx_rttval k);
      a ← c_int (7 * rx_srtt k);
      b ← c_int (a + rtt);
      let srtt := Z.quot b 8 in
      mret (if srtt <? 1 then 1 else srtt, s32 (Z.quot (v + delta) 4)));
  f ← c_int (4 * rttval);
  let rto := s32 (u32 (srtt + _imax_ (interval k) (u32 f))) in
  put (k <| rx_srtt := srtt |> <| rx_rttval := rttval |>
         <| rx_rto := s32 (_ibound_ (u32 (rx_minrto k)) (u32 rto) IKCP_RTO_MAX) |>).

Definition ikcp_shrink_buf (k : IKCPCB) : IKCPCB :=
  match snd_buf k with
  | seg :: _ => k <| snd_una := sn seg |>
  | [] => k <| snd_una := snd_nxt k |>
  end.

(** The guard of [ikcp_parse_ack] and [ikcp_parse_fastack]. *)
Definition not_in_flight (k : IKCPCB) (n : Z) : bool :=
  (_itimediff n (snd_una k) <? 0) || (0 <=? _itimediff n (snd_nxt k)).

(** Delete segment [n] from the buffer; whether there was one. *)
Fixpoint ack_delete (n : Z) (l : list IKCPSEG) : list IKCPSEG * bool :=
  match l with
  | [] => ([], false)
  | seg :: l' =>
      if n =? sn seg then (l', true)
      else if _itimediff n (sn seg) <? 0 then (l, false)
      else let '(r, found) := ack_delete n l' in (seg :: r, found)
  end.

Definition ikcp_parse_ack (n : Z) (k : IKCPCB) : IKCPCB :=
  if not_in_flight k n then k
  else let '(l, found) := ack_delete n (snd_buf k) in
       if found then k <| snd_buf := l |> <| nsnd_buf := u32 (nsnd_buf k - 1) |> else k.

Fixpoint una_delete (l : list IKCPSEG) (una_ : Z) (k : IKCPCB) : IKCPCB :=
  match l with
  | [] => k
  | seg :: l =>
      if 0 <? _itimediff una_ (sn seg)
      then una_delete l una_ (k <| snd_buf := l |> <| nsnd_buf := u32 (nsnd_buf k - 1) |>)
      else k
  end.

Definition ikcp_parse_una (una_ : Z) (k : IKCPCB) : IKCPCB := una_delete (snd_buf k) una_ k.

Fixpoint count_fastack (n : Z) (l : list IKCPSEG) : list IKCPSEG :=
  match l with
  | [] => []
  | seg :: l' =>
      if _itimediff n (sn seg) <? 0 then l
      else (if n =? sn seg then seg else seg <| fastack := u32 (fastack seg + 1) |>) :: count_fastack n l'
  end.

Definition ikcp_parse_fastack (n : Z) (k : IKCPCB) : IKCPCB :=
  if not_in_flight k n then k else k <| snd_buf := count_fastack n (snd_buf k) |>.

(** [for (newblock = 8; newblock < newsize; newblock <<= 1)]; [newsize] is at most 2^32. *)
Definition ack_newblock (newsize : Z) : K Z :=
  loop 31 (fun newblock => if newblock <? newsize then mret (inl (2 * newblock)) else mret (inr newblock)) 8.

Definition ikcp_ack_push (n t : Z) : K unit :=
  k ← get;
  let newsize := u32 (ackcount k + 1) in
  when (ackblock k <? newsize)
    (newblock ← ack_newblock newsize;
     copied ← deref OutOfBounds (slice (acklist k) 0 (ackcount k * 2));
     require OutOfBounds (ackcount k * 2 <=? newblock * 2);;
     put (k <| acklist := copied ++ replicate (Z.to_nat ((newblock - ackcount k) * 2)) 0 |>
            <| ackblock := u32 newblock |>));;
  k ← get;
  let p := u32 (ackcount k * 2) in
  require OutOfBounds (p + 1 <? alen (acklist k));;
  put (k <| acklist := aset (aset (acklist k) p n) (p + 1) t |> <| ackcount := u32 (ackcount k + 1) |>).

Definition ikcp_ack_get (p : Z) : K (Z * Z) :=
  k ← get;
  n ← deref OutOfBounds (aget (acklist k) (p * 2 + 0));
  t ← deref OutOfBounds (aget (acklist k) (p * 2 + 1));
  mret (n, t).

(** ** Data *)

(** The place of a new segment, searched from the end of the buffer: [l] holds the buffer
    from its end on. [None] when the number is in the buffer already. *)
Fixpoint insert_from_end (newseg : IKCPSEG) (l : list IKCPSEG) : option (list IKCPSEG) :=
  match l with
  | [] => Some [newseg]
  | seg :: l' =>
      if sn seg =? sn newseg then None
      else if 0 <? _itimediff (sn newseg) (sn seg) then Some (newseg :: l)
      else (fun r => seg :: r) <$> insert_from_end newseg l'
  end.

Definition ikcp_parse_data (newseg : IKCPSEG) (k : IKCPCB) : IKCPCB :=
  if (0 <=? _itimediff (sn newseg) (u32 (rcv_nxt k + rcv_wnd k))) || (_itimediff (sn newseg) (rcv_nxt k) <? 0)
  then k
  else
    let k := match insert_from_end newseg (reverse (rcv_buf k)) with
             | Some l => k <| rcv_buf := reverse l |> <| nrcv_buf := u32 (nrcv_buf k + 1) |>
             | None => k
             end in
    rcv_move (rcv_buf k) k.

(** ** Datagrams *)

(** A push of [n] with data at [p]. *)
Definition input_push (conv_ cmd_ frg_ wnd_ t n una_ length : Z) (p : bytes) : K unit :=
  k ← get;
  when (_itimediff n (u32 (rcv_nxt k + rcv_wnd k)) <? 0)
    (ikcp_ack_push n t;;
     k ← get;
     when (0 <=? _itimediff n (rcv_nxt k))
       (d ← (if 0 <? length then deref OutOfBounds (slice p 0 length) else mret []);
        modify (ikcp_parse_data (MkSeg conv_ cmd_ frg_ wnd_ t n una_ length 0 0 0 0 d)))).

(** What a segment asks for; the new [flag] and [maxack]. *)
Definition input_command (conv_ cmd_ frg_ wnd_ t n una_ length : Z) (p : bytes) (flag maxack : Z) : K (Z * Z) :=
  if cmd_ =? IKCP_CMD_ACK then
    k ← get;
    when (0 <=? _itimediff (current k) t) (ikcp_update_ack (_itimediff (current k) t));;
    modify (ikcp_parse_ack n);;
    modify ikcp_shrink_buf;;
    mret (1, if flag =? 0 then n else if 0 <? _itimediff n maxack then n else maxack)
  else if cmd_ =? IKCP_CMD_PUSH then
    input_push conv_ cmd_ frg_ wnd_ t n una_ length p;;
    mret (flag, maxack)
  else
    when (cmd_ =? IKCP_CMD_WASK) (modify (fun k => k <| probe := Z.lor (probe k) IKCP_ASK_TELL |>));;
    mret (flag, maxack).

(** One round of the loop over the segments at [p]: the function returns the code of
    [inr], or the loop goes on with the new [p], [size], [flag] and [maxack]. *)
Definition input_round (p : bytes) (size flag maxack : Z) : K ((bytes * Z * Z * Z) + Z) :=
  '(p, conv_) ← ikcp_decode32u p;
  k ← get;
  if negb (conv_ =? conv k) then mret (inr (-1)) else
  '(p, cmd_) ← ikcp_decode8u p;
  '(p, frg_) ← ikcp_decode8u p;
  '(p, wnd_) ← ikcp_decode16u p;
  '(p, t) ← ikcp_decode32u p;
  '(p, n) ← ikcp_decode32u p;
  '(p, una_) ← ikcp_decode32u p;
  '(p, length) ← ikcp_decode32u p;
  let size := size - IKCP_OVERHEAD in
  if size <? length then mret (inr (-2)) else
  if negb (cmd_ =? IKCP_CMD_PUSH) && negb (cmd_ =? IKCP_CMD_ACK) && negb (cmd_ =? IKCP_CMD_WASK)
     && negb (cmd_ =? IKCP_CMD_WINS) then mret (inr (-3)) else
  modify (fun k => k <| rmt_wnd := wnd_ |>);;
  modify (ikcp_parse_una una_);;
  modify ikcp_shrink_buf;;
  '(flag, maxack) ← input_command conv_ cmd_ frg_ wnd_ t n una_ length p flag maxack;
  mret (inl (drop (Z.to_nat length) p, size - length, flag, maxack)).

(** The loop; [None] when it ends at the last segment, with [flag] and [maxack]. *)
Definition input_loop (p : bytes) (size : Z) : K (option Z * Z * Z) :=
  loop (S (length p)) (fun st : bytes * Z * Z * Z => let '(p, size, flag, maxack) := st in
    if size <? IKCP_OVERHEAD then mret (inr (None, flag, maxack))
    else
      r ← input_round p size flag maxack;
      mret (match r with inl st => inl st | inr code => inr (Some code, flag, maxack) end)) (p, size, 0, 0).

(** The congestion window opens after an acknowledgement. *)
Definition open_cwnd (k : IKCPCB) : IKCPCB :=
  if cwnd k <? rmt_wnd k then
    let k := if cwnd k <? ssthresh k then k <| cwnd := u32 (cwnd k + 1) |> <| incr := u32 (incr k + mss k) |>
             else
               let inc := if incr k <? mss k then mss k else incr k in
               let inc := u32 (inc + u32 (u32 (mss k * mss k) / inc + mss k / 16)) in
               let k := k <| incr := inc |> in
               if u32 (u32 (cwnd k + 1) * mss k) <=? inc then k <| cwnd := u32 (cwnd k + 1) |> else k in
    if rmt_wnd k <? cwnd k then k <| cwnd := rmt_wnd k |> <| incr := u32 (rmt_wnd k * mss k) |> else k
  else k.

(** [data] is NULL when it is [None]. *)
Definition ikcp_input (d : option bytes) (size : Z) : K Z :=
  una_ ← gets snd_una;
  match d with
  | None => mret (-1)
  | Some p =>
      if s32 size <? IKCP_OVERHEAD then mret (-1)
      else
        '(code, flag, maxack) ← input_loop p size;
        match code with
        | Some code => mret code
        | None =>
            when (negb (flag =? 0)) (modify (ikcp_parse_fastack maxack));;
            modify (fun k => if 0 <? _itimediff (snd_una k) una_ then open_cwnd k else k);;
            mret 0
        end
  end.

Definition ikcp_encode_seg (s : IKCPSEG) : bytes :=
  ikcp_encode32u (s_conv s) ++ ikcp_encode8u (u8 (cmd s)) ++ ikcp_encode8u (u8 (frg s)) ++
  ikcp_encode16u (u16 (wnd s)) ++ ikcp_encode32u (ts s) ++ ikcp_encode32u (sn s) ++
  ikcp_encode32u (una s) ++ ikcp_encode32u (len s).

Definition ikcp_wnd_unused (k : IKCPCB) : Z :=
  if nrcv_que k <? rcv_wnd k then s32 (rcv_wnd k - nrcv_que k) else 0.

(** ** Flush

    [out] holds the bytes from [buffer] to [ptr]. *)

(** Output what is in the buffer when [need] more bytes would exceed the mtu. *)
Definition make_room (need : Z) (out : bytes) : K bytes :=
  k ← get;
  total ← c_int (alen out + need);
  if s32 (mtu k) <? total then ikcp_output out;; mret [] else mret out.

(** [ptr] moves on over [d]. *)
Definition append_out (d out : bytes) : K bytes :=
  k ← get;
  require OutOfBounds (alen out + alen d <=? buffer k);;
  mret (out ++ d).

(** A segment without data. *)
Definition flush_control (s : IKCPSEG) (out : bytes) : K bytes :=
  out ← make_room IKCP_OVERHEAD out;
  append_out (ikcp_encode_seg s) out.

(** The acknowledgements from [i] to [count]. *)
Definition flush_acks (s : IKCPSEG) (count : Z) : K (IKCPSEG * bytes) :=
  loop (S (Z.to_nat count)) (fun st : Z * IKCPSEG * bytes => let '(i, s, out) := st in
    if i <? count then
      out ← make_room IKCP_OVERHEAD out;
      '(n, t) ← ikcp_ack_get i;
      let s := s <| sn := n |> <| ts := t |> in
      out ← append_out (ikcp_encode_seg s) out;
      mret (inl (i + 1, s, out))
    else mret (inr (s, out))) (0, s, []).

(** Probe the window size (if the remote window size equals zero). *)
Definition probe_window (k : IKCPCB) : IKCPCB :=
  if rmt_wnd k =? 0 then
    if probe_wait k =? 0 then
      k <| probe_wait := IKCP_PROBE_INIT |> <| ts_probe := u32 (current k + IKCP_PROBE_INIT) |>
    else if 0 <=? _itimediff (current k) (ts_probe k) then
      let w := if probe_wait k <? IKCP_PROBE_INIT then IKCP_PROBE_INIT else probe_wait k in
      let w := u32 (w + w / 2) in
      let w := if IKCP_PROBE_LIMIT <? w then IKCP_PROBE_LIMIT else w in
      k <| probe_wait := w |> <| ts_probe := u32 (current k + w) |> <| probe := Z.lor (probe k) IKCP_ASK_SEND |>
    else k
  else k <| ts_probe := 0 |> <| probe_wait := 0 |>.

(** A window command, when its bit of [probe] is set. *)
Definition flush_command (bit cmd_ : Z) (s : IKCPSEG) (out : bytes) : K (IKCPSEG * bytes) :=
  k ← get;
  if Z.land (probe k) bit =? 0 then mret (s, out)
  else
    let s := s <| cmd := cmd_ |> in
    out ← flush_control s out;
    mret (s, out).

(** Move data from snd_queue to snd_buf: the loop over [q], the rest of snd_queue. *)
Fixpoint snd_move (q : list IKCPSEG) (current_ cwnd_ wnd_ : Z) (k : IKCPCB) : IKCPCB :=
  if _itimediff (snd_nxt k) (u32 (snd_una k + cwnd_)) <? 0 then
    match q with
    | [] => k
    | newseg :: q =>
        let newseg := newseg <| s_conv := conv k |> <| cmd := IKCP_CMD_PUSH |> <| wnd := wnd_ |> <| ts := current_ |>
          <| sn := snd_nxt k |> <| una := rcv_nxt k |> <| resendts := current_ |> <| rto := u32 (rx_rto k) |>
          <| fastack := 0 |> <| s_xmit := 0 |> in
        snd_move q current_ cwnd_ wnd_
          (k <| snd_queue := q |> <| snd_buf := snd_buf k ++ [newseg] |> <| nsnd_que := u32 (nsnd_que k - 1) |>
             <| nsnd_buf := u32 (nsnd_buf k + 1) |> <| snd_nxt := u32 (snd_nxt k + 1) |>)
    end
  else k.

(** Whether a segment is sent now, and its fields then; [lost] and [change] count why. *)
Definition need_send (current_ resent rtomin : Z) (k : IKCPCB) (s : IKCPSEG) (change lost : Z)
    : bool * IKCPSEG * IKCPCB * Z * Z :=
  if s_xmit s =? 0 then
    let s := s <| s_xmit := u32 (s_xmit s + 1) |> <| rto := u32 (rx_rto k) |> in
    (true, s <| resendts := u32 (current_ + rto s + rtomin) |>, k, change, lost)
  else if 0 <=? _itimediff current_ (resendts s) then
    let s := s <| s_xmit := u32 (s_xmit s + 1) |>
               <| rto := u32 (rto s + (if nodelay k =? 0 then rx_rto k else Z.quot (rx_rto k) 2)) |> in
    (true, s <| resendts := u32 (current_ + rto s) |>, k <| xmit := u32 (xmit k + 1) |>, change, 1)
  else if resent <=? fastack s then
    let s := s <| s_xmit := u32 (s_xmit s + 1) |> <| fastack := 0 |> in
    (true, s <| resendts := u32 (current_ + rto s) |>, k, change + 1, lost)
  else (false, s, k, change, lost).

(** One round of the loop over snd_buf. *)
Definition flush_segment (current_ resent rtomin wnd_ : Z) (s : IKCPSEG) (out : bytes) (change lost : Z)
    : K (IKCPSEG * bytes * Z * Z) :=
  k ← get;
  let '(needsend, s, k, change, lost) := need_send current_ resent rtomin k s change lost in
  put k;;
  if needsend then
    let s := s <| ts := current_ |> <| wnd := wnd_ |> <| una := rcv_nxt k |> in
    out ← make_room (s32 (IKCP_OVERHEAD + len s)) out;
    out ← append_out (ikcp_encode_seg s) out;
    out ← (if 0 <? len s then d ← deref OutOfBounds (slice (data s) 0 (len s)); append_out d out else mret out);
    modify (fun k => if dead_link k <=? s_xmit s then k <| state := u32 (-1) |> else k);;
    mret (s, out, change, lost)
  else mret (s, out, change, lost).

Fixpoint flush_data (current_ resent rtomin wnd_ : Z) (l : list IKCPSEG) (out : bytes) (change lost : Z)
    : K (list IKCPSEG * bytes * Z * Z) :=
  match l with
  | [] => mret ([], out, change, lost)
  | s :: l =>
      '(s, out, change, lost) ← flush_segment current_ resent rtomin wnd_ s out change lost;
      '(l, out, change, lost) ← flush_data current_ resent rtomin wnd_ l out change lost;
      mret (s :: l, out, change, lost)
  end.

(** Update ssthresh and the congestion window. *)
Definition update_cwnd (change lost resent cwnd_ : Z) (k : IKCPCB) : IKCPCB :=
  let thresh t := if t <? IKCP_THRESH_MIN then IKCP_THRESH_MIN else t in
  let k := if change =? 0 then k
           else
             let t := thresh (u32 (snd_nxt k - snd_una k) / 2) in
             let c := u32 (t + resent) in
             k <| ssthresh := t |> <| cwnd := c |> <| incr := u32 (c * mss k) |> in
  let k := if lost =? 0 then k else k <| ssthresh := thresh (cwnd_ / 2) |> <| cwnd := 1 |> <| incr := mss k |> in
  if cwnd k <? 1 then k <| cwnd := 1 |> <| incr := mss k |> else k.

(** The first half: acknowledgements and window probes. *)
Definition flush_controls (wnd_ : Z) : K bytes :=
  k ← get;
  let s := MkSeg (conv k) IKCP_CMD_ACK 0 wnd_ 0 0 (rcv_nxt k) 0 0 0 0 0 [] in
  '(s, out) ← flush_acks s (s32 (ackcount k));
  modify (fun k => k <| ackcount := 0 |>);;
  modify probe_window;;
  '(s, out) ← flush_command IKCP_ASK_SEND IKCP_CMD_WASK s out;
  '(s, out) ← flush_command IKCP_ASK_TELL IKCP_CMD_WINS s out;
  modify (fun k => k <| probe := 0 |>);;
  mret out.

(** The second half: data. *)
Definition flush_pushes (current_ wnd_ : Z) (out : bytes) : K unit :=
  k ← get;
  let cwnd_ := _imin_ (snd_wnd k) (rmt_wnd k) in
  let cwnd_ := if nocwnd k =? 0 then _imin_ (cwnd k) cwnd_ else cwnd_ in
  modify (fun k => snd_move (snd_queue k) current_ cwnd_ wnd_ k);;
  k ← get;
  let resent := if 0 <? fastresend k then u32 (fastresend k) else 4294967295 in
  let rtomin := if nodelay k =? 0 then u32 (Z.shiftr (rx_rto k) 3) else 0 in
  '(l, out, change, lost) ← flush_data current_ resent rtomin wnd_ (snd_buf k) out 0 0;
  modify (fun k => k <| snd_buf := l |>);;
  when (0 <? alen out) (ikcp_output out);;
  modify (update_cwnd change lost resent cwnd_).

Definition ikcp_flush : K unit :=
  k ← get;
  if updated k =? 0 then mret tt
  else
    let wnd_ := u32 (ikcp_wnd_unused k) in
    out ← flush_controls wnd_;
    flush_pushes (current k) wnd_ out.

(** ** The schedule *)

Definition ikcp_update (current_ : Z) : K unit :=
  modify (fun k => k <| current := current_ |>);;
  modify (fun k => if updated k =? 0 then k <| updated := 1 |> <| ts_flush := current k |> else k);;
  k ← get;
  let slap := _itimediff (current k) (ts_flush k) in
  let reset := (10000 <=? slap) || (slap <? -10000) in
  when reset (modify (fun k => k <| ts_flush := current k |>));;
  let slap := if reset then 0 else slap in
  when (0 <=? slap)
    (modify (fun k => k <| ts_flush := u32 (ts_flush k + interval k) |>);;
     modify (fun k => if 0 <=? _itimediff (current k) (ts_flush k)
                      then k <| ts_flush := u32 (current k + interval k) |> else k);;
     ikcp_flush).

(** The loop of [ikcp_check] over snd_buf: the smallest time to a resend, or [None] when
    one is due. *)
Fixpoint check_packets (l : list IKCPSEG) (current_ tm_packet : Z) : option Z :=
  match l with
  | [] => Some tm_packet
  | seg :: l =>
      let diff := _itimediff (resendts seg) current_ in
      if diff <=? 0 then None
      else check_packets l current_ (if diff <? tm_packet then diff else tm_packet)
  end.

Definition ikcp_check (k : IKCPCB) (current_ : Z) : Z :=
  if updated k =? 0 then current_
  else
    let ts_flush_ := if (10000 <=? _itimediff current_ (ts_flush k)) || (_itimediff current_ (ts_flush k) <? -10000)
                     then current_ else ts_flush k in
    if 0 <=? _itimediff current_ ts_flush_ then current_
    else
      let tm_flush := _itimediff ts_flush_ current_ in
      match check_packets (snd_buf k) current_ 2147483647 with
      | None => current_
      | Some tm_packet =>
          let minimal := u32 (if tm_packet <? tm_flush then tm_packet else tm_flush) in
          u32 (current_ + (if interval k <=? minimal then interval k else minimal))
      end.

(** ** Settings *)

Definition ikcp_setmtu (mtu_ : Z) : K Z :=
  if (mtu_ <? 50) || (mtu_ <? IKCP_OVERHEAD) then mret (-1)
  else
    modify (fun k => k <| mtu := u32 mtu_ |> <| mss := u32 (mtu_ - IKCP_OVERHEAD) |>
                       <| buffer := u32 ((mtu_ + IKCP_OVERHEAD) * 3) |>);;
    mret 0.

Definition clamp_interval (i : Z) : Z := if 5000 <? i then 5000 else if i <? 10 then 10 else i.

Definition ikcp_interval (i : Z) : K Z :=
  modify (fun k => k <| interval := clamp_interval i |>);; mret 0.

Definition ikcp_nodelay (nodelay_ interval_ resend nc : Z) : K Z :=
  modify (fun k => if 0 <=? nodelay_
    then k <| nodelay := nodelay_ |> <| rx_minrto := if nodelay_ =? 0 then IKCP_RTO_MIN else IKCP_RTO_NDL |> else k);;
  modify (fun k => if 0 <=? interval_ then k <| interval := clamp_interval interval_ |> else k);;
  modify (fun k => if 0 <=? resend then k <| fastresend := resend |> else k);;
  modify (fun k => if 0 <=? nc then k <| nocwnd := nc |> else k);;
  mret 0.

Definition ikcp_wndsize (sndwnd rcvwnd : Z) : K Z :=
  modify (fun k => if 0 <? sndwnd then k <| snd_wnd := sndwnd |> else k);;
  modify (fun k => if 0 <? rcvwnd then k <| rcv_wnd := rcvwnd |> else k);;
  mret 0.

Definition ikcp_waitsnd (k : IKCPCB) : Z := s32 (nsnd_buf k + nsnd_que k).

Definition ikcp_getconv (p : bytes) : K Z := '(_, c) ← ikcp_decode32u p; mret c.

(** ** The Lua binding

    The arguments are the numbers and strings Lua passes; [udp_output] calls Lua with the
    datagram, which [outs] records. *)

Definition RECV_BUFFER : Z := 1024.

Definition likcp_new (conv_ : Z) : IKCPCB := ikcp_setoutput (ikcp_create (u32 conv_)).

(** The first number is read from the object itself, which is no number. *)
Definition likcp_wndsize (arg2 : Z) : K unit := ikcp_wndsize 0 (s32 arg2);; mret tt.

Definition likcp_nodelay (nodelay_ interval_ resend nc : Z) : K unit :=
  ikcp_nodelay (s32 nodelay_) (s32 interval_) (s32 resend) (s32 nc);; mret tt.

Definition likcp_update (now : Z) : K unit := ikcp_update (u32 (s32 now)).

(** [lua_tolstring] gives NULL and size 0 for what is not a string. *)
Definition likcp_input (d : option bytes) : K unit :=
  ikcp_input d (match d with Some d => alen d | None => 0 end);; mret tt.

Definition likcp_send (d : bytes) : K unit := ikcp_send d (s32 (alen d));; mret tt.

(** The string returned, if any. [malloc] refuses sizes above [PTRDIFF_MAX]. *)
Definition likcp_recv (size : Z) : K (option bytes) :=
  let size := u64 size in
  let cap := if RECV_BUFFER <? size then if size <? 2 ^ 63 then Some size else None else Some RECV_BUFFER in
  '(sz, d) ← ikcp_recv cap (s32 size);
  if sz <? 0 then mret None
  else match cap with
       | Some _ => d ← deref OutOfBounds (slice d 0 sz); mret (Some d)
       | None => if sz =? 0 then mret (Some []) else crash NullDeref
       end.

(** ** Inputs on which the code fails *)

(** An acknowledgement with a time stamp from the far past gives a round trip time that
    overflows [7 * rx_srtt] when the next one arrives. *)
Definition forged_ack : bytes :=
  ikcp_encode_seg (MkSeg 5 IKCP_CMD_ACK 0 32 2147483649 0 0 0 0 0 0 0 []).

Example forged_ack_overflows :
  (ikcp_input (Some forged_ack) 24;; ikcp_input (Some forged_ack) 24) (likcp_new 5) = Fault SignedOverflow.
Proof. by vm_compute. Qed.

(** A segment that was queued before the mtu was lowered does not fit in the new buffer. *)
Example lowered_mtu_overflows :
  (ikcp_nodelay 0 10 0 1;; ikcp_send (replicate 1000 (z2b 0)) 1000;; ikcp_setmtu 60;; ikcp_update 0) (likcp_new 5) =
  Fault OutOfBounds.
Proof. by vm_compute. Qed.

(** [ikcp_send] accepts a message of more fragments than the receive window of the peer
    holds; the peer then never has all of it in its queue. Here the window is full of the
    fragments 39 to 8, and receiving refuses. *)
Example oversize_message_stuck :
  let fragment i := MkSeg 5 IKCP_CMD_PUSH (39 - i) 0 0 i 0 1 0 0 0 0 [z2b 0] in
  let k := foldr ikcp_parse_data (likcp_new 5) (reverse (fragment <$> seqZ 0 40)) in
  (nrcv_que k, rcv_nxt k, ikcp_peeksize k, ikcp_recv (Some 100) 100 k) = (32, 32, -1, Done (-2, []) k).
Proof. by vm_compute. Qed.

(** [recv] with a negative size: [malloc] fails, the copy is skipped, and the string is made
    from a NULL pointer. *)
Example negative_recv_crashes :
  (modify (ikcp_parse_data (MkSeg 5 IKCP_CMD_PUSH 0 0 0 0 0 1 0 0 0 0 [z2b 7]));; likcp_recv (-100)) (likcp_new 5) =
  Fault NullDeref.
Proof. by vm_compute. Qed.
