(* ===== verification/IkcpEndpoint.v ===== *)
(** * What one endpoint of KCP guarantees (ikcp.c)

    The invariant of an endpoint, relative to two histories: the segments it has numbered
    so far and those its peer has numbered. Every operation of Ikcp.v keeps it, does not
    fault, and changes the histories as stated. The predicates only mention the fields
    they are about, so that an assignment to another field keeps them by conversion. *)

From Stdlib Require Import Sorted.
From S2P Require Import Prelude Outcome Codec Ikcp.

#[local] Open Scope c_scope.

(** ** The invariant *)

(** What a segment carries. *)
Definition payload (s : IKCPSEG) : Z * bytes := (frg s, data s).

Definition seg_fit (s : IKCPSEG) : Prop := len s = alen (data s) /\ 0 <= frg s < 256.

(** The fields that a segment keeps while it waits for its acknowledgement. *)
Definition same_core (s s' : IKCPSEG) : Prop :=
  payload s = payload s' /\ sn s = sn s' /\ len s = len s' /\ s_conv s = s_conv s' /\ cmd s = cmd s'.

(** In order of the numbers. *)
Abbreviation ascending := (StronglySorted (fun a b => sn a < sn b)).

(** [H] are the segments with numbers, in order, [Q] those that wait for one. *)
Definition sender_ok (k : IKCPCB) (H Q : list (Z * bytes)) : Prop :=
  snd_nxt k = alen H /\ alen H + alen Q < 2 ^ 31 /\
  payload <$> snd_queue k = Q /\ Forall (fun s => seg_fit s /\ len s <= mss k) (snd_queue k) /\
  Forall (fun s => seg_fit s /\ len s <= mss k /\ aget H (sn s) = Some (payload s) /\
                   s_conv s = conv k /\ cmd s = IKCP_CMD_PUSH) (snd_buf k) /\
  ascending (snd_buf k) /\ nsnd_buf k = alen (snd_buf k) /\ nsnd_que k = alen (snd_queue k).

(** [P] are the segments the peer has numbered, [C] those that Lua has taken. *)
Definition receiver_ok (k : IKCPCB) (P C : list (Z * bytes)) : Prop :=
  alen P < 2 ^ 31 /\ 0 <= rcv_nxt k <= alen P /\
  C ++ (payload <$> rcv_queue k) = take (Z.to_nat (rcv_nxt k)) P /\ Forall seg_fit (rcv_queue k) /\
  Forall (fun s => seg_fit s /\ aget P (sn s) = Some (payload s) /\ rcv_nxt k <= sn s) (rcv_buf k) /\
  ascending (rcv_buf k) /\ nrcv_buf k = alen (rcv_buf k) /\ nrcv_que k = alen (rcv_queue k).

(** Segment [n] of the peer has arrived. *)
Definition received (k : IKCPCB) (n : Z) : Prop :=
  0 <= n < rcv_nxt k \/ exists s, s ∈ rcv_buf k /\ sn s = n.

(** Time stamps are below 2^28. *)
Definition is_time (t : Z) : Prop := 0 <= t < 2 ^ 28.

(** At most [B] acknowledgements wait, each for a segment in [R]. *)
Definition acks_for (k : IKCPCB) (B : Z) (R : Z -> Prop) : Prop :=
  0 <= ackcount k <= B /\ B < 2 ^ 31 /\ 2 * ackcount k <= alen (acklist k) /\ ackblock k * 2 = alen (acklist k) /\
  (forall i, 0 <= i < ackcount k -> exists n t, aget (acklist k) (i * 2 + 0) = Some n /\
     aget (acklist k) (i * 2 + 1) = Some t /\ is_time t /\ R n).

(** Only what has arrived is acknowledged. *)
Definition acks_ok (k : IKCPCB) (B : Z) : Prop := acks_for k B (received k).

Definition clock_ok (k : IKCPCB) : Prop :=
  50 <= mtu k <= 4096 /\ mss k = mtu k - 24 /\ buffer k = 3 * (mtu k + 24) /\ 0 <= conv k < 2 ^ 32 /\
  output k = true /\ stream k = 0 /\ is_time (current k) /\
  is_time (rx_srtt k) /\ is_time (rx_rttval k) /\ 0 <= rx_rto k < 2 ^ 31.

Definition endpoint_ok (k : IKCPCB) (H Q P C : list (Z * bytes)) (B : Z) : Prop :=
  sender_ok k H Q /\ receiver_ok k P C /\ acks_ok k B /\ clock_ok k.

(** What an operation may do to the receiving half. *)
Definition advances (k k' : IKCPCB) : Prop :=
  rcv_nxt k <= rcv_nxt k' /\ conv k' = conv k /\ (forall n, received k n -> received k' n).

Lemma advances_refl k : advances k k.
Proof. split_and!; [lia|done|done]. Qed.

Lemma advances_same k k' : rcv_nxt k' = rcv_nxt k -> conv k' = conv k -> rcv_buf k' = rcv_buf k -> advances k k'.
Proof. unfold advances, received. intros -> -> ->. split_and!; [lia|done|done]. Qed.

Lemma advances_trans k1 k2 k3 : advances k1 k2 -> advances k2 k3 -> advances k1 k3.
Proof. intros (? & ? & A1) (? & ? & A2). split_and!; [lia|congruence|auto]. Qed.

Lemma acks_for_mono k k' B R R' :
  acklist k' = acklist k -> ackcount k' = ackcount k -> ackblock k' = ackblock k ->
  (forall n, R n -> R' n) -> acks_for k B R -> acks_for k' B R'.
Proof.
  unfold acks_for. intros -> -> -> Hm (A1 & A2 & A3 & A4 & A5). split; [done|]. split_and!; [done..|].
  intros i Hi. destruct (A5 i Hi) as (n & t & ? & ? & ? & ?). exists n, t. auto.
Qed.

Lemma itimediff_small a b : 0 <= a < 2 ^ 31 -> 0 <= b < 2 ^ 31 -> _itimediff a b = a - b.
Proof. intros. apply swrap_small; [lia|]. unfold in_s. lia. Qed.

Lemma wp_c_int z (Q : Z -> IKCPCB -> Prop) E k : -2147483648 <= z <= 2147483647 -> Q z k -> wp (c_int z) Q E k.
Proof. intros Hz HQ. unfold c_int. wp_step. wp_step; [lia|]. by wp_step. Qed.

(** ** Moving segments to the receive queue *)

Lemma ascending_cons s l : ascending (s :: l) -> ascending l /\ forall x, x ∈ l -> sn s < sn x.
Proof. intros H. apply StronglySorted_inv in H as [H1 H2]. split; [done|]. by apply Forall_forall. Qed.

(** The sending half, the clock and the output are as before. *)
Definition receives_only (k k' : IKCPCB) : Prop :=
  (forall H Q, sender_ok k H Q -> sender_ok k' H Q) /\ (clock_ok k -> clock_ok k') /\
  snd_buf k' = snd_buf k /\ outs k' = outs k.

Lemma receives_only_refl k : receives_only k k.
Proof. by split_and!. Qed.

Lemma receives_only_trans k1 k2 k3 : receives_only k1 k2 -> receives_only k2 k3 -> receives_only k1 k3.
Proof. intros (A1 & A2 & A3 & A4) (B1 & B2 & B3 & B4). split_and!; [auto|auto|congruence..]. Qed.

(** It only depends on the numbers. *)
Lemma ascending_sn l : ascending l <-> StronglySorted Z.lt (sn <$> l).
Proof.
  induction l as [|s l IH]; cbn; [split; constructor|]. split; intros Hs.
  - apply ascending_cons in Hs as [H1 H2]. constructor; [by apply IH|]. apply Forall_fmap, Forall_forall. exact H2.
  - apply StronglySorted_inv in Hs as [H1 H2]. constructor; [by apply IH|]. rewrite Forall_fmap in H2. exact H2.
Qed.

Lemma ascending_sublist l l' : sublist l l' -> ascending l' -> ascending l.
Proof.
  induction 1 as [|x l l' Hl IH|x l l' Hl IH]; intros Hs; [constructor|apply ascending_cons in Hs as [Hs Hlt]..].
  - constructor; [auto|]. apply Forall_forall. intros y Hy. apply Hlt. by eapply elem_of_sublist.
  - auto.
Qed.

(** There are no more segments than numbers. *)
Lemma ascending_length l lo hi :
  ascending l -> (forall s, s ∈ l -> lo <= sn s < hi) -> lo <= hi -> alen l <= hi - lo.
Proof.
  revert lo. induction l as [|s l IH]; intros lo Hs Hr Hlo; [rewrite alen_nil; lia|].
  apply ascending_cons in Hs as [Hs Hlt]. rewrite alen_cons. pose proof (Hr s ltac:(by left)).
  assert (alen l <= hi - (sn s + 1)); [|lia]. apply IH; [done| |lia].
  intros x Hx. specialize (Hlt x Hx). pose proof (Hr x ltac:(by right)). lia.
Qed.

Lemma receiver_buf_length k P C : receiver_ok k P C -> alen (rcv_buf k) <= alen P - rcv_nxt k.
Proof.
  intros (HP & Hn & _ & _ & Hb & Hs & _). apply ascending_length; [done| |lia]. intros x Hx.
  destruct (proj1 (Forall_forall _ _) Hb x Hx) as (_ & Hg & ?). apply aget_Some_range in Hg as [_ ?]. lia.
Qed.

(** The move only touches the receiving half. *)
Lemma rcv_move_ok buf k P C B R :
  buf = rcv_buf k -> receiver_ok k P C -> acks_for k B R ->
  let k' := rcv_move buf k in receiver_ok k' P C /\ acks_for k' B R /\ advances k k' /\ receives_only k k'.
Proof.
  revert k. induction buf as [|s buf IH]; intros k E Rok A; cbn [rcv_move].
  { split_and!; [done|done|apply advances_refl|apply receives_only_refl]. }
  destruct (_ && _) eqn:T; [|split_and!; [done|done|apply advances_refl|apply receives_only_refl]].
  apply andb_true_iff in T as [T1 T2]. apply Z.eqb_eq in T1.
  set (k1 := k <| rcv_buf := buf |> <| nrcv_buf := u32 (nrcv_buf k - 1) |>
               <| rcv_queue := rcv_queue k ++ [s] |> <| nrcv_que := u32 (nrcv_que k + 1) |>
               <| rcv_nxt := u32 (rcv_nxt k + 1) |>).
  pose proof (receiver_buf_length _ _ _ Rok) as Hlen.
  destruct Rok as (HP & Hn & HC & Hq & Hb & Hs & Nb & Nq). rewrite <- E in Hb, Hs, Nb, Hlen.
  apply Forall_cons in Hb as [(F & Hs1 & _) Hb]. apply ascending_cons in Hs as [Hs Hlt].
  pose proof (aget_Some_range _ _ _ Hs1) as [_ Hr]. rewrite T1 in Hr, Hs1.
  assert (u32 (rcv_nxt k + 1) = rcv_nxt k + 1) as En by (apply uwrap_small; lia).
  assert (alen C + alen (rcv_queue k) = rcv_nxt k) as Elen.
  { apply (f_equal alen) in HC. rewrite alen_app, alen_take in HC by lia. rewrite <- HC. f_equal.
    by rewrite !alen_length, length_fmap. }
  pose proof (alen_nonneg C). pose proof (alen_nonneg buf). pose proof (alen_nonneg (rcv_queue k)). rewrite alen_cons in Nb, Hlen.
  assert (forall n, received k n -> received k1 n) as Hmono.
  { intros n [Hlow|(x & Hx & <-)].
    - left. cbn. rewrite En. lia.
    - rewrite <- E in Hx. apply elem_of_cons in Hx as [->|Hx]; [left; cbn; rewrite En; lia|right; eauto]. }
  destruct (IH k1) as (R' & A' & V & O).
  - done.
  - repeat split; cbn; rewrite ?En; try lia.
    + rewrite fmap_app, app_assoc, HC. replace (Z.to_nat (rcv_nxt k + 1)) with (S (Z.to_nat (rcv_nxt k))) by lia.
      rewrite aget_lookup in Hs1 by lia. by rewrite (take_S_r _ _ (payload s)).
    + apply Forall_app. split; [done|]. by apply Forall_singleton.
    + apply Forall_forall. intros x Hx. destruct (proj1 (Forall_forall _ _) Hb x Hx) as (? & ? & ?).
      specialize (Hlt x Hx). split_and!; [done|done|lia].
    + done.
    + rewrite Nb. rewrite uwrap_small; lia.
    + rewrite alen_snoc, Nq. apply uwrap_small. lia.
  - by apply (acks_for_mono k _ _ R).
  - split_and!; [done|done| |by eapply receives_only_trans; [|exact O]].
    eapply advances_trans; [|exact V]. split_and!; [cbn; rewrite En; lia|done|done].
Qed.

(** ** A segment that arrives *)

Lemma ascending_snoc l s : ascending (l ++ [s]) <-> ascending l /\ forall x, x ∈ l -> sn x < sn s.
Proof.
  induction l as [|y l IH]; cbn [app].
  - split; [intros _; split; [constructor|set_solver]|intros _; repeat constructor].
  - split.
    + intros H. apply ascending_cons in H as [H1 H2]. apply IH in H1 as [H1 H3]. split.
      * constructor; [done|]. apply Forall_forall. intros x Hx. apply H2. set_solver.
      * intros x [->|Hx]%elem_of_cons; [apply H2; set_solver|auto].
    + intros [H1 H2]. apply ascending_cons in H1 as [H1 H3]. constructor; [apply IH; split; [done|set_solver]|].
      apply Forall_forall. intros x Hx. set_unfold. destruct Hx as [Hx|[->|[]]]; [by apply H3|apply H2; by left].
Qed.

Lemma insert_from_end_ok s l :
  ascending (reverse l) -> (forall x, x ∈ l -> 0 <= sn x < 2 ^ 31) -> 0 <= sn s < 2 ^ 31 ->
  match insert_from_end s l with
  | None => exists x, x ∈ l /\ sn x = sn s
  | Some r => ascending (reverse r) /\ r ≡ₚ s :: l
  end.
Proof.
  intros Hs Hr Hn. induction l as [|x l IH]; cbn [insert_from_end].
  { split; [repeat constructor|done]. }
  rewrite reverse_cons in Hs. pose proof Hs as Hxl. apply ascending_snoc in Hxl as [Hl Hlt].
  pose proof (Hr x ltac:(by left)). destruct (Z.eqb_spec (sn x) (sn s)); [exists x; split; [by left|done]|].
  rewrite itimediff_small by lia. destruct (Z.ltb_spec 0 (sn s - sn x)).
  - split; [|done]. rewrite ?reverse_cons. apply ascending_snoc. split; [done|]. intros y Hy. set_unfold.
    destruct Hy as [Hy|[->|[]]]; [specialize (Hlt y ltac:(set_solver))|]; lia.
  - specialize (IH Hl ltac:(set_solver)). destruct (insert_from_end s l) as [r|]; cbn [fmap option_fmap option_map].
    + destruct IH as [IH1 IH2]. split.
      * rewrite ?reverse_cons. apply ascending_snoc. split; [done|]. intros y Hy. rewrite elem_of_reverse, IH2 in Hy.
        apply elem_of_cons in Hy as [->|Hy]; [lia|]. apply Hlt. by apply elem_of_reverse.
      * rewrite IH2. constructor.
    + destruct IH as (y & ? & ?). exists y. split; [by right|done].
Qed.

Lemma ikcp_parse_data_ok s k P C B R :
  receiver_ok k P C -> acks_for k B R -> seg_fit s -> aget P (sn s) = Some (payload s) ->
  let k' := ikcp_parse_data s k in receiver_ok k' P C /\ acks_for k' B R /\ advances k k' /\ receives_only k k' /\
    (_itimediff (sn s) (u32 (rcv_nxt k + rcv_wnd k)) < 0 -> rcv_nxt k <= sn s -> received k' (sn s)).
Proof.
  intros Rok A F Hg. cbn zeta. unfold ikcp_parse_data. pose proof Rok as (HP & Hn & HC & Hq & Hb & Hs & Nb & Nq).
  pose proof (aget_Some_range _ _ _ Hg) as [Hg0 Hg1]. rewrite (itimediff_small _ (rcv_nxt k)) by lia.
  destruct (_ || _) eqn:T.
  { split_and!; [done|done|apply advances_refl|apply receives_only_refl|]. intros Hw Hx.
    apply orb_true_iff in T as [T|T]; [apply Z.leb_le in T|apply Z.ltb_lt in T]; lia. }
  apply orb_false_iff in T as [_ T%Z.ltb_ge].
  assert (forall x, x ∈ rcv_buf k -> 0 <= sn x < 2 ^ 31) as Hbr.
  { intros x Hx. destruct (proj1 (Forall_forall _ _) Hb x Hx) as (_ & Hgx & ?).
    apply aget_Some_range in Hgx as [_ ?]. lia. }
  pose proof (insert_from_end_ok s (reverse (rcv_buf k))) as Hi. rewrite reverse_involutive in Hi.
  specialize (Hi Hs ltac:(intros x; rewrite elem_of_reverse; apply Hbr) ltac:(lia)).
  set (k1 := match insert_from_end _ _ with Some l => _ | None => k end).
  assert (receiver_ok k1 P C /\ acks_for k1 B R /\ advances k k1 /\ receives_only k k1 /\
          exists x, x ∈ rcv_buf k1 /\ sn x = sn s) as (R1 & A1 & V1 & O1 & (x & Hx1 & Hx2)).
  { subst k1. destruct (insert_from_end s (reverse (rcv_buf k))) as [r|].
    - destruct Hi as [Hi1 Hi2]. rewrite (reverse_Permutation (rcv_buf k)) in Hi2.
      assert (reverse r ≡ₚ s :: rcv_buf k) as Hp by (by rewrite reverse_Permutation).
      split_and!.
      + repeat split; cbn; try done; [lia|lia|rewrite Hp; constructor; [split_and!; [done|done|lia]|done]|].
        pose proof (receiver_buf_length _ _ _ Rok). pose proof (alen_nonneg (rcv_buf k)).
        rewrite (alen_length (reverse r)), Hp, <- alen_length, alen_cons, Nb. apply uwrap_small. lia.
      + by apply (acks_for_mono k _ _ R).
      + split_and!; [cbn; lia|done|]. intros n [?|(x & Hx & <-)]; [by left|right]. exists x. split; [cbn; rewrite Hp; by right|done].
      + done.
      + exists s. split; [cbn; rewrite Hp; by left|done].
    - destruct Hi as (x & Hx & E). split_and!; [done|done|apply advances_refl|apply receives_only_refl|].
      exists x. rewrite elem_of_reverse in Hx. done. }
  destruct (rcv_move_ok (rcv_buf k1) k1 P C B R eq_refl R1 A1) as (R2 & A2 & V2 & O2).
  split_and!; [done|done|by eapply advances_trans|by eapply receives_only_trans|]. intros _ _.
  apply V2. right. eauto.
Qed.

Lemma ack_newblock_ok n k : 0 <= n < 2 ^ 31 -> wpd (ack_newblock n) (fun b k' => k' = k /\ n <= b < 2 ^ 32) k.
Proof.
  intros Hn. unfold ack_newblock.
  apply (wp_loop_rank (fun r b k' => k' = k /\ b = 2 ^ (32 - Z.of_nat r) /\ (r <= 29)%nat /\ (b = 8 \/ b < 2 * n))
          _ _ _ _ 29%nat); [|split_and!; [done|done|lia|by left]|lia].
  intros r b k' (-> & -> & Hr & Hb). destruct (Z.ltb_spec (2 ^ (32 - Z.of_nat r)) n) as [Hlt|]; wp_step; [|split; [done|]; lia].
  assert (32 - Z.of_nat r < 31) by (apply (Z.pow_lt_mono_r_iff 2); lia).
  exists (r - 1)%nat. split_and!; [lia|done| |lia|lia]. rewrite <- Z.pow_succ_r by lia. f_equal. lia.
Qed.

Lemma ikcp_ack_push_ok n t k B R :
  acks_for k B R -> is_time t -> B + 1 < 2 ^ 31 ->
  wpd (ikcp_ack_push n t) (fun _ k' => acks_for k' (B + 1) (fun m => R m \/ m = n) /\
    exists al ab, k' = k <| acklist := al |> <| ackblock := ab |> <| ackcount := ackcount k' |>) k.
Proof.
  intros (A1 & A2 & A3 & A4 & A5) Ht HB. unfold ikcp_ack_push. wp_step. wp_step. wp_step.
  assert (u32 (ackcount k + 1) = ackcount k + 1) as Ec by (apply uwrap_small; lia).
  set (room := fun (k' : IKCPCB) => exists al ab, k' = k <| acklist := al |> <| ackblock := ab |> /\
    2 * (ackcount k + 1) <= alen al /\ ab * 2 = alen al /\ 0 <= ab /\
    forall i, 0 <= i < 2 * ackcount k -> aget al i = aget (acklist k) i).
  assert (forall k1, room k1 -> wpd (k0 ← get; let p := u32 (ackcount k0 * 2) in
      require OutOfBounds (p + 1 <? alen (acklist k0));;
      put (k0 <| acklist := aset (aset (acklist k0) p n) (p + 1) t |> <| ackcount := u32 (ackcount k0 + 1) |>))
    (fun _ k' => acks_for k' (B + 1) (fun m => R m \/ m = n) /\
      exists al ab, k' = k <| acklist := al |> <| ackblock := ab |> <| ackcount := ackcount k' |>) k1) as Hput.
  { intros k1 (al & ab & E & Hal & Hab & Hab0 & Hget).
    assert (ackcount k1 = ackcount k) as E1 by (by subst). assert (acklist k1 = al) as E2 by (by subst).
    wp_step. wp_step. rewrite E1, E2, Ec, (uwrap_small 32 (ackcount k * 2)) by lia.
    wp_step. wp_step; [lia|]. wp_step. subst k1. split; [|eauto].
    repeat split; cbn; rewrite ?alen_aset; try lia. intros i Hi. destruct (decide (i = ackcount k)) as [->|Hne].
    - exists n, t. rewrite Z.add_0_r, aget_aset_ne, aget_aset_eq, aget_aset_eq by (unfold in_range; rewrite ?alen_aset; lia). auto.
    - destruct (A5 i ltac:(lia)) as (n' & t' & ? & ? & ? & ?). exists n', t'.
      rewrite !aget_aset_ne, !Hget by lia. auto. }
  apply wp_when.
  - intros Hlt%Z.ltb_lt. rewrite Ec in *. wp_step. eapply wp_mono; [apply ack_newblock_ok; lia|]. intros b k' [-> Hb].
    wp_step. eapply wp_deref; [apply slice_take; lia|]. wp_step. wp_step; [lia|]. wp_step. wp_step. apply Hput.
    exists (take (Z.to_nat (ackcount k * 2)) (acklist k) ++ replicate (Z.to_nat ((b - ackcount k) * 2)) 0), b.
    rewrite (uwrap_small 32 b) by lia. rewrite alen_app, alen_take, alen_replicate by lia.
    split_and!; [done|lia|lia|lia|]. intros i Hi. rewrite aget_app_l by (rewrite alen_take; lia).
    rewrite !aget_lookup by lia. apply lookup_take_lt. lia.
  - intros Hge%Z.ltb_ge. wp_step. apply Hput. exists (acklist k), (ackblock k). rewrite Ec in Hge.
    split_and!; [by destruct k|lia|done|lia|done].
Qed.

Lemma acks_for_more k B B' R : B <= B' < 2 ^ 31 -> acks_for k B R -> acks_for k B' R.
Proof. intros HB (A1 & A2 & A3 & A4 & A5). split_and!; [lia..|done|done|done]. Qed.

Lemma input_push_ok cv c f w t n u d rest k P C B :
  receiver_ok k P C -> acks_ok k B -> B + 1 < 2 ^ 31 -> aget P n = Some (f, d) -> 0 <= f < 256 -> is_time t ->
  wpd (input_push cv c f w t n u (alen d) (d ++ rest))
    (fun _ k' => receiver_ok k' P C /\ acks_ok k' (B + 1) /\ advances k k' /\ receives_only k k') k.
Proof.
  intros Rok A HB Hg Hf Ht. unfold input_push. wp_step. wp_step. pose proof (aget_Some_range _ _ _ Hg) as [Hg0 Hg1].
  destruct Rok as (HP & Hn & Rok'). assert (receiver_ok k P C) as Rok by done.
  apply wp_when; intros Hw; [apply Z.ltb_lt in Hw|].
  2:{ split_and!; [done| |apply advances_refl|apply receives_only_refl]. apply (acks_for_more _ B); [|done].
      destruct A as (? & _). lia. }
  wp_step. eapply wp_mono; [by apply (ikcp_ack_push_ok n t k B (received k))|]. intros [] k1 (A1 & al & ab & E1).
  assert (receiver_ok k1 P C /\ receives_only k k1) as [R1 O1] by (rewrite E1; done).
  assert (forall m, received k m -> received k1 m) as Hm by (rewrite E1; done).
  assert (rcv_nxt k1 = rcv_nxt k /\ rcv_wnd k1 = rcv_wnd k) as [En Ew] by (rewrite E1; done).
  wp_step. wp_step. rewrite En, itimediff_small by lia. apply wp_when; intros Hlow.
  - apply Z.leb_le in Hlow. wp_step.
    assert (wpd (if 0 <? alen d then deref OutOfBounds (slice (d ++ rest) 0 (alen d)) else mret [])
      (fun d' k' => d' = d /\ k' = k1) k1) as Wd.
    { destruct (Z.ltb_spec 0 (alen d)) as [|Hle].
      - eapply wp_deref; [|done]. rewrite slice_take by (rewrite alen_app; pose proof (alen_nonneg rest); lia).
        rewrite alen_length, Nat2Z.id. by rewrite take_app_length.
      - wp_step. split; [|done]. symmetry. apply alen_0. pose proof (alen_nonneg d). lia. }
    eapply wp_mono; [exact Wd|]. intros d' k' [-> ->]. wp_step.
    set (s := MkSeg cv c f w t n u (alen d) 0 0 0 0 d).
    destruct (ikcp_parse_data_ok s k1 P C (B + 1) _ R1 A1 ltac:(done) Hg) as (R2 & A2 & V2 & O2 & Hrec).
    assert (received (ikcp_parse_data s k1) n) as Hrec' by (apply Hrec; cbn [sn s]; rewrite ?En, ?Ew; [done|lia]).
    split_and!; [done| | |by eapply receives_only_trans].
    + apply (acks_for_mono (ikcp_parse_data s k1) _ _ (fun m => received k m \/ m = n)); [done..| |done].
      intros m [Hk| ->]; [apply V2; auto|exact Hrec'].
    + eapply advances_trans; [|exact V2]. split_and!; [lia|by rewrite E1|done].
  - apply Z.leb_gt in Hlow. split_and!; [done| |split_and!; [lia|by rewrite E1|done]|done].
    apply (acks_for_mono k1 _ _ (fun m => received k m \/ m = n)); [done..| |done].
    intros m [Hk| ->]; [auto|]. apply Hm. left. lia.
Qed.

(** ** Acknowledgements that arrive *)

(** A step that handles a datagram: what is deleted from the send buffer is in [G]. *)
Definition evolves (G : Z -> Prop) (k k' : IKCPCB) : Prop :=
  advances k k' /\ outs k' = outs k /\
  (forall s, s ∈ snd_buf k -> (exists s', s' ∈ snd_buf k' /\ sn s' = sn s) \/ G (sn s)).

Lemma evolves_refl G k : evolves G k k.
Proof. split_and!; [apply advances_refl|done|]. eauto. Qed.

Lemma evolves_trans G k1 k2 k3 : evolves G k1 k2 -> evolves G k2 k3 -> evolves G k1 k3.
Proof.
  intros (A1 & A2 & A3) (B1 & B2 & B3). split_and!; [by eapply advances_trans|congruence|]. intros s Hs.
  destruct (A3 s Hs) as [(s2 & Hs2 & <-)|]; [|by right]. by apply B3.
Qed.

Lemma receives_only_evolves G k k' : advances k k' -> receives_only k k' -> evolves G k k'.
Proof. intros A (_ & _ & E1 & E2). split_and!; [done|done|]. rewrite E1. eauto. Qed.

Section acknowledged.
Context (H Q P C : list (Z * bytes)) (B : Z) (G : Z -> Prop).
Abbreviation eok k := (endpoint_ok k H Q P C B).

Lemma snd_buf_range k s : sender_ok k H Q -> s ∈ snd_buf k -> 0 <= sn s < snd_nxt k.
Proof.
  intros (E & _ & _ & _ & Hb & _) Hs. destruct (proj1 (Forall_forall _ _) Hb s Hs) as (_ & _ & Hg & _).
  apply aget_Some_range in Hg as [? ?]. lia.
Qed.

Lemma snd_buf_length k : sender_ok k H Q -> alen (snd_buf k) <= snd_nxt k.
Proof.
  intros S. replace (snd_nxt k) with (snd_nxt k - 0) by lia. apply ascending_length; [apply S| |].
  - intros s. by apply snd_buf_range.
  - destruct S as (-> & _). apply alen_nonneg.
Qed.

(** Deleting the segment in the middle, or changing the others in fields that do not
    matter here. *)
Lemma sender_ok_sub k l nb :
  sender_ok k H Q -> Forall (fun s => exists s', s' ∈ snd_buf k /\ seg_fit s /\ payload s = payload s' /\ sn s = sn s' /\
    len s = len s' /\ s_conv s = s_conv s' /\ cmd s = cmd s') l ->
  ascending l -> nb = alen l -> sender_ok (k <| snd_buf := l |> <| nsnd_buf := nb |>) H Q.
Proof.
  intros (S1 & S2 & S3 & S4 & S5 & S6 & S7 & S8) Hl Hs Hnb. repeat (split; [done|]). split; [|done]. cbn.
  apply (Forall_impl _ _ _ Hl). intros s (s' & Hs' & F & E1 & E2 & E3 & E4 & E5).
  destruct (proj1 (Forall_forall _ _) S5 s' Hs') as (_ & ? & ? & ? & ?). rewrite E1, E2, E3, E4, E5. done.
Qed.

(** The same when [l] is a part of the buffer. *)
Lemma sender_ok_sublist k l nb :
  sender_ok k H Q -> sublist l (snd_buf k) -> nb = alen l -> sender_ok (k <| snd_buf := l |> <| nsnd_buf := nb |>) H Q.
Proof.
  intros S Hl Hnb. apply sender_ok_sub; [done| | |done].
  - apply Forall_forall. intros s Hs. exists s. destruct S as (_ & _ & _ & _ & S5 & _).
    assert (s ∈ snd_buf k) as Hk by (by eapply elem_of_sublist). split; [done|].
    destruct (proj1 (Forall_forall _ _) S5 s Hk) as (? & _). done.
  - destruct S as (_ & _ & _ & _ & _ & S6 & _). by eapply ascending_sublist.
Qed.

Lemma una_delete_ok u l k :
  l = snd_buf k -> 0 <= u < 2 ^ 31 -> (forall n, 0 <= n < u -> G n) -> eok k ->
  eok (una_delete l u k) /\ evolves G k (una_delete l u k).
Proof.
  revert k. induction l as [|s l IH]; intros k E Hu HG K; cbn [una_delete]; [split; [done|apply evolves_refl]|].
  destruct K as (S & R & A & T). pose proof (snd_buf_length k S) as Hl. pose proof S as (Hn & Hb & _ & _ & _ & _ & Nb & _).
  pose proof (snd_buf_range k s S ltac:(rewrite <- E; by left)) as Hs. pose proof (alen_nonneg Q).
  rewrite itimediff_small by lia. destruct (Z.ltb_spec 0 (u - sn s)); [|split; [done|apply evolves_refl]].
  set (k1 := k <| snd_buf := l |> <| nsnd_buf := u32 (nsnd_buf k - 1) |>).
  assert (eok k1) as K1.
  { split_and!; [|done|done|done]. apply sender_ok_sublist; [done|rewrite <- E; by apply sublist_cons|].
    rewrite Nb, <- E, alen_cons in *. pose proof (alen_nonneg l). rewrite uwrap_small by lia. lia. }
  destruct (IH k1 eq_refl Hu HG K1) as [K2 V2]. split; [done|]. eapply evolves_trans; [|exact V2].
  split_and!; [by apply advances_same|done|]. rewrite <- E. intros x [->|Hx]%elem_of_cons; [|eauto].
  right. apply HG. lia.
Qed.

Lemma ikcp_parse_una_ok u k :
  0 <= u < 2 ^ 31 -> (forall n, 0 <= n < u -> G n) -> eok k -> eok (ikcp_parse_una u k) /\ evolves G k (ikcp_parse_una u k).
Proof. by apply una_delete_ok. Qed.

(** The assignments of [snd_una] and of other fields outside the invariant. *)
Lemma ikcp_shrink_buf_ok k : eok k -> eok (ikcp_shrink_buf k) /\ evolves G k (ikcp_shrink_buf k).
Proof.
  intros K. unfold ikcp_shrink_buf. destruct (snd_buf k) eqn:E; (split; [exact K|]);
    (split_and!; [by apply advances_same|done|]; cbn; eauto).
Qed.

Lemma ack_delete_ok n l :
  let '(r, found) := ack_delete n l in
  if found then exists a s b, l = a ++ s :: b /\ r = a ++ b /\ sn s = n else r = l.
Proof.
  induction l as [|s l IH]; cbn [ack_delete]; [done|]. destruct (Z.eqb_spec n (sn s)) as [->|].
  - exists [], s, l. done.
  - destruct (_ <? 0); [done|]. destruct (ack_delete n l) as [r found]. destruct found; [|by rewrite IH].
    destruct IH as (a & x & b & -> & -> & ?). exists (s :: a), x, b. done.
Qed.

Lemma ikcp_parse_ack_ok n k : G n -> eok k -> eok (ikcp_parse_ack n k) /\ evolves G k (ikcp_parse_ack n k).
Proof.
  intros HG K. unfold ikcp_parse_ack. destruct (not_in_flight k n); [split; [done|apply evolves_refl]|].
  pose proof (ack_delete_ok n (snd_buf k)) as Hd. destruct (ack_delete n (snd_buf k)) as [r found].
  destruct found; [|split; [done|apply evolves_refl]]. destruct Hd as (a & s & b & E & -> & Es).
  destruct K as (S & R & A & T). pose proof (snd_buf_length k S) as Hl. pose proof S as (Hn & Hb & _ & _ & _ & _ & Nb & _).
  pose proof (alen_nonneg Q). pose proof (alen_nonneg a). pose proof (alen_nonneg b).
  rewrite E, alen_app, alen_cons in Hl, Nb. split.
  - split_and!; [|done|done|done]. apply sender_ok_sublist; [done| |].
    + rewrite E. apply sublist_app; [done|by apply sublist_cons].
    + rewrite alen_app. rewrite uwrap_small; lia.
  - split_and!; [by apply advances_same|done|]. rewrite E. cbn. intros x Hx. set_unfold.
    destruct Hx as [Hx|[->|Hx]]; [left; eauto|right; by rewrite Es|left; eauto].
Qed.

Lemma count_fastack_ok n l :
  Forall2 (fun s s' => s' = s \/ exists f, s' = s <| fastack := f |>) l (count_fastack n l).
Proof.
  assert (forall l, Forall2 (fun s s' => s' = s \/ exists f, s' = s <| fastack := f |>) l l) as Hrefl.
  { intros l'. induction l'; constructor; auto. }
  induction l as [|s l IH]; cbn [count_fastack]; [constructor|]. destruct (_ <? 0); [apply Hrefl|].
  constructor; [|done]. destruct (n =? sn s); [by left|right; eauto].
Qed.

(** Changing the segments of the buffer in fields outside the invariant. *)
Lemma eok_snd_buf k l :
  eok k -> Forall2 same_core l (snd_buf k) ->
  eok (k <| snd_buf := l |>) /\ evolves G k (k <| snd_buf := l |>).
Proof.
  intros (S & R & A & T) F. assert (sn <$> l = sn <$> snd_buf k) as E
    by (clear - F; induction F as [|s s' l l' (_ & ? & _) F IH]; cbn; [done|by f_equal]). split.
  - split_and!; [|done|done|done]. pose proof S as (_ & _ & _ & _ & S5 & S6 & Nb & _).
    assert (sender_ok (k <| snd_buf := l |> <| nsnd_buf := nsnd_buf k |>) H Q) as S'; [|exact S'].
    apply sender_ok_sub; [done| | |].
    + apply Forall_forall. intros s (i & Hi)%list_elem_of_lookup.
      destruct (Forall2_lookup_l _ _ _ _ _ F Hi) as (s' & Hi' & E1 & E2 & E3 & E4 & E5). exists s'.
      apply list_elem_of_lookup_2 in Hi'. destruct (proj1 (Forall_forall _ _) S5 s' Hi') as ([? ?] & _).
      split_and!; try done; injection E1 as E6 E7; unfold seg_fit; rewrite ?E3, ?E6, ?E7; done.
    + apply ascending_sn. rewrite E. by apply ascending_sn.
    + rewrite Nb, !alen_length, (Forall2_length _ _ _ F). done.
  - split_and!; [by apply advances_same|done|]. intros s Hs. left. cbn.
    apply (list_elem_of_fmap_2 sn) in Hs. rewrite <- E in Hs. apply list_elem_of_fmap in Hs as (s' & ? & ?). eauto.
Qed.

Lemma ikcp_parse_fastack_ok n k : eok k -> eok (ikcp_parse_fastack n k) /\ evolves G k (ikcp_parse_fastack n k).
Proof.
  intros K. unfold ikcp_parse_fastack. destruct (not_in_flight k n); [split; [done|apply evolves_refl]|].
  pose proof (count_fastack_ok n (snd_buf k)) as F. apply eok_snd_buf; [done|].
  apply Forall2_flip. apply (Forall2_impl _ _ _ _ F). by intros s s' [->|(f & ->)].
Qed.

(** ** Round trip times *)

Lemma ikcp_update_ack_ok rtt k :
  eok k -> is_time rtt -> wpd (ikcp_update_ack rtt) (fun _ k' => eok k' /\ evolves G k k') k.
Proof.
  intros K Hr. unfold ikcp_update_ack. wp_step. wp_step. wp_step. pose proof K as (_ & _ & _ & T).
  destruct T as (T1 & T2 & T3 & T4 & T5 & T6 & T7 & T8 & T9 & T10). unfold is_time in *.
  assert (wpd (if rx_srtt k =? 0 then mret (rtt, Z.quot rtt 2)
    else
      delta ← c_int (rtt - rx_srtt k);
      let delta := if delta <? 0 then - delta else delta in
      v ← c_int (3 * rx_rttval k);
      a ← c_int (7 * rx_srtt k);
      b ← c_int (a + rtt);
      let srtt := Z.quot b 8 in
      mret (if srtt <? 1 then 1 else srtt, s32 (Z.quot (v + delta) 4)))
    (fun r k' => k' = k /\ is_time r.1 /\ is_time r.2) k) as Ws.
  { destruct (rx_srtt k =? 0); unfold is_time; [wp_step; cbn; split_and!; [done|lia..|dlia|dlia]|].
    wp_step. apply wp_c_int; [lia|]. wp_step. apply wp_c_int; [lia|]. wp_step. apply wp_c_int; [lia|].
    wp_step. apply wp_c_int; [lia|]. wp_step. cbn. rewrite swrap_small; [|lia|unfold in_s; zcase; dlia].
    split_and!; [done|zcase; dlia..]. }
  eapply wp_mono; [exact Ws|]. intros [srtt rttval] k' (-> & Hs & Hv). cbn [fst snd] in Hs, Hv. unfold is_time in *.
  wp_step. apply wp_c_int; [lia|]. wp_step. split.
  - destruct K as (S & R & A & _). split; [exact S|]. split; [exact R|]. split; [exact A|].
    split_and!; try done; cbn; unfold is_time; try lia; unfold _ibound_, _imin_, IKCP_RTO_MAX.
    all: match goal with |- context [_imax_ ?a ?b] => set (m := _imax_ a b) end.
    all: assert (0 <= m) by (subst m; unfold _imax_; pose proof (uwrap_range 32 (rx_minrto k)); zcase; lia).
    all: rewrite swrap_small; [|lia|unfold in_s]; zcase; lia.
  - split_and!; [by apply advances_same|done|]. eauto.
Qed.

End acknowledged.

(** ** Datagrams that arrive *)

(** A segment on the wire. *)
Definition wire_seg (s : IKCPSEG) : bytes := ikcp_encode_seg s ++ data s.

(** A segment of an endpoint that has numbered [P], has received [G] and all below [nxt]. *)
Definition item_ok (cv : Z) (P : list (Z * bytes)) (G : Z -> Prop) (nxt : Z) (s : IKCPSEG) : Prop :=
  s_conv s = cv /\ seg_fit s /\ is_time (ts s) /\ 0 <= una s <= nxt /\ 0 <= sn s < 2 ^ 31 /\
  (cmd s = IKCP_CMD_PUSH /\ aget P (sn s) = Some (payload s) \/ cmd s = IKCP_CMD_ACK /\ G (sn s) \/
   cmd s = IKCP_CMD_WASK \/ cmd s = IKCP_CMD_WINS).

Definition datagram_ok (cv : Z) (P : list (Z * bytes)) (G : Z -> Prop) (nxt : Z) (d : bytes) : Prop :=
  alen d <= 4096 /\ exists items, d = mjoin (wire_seg <$> items) /\ Forall (item_ok cv P G nxt) items.

Lemma decode_step (n : nat) v rest k (Q : bytes * Z -> IKCPCB -> Prop) :
  0 <= v < 2 ^ (8 * Z.of_nat n) -> Q (rest, v) k ->
  wpd (d ← deref OutOfBounds (slice (le_split n v ++ rest) 0 (Z.of_nat n)); mret (drop n (le_split n v ++ rest), le_combine d)) Q k.
Proof.
  intros Hv HQ. wp_step. eapply wp_deref.
  { rewrite slice_take by (rewrite alen_app, alen_le_split; pose proof (alen_nonneg rest); lia). reflexivity. }
  wp_step. rewrite Nat2Z.id, take_app_length', drop_app_length' by (by rewrite length_le_split). by rewrite combine_split_u.
Qed.

Lemma wp_decode32u v rest k Q : 0 <= v < 2 ^ 32 -> Q (rest, v) k -> wpd (ikcp_decode32u (le_split 4 v ++ rest)) Q k.
Proof. apply (decode_step 4). Qed.

Lemma wp_decode16u v rest k Q : 0 <= v < 2 ^ 16 -> Q (rest, v) k -> wpd (ikcp_decode16u (le_split 2 v ++ rest)) Q k.
Proof. apply (decode_step 2). Qed.

Lemma wp_decode8u v rest k Q : 0 <= v < 2 ^ 8 -> Q (rest, v) k -> wpd (ikcp_decode8u (ikcp_encode8u v ++ rest)) Q k.
Proof.
  intros Hv HQ. replace (ikcp_encode8u v) with (le_split 1 v); [by apply (decode_step 1)|]. done.
Qed.

Lemma alen_wire_seg s : alen (wire_seg s) = 24 + alen (data s).
Proof.
  unfold wire_seg, ikcp_encode_seg, ikcp_encode32u, ikcp_encode16u, ikcp_encode8u.
  rewrite !alen_app, !alen_le_split, !alen_cons, !alen_nil. lia.
Qed.

Lemma wire_seg_length s : (24 <= length (wire_seg s))%nat.
Proof. pose proof (alen_wire_seg s) as E. pose proof (alen_nonneg (data s)). rewrite (alen_length (wire_seg s)) in E. lia. Qed.

Section arriving.
Context (H Q P C : list (Z * bytes)) (G : Z -> Prop) (nxt : Z).
Hypothesis Hnxt : forall n, 0 <= n < nxt -> G n.
Hypothesis Hlim : nxt < 2 ^ 31.
Abbreviation eok k B := (endpoint_ok k H Q P C B).

Lemma input_command_ok s rest flag maxack k B :
  eok k B -> item_ok (conv k) P G nxt s -> B + 1 < 2 ^ 31 ->
  wpd (input_command (s_conv s) (cmd s) (frg s) (u16 (wnd s)) (ts s) (sn s) (una s) (alen (data s)) (data s ++ rest) flag maxack)
    (fun _ k' => eok k' (B + 1) /\ evolves G k k') k.
Proof.
  intros K (I1 & [I2 I3] & I4 & I5 & I6 & I7) HB. unfold input_command.
  pose proof K as (S & R & A & T). assert (0 <= B) as HB0 by (destruct A as (? & _); lia).
  assert (forall k', eok k' B -> eok k' (B + 1)) as More.
  { intros k' (S' & R' & A' & T'). split_and!; [done|done|apply (acks_for_more _ B); [lia|done]|done]. }
  destruct (Z.eqb_spec (cmd s) IKCP_CMD_ACK) as [Ea|Na]; [|destruct (Z.eqb_spec (cmd s) IKCP_CMD_PUSH) as [Ep|Np]].
  - assert (G (sn s)) as HG by (rewrite Ea in I7; destruct I7 as [[? _]|[[_ ?]|[?|?]]]; done).
    wp_step. wp_step. wp_step. destruct T as (_ & _ & _ & _ & _ & _ & Tc & _). unfold is_time in *.
    rewrite itimediff_small by lia.
    assert (wpd (when (0 <=? current k - ts s) (ikcp_update_ack (current k - ts s))) (fun _ k' => eok k' B /\ evolves G k k') k) as Wu.
    { apply wp_when; [|intros; split; [done|apply evolves_refl]]. intros Hle%Z.leb_le.
      apply ikcp_update_ack_ok; [done|]. unfold is_time. lia. }
    eapply wp_mono; [exact Wu|]. intros [] k1 [K1 V1]. wp_step. wp_step.
    destruct (ikcp_parse_ack_ok H Q P C B G (sn s) k1 HG K1) as [K2 V2]. wp_step. wp_step.
    destruct (ikcp_shrink_buf_ok H Q P C B G _ K2) as [K3 V3]. wp_step.
    split; [by apply More|]. by do 2 (eapply evolves_trans; [|done]).
  - assert (aget P (sn s) = Some (payload s)) as Hg by (rewrite Ep in I7; destruct I7 as [[_ ?]|[[? _]|[?|?]]]; done).
    wp_step. eapply wp_mono; [by apply (input_push_ok _ _ _ _ _ _ _ _ _ _ P C B)|]. intros [] k1 (R1 & A1 & V1 & O1).
    wp_step. split; [|by apply receives_only_evolves]. destruct O1 as (O1 & O2 & _). split_and!; auto.
  - wp_step. apply wp_when; intros _; wp_step; [wp_step|]; (split; [by apply More|]); [|apply evolves_refl].
    split_and!; [by apply advances_same|done|]. cbn. eauto.
Qed.

Lemma input_round_ok s rest sz flag maxack k B :
  eok k B -> item_ok (conv k) P G nxt s -> alen (data s) < 2 ^ 32 -> B + 1 < 2 ^ 31 -> sz = 24 + alen (data s) + alen rest ->
  wpd (input_round (wire_seg s ++ rest) sz flag maxack)
    (fun r k' => exists f m, r = inl (rest, alen rest, f, m) /\ eok k' (B + 1) /\ evolves G k k') k.
Proof.
  intros K (I1 & [I2 I3] & I4 & I5 & I6 & I7) Hd HB Hsz. unfold input_round, wire_seg, ikcp_encode_seg, is_time in *.
  pose proof K as (_ & _ & A & (_ & _ & _ & Hcv & _)). pose proof (alen_nonneg (data s)). pose proof (alen_nonneg rest).
  assert (cmd s = 81 \/ cmd s = 82 \/ cmd s = 83 \/ cmd s = 84) as Hcmd by (unfold IKCP_CMD_PUSH, IKCP_CMD_ACK, IKCP_CMD_WASK, IKCP_CMD_WINS in I7; lia).
  rewrite <- !app_assoc. wp_step. apply wp_decode32u; [lia|]. wp_step. wp_step. rewrite I1, Z.eqb_refl. cbn [negb].
  rewrite !(uwrap_small 8) by lia.
  wp_step. apply wp_decode8u; [lia|]. wp_step. apply wp_decode8u; [lia|].
  wp_step. apply wp_decode16u; [apply uwrap_range; lia|].
  do 4 (wp_step; apply wp_decode32u; [lia|]).
  cbv beta iota zeta. rewrite (proj2 (Z.ltb_ge _ _)) by (unfold IKCP_OVERHEAD; lia).
  replace (negb _ && _ && _ && _) with false
    by (unfold IKCP_CMD_PUSH, IKCP_CMD_ACK, IKCP_CMD_WASK, IKCP_CMD_WINS; destruct Hcmd as [->|[->|[->| ->]]]; done).
  wp_step. wp_step. set (k0 := k <| rmt_wnd := _ |>).
  assert (eok k0 B /\ evolves G k k0) as [K0 V0] by (split; [exact K|by split_and!; [apply advances_same|..]; cbn; eauto]).
  wp_step. wp_step. destruct (ikcp_parse_una_ok H Q P C B G (una s) k0 ltac:(lia) ltac:(intros; apply Hnxt; lia) K0) as [K1 V1].
  wp_step. wp_step. destruct (ikcp_shrink_buf_ok H Q P C B G _ K1) as [K2 V2].
  set (k2 := ikcp_shrink_buf _) in *.
  assert (evolves G k k2) as V by (by do 2 (eapply evolves_trans; [|done])).
  assert (conv k2 = conv k) as Ec by apply V. rewrite I2, <- I1.
  wp_step. eapply wp_mono; [apply (input_command_ok s); [done|by rewrite Ec|done]|]. intros [f m] k3 [K3 V3]. wp_step. exists f, m.
  split_and!; [|done|by eapply evolves_trans]. rewrite alen_length, Nat2Z.id, drop_app_length.
  do 4 f_equal. unfold IKCP_OVERHEAD. rewrite <- !alen_length. lia.
Qed.

(** The loop over the segments of a datagram. *)
Lemma input_loop_ok items k B :
  eok k B -> Forall (item_ok (conv k) P G nxt) items -> Forall (fun s => alen (data s) < 2 ^ 32) items ->
  B + alen items < 2 ^ 31 ->
  wpd (input_loop (mjoin (wire_seg <$> items)) (alen (mjoin (wire_seg <$> items))))
    (fun r k' => exists f m, r = (None, f, m) /\ eok k' (B + alen items) /\ evolves G k k') k.
Proof.
  intros K Hi Hd HB. unfold input_loop.
  apply (wp_loop_rank (fun r '(p, sz, flag, maxack) k' => exists done todo, items = done ++ todo /\ r = length todo /\
      p = mjoin (wire_seg <$> todo) /\ sz = alen p /\ eok k' (B + alen done) /\ evolves G k k')
    _ _ _ _ (length items)).
  - intros r [[[p sz] flag] maxack] k1 (done & todo & E & -> & -> & -> & K1 & V1). destruct todo as [|s todo].
    { change (mjoin (wire_seg <$> [])) with (@nil byte). rewrite alen_nil. change (0 <? IKCP_OVERHEAD) with true. cbv iota.
      wp_step. exists flag, maxack. rewrite app_nil_r in E. subst done. by split_and!. }
    rewrite E in Hi, Hd, HB. apply Forall_app in Hi as [_ [Hi _]%Forall_cons]. apply Forall_app in Hd as [_ [Hd _]%Forall_cons].
    rewrite alen_app, alen_cons in HB. pose proof (alen_nonneg todo). cbn [fmap list_fmap]. rewrite mjoin_cons.
    set (rest := mjoin _). assert (alen (wire_seg s ++ rest) = 24 + alen (data s) + alen rest) as Esz
      by (rewrite alen_app, alen_wire_seg; lia).
    pose proof (alen_nonneg (data s)). pose proof (alen_nonneg rest).
    rewrite (proj2 (Z.ltb_ge _ _)) by (unfold IKCP_OVERHEAD; lia). wp_step.
    assert (conv k1 = conv k) as Ec by apply V1.
    eapply wp_mono; [apply input_round_ok; [exact K1|by rewrite Ec|done|lia|done]|].
    intros r k2 (f & m & -> & K2 & V2). wp_step. exists (length todo). split; [cbn; lia|].
    exists (done ++ [s]), todo. rewrite <- app_assoc, alen_snoc, Z.add_assoc. split_and!; try done. by eapply evolves_trans.
  - exists [], items. rewrite alen_nil, Z.add_0_r. split_and!; try done. apply evolves_refl.
  - assert (24 * length items <= length (mjoin (wire_seg <$> items)))%nat; [|lia]. apply length_mjoin_ge.
    intros s _. apply wire_seg_length.
Qed.

Lemma open_cwnd_ok k B : eok k B -> eok (open_cwnd k) B /\ evolves G k (open_cwnd k).
Proof.
  intros K. unfold open_cwnd. repeat case_match.
  all: (split; [exact K|]; split_and!; [by apply advances_same|done|]; cbn; eauto).
Qed.

(** A datagram of the peer is handled without a fault; at most 170 segments fit in it. *)
Lemma ikcp_input_ok d k B :
  eok k B -> datagram_ok (conv k) P G nxt d -> B + 170 < 2 ^ 31 ->
  wpd (ikcp_input (Some d) (alen d)) (fun _ k' => eok k' (B + 170) /\ evolves G k k') k.
Proof.
  intros K (Hd & items & E & Hi) HB. unfold ikcp_input. wp_step. wp_step. pose proof (alen_nonneg d).
  assert (forall k' B', B <= B' <= B + 170 -> eok k' B' -> eok k' (B + 170)) as More.
  { intros k' B' HB' (S' & R' & A' & T'). split_and!; [done|done|apply (acks_for_more _ B'); [lia|done]|done]. }
  rewrite (swrap_small 32) by (unfold in_s; lia).
  destruct (alen d <? IKCP_OVERHEAD); [wp_step; split; [apply (More _ B); [lia|done]|apply evolves_refl]|].
  assert (24 * alen items <= alen d) as Hit.
  { rewrite E, !alen_length. assert (24 * length items <= length (mjoin (wire_seg <$> items)))%nat; [|lia].
    apply length_mjoin_ge. intros s _. apply wire_seg_length. }
  assert (Forall (fun s => alen (data s) < 2 ^ 32) items) as Hdata.
  { apply Forall_forall. intros s Hs. pose proof (length_mjoin_elem wire_seg items s Hs) as Hl. rewrite <- E in Hl.
    assert (alen (data s) <= alen (wire_seg s)) by (unfold wire_seg; rewrite alen_app; pose proof (alen_nonneg (ikcp_encode_seg s)); lia).
    rewrite !alen_length in *. lia. }
  wp_step. rewrite E. eapply wp_mono; [apply (input_loop_ok items k B); [done..|lia]|].
  intros r k1 (f & m & -> & K1 & V1). pose proof (alen_nonneg items). apply (More _ (B + alen items)) in K1; [|lia].
  wp_step.
  assert (wpd (when (negb (f =? 0)) (modify (ikcp_parse_fastack m))) (fun _ k' => eok k' (B + 170) /\ evolves G k k') k1) as Wf.
  { apply wp_when; [intros _; wp_step|by intros _]. destruct (ikcp_parse_fastack_ok H Q P C (B + 170) G m k1 K1).
    split; [done|]. by eapply evolves_trans. }
  eapply wp_mono; [exact Wf|]. intros [] k2 [K2 V2]. wp_step. wp_step. wp_step.
  destruct (_ <? _); [|done]. destruct (open_cwnd_ok k2 _ K2). split; [done|]. by eapply evolves_trans.
Qed.

End arriving.

(** ** Messages and their fragments *)

(** The fragments of a message count down to zero. *)
Fixpoint counts_down (fs : list (Z * bytes)) : Prop :=
  match fs with [] => True | x :: r => x.1 = alen r /\ counts_down r end.

Definition frags_of (m : bytes) (fs : list (Z * bytes)) : Prop :=
  fs <> [] /\ counts_down fs /\ mjoin (snd <$> fs) = m /\ alen m < 2 ^ 31.

(** [D] are the fragments of the messages [ms], in order. *)
Fixpoint framed (D : list (Z * bytes)) (ms : list bytes) : Prop :=
  match ms with
  | [] => D = []
  | m :: ms => exists fs D', D = fs ++ D' /\ frags_of m fs /\ framed D' ms
  end.

Lemma framed_snoc D ms m fs : framed D ms -> frags_of m fs -> framed (D ++ fs) (ms ++ [m]).
Proof.
  revert D. induction ms as [|m' ms IH]; intros D HD Hf; cbn in *.
  - subst D. exists fs, []. by rewrite app_nil_r.
  - destruct HD as (fs' & D' & -> & Hf' & HD). exists fs', (D' ++ fs). rewrite app_assoc. auto.
Qed.

(** The queue starts with the fragments [fs]. *)
Lemma peek_length_ok fs q X acc :
  Forall seg_fit q -> payload <$> q = fs ++ X -> fs <> [] -> counts_down fs ->
  0 <= acc -> acc + alen (mjoin (snd <$> fs)) < 2 ^ 31 -> peek_length q acc = acc + alen (mjoin (snd <$> fs)).
Proof.
  revert q acc. induction fs as [|x r IH]; intros q acc Hq E Hne Hc Ha Hl; [done|].
  destruct q as [|s q]; [done|]. apply Forall_cons in Hq as [[F1 F2] Hq]. cbn in E. injection E as E1 E2.
  destruct Hc as [Hx Hc]. cbn [fmap list_fmap] in *. rewrite mjoin_cons, alen_app in *. cbn [peek_length].
  assert (frg s = alen r /\ data s = x.2) as [Ef Ed] by (by subst x). rewrite F1, Ed, Ef.
  pose proof (alen_nonneg x.2). pose proof (alen_nonneg (mjoin (snd <$> r))).
  rewrite swrap_small by (unfold in_s, fmap in *; lia). destruct r as [|y r]; [cbn; rewrite !alen_nil; cbn; lia|].
  rewrite (proj2 (Z.eqb_neq _ _)) by (rewrite alen_cons; pose proof (alen_nonneg r); lia).
  rewrite (IH q) by (done || unfold fmap in *; lia). unfold fmap. lia.
Qed.

Lemma merge_fragments_ok fs q X cap copied acc k :
  Forall seg_fit q -> payload <$> q = fs ++ X -> fs <> [] -> counts_down fs ->
  0 <= acc -> acc + alen (mjoin (snd <$> fs)) < 2 ^ 31 -> alen copied + alen (mjoin (snd <$> fs)) <= cap ->
  nrcv_que k = alen q -> alen q < 2 ^ 31 ->
  wpd (merge_fragments q (Some cap) false copied acc) (fun r k' =>
    r = (copied ++ mjoin (snd <$> fs), acc + alen (mjoin (snd <$> fs))) /\
    exists qa q', q = qa ++ q' /\ payload <$> qa = fs /\ k' = k <| rcv_queue := q' |> <| nrcv_que := alen q' |>) k.
Proof.
  revert q copied acc k. induction fs as [|x r IH]; intros q copied acc k Hq E Hne Hc Ha Hl Hcap Nq Hq31; [done|].
  destruct q as [|s q]; [done|]. apply Forall_cons in Hq as [[F1 F2] Hq]. cbn in E. injection E as E1 E2.
  destruct Hc as [Hx Hc]. cbn [fmap list_fmap] in *. rewrite mjoin_cons, alen_app in *. cbn [merge_fragments].
  assert (frg s = alen r /\ data s = x.2) as [Ef Ed] by (by subst x). rewrite F1, Ed, Ef.
  pose proof (alen_nonneg x.2). pose proof (alen_nonneg (mjoin (snd <$> r))). pose proof (alen_nonneg q).
  rewrite alen_cons in Nq, Hq31. unfold fmap in *.
  wp_step. wp_step. eapply wp_deref; [by apply slice_all|]. wp_step. wp_step; [lia|]. wp_step.
  rewrite swrap_small by (unfold in_s; lia). wp_step. apply wp_when; [intros _; wp_step|done].
  rewrite Nq, uwrap_small by lia. replace (alen q + 1 - 1) with (alen q) by lia.
  destruct r as [|y r].
  - rewrite alen_nil. cbn [Z.eqb]. wp_step. cbn. rewrite !app_nil_r, alen_nil. split; [f_equal; lia|].
    exists [s], q. cbn. rewrite E1. done.
  - rewrite (proj2 (Z.eqb_neq _ _)) by (rewrite alen_cons; pose proof (alen_nonneg r); lia).
    eapply wp_mono; [apply IH; try done; rewrite ?alen_app; lia|]. intros res k' (-> & qa & q' & -> & Eq & ->). split.
    + rewrite <- app_assoc. f_equal. lia.
    + exists (s :: qa), q'. cbn. rewrite E1. split_and!; [done|by f_equal|done].
Qed.

(** The size of the next message, when all of it is in the queue. *)
Lemma ikcp_peeksize_ok k fs q' X m :
  Forall seg_fit (rcv_queue k) -> nrcv_que k = alen (rcv_queue k) -> alen (rcv_queue k) < 2 ^ 31 -> frags_of m fs ->
  rcv_queue k <> [] -> (payload <$> rcv_queue k) ++ X = fs ++ q' ->
  (ikcp_peeksize k = -1 /\ alen (rcv_queue k) < alen fs) \/
  (ikcp_peeksize k = alen m /\ exists Y, payload <$> rcv_queue k = fs ++ Y).
Proof.
  intros Hq Nq Hq31 (Hne & Hc & Hm & Hlen) Hn E. unfold ikcp_peeksize.
  assert (alen (payload <$> rcv_queue k) = alen (rcv_queue k)) as El by (by rewrite !alen_length, length_fmap).
  destruct (decide (alen fs <= alen (rcv_queue k))) as [Hle|Hgt].
  - right. destruct (app_prefix_of _ _ _ _ E ltac:(by rewrite El)) as [Ht _].
    assert (payload <$> rcv_queue k = fs ++ drop (Z.to_nat (alen fs)) (payload <$> rcv_queue k)) as Ep
      by (rewrite <- Ht at 1; by rewrite take_drop).
    split; [|eauto]. assert (peek_length (rcv_queue k) 0 = alen m) as Epk.
    { rewrite <- Hm. apply (peek_length_ok fs _ _ 0 Hq Ep); [done|done|lia|by rewrite Hm]. }
    destruct (rcv_queue k) as [|s q] eqn:Eq; [done|]. apply Forall_cons in Hq as [[F1 F2] _].
    destruct fs as [|x r]; [done|]. destruct Hc as [Hx Hc]. cbn in Ep. injection Ep as Ex _.
    assert (frg s = alen r) as Ef by (by rewrite <- Ex in Hx). pose proof (alen_nonneg r). rewrite alen_cons in Hle.
    destruct (Z.eqb_spec (frg s) 0) as [E0|]; [cbn [peek_length] in Epk; by rewrite E0 in Epk|].
    rewrite uwrap_small by lia. rewrite (proj2 (Z.ltb_ge _ _)) by lia. exact Epk.
  - left. split; [|lia]. destruct (rcv_queue k) as [|s q] eqn:Eq; [done|]. destruct fs as [|x r]; [done|].
    destruct Hc as [Hx Hc]. cbn in E. injection E as Ex _.
    assert (frg s = alen r) as Ef by (by rewrite <- Ex in Hx). pose proof (alen_nonneg q). rewrite !alen_cons in *.
    apply Forall_cons in Hq as [[_ F2] _].
    rewrite (proj2 (Z.eqb_neq _ _)), uwrap_small by lia. by rewrite (proj2 (Z.ltb_lt _ _)) by lia.
Qed.

(** Receiving gives the next message, once all its fragments are in the queue, or nothing. *)
Lemma ikcp_recv_ok n cap k H Q P C B X D ms :
  endpoint_ok k H Q P C B -> 0 <= n <= cap -> (payload <$> rcv_queue k) ++ X = D -> framed D ms ->
  wpd (ikcp_recv (Some cap) n) (fun r k' => (r.1 < 0 /\ k' = k) \/
    exists m ms' fs D', ms = m :: ms' /\ D = fs ++ D' /\ frags_of m fs /\ framed D' ms' /\ r = (alen m, m) /\
      endpoint_ok k' H Q P (C ++ fs) B /\ evolves (fun _ => False) k k') k.
Proof.
  intros (S & R & A & T) Hn ED HF. unfold ikcp_recv. wp_step. wp_step.
  pose proof R as (HP & Hnx & HC & Hq & _ & _ & _ & Nq).
  assert (alen C + alen (rcv_queue k) = rcv_nxt k) as Elen.
  { apply (f_equal alen) in HC. rewrite alen_app, alen_take in HC by lia. rewrite <- HC. f_equal.
    by rewrite !alen_length, length_fmap. }
  pose proof (alen_nonneg C). destruct (decide (rcv_queue k = [])) as [En|Hne]; [rewrite En; wp_step; left; done|].
  destruct ms as [|m ms]; cbn in HF; [destruct (rcv_queue k); subst; done|]. destruct HF as (fs & D' & -> & Hf & HF).
  pose proof (ikcp_peeksize_ok k fs D' X m Hq Nq ltac:(lia) Hf Hne ED) as Hp.
  destruct (rcv_queue k) as [|s0 q0] eqn:Eq; [done|]. rewrite <- Eq in *.
  rewrite (proj2 (Z.ltb_ge n 0)) by lia. wp_step. wp_step.
  destruct Hp as [[-> _]|[-> (Y & Ep)]]; [change (-1 <? 0) with true; cbv iota; wp_step; left; done|]. pose proof (alen_nonneg m).
  rewrite (proj2 (Z.ltb_ge (alen m) 0)) by lia. destruct (Z.ltb_spec n (alen m)); [wp_step; left; done|].
  wp_step. destruct Hf as (Hf1 & Hf2 & Hf3 & Hf4).
  eapply wp_mono; [apply (merge_fragments_ok fs _ Y); try done; rewrite ?alen_nil, ?Hf3; lia|].
  intros res k1 (-> & qa & q' & Eqa & Efs & Ek1). cbn [app]. rewrite Hf3, Z.add_0_l. wp_step. wp_step; [lia|].
  assert (receiver_ok k1 P (C ++ fs) /\ acks_for k1 B (received k) /\ receives_only k k1) as (R1 & A1 & O1).
  { rewrite Ek1. split_and!; [|done|done]. destruct R as (? & ? & _ & _ & Hb & Hs & Nb & _). rewrite Eqa in HC, Hq.
    apply Forall_app in Hq as [_ Hq']. repeat (split; [done|]). split; [|done]. cbn.
    rewrite <- HC, fmap_app, Efs. by rewrite app_assoc. }
  wp_step. wp_step. destruct (rcv_move_ok (rcv_buf k1) k1 P (C ++ fs) B _ eq_refl R1 A1) as (R2 & A2 & V2 & O2).
  assert (advances k k1) as V1 by (rewrite Ek1; by apply advances_same).
  set (k2 := rcv_move _ _) in *. wp_step. wp_step. wp_step. right. exists m, ms, fs, D'.
  assert (advances k k2) as V by (by eapply advances_trans).
  assert (receives_only k k2) as O by (by eapply receives_only_trans).
  assert (endpoint_ok k2 H Q P (C ++ fs) B) as K2.
  { destruct O as (O3 & O4 & _). split_and!; [by apply O3|done| |by apply O4].
    apply (acks_for_mono k2 _ _ (received k)); [done..|apply V|done]. }
  split_and!; try done; destruct (_ && _); first [exact K2|by apply receives_only_evolves].
Qed.

(** ** Sending *)

Lemma counts_down_index fs : (forall j x, aget fs j = Some x -> x.1 = alen fs - j - 1) -> counts_down fs.
Proof.
  induction fs as [|x r IH]; intros Hi; cbn; [done|]. rewrite alen_cons in Hi. split.
  - rewrite (Hi 0 x) by done. lia.
  - apply IH. intros j y Hy. pose proof (aget_Some_range _ _ _ Hy) as [? ?].
    rewrite (Hi (j + 1) y) by (by rewrite aget_cons by lia). lia.
Qed.

Section sending.
Context (k : IKCPCB) (m : bytes) (count : Z).
Hypothesis Hmss : 0 < mss k < 2 ^ 31.
Hypothesis Hstream : stream k = 0.
Hypothesis Hcount : 1 <= count <= 255 /\ alen m <= count * mss k.
Hypothesis Hlen : alen m < 2 ^ 31.
Hypothesis Hque : 0 <= nsnd_que k < 2 ^ 31.

(** After [i] rounds [segs] are in the queue and [buf] is left. *)
Definition cut (i : Z) (segs : list IKCPSEG) (buf : bytes) (k' : IKCPCB) : Prop :=
  k' = k <| snd_queue := snd_queue k ++ segs |> <| nsnd_que := nsnd_que k + i |> /\ alen segs = i /\
  mjoin (data <$> segs) ++ buf = m /\ alen buf <= (count - i) * mss k /\
  Forall (fun s => seg_fit s /\ len s <= mss k) segs /\
  (forall j s, aget segs j = Some s -> frg s = count - j - 1).

Lemma send_fragment_ok i segs buf k' :
  cut i segs buf k' -> 0 <= i < count ->
  wpd (send_fragment count i buf (alen buf)) (fun r k'' => exists s buf', r = (buf', alen buf') /\ cut (i + 1) (segs ++ [s]) buf' k'') k'.
Proof.
  intros (Ek & Hi & Hm & Hb & Hf & Hg) Hlt. unfold send_fragment. wp_step. wp_step.
  assert (mss k' = mss k /\ stream k' = 0 /\ snd_queue k' = snd_queue k ++ segs /\ nsnd_que k' = nsnd_que k + i)
    as (E1 & E2 & E3 & E4) by (by rewrite Ek).
  pose proof (alen_nonneg buf). assert (alen buf <= alen m) by (rewrite <- Hm, alen_app; pose proof (alen_nonneg (mjoin (data <$> segs))); lia).
  rewrite E1, E2, E3, E4, (swrap_small 32) by (unfold in_s; lia). cbn [Z.eqb].
  set (size := if mss k <? alen buf then mss k else alen buf).
  assert (0 <= size <= alen buf /\ size <= mss k /\ alen buf - size <= (count - (i + 1)) * mss k) as Hsize
    by (subst size; zcase; nia).
  wp_step.
  assert (wpd (if 0 <? alen buf then deref OutOfBounds (slice buf 0 size) else mret [])
    (fun d k'' => k'' = k' /\ d = take (Z.to_nat size) buf) k') as Wd.
  { destruct (Z.ltb_spec 0 (alen buf)).
    - eapply wp_deref; [apply slice_take; lia|done].
    - wp_step. split; [done|]. assert (buf = []) as -> by (apply alen_0; lia). by rewrite take_nil. }
  eapply wp_mono; [exact Wd|]. intros d k1 [-> ->]. wp_step. wp_step. wp_step.
  exists (fresh_segment (count - i - 1) size (take (Z.to_nat size) buf)), (drop (Z.to_nat size) buf).
  rewrite alen_drop, uwrap_small by lia. split; [done|]. split_and!.
  - by rewrite Ek, <- app_assoc, Z.add_assoc.
  - rewrite alen_snoc. lia.
  - rewrite fmap_app. change (data <$> [_]) with [take (Z.to_nat size) buf]. by rewrite mjoin_snoc, <- app_assoc, take_drop.
  - rewrite alen_drop; lia.
  - apply Forall_app. split; [done|]. apply Forall_singleton. unfold seg_fit. cbn. rewrite alen_take by lia. lia.
  - intros j s [Hj|[-> ->]]%aget_snoc; [by apply Hg|]. cbn. lia.
Qed.

Lemma send_fragments_ok :
  wpd (send_fragments count m (alen m)) (fun _ k' => exists segs, cut count segs [] k') k.
Proof.
  unfold send_fragments.
  apply (wp_loop (fun '(i, buf, length) k' => 0 <= i <= count /\ length = alen buf /\ exists segs, cut i segs buf k')
           (fun '(i, _, _) _ => Z.to_nat (count - i))).
  - intros [[i buf] length] k' (Hi & -> & segs & Hc). destruct (Z.ltb_spec i count).
    + wp_step. eapply wp_mono; [apply send_fragment_ok; [done|lia]|]. intros r k1 (s & buf' & -> & Hc').
      wp_step. split; [|lia]. split_and!; [lia..|done|]. eauto.
    + wp_step. assert (i = count) as -> by lia. destruct Hc as (? & ? & ? & Hb & ?).
      assert (buf = []) as -> by (apply alen_0; pose proof (alen_nonneg buf); lia). exists segs. split_and!; tauto.
  - split_and!; [lia..|done|]. exists []. unfold cut. rewrite app_nil_r, Z.add_0_r, Z.sub_0_r. repeat split; [by destruct k|lia|done|].
    intros j s Hj. by apply aget_elem_of, not_elem_of_nil in Hj.
  - lia.
Qed.

End sending.

(** A message is queued as its fragments, or refused when there are more than 255. *)
Lemma ikcp_send_ok m k H Q P C B :
  endpoint_ok k H Q P C B -> alen m < 2 ^ 31 -> alen H + alen Q + 255 < 2 ^ 31 ->
  wpd (ikcp_send m (alen m)) (fun r k' => exists fs, endpoint_ok k' H (Q ++ fs) P C B /\ alen fs <= 255 /\
    evolves (fun _ => False) k k' /\ (r = 0 /\ frags_of m fs \/ r < 0 /\ fs = [])) k.
Proof.
  intros K Hm Hb. pose proof K as (S & R & A & T). destruct T as (T1 & T2 & _ & _ & _ & T6 & _).
  unfold ikcp_send. wp_step. wp_step. wp_step. wp_step; [lia|]. pose proof (alen_nonneg m).
  rewrite (proj2 (Z.ltb_ge (alen m) 0)) by lia. rewrite T6. cbn [Z.eqb negb andb]. wp_step. wp_step.
  rewrite (swrap_small 32 (mss k)) by (unfold in_s; lia).
  set (count := if alen m <=? mss k then 1 else _).
  assert (1 <= count /\ (count <= 255 -> alen m <= count * mss k)) as [Hc1 Hc2].
  { subst count. destruct (Z.leb_spec (alen m) (mss k)); [lia|]. rewrite (uwrap_small 32) by lia.
    assert ((alen m + mss k - 1) / mss k <= alen m + mss k - 1) by (apply Z.div_le_upper_bound; nia).
    assert (1 <= (alen m + mss k - 1) / mss k) by (apply Z.div_le_lower_bound; lia).
    pose proof (Z.mul_div_le (alen m + mss k - 1) (mss k) ltac:(lia)).
    pose proof (Z.mul_succ_div_gt (alen m + mss k - 1) (mss k) ltac:(lia)).
    destruct (decide ((alen m + mss k - 1) / mss k < 2 ^ 31)); [rewrite swrap_small by (unfold in_s; lia); nia|].
    exfalso. assert ((alen m + mss k - 1) / mss k <= (alen m + mss k - 1) / 26) by (apply Z.div_le_compat_l; lia). dlia. }
  destruct (Z.ltb_spec 255 count).
  { wp_step. exists []. rewrite app_nil_r, alen_nil. split_and!; [done|lia|apply evolves_refl|by right]. }
  rewrite (proj2 (Z.eqb_neq count 0)) by lia. pose proof S as (S1 & S2 & S3 & S4 & S5 & S6 & S7 & S8).
  assert (alen (snd_queue k) = alen Q) as Eq by (rewrite <- S3, !alen_length, length_fmap; done).
  pose proof (alen_nonneg H). pose proof (alen_nonneg Q).
  wp_step. eapply wp_mono; [apply (send_fragments_ok k m count); lia|].
  intros [] k' (segs & Ek & Hl & Hj & _ & Hfit & Hfrg). rewrite app_nil_r in Hj. wp_step.
  exists (payload <$> segs). assert (alen (payload <$> segs) = count) as El by (rewrite <- Hl, !alen_length, length_fmap; done).
  split_and!; [|by rewrite El| |left; split; [done|]].
  - rewrite Ek. split_and!; [|exact R|exact A|apply K]. split; [done|]. split; [rewrite alen_app; lia|]. split_and!.
    + cbn. by rewrite fmap_app, S3.
    + apply Forall_app. done.
    + done.
    + done.
    + done.
    + cbn. rewrite alen_app. lia.
  - rewrite Ek. split_and!; [by apply advances_same|done|]. cbn. eauto.
  - split_and!; [|apply counts_down_index| |done].
    + intros E. rewrite E, alen_nil in El. lia.
    + intros j x Hx. rewrite El. pose proof (aget_Some_range _ _ _ Hx) as [? ?]. rewrite aget_lookup, list_lookup_fmap in Hx by lia.
      destruct (segs !! Z.to_nat j) as [s|] eqn:Es; [|done]. injection Hx as <-. cbn. apply Hfrg. by rewrite aget_lookup by lia.
    + rewrite <- Hj. f_equal. rewrite <- list_fmap_compose. done.
Qed.

(** ** Flushing *)

Lemma received_range k P C n : receiver_ok k P C -> received k n -> 0 <= n < alen P.
Proof.
  intros (_ & Hn & _ & _ & Hb & _) [?|(s & Hs & <-)]; [lia|].
  destruct (proj1 (Forall_forall _ _) Hb s Hs) as (_ & Hg & _). by apply aget_Some_range in Hg.
Qed.

Lemma item_ok_more cv P P' (G G' : Z -> Prop) nxt nxt' s :
  (forall n x, aget P n = Some x -> aget P' n = Some x) -> (forall n, G n -> G' n) -> nxt <= nxt' ->
  item_ok cv P G nxt s -> item_ok cv P' G' nxt' s.
Proof.
  intros HP HG Hn (I1 & I2 & I3 & I4 & I5 & I6). split_and!; try done; [lia..|].
  destruct I6 as [[? ?]|[[? ?]|?]]; eauto.
Qed.

Lemma datagram_ok_more cv P P' (G G' : Z -> Prop) nxt nxt' d :
  (forall n x, aget P n = Some x -> aget P' n = Some x) -> (forall n, G n -> G' n) -> nxt <= nxt' ->
  datagram_ok cv P G nxt d -> datagram_ok cv P' G' nxt' d.
Proof.
  intros HP HG Hn (Hd & items & E & Hi). split; [done|]. exists items. split; [done|].
  apply (Forall_impl _ _ _ Hi). intros s. by apply item_ok_more.
Qed.

Lemma datagram_nil cv P G nxt : datagram_ok cv P G nxt [].
Proof. split; [rewrite alen_nil; lia|]. by exists []. Qed.

(** A segment at the end of a datagram. *)
Lemma datagram_snoc cv P G nxt out s :
  datagram_ok cv P G nxt out -> item_ok cv P G nxt s -> alen out + alen (wire_seg s) <= 4096 ->
  datagram_ok cv P G nxt (out ++ wire_seg s).
Proof.
  intros (_ & items & -> & Hi) Hs Hl. split; [by rewrite alen_app|]. exists (items ++ [s]). split.
  - rewrite fmap_app. change (wire_seg <$> [s]) with [wire_seg s]. by rewrite mjoin_snoc.
  - apply Forall_app. split; [done|]. by apply Forall_singleton.
Qed.

Section flushing.
Context (cv : Z) (P : list (Z * bytes)) (G : Z -> Prop) (nxt : Z) (old : list bytes).

(** [out] is in the buffer, and what was output since [old] are datagrams of the endpoint. *)
Definition emitting (k : IKCPCB) (out : bytes) : Prop :=
  alen out <= mtu k /\ datagram_ok cv P G nxt out /\
  exists ds, outs k = old ++ ds /\ Forall (datagram_ok cv P G nxt) ds.

Lemma ikcp_output_ok k out :
  clock_ok k -> emitting k out -> wpd (ikcp_output out) (fun _ k' => emitting k' [] /\ exists o, k' = k <| outs := o |>) k.
Proof.
  intros (T1 & _ & _ & _ & T5 & _) (E1 & E2 & ds & E3 & E4). unfold ikcp_output. wp_step. wp_step. wp_step.
  wp_step; [done|]. unfold emitting. rewrite alen_nil. apply wp_when; intros _; [wp_step|].
  - split; [|eauto]. split; [cbn; lia|]. split; [apply datagram_nil|]. exists (ds ++ [out]). cbn. rewrite E3, app_assoc.
    split; [done|]. apply Forall_app. split; [done|by apply Forall_singleton].
  - split; [|exists (outs k); by destruct k]. split; [lia|]. split; [apply datagram_nil|]. eauto.
Qed.

Lemma make_room_ok k out need :
  clock_ok k -> emitting k out -> 0 <= need <= mtu k ->
  wpd (make_room need out) (fun out' k' => emitting k' out' /\ alen out' + need <= mtu k /\ exists o, k' = k <| outs := o |>) k.
Proof.
  intros T E Hn. pose proof T as (T1 & _). pose proof E as (E1 & _). pose proof (alen_nonneg out). unfold make_room.
  wp_step. wp_step. wp_step. apply wp_c_int; [lia|]. rewrite (swrap_small 32) by (unfold in_s; lia).
  destruct (Z.ltb_spec (mtu k) (alen out + need)).
  - wp_step. eapply wp_mono; [by apply ikcp_output_ok|]. intros [] k' [E' Hk]. wp_step. rewrite alen_nil. split_and!; [done|lia|done].
  - wp_step. split_and!; [done|lia|]. exists (outs k). by destruct k.
Qed.

Lemma append_out_ok k d out Q : alen out + alen d <= buffer k -> Q (out ++ d) k -> wpd (append_out d out) Q k.
Proof. intros Hb HQ. unfold append_out. wp_step. wp_step. wp_step. wp_step; [lia|]. by wp_step. Qed.

Lemma emitting_snoc k out s :
  clock_ok k -> emitting k out -> item_ok cv P G nxt s -> alen out + alen (wire_seg s) <= mtu k -> emitting k (out ++ wire_seg s).
Proof.
  intros (T1 & _) (E1 & E2 & E3) Hs Hl. split; [by rewrite alen_app|]. split; [|done]. apply datagram_snoc; [done..|lia].
Qed.

(** A segment without data. *)
Lemma flush_control_ok k s out :
  clock_ok k -> emitting k out -> item_ok cv P G nxt s -> data s = [] ->
  wpd (flush_control s out) (fun out' k' => emitting k' out' /\ exists o, k' = k <| outs := o |>) k.
Proof.
  intros T E Hs Hd. unfold flush_control. wp_step. pose proof T as (T1 & _ & T3 & _).
  assert (ikcp_encode_seg s = wire_seg s) as Ew by (unfold wire_seg; by rewrite Hd, app_nil_r).
  pose proof (alen_wire_seg s) as Es. rewrite Hd, alen_nil in Es.
  eapply wp_mono; [apply make_room_ok; [done..|unfold IKCP_OVERHEAD; lia]|]. intros out' k' (E' & Hl & o & ->).
  unfold IKCP_OVERHEAD in Hl. rewrite Ew. apply append_out_ok; [cbn; lia|]. split; [|eauto]. apply emitting_snoc; [done..|cbn; lia].
Qed.

(** The segment that acknowledgements and window commands are written from. *)
Definition control_ok (s : IKCPSEG) : Prop :=
  s_conv s = cv /\ seg_fit s /\ data s = [] /\ is_time (ts s) /\ 0 <= una s <= nxt /\ 0 <= sn s < 2 ^ 31.

Lemma flush_acks_ok k s B C Pe :
  clock_ok k -> emitting k [] -> control_ok s -> cmd s = IKCP_CMD_ACK -> acks_for k B (received k) ->
  receiver_ok k Pe C -> (forall n, received k n -> G n) ->
  wpd (flush_acks s (s32 (ackcount k)))
    (fun r k' => emitting k' r.2 /\ control_ok r.1 /\ exists o, k' = k <| outs := o |>) k.
Proof.
  intros T E Hs Hc (A1 & A2 & A3 & A4 & A5) R HG. unfold flush_acks. rewrite (swrap_small 32) by (unfold in_s; lia).
  apply (wp_loop (fun '(i, s, out) k' => 0 <= i /\ emitting k' out /\ control_ok s /\ cmd s = IKCP_CMD_ACK /\ exists o, k' = k <| outs := o |>)
           (fun '(i, _, _) _ => Z.to_nat (ackcount k - i))); [| |lia].
  2:{ split_and!; [lia|done..|]. exists (outs k). by destruct k. }
  intros [[i s'] out] k' (Hi & E' & Hs' & Hc' & o & Ek). assert (clock_ok k') as T' by (by rewrite Ek).
  pose proof T' as (T1 & _ & T3 & _).
  destruct (Z.ltb_spec i (ackcount k)) as [Hlt|]; [|wp_step; by eauto]. wp_step.
  eapply wp_mono; [apply make_room_ok; [done..|unfold IKCP_OVERHEAD; lia]|]. intros out' k1 (E1 & Hl & o' & Ek1).
  unfold IKCP_OVERHEAD in Hl. destruct (A5 i ltac:(lia)) as (n & t & Hn & Ht & Tt & Rn).
  assert (acklist k1 = acklist k) as El by (by rewrite Ek1, Ek).
  wp_step. unfold ikcp_ack_get. wp_step. wp_step. wp_step. eapply wp_deref; [rewrite El; exact Hn|].
  wp_step. eapply wp_deref; [rewrite El; exact Ht|]. wp_step. wp_step.
  set (s1 := s' <| sn := n |> <| ts := t |>). destruct Hs' as (C1 & C2 & C3 & C4 & C5 & C6).
  assert (control_ok s1) as Hs1.
  { split_and!; try done. all: pose proof (received_range _ _ _ _ R Rn); destruct R as (? & _); cbn; lia. }
  assert (item_ok cv P G nxt s1) as I1.
  { destruct Hs1 as (? & ? & ? & ? & ? & ?). split_and!; try done; [lia..|]. right. left. split; [done|]. by apply HG. }
  pose proof (alen_wire_seg s1) as Es. assert (data s1 = []) as Ed by apply Hs1. rewrite Ed, alen_nil in Es.
  assert (ikcp_encode_seg s1 = wire_seg s1) as -> by (unfold wire_seg; by rewrite Ed, app_nil_r).
  assert (mtu k1 = mtu k' /\ buffer k1 = buffer k' /\ clock_ok k1) as (M1 & M2 & T1') by (by rewrite Ek1).
  apply append_out_ok; [lia|]. wp_step. split; [|lia]. split_and!; [lia| |done|done|].
  - apply emitting_snoc; [done..|lia].
  - exists o'. by rewrite Ek1, Ek.
Qed.

Lemma flush_command_ok k bit c s out :
  clock_ok k -> emitting k out -> control_ok s -> c = IKCP_CMD_WASK \/ c = IKCP_CMD_WINS ->
  wpd (flush_command bit c s out) (fun r k' => emitting k' r.2 /\ control_ok r.1 /\ exists o, k' = k <| outs := o |>) k.
Proof.
  intros T E Hs Hc. unfold flush_command. wp_step. wp_step. destruct (_ =? 0).
  { wp_step. split_and!; [done|done|]. exists (outs k). by destruct k. }
  wp_step. eapply wp_mono; [apply flush_control_ok; [done|done| |apply Hs]|].
  - destruct Hs as (? & ? & ? & ? & ? & ?). split_and!; try done; [cbn; lia..|]. right. right. done.
  - intros out' k' [E' Hk]. wp_step. split_and!; done.
Qed.

End flushing.

(** Numbering what waits: a prefix [e] of the queue joins the history. *)
Lemma snd_move_ok q cur cw w k H Q P C B :
  q = snd_queue k -> endpoint_ok k H Q P C B ->
  let k' := snd_move q cur cw w k in exists e Q', Q = e ++ Q' /\ endpoint_ok k' (H ++ e) Q' P C B /\
    rcv_nxt k' = rcv_nxt k /\ rcv_buf k' = rcv_buf k /\ conv k' = conv k /\ outs k' = outs k /\ mtu k' = mtu k /\
    (forall s, s ∈ snd_buf k -> s ∈ snd_buf k') /\
    (forall n, alen H <= n < alen (H ++ e) -> exists s, s ∈ snd_buf k' /\ sn s = n).
Proof.
  revert k H Q. induction q as [|s q IH]; intros k H Q E K; cbn [snd_move].
  1: destruct (_ <? 0); exists [], Q; rewrite app_nil_r; split_and!; try done; intros; lia.
  destruct (_ <? 0); [|exists [], Q; rewrite app_nil_r; split_and!; try done; intros; lia].
  set (s1 := s <| s_conv := _ |> <| cmd := _ |> <| wnd := _ |> <| ts := _ |> <| sn := _ |> <| una := _ |>
               <| resendts := _ |> <| rto := _ |> <| fastack := _ |> <| s_xmit := _ |>).
  set (k1 := k <| snd_queue := _ |> <| snd_buf := _ |> <| nsnd_que := _ |> <| nsnd_buf := _ |> <| snd_nxt := _ |>).
  destruct K as (S & R & A & T). pose proof (snd_buf_length H Q k S) as Hbl.
  pose proof (fun x => snd_buf_range H Q k x S) as Hbr. pose proof (alen_nonneg (snd_buf k)).
  destruct S as (S1 & S2 & S3 & S4 & S5 & S6 & S7 & S8). rewrite <- E in S3, S4, S8. destruct Q as [|x Q]; [done|].
  cbn in S3. injection S3 as Ex EQ. apply Forall_cons in S4 as [[F L] S4]. rewrite !alen_cons in *.
  pose proof (alen_nonneg q). pose proof (alen_nonneg Q). assert (alen q = alen Q) as Eql by (rewrite <- EQ, !alen_length, length_fmap; done).
  destruct (IH k1 (H ++ [x]) Q) as (e & Q' & -> & K' & E1 & E2 & E3 & E4 & Em & E5 & E6); [done| |].
  - split_and!; [|exact R|exact A|exact T]. split_and!.
    + cbn. rewrite S1, alen_snoc. apply uwrap_small. lia.
    + rewrite alen_snoc. lia.
    + done.
    + done.
    + apply Forall_app. split.
      * apply (Forall_impl _ _ _ S5). intros y (? & ? & Hg & ? & ?). split_and!; try done.
        pose proof (aget_Some_range _ _ _ Hg) as [? ?]. by rewrite aget_app_l.
      * apply Forall_singleton. split_and!; try done. cbn. rewrite S1. apply aget_snoc. right. by rewrite <- Ex.
    + apply ascending_snoc. split; [done|]. intros y Hy. apply Hbr. done.
    + cbn. rewrite alen_snoc, S7. apply uwrap_small. lia.
    + cbn. rewrite S8. rewrite uwrap_small; lia.
  - exists (x :: e), Q'. rewrite <- app_assoc in K', E6. split_and!; try done.
    + intros y Hy. apply E5. cbn. set_solver.
    + intros n Hn. destruct (decide (n = alen H)) as [->|].
      * exists s1. split; [|done]. apply E5. cbn. set_solver.
      * apply E6. rewrite alen_snoc. cbn in *. lia.
Qed.

Section resending.
Context (cv : Z) (P : list (Z * bytes)) (G : Z -> Prop) (nxt : Z) (old : list bytes) (cur resent rtomin w : Z).
Hypothesis Hcur : is_time cur.
Hypothesis Hnxt : 0 <= nxt.
Abbreviation emits_ k out := (emitting cv P G nxt old k out).

Lemma need_send_ok k s change lost :
  let '(_, s', k', _, _) := need_send cur resent rtomin k s change lost in
  same_core s' s /\ data s' = data s /\ exists x, k' = k <| xmit := x |>.
Proof.
  assert (exists x, k = k <| xmit := x |>) as Hk by (exists (xmit k); by destruct k).
  unfold need_send. repeat case_match; simplify_eq; (split; [done|]; split; [done|]; first [exact Hk|eauto]).
Qed.

(** A segment of the send buffer goes out, or not. *)
Lemma flush_segment_ok k s out change lost :
  clock_ok k -> emits_ k out -> rcv_nxt k = nxt -> alen P < 2 ^ 31 ->
  seg_fit s /\ len s <= mss k /\ aget P (sn s) = Some (payload s) /\ s_conv s = cv /\ cmd s = IKCP_CMD_PUSH ->
  wpd (flush_segment cur resent rtomin w s out change lost) (fun r k' => same_core r.1.1.1 s /\ emits_ k' r.1.1.2 /\
    exists x st o, k' = k <| xmit := x |> <| state := st |> <| outs := o |>) k.
Proof.
  intros T E En HP ([F1 F2] & Hl & Hg & Hcv & Hcmd). unfold flush_segment. wp_step. wp_step.
  pose proof (need_send_ok k s change lost) as Hs.
  destruct (need_send _ _ _ _ _ _ _) as [[[[b s1] k1] ch] lo]. destruct Hs as ((C1 & C2 & C3 & C4 & C5) & Cd & x & Ek1).
  wp_step. wp_step. destruct b; [|wp_step; split_and!; [done|by rewrite Ek1|exists x, (state k), (outs k); rewrite Ek1; by destruct k]].
  assert (clock_ok k1 /\ emits_ k1 out /\ rcv_nxt k1 = nxt /\ mtu k1 = mtu k /\ buffer k1 = buffer k)
    as (T1 & E1 & N1 & M1 & M2) by (by rewrite Ek1).
  set (s2 := s1 <| ts := cur |> <| wnd := w |> <| una := rcv_nxt k1 |>).
  assert (len s2 = alen (data s2) /\ data s2 = data s) as [L2 D2] by (cbn; rewrite C3, Cd; done).
  injection C1 as C6 C7. pose proof (aget_Some_range _ _ _ Hg) as [? ?].
  assert (item_ok cv P G nxt s2) as I2.
  { split; [cbn; by rewrite C4|]. split; [split; [done|cbn; by rewrite C6]|]. split; [done|].
    split; [cbn; lia|]. split; [cbn; lia|]. left. split; [cbn; by rewrite C5|]. cbn. rewrite C2, Hg.
    unfold payload. cbn. by rewrite C6, C7. }
  pose proof (alen_nonneg (data s)). pose proof T1 as (TT1 & TT2 & TT3 & _). destruct T as (_ & T2 & _).
  assert (0 <= s32 (IKCP_OVERHEAD + len s2) <= mtu k1 /\ s32 (IKCP_OVERHEAD + len s2) = 24 + alen (data s)) as [Hn1 Hn2].
  { rewrite L2, D2. unfold IKCP_OVERHEAD. rewrite swrap_small by (unfold in_s; lia). lia. }
  wp_step. eapply wp_mono; [by apply make_room_ok|]. intros out1 k2 (E2 & Hl2 & o & Ek2). rewrite Hn2 in Hl2.
  assert (clock_ok k2 /\ mtu k2 = mtu k1 /\ buffer k2 = buffer k1) as (T2' & M3 & M4) by (by rewrite Ek2).
  assert (alen (wire_seg s2) = 24 + alen (data s)) as Ew by (by rewrite alen_wire_seg, D2).
  assert (alen (ikcp_encode_seg s2) = 24) as Eh by (unfold wire_seg in Ew; rewrite alen_app, D2 in Ew; lia).
  wp_step. apply append_out_ok; [lia|]. wp_step.
  assert (wpd (if 0 <? len s2 then d ← deref OutOfBounds (slice (data s2) 0 (len s2)); append_out d (out1 ++ ikcp_encode_seg s2)
               else mret (out1 ++ ikcp_encode_seg s2)) (fun r k' => k' = k2 /\ r = out1 ++ wire_seg s2) k2) as Wd.
  { unfold wire_seg. rewrite app_assoc. destruct (Z.ltb_spec 0 (len s2)) as [|Hle].
    - wp_step. eapply wp_deref; [by apply slice_all|]. apply append_out_ok; [|done]. rewrite alen_app, D2. lia.
    - wp_step. split; [done|]. assert (data s2 = []) as -> by (apply alen_0; rewrite D2 in *; lia). by rewrite app_nil_r. }
  eapply wp_mono; [exact Wd|]. intros out2 k3 [-> ->]. wp_step. wp_step. wp_step.
  assert (emits_ k2 (out1 ++ wire_seg s2)) as E3 by (apply emitting_snoc; [done..|lia]).
  split; [|split].
  - split_and!; cbn; try done. unfold payload. cbn. by rewrite C6, C7.
  - destruct (_ <=? _); exact E3.
  - rewrite Ek2, Ek1. destruct (_ <=? _); [by eauto|]. exists x, (state k), o. by destruct k.
Qed.

Lemma flush_data_ok l k out change lost :
  clock_ok k -> emits_ k out -> rcv_nxt k = nxt -> alen P < 2 ^ 31 ->
  Forall (fun s => seg_fit s /\ len s <= mss k /\ aget P (sn s) = Some (payload s) /\ s_conv s = cv /\ cmd s = IKCP_CMD_PUSH) l ->
  wpd (flush_data cur resent rtomin w l out change lost) (fun r k' => Forall2 same_core r.1.1.1 l /\ emits_ k' r.1.1.2 /\
    exists x st o, k' = k <| xmit := x |> <| state := st |> <| outs := o |>) k.
Proof.
  revert k out change lost. induction l as [|s l IH]; intros k out change lost T E En HP Hl; cbn [flush_data].
  { wp_step. split_and!; [constructor|done|]. exists (xmit k), (state k), (outs k). by destruct k. }
  apply Forall_cons in Hl as [Hs Hl]. wp_step. eapply wp_mono; [by apply flush_segment_ok|].
  intros [[[s' out1] ch1] lo1] k1 (Hc & E1 & x1 & st1 & o1 & Ek1). wp_step.
  eapply wp_mono; [apply (IH k1); rewrite ?Ek1; try done; by rewrite <- Ek1|].
  intros [[[l' out2] ch2] lo2] k2 (Hc2 & E2 & x2 & st2 & o2 & Ek2). wp_step.
  split_and!; [by constructor|done|]. exists x2, st2, o2. by rewrite Ek2, Ek1.
Qed.
End resending.

Lemma update_cwnd_ok k H Q P C B change lost resent cw :
  endpoint_ok k H Q P C B -> let k' := update_cwnd change lost resent cw k in
  endpoint_ok k' H Q P C B /\ advances k k' /\ outs k' = outs k /\ snd_buf k' = snd_buf k.
Proof.
  intros K. cbn zeta. unfold update_cwnd. repeat case_match; (split; [exact K|]; split_and!; [by apply advances_same|done|done]).
Qed.

Lemma probe_window_ok k H Q P C B :
  endpoint_ok k H Q P C B -> let k' := probe_window k in
  endpoint_ok k' H Q P C B /\ advances k k' /\ outs k' = outs k /\ snd_buf k' = snd_buf k /\ snd_queue k' = snd_queue k /\
  rcv_nxt k' = rcv_nxt k /\ rcv_buf k' = rcv_buf k.
Proof.
  intros K. cbn zeta. unfold probe_window. repeat case_match; (split; [exact K|]; split_and!; [by apply advances_same|done..]).
Qed.

(** A flush numbers a part [e] of what waits and outputs datagrams of the endpoint. *)
Definition flushed (k k' : IKCPCB) (H Q P C : list (Z * bytes)) (B : Z) : Prop :=
  exists e Q' ds, Q = e ++ Q' /\ endpoint_ok k' (H ++ e) Q' P C B /\ advances k k' /\
    outs k' = outs k ++ ds /\ Forall (datagram_ok (conv k) (H ++ e) (received k) (rcv_nxt k)) ds /\
    (forall s, s ∈ snd_buf k -> exists s', s' ∈ snd_buf k' /\ sn s' = sn s) /\
    (forall n, alen H <= n < alen (H ++ e) -> exists s, s ∈ snd_buf k' /\ sn s = n).

(** Fields that only input changes. *)
Definition same_state (k k' : IKCPCB) : Prop :=
  rcv_nxt k' = rcv_nxt k /\ rcv_buf k' = rcv_buf k /\ conv k' = conv k.

Lemma same_state_advances k k' : same_state k k' -> advances k k'.
Proof. intros (? & ? & ?). by apply advances_same. Qed.

Lemma flush_controls_ok k H Q P C B w :
  endpoint_ok k H Q P C B ->
  wpd (flush_controls w) (fun out k' => endpoint_ok k' H Q P C B /\
    emitting (conv k) H (received k) (rcv_nxt k) (outs k) k' out /\ same_state k k' /\ snd_buf k' = snd_buf k) k.
Proof.
  intros K. pose proof K as (S & R & A & T). unfold flush_controls. wp_step. wp_step.
  assert (Hnx : 0 <= rcv_nxt k < 2 ^ 31) by (destruct R as (? & ? & _); lia).
  wp_step. eapply wp_mono; [apply (flush_acks_ok (conv k) H (received k) (rcv_nxt k) (outs k) k _ B C P); try done|].
  { split; [rewrite alen_nil; destruct T as (? & _); lia|]. split; [apply datagram_nil|]. exists []. by rewrite app_nil_r. }
  { split_and!; try done; unfold seg_fit, is_time; cbn; rewrite ?alen_nil; lia. }
  intros [s out] k1 (E1 & C1 & o1 & Ek1). wp_step. wp_step.
  assert (endpoint_ok (k1 <| ackcount := 0 |>) H Q P C B) as K1.
  { rewrite Ek1. split_and!; [exact S|exact R| |exact T]. destruct A as (A1 & A2 & A3 & A4 & A5).
    split_and!; try done; cbn; try lia. }
  assert (same_state k (k1 <| ackcount := 0 |>) /\ snd_buf k1 = snd_buf k) as [X1 Y1] by (by rewrite Ek1).
  wp_step. wp_step. destruct (probe_window_ok _ H Q P C B K1) as (K2 & (_ & V2 & _) & O2 & B2 & _ & N2 & N3).
  set (k2 := probe_window _) in *. assert (emitting (conv k) H (received k) (rcv_nxt k) (outs k) k2 out) as E2.
  { destruct E1 as (E & E' & ds & Eo & Ed). split; [|split; [done|exists ds; by rewrite O2]]. rewrite Ek1 in E.
    replace (mtu k2) with (mtu k) by (subst k2; unfold probe_window; rewrite Ek1; repeat case_match; done). done. }
  assert (forall k', (exists o, k' = k2 <| outs := o |>) -> endpoint_ok k' H Q P C B /\ same_state k k' /\ snd_buf k' = snd_buf k) as Hk.
  { intros k' (o & ->). split; [exact K2|]. split; [|cbn; by rewrite B2]. destruct X1 as (? & ? & ?).
    unfold same_state. cbn. by rewrite N2, N3, V2. }
  wp_step. eapply wp_mono; [apply (flush_command_ok (conv k) H (received k) (rcv_nxt k) (outs k)); [apply K2|done..|by left]|].
  intros [s1 out1] k3 (E3 & C3 & Hk3). wp_step.
  eapply wp_mono; [apply (flush_command_ok (conv k) H (received k) (rcv_nxt k) (outs k)); [apply Hk; done|done..|by right]|].
  intros [s2 out2] k4 (E4 & C4 & (o4 & Ek4)). wp_step. wp_step. wp_step.
  destruct (Hk k4) as (K4 & X4 & B4); [destruct Hk3 as (o3 & ->); exists o4; by rewrite Ek4|].
  split_and!; [exact K4|exact E4|exact X4|exact B4].
Qed.

Lemma flush_pushes_ok k k0 H Q P C B w out :
  endpoint_ok k H Q P C B -> emitting (conv k0) H (received k0) (rcv_nxt k0) (outs k0) k out -> same_state k0 k ->
  snd_buf k = snd_buf k0 -> is_time (current k0) ->
  wpd (flush_pushes (current k0) w out) (fun _ k' => flushed k0 k' H Q P C B) k.
Proof.
  intros K E X Eb Hc. unfold flush_pushes. wp_step. wp_step. wp_step. wp_step.
  match goal with |- context [snd_move _ _ ?c _ _] => set (cw := c) end.
  destruct (snd_move_ok _ (current k0) cw w k H Q P C B eq_refl K) as (e & Q' & EQ & K1 & X1 & X2 & X3 & O1 & M1 & B1 & B2).
  set (k1 := snd_move _ _ _ _ _) in *. destruct X as (N1 & N2 & N3). rewrite N1 in X1. rewrite N2 in X2. rewrite N3 in X3.
  set (dok := datagram_ok (conv k0) (H ++ e) (received k0) (rcv_nxt k0)).
  assert (forall d, datagram_ok (conv k0) H (received k0) (rcv_nxt k0) d -> dok d) as Hmore.
  { intros d. apply datagram_ok_more; [|done|lia]. intros n x Hx. pose proof (aget_Some_range _ _ _ Hx) as [? ?]. by rewrite aget_app_l. }
  assert (emitting (conv k0) (H ++ e) (received k0) (rcv_nxt k0) (outs k0) k1 out) as E1.
  { destruct E as (Ea & Ed & ds & Eo & Eds). split; [by rewrite M1|]. split; [by apply Hmore|]. exists ds. rewrite O1.
    split; [done|]. by apply (Forall_impl _ _ _ Eds). }
  wp_step. wp_step. pose proof K1 as (S1 & R1 & A1 & T1). pose proof S1 as (_ & Hlim & _ & _ & Hbuf & _).
  pose proof (alen_nonneg Q'). assert (0 <= rcv_nxt k0) as Hn0 by (rewrite <- X1; apply R1).
  match goal with |- context [flush_data _ ?a ?b _ _ _ _ _] => set (resent := a); set (rtomin := b) end.
  wp_step. eapply wp_mono; [apply (flush_data_ok (conv k0) (H ++ e) (received k0) (rcv_nxt k0) (outs k0)); try done; [lia|by rewrite <- X3]|].
  intros [[[l out2] ch] lo] k2 (Hl & E2 & x & st & o & Ek2). cbn [fst snd] in Hl, E2. wp_step. wp_step.
  assert (endpoint_ok k2 (H ++ e) Q' P C B /\ snd_buf k2 = snd_buf k1) as [K2 Eb2] by (rewrite Ek2; done). rewrite <- Eb2 in Hl.
  destruct (eok_snd_buf (H ++ e) Q' P C B (fun _ => False) k2 l K2 Hl) as [K3 (_ & _ & B3)].
  set (k3 := k2 <| snd_buf := l |>) in *.
  assert (wpd (when (0 <? alen out2) (ikcp_output out2)) (fun _ k' => (exists ds, outs k' = outs k0 ++ ds /\ Forall dok ds) /\
    exists o, k' = k3 <| outs := o |>) k3) as Wo.
  { apply wp_when; intros _.
    - eapply wp_mono; [by apply (ikcp_output_ok (conv k0) (H ++ e) (received k0) (rcv_nxt k0) (outs k0)); [apply K3|]|].
      intros [] k' [(_ & _ & Hds) Hk']. done.
    - split; [apply E2|]. exists (outs k3). by destruct k3. }
  wp_step. eapply wp_mono; [exact Wo|]. intros [] k4 [(ds & Eo & Hds) (o4 & Ek4)]. wp_step.
  assert (endpoint_ok k4 (H ++ e) Q' P C B) as K4 by (rewrite Ek4; exact K3).
  destruct (update_cwnd_ok k4 _ _ _ _ _ ch lo resent cw K4) as (K5 & V5 & O5 & B5).
  exists e, Q', ds. split; [done|]. split; [exact K5|]. split_and!.
  - eapply advances_trans; [|exact V5]. apply advances_same; rewrite Ek4; cbn; rewrite Ek2; done.
  - by rewrite O5.
  - exact Hds.
  - rewrite <- Eb. intros s Hs. rewrite B5, Ek4. rewrite <- Eb2 in B1. destruct (B3 s (B1 s Hs)) as [?|[]]. done.
  - intros n Hn. rewrite B5, Ek4. destruct (B2 n Hn) as (s & Hs & <-). rewrite <- Eb2 in Hs. destruct (B3 s Hs) as [?|[]]. done.
Qed.

Lemma flushed_none k k' H Q P C B :
  endpoint_ok k' H Q P C B -> advances k k' -> outs k' = outs k -> snd_buf k' = snd_buf k -> flushed k k' H Q P C B.
Proof.
  intros K V Eo Eb. exists [], Q, []. rewrite !app_nil_r, Eb. split; [done|]. split; [done|]. split; [done|].
  split; [done|]. split; [constructor|]. split; [eauto|intros; lia].
Qed.

Lemma ikcp_flush_ok k H Q P C B :
  endpoint_ok k H Q P C B -> wpd ikcp_flush (fun _ k' => flushed k k' H Q P C B) k.
Proof.
  intros K. unfold ikcp_flush. wp_step. wp_step. destruct (updated k =? 0).
  { wp_step. apply flushed_none; [done|apply advances_refl|done|done]. }
  wp_step. eapply wp_mono; [by apply flush_controls_ok|]. intros out k1 (K1 & E1 & X1 & B1).
  apply flush_pushes_ok; [done..|apply K].
Qed.

Lemma ikcp_update_ok k H Q P C B t :
  endpoint_ok k H Q P C B -> is_time t -> wpd (ikcp_update t) (fun _ k' => flushed k k' H Q P C B) k.
Proof.
  intros K Ht. set (timed k1 := exists u f, k1 = k <| current := t |> <| updated := u |> <| ts_flush := f |>).
  assert (forall k1, timed k1 -> endpoint_ok k1 H Q P C B) as HK.
  { intros k1 (u & f & ->). destruct K as (S & R & A & T). split; [exact S|]. split; [exact R|]. split; [exact A|].
    destruct T as (T1 & T2 & T3 & T4 & T5 & T6 & _ & T7). repeat (split; [first [exact T1|done]|]). exact T7. }
  assert (forall k1 k', timed k1 -> flushed k1 k' H Q P C B -> flushed k k' H Q P C B) as HF by (by intros k1 k' (u & f & ->)).
  assert (forall k1 x, timed k1 -> timed (k1 <| ts_flush := x |>)) as Hset by (intros k1 x (u & f & ->); by exists u, x).
  unfold ikcp_update. wp_step. wp_step. wp_step. wp_step. wp_step. wp_step.
  set (k1 := if updated _ =? 0 then _ else _).
  assert (timed k1) as T1 by (subst k1; destruct (updated _ =? 0); [by exists 1, t|exists (updated k), (ts_flush k); by destruct k]).
  wp_step.
  match goal with |- context [when ?b _] => set (reset := b) end.
  assert (wpd (when reset (modify (fun k2 : IKCPCB => k2 <| ts_flush := current k2 |>))) (fun _ k2 => timed k2) k1) as Wr.
  { apply wp_when; intros _; [wp_step|done]. by apply Hset. }
  eapply wp_mono; [exact Wr|]. intros [] k2 T2. apply wp_when; intros _.
  - wp_step. wp_step. wp_step. wp_step. set (k3 := if _ <=? _ then _ else _).
    assert (timed k3) as T3 by (subst k3; destruct (0 <=? _); [apply Hset|]; by apply Hset).
    eapply wp_mono; [by apply ikcp_flush_ok, HK|]. intros [] k'. by apply HF.
  - apply (HF k2); [done|]. apply flushed_none; [by apply HK|apply advances_refl|done|done].
Qed.

(** ** Settings and creation *)

Definition harmless (k k' : IKCPCB) : Prop :=
  (forall H Q P C B, endpoint_ok k H Q P C B -> endpoint_ok k' H Q P C B) /\
  advances k k' /\ outs k' = outs k /\ snd_buf k' = snd_buf k.

Lemma harmless_trans k1 k2 k3 : harmless k1 k2 -> harmless k2 k3 -> harmless k1 k3.
Proof. intros (A1 & A2 & A3 & A4) (B1 & B2 & B3 & B4). split_and!; [auto|by eapply advances_trans|congruence..]. Qed.

Lemma ikcp_nodelay_ok k a b c d : wpd (ikcp_nodelay a b c d) (fun _ k' => harmless k k') k.
Proof.
  assert (forall k (c : bool) k', harmless k k' -> harmless k (if c then k' else k)) as Hif.
  { intros k' [] k'' Hk; [done|]. split_and!; [done|apply advances_refl|done|done]. }
  unfold ikcp_nodelay. repeat wp_step.
  repeat (eapply harmless_trans; [|apply Hif; by split_and!; [|apply advances_same|..]]).
  split_and!; [done|apply advances_refl|done|done].
Qed.

Lemma ikcp_wndsize_ok k a b : wpd (ikcp_wndsize a b) (fun _ k' => harmless k k') k.
Proof.
  unfold ikcp_wndsize. repeat wp_step. do 2 (case_match; cbn); split_and!; try done; by apply advances_same.
Qed.

Lemma ikcp_interval_ok k i : wpd (ikcp_interval i) (fun _ k' => harmless k k') k.
Proof. unfold ikcp_interval. repeat wp_step. split_and!; [done|by apply advances_same|done|done]. Qed.

(** An endpoint as the program starts it: created, given its output and its mtu. *)
Definition new_endpoint (cv m : Z) : IKCPCB := after (ikcp_setmtu m) (ikcp_setoutput (ikcp_create cv)).

Lemma new_endpoint_ok cv m :
  0 <= cv < 2 ^ 32 -> 50 <= m <= 4096 ->
  endpoint_ok (new_endpoint cv m) [] [] [] [] 0 /\ conv (new_endpoint cv m) = cv /\ outs (new_endpoint cv m) = [].
Proof.
  intros Hcv Hm. unfold new_endpoint, after, ikcp_setmtu, IKCP_OVERHEAD. destruct (_ || _) eqn:E.
  { apply orb_true_iff in E as [E|E]; apply Z.ltb_lt in E; lia. }
  split; [|done]. unfold mbind, M_bind, modify, mret, M_ret. rewrite !(uwrap_small 32) by lia.
  unfold endpoint_ok, sender_ok, receiver_ok, acks_ok, acks_for, clock_ok, is_time. cbn. rewrite !alen_nil. split_and!; try done; try lia; try constructor.
Qed.

(** ** The schedule *)

Lemma check_packets_pos l cur tm r : 0 < tm -> check_packets l cur tm = Some r -> 0 < r <= tm.
Proof.
  revert tm. induction l as [|s l IH]; intros tm Ht; cbn [check_packets]; [intros [= <-]; lia|].
  destruct (Z.leb_spec (_itimediff (resendts s) cur) 0); [done|]. intros E.
  apply IH in E; revert E; zcase; lia.
Qed.

(** C32: [ikcp_check] gives a time within one interval, and an [ikcp_update] at any earlier time only
    sets the clock, so that a program which sleeps until then misses no flush. *)
Theorem ikcp_check_schedules k cur t :
  updated k <> 0 -> 0 <= cur <= t -> t < 2 ^ 31 - 5000 -> 0 <= ts_flush k < 2 ^ 31 -> 0 < interval k <= 5000 ->
  cur <= ikcp_check k cur <= cur + interval k /\
  (t < ikcp_check k cur -> ikcp_update t k = Done tt (k <| current := t |>)).
Proof.
  intros Hu Hc Ht Hf Hi.
  assert (cur <= ikcp_check k cur <= cur + interval k /\
    (ikcp_check k cur = cur \/ cur < ts_flush k <= cur + 10000 /\ ikcp_check k cur <= ts_flush k)) as [Hr Hle].
  { unfold ikcp_check. rewrite (proj2 (Z.eqb_neq _ _)) by done. rewrite (itimediff_small cur (ts_flush k)) by lia.
    destruct (_ || _) eqn:E; [rewrite itimediff_small by lia; zcase; lia|].
    apply orb_false_iff in E as [E1%Z.leb_gt E2%Z.ltb_ge]. rewrite itimediff_small by lia.
    destruct (Z.leb_spec 0 (cur - ts_flush k)); [lia|]. rewrite (itimediff_small (ts_flush k) cur) by lia.
    destruct (check_packets (snd_buf k) cur 2147483647) as [tm|] eqn:Ec; [|lia].
    apply check_packets_pos in Ec; [|lia].
    rewrite (uwrap_small 32 (if tm <? _ then _ else _)) by (zcase; lia). rewrite (uwrap_small 32 (cur + _)) by (zcase; lia). zcase; lia. }
  split; [done|]. intros Hlt. unfold ikcp_update, mbind, M_bind, modify, get.
  change (updated (k <| current := t |>)) with (updated k). rewrite (proj2 (Z.eqb_neq _ _)) by done.
  change (current (k <| current := t |>)) with t. change (ts_flush (k <| current := t |>)) with (ts_flush k).
  rewrite itimediff_small by lia. rewrite (proj2 (Z.leb_gt 10000 _)), (proj2 (Z.ltb_ge _ _)) by lia. cbn [orb when].
  cbv zeta. rewrite (proj2 (Z.leb_gt 0 _)) by lia. done.
Qed.

Lemma ikcp_check_schedules_witness :
  let k := after (ikcp_update 0) (ikcp_setoutput (ikcp_create 5)) in
  (40 <= ikcp_check k 40 <= 40 + interval k /\ (70 < ikcp_check k 40 -> ikcp_update 70 k = Done tt (k <| current := 70 |>))) /\
  ikcp_check k 40 = 100.
Proof. intros k. split; [|by vm_compute]. apply (ikcp_check_schedules k 40 70); by vm_compute. Defined.
