(* ===== verification/IkcpNet.v ===== *)
(** * Two endpoints of KCP and the network between them

    Two endpoints of Ikcp.v run against each other over a network that keeps every
    datagram ever sent and may deliver any of them, at any time, any number of times, to
    the peer of its sender: datagrams are lost, duplicated, delayed and reordered as the
    schedule says. The theorems show that no schedule makes an endpoint fault, that the
    messages received are those sent, in order, each once, and that nothing is lost: what
    the sender has forgotten has arrived. *)

From S2P Require Import Prelude Outcome Codec Ikcp IkcpEndpoint.

#[local] Open Scope c_scope.

(** ** The system *)

(** The control block, the datagrams given to [output] so far, the messages accepted by
    [ikcp_send] and the messages returned by [ikcp_recv]. *)
Record endpoint := MkEnd { kcp : IKCPCB; wire : list bytes; sent : list bytes; got : list bytes }.

(** What the program does with an endpoint. [OpInput i] hands it datagram [i] of its peer. *)
Inductive op :=
| OpSend (m : bytes)
| OpRecv (n : Z)
| OpUpdate (t : Z)
| OpFlush
| OpInput (i : nat)
| OpNodelay (nodelay_ interval_ resend nc : Z)
| OpWndsize (sndwnd rcvwnd : Z)
| OpInterval (i : Z).

(** Run a function of ikcp.c; the datagrams it outputs go to the wire. *)
Definition run_op {A} (e : endpoint) (m : K A) (f : A -> endpoint -> endpoint) : option endpoint :=
  match m (kcp e) with
  | Done a k => Some (f a (MkEnd (k <| outs := [] |>) (wire e ++ outs k) (sent e) (got e)))
  | _ => None
  end.

Definition op_step (peer : list bytes) (o : op) (e : endpoint) : option endpoint :=
  match o with
  | OpSend m => run_op e (ikcp_send m (alen m)) (fun r e =>
      if r =? 0 then MkEnd (kcp e) (wire e) (sent e ++ [m]) (got e) else e)
  | OpRecv n => run_op e (ikcp_recv (Some n) n) (fun r e =>
      if r.1 <? 0 then e else MkEnd (kcp e) (wire e) (sent e) (got e ++ [r.2]))
  | OpUpdate t => run_op e (ikcp_update t) (fun _ e => e)
  | OpFlush => run_op e ikcp_flush (fun _ e => e)
  | OpInput i =>
      match peer !! i with
      | Some d => run_op e (ikcp_input (Some d) (alen d)) (fun _ e => e)
      | None => Some e
      end
  | OpNodelay a b c d => run_op e (ikcp_nodelay a b c d) (fun _ e => e)
  | OpWndsize a b => run_op e (ikcp_wndsize a b) (fun _ e => e)
  | OpInterval i => run_op e (ikcp_interval i) (fun _ e => e)
  end.

(** An event is an operation of the first ([true]) or of the second endpoint. *)
Definition net_step (n : endpoint * endpoint) (ev : bool * op) : option (endpoint * endpoint) :=
  let '(a, b) := n in
  if ev.1 then (fun a => (a, b)) <$> op_step (wire b) ev.2 a
  else (fun b => (a, b)) <$> op_step (wire a) ev.2 b.

Fixpoint run (evs : list (bool * op)) (n : endpoint * endpoint) : option (endpoint * endpoint) :=
  match evs with
  | [] => Some n
  | ev :: evs => match net_step n ev with Some n => run evs n | None => None end
  end.

Definition start (cv mtu_a mtu_b : Z) : endpoint * endpoint :=
  (MkEnd (new_endpoint cv mtu_a) [] [] [], MkEnd (new_endpoint cv mtu_b) [] [] []).

(** Messages and buffers have [int] lengths, the clocks show less than 2^28 milliseconds. *)
Definition op_ok (o : op) : Prop :=
  match o with
  | OpSend m => alen m < 2 ^ 31
  | OpRecv n => 0 <= n < 2 ^ 31
  | OpUpdate t => is_time t
  | _ => True
  end.

(** ** The invariant *)

(** What [x] and its link with [y] satisfy after [n] events. *)
Definition half (n : Z) (x y : endpoint) (Hx Qx Hy Cx : list (Z * bytes)) : Prop :=
  endpoint_ok (kcp x) Hx Qx Hy Cx (170 * n) /\ alen Hx + alen Qx <= 255 * n /\ outs (kcp x) = [] /\
  Forall (datagram_ok (conv (kcp x)) Hx (received (kcp x)) (rcv_nxt (kcp x))) (wire x) /\
  (forall i, 0 <= i < alen Hx -> (exists s, s ∈ snd_buf (kcp x) /\ sn s = i) \/ received (kcp y) i).

(** The messages from [x] to [y]: [ms] are on their way. *)
Definition link (x y : endpoint) (Hx Qx Cy : list (Z * bytes)) : Prop :=
  exists D ms, Hx ++ Qx = Cy ++ D /\ framed D ms /\ sent x = got y ++ ms.

Definition inv (n : Z) (x y : endpoint) : Prop :=
  exists Hx Qx Cx Hy Qy Cy, conv (kcp x) = conv (kcp y) /\ half n x y Hx Qx Hy Cx /\ half n y x Hy Qy Hx Cy /\
    link x y Hx Qx Cy /\ link y x Hy Qy Cx.

Lemma inv_sym n x y : inv n x y -> inv n y x.
Proof. intros (Hx & Qx & Cx & Hy & Qy & Cy & ? & ? & ? & ? & ?). exists Hy, Qy, Cy, Hx, Qx, Cx. by split_and!. Qed.

Lemma receiver_ok_more k P e C : receiver_ok k P C -> alen (P ++ e) < 2 ^ 31 -> receiver_ok k (P ++ e) C.
Proof.
  intros (R1 & R2 & R3 & R4 & R5 & R6) He. pose proof (alen_nonneg e). rewrite alen_app in *.
  split; [by rewrite alen_app|]. split; [rewrite alen_app; lia|]. split; [|split; [done|split; [|done]]].
  - rewrite R3. symmetry. apply take_app_le. rewrite alen_length in *. lia.
  - apply (Forall_impl _ _ _ R5). intros s (? & Hg & ?). split_and!; try done.
    pose proof (aget_Some_range _ _ _ Hg) as [? ?]. by rewrite aget_app_l.
Qed.

(** An event of [x] seen from [y]. *)
Lemma peer_moves n x x' y Hx e Qy Hy Cy :
  half n y x Hy Qy Hx Cy -> advances (kcp x) (kcp x') -> alen (Hx ++ e) < 2 ^ 31 -> 0 <= n -> 170 * (n + 1) < 2 ^ 31 ->
  half (n + 1) y x' Hy Qy (Hx ++ e) Cy.
Proof.
  intros ((S & R & A & T) & Hl & Ho & Hw & Hr) (_ & _ & V) He Hn Hn2. split_and!; [|lia|done|done|].
  - split_and!; [done|by apply receiver_ok_more|apply (acks_for_more _ (170 * n)); [lia|done]|done].
  - intros i Hi. destruct (Hr i Hi) as [?|?]; auto.
Qed.

(** ** One event

    [x] runs an operation that leads to [k'], numbers [e], keeps [Qx'] waiting, and has
    taken [Cx'] of what [y] has numbered. *)
Section moves.
Context (n : Z) (x y : endpoint) (Hx Qx Cx Hy Qy Cy : list (Z * bytes)).
Hypothesis Hn : 0 <= n /\ n + 1 <= 2 ^ 23.
Hypothesis Hcv : conv (kcp x) = conv (kcp y).
Hypothesis HX : half n x y Hx Qx Hy Cx.
Hypothesis HY : half n y x Hy Qy Hx Cy.

Lemma half_moves k' st gt e Qx' Cx' :
  endpoint_ok k' (Hx ++ e) Qx' Hy Cx' (170 * (n + 1)) -> alen (Hx ++ e) + alen Qx' <= 255 * (n + 1) ->
  advances (kcp x) k' -> Forall (datagram_ok (conv k') (Hx ++ e) (received k') (rcv_nxt k')) (outs k') ->
  (forall s, s ∈ snd_buf (kcp x) -> (exists s', s' ∈ snd_buf k' /\ sn s' = sn s) \/ received (kcp y) (sn s)) ->
  (forall i, alen Hx <= i < alen (Hx ++ e) -> exists s, s ∈ snd_buf k' /\ sn s = i) ->
  half (n + 1) (MkEnd (k' <| outs := [] |>) (wire x ++ outs k') st gt) y (Hx ++ e) Qx' Hy Cx'.
Proof.
  pose proof HX as (K & Hl & Ho & Hw & Hr). intros K' Hl' (V1 & V2 & V3) Hds Hdel Hnew.
  split; [exact K'|]. split; [done|]. split; [done|]. split.
  - apply Forall_app. split; [|exact Hds]. apply (Forall_impl _ _ _ Hw). intros d. cbn. rewrite V2.
    apply datagram_ok_more; [|done|done]. intros i p Hp. pose proof (aget_Some_range _ _ _ Hp) as [? ?]. by rewrite aget_app_l.
  - intros i Hi. destruct (decide (i < alen Hx)) as [Hlt|Hge]; [|left; apply Hnew; lia].
    destruct (Hr i ltac:(lia)) as [(s & Hs & <-)|]; [by apply Hdel|by right].
Qed.

Lemma inv_moves k' st gt e Qx' Cx' :
  endpoint_ok k' (Hx ++ e) Qx' Hy Cx' (170 * (n + 1)) -> alen (Hx ++ e) + alen Qx' <= 255 * (n + 1) ->
  advances (kcp x) k' -> Forall (datagram_ok (conv k') (Hx ++ e) (received k') (rcv_nxt k')) (outs k') ->
  (forall s, s ∈ snd_buf (kcp x) -> (exists s', s' ∈ snd_buf k' /\ sn s' = sn s) \/ received (kcp y) (sn s)) ->
  (forall i, alen Hx <= i < alen (Hx ++ e) -> exists s, s ∈ snd_buf k' /\ sn s = i) ->
  let x' := MkEnd (k' <| outs := [] |>) (wire x ++ outs k') st gt in
  link x' y (Hx ++ e) Qx' Cy -> link y x' Hy Qy Cx' -> inv (n + 1) x' y.
Proof.
  intros K' Hl V Hds Hdel Hnew x' L1 L2. exists (Hx ++ e), Qx', Cx', Hy, Qy, Cy. split_and!; [|by apply half_moves| |done|done].
  - cbn. destruct V as (_ & -> & _). done.
  - apply (peer_moves n x x'); [done|exact V| |lia|lia]. destruct K' as ((_ & ? & _) & _). pose proof (alen_nonneg Qx'). lia.
Qed.

Lemma endpoint_ok_more k H Q P C : endpoint_ok k H Q P C (170 * n) -> endpoint_ok k H Q P C (170 * (n + 1)).
Proof. intros (S & R & A & T). split_and!; [done|done|apply (acks_for_more _ (170 * n)); [lia|done]|done]. Qed.

Hypothesis Lxy : link x y Hx Qx Cy.
Hypothesis Lyx : link y x Hy Qy Cx.

(** Settings. *)
Lemma harmless_moves k' :
  harmless (kcp x) k' -> inv (n + 1) (MkEnd (k' <| outs := [] |>) (wire x ++ outs k') (sent x) (got x)) y.
Proof.
  intros (A1 & A2 & A3 & A4). pose proof HX as (K & Hl & Ho & _).
  apply (inv_moves k' (sent x) (got x) [] Qx Cx); rewrite ?app_nil_r; try done; rewrite ?A4.
  - by apply endpoint_ok_more, A1.
  - lia.
  - rewrite A3, Ho. constructor.
  - eauto.
  - intros; lia.
Qed.

(** Flushing. *)
Lemma flushed_moves k' :
  flushed (kcp x) k' Hx Qx Hy Cx (170 * n) -> inv (n + 1) (MkEnd (k' <| outs := [] |>) (wire x ++ outs k') (sent x) (got x)) y.
Proof.
  intros (e & Q' & ds & EQ & K' & V & Eo & Hds & Hdel & Hnew). pose proof HX as (K & Hl & Ho & _). rewrite Ho in Eo.
  apply (inv_moves k' (sent x) (got x) e Q' Cx); try done.
  - by apply endpoint_ok_more.
  - rewrite EQ in Hl. rewrite !alen_app in *. lia.
  - rewrite Eo. apply (Forall_impl _ _ _ Hds). intros d. destruct V as (V1 & -> & V2). by apply datagram_ok_more.
  - eauto.
  - pose proof Lxy as (D & ms & E & HD & Es). exists D, ms. by rewrite <- app_assoc, <- EQ.
Qed.

Lemma send_moves m :
  alen m < 2 ^ 31 -> exists x', op_step (wire y) (OpSend m) x = Some x' /\ inv (n + 1) x' y.
Proof.
  intros Hm. pose proof HX as (K & Hl & Ho & _).
  assert (W := ikcp_send_ok m (kcp x) Hx Qx Hy Cx (170 * n) K Hm ltac:(lia)).
  apply wpd_Done in W as (r & k' & E & fs & K' & Hfs & (V1 & V2 & V3) & Hr). cbn. unfold run_op. rewrite E.
  assert (forall st, link (MkEnd (k' <| outs := [] |>) (wire x ++ outs k') st (got x)) y Hx (Qx ++ fs) Cy ->
    inv (n + 1) (MkEnd (k' <| outs := [] |>) (wire x ++ outs k') st (got x)) y) as Hinv.
  { intros st L. apply (inv_moves k' st (got x) [] (Qx ++ fs) Cx); rewrite ?app_nil_r; try done.
    - by apply endpoint_ok_more.
    - rewrite alen_app. lia.
    - rewrite V2, Ho. constructor.
    - intros s Hs. destruct (V3 s Hs) as [?|[]]. by left.
    - intros; lia. }
  pose proof Lxy as (D & ms & ED & HD & Es). destruct Hr as [[-> Hf]|[Hneg ->]].
  - eexists. split; [done|]. apply Hinv. exists (D ++ fs), (ms ++ [m]). cbn. split_and!; [|by apply framed_snoc|].
    + by rewrite app_assoc, ED, app_assoc.
    + by rewrite Es, app_assoc.
  - rewrite (proj2 (Z.eqb_neq r 0)) by lia. eexists. split; [done|]. apply Hinv. exists D, ms. rewrite app_nil_r. done.
Qed.

Lemma recv_moves c : 0 <= c -> exists x', op_step (wire y) (OpRecv c) x = Some x' /\ inv (n + 1) x' y.
Proof.
  intros Hc. pose proof HX as (K & Hl & Ho & _). pose proof K as (_ & R & _). destruct R as (_ & _ & R3 & _).
  pose proof Lyx as (D & ms & ED & HD & Es).
  assert (exists X, (payload <$> rcv_queue (kcp x)) ++ X = D) as (X & EX).
  { exists (drop (Z.to_nat (rcv_nxt (kcp x))) Hy ++ Qy). apply (app_inv_head Cx).
    by rewrite <- ED, app_assoc, app_assoc, R3, take_drop. }
  assert (W := ikcp_recv_ok c c (kcp x) Hx Qx Hy Cx (170 * n) X D ms K ltac:(lia) EX HD).
  apply wpd_Done in W as ([r d] & k' & E & Hr). cbn. unfold run_op. rewrite E.
  destruct Hr as [[Hneg ->]|(m & ms' & fs & D' & -> & -> & Hf & HD' & [= -> ->] & K' & V1 & V2 & V3)]; cbn [fst snd] in *.
  - rewrite (proj2 (Z.ltb_lt r 0)) by done. eexists. split; [done|]. apply harmless_moves.
    split_and!; [done|apply advances_refl|done|done].
  - rewrite (proj2 (Z.ltb_ge _ 0)) by (apply alen_nonneg). eexists. split; [done|]. cbn.
    apply (inv_moves k' (sent x) (got x ++ [m]) [] Qx (Cx ++ fs)); rewrite ?app_nil_r; try done.
    + by apply endpoint_ok_more.
    + lia.
    + rewrite V2, Ho. constructor.
    + intros s Hs. destruct (V3 s Hs) as [?|[]]. by left.
    + intros; lia.
    + exists D', ms'. cbn. rewrite <- !app_assoc. done.
Qed.

Lemma input_moves i : exists x', op_step (wire y) (OpInput i) x = Some x' /\ inv (n + 1) x' y.
Proof.
  cbn. destruct (wire y !! i) as [d|] eqn:Ed.
  - pose proof HX as (K & Hl & Ho & _). pose proof HY as ((_ & Ry & _) & _ & _ & Hw & _).
    assert (datagram_ok (conv (kcp x)) Hy (received (kcp y)) (rcv_nxt (kcp y)) d) as Hd.
    { rewrite Hcv. by apply (proj1 (Forall_lookup _ _) Hw i). }
    assert (W := ikcp_input_ok Hx Qx Hy Cx (received (kcp y)) (rcv_nxt (kcp y)) ltac:(by left)
      ltac:(destruct Ry as (? & ? & _); lia) d (kcp x) (170 * n) K Hd ltac:(lia)).
    apply wpd_Done in W as (r & k' & E & K' & V1 & V2 & V3). unfold run_op. rewrite E. eexists. split; [done|].
    apply (inv_moves k' (sent x) (got x) [] Qx Cx); rewrite ?app_nil_r; try done.
    + by replace (170 * (n + 1)) with (170 * n + 170) by lia.
    + lia.
    + rewrite V2, Ho. constructor.
    + intros; lia.
  - exists x. split; [done|]. replace x with (MkEnd ((kcp x) <| outs := [] |>) (wire x ++ outs (kcp x)) (sent x) (got x)).
    + apply harmless_moves. split_and!; [done|apply advances_refl|done|done].
    + pose proof HX as (_ & _ & Ho & _). rewrite Ho, app_nil_r. destruct x as [[] ? ? ?]. cbn in *. by rewrite Ho.
Qed.

End moves.

(** ** Every schedule *)

Lemma op_step_ok n x y o :
  inv n x y -> op_ok o -> 0 <= n -> n + 1 <= 2 ^ 23 -> exists x', op_step (wire y) o x = Some x' /\ inv (n + 1) x' y.
Proof.
  intros (Hx & Qx & Cx & Hy & Qy & Cy & Hcv & HX & HY & L1 & L2) Ho H0 Hn. pose proof HX as (Kx & _).
  assert (forall A (m : K A), wpd m (fun _ k' => harmless (kcp x) k') (kcp x) ->
    exists x', run_op x m (fun _ e => e) = Some x' /\ inv (n + 1) x' y) as Hset.
  { intros A m (a & k' & E & Hk)%wpd_Done. unfold run_op. rewrite E. eexists. split; [done|]. by eapply harmless_moves. }
  assert (forall m : K unit, wpd m (fun _ k' => flushed (kcp x) k' Hx Qx Hy Cx (170 * n)) (kcp x) ->
    exists x', run_op x m (fun _ e => e) = Some x' /\ inv (n + 1) x' y) as Hflush.
  { intros m (a & k' & E & Hk)%wpd_Done. unfold run_op. rewrite E. eexists. split; [done|]. by eapply flushed_moves. }
  destruct o; cbn [op_ok] in Ho.
  - by eapply send_moves.
  - eapply recv_moves; try done. lia.
  - by apply Hflush, ikcp_update_ok.
  - by apply Hflush, ikcp_flush_ok.
  - by eapply input_moves.
  - apply Hset, ikcp_nodelay_ok.
  - apply Hset, ikcp_wndsize_ok.
  - apply Hset, ikcp_interval_ok.
Qed.

Lemma run_inv evs n a b :
  inv n a b -> Forall (fun ev => op_ok ev.2) evs -> 0 <= n -> n + alen evs <= 2 ^ 23 ->
  exists a' b', run evs (a, b) = Some (a', b') /\ inv (n + alen evs) a' b'.
Proof.
  revert n a b. induction evs as [|[w o] evs IH]; intros n a b I He H0 Hn; cbn [run].
  { exists a, b. rewrite alen_nil, Z.add_0_r. done. }
  apply Forall_cons in He as [Ho He]. rewrite alen_cons in *. pose proof (alen_nonneg evs). cbn [net_step fst snd].
  replace (n + (alen evs + 1)) with (n + 1 + alen evs) in * by lia. destruct w.
  - destruct (op_step_ok n a b o I Ho H0 ltac:(lia)) as (a' & E & I'). rewrite E. cbn. by apply IH; [..|lia|lia].
  - destruct (op_step_ok n b a o (inv_sym _ _ _ I) Ho H0 ltac:(lia)) as (b' & E & I'). rewrite E. cbn.
    apply inv_sym in I'. by apply IH; [..|lia|lia].
Qed.

Lemma start_inv cv ma mb :
  0 <= cv < 2 ^ 32 -> 50 <= ma <= 4096 -> 50 <= mb <= 4096 -> inv 0 (start cv ma mb).1 (start cv ma mb).2.
Proof.
  intros Hcv Ha Hb. destruct (new_endpoint_ok cv ma Hcv Ha) as (Ka & Ca & Oa). destruct (new_endpoint_ok cv mb Hcv Hb) as (Kb & Cb & Ob).
  exists [], [], [], [], [], []. cbn. split; [by rewrite Ca, Cb|].
  assert (forall k y, endpoint_ok k [] [] [] [] 0 -> outs k = [] -> half 0 (MkEnd k [] [] []) y [] [] [] []) as Hh.
  { intros k y Kk O. split; [done|]. split; [done|]. split; [done|]. split; [constructor|].
    intros j Hj. rewrite alen_nil in Hj. lia. }
  split_and!; [by apply Hh|by apply Hh|by exists [], []..].
Qed.

(** ** What has arrived is complete *)

Lemma ascending_covers l H lo :
  0 <= lo -> ascending l -> Forall (fun s => aget H (sn s) = Some (payload s) /\ lo <= sn s) l ->
  (forall i, lo <= i < alen H -> exists s, s ∈ l /\ sn s = i) -> payload <$> l = drop (Z.to_nat lo) H.
Proof.
  revert lo. induction l as [|s l IH]; intros lo Hlo Hs Hf Hall.
  - symmetry. apply drop_ge. destruct (decide (lo < alen H)) as [Hlt|]; [|rewrite alen_length in *; lia].
    destruct (Hall lo ltac:(lia)) as (s & Hin & _). by apply elem_of_nil in Hin.
  - apply ascending_cons in Hs as [Hs Hlt]. apply Forall_cons in Hf as [[Hg Hge] Hf].
    pose proof (aget_Some_range _ _ _ Hg) as [? ?]. assert (sn s = lo) as E.
    { destruct (Hall lo ltac:(lia)) as (x & [->|Hx]%elem_of_cons & Ex); [done|]. specialize (Hlt x Hx). lia. }
    rewrite E, aget_lookup in Hg by lia. rewrite (drop_S _ (payload s)) by done. cbn. f_equal.
    replace (S (Z.to_nat lo)) with (Z.to_nat (lo + 1)) by lia. apply IH; [lia|done| |].
    + apply Forall_forall. intros x Hx. specialize (Hlt x Hx). destruct (proj1 (Forall_forall _ _) Hf x Hx) as [? _]. split; [done|lia].
    + intros i Hi. destruct (Hall i ltac:(lia)) as (x & [->|Hx]%elem_of_cons & Ex); [lia|eauto].
Qed.

(** When nothing waits at [x], the queues of [y] hold what [y] has not taken. *)
Lemma nothing_waits n x y :
  inv n x y -> ikcp_waitsnd (kcp x) = 0 ->
  exists ms, sent x = got y ++ ms /\ framed (payload <$> rcv_queue (kcp y) ++ rcv_buf (kcp y)) ms.
Proof.
  intros (Hx & Qx & Cx & Hy & Qy & Cy & _ & HX & HY & (D & ms & ED & HD & Es) & _) Hw. exists ms. split; [done|].
  destruct HX as ((S & _) & Hl & _ & _ & Hr). destruct HY as ((_ & R & _) & _).
  pose proof (snd_buf_length Hx Qx _ S) as Hb. destruct S as (S1 & S2 & S3 & _ & _ & _ & S7 & S8).
  assert (alen (snd_queue (kcp x)) = alen Qx) as Eq by (rewrite <- S3, !alen_length, length_fmap; done).
  pose proof (alen_nonneg Qx). pose proof (alen_nonneg (snd_buf (kcp x))).
  unfold ikcp_waitsnd in Hw. rewrite swrap_small in Hw by (unfold in_s; lia).
  assert (snd_buf (kcp x) = []) as Eb by (apply alen_0; lia). assert (Qx = []) as -> by (apply alen_0; lia).
  destruct R as (R1 & R2 & R3 & R4 & R5 & R6 & _). rewrite app_nil_r in ED.
  assert (payload <$> rcv_buf (kcp y) = drop (Z.to_nat (rcv_nxt (kcp y))) Hx) as Ebuf.
  { apply ascending_covers; [lia|done| |].
    - apply (Forall_impl _ _ _ R5). tauto.
    - intros i Hi. destruct (Hr i ltac:(lia)) as [(s & Hs & _)|[?|?]]; [|lia|done].
      rewrite Eb in Hs. by apply elem_of_nil in Hs. }
  replace (payload <$> rcv_queue (kcp y) ++ rcv_buf (kcp y)) with D; [done|].
  apply (app_inv_head Cy). by rewrite <- ED, fmap_app, app_assoc, R3, Ebuf, take_drop.
Qed.

(** ** The theorems *)

(** C2: over a network that loses, repeats and reorders datagrams at will, and for every sequence of
    calls of the two programs, no call of either endpoint faults or fails to return, and the messages
    each program receives are a prefix of those the other has sent: in order, unchanged, each once.
    The run has at most 2^23 events, the mtu is at most 4096 and the clocks stay below 2^28. *)
Theorem kcp_delivers_in_order cv mtu_a mtu_b evs :
  0 <= cv < 2 ^ 32 -> 50 <= mtu_a <= 4096 -> 50 <= mtu_b <= 4096 ->
  Forall (fun ev => op_ok ev.2) evs -> alen evs <= 2 ^ 23 ->
  exists a b, run evs (start cv mtu_a mtu_b) = Some (a, b) /\
    (exists ms, sent a = got b ++ ms) /\ (exists ms, sent b = got a ++ ms).
Proof.
  intros Hcv Ha Hb He Hn.
  destruct (run_inv evs 0 _ _ (start_inv cv mtu_a mtu_b Hcv Ha Hb) He ltac:(lia) ltac:(lia)) as (a & b & E & I).
  exists a, b. split; [exact E|].
  destruct I as (Hx & Qx & Cx & Hy & Qy & Cy & _ & _ & _ & (D1 & ms1 & _ & _ & E1) & (D2 & ms2 & _ & _ & E2)). eauto.
Qed.

(** C8: an endpoint forgets a segment only when its peer has it. Whenever [ikcp_waitsnd] is 0, every
    message sent has been received by the other program or is complete in the queues of its endpoint,
    as its fragments in order. *)
Theorem kcp_loses_nothing cv mtu_a mtu_b evs :
  0 <= cv < 2 ^ 32 -> 50 <= mtu_a <= 4096 -> 50 <= mtu_b <= 4096 ->
  Forall (fun ev => op_ok ev.2) evs -> alen evs <= 2 ^ 23 ->
  exists a b, run evs (start cv mtu_a mtu_b) = Some (a, b) /\
    (ikcp_waitsnd (kcp a) = 0 -> exists ms, sent a = got b ++ ms /\
       framed (payload <$> rcv_queue (kcp b) ++ rcv_buf (kcp b)) ms) /\
    (ikcp_waitsnd (kcp b) = 0 -> exists ms, sent b = got a ++ ms /\
       framed (payload <$> rcv_queue (kcp a) ++ rcv_buf (kcp a)) ms).
Proof.
  intros Hcv Ha Hb He Hn.
  destruct (run_inv evs 0 _ _ (start_inv cv mtu_a mtu_b Hcv Ha Hb) He ltac:(lia) ltac:(lia)) as (a & b & E & I).
  exists a, b. split; [exact E|]. split; intros Hw; [by eapply nothing_waits|]. by eapply nothing_waits; [apply inv_sym|].
Qed.

(** A message of two fragments and one of one byte: the first datagram is lost, the second
    arrives twice and before it, the third is in time. *)
Definition lossy_schedule : list (bool * op) :=
  let m := z2b <$> seqZ 1 60 in
  [(true, OpNodelay 1 10 2 1); (true, OpSend m); (true, OpSend [z2b 7]); (true, OpUpdate 0);
   (false, OpUpdate 0); (false, OpInput 1); (false, OpInput 1); (false, OpRecv 100); (false, OpInput 2);
   (true, OpUpdate 300); (false, OpInput 3); (false, OpRecv 100); (false, OpRecv 100); (false, OpUpdate 400);
   (true, OpInput 0); (true, OpInput 0)].

Lemma lossy_schedule_ok : Forall (fun ev => op_ok ev.2) lossy_schedule /\ alen lossy_schedule <= 2 ^ 23.
Proof. split; [|by vm_compute]. repeat constructor; cbn; unfold is_time; (lia || by vm_compute). Qed.

Lemma kcp_delivers_in_order_witness :
  (exists a b, run lossy_schedule (start 5 60 60) = Some (a, b) /\
    (exists ms, sent a = got b ++ ms) /\ (exists ms, sent b = got a ++ ms)) /\
  ((fun n => (length <$> sent n.1, length <$> got n.2)) <$> run lossy_schedule (start 5 60 60)) =
    Some ([60; 1]%nat, [60; 1]%nat).
Proof.
  split; [|by vm_compute].
  apply (kcp_delivers_in_order 5 60 60 lossy_schedule); [lia..|apply lossy_schedule_ok|apply lossy_schedule_ok].
Defined.

Lemma kcp_loses_nothing_witness :
  (exists a b, run lossy_schedule (start 5 60 60) = Some (a, b) /\
    (ikcp_waitsnd (kcp a) = 0 -> exists ms, sent a = got b ++ ms /\
       framed (payload <$> rcv_queue (kcp b) ++ rcv_buf (kcp b)) ms) /\
    (ikcp_waitsnd (kcp b) = 0 -> exists ms, sent b = got a ++ ms /\
       framed (payload <$> rcv_queue (kcp a) ++ rcv_buf (kcp a)) ms)) /\
  ((fun n => ikcp_waitsnd (kcp n.1)) <$> run lossy_schedule (start 5 60 60)) = Some 0.
Proof.
  split; [|by vm_compute].
  apply (kcp_loses_nothing 5 60 60 lossy_schedule); [lia..|apply lossy_schedule_ok|apply lossy_schedule_ok].
Defined.
