(* ===== verification/List.v ===== *)
(** * Intrusive doubly linked lists (list.h)

    A [struct list] has a sentinel node at each end; a node knows its neighbours, and a
    node in no list has two NULL links. The nodes live in a store of links, shared by all
    lists. [chain] says that the nodes of a list are linked in a given order; the
    operations change that order as a sequence and leave all other nodes alone. *)

From S2P Require Import Prelude Outcome.

Section list_h.
Context {P : Type} `{Countable P}.

Record list_node := MkLink { pre : option P; next : option P }.

(** The links, by the address of the node. *)
Abbreviation store := (gmap P list_node).

(** [struct list]: the addresses of its sentinels. *)
Record dlist := MkList { head : P; tail : P }.

Abbreviation L := (M store).

Definition link_get (p : P) : L list_node := s ← get; deref UseAfterFree (s !! p).

(** [p->pre = v] and [p->next = v]. *)
Definition set_pre (p : P) (v : option P) : L unit := l ← link_get p; modify (fun s => <[p := MkLink v (next l)]> s).
Definition set_next (p : P) (v : option P) : L unit := l ← link_get p; modify (fun s => <[p := MkLink (pre l) v]> s).

Definition list_init (dl : dlist) : L unit :=
  set_next (tail dl) None;;
  set_pre (head dl) None;;
  set_next (head dl) (Some (tail dl));;
  set_pre (tail dl) (Some (head dl)).

Definition list_empty (dl : dlist) : L bool :=
  h ← link_get (head dl); mret (bool_decide (next h = Some (tail dl))).

Definition list_remove (node : P) : L unit :=
  l ← link_get node;
  match pre l, next l with
  | Some a, Some b =>
      set_next a (Some b);;
      l ← link_get node;
      b ← deref NullDeref (next l);
      set_pre b (pre l);;
      set_next node None;;
      set_pre node None
  | _, _ => mret tt
  end.

Definition list_push (dl : dlist) (node : P) : L unit :=
  l ← link_get node;
  match pre l, next l with
  | None, None =>
      t ← link_get (tail dl);
      last ← deref NullDeref (pre t);
      set_next last (Some node);;
      t ← link_get (tail dl);
      set_pre node (pre t);;
      set_pre (tail dl) (Some node);;
      set_next node (Some (tail dl))
  | _, _ => mret tt
  end.

Definition list_pop (dl : dlist) : L (option P) :=
  e ← list_empty dl;
  if negb e then
    h ← link_get (head dl);
    node ← deref NullDeref (next h);
    list_remove node;;
    mret (Some node)
  else mret None.

(** ** The sequence a list stands for *)

(** All nodes of the list, sentinels included. *)
Definition ring (dl : dlist) (ns : list P) : list P := head dl :: ns ++ [tail dl].

(** [ps] are linked in this order, between [a] and [b]. *)
Fixpoint linked (s : store) (a : option P) (ps : list P) (b : option P) : Prop :=
  match ps with
  | [] => True
  | p :: r => s !! p = Some (MkLink a (match r with [] => b | q :: _ => Some q end)) /\ linked s (Some p) r b
  end.

Definition chain (s : store) (dl : dlist) (ns : list P) : Prop :=
  NoDup (ring dl ns) /\ linked s None (ring dl ns) None.

(** Links of other nodes do not matter. *)
Lemma linked_ext s s' a ps b : (forall p, p ∈ ps -> s' !! p = s !! p) -> linked s a ps b -> linked s' a ps b.
Proof.
  revert a. induction ps as [|p r IH]; intros a E Hl; [done|]. destruct Hl as [H1 H2]. cbn. split.
  - rewrite E; [done|by left].
  - apply IH; [|done]. intros q Hq. apply E. by right.
Qed.

(** Cutting and joining. *)
Lemma linked_app s a ps x qs b :
  linked s a (ps ++ x :: qs) b <->
  linked s a ps (Some x) /\ linked s (match last ps with None => a | Some p => Some p end) (x :: qs) b.
Proof.
  revert a. induction ps as [|p r IH]; intros a; [cbn; tauto|]. change ((p :: r) ++ x :: qs) with (p :: (r ++ x :: qs)).
  cbn [linked]. rewrite IH. destruct r as [|q r]; [cbn; tauto|]. rewrite last_cons_cons.
  destruct (last (q :: r)) eqn:E; [cbn; tauto|]. by apply last_None in E.
Qed.

(** Taking [n] out from between [x] and [y], and putting it there. *)
Lemma linked_unlink s c A x n y B d :
  NoDup (A ++ x :: n :: y :: B) -> linked s c (A ++ x :: n :: y :: B) d ->
  exists lx ly, s !! x = Some lx /\ s !! n = Some (MkLink (Some x) (Some y)) /\ s !! y = Some ly /\
    linked (<[n := MkLink None None]> (<[y := MkLink (Some x) (next ly)]> (<[x := MkLink (pre lx) (Some y)]> s)))
      c (A ++ x :: y :: B) d.
Proof.
  intros ND. rewrite !linked_app. intros (HA & Hx & Hn & Hy & HB).
  apply NoDup_app in ND as (_ & HnA & ND). rewrite !NoDup_cons in ND. destruct ND as (Nx & Nn & Ny & _).
  eexists _, _. split; [exact Hx|]. split; [exact Hn|]. split; [exact Hy|].
  assert (x <> n /\ x <> y /\ n <> y) as (?&?&?) by set_solver. rewrite linked_app. split; [|split; [|split]].
  - eapply linked_ext; [|exact HA]. intros p Hp. assert (p <> x /\ p <> n /\ p <> y) as (?&?&?) by set_solver.
    by rewrite !lookup_insert_ne by done.
  - rewrite !lookup_insert_ne, lookup_insert_eq by done. done.
  - rewrite lookup_insert_ne, lookup_insert_eq by done. done.
  - eapply linked_ext; [|exact HB]. intros p Hp. assert (p <> x /\ p <> n /\ p <> y) as (?&?&?) by set_solver.
    by rewrite !lookup_insert_ne by done.
Qed.

Lemma linked_link s c A x n y B d :
  NoDup (A ++ x :: n :: y :: B) -> linked s c (A ++ x :: y :: B) d ->
  exists lx ly, s !! x = Some lx /\ s !! y = Some ly /\ pre ly = Some x /\
    linked (<[n := MkLink (Some x) (Some y)]> (<[y := MkLink (Some n) (next ly)]> (<[x := MkLink (pre lx) (Some n)]> s)))
      c (A ++ x :: n :: y :: B) d.
Proof.
  intros ND. rewrite !linked_app. intros (HA & Hx & Hy & HB).
  apply NoDup_app in ND as (_ & HnA & ND). rewrite !NoDup_cons in ND. destruct ND as (Nx & Nn & Ny & _).
  eexists _, _. split; [exact Hx|]. split; [exact Hy|]. split; [done|].
  assert (x <> n /\ x <> y /\ n <> y) as (?&?&?) by set_solver. rewrite linked_app. split; [|split; [|split; [|split]]].
  - eapply linked_ext; [|exact HA]. intros p Hp. assert (p <> x /\ p <> n /\ p <> y) as (?&?&?) by set_solver.
    by rewrite !lookup_insert_ne by done.
  - rewrite !lookup_insert_ne, lookup_insert_eq by done. done.
  - rewrite lookup_insert_eq by done. done.
  - rewrite lookup_insert_ne, lookup_insert_eq by done. done.
  - eapply linked_ext; [|exact HB]. intros p Hp. assert (p <> x /\ p <> n /\ p <> y) as (?&?&?) by set_solver.
    by rewrite !lookup_insert_ne by done.
Qed.

Lemma chain_lookup s dl ns p : chain s dl ns -> p ∈ ring dl ns -> is_Some (s !! p).
Proof.
  intros [_ Hl] Hp. revert Hl. generalize (@None P) at 1. induction (ring dl ns) as [|q r IH]; [by apply elem_of_nil in Hp|].
  intros a [H1 H2]. apply elem_of_cons in Hp as [->|Hp]; [eauto|]. by eapply IH.
Qed.

Lemma chain_frame s s' dl ns :
  (forall p, p ∈ ring dl ns -> s' !! p = s !! p) -> chain s dl ns -> chain s' dl ns.
Proof. intros E [H1 H2]. split; [done|]. by eapply linked_ext. Qed.

(** ** The operations on the sequence *)

Section access.
Context (E : string -> store -> Prop).

Lemma wp_link_get s p l Q : s !! p = Some l -> Q l s -> wp (link_get p) Q E s.
Proof. intros Hl HQ. unfold link_get. do 2 wp_step. by wp_step. Qed.

Lemma wp_set_next s p v l Q : s !! p = Some l -> Q tt (<[p := MkLink (pre l) v]> s) -> wp (set_next p v) Q E s.
Proof. intros Hl HQ. unfold set_next. wp_step. eapply wp_link_get; [done|]. by wp_step. Qed.

Lemma wp_set_pre s p v l Q : s !! p = Some l -> Q tt (<[p := MkLink v (next l)]> s) -> wp (set_pre p v) Q E s.
Proof. intros Hl HQ. unfold set_pre. wp_step. eapply wp_link_get; [done|]. by wp_step. Qed.
End access.

(** What an operation on the list leaves alone. *)
Definition apart (ps : list P) (s s' : store) : Prop :=
  (forall p, p ∉ ps -> s' !! p = s !! p) /\ (forall p, is_Some (s !! p) -> is_Some (s' !! p)).

Lemma wp_list_init s dl Q :
  head dl <> tail dl -> is_Some (s !! head dl) -> is_Some (s !! tail dl) ->
  (forall s', chain s' dl [] -> apart (ring dl []) s s' -> Q tt s') -> wpd (list_init dl) Q s.
Proof.
  intros Hne [lh Hh] [lt Ht] HQ. unfold list_init.
  wp_step. eapply wp_set_next; [done|]. wp_step. eapply wp_set_pre; [by rewrite lookup_insert_ne by done|].
  wp_step. eapply wp_set_next; [by rewrite lookup_insert_eq|].
  eapply wp_set_pre; [by rewrite !lookup_insert_ne, lookup_insert_eq by done|].
  apply HQ.
  - split; [unfold ring; cbn; rewrite !NoDup_cons; split_and!; [set_solver..|by apply NoDup_nil]|]. split; [|split; [|done]].
    + by rewrite lookup_insert_ne, lookup_insert_eq by done.
    + by rewrite lookup_insert_eq.
  - split.
    + intros p Hp. assert (p <> head dl /\ p <> tail dl) as [? ?] by (unfold ring in Hp; set_solver).
      by rewrite !lookup_insert_ne by done.
    + intros p Hp. rewrite !lookup_insert. repeat case_decide; eauto.
Qed.

Lemma ring_snoc dl ns : exists A x, head dl :: ns = A ++ [x].
Proof. destruct (list_snoc_cases (head dl :: ns)) as [?|(A & x & ->)]; [done|eauto]. Qed.

Lemma wp_list_push s dl ns node Q :
  chain s dl ns -> node ∉ ring dl ns -> s !! node = Some (MkLink None None) ->
  (forall s', chain s' dl (ns ++ [node]) -> apart (ring dl (ns ++ [node])) s s' -> Q tt s') ->
  wpd (list_push dl node) Q s.
Proof.
  intros [ND Hl] Hn Hs HQ. destruct (ring_snoc dl ns) as (A & x & Ex).
  assert (ring dl ns = A ++ [x; tail dl]) as Er by (unfold ring; rewrite app_comm_cons, Ex; by rewrite <- app_assoc).
  assert (ring dl (ns ++ [node]) = A ++ [x; node; tail dl]) as Er'.
  { unfold ring. rewrite <- app_assoc, app_comm_cons, Ex. by rewrite <- app_assoc. }
  assert (NoDup (A ++ [x; node; tail dl])) as ND'.
  { rewrite Er in ND, Hn.
    assert (A ++ [x; node; tail dl] ≡ₚ node :: A ++ [x; tail dl]) as -> by solve_Permutation. by apply NoDup_cons. }
  rewrite Er in Hl. destruct (linked_link s None A x node (tail dl) [] None ND' Hl) as (lx & ly & Hx & Hy & Hp & HL).
  assert (x <> node /\ x <> tail dl /\ node <> tail dl) as (?&?&?).
  { apply NoDup_app in ND' as (_ & _ & ND'). rewrite !NoDup_cons in ND'. set_solver. }
  unfold list_push. wp_step. eapply wp_link_get; [done|]. cbn [pre next].
  wp_step. eapply wp_link_get; [done|]. wp_step. wp_step; [done|]. wp_step. eapply wp_set_next; [done|].
  wp_step. eapply wp_link_get; [by rewrite lookup_insert_ne by done|].
  wp_step. eapply wp_set_pre; [by rewrite lookup_insert_ne by done|].
  wp_step. eapply wp_set_pre; [by rewrite !lookup_insert_ne by done|].
  eapply wp_set_next; [by rewrite lookup_insert_ne, lookup_insert_eq by done|]. cbn [pre next].
  rewrite Hp. apply HQ.
  - split; [by rewrite Er'|]. rewrite Er'. revert HL. cbn [pre next].
    rewrite (insert_insert_ne _ _ node) by done. by rewrite insert_insert_eq.
  - rewrite Er'. split.
    + intros p Hp'. assert (p <> x /\ p <> node /\ p <> tail dl) as (?&?&?) by set_solver.
      by rewrite !lookup_insert_ne by done.
    + intros p Hp'. rewrite !lookup_insert. repeat case_decide; eauto.
Qed.

(** A node that is in a list is not pushed again. *)
Lemma wp_list_push_linked s dl node l Q :
  s !! node = Some l -> pre l <> None \/ next l <> None -> Q tt s -> wpd (list_push dl node) Q s.
Proof.
  intros Hs Hl HQ. unfold list_push. wp_step. eapply wp_link_get; [done|].
  destruct (pre l), (next l); try (by wp_step). by destruct Hl.
Qed.

Lemma wp_list_remove s dl a node b Q :
  chain s dl (a ++ node :: b) ->
  (forall s', chain s' dl (a ++ b) -> s' !! node = Some (MkLink None None) ->
     apart (ring dl (a ++ node :: b)) s s' -> Q tt s') ->
  wpd (list_remove node) Q s.
Proof.
  intros [ND Hl] HQ. destruct (ring_snoc dl a) as (A & x & Ex).
  destruct (b ++ [tail dl]) as [|y B] eqn:Ey; [by destruct b|].
  assert (ring dl (a ++ node :: b) = A ++ x :: node :: y :: B) as Er.
  { unfold ring. rewrite <- app_assoc. cbn [app]. by rewrite Ey, app_comm_cons, Ex, <- app_assoc. }
  assert (ring dl (a ++ b) = A ++ x :: y :: B) as Er'.
  { unfold ring. by rewrite <- app_assoc, Ey, app_comm_cons, Ex, <- app_assoc. }
  rewrite Er in ND, Hl. destruct (linked_unlink s None A x node y B None ND Hl) as (lx & ly & Hx & Hn & Hy & HL).
  assert (x <> node /\ x <> y /\ node <> y) as (?&?&?).
  { apply NoDup_app in ND as (_ & _ & ND). rewrite !NoDup_cons in ND. set_solver. }
  unfold list_remove. wp_step. eapply wp_link_get; [done|]. cbn [pre next].
  wp_step. eapply wp_set_next; [done|]. wp_step. eapply wp_link_get; [by rewrite lookup_insert_ne by done|].
  wp_step. wp_step; [done|]. wp_step. eapply wp_set_pre; [by rewrite lookup_insert_ne by done|].
  wp_step. eapply wp_set_next; [by rewrite !lookup_insert_ne by done|].
  eapply wp_set_pre; [by rewrite lookup_insert_eq|]. cbn [pre next]. rewrite insert_insert_eq. apply HQ.
  - split; [|by rewrite Er']. rewrite Er'.
    assert (A ++ x :: node :: y :: B ≡ₚ node :: A ++ x :: y :: B) as EP by solve_Permutation.
    rewrite EP in ND. by apply NoDup_cons in ND as [_ ?].
  - by rewrite lookup_insert_eq.
  - rewrite Er. split.
    + intros p Hp'. assert (p <> x /\ p <> node /\ p <> y) as (?&?&?) by set_solver.
      by rewrite !lookup_insert_ne by done.
    + intros p Hp'. rewrite !lookup_insert. repeat case_decide; eauto.
Qed.

Lemma wp_list_empty s dl ns Q :
  chain s dl ns -> Q (bool_decide (ns = [])) s -> wpd (list_empty dl) Q s.
Proof.
  intros [ND [Hh _]] HQ. unfold list_empty. wp_step. eapply wp_link_get; [done|]. wp_step.
  destruct ns as [|n r]; cbn in *; [by rewrite bool_decide_eq_true_2 by done|].
  rewrite bool_decide_eq_false_2; [done|]. intros [= ->]. unfold ring in ND. cbn in ND.
  apply NoDup_cons in ND as [_ ND]. apply NoDup_cons in ND as [ND _]. set_solver.
Qed.

Lemma wp_list_pop s dl ns Q :
  chain s dl ns ->
  match ns with
  | [] => Q None s
  | n :: r => forall s', chain s' dl r -> s' !! n = Some (MkLink None None) ->
                apart (ring dl ns) s s' -> Q (Some n) s'
  end -> wpd (list_pop dl) Q s.
Proof.
  intros HC HQ. unfold list_pop. wp_step. eapply wp_list_empty; [done|]. destruct ns as [|n r].
  - by rewrite bool_decide_eq_true_2 by done.
  - rewrite bool_decide_eq_false_2 by done. cbn [negb]. destruct (HC) as [_ [Hh _]].
    wp_step. eapply wp_link_get; [done|]. wp_step. wp_step; [done|]. wp_step.
    eapply (wp_list_remove s dl [] n r); [done|]. intros s' HC' Hn Ha. wp_step. by apply HQ.
Qed.
End list_h.

#[global] Arguments list_node : clear implicits.
#[global] Arguments dlist : clear implicits.
Abbreviation store P := (gmap P (list_node P)).
