(* ===== verification/Float32.v ===== *)
(** * Single precision arithmetic

    The C type [float], as the path finder uses it: finite numbers [man * 2^exp] with at
    most 24 significant bits, every operation rounded to nearest, ties to even. Zero has no
    sign, and there are no infinities: the sources only reach one by a division whose
    quotient they do not use. *)

From S2P Require Import Prelude LuaValue.

Record float := MkFloat { man : Z; exp : Z }.

#[export] Instance float_eq_dec : EqDecision float.
Proof. solve_decision. Defined.

(** [m * 2^k] rounded to a float. *)
Definition rnd (m k : Z) : float :=
  let '(q, k) := round_to 24 (-149) (Z.abs m) k in MkFloat (Z.sgn m * q) k.

(** [a] in units of [2^k]. *)
Definition units (k : Z) (a : float) : Z := man a * 2 ^ (exp a - k).

Definition fexp (a b : float) : Z := Z.min (exp a) (exp b).

Definition of_int (z : Z) : float := rnd z 0.
Definition half : float := MkFloat 1 (-1).

Definition fadd (a b : float) : float := rnd (units (fexp a b) a + units (fexp a b) b) (fexp a b).
Definition fsub (a b : float) : float := rnd (units (fexp a b) a - units (fexp a b) b) (fexp a b).
Definition fmul (a b : float) : float := rnd (man a * man b) (exp a + exp b).

(** The quotient to 26 bits and more, with one bit that says whether it is exact; [b] is not 0. *)
Definition fdiv (a b : float) : float :=
  let s := Z.max 0 (Z.log2 (Z.abs (man b)) - Z.log2 (Z.abs (man a)) + 26) in
  let n := Z.abs (man a) * 2 ^ s in
  let d := Z.abs (man b) in
  let sticky := if n mod d =? 0 then 0 else 1 in
  rnd (Z.sgn (man a) * Z.sgn (man b) * (2 * (n / d) + sticky)) (exp a - exp b - s - 1).

Definition fltb (a b : float) : bool := units (fexp a b) a <? units (fexp a b) b.
Definition fleb (a b : float) : bool := units (fexp a b) a <=? units (fexp a b) b.
Definition feqb (a b : float) : bool := units (fexp a b) a =? units (fexp a b) b.

(** [(int)a]: towards zero. *)
Definition to_int (a : float) : Z := if exp a <? 0 then Z.quot (man a) (2 ^ (- exp a)) else man a * 2 ^ exp a.

(** ** Rounding what fits *)

Lemma rnd_exact m k : Z.abs m < 2 ^ 24 -> -149 <= k -> rnd m k = MkFloat m k.
Proof.
  intros Hm Hk. unfold rnd, round_to. destruct (Z.leb_spec (Z.max (Z.log2 (Z.abs m) + 1 - 24) (-149 - k)) 0) as [_|Hd].
  - f_equal. by rewrite Z.mul_comm, Z.abs_sgn.
  - exfalso. assert (Z.log2 (Z.abs m) <= 23); [|lia].
    destruct (decide (m = 0)) as [->|]; [vm_compute; discriminate|]. apply Z.log2_lt_pow2 in Hm; lia.
Qed.

Lemma of_int_exact z : Z.abs z < 2 ^ 24 -> of_int z = MkFloat z 0.
Proof. intros. by apply rnd_exact. Qed.

(** Numbers on the same grid are added exactly. *)
Lemma fadd_grid m n k : Z.abs (m + n) < 2 ^ 24 -> -149 <= k -> fadd (MkFloat m k) (MkFloat n k) = MkFloat (m + n) k.
Proof.
  intros Hb Hk. unfold fadd, fexp, units. cbn [man exp]. rewrite Z.min_id, Z.sub_diag, !Z.mul_1_r.
  by apply rnd_exact.
Qed.

Lemma to_int_whole z : to_int (MkFloat z 0) = z.
Proof. unfold to_int. cbn. lia. Qed.

(** ** Comparison *)

Lemma units_scale k j a : k <= j -> j <= exp a -> units k a = units j a * 2 ^ (j - k).
Proof.
  intros. unfold units. rewrite <- Z.mul_assoc, <- Z.pow_add_r by lia. do 2 f_equal. lia.
Qed.

(** Any common unit gives the same comparison. *)
Lemma fltb_units k a b : k <= exp a -> k <= exp b -> fltb a b = (units k a <? units k b).
Proof.
  intros Ha Hb. unfold fltb. rewrite (units_scale k (fexp a b) a), (units_scale k (fexp a b) b) by (unfold fexp; lia).
  assert (0 < 2 ^ (fexp a b - k)) by (apply Z.pow_pos_nonneg; unfold fexp; lia).
  destruct (Z.ltb_spec (units (fexp a b) a) (units (fexp a b) b)), (Z.ltb_spec (units (fexp a b) a * 2 ^ (fexp a b - k)) (units (fexp a b) b * 2 ^ (fexp a b - k))); done || nia.
Qed.

Lemma fltb_asym a b : fltb a b = true -> fltb b a = false.
Proof. rewrite (fltb_units (fexp a b) b a) by (unfold fexp; lia). unfold fltb. rewrite Z.ltb_lt, Z.ltb_ge. lia. Qed.

Lemma fltb_ntrans a b c : fltb b a = false -> fltb c b = false -> fltb c a = false.
Proof.
  set (k := Z.min (exp a) (Z.min (exp b) (exp c))).
  rewrite !(fltb_units k) by (unfold k; lia). rewrite !Z.ltb_ge. lia.
Qed.

Lemma fltb_grid m n k : fltb (MkFloat m k) (MkFloat n k) = (m <? n).
Proof. rewrite (fltb_units k) by (cbn; lia). unfold units. cbn [man exp]. by rewrite Z.sub_diag, !Z.mul_1_r. Qed.

Lemma fleb_grid m n k : fleb (MkFloat m k) (MkFloat n k) = (m <=? n).
Proof. unfold fleb, fexp, units. cbn [man exp]. by rewrite Z.min_id, Z.sub_diag, !Z.mul_1_r. Qed.

Lemma feqb_grid m n k : feqb (MkFloat m k) (MkFloat n k) = (m =? n).
Proof. unfold feqb, fexp, units. cbn [man exp]. by rewrite Z.min_id, Z.sub_diag, !Z.mul_1_r. Qed.

Lemma fsub_grid m n k : Z.abs (m - n) < 2 ^ 24 -> -149 <= k -> fsub (MkFloat m k) (MkFloat n k) = MkFloat (m - n) k.
Proof.
  intros Hb Hk. unfold fsub, fexp, units. cbn [man exp]. rewrite Z.min_id, Z.sub_diag, !Z.mul_1_r. by apply rnd_exact.
Qed.

(** ** Bounds

    [a] in units of [2^-1000], for numbers whose exponent is not below that. *)

Abbreviation scaled a := (units (-1000) a).

Definition at_most (B : Z) (a : float) : Prop := -149 <= exp a /\ Z.abs (scaled a) <= B * 2 ^ 1000.

Lemma round_to_up p emin m k :
  0 <= m -> 0 < p -> let '(q, k') := round_to p emin m k in
  k <= k' /\ emin <= k' /\ 0 <= q /\ (q * 2 ^ (k' - k) <= 2 * m \/ q <= 1 /\ k' = emin).
Proof.
  intros Hm Hp. unfold round_to. set (drop := Z.max _ _). destruct (Z.leb_spec drop 0) as [Hd|Hd].
  - split; [lia|]. split; [unfold drop in Hd; lia|]. split; [done|]. left. rewrite Z.sub_diag. lia.
  - split; [lia|]. split; [unfold drop; lia|]. pose proof (Z.pow_pos_nonneg 2 drop ltac:(lia) ltac:(lia)) as Hpos.
    pose proof (Z.div_mod m (2 ^ drop) ltac:(lia)) as Edm. pose proof (Z.mod_pos_bound m (2 ^ drop) Hpos) as Hr.
    pose proof (Z.div_pos m (2 ^ drop) Hm Hpos) as Hq. split; [case_match; lia|].
    replace (k + drop - k) with drop by lia. destruct (decide (2 ^ drop <= m)) as [Hle|Hgt].
    + left. case_match; nia.
    + right. rewrite Z.div_small by lia. split; [case_match; lia|].
      assert (drop = emin - k) as ->; [|lia]. unfold drop in *. destruct (decide (m = 0)) as [->|Hm0].
      { cbn in *. lia. }
      destruct (Z.max_spec (Z.log2 m + 1 - p) (emin - k)) as [[_ E]|[_ E]]; rewrite E in *; [done|].
      exfalso. apply Hgt. transitivity (2 ^ Z.log2 m); [apply Z.pow_le_mono_r; lia|]. apply Z.log2_spec. lia.
Qed.

(** Rounding at most doubles a number. *)
Lemma rnd_at_most m k B :
  1 <= B -> -1000 <= k -> Z.abs m * 2 ^ (k + 1000) <= B * 2 ^ 1000 -> at_most (2 * B) (rnd m k).
Proof.
  intros HB Hk Hm. unfold rnd. pose proof (round_to_up 24 (-149) (Z.abs m) k (Z.abs_nonneg m) ltac:(lia)) as Hr.
  destruct (round_to 24 (-149) (Z.abs m) k) as [q k']. destruct Hr as (Hkk & Hk' & Hq & Hb).
  split; [done|]. unfold units. cbn [man exp]. rewrite !Z.abs_mul. rewrite (Z.abs_eq q) by done.
  rewrite (Z.abs_eq (2 ^ _)) by (apply Z.pow_nonneg; lia).
  assert (Z.abs (Z.sgn m) <= 1) as Hs by lia.
  assert (q * 2 ^ (k' - -1000) <= 2 * B * 2 ^ 1000); [|nia]. destruct Hb as [Hb|[Hq1 ->]].
  - replace (k' - -1000) with ((k' - k) + (k + 1000)) by lia. rewrite Z.pow_add_r by lia. nia.
  - assert (2 ^ (-149 - -1000) <= 2 ^ 1000) by (apply Z.pow_le_mono_r; lia).
    assert (0 < 2 ^ (-149 - -1000)) by (apply Z.pow_pos_nonneg; lia). nia.
Qed.

Lemma at_most_mono B B' a : B <= B' -> at_most B a -> at_most B' a.
Proof. intros HB [He Ha]. split; [done|]. assert (0 < 2 ^ 1000) by lia. nia. Qed.

Lemma fadd_at_most a b A B : 0 <= A -> 0 <= B -> 1 <= A + B -> at_most A a -> at_most B b -> at_most (2 * (A + B)) (fadd a b).
Proof.
  intros HA HB H1 [Ea Ha] [Eb Hb]. unfold fadd. set (k := fexp a b). assert (-149 <= k <= exp a /\ k <= exp b) by (unfold k, fexp; lia).
  apply rnd_at_most; [done|lia|]. rewrite (units_scale (-1000) k a), (units_scale (-1000) k b) in * by lia.
  replace (k - -1000) with (k + 1000) in * by lia. rewrite Z.abs_mul in Ha, Hb.
  rewrite (Z.abs_eq (2 ^ _)) in Ha, Hb by (apply Z.pow_nonneg; lia).
  assert (0 < 2 ^ (k + 1000)) by (apply Z.pow_pos_nonneg; lia).
  pose proof (Z.abs_triangle (units k a) (units k b)). nia.
Qed.

Lemma fmul_at_most a b A B : 0 <= A -> 0 <= B -> 1 <= A * B -> at_most A a -> at_most B b -> at_most (2 * (A * B)) (fmul a b).
Proof.
  intros HA HB H1 [Ea Ha] [Eb Hb]. unfold fmul. apply rnd_at_most; [done|lia|]. unfold units in Ha, Hb.
  rewrite Z.abs_mul, (Z.abs_eq (2 ^ _)) in Ha by (apply Z.pow_nonneg; lia).
  rewrite Z.abs_mul, (Z.abs_eq (2 ^ _)) in Hb by (apply Z.pow_nonneg; lia).
  assert (2 ^ (exp a + exp b + 1000) * 2 ^ 1000 = 2 ^ (exp a - -1000) * 2 ^ (exp b - -1000)) as E.
  { rewrite <- !Z.pow_add_r by lia. f_equal. lia. }
  rewrite Z.abs_mul. apply (Z.mul_le_mono_pos_r _ _ (2 ^ 1000)); [lia|].
  assert (0 <= Z.abs (man a)) by lia. assert (0 <= Z.abs (man b)) by lia.
  assert (0 < 2 ^ (exp a - -1000)) by (apply Z.pow_pos_nonneg; lia). assert (0 < 2 ^ (exp b - -1000)) by (apply Z.pow_pos_nonneg; lia).
  replace (Z.abs (man a) * Z.abs (man b) * 2 ^ (exp a + exp b + 1000) * 2 ^ 1000)
    with ((Z.abs (man a) * 2 ^ (exp a - -1000)) * (Z.abs (man b) * 2 ^ (exp b - -1000))) by lia.
  replace (A * B * 2 ^ 1000 * 2 ^ 1000) with ((A * 2 ^ 1000) * (B * 2 ^ 1000)) by lia.
  apply Z.mul_le_mono_nonneg; [nia|done|nia|done].
Qed.

Lemma sticky_bound n d :
  0 < d -> 0 <= n -> d <= n \/ n = 0 ->
  let X := 2 * (n / d) + (if n mod d =? 0 then 0 else 1) in 0 <= X /\ X * d <= 4 * n.
Proof.
  intros Hd Hn Hc X. pose proof (Z.div_mod n d ltac:(lia)). pose proof (Z.mod_pos_bound n d Hd). pose proof (Z.div_pos n d Hn Hd).
  split; [unfold X; case_match; lia|]. destruct Hc as [Hle|E]; [unfold X; case_match; nia|].
  unfold X. rewrite E, Z.mod_0_l, Z.div_0_l by lia. cbn. lia.
Qed.

(** The shift makes the dividend larger than the divisor. *)
Lemma shift_enough m d s : 0 < m -> 0 < d -> 0 <= s -> Z.log2 d < Z.log2 m + s -> d <= m * 2 ^ s.
Proof.
  intros Hm Hd Hs Hl. pose proof (Z.log2_spec m Hm) as [Hlm _]. pose proof (Z.log2_spec d Hd) as [_ Hu].
  pose proof (Z.log2_nonneg m). transitivity (2 ^ (Z.log2 m + s)).
  - assert (2 ^ Z.succ (Z.log2 d) <= 2 ^ (Z.log2 m + s)); [|lia]. apply Z.pow_le_mono_r; lia.
  - rewrite Z.pow_add_r by lia. apply Z.mul_le_mono_nonneg_r; [|done]. apply Z.pow_nonneg. lia.
Qed.

(** The quotient by a number of at least 1. *)
Lemma fdiv_at_most a b A :
  1 <= A -> at_most A a -> exp b <= 100 -> Z.abs (man b) < 2 ^ 30 -> 2 ^ 1000 <= Z.abs (scaled b) -> -149 <= exp b ->
  at_most (4 * A) (fdiv a b).
Proof.
  intros HA [Ea Ha] Eb Hmb Hb Eb'. unfold fdiv. set (s := Z.max 0 _). set (d := Z.abs (man b)) in *.
  set (n := Z.abs (man a) * 2 ^ s). set (X := 2 * (n / d) + _). unfold units in Ha, Hb.
  rewrite Z.abs_mul, (Z.abs_eq (2 ^ _)) in Ha by (apply Z.pow_nonneg; lia).
  rewrite Z.abs_mul, (Z.abs_eq (2 ^ _)) in Hb by (apply Z.pow_nonneg; lia). fold d in Hb.
  assert (0 < 2 ^ (exp b - -1000)) as Hpb by (apply Z.pow_pos_nonneg; lia). assert (0 < 2 ^ 1000) as H1000 by lia.
  assert (0 < d) as Hd by nia. assert (0 <= s <= 56) as Hs.
  { unfold s. assert (Z.log2 d < 30) by (by apply Z.log2_lt_pow2). pose proof (Z.log2_nonneg (Z.abs (man a))). lia. }
  assert (0 <= n) as Hn by (unfold n; apply Z.mul_nonneg_nonneg; lia).
  assert (0 <= X /\ X * d <= 4 * n) as [HX HXd].
  { apply sticky_bound; [done|done|]. destruct (decide (man a = 0)) as [E0|Hma]; [right; unfold n; by rewrite E0|].
    left. apply shift_enough; [lia|done|lia|]. unfold s. lia. }
  replace (4 * A) with (2 * (2 * A)) by lia. apply rnd_at_most; [lia|lia|].
  rewrite !Z.abs_mul, (Z.abs_eq X) by done. set (k := exp a - exp b - s - 1).
  assert (0 < 2 ^ (k + 1000)) as Hpk by (apply Z.pow_pos_nonneg; unfold k; lia).
  transitivity (X * 2 ^ (k + 1000)); [assert (Z.abs (Z.sgn (man a)) <= 1 /\ Z.abs (Z.sgn (man b)) <= 1) as [? ?] by lia; nia|].
  apply (Z.mul_le_mono_pos_r _ _ (d * 2 ^ (exp b - -1000) * 2 ^ (s + 1))); [apply Z.mul_pos_pos; [nia|apply Z.pow_pos_nonneg; lia]|].
  assert (2 ^ (k + 1000) * 2 ^ (exp b - -1000) * 2 ^ (s + 1) = 2 ^ (exp a - -1000) * 2 ^ 1000) as E1.
  { rewrite <- !Z.pow_add_r by (unfold k; lia). f_equal. unfold k. lia. }
  assert (2 ^ (s + 1) = 2 * 2 ^ s) as E2 by (rewrite Z.pow_add_r by lia; lia).
  transitivity (X * d * (2 ^ (exp a - -1000) * 2 ^ 1000)); [rewrite <- E1; lia|].
  assert (0 < 2 ^ (exp a - -1000)) as Hpa by (apply Z.pow_pos_nonneg; lia). assert (0 < 2 ^ s) as Hps by (apply Z.pow_pos_nonneg; lia).
  transitivity (4 * n * (2 ^ (exp a - -1000) * 2 ^ 1000)); [apply Z.mul_le_mono_nonneg_r; nia|]. unfold n.
  transitivity (4 * 2 ^ s * (A * 2 ^ 1000) * 2 ^ 1000); [nia|].
  rewrite E2. transitivity (2 * A * 2 ^ 1000 * (2 ^ 1000 * (2 * 2 ^ s))); [lia|].
  apply Z.mul_le_mono_nonneg_l; [nia|]. apply Z.mul_le_mono_nonneg_r; [lia|done].
Qed.

(** The conversion to an [int]. *)
Lemma to_int_at_most a B : 0 <= B -> at_most B a -> Z.abs (to_int a) <= B.
Proof.
  intros HB [Ea Ha]. unfold to_int. unfold units in Ha. rewrite Z.abs_mul, (Z.abs_eq (2 ^ _)) in Ha by (apply Z.pow_nonneg; lia).
  destruct (Z.ltb_spec (exp a) 0) as [Hn|Hp].
  - assert (0 < 2 ^ (- exp a)) as Hpos by (apply Z.pow_pos_nonneg; lia).
    rewrite <- Z.quot_abs by lia. rewrite (Z.abs_eq (2 ^ _)) by lia. rewrite Z.quot_div_nonneg by lia.
    apply Z.div_le_upper_bound; [done|]. apply (Z.mul_le_mono_pos_r _ _ (2 ^ (exp a - -1000))); [apply Z.pow_pos_nonneg; lia|].
    rewrite (Z.mul_comm (2 ^ (- exp a)) B), <- Z.mul_assoc, <- Z.pow_add_r by lia. by replace (- exp a + (exp a - -1000)) with 1000 by lia.
  - rewrite Z.abs_mul, (Z.abs_eq (2 ^ _)) by (apply Z.pow_nonneg; lia).
    replace (exp a - -1000) with (exp a + 1000) in Ha by lia. rewrite Z.pow_add_r, Z.mul_assoc in Ha by lia. nia.
Qed.

Lemma rnd_exp m k : -149 <= exp (rnd m k).
Proof.
  unfold rnd. pose proof (round_to_up 24 (-149) (Z.abs m) k (Z.abs_nonneg m) ltac:(lia)) as Hr.
  destruct (round_to 24 (-149) (Z.abs m) k). apply Hr.
Qed.

(** At most 24 bits, or the next power of two. *)
Lemma rnd_man m k : Z.abs (man (rnd m k)) <= 2 ^ 24.
Proof.
  unfold rnd, round_to. set (a := Z.abs m). set (drop := Z.max _ _).
  assert (0 <= a) as Ha by (unfold a; lia). assert (a < 2 ^ (Z.log2 a + 1)) as Hl.
  { destruct (decide (a = 0)) as [->|]; [done|]. apply Z.log2_spec. lia. }
  pose proof (Z.log2_nonneg a). destruct (Z.leb_spec drop 0) as [Hd|Hd]; cbn [man]; rewrite Z.abs_mul.
  - assert (2 ^ (Z.log2 a + 1) <= 2 ^ 24) by (apply Z.pow_le_mono_r; unfold drop in Hd; lia).
    assert (Z.abs (Z.sgn m) <= 1) by lia. rewrite (Z.abs_eq a) by done. nia.
  - assert (a / 2 ^ drop < 2 ^ 24) as Hq.
    { apply Z.div_lt_upper_bound; [apply Z.pow_pos_nonneg; lia|]. rewrite <- Z.pow_add_r by lia.
      eapply Z.lt_le_trans; [exact Hl|]. apply Z.pow_le_mono_r; [lia|]. unfold drop. lia. }
    assert (0 <= a / 2 ^ drop) by (apply Z.div_pos; [done|apply Z.pow_pos_nonneg; lia]).
    assert (Z.abs (Z.sgn m) <= 1) by lia. case_match; nia.
Qed.

Lemma to_int_shift m j k : 0 <= j -> to_int (MkFloat (m * 2 ^ j) k) = to_int (MkFloat m (k + j)).
Proof.
  intros Hj. unfold to_int. cbn [man exp]. destruct (Z.ltb_spec k 0) as [Hk|Hk], (Z.ltb_spec (k + j) 0) as [Hkj|Hkj].
  - replace (- k) with (j + - (k + j)) by lia. rewrite (Z.pow_add_r 2 j) by lia. rewrite (Z.mul_comm (2 ^ j)).
    apply Z.quot_mul_cancel_r; apply Z.pow_nonzero; lia.
  - replace j with ((k + j) + - k) at 1 by lia. rewrite Z.pow_add_r, Z.mul_assoc by lia. apply Z.quot_mul. apply Z.pow_nonzero; lia.
  - lia.
  - rewrite (Z.pow_add_r 2 k j) by lia. lia.
Qed.

(** Trailing zeros do not count. *)
Lemma to_int_rnd m j k :
  Z.abs m < 2 ^ 24 -> 0 <= j -> -149 <= k -> to_int (rnd (m * 2 ^ j) k) = to_int (MkFloat m (k + j)).
Proof.
  intros Hm Hj Hk. unfold rnd, round_to. rewrite Z.abs_mul, (Z.abs_eq (2 ^ j)) by (apply Z.pow_nonneg; lia).
  rewrite Z.sgn_mul, (Z.sgn_pos (2 ^ j)), Z.mul_1_r by (apply Z.pow_pos_nonneg; lia). set (drop := Z.max _ _).
  assert (Z.sgn m * Z.abs m = m) as Esg by lia.
  destruct (Z.leb_spec drop 0) as [Hd|Hd]; [by rewrite Z.mul_assoc, Esg, to_int_shift by done|].
  assert (drop <= j) as Hdj.
  { destruct (decide (m = 0)) as [->|Hm0]; [exfalso; unfold drop in Hd; change (Z.abs 0) with 0 in Hd; rewrite Z.mul_0_l in Hd; change (Z.log2 0) with 0 in Hd; lia|].
    unfold drop.
    rewrite Z.log2_mul_pow2 by lia. assert (Z.log2 (Z.abs m) < 24) by (apply Z.log2_lt_pow2; lia). lia. }
  assert (Z.abs m * 2 ^ j = Z.abs m * 2 ^ (j - drop) * 2 ^ drop) as ->.
  { rewrite <- Z.mul_assoc, <- Z.pow_add_r by lia. do 2 f_equal. lia. }
  rewrite Z.div_mul, Z.mod_mul by (apply Z.pow_nonzero; lia).
  assert (0 < 2 ^ (drop - 1)) by (apply Z.pow_pos_nonneg; lia).
  rewrite (proj2 (Z.ltb_ge _ _)), (proj2 (Z.eqb_neq _ _)) by lia. cbn [orb andb].
  rewrite Z.mul_assoc, Esg, to_int_shift by lia. do 2 f_equal. lia.
Qed.

Lemma pow_split e : -149 <= e < 0 -> 2 ^ 1000 = 2 ^ (- e) * 2 ^ (e - -1000).
Proof. intros. rewrite <- Z.pow_add_r by lia. f_equal. lia. Qed.

(** A truncation of 0 is a number below 1. *)
Lemma to_int_zero a : -149 <= exp a -> Z.abs (to_int a) < 1 -> Z.abs (scaled a) < 2 ^ 1000.
Proof.
  intros He Ht. unfold units. rewrite Z.abs_mul, (Z.abs_eq (2 ^ _)) by (apply Z.pow_nonneg; lia).
  unfold to_int in Ht. destruct (Z.ltb_spec (exp a) 0) as [Hn|Hp].
  - assert (Z.abs (man a) < 2 ^ (- exp a)) as Hm.
    { assert (0 < 2 ^ (- exp a)) by (apply Z.pow_pos_nonneg; lia).
      assert (Z.quot (man a) (2 ^ (- exp a)) = 0) as E by lia. apply Z.quot_small_iff in E; lia. }
    rewrite (pow_split (exp a)) by lia. apply Z.mul_lt_mono_pos_r; [apply Z.pow_pos_nonneg; lia|done].
  - assert (0 < 2 ^ exp a) by (apply Z.pow_pos_nonneg; lia). assert (man a = 0) as -> by nia. done.
Qed.

Lemma to_int_small a : -149 <= exp a -> Z.abs (to_int a) < 1 -> at_most 1 a.
Proof. intros He Ht. split; [done|]. rewrite Z.mul_1_l. by apply Z.lt_le_incl, to_int_zero. Qed.

Lemma to_int_large a : -149 <= exp a -> 1 <= Z.abs (to_int a) -> 2 ^ 1000 <= Z.abs (scaled a).
Proof.
  intros He Ht. unfold units. rewrite Z.abs_mul, (Z.abs_eq (2 ^ _)) by (apply Z.pow_nonneg; lia).
  unfold to_int in Ht. destruct (Z.ltb_spec (exp a) 0) as [Hn|Hp].
  - assert (0 < 2 ^ (- exp a)) as Hpos by (apply Z.pow_pos_nonneg; lia).
    assert (2 ^ (- exp a) <= Z.abs (man a)) as Hm.
    { destruct (decide (2 ^ (- exp a) <= Z.abs (man a))) as [|Hlt]; [done|]. exfalso.
      assert (Z.quot (man a) (2 ^ (- exp a)) = 0) as E by (apply Z.quot_small_iff; lia). rewrite E in Ht. done. }
    rewrite (pow_split (exp a)) by lia.
    apply Z.mul_le_mono_nonneg_r; [apply Z.pow_nonneg; lia|lia].
  - replace (exp a - -1000) with (exp a + 1000) by lia. rewrite Z.pow_add_r, Z.mul_assoc by lia.
    rewrite Z.abs_mul, (Z.abs_eq (2 ^ exp a)) in Ht by (apply Z.pow_nonneg; lia). nia.
Qed.

Lemma exp_at_most a e : 0 <= e -> at_most (2 ^ e) a -> man a <> 0 -> exp a <= e.
Proof.
  intros He [Ha Hb] Hm. unfold units in Hb. rewrite Z.abs_mul, (Z.abs_eq (2 ^ _)) in Hb by (apply Z.pow_nonneg; lia).
  rewrite <- Z.pow_add_r in Hb by lia. assert (2 ^ (exp a - -1000) <= 2 ^ (e + 1000)) as Hp.
  { assert (0 <= 2 ^ (exp a - -1000)) by (apply Z.pow_nonneg; lia). nia. }
  apply Z.pow_le_mono_r_iff in Hp; lia.
Qed.

(** ** Errors

    How far a result is from the exact one, in units of [2^-1000]. *)

Lemma round_to_close p emin m k :
  0 <= m -> 0 < p -> let '(q, k') := round_to p emin m k in
  k <= k' /\ (2 ^ p * Z.abs (q * 2 ^ (k' - k) - m) <= m \/ k' = emin /\ 2 * Z.abs (q * 2 ^ (k' - k) - m) <= 2 ^ (k' - k)).
Proof.
  intros Hm Hp. unfold round_to. set (drop := Z.max _ _). destruct (Z.leb_spec drop 0) as [Hd|Hd].
  - split; [lia|]. left. rewrite Z.sub_diag. replace (m * 2 ^ 0 - m) with 0 by lia. lia.
  - split; [lia|]. replace (k + drop - k) with drop by lia.
    assert (2 ^ drop = 2 * 2 ^ (drop - 1)) as Eh by (rewrite <- Z.pow_succ_r by lia; f_equal; lia).
    pose proof (Z.pow_pos_nonneg 2 (drop - 1) ltac:(lia) ltac:(lia)) as Hpos.
    pose proof (Z.div_mod m (2 ^ drop) ltac:(lia)) as Edm. pose proof (Z.mod_pos_bound m (2 ^ drop) ltac:(lia)) as Hr.
    match goal with |- context [Z.abs (?x * 2 ^ drop - m)] => assert (Z.abs (x * 2 ^ drop - m) <= 2 ^ (drop - 1)) as He end.
    { case_match eqn:E; [apply orb_true_iff in E as [?%Z.ltb_lt|[?%Z.eqb_eq _]%andb_true_iff]|apply orb_false_iff in E as [?%Z.ltb_ge _]]; nia. }
    destruct (Z.max_spec (Z.log2 m + 1 - p) (emin - k)) as [[_ E]|[_ E]]; fold drop in E.
    + right. split; lia.
    + left. destruct (decide (m = 0)) as [->|Hm0]; [cbn in E; lia|]. pose proof (Z.log2_spec m ltac:(lia)) as [Hl _].
      assert (2 ^ p * 2 ^ (drop - 1) = 2 ^ Z.log2 m) as Ep by (rewrite <- Z.pow_add_r by lia; f_equal; lia).
      pose proof (Z.pow_pos_nonneg 2 p ltac:(lia) ltac:(lia)). nia.
Qed.

Lemma rnd_close m k : -1000 <= k -> 2 ^ 24 * Z.abs (scaled (rnd m k) - m * 2 ^ (k + 1000)) <= Z.abs m * 2 ^ (k + 1000) + 2 ^ 874.
Proof.
  intros Hk. unfold rnd. pose proof (round_to_close 24 (-149) (Z.abs m) k (Z.abs_nonneg m) ltac:(lia)) as Hr.
  destruct (round_to 24 (-149) (Z.abs m) k) as [q k']. destruct Hr as [Hkk Hb]. unfold units. cbn [man exp].
  replace (k' - -1000) with ((k' - k) + (k + 1000)) by lia. rewrite Z.pow_add_r by lia.
  assert (0 < 2 ^ (k + 1000)) as Hpos by (apply Z.pow_pos_nonneg; lia).
  replace (Z.sgn m * q * (2 ^ (k' - k) * 2 ^ (k + 1000)) - m * 2 ^ (k + 1000)) with (Z.sgn m * (q * 2 ^ (k' - k) - Z.abs m) * 2 ^ (k + 1000))
    by (rewrite <- (Z.abs_sgn m) at 3; lia).
  rewrite !Z.abs_mul, (Z.abs_eq (2 ^ (k + 1000))) by lia. assert (0 <= Z.abs (Z.sgn m) <= 1) as Hs by lia.
  set (e := Z.abs (q * 2 ^ (k' - k) - Z.abs m)) in *. assert (0 <= e) as He by (unfold e; lia). rewrite Z.mul_assoc.
  assert (2 ^ 24 * (Z.abs (Z.sgn m) * e) <= 2 ^ 24 * e) as H1 by nia. destruct Hb as [Hb|[-> Hb]].
  - assert (0 < 2 ^ 874) by lia. nia.
  - assert (2 ^ 24 * e * 2 ^ (k + 1000) <= 2 ^ 874).
    { assert (2 ^ (-149 - k) * 2 ^ (k + 1000) = 2 ^ 851) as E by (rewrite <- Z.pow_add_r by lia; f_equal; lia).
      assert (2 * e * 2 ^ (k + 1000) <= 2 ^ 851) as H2 by (rewrite <- E; apply Z.mul_le_mono_nonneg_r; lia).
      change (2 ^ 874) with (2 ^ 23 * 2 ^ 851). lia. }
    assert (0 <= Z.abs m * 2 ^ (k + 1000)) by nia. nia.
Qed.

Lemma fadd_close a b :
  -149 <= exp a -> -149 <= exp b -> 2 ^ 24 * Z.abs (scaled (fadd a b) - (scaled a + scaled b)) <= Z.abs (scaled a + scaled b) + 2 ^ 874.
Proof.
  intros Ha Hb. unfold fadd. set (k := fexp a b). assert (-149 <= k <= exp a /\ k <= exp b) by (unfold k, fexp; lia).
  pose proof (rnd_close (units k a + units k b) k ltac:(lia)) as Hr. assert (0 < 2 ^ (k + 1000)) by (apply Z.pow_pos_nonneg; lia).
  rewrite (units_scale (-1000) k a), (units_scale (-1000) k b), <- Z.mul_add_distr_r by lia. replace (k - -1000) with (k + 1000) by lia.
  by rewrite Z.abs_mul, (Z.abs_eq (2 ^ (k + 1000))) by lia.
Qed.

(** A whole number times [a]. *)
Lemma fmul_close a j : -149 <= exp a -> 2 ^ 24 * Z.abs (scaled (fmul a (MkFloat (2 * j) (-1))) - scaled a * j) <= Z.abs (scaled a * j) + 2 ^ 874.
Proof.
  intros Ha. unfold fmul. cbn [man exp]. pose proof (rnd_close (man a * (2 * j)) (exp a + -1) ltac:(lia)) as Hr.
  assert (man a * (2 * j) * 2 ^ (exp a + -1 + 1000) = scaled a * j) as E.
  { unfold units. replace (exp a - -1000) with (Z.succ (exp a + -1 + 1000)) by lia. rewrite Z.pow_succ_r by lia. lia. }
  rewrite E in Hr. assert (0 < 2 ^ (exp a + -1 + 1000)) by (apply Z.pow_pos_nonneg; lia).
  rewrite <- (Z.abs_eq (2 ^ (exp a + -1 + 1000))), <- Z.abs_mul, E in Hr by lia. done.
Qed.

(** The quotient, before it is rounded. *)
Lemma sticky_close n d :
  0 < d -> 0 <= n -> Z.abs ((2 * (n / d) + (if n mod d =? 0 then 0 else 1)) * d - 2 * n) <= d.
Proof.
  intros Hd Hn. pose proof (Z.div_mod n d ltac:(lia)). pose proof (Z.mod_pos_bound n d Hd). destruct (Z.eqb_spec (n mod d) 0); nia.
Qed.

Lemma sgn_one x : x <> 0 -> Z.abs (Z.sgn x) = 1.
Proof. lia. Qed.

Lemma abs_signed a b X : 0 <= X -> Z.abs (Z.sgn a * Z.sgn b * X) <= X.
Proof. intros HX. rewrite !Z.abs_mul, (Z.abs_eq X) by done. assert (0 <= Z.abs (Z.sgn a) <= 1) by lia. assert (0 <= Z.abs (Z.sgn b) <= 1) by lia. nia. Qed.

Lemma quotient_close D X sa sb d n be ga T :
  0 < d -> 0 <= X -> 0 < be -> 0 < ga -> 0 <= T -> Z.abs sb = 1 ->
  2 ^ 24 * Z.abs (D - sa * sb * X * ga) <= X * ga + T -> Z.abs (X * d - 2 * n) <= d ->
  (sa = 0 /\ n = 0 /\ X = 0) \/ (Z.abs sa = 1 /\ 2 ^ 25 * d <= n) ->
  2 ^ 27 * Z.abs (D * (sb * d * be) - sa * (2 * n) * (ga * be)) <= 11 * (2 * n * (ga * be)) + 8 * T * (d * be).
Proof.
  intros Hd HX Hbe Hga HT Hsb HD Hq Hc. assert (sb * sb = 1) as Esb by nia.
  replace (D * (sb * d * be) - sa * (2 * n) * (ga * be)) with ((D - sa * sb * X * ga) * (sb * d * be) + sa * (X * d - 2 * n) * (ga * be)) by nia.
  set (e := D - sa * sb * X * ga) in *. set (f := X * d - 2 * n) in *. set (w := ga * be). assert (0 < w) as Hw by (unfold w; nia).
  assert (Z.abs (e * (sb * d * be) + sa * f * w) <= Z.abs e * (d * be) + Z.abs (sa * f) * w) as Htri.
  { etransitivity; [apply Z.abs_triangle|]. rewrite !Z.abs_mul, Hsb, (Z.abs_eq d), (Z.abs_eq be), (Z.abs_eq w) by lia. lia. }
  assert (2 ^ 24 * Z.abs e * (d * be) <= X * d * w + T * (d * be)) as He.
  { assert (0 < d * be) by nia. unfold w. transitivity ((X * ga + T) * (d * be)); [apply Z.mul_le_mono_nonneg_r; lia|lia]. }
  destruct Hc as [(-> & -> & ->)|[Hsa Hbig]].
  - rewrite Z.mul_0_l in *. cbn in Htri. lia.
  - assert (Z.abs (sa * f) <= d) as Hf by (rewrite Z.abs_mul, Hsa; lia).
    assert (Z.abs (sa * f) * w <= d * w) by (apply Z.mul_le_mono_nonneg_r; lia).
    assert (X * d * w <= (2 * n + d) * w) by (apply Z.mul_le_mono_nonneg_r; lia).
    assert (2 ^ 25 * d * w <= n * w) by (apply Z.mul_le_mono_nonneg_r; lia). lia.
Qed.

Lemma fdiv_close a b :
  -149 <= exp a -> -149 <= exp b <= 100 -> man b <> 0 -> Z.abs (man b) < 2 ^ 30 ->
  2 ^ 27 * Z.abs (scaled (fdiv a b) * scaled b - scaled a * 2 ^ 1000) <= 11 * (Z.abs (scaled a) * 2 ^ 1000) + 2 ^ 877 * Z.abs (scaled b).
Proof.
  intros Ea Eb Hb0 Hb. unfold fdiv. set (s := Z.max 0 _). set (d := Z.abs (man b)) in *. set (n := Z.abs (man a) * 2 ^ s).
  set (X := 2 * (n / d) + _). set (k := exp a - exp b - s - 1).
  assert (0 < d) as Hd by (unfold d; lia). assert (0 <= s <= 56) as Hs.
  { unfold s. assert (Z.log2 d < 30) by (by apply Z.log2_lt_pow2). pose proof (Z.log2_nonneg (Z.abs (man a))). lia. }
  assert (0 < 2 ^ s) as Hps by (apply Z.pow_pos_nonneg; lia). assert (0 <= n) as Hn by (unfold n; nia).
  assert (0 <= X) as HX0 by (unfold X; pose proof (Z.div_pos n d Hn Hd); case_match; lia).
  pose proof (rnd_close (Z.sgn (man a) * Z.sgn (man b) * X) k ltac:(unfold k; lia)) as Hr.
  assert (0 < 2 ^ (exp b - -1000)) as Hbe by (apply Z.pow_pos_nonneg; lia). assert (0 < 2 ^ (k + 1000)) as Hga by (apply Z.pow_pos_nonneg; unfold k; lia).
  assert ((Z.sgn (man a) = 0 /\ n = 0 /\ X = 0) \/ (Z.abs (Z.sgn (man a)) = 1 /\ 2 ^ 25 * d <= n)) as Hc.
  { destruct (decide (man a = 0)) as [E0|Hma]; [left|right; split; [by apply sgn_one|]].
    - assert (n = 0) as En by (unfold n; rewrite E0; lia). unfold X. rewrite En, Z.div_0_l, Z.mod_0_l, E0 by lia. done.
    - pose proof (Z.log2_nonneg (Z.abs (man a))). pose proof (Z.log2_nonneg d).
      replace (2 ^ 25 * d) with (d * 2 ^ 25) by lia. apply (shift_enough (Z.abs (man a)) (d * 2 ^ 25)); [lia|nia|lia|]. rewrite Z.log2_mul_pow2 by lia. unfold s. lia. }
  assert (scaled b = Z.sgn (man b) * d * 2 ^ (exp b - -1000)) as EB by (unfold units, d; rewrite <- (Z.abs_sgn (man b)) at 1; lia).
  assert (2 ^ (exp a - -1000) * 2 ^ 1000 = 2 * 2 ^ s * (2 ^ (k + 1000) * 2 ^ (exp b - -1000))) as Ew.
  { rewrite <- Z.pow_succ_r, <- !Z.pow_add_r by (unfold k; lia). f_equal. unfold k. lia. }
  assert (scaled a * 2 ^ 1000 = Z.sgn (man a) * (2 * n) * (2 ^ (k + 1000) * 2 ^ (exp b - -1000))) as EA.
  { unfold units. rewrite <- Z.mul_assoc, Ew. unfold n. rewrite <- (Z.abs_sgn (man a)) at 1. lia. }
  assert (Z.abs (scaled a) * 2 ^ 1000 = 2 * n * (2 ^ (k + 1000) * 2 ^ (exp b - -1000))) as EAa.
  { unfold units. rewrite Z.abs_mul, (Z.abs_eq (2 ^ _)) by (apply Z.pow_nonneg; lia). rewrite <- Z.mul_assoc, Ew. unfold n. lia. }
  assert (Z.abs (scaled b) = d * 2 ^ (exp b - -1000)) as EBa.
  { unfold units. rewrite Z.abs_mul, (Z.abs_eq (2 ^ _)) by (apply Z.pow_nonneg; lia). done. }
  rewrite EBa, EAa, EB, EA. change (2 ^ 877) with (8 * 2 ^ 874).
  apply (quotient_close _ X _ _ d n _ _ (2 ^ 874)); [exact Hd|exact HX0|exact Hbe|exact Hga|by apply Z.pow_nonneg|by apply sgn_one| |by apply sticky_close|exact Hc].
  etransitivity; [exact Hr|]. apply Z.add_le_mono_r, Z.mul_le_mono_nonneg_r; [by apply Z.lt_le_incl|by apply abs_signed].
Qed.

(** The integer below a number that is not negative. *)
Lemma to_int_floor a : -149 <= exp a -> 0 <= scaled a -> to_int a * 2 ^ 1000 <= scaled a < (to_int a + 1) * 2 ^ 1000.
Proof.
  intros Ha Hp. assert (0 < 2 ^ (exp a - -1000)) as Hpos by (apply Z.pow_pos_nonneg; lia). assert (0 <= man a) as Hm by (unfold units in Hp; nia).
  unfold to_int, units. destruct (Z.ltb_spec (exp a) 0) as [Hn|Hn].
  - rewrite (pow_split (exp a)) by lia. assert (0 < 2 ^ (- exp a)) as Hq by (apply Z.pow_pos_nonneg; lia). rewrite Z.quot_div_nonneg by lia.
    pose proof (Z.div_mod (man a) (2 ^ (- exp a)) ltac:(lia)) as E. pose proof (Z.mod_pos_bound (man a) (2 ^ (- exp a)) Hq) as Hr. rewrite !Z.mul_assoc. split.
    + apply Z.mul_le_mono_nonneg_r; lia.
    + apply Z.mul_lt_mono_pos_r; lia.
  - replace (exp a - -1000) with (exp a + 1000) by lia. rewrite Z.pow_add_r by lia. assert (0 < 2 ^ 1000) by lia. lia.
Qed.
