(* ===== verification/Pathfinder.v ===== *)
(** * The grid path finder (pathfinder.c, lua-pathfinder.c)

    A grid of cells, each with a block type (0 is impassable), and an A* search over the
    eight neighbours of a cell. A cell is a [node]; its [list_node] puts it in the closed
    list or in the list of neighbours at hand, its [element] in the heap of open nodes. *)

From S2P Require Import Prelude Outcome MinHeap List LuaValue Float32.

#[local] Open Scope c_scope.

Definition MARK_MAX : Z := 64.

(** A pointer to a node is its index in the array of nodes. *)
Abbreviation nptr := Z.

(** The addresses of list nodes: those in the nodes and the sentinels of the two lists. *)
Inductive list_name := Close | Neighbors.
Inductive ptr := PNode (i : nptr) | PHead (l : list_name) | PTail (l : list_name).

#[export] Instance list_name_eq_dec : EqDecision list_name.
Proof. solve_decision. Defined.
#[export] Instance ptr_eq_dec : EqDecision ptr.
Proof. solve_decision. Defined.
#[export] Instance list_name_countable : Countable list_name.
Proof.
  refine (inj_countable' (fun l => match l with Close => true | Neighbors => false end)
            (fun b : bool => if b then Close else Neighbors) _). by intros [].
Defined.
#[export] Instance ptr_countable : Countable ptr.
Proof.
  refine (inj_countable'
    (fun p => match p with PNode i => inl i | PHead l => inr (inl l) | PTail l => inr (inr l) end)
    (fun p => match p with inl i => PNode i | inr (inl l) => PHead l | inr (inr l) => PTail l end) _). by intros [].
Defined.

(** [struct node] without its list node and its heap element, which live in the store of
    links and among the elements of the heap. *)
Record node_t := MkNode { parent : option nptr; nx : Z; nz : Z; block : Z; G : float; H : float; F : float }.

#[export] Instance node_eta : Eta node_t :=
  fun k => MkNode (parent k) (nx k) (nz k) (block k) (G k) (H k) (F k).
#[export] Instance set_parent : Setter parent := ltac:(field_setter).
#[export] Instance set_nx : Setter nx := ltac:(field_setter).
#[export] Instance set_nz : Setter nz := ltac:(field_setter).
#[export] Instance set_block : Setter block := ltac:(field_setter).
#[export] Instance set_G : Setter G := ltac:(field_setter).
#[export] Instance set_H : Setter H := ltac:(field_setter).
#[export] Instance set_F : Setter F := ltac:(field_setter).

(** [struct pathfinder], and the calls of the callbacks [cb] and [dump] so far. *)
Record pathfinder_t := MkFinder {
  width : Z; heigh : Z; node : list node_t; data : list Z; mask : list Z;
  openlist : MinHeap.st; links : store ptr;
  called : list (Z * Z); dumped : list (Z * Z) }.

#[export] Instance finder_eta : Eta pathfinder_t :=
  fun k => MkFinder (width k) (heigh k) (node k) (data k) (mask k) (openlist k) (links k) (called k) (dumped k).
#[export] Instance set_width : Setter width := ltac:(field_setter).
#[export] Instance set_heigh : Setter heigh := ltac:(field_setter).
#[export] Instance set_node : Setter node := ltac:(field_setter).
#[export] Instance set_data : Setter data := ltac:(field_setter).
#[export] Instance set_mask : Setter mask := ltac:(field_setter).
#[export] Instance set_openlist : Setter openlist := ltac:(field_setter).
#[export] Instance set_links : Setter links := ltac:(field_setter).
#[export] Instance set_called : Setter called := ltac:(field_setter).
#[export] Instance set_dumped : Setter dumped := ltac:(field_setter).

Definition closelist : dlist ptr := MkList (PHead Close) (PTail Close).
Definition neighbors : dlist ptr := MkList (PHead Neighbors) (PTail Neighbors).

Definition direction : list (Z * Z) :=
  [(-1, 0); (1, 0); (0, -1); (0, 1); (-1, -1); (-1, 1); (1, -1); (1, 1)].

(** The element of a node, and back. *)
Definition elt (i : nptr) : eid := Z.to_pos (i + 1).
Definition CAST (e : eid) : nptr := Z.pos e - 1.

Abbreviation P := (M pathfinder_t).

Definition heap {A} (m : M MinHeap.st A) : P A := zoom openlist (set_field openlist) m.
Definition lst {A} (m : M (store ptr) A) : P A := zoom links (set_field links) m.

Definition node_get (i : nptr) : P node_t := s ← get; deref OutOfBounds (aget (node s) i).
Definition node_upd (i : nptr) (f : node_t -> node_t) : P unit :=
  n ← node_get i; modify (fun s => s <| node := aset (node s) i (f n) |>).

(** [cb(ud, x, z)] and [dump(ud, x, z)] *)
Definition cb (x z : Z) : P unit := modify (fun s => s <| called := called s ++ [(x, z)] |>).
Definition dump_cb (x z : Z) : P unit := modify (fun s => s <| dumped := dumped s ++ [(x, z)] |>).

(** ** The search *)

Definition find_node (s : pathfinder_t) (x z : Z) : option nptr :=
  if (x <? 0) || (width s <=? x) || (z <? 0) || (heigh s <=? z) then None
  else Some (x * heigh s + z).

Definition linked_node (i : nptr) : P bool :=
  l ← lst (link_get (PNode i));
  mret (bool_decide (pre l <> None) || bool_decide (next l <> None)).

(** Whether there is one; the neighbours are in the list. *)
Definition find_neighbors (cur : nptr) : P bool :=
  e ← lst (list_empty neighbors);
  c_assert e;;
  for_each direction (fun '(dx, dz) =>
    n ← node_get cur;
    s ← get;
    match find_node s (nx n + dx) (nz n + dz) with
    | None => mret tt
    | Some neighbor =>
        l ← linked_node neighbor;
        if l : bool then mret tt else
        m ← node_get neighbor;
        when (negb (block m =? 0)) (lst (list_push neighbors (PNode neighbor)))
    end);;
  e ← lst (list_empty neighbors);
  mret (negb e).

Definition neighbor_cost (from to : node_t) : float :=
  let dx := nx from - nx to in
  let dz := nz from - nz to in
  let i := from_option fst 8%nat (list_find (fun d => d = (dx, dz)) direction) in
  if (i <? 4)%nat then of_int 50 else of_int 60.

Definition GOAL_COST (from to : node_t) (cost : float) : float :=
  fadd (fmul (of_int (Z.abs (nx from - nx to))) cost) (fmul (of_int (Z.abs (nz from - nz to))) cost).

Definition clear_node (i : nptr) : P unit :=
  node_upd i (fun n => n <| parent := None |>);;
  node_upd i (fun n => n <| H := of_int 0 |>);;
  node_upd i (fun n => n <| G := H n |>);;
  node_upd i (fun n => n <| F := G n |>);;
  heap (index_set (Some (elt i)) 0).

Definition heap_clear (e : eid) : P unit := clear_node (CAST e).

(** [(node_t * )list_pop(dl)]; the nodes come first in their struct. *)
Definition pop_node (dl : dlist ptr) : P (option nptr) :=
  o ← lst (list_pop dl);
  match o with
  | None => mret None
  | Some (PNode i) => mret (Some i)
  | Some _ => crash UndefinedBehaviour
  end.

Definition reset : P unit :=
  s ← get;
  loop (S (length (node s))) (fun _ =>
    o ← pop_node closelist;
    match o with
    | Some i => clear_node i;; mret (inl tt)
    | None => mret (inr tt)
    end) tt;;
  minheap_clear openlist (set_field openlist) (Some heap_clear).

(** The comparison of the heap reads the nodes. *)
Definition key (ns : list node_t) (e : eid) : float := from_option F (of_int 0) (aget ns (CAST e)).
Definition less (ns : list node_t) (left right : eid) : bool := fltb (key ns left) (key ns right).

(** One round of the walk along the parents, with the direction of the last step. *)
Definition path_round (from : nptr) '((current, dx0, dz0) : option nptr * Z * Z) : P ((option nptr * Z * Z) + unit) :=
  match current with
  | None => mret (inr tt)
  | Some current =>
      c ← node_get current;
      if negb (current =? from) then
        match parent c with
        | Some pa =>
            p ← node_get pa;
            let dx1 := nx c - nx p in
            let dz1 := nz c - nz p in
            (if negb (dx0 =? dx1) || negb (dz0 =? dz1) then
               cb (nx c) (nz c);; mret (inl (parent c, dx1, dz1))
             else mret (inl (parent c, dx0, dz0)))
        | None => cb (nx c) (nz c);; mret (inr tt)
        end
      else cb (nx c) (nz c);; mret (inr tt)
  end.

Definition make_path (current from : nptr) : P unit :=
  c ← node_get current;
  cb (nx c) (nz c);;
  c_assert (bool_decide (parent c <> None));;
  pa ← deref NullDeref (parent c);
  p ← node_get pa;
  s ← get;
  loop (S (length (node s))) (path_round from) (Some pa, nx c - nx p, nz c - nz p).

(** One neighbour of [current] that is not closed. *)
Definition relax (current to nd : nptr) (cost : float) (dump : bool) : P unit :=
  i ← heap (index_get (Some (elt nd)));
  c ← node_get current;
  n ← node_get nd;
  if negb (i =? 0) then
    let g := fadd (G c) (neighbor_cost c n) in
    let nG := to_int g in
    require UndefinedBehaviour (bool_decide (in_s 32 nG));;
    when (fltb (of_int nG) (G n)) (
      node_upd nd (fun n => n <| G := of_int nG |>);;
      node_upd nd (fun n => n <| F := fadd (G n) (H n) |>);;
      node_upd nd (fun n => n <| parent := Some current |>);;
      s ← get;
      heap (minheap_change (less (node s)) (elt nd)))
  else
    t ← node_get to;
    node_upd nd (fun n => n <| parent := Some current |>);;
    node_upd nd (fun n => n <| G := fadd (G c) (neighbor_cost c n) |>);;
    node_upd nd (fun n => n <| H := GOAL_COST n t cost |>);;
    node_upd nd (fun n => n <| F := fadd (G n) (H n) |>);;
    s ← get;
    heap (minheap_push (less (node s)) (elt nd));;
    when dump (dump_cb (nx n) (nz n)).

(** [while ((node = list_pop(neighbors)))]: there are at most eight. *)
Definition relax_all (current to : nptr) (cost : float) (dump : bool) : P unit :=
  loop 9 (fun _ =>
    o ← pop_node neighbors;
    match o with
    | Some nd => relax current to nd cost dump;; mret (inl tt)
    | None => mret (inr tt)
    end) tt.

(** One round of the search: the result when it ends. *)
Definition find_round (from to : nptr) (cost : float) (dump : bool) : P (option Z) :=
  s ← get;
  e ← heap (minheap_pop (less (node s)));
  match e with
  | None => reset;; mret (Some 0)
  | Some e =>
      let current := CAST e in
      lst (list_push closelist (PNode current));;
      if current =? to then
        make_path current from;; reset;; mret (Some 1)
      else
        b ← find_neighbors current;
        when b (relax_all current to cost dump);;
        mret None
  end.

(** Every round but the last closes a node. *)
Definition finder_find (x0 z0 x1 z1 : Z) (dump : bool) (cost : float) : P Z :=
  s ← get;
  match find_node s x0 z0, find_node s x1 z1 with
  | Some from, Some to =>
      t ← node_get to;
      if (from =? to) || (block t =? 0) then mret 0 else
      heap (minheap_push (less (node s)) (elt from));;
      loop (S (S (length (node s)))) (fun _ =>
        r ← find_round from to cost dump;
        mret (match r with Some r => inr r | None => inl tt end)) tt
  | _, _ => mret 0
  end.

(** ** Creation *)

(** Memory after [memset] to 0. *)
Definition node_zero : node_t := MkNode None 0 0 0 (of_int 0) (of_int 0) (of_int 0).
Definition finder_zero : pathfinder_t :=
  MkFinder 0 0 [] [] (replicate (Z.to_nat MARK_MAX) 0) (MkSt (MkHeap 0 0 []) ∅) ∅ [] [].

(** The list nodes and heap elements in the array of [n] nodes, and the sentinels. *)
Definition unlinked : list_node ptr := MkLink None None.
Definition links_zero (n : Z) : store ptr :=
  list_to_map ((fun p => (p, unlinked)) <$>
    ([PHead Close; PTail Close; PHead Neighbors; PTail Neighbors] ++ (PNode <$> seqZ 0 n))).
Definition index_zero (n : Z) : gmap eid Z := list_to_map ((fun i => (elt i, 0)) <$> seqZ 0 n).

(** From [finder_zero]. The product is an [int]; a negative one makes [malloc] fail, and
    its result is not checked. *)
Definition finder_create (w h : Z) (dat : bytes) : P unit :=
  modify (fun s => s <| width := w |>);;
  modify (fun s => s <| heigh := h |>);;
  require SignedOverflow (bool_decide (in_s 32 (w * h)));;
  require NullDeref (0 <=? w * h);;
  modify (fun s => s <| node := replicate (Z.to_nat (w * h)) node_zero |>);;
  modify (fun s => s <| links := links_zero (w * h) |>);;
  modify (fun s => s <| openlist := MkSt (mh (openlist s)) (index_zero (w * h)) |>);;
  d ← deref OutOfBounds (slice dat 0 (w * h));
  modify (fun s => s <| data := (fun b => s8 (b2z b)) <$> d |>);;
  for_each (seqZ 0 w) (fun i =>
    for_each (seqZ 0 h) (fun j =>
      let idx := i * h + j in
      node_upd idx (fun n => n <| nx := i |>);;
      node_upd idx (fun n => n <| nz := j |>);;
      s ← get;
      c ← deref OutOfBounds (aget (data s) idx);
      node_upd idx (fun n => n <| block := c |>)));;
  modify (fun s => s <| openlist := MkSt (minheap_create (50 * 50)) (index (openlist s)) |>);;
  lst (list_init closelist);;
  lst (list_init neighbors).

(** ** Movable cells and the mask *)

Definition movable (x z ignore : Z) : P Z :=
  s ← get;
  match find_node s x z with
  | None => mret 0
  | Some i =>
      n ← node_get i;
      if negb (ignore =? 0) then mret (Z.b2z (negb (block n =? 0))) else
      m ← deref OutOfBounds (aget (mask s) (block n));
      mret (Z.b2z (m =? 1))
  end.

Definition finder_movable (x z ignore : Z) : P Z := movable x z ignore.

Definition finder_mask_set (index enable : Z) : P unit :=
  if (index <? 0) || (MARK_MAX <=? index) then mret tt
  else modify (fun s => s <| mask := aset (mask s) index (s8 enable) |>).

Definition finder_mask_reset : P unit :=
  for_each (seqZ 0 MARK_MAX) (fun i => modify (fun s => s <| mask := aset (mask s) i 0 |>)).

(** ** Rays *)

(** A [float] passed as an [int]. *)
Definition f2i (a : float) : P Z :=
  require UndefinedBehaviour (bool_decide (in_s 32 (to_int a)));; mret (to_int a).

(** One of the six loops of [finder_raycast]: [v] goes from [v0] by [inc] while [go v];
    [cell v] is the cell looked at, [at_v v] what [rx] and [rz] become when it is movable.
    The result says whether an obstacle was found. *)
Definition ray_loop (fuel : nat) (v0 inc : float) (go : float -> bool) (cell : float -> P (Z * Z))
    (at_v : float -> float * float) (ignore : Z) (dump : bool) (r0 : float * float) : P (bool * (float * float)) :=
  loop fuel (fun '(v, r) =>
    if go v then
      c ← cell v;
      when dump (dump_cb c.1 c.2);;
      m ← movable c.1 c.2 ignore;
      if m =? 0 then mret (inr (true, r)) else mret (inl (fadd v inc, at_v v))
    else mret (inr (false, r))) (v0, r0).

Definition cell_of (p : float * float) : P (Z * Z) := x ← f2i p.1; z ← f2i p.2; mret (x, z).

(** What follows the loops: the target, unless an obstacle was found. *)
Definition ray_end (x1 z1 : Z) (fx1 fz1 : float) (ignore : Z) (r : bool * (float * float)) : P (Z * Z) :=
  let '(founded, (rx, rz)) := r in
  r ← (if negb founded then
         ex ← f2i fx1; ez ← f2i fz1;
         m ← movable ex ez ignore;
         mret (if m =? 1 then (of_int x1, of_int z1) else (rx, rz))
       else mret (rx, rz));
  cell_of r.

Definition finder_raycast (x0 z0 x1 z1 ignore : Z) (dump : bool) : P (Z * Z) :=
  let fx0 := fadd (of_int x0) half in
  let fz0 := fadd (of_int z0) half in
  let fx1 := fadd (of_int x1) half in
  let fz1 := fadd (of_int z1) half in
  let nx_ := S (S (Z.to_nat (Z.abs (x1 - x0)))) in
  let nz_ := S (S (Z.to_nat (Z.abs (z1 - z0)))) in
  let up := of_int 1 in
  let down := of_int (-1) in
  let slope := fdiv (fsub fz1 fz0) (fsub fx1 fx0) in
  let r0 := (fx0, fz0) in
  r ← (if feqb fx0 fx1 then
         let cell z := cz ← f2i z; mret (x0, cz) in
         let at_z z := (of_int x0, z) in
         if z0 <? z1 then ray_loop nz_ (of_int z0) up (fun z => fleb z (of_int z1)) cell at_z ignore dump r0
         else ray_loop nz_ (of_int z0) down (fun z => fleb (of_int z1) z) cell at_z ignore dump r0
       else
         k ← f2i slope;
         if Z.abs k <? 1 then
           let at_x x := (x, fadd (fmul slope (fsub x fx0)) fz0) in
           if fleb fx0 fx1 then ray_loop nx_ fx0 up (fun x => fleb x fx1) (fun x => cell_of (at_x x)) at_x ignore dump r0
           else ray_loop nx_ fx0 down (fun x => fleb fx1 x) (fun x => cell_of (at_x x)) at_x ignore dump r0
         else
           let at_z z := (fadd (fdiv (fsub z fz0) slope) fx0, z) in
           if fleb fz0 fz1 then ray_loop nz_ fz0 up (fun z => fleb z fz1) (fun z => cell_of (at_z z)) at_z ignore dump r0
           else ray_loop nz_ fz0 down (fun z => fleb fz1 z) (fun z => cell_of (at_z z)) at_z ignore dump r0);
  ray_end x1 z1 fx1 fz1 ignore r.

(** ** The Lua methods *)

(** [finder_callback] appends the two coordinates to the table. *)
Definition finder_callback (t : list Z) (c : Z * Z) : list Z := t ++ [c.1; c.2].

(** The table of [_find], or nothing. *)
Definition lua_find (x0 z0 x1 z1 : Z) : P (option (list Z)) :=
  modify (fun s => s <| called := [] |>);;
  ok ← finder_find (s32 x0) (s32 z0) (s32 x1) (s32 z1) false (of_int 50);
  s ← get;
  mret (if ok =? 0 then None else Some (foldl finder_callback [] (called s))).

Definition lua_raycast (x0 z0 x1 z1 ignore : Z) : P (Z * Z) :=
  finder_raycast (s32 x0) (s32 z0) (s32 x1) (s32 z1) (s32 ignore) false.

Definition lua_movable (x z ignore : Z) : P bool :=
  ok ← finder_movable (s32 x) (s32 z) (s32 ignore);
  mret (negb (ok =? 0)).

Definition lua_mask_set (index enable : Z) : P unit := finder_mask_set (s32 index) (s32 enable).
Definition lua_mask_reset : P unit := finder_mask_reset.

(** [create] with the contents of the file, if it can be opened. A file of less than eight
    bytes leaves [width] and [heigh] unset. *)
Definition lua_create (file : option bytes) : P unit :=
  match file with
  | None => luaL_error "no such file"
  | Some f =>
      require UndefinedBehaviour (8 <=? alen f);;
      let w := s32 (le_combine (take 4 f)) in
      let h := s32 (le_combine (take 4 (drop 4 f))) in
      finder_create w h (drop 8 f)
  end.

(** ** Runs *)

(** A finder for a grid of the given block types, row [x] by row. *)
Definition grid_of (rows : list (list Z)) : pathfinder_t :=
  after (finder_create (alen rows) (alen (default [] (rows !! 0%nat))) (z2b <$> mjoin rows)) finder_zero.
