(* ===== verification/PathfinderFind.v ===== *)
(** * The search of the path finder is sound and complete

    [finder_find] returns, leaves the finder as it found it but for the callbacks made, and
    finds a path exactly if there is one. *)

From S2P Require Import Prelude Outcome MinHeap List LuaValue Float32 Pathfinder.

#[local] Open Scope c_scope.

(** ** Paths on the grid *)

Abbreviation cell := (Z * Z)%type.

Definition adjacent (a b : cell) : Prop := a <> b /\ Z.abs (a.1 - b.1) <= 1 /\ Z.abs (a.2 - b.2) <= 1.

Definition block_at (s : pathfinder_t) (c : cell) : Z :=
  from_option block 0 (find_node s c.1 c.2 ≫= aget (node s)).

Definition inside (s : pathfinder_t) (c : cell) : Prop := 0 <= c.1 < width s /\ 0 <= c.2 < heigh s.

(** [walk s a b p]: the cells [p] lead from [b] back to [a]; every cell but [a] can be entered. *)
Inductive walk (s : pathfinder_t) (a : cell) : cell -> list cell -> Prop :=
| walk_start : inside s a -> walk s a a [a]
| walk_step b c p : walk s a b p -> adjacent b c -> block_at s c <> 0 -> walk s a c (c :: p).

(** The ends of a path and the cells where its direction changes. *)
Fixpoint bends (d : cell) (c : cell) (p : list cell) : list cell :=
  match p with
  | [] => [c]
  | b :: p =>
      let d' := (c.1 - b.1, c.2 - b.2) in
      if decide (d = d') then bends d' b p else c :: bends d' b p
  end.

Lemma bends_cons d c b p :
  bends d c (b :: p) = if decide (d = (c.1 - b.1, c.2 - b.2)) then bends (c.1 - b.1, c.2 - b.2) b p
                       else c :: bends (c.1 - b.1, c.2 - b.2) b p.
Proof. done. Qed.

Definition corners (p : list cell) : list cell :=
  match p with
  | a :: b :: p => a :: bends (a.1 - b.1, a.2 - b.2) b p
  | _ => p
  end.

(** The cells from [a] to [b], without [b], in a straight line. *)
Definition line (a b : cell) : list cell :=
  (fun k => (a.1 + k * Z.sgn (b.1 - a.1), a.2 + k * Z.sgn (b.2 - a.2))) <$>
    seqZ 0 (Z.max (Z.abs (b.1 - a.1)) (Z.abs (b.2 - a.2))).

(** The corners joined by straight lines. *)
Fixpoint join (p : list cell) : list cell :=
  match p with
  | a :: (b :: _) as r => line a b ++ join r
  | _ => p
  end.

Lemma line_steps a d k :
  Z.max (Z.abs d.1) (Z.abs d.2) = 1 -> 0 < k ->
  line a (a.1 - k * d.1, a.2 - k * d.2) = (fun i => (a.1 - i * d.1, a.2 - i * d.2)) <$> seqZ 0 k.
Proof.
  intros Hd Hk. unfold line. cbn [fst snd].
  replace (a.1 - k * d.1 - a.1) with (k * - d.1) by lia. replace (a.2 - k * d.2 - a.2) with (k * - d.2) by lia.
  rewrite !Z.abs_mul, !Z.sgn_mul, (Z.sgn_pos k), (Z.abs_eq k), Z.mul_max_distr_nonneg_l by lia.
  assert (Z.sgn (- d.1) = - d.1) as -> by lia. assert (Z.sgn (- d.2) = - d.2) as -> by lia.
  rewrite !Z.abs_opp, Hd, Z.mul_1_r. apply list_fmap_ext. intros _ i _. f_equal; lia.
Qed.

Lemma line_adjacent a b : Z.max (Z.abs (a.1 - b.1)) (Z.abs (a.2 - b.2)) = 1 -> line a b = [a].
Proof.
  intros E. unfold line. replace (Z.max _ _) with 1 by lia. change (seqZ 0 1) with [0].
  cbn [fmap list_fmap]. rewrite !Z.mul_0_l, !Z.add_0_r. by destruct a.
Qed.

(** Each cell can be reached from the next one in one step. *)
Fixpoint contiguous (p : list cell) : Prop :=
  match p with
  | a :: (b :: _) as r => adjacent b a /\ contiguous r
  | _ => True
  end.

Lemma join_bends p a d k :
  Z.max (Z.abs d.1) (Z.abs d.2) = 1 -> 0 < k ->
  let c := (a.1 - k * d.1, a.2 - k * d.2) in
  contiguous (c :: p) -> join (a :: bends d c p) = line a c ++ c :: p.
Proof.
  revert a d k. induction p as [|b p IH]; intros a d k Hd Hk c Hc; [done|].
  destruct Hc as [(Hne & H1 & H2) Hc]. rewrite bends_cons.
  assert (Z.max (Z.abs (c.1 - b.1)) (Z.abs (c.2 - b.2)) = 1) as Hd'.
  { destruct (decide (c.1 = b.1)), (decide (c.2 = b.2)); try lia. destruct b, c; cbn in *. congruence. }
  case_decide as E.
  - rewrite <- E. assert (b = (a.1 - (k + 1) * d.1, a.2 - (k + 1) * d.2)) as Eb.
    { destruct b as [b1 b2], d as [d1 d2]. unfold c in E. cbn in E |- *. injection E as E1 E2. f_equal; lia. }
    rewrite Eb in Hc |- *. rewrite (IH a d (k + 1) Hd) by (lia || done).
    unfold c. rewrite !line_steps by (done || lia). 
    assert (seqZ 0 (k + 1) = seqZ 0 k ++ [k]) as -> by (rewrite seqZ_app by lia; f_equal; cbn; f_equal; lia).
    rewrite fmap_app, <- app_assoc. done.
  - set (d' := (c.1 - b.1, c.2 - b.2)) in *. assert (b = (c.1 - 1 * d'.1, c.2 - 1 * d'.2)) as Eb.
    { destruct b as [b1 b2]. unfold d'. cbn [fst snd]. f_equal; lia. }
    change (join (a :: c :: bends d' b p)) with (line a c ++ join (c :: bends d' b p)). f_equal.
    pose proof (IH c d' 1 Hd' ltac:(lia)) as IH'. cbn zeta in IH'. rewrite <- Eb in IH'. rewrite IH' by done.
    by rewrite line_adjacent.
Qed.

Lemma join_corners p : contiguous p -> join (corners p) = p.
Proof.
  destruct p as [|a [|b p]]; [done..|]. intros [(Hne & H1 & H2) Hc]. set (d := (a.1 - b.1, a.2 - b.2)).
  assert (Z.max (Z.abs d.1) (Z.abs d.2) = 1) as Hd.
  { unfold d. cbn. destruct (decide (a.1 = b.1)), (decide (a.2 = b.2)); try lia. destruct a, b; cbn in *. congruence. }
  assert (b = (a.1 - 1 * d.1, a.2 - 1 * d.2)) as Eb.
  { destruct b as [b1 b2]. unfold d. cbn [fst snd]. f_equal; lia. }
  change (corners (a :: b :: p)) with (a :: bends d b p).
  pose proof (join_bends p a d 1 Hd ltac:(lia)) as IH'. cbn zeta in IH'. rewrite <- Eb in IH'. rewrite IH' by done.
  by rewrite line_adjacent.
Qed.

Lemma walk_head s a b p : walk s a b p -> exists r, p = b :: r.
Proof. destruct 1; eauto. Qed.

Lemma walk_contiguous s a b p : walk s a b p -> contiguous p.
Proof.
  induction 1 as [|b c p Hw IH Ha _]; [done|]. destruct (walk_head _ _ _ _ Hw) as [r ->]. done.
Qed.

Lemma walk_inside s a b p : walk s a b p -> inside s a.
Proof. by induction 1. Qed.

Lemma walk_end s a b p : walk s a b p -> a <> b -> block_at s b <> 0.
Proof. by destruct 1. Qed.

(** ** Nodes and cells *)

Lemma CAST_elt i : 0 <= i -> CAST (elt i) = i.
Proof. intros. unfold CAST, elt. rewrite Z2Pos.id by lia. lia. Qed.

Lemma elt_CAST e : elt (CAST e) = e.
Proof. unfold CAST, elt. rewrite Z.sub_add. by rewrite Pos2Z.id. Qed.

Lemma elt_inj i j : 0 <= i -> 0 <= j -> elt i = elt j -> i = j.
Proof. intros Hi Hj E. by rewrite <- (CAST_elt i), E, CAST_elt by done. Qed.

(** What the search does not change in a node. *)
Definition view (n : node_t) : Z * Z * Z := (nx n, nz n, block n).

Definition clean (n : node_t) : Prop :=
  parent n = None /\ G n = of_int 0 /\ H n = of_int 0 /\ F n = of_int 0.

Record grid (w h : Z) (ns : list node_t) : Prop := {
  grid_w : 0 <= w;
  grid_h : 0 <= h;
  grid_len : alen ns = w * h;
  grid_small : w * h <= 2 ^ 18;
  grid_xz i n : aget ns i = Some n -> nx n = i / h /\ nz n = i mod h
}.

(** The open nodes, with the order of their keys; closed nodes are not open. *)
Record heap_ok (ns : list node_t) (o : MinHeap.st) (closed : list nptr) : Prop := {
  ho_wf : wf o;
  ho_ord : heap_ordered (less ns) o;
  ho_size : MinHeap.size (mh o) = Z.of_nat (base.size (contents o));
  ho_cap : cap (mh o) <= 2 ^ 20;
  ho_dom i : 0 <= i < alen ns -> is_Some (index o !! elt i);
  ho_out i : 0 <= i < alen ns -> elt i ∉ contents o -> index o !! elt i = Some 0;
  ho_in e : e ∈ contents o -> 0 <= CAST e < alen ns /\ CAST e ∉ closed
}.

(** The two lists, [k] being the name of the first; a node in neither is not linked. *)
Definition dl_of (k : list_name) : dlist ptr := MkList (PHead k) (PTail k).
Definition other (k : list_name) : list_name := match k with Close => Neighbors | Neighbors => Close end.

Record two_lists (n : Z) (l : store ptr) (k : list_name) (ns ns' : list nptr) : Prop := {
  tl_chain : chain l (dl_of k) (PNode <$> ns);
  tl_chain' : chain l (dl_of (other k)) (PNode <$> ns');
  tl_valid i : i ∈ ns ++ ns' -> 0 <= i < n;
  tl_disj i : i ∈ ns -> i ∉ ns';
  tl_free i : 0 <= i < n -> i ∉ ns -> i ∉ ns' -> l !! PNode i = Some unlinked
}.

Abbreviation lists_ok n l closed pend := (two_lists n l Close closed pend).

(** Only closed and open nodes are in use. *)
Definition rest_clean (ns : list node_t) (o : MinHeap.st) (closed : list nptr) : Prop :=
  forall i n, aget ns i = Some n -> i ∉ closed -> elt i ∉ contents o -> clean n.

Definition finder_ok (s : pathfinder_t) (closed pend : list nptr) : Prop :=
  grid (width s) (heigh s) (node s) /\ heap_ok (node s) (openlist s) closed /\
  lists_ok (alen (node s)) (links s) closed pend /\ rest_clean (node s) (openlist s) closed.

(** Between two searches. *)
Definition ready (s : pathfinder_t) : Prop := finder_ok s [] [] /\ contents (openlist s) = ∅.

Definition same_map (s s' : pathfinder_t) : Prop :=
  width s' = width s /\ heigh s' = heigh s /\ data s' = data s /\ mask s' = mask s /\
  view <$> node s' = view <$> node s.

#[export] Instance same_map_equiv : Equivalence same_map.
Proof. unfold same_map. split; [intros s|intros s t|intros s t u]; naive_solver congruence. Qed.

#[export] Instance less_order ns : LessOrder (less ns).
Proof. split; unfold less; intros *; [apply fltb_asym|apply fltb_ntrans]. Qed.

(** ** The map *)

Lemma view_lookup ns ns' i n :
  view <$> ns' = view <$> ns -> aget ns i = Some n -> exists n', aget ns' i = Some n' /\ view n' = view n.
Proof.
  intros E Hn. assert (view <$> aget ns' i = Some (view n)) as H by (by rewrite <- aget_fmap, E, aget_fmap, Hn).
  apply fmap_Some in H as (n' & ? & ?). eauto.
Qed.

Lemma view_alen ns ns' : view <$> ns' = view <$> ns -> alen ns' = alen ns.
Proof. intros E. by rewrite <- (alen_fmap view), E, alen_fmap. Qed.

Lemma view_aset ns i n n' : aget ns i = Some n -> view n' = view n -> view <$> aset ns i n' = view <$> ns.
Proof. intros Hn E. rewrite fmap_aset, E. apply aset_id. by rewrite aget_fmap, Hn. Qed.

Lemma grid_view w h ns ns' : view <$> ns' = view <$> ns -> grid w h ns -> grid w h ns'.
Proof.
  intros E [Hw Hh Hl Hs Hx]. split; try done; [by rewrite (view_alen ns)|].
  intros i n Hn. destruct (view_lookup ns' ns i n (eq_sym E) Hn) as (n' & Hn' & Ev).
  destruct (Hx i n' Hn'). injection Ev as E1 E2 E3. by split; congruence.
Qed.

(** The cell of a node. *)
Definition xz (s : pathfinder_t) (i : nptr) : cell := (i / heigh s, i mod heigh s).

Lemma find_node_Some s x z i : find_node s x z = Some i <-> inside s (x, z) /\ i = x * heigh s + z.
Proof.
  unfold find_node, inside. cbn [fst snd]. zcase; cbn; split; try (intros [= <-]); try lia; try done.
  intros [_ ->]. done.
Qed.

Lemma inside_node w h ns x z : grid w h ns -> 0 <= x < w -> 0 <= z < h ->
  0 <= x * h + z < alen ns /\ (x * h + z) / h = x /\ (x * h + z) mod h = z.
Proof.
  intros [? ? -> _ _] Hx Hz. split; [nia|]. rewrite (Z.add_comm (x * h)). split.
  - rewrite Z.div_add by lia. rewrite Z.div_small; lia.
  - rewrite Z.mod_add by lia. rewrite Z.mod_small; lia.
Qed.

Section map.
Context (s : pathfinder_t) (HG : grid (width s) (heigh s) (node s)).

Lemma xz_inside i : 0 <= i < alen (node s) -> inside s (xz s i).
Proof using HG.
  intros Hi. destruct HG as [Hw Hh Hl _ _]. rewrite Hl in Hi. assert (0 < heigh s) by nia.
  unfold inside, xz. cbn [fst snd]. split; [|by apply Z.mod_pos_bound].
  split; [apply Z.div_pos; lia|]. apply Z.div_lt_upper_bound; lia.
Qed.

Lemma find_node_xz i : 0 <= i < alen (node s) -> find_node s (xz s i).1 (xz s i).2 = Some i.
Proof using HG.
  intros Hi. apply find_node_Some. split; [by apply xz_inside|]. unfold xz. cbn [fst snd].
  destruct HG as [Hw Hh Hl _ _]. assert (heigh s <> 0) by nia. pose proof (Z.div_mod i (heigh s)). lia.
Qed.

Lemma find_node_inv x z i : find_node s x z = Some i -> 0 <= i < alen (node s) /\ xz s i = (x, z).
Proof using HG.
  intros [[Hx Hz] ->]%find_node_Some. cbn [fst snd] in *.
  destruct (inside_node _ _ _ x z HG Hx Hz) as (? & E1 & E2). split; [done|]. unfold xz. by rewrite E1, E2.
Qed.

Lemma xz_inj i j : 0 <= i < alen (node s) -> 0 <= j < alen (node s) -> xz s i = xz s j -> i = j.
Proof using HG.
  intros Hi Hj E. pose proof (find_node_xz i Hi) as H1. rewrite E, find_node_xz in H1 by done. congruence.
Qed.

Lemma node_xz i n : aget (node s) i = Some n -> (nx n, nz n) = xz s i.
Proof using HG. intros Hn. destruct (grid_xz _ _ _ HG i n Hn) as [-> ->]. done. Qed.

Lemma block_at_node i n : aget (node s) i = Some n -> block_at s (xz s i) = block n.
Proof using HG.
  intros Hn. unfold block_at. rewrite find_node_xz by (by eapply aget_Some_range). cbn. by rewrite Hn.
Qed.

Lemma block_at_find c : block_at s c <> 0 -> exists i, find_node s c.1 c.2 = Some i /\ 0 <= i < alen (node s).
Proof using HG.
  unfold block_at. destruct (find_node s c.1 c.2) as [i|] eqn:E; cbn; [|done]. intros _. exists i.
  split; [done|]. by apply find_node_inv in E as [? _].
Qed.
End map.

(** What depends on the map only. *)
Section same.
Context (s s' : pathfinder_t) (S : same_map s s').

Lemma same_find x z : find_node s' x z = find_node s x z.
Proof using S. unfold find_node. by destruct S as (-> & -> & _). Qed.

Lemma same_xz i : xz s' i = xz s i.
Proof using S. unfold xz. by destruct S as (_ & -> & _). Qed.

Lemma same_block c : block_at s' c = block_at s c.
Proof using S.
  unfold block_at. rewrite same_find. destruct (find_node s c.1 c.2) as [i|]; [|done]. cbn.
  destruct S as (_ & _ & _ & _ & E). assert (view <$> aget (node s') i = view <$> aget (node s) i) as Ev.
  { by rewrite <- !aget_fmap, E. }
  destruct (aget (node s') i), (aget (node s) i); cbn in *; try done. by injection Ev.
Qed.

Lemma same_grid : grid (width s) (heigh s) (node s) -> grid (width s') (heigh s') (node s').
Proof using S. destruct S as (-> & -> & _ & _ & E). by apply grid_view. Qed.

Lemma same_alen : alen (node s') = alen (node s).
Proof using S. destruct S as (_ & _ & _ & _ & E). by apply view_alen. Qed.

Lemma same_walk a b p : walk s a b p -> walk s' a b p.
Proof using S.
  induction 1 as [Hi|b c p _ IH Ha Hb]; [|by eapply walk_step; [..|rewrite same_block]].
  constructor. unfold inside in *. by destruct S as (-> & -> & _).
Qed.
End same.

(** ** The heap of open nodes *)

Lemma key_aset ns i n e : 0 <= i -> CAST e <> i -> key (aset ns i n) e = key ns e.
Proof. intros. unfold key. by rewrite aget_aset_ne by done. Qed.

Lemma less_aset ns i n a b : 0 <= i -> a <> elt i -> b <> elt i -> less (aset ns i n) a b = less ns a b.
Proof.
  intros Hi Ha Hb. unfold less. rewrite !key_aset; [done|done| |done|].
  - intros <-. by rewrite elt_CAST in Hb.
  - intros <-. by rewrite elt_CAST in Ha.
Qed.

Lemma open_bound ns o closed : heap_ok ns o closed -> MinHeap.size (mh o) <= alen ns.
Proof.
  intros HH. rewrite (ho_size _ _ _ HH).
  assert (contents o ⊆ list_to_set (elt <$> seqZ 0 (alen ns))) as Hsub.
  { intros e He. apply elem_of_list_to_set, list_elem_of_fmap. exists (CAST e). split; [by rewrite elt_CAST|].
    apply elem_of_seqZ. destruct (ho_in _ _ _ HH e He). lia. }
  apply subseteq_size in Hsub. rewrite size_list_to_set in Hsub.
  - rewrite length_fmap, length_seqZ in Hsub. pose proof (alen_nonneg ns). lia.
  - apply NoDup_fmap_2_strong; [|apply NoDup_seqZ]. intros i j Hi Hj. rewrite !elem_of_seqZ in *.
    apply elt_inj; lia.
Qed.

Lemma heap_ok_int ns o closed : heap_ok ns o closed -> int_heap o.
Proof.
  intros HH. pose proof (ho_cap _ _ _ HH). pose proof (wf_size _ (ho_wf _ _ _ HH)).
  unfold int_heap, RIGHT, INT_MAX. lia.
Qed.

(** A node is opened, or gets another key: [n'] is its new contents. *)
Lemma heap_ok_open ns o o' closed i n' :
  heap_ok ns o closed -> 0 <= i < alen ns -> i ∉ closed ->
  wf o' -> heap_ordered (less (aset ns i n')) o' -> contents o' = {[elt i]} ∪ contents o -> kept o o' ->
  MinHeap.size (mh o') = Z.of_nat (base.size (contents o')) -> cap (mh o') <= 2 ^ 20 ->
  heap_ok (aset ns i n') o' closed.
Proof.
  intros HH Hi Hc W' HO' C' [K1 K2] Hs Hcap. split; try done; rewrite ?alen_aset.
  - intros j Hj. apply K2, (ho_dom _ _ _ HH), Hj.
  - intros j Hj Hn. rewrite K1 by set_solver. apply (ho_out _ _ _ HH); [done|set_solver].
  - intros e. rewrite C', elem_of_union, elem_of_singleton. intros [->|He]; [|by apply (ho_in _ _ _ HH)].
    by rewrite CAST_elt by lia.
Qed.

Lemma wp_open ns o closed i n' :
  heap_ok ns o closed -> alen ns <= 2 ^ 18 -> 0 <= i < alen ns -> i ∉ closed -> elt i ∉ contents o ->
  wpd (minheap_push (less (aset ns i n')) (elt i)) (fun _ o' =>
    heap_ok (aset ns i n') o' closed /\ contents o' = {[elt i]} ∪ contents o) o.
Proof.
  intros HH Hsm Hi Hc Hn. pose proof (ho_cap _ _ _ HH). pose proof (open_bound _ _ _ HH).
  eapply wp_mono; [apply push_spec; [apply _|..]|].
  - apply HH.
  - eapply heap_ordered_agree; [apply HH| |apply HH]. intros a b Ha Hb. apply less_aset; [lia|set_solver..].
  - by apply (ho_out _ _ _ HH).
  - right. unfold INT_MAX. lia.
  - intros [] o' (W' & HO' & C' & Hs' & HK & Hcap). split; [|done]. eapply heap_ok_open; try done.
    + rewrite Hs', C', size_union by set_solver. rewrite size_singleton, (ho_size _ _ _ HH). lia.
    + lia.
Qed.

Lemma wp_rekey ns o closed i n' :
  heap_ok ns o closed -> 0 <= i < alen ns -> i ∉ closed -> elt i ∈ contents o ->
  wpd (minheap_change (less (aset ns i n')) (elt i)) (fun _ o' =>
    heap_ok (aset ns i n') o' closed /\ contents o' = contents o) o.
Proof.
  intros HH Hi Hc Hin. pose proof (ho_wf _ _ _ HH) as W. pose proof Hin as [k Hk]%elem_of_contents; [|done].
  eapply wp_mono; [apply (change_spec _ o k (elt i) W); [by eapply heap_ok_int| |done]|].
  - apply (hole_rekey _ (less ns) o k (elt i) W); [apply HH|done|]. intros a b Ha Hb. apply less_aset; [lia|done..].
  - intros [] o' (W' & HO' & Fr). pose proof (contents_frame o o' W W' Fr) as C'. split; [|done].
    eapply heap_ok_open; try done.
    + rewrite C'. set_solver.
    + split; [|apply Fr]. intros e He. apply Fr. intros j Hj. apply He. rewrite elem_of_union, !elem_of_contents by done. eauto.
    + rewrite (fr_size _ _ Fr), C'. apply HH.
    + rewrite (fr_cap _ _ Fr). apply HH.
Qed.

(** A minimal open node is closed. *)
Lemma wp_close ns o closed Q :
  heap_ok ns o closed ->
  (contents o = ∅ -> Q None o) ->
  (forall i o', elt i ∈ contents o -> 0 <= i < alen ns -> i ∉ closed -> heap_ok ns o' (closed ++ [i]) ->
     contents o' = contents o ∖ {[elt i]} -> Q (Some (elt i)) o') ->
  wpd (minheap_pop (less ns)) Q o.
Proof.
  intros HH HQ0 HQ1. pose proof (ho_wf _ _ _ HH) as W. pose proof (wf_size _ W) as Hs. pose proof (ho_size _ _ _ HH) as Ec.
  destruct (decide (0 < MinHeap.size (mh o))) as [Hpos|Hz].
  - eapply wp_mono; [apply pop_spec; [apply _|done|by eapply heap_ok_int|apply HH|done]|].
    intros r o' (e & -> & Hin & _ & W' & HO' & C' & Hx & Es & Ecap & [K1 K2]).
    destruct (ho_in _ _ _ HH e Hin) as [Hr Hnc]. rewrite <- (elt_CAST e) in *. rewrite CAST_elt in Hr, Hnc by (unfold CAST; lia).
    apply HQ1; try done. split; try done.
    + rewrite Es, C', size_difference by set_solver. rewrite size_singleton, Ec. lia.
    + rewrite Ecap. apply HH.
    + intros j Hj. apply K2, (ho_dom _ _ _ HH), Hj.
    + intros j Hj Hn. destruct (decide (elt j = elt (CAST e))) as [->|]; [done|].
      rewrite K1 by set_solver. apply (ho_out _ _ _ HH); [done|set_solver].
    + intros a. rewrite C'. intros Ha. destruct (ho_in _ _ _ HH a) as [? Hna]; [set_solver|]. split; [done|].
      rewrite elem_of_app, list_elem_of_singleton. intros [?|Ea]; [done|]. rewrite <- Ea, elt_CAST in Ha. set_solver.
  - unfold minheap_pop. do 2 wp_step. rewrite (proj2 (Z.ltb_ge _ _)) by lia. wp_step. apply HQ0.
    apply leibniz_equiv, size_empty_inv. lia.
Qed.

(** ** The lists *)

Lemma two_lists_sym n l k ns ns' : two_lists n l k ns ns' -> two_lists n l (other k) ns' ns.
Proof.
  intros [H1 H2 Hv Hd Hf]. split; [done|by destruct k| | |by eauto].
  - intros i Hi. apply Hv. set_solver.
  - intros i Hi Hi'. by apply (Hd i).
Qed.

Lemma elem_of_ring k ns p : p ∈ ring (dl_of k) (PNode <$> ns) <-> p = PHead k \/ (exists i, p = PNode i /\ i ∈ ns) \/ p = PTail k.
Proof. unfold ring. rewrite elem_of_cons, elem_of_app, list_elem_of_fmap, list_elem_of_singleton. done. Qed.

Lemma rings_apart k ns ns' p :
  (forall i, i ∈ ns -> i ∉ ns') ->
  p ∈ ring (dl_of (other k)) (PNode <$> ns') -> p ∉ ring (dl_of k) (PNode <$> ns).
Proof. intros Hd. rewrite !elem_of_ring. destruct k; naive_solver. Qed.

Lemma wp_push_node n l k ns ns' i Q :
  two_lists n l k ns ns' -> 0 <= i < n -> i ∉ ns -> i ∉ ns' ->
  (forall l', two_lists n l' k (ns ++ [i]) ns' -> Q tt l') -> wpd (list_push (dl_of k) (PNode i)) Q l.
Proof.
  intros [H1 H2 Hv Hd Hf] Hi Hn Hn' HQ. eapply wp_list_push; [done| |by apply Hf|].
  - rewrite elem_of_ring. naive_solver.
  - assert ((PNode <$> ns) ++ [PNode i] = PNode <$> (ns ++ [i])) as E by (by rewrite fmap_app).
    intros l' HC' [HA _]. apply HQ. split.
    + by rewrite <- E.
    + eapply chain_frame; [|done]. intros p Hp. apply HA. rewrite E.
      eapply rings_apart; [|done]. intros j. rewrite elem_of_app, list_elem_of_singleton. naive_solver.
    + intros j. rewrite !elem_of_app, list_elem_of_singleton. intros [[?| ->]|?]; [apply Hv; set_solver|done|apply Hv; set_solver].
    + intros j. rewrite elem_of_app, list_elem_of_singleton. naive_solver.
    + intros j Hj Hnj Hnj'. rewrite elem_of_app, list_elem_of_singleton in Hnj.
      rewrite HA; [apply Hf; naive_solver|]. rewrite E, elem_of_ring. intros [?|[(m & [= <-] & Hin)|?]]; [done| |done].
      apply elem_of_app in Hin as [?|?%list_elem_of_singleton]; naive_solver.
Qed.

Lemma wp_pop_list n l k ns ns' Q :
  two_lists n l k ns ns' ->
  match ns with
  | [] => Q None l
  | i :: ns => forall l', two_lists n l' k ns ns' -> 0 <= i < n -> i ∉ ns -> i ∉ ns' -> Q (Some (PNode i)) l'
  end -> wpd (list_pop (dl_of k)) Q l.
Proof.
  intros [H1 H2 Hv Hd Hf] HQ. eapply wp_list_pop; [done|]. destruct ns as [|i ns]; [done|].
  intros l' HC' Hi [HA _]. destruct (H1) as [ND _]. unfold ring in ND. cbn in ND.
  apply NoDup_cons in ND as [_ ND]. apply NoDup_cons in ND as [Hni _].
  assert (i ∉ ns) as Hn. { intros Hin. apply Hni. rewrite elem_of_app. left. by apply list_elem_of_fmap_2. }
  apply HQ; [|apply Hv; set_solver|done|apply Hd; set_solver]. split.
  - done.
  - eapply chain_frame; [|done]. intros p Hp. apply HA. by eapply (rings_apart k (i :: ns)).
  - intros j Hj. apply Hv. set_solver.
  - intros j Hj. apply Hd. set_solver.
  - intros j Hj Hnj Hnj'. destruct (decide (j = i)) as [->|]; [done|].
    rewrite HA; [apply Hf; set_solver|]. change (PNode i :: (PNode <$> ns)) with (PNode <$> (i :: ns)).
    rewrite elem_of_ring. set_solver.
Qed.

Lemma linked_inner {P} `{Countable P} (l : store P) a p q r b x :
  linked l a (p :: q ++ [r]) b -> x ∈ q -> exists u v, l !! x = Some (MkLink (Some u) (Some v)).
Proof.
  revert a p. induction q as [|y q IH]; intros a p Hl Hx; [by apply elem_of_nil in Hx|].
  destruct Hl as [_ Hl]. apply elem_of_cons in Hx as [->|Hx]; [|by eapply IH].
  destruct Hl as [Hy _]. destruct q; cbn in Hy; eauto.
Qed.

Lemma member_linked n l k ns ns' i :
  two_lists n l k ns ns' -> i ∈ ns -> exists u v, l !! PNode i = Some (MkLink (Some u) (Some v)).
Proof.
  intros HT Hi. destruct (tl_chain _ _ _ _ _ HT) as [_ Hl]. eapply linked_inner; [exact Hl|].
  by apply list_elem_of_fmap_2.
Qed.

(** ** Access *)

Section access.
Context (E : string -> pathfinder_t -> Prop).

Lemma wp_lst {A} (m : M (store ptr) A) Q s :
  wp m (fun a l => Q a (s <| links := l |>)) (fun e l => E e (s <| links := l |>)) (links s) -> wp (lst m) Q E s.
Proof. apply wp_zoom. Qed.

Lemma wp_heap {A} (m : M MinHeap.st A) Q s :
  wp m (fun a o => Q a (s <| openlist := o |>)) (fun e o => E e (s <| openlist := o |>)) (openlist s) -> wp (heap m) Q E s.
Proof. apply wp_zoom. Qed.

Lemma wp_cell_get s i n Q : aget (node s) i = Some n -> Q n s -> wp (node_get i) Q E s.
Proof. intros Hn HQ. unfold node_get. do 2 wp_step. by wp_step. Qed.

Lemma wp_node_upd s i n f Q :
  aget (node s) i = Some n -> Q tt (s <| node := aset (node s) i (f n) |>) -> wp (node_upd i f) Q E s.
Proof. intros Hn HQ. unfold node_upd. wp_step. eapply wp_cell_get; [done|]. by wp_step. Qed.

(** The same node again. *)
Lemma wp_node_again s i n0 n f Q :
  aget (node s) i = Some n0 -> Q tt (s <| node := aset (node s) i (f n) |>) ->
  wp (node_upd i f) Q E (s <| node := aset (node s) i n |>).
Proof.
  intros Hn HQ. eapply (wp_node_upd _ _ n); cbn.
  - apply aget_aset_eq. by eapply aget_Some_range.
  - by rewrite aset_aset.
Qed.
End access.

(** ** The neighbours of a node *)

Lemma adjacent_direction a d : d ∈ direction -> adjacent a (a.1 + d.1, a.2 + d.2).
Proof.
  intros Hd. assert (Forall (fun d : cell => d <> (0, 0) /\ Z.abs d.1 <= 1 /\ Z.abs d.2 <= 1) direction) as HF.
  { repeat (apply Forall_cons; split; [cbn; split; [done|lia]|]). by apply Forall_nil. }
  rewrite Forall_forall in HF. destruct (HF d Hd) as (H0 & H1 & H2). destruct a, d. cbn in *.
  split; [|cbn; lia]. intros [= E1 E2]. apply H0. f_equal; lia.
Qed.

Lemma direction_adjacent a b : adjacent a b -> (b.1 - a.1, b.2 - a.2) ∈ direction.
Proof.
  destruct a as [x z], b as [x' z']. intros (Hne & H1 & H2). cbn in *. unfold direction.
  assert (x' - x = -1 \/ x' - x = 0 \/ x' - x = 1) as Hx by lia.
  assert (z' - z = -1 \/ z' - z = 0 \/ z' - z = 1) as Hz by lia.
  destruct Hx as [Ex|[Ex|Ex]], Hz as [Ez|[Ez|Ez]]; rewrite Ex, Ez; try set_solver.
  exfalso. apply Hne. f_equal; lia.
Qed.

(** The search may go from [i] to [j]. *)
Definition step_to (s : pathfinder_t) (i j : nptr) : Prop :=
  0 <= j < alen (node s) /\ adjacent (xz s i) (xz s j) /\ block_at s (xz s j) <> 0.

Section neighbours.
Context (s : pathfinder_t) (closed : list nptr) (cur : nptr) (n : node_t).
Context (HG : grid (width s) (heigh s) (node s)) (Hcur : aget (node s) cur = Some n).

(** The directions [ds] have been looked at. *)
Definition looked (ds : list cell) (l : store ptr) (pend : list nptr) : Prop :=
  lists_ok (alen (node s)) l closed pend /\ (length pend <= length ds)%nat /\
  (forall j, j ∈ pend -> step_to s cur j) /\
  (forall d j, d ∈ ds -> find_node s (nx n + d.1) (nz n + d.2) = Some j -> block_at s (xz s j) <> 0 ->
     j ∈ closed \/ j ∈ pend).

Lemma looked_skip ds d l pend :
  looked ds l pend ->
  (forall j, find_node s (nx n + d.1) (nz n + d.2) = Some j -> block_at s (xz s j) <> 0 -> j ∈ closed \/ j ∈ pend) ->
  looked (ds ++ [d]) l pend.
Proof.
  intros (H1 & H2 & H3 & H4) Hd. split; [done|]. split; [rewrite length_app; lia|]. split; [done|].
  intros d' j. rewrite elem_of_app, list_elem_of_singleton. intros [?| ->]; eauto.
Qed.

Lemma looked_push ds d l l' pend j :
  looked ds l pend -> d ∈ direction -> find_node s (nx n + d.1) (nz n + d.2) = Some j -> block_at s (xz s j) <> 0 ->
  lists_ok (alen (node s)) l' closed (pend ++ [j]) -> looked (ds ++ [d]) l' (pend ++ [j]).
Proof using HG Hcur.
  intros (H1 & H2 & H3 & H4) Hd Hf Hb Hl'. split; [done|]. split; [rewrite !length_app; cbn; lia|]. split.
  - intros i. rewrite elem_of_app, list_elem_of_singleton. intros [?| ->]; [by apply H3|].
    destruct (find_node_inv s HG _ _ _ Hf) as [Hj Ej]. split; [done|]. split; [|done].
    rewrite Ej, <- (node_xz s HG cur n Hcur). by apply (adjacent_direction (nx n, nz n)).
  - intros d' i. rewrite !elem_of_app, !list_elem_of_singleton. intros [Hd'| ->] Hi Hbi.
    + destruct (H4 d' i Hd' Hi Hbi); auto.
    + rewrite Hf in Hi. injection Hi as <-. auto.
Qed.

Lemma wp_linked_node l pend j Q :
  lists_ok (alen (node s)) l closed pend -> 0 <= j < alen (node s) ->
  (j ∈ closed \/ j ∈ pend -> Q true (s <| links := l |>)) ->
  (j ∉ closed -> j ∉ pend -> Q false (s <| links := l |>)) -> wpd (linked_node j) Q (s <| links := l |>).
Proof.
  intros HL Hj H1 H2. unfold linked_node. wp_step. apply wp_lst.
  destruct (decide (j ∈ closed \/ j ∈ pend)) as [Hin|Hout].
  - assert (exists u v, l !! PNode j = Some (MkLink (Some u) (Some v))) as (u & v & E).
    { destruct Hin; [by eapply member_linked|]. eapply member_linked; [by apply two_lists_sym|done]. }
    eapply wp_link_get; [exact E|]. wp_step. by apply H1.
  - eapply wp_link_get; [apply (tl_free _ _ _ _ _ HL); naive_solver|]. wp_step. apply H2; naive_solver.
Qed.

Lemma wp_find_neighbors :
  lists_ok (alen (node s)) (links s) closed [] ->
  wpd (find_neighbors cur) (fun b s' => exists l' pend,
    s' = s <| links := l' |> /\ b = negb (bool_decide (pend = [])) /\ looked direction l' pend) s.
Proof using HG Hcur.
  intros HL. unfold find_neighbors. wp_step. apply wp_lst.
  eapply wp_list_empty; [apply (tl_chain' _ _ _ _ _ HL)|]. wp_step. wp_step; [done|].
  wp_step. eapply wp_mono.
  - apply (wp_for_each (fun ds t => exists l pend dn, t = s <| links := l |> /\ direction = dn ++ ds /\ looked dn l pend)).
    + intros d ds t (l & pend & dn & -> & E & HLk).
      assert (d ∈ direction) as Hd by (rewrite E; set_solver).
      assert (forall m l' pend', looked (dn ++ [d]) l' pend' -> m = s <| links := l' |> ->
        exists l pend dn, m = s <| links := l |> /\ direction = dn ++ ds /\ looked dn l pend) as Hend.
      { intros m l' pend' Hl ->. exists l', pend', (dn ++ [d]). by rewrite <- app_assoc. }
      destruct d as [dx dz]. wp_step. eapply wp_cell_get; [exact Hcur|].
      do 2 wp_step. change (find_node (s <| links := l |>)) with (find_node s).
      destruct (find_node s (nx n + dx) (nz n + dz)) as [j|] eqn:Ef.
      * destruct (find_node_inv s HG _ _ _ Ef) as [Hj Ej]. destruct (aget_is_Some (node s) j Hj) as [m Hm].
        wp_step. eapply wp_linked_node; [apply HLk|done| |].
        { intros Hin. wp_step. eapply Hend; [|done]. apply looked_skip; [done|]. cbn. intros i. rewrite Ef. by intros [= <-]. }
        intros Hc Hp. wp_step. eapply wp_cell_get; [exact Hm|].
        pose proof (block_at_node s HG j m Hm) as Eb. wp_step.
        { apply wp_lst. eapply (wp_push_node _ _ Neighbors); [exact (two_lists_sym _ _ Close _ _ (proj1 HLk))|done|done|done|].
          intros l' HL'. eapply Hend; [|done]. eapply looked_push; try done; [|exact (two_lists_sym _ _ Neighbors _ _ HL')].
          rewrite Eb. intros E0. by rewrite E0 in *. }
        eapply Hend; [|done]. apply looked_skip; [done|]. cbn. intros i. rewrite Ef. intros [= <-]. rewrite Eb.
        destruct (Z.eqb_spec (block m) 0); done.
      * wp_step. eapply Hend; [|done]. apply looked_skip; [done|]. cbn. intros i. by rewrite Ef.
    + exists (links s), [], []. split; [by destruct s|]. split; [done|]. split; [done|]. cbn. set_solver by lia.
  - intros [] t (l & pend & dn & -> & E & HLk). rewrite app_nil_r in E. subst dn.
    wp_step. apply wp_lst. eapply wp_list_empty; [apply (tl_chain' _ _ _ _ _ (proj1 HLk))|].
    wp_step. exists l, pend. split; [done|]. split; [|done]. destruct pend; done.
Qed.

Lemma looked_all l pend j : looked direction l pend -> step_to s cur j -> j ∈ closed \/ j ∈ pend.
Proof using HG Hcur.
  intros (_ & _ & _ & H4) (Hj & Ha & Hb). apply (H4 _ _ (direction_adjacent _ _ Ha)); [|done].
  rewrite <- (node_xz s HG cur n Hcur). cbn [fst snd]. rewrite !Zplus_minus. by apply find_node_xz.
Qed.
End neighbours.

Lemma same_step s s' i j : same_map s s' -> step_to s' i j <-> step_to s i j.
Proof. intros SM. unfold step_to. by rewrite (same_alen _ _ SM), !(same_xz _ _ SM), (same_block _ _ SM). Qed.

(** ** Clearing the finder *)

Lemma NoDup_alen_bound {A} (f : A -> Z) (l : list A) n :
  0 <= n -> NoDup (f <$> l) -> (forall x, x ∈ l -> 0 <= f x < n) -> alen l <= n.
Proof.
  intros Hn ND Hr. assert (f <$> l ⊆+ seqZ 0 n) as Hs%submseteq_length.
  { apply NoDup_submseteq; [done|]. intros i (x & -> & Hx)%list_elem_of_fmap. apply elem_of_seqZ.
    specialize (Hr x Hx). lia. }
  rewrite length_fmap, length_seqZ in Hs. rewrite alen_length. lia.
Qed.

Lemma closed_bound s closed pend : finder_ok s closed pend -> alen closed <= alen (node s).
Proof.
  intros (_ & _ & HL & _). apply (NoDup_alen_bound id); [apply alen_nonneg| |].
  - rewrite list_fmap_id. destruct (tl_chain _ _ _ _ _ HL) as [ND _]. unfold ring in ND.
    apply NoDup_cons in ND as [_ ND]. apply NoDup_app in ND as [ND _]. by apply NoDup_fmap_1 in ND.
  - intros i Hi. apply (tl_valid _ _ _ _ _ HL). set_solver.
Qed.

Lemma wp_pop_node s k ns ns' Q :
  two_lists (alen (node s)) (links s) k ns ns' ->
  match ns with
  | [] => Q None s
  | i :: ns => forall l', two_lists (alen (node s)) l' k ns ns' -> 0 <= i < alen (node s) -> i ∉ ns -> i ∉ ns' ->
                 Q (Some i) (s <| links := l' |>)
  end -> wpd (pop_node (dl_of k)) Q s.
Proof.
  intros HL HQ. unfold pop_node. wp_step. apply wp_lst. eapply wp_pop_list; [done|].
  destruct ns as [|i ns]; [wp_step; by destruct s|]. intros l' HL' Hi H1 H2. wp_step. by apply HQ.
Qed.

Definition cleared (n : node_t) : node_t := MkNode None (nx n) (nz n) (block n) (of_int 0) (of_int 0) (of_int 0).

(** [clear_node] on a state. *)
Definition clear_at (i : nptr) (n : node_t) (s : pathfinder_t) : pathfinder_t :=
  s <| node := aset (node s) i (cleared n) |>
    <| openlist := MinHeap.set_index (<[elt i := 0]> (index (openlist s))) (openlist s) |>.

Lemma wp_clear_node s i n Q :
  aget (node s) i = Some n -> is_Some (index (openlist s) !! elt i) -> Q tt (clear_at i n s) -> wpd (clear_node i) Q s.
Proof.
  intros Hn Hx HQ. unfold clear_node. wp_step. eapply wp_node_upd; [exact Hn|].
  do 3 (wp_step; eapply wp_node_again; [exact Hn|]). apply wp_heap. by apply wp_index_set.
Qed.

Lemma same_clear s i n : aget (node s) i = Some n -> same_map s (clear_at i n s).
Proof. intros Hn. split_and!; try done. cbn. by apply (view_aset _ _ n). Qed.

(** A node that is out of the heap. *)
Lemma finder_ok_clear s i n closed l' :
  finder_ok s (i :: closed) [] -> aget (node s) i = Some n -> lists_ok (alen (node s)) l' closed [] ->
  finder_ok (clear_at i n (s <| links := l' |>)) closed [].
Proof.
  intros (HG & HH & HL & HC) Hn HL'. pose proof (aget_Some_range _ _ _ Hn) as [Hi _].
  assert (elt i ∉ contents (openlist s)) as Ho.
  { intros Hin. destruct (ho_in _ _ _ HH _ Hin) as [_ Hc]. rewrite CAST_elt in Hc by done. set_solver. }
  assert (forall e, e ∈ contents (openlist s) -> e <> elt i) as Hne by (intros e He ->; done).
  split; [|split; [split|split]]; cbn; rewrite ?alen_aset.
  - eapply grid_view; [|exact HG]. by apply (view_aset _ _ n).
  - destruct (ho_wf _ _ _ HH) as [? ? ? He]. split; try done. intros k Hk. destruct (He k Hk) as (e & Hh & Hx).
    exists e. split; [done|]. cbn. rewrite lookup_insert_ne; [done|]. intros <-. apply Ho.
    rewrite elem_of_contents by apply HH. eauto.
  - apply (heap_ordered_agree _ (less (node s)) (openlist s)); [apply HH| |apply HH].
    intros a b Ha Hb. apply less_aset; auto.
  - apply HH.
  - apply HH.
  - intros j Hj. rewrite lookup_insert. case_decide; [eauto|]. by apply HH.
  - intros j Hj Hn'. rewrite lookup_insert. case_decide; [done|]. by apply (ho_out _ _ _ HH).
  - intros e He. destruct (ho_in _ _ _ HH e He). split; [done|]. set_solver.
  - done.
  - intros j m Hj Hjc Hjo. destruct (decide (j = i)) as [->|Hji].
    + rewrite aget_aset_eq in Hj by (by eapply aget_Some_range). by injection Hj as <-.
    + rewrite aget_aset_ne in Hj by done. apply (HC j m Hj); [|done]. set_solver.
Qed.

(** While the heap is cleared: the nodes that are not in the cells from [i] on are clean. *)
Definition clearing (s : pathfinder_t) (i : Z) (t : pathfinder_t) : Prop :=
  same_map s t /\ links t = links s /\ called t = called s /\ dumped t = dumped s /\
  (forall j, 0 <= j < alen (node s) -> is_Some (index (openlist t) !! elt j)) /\
  (forall j n, aget (node t) j = Some n -> (forall k, i <= k -> ~ holds (openlist s) k (elt j)) ->
     clean n /\ index (openlist t) !! elt j = Some 0).

Lemma clearing_start s : finder_ok s [] [] -> clearing s 1 s.
Proof.
  intros (HG & HH & HL & HC). do 4 (split; [done|]). split; [apply HH|]. intros j n Hn Hk.
  assert (elt j ∉ contents (openlist s)) as Ho.
  { rewrite elem_of_contents by apply HH. intros [k Hk']. apply (Hk k); [destruct Hk'; lia|done]. }
  split; [by eapply HC; [done|set_solver|]|]. apply (ho_out _ _ _ HH); [|done]. by eapply aget_Some_range.
Qed.

Lemma clearing_step s i e t :
  wf (openlist s) -> 0 <= CAST e < alen (node s) -> holds (openlist s) i e -> clearing s i t ->
  wpd (heap_clear e) (fun _ t' => clearing s (i + 1) t' /\ mh (openlist t') = mh (openlist t)) t.
Proof.
  intros W Hr He (SM & El & Ec & Ed & Hx & Hcl).
  assert (in_range (node t) (CAST e)) as Hr' by (unfold in_range; by rewrite (same_alen _ _ SM)).
  destruct (aget_is_Some _ _ Hr') as [n Hn]. eapply wp_clear_node; [exact Hn|by apply Hx|].
  split; [|done]. split; [by etrans; [|by apply same_clear]|]. do 3 (split; [done|]). cbn. split.
  - intros j Hj. rewrite lookup_insert. case_decide; [eauto|]. by apply Hx.
  - intros j m Hj Hk. destruct (decide (j = CAST e)) as [->|Hji].
    + rewrite aget_aset_eq in Hj by done. injection Hj as <-. split; [done|]. apply lookup_insert_eq.
    + rewrite aget_aset_ne in Hj by lia. pose proof (aget_Some_range _ _ _ Hj) as [? _].
      rewrite lookup_insert_ne by (intros E%elt_inj; lia). apply (Hcl j m Hj). intros k Hle Hh.
      destruct (decide (k = i)) as [->|]; [|by apply (Hk k); [lia|]].
      apply Hji. rewrite (holds_fun _ _ _ _ He Hh). by rewrite CAST_elt.
Qed.

Lemma clearing_end s t :
  finder_ok s [] [] -> clearing s (MinHeap.size (mh (openlist s)) + 1) t -> mh (openlist t) = mh (openlist s) ->
  let t' := t <| openlist := MinHeap.set_size 0 (openlist t) |> in
  ready t' /\ same_map s t' /\ called t' = called s.
Proof.
  intros (HG & HH & HL & _) (SM & El & Ec & _ & Hx & Hcl) Em. pose proof (same_alen _ _ SM) as Ea.
  assert (forall j n, aget (node t) j = Some n -> clean n /\ index (openlist t) !! elt j = Some 0) as Hcl'.
  { intros j n Hn. apply (Hcl j n Hn). intros k Hk [Hh _]. lia. }
  split; [split; [|done]|done]. split; [by apply (same_grid _ _ SM)|]. split; [|split]; cbn.
  - split; cbn; rewrite ?Ea.
    + apply wf_empty; rewrite Em; apply HH.
    + intros i Hi a b [Ha _]. cbn in Ha. lia.
    + done.
    + rewrite Em. apply HH.
    + done.
    + intros j Hj _. destruct (aget_is_Some (node t) j) as [n Hn]; [unfold in_range; by rewrite Ea|]. by destruct (Hcl' j n Hn).
    + intros e He. exfalso. revert He. apply not_elem_of_empty.
  - by rewrite Ea, El.
  - intros j n Hn _ _. by destruct (Hcl' j n Hn).
Qed.

Lemma wp_reset s closed :
  finder_ok s closed [] ->
  wpd reset (fun _ s' => ready s' /\ same_map s s' /\ called s' = called s) s.
Proof.
  intros FO. unfold reset. do 2 wp_step. wp_step.
  apply (wp_mono _ (fun _ t => finder_ok t [] [] /\ same_map s t /\ called t = called s)).
  - apply (wp_loop_rank (fun k _ t => exists c, k = length c /\ finder_ok t c [] /\ same_map s t /\ called t = called s) _ _ _ _ (length closed)).
    + intros k [] t (c & -> & FO' & SM & Ec). destruct (FO') as (_ & HH & HL & _).
      wp_step. apply (wp_pop_node t Close c []); [done|]. destruct c as [|i c]; [by wp_step|].
      intros l' HL' Hi Hnc _. destruct (aget_is_Some _ _ Hi) as [n Hn]. wp_step.
      eapply wp_clear_node; [exact Hn|by apply (ho_dom _ _ _ HH)|]. wp_step. exists (length c). split; [cbn; lia|].
      exists c. split; [done|]. split; [by apply finder_ok_clear|]. split; [|done].
      pose proof (same_clear (t <| links := l' |>) i n) as Hsc. etrans; [exact SM|]. exact (Hsc Hn).
    + by exists closed.
    + pose proof (closed_bound _ _ _ FO). rewrite !alen_length in *. lia.
  - intros [] t (FO' & SM & Ec). pose proof FO' as (HG & HH & HL & _).
    apply (wp_clear openlist _ (Some heap_clear) (clearing t)); [by intros []|apply HH|by apply clearing_start| |].
    + intros i e u He HI Em. eapply wp_mono; [eapply clearing_step; [apply HH| |done|done]|].
      * apply (ho_in _ _ _ HH). rewrite elem_of_contents by apply HH. eauto.
      * intros [] u' [? E]. by rewrite E.
    + intros u HI Em. destruct (clearing_end t u FO' HI Em) as (HR & SM' & Ec').
      split; [done|]. split; [by etrans|congruence].
Qed.

(** ** The search *)

Lemma neighbor_cost_cases a b : exists c, neighbor_cost a b = MkFloat c 0 /\ 0 <= c <= 60.
Proof. unfold neighbor_cost. case_match; [exists 50|exists 60]; by rewrite of_int_exact by done. Qed.

Section search.
Context (s0 : pathfinder_t) (HG0 : grid (width s0) (heigh s0) (node s0)).
Context (from to : nptr) (Hfrom : 0 <= from < alen (node s0)) (Hto : 0 <= to < alen (node s0)) (Hne : from <> to).
Context (cost : float) (dump : bool).

(** The nodes from [i] to [from] by the [parent] pointers. *)
Inductive trail (ns : list node_t) : nptr -> list nptr -> Prop :=
| trail_from : trail ns from [from]
| trail_step i j n p :
    i <> from -> aget ns i = Some n -> parent n = Some j -> step_to s0 j i -> trail ns j p -> trail ns i (i :: p).

(** Closed nodes have a trail of closed nodes, open ones a closed parent; costs are whole
    numbers bounded by the number of closed nodes. *)
Record tree (ns : list node_t) (o : MinHeap.st) (closed : list nptr) : Prop := {
  tr_from : from ∈ closed \/ (closed = [] /\ contents o = {[elt from]});
  tr_closed i : i ∈ closed -> exists p, trail ns i p /\ (forall j, j ∈ p -> j ∈ closed) /\ (length p <= length closed)%nat;
  tr_open i : 0 <= i -> elt i ∈ contents o -> closed <> [] ->
    exists j n, aget ns i = Some n /\ parent n = Some j /\ j ∈ closed /\ step_to s0 j i;
  tr_G i n : aget ns i = Some n -> i ∈ closed \/ elt i ∈ contents o ->
    exists g, G n = MkFloat g 0 /\ 0 <= g <= 60 * alen closed
}.

(** Every step from a closed node of [cs] leads to a node that is closed, open or pending. *)
Definition covered (o : MinHeap.st) (closed pend cs : list nptr) : Prop :=
  forall c j, c ∈ cs -> step_to s0 c j -> j ∈ closed \/ elt j ∈ contents o \/ j ∈ pend.

Definition search (s : pathfinder_t) (closed pend : list nptr) : Prop :=
  same_map s0 s /\ finder_ok s closed pend /\ tree (node s) (openlist s) closed.

Lemma trail_ext ns ns' i p : (forall j, j ∈ p -> aget ns' j = aget ns j) -> trail ns i p -> trail ns' i p.
Proof.
  intros E HT. induction HT as [|i j n p Hi Hn Hp Hs _ IH]; [constructor|].
  eapply trail_step; [done|rewrite E; [done|set_solver]|done|done|]. apply IH. set_solver.
Qed.

Lemma trail_walk ns i p : trail ns i p -> walk s0 (xz s0 from) (xz s0 i) (xz s0 <$> p).
Proof using HG0 Hfrom.
  induction 1 as [|i j n p Hi Hn Hp Hs _ IH]; [apply walk_start; by apply xz_inside|].
  destruct Hs as (_ & Ha & Hb). by eapply walk_step.
Qed.

(** A node gets [cur] for its parent. *)
Lemma tree_adopt ns o o' closed cur i n' g :
  tree ns o closed -> cur ∈ closed -> 0 <= i < alen ns -> i ∉ closed -> step_to s0 cur i ->
  parent n' = Some cur -> G n' = MkFloat g 0 -> 0 <= g <= 60 * alen closed ->
  contents o' = {[elt i]} ∪ contents o -> tree (aset ns i n') o' closed.
Proof.
  intros [T1 T2 T3 T4] Hc Hi Hn Hs Hp HGn Hg C'. assert (closed <> []) as Hcl by (intros ->; set_solver).
  assert (forall j, j <> i -> aget (aset ns i n') j = aget ns j) as Ene by (intros; by apply aget_aset_ne; [lia|]).
  split.
  - destruct T1 as [?|[? _]]; [by left|done].
  - intros j Hj. destruct (T2 j Hj) as (p & HT & Hsub & Hl). exists p. split; [|done].
    eapply trail_ext; [|exact HT]. intros k Hk. apply Ene. intros ->. by apply Hn, Hsub.
  - intros j Hj. rewrite C', elem_of_union, elem_of_singleton. intros Hin _. destruct (decide (j = i)) as [->|Hji].
    + exists cur, n'. rewrite aget_aset_eq by done. done.
    + destruct Hin as [E%elt_inj|Hin]; [done|lia|lia|]. rewrite Ene by done. by apply T3.
  - intros j n Hj Hin. destruct (decide (j = i)) as [->|Hji].
    + rewrite aget_aset_eq in Hj by done. injection Hj as <-. eauto.
    + rewrite Ene in Hj by done. apply (T4 j n Hj). destruct Hin as [?|Hin]; [by left|]. right.
      rewrite C', elem_of_union, elem_of_singleton in Hin. destruct Hin as [E%elt_inj|Hin]; [done| |lia|done].
      apply aget_Some_range in Hj as [? _]. done.
Qed.

Lemma search_adopt s closed pend cur i n n' g o' :
  search s closed pend -> cur ∈ closed -> aget (node s) i = Some n -> i ∉ closed -> step_to s0 cur i ->
  view n' = view n -> parent n' = Some cur -> G n' = MkFloat g 0 -> 0 <= g <= 60 * alen closed ->
  heap_ok (aset (node s) i n') o' closed -> contents o' = {[elt i]} ∪ contents (openlist s) ->
  search (s <| node := aset (node s) i n' |> <| openlist := o' |>) closed pend.
Proof.
  intros (SM & (HG & HH & HL & HC) & HT) Hc Hn Hnc Hs Hv Hp HGn Hg HH' C'.
  pose proof (aget_Some_range _ _ _ Hn) as Hi.
  split; [|split; [split; [|split; [|split]]|]]; cbn.
  - destruct SM as (?&?&?&?&?). split_and!; try done. cbn. by rewrite (view_aset _ _ n).
  - eapply grid_view; [|exact HG]. by eapply view_aset.
  - done.
  - by rewrite alen_aset.
  - intros j m Hj Hjc Hjo. rewrite C' in Hjo. assert (j <> i) by set_solver.
    rewrite aget_aset_ne in Hj by (done || destruct Hi; lia). apply (HC j m Hj Hjc). set_solver.
  - by eapply tree_adopt.
Qed.

(** What a round leaves of the state besides the search. *)
Definition quiet (s s' : pathfinder_t) : Prop := called s' = called s.

Lemma covered_open o o' closed pend nd cs :
  covered o closed (nd :: pend) cs -> contents o' = {[elt nd]} ∪ contents o -> covered o' closed pend cs.
Proof. intros HC C' c j Hc Hs. rewrite C'. destruct (HC c j Hc Hs) as [?|[?|[->|?]%elem_of_cons]]; set_solver. Qed.

Lemma wp_relax s closed pend cur c g nd :
  search s closed pend -> cur ∈ closed -> aget (node s) cur = Some c -> G c = MkFloat g 0 ->
  0 <= g <= 60 * (alen closed - 1) -> nd ∉ closed -> step_to s0 cur nd ->
  covered (openlist s) closed (nd :: pend) closed ->
  wpd (relax cur to nd cost dump) (fun _ s' =>
    search s' closed pend /\ covered (openlist s') closed pend closed /\ quiet s s' /\
    links s' = links s /\ aget (node s') cur = Some c) s.
Proof using All.
  intros HS Hc Hcur Eg Hg Hnd Hst HC. pose proof HS as (SM & FO & HT). pose proof FO as (HG & HH & HL & HCl).
  pose proof (closed_bound _ _ _ FO) as Hb. pose proof (grid_small _ _ _ HG) as Hsm. rewrite <- (grid_len _ _ _ HG) in Hsm.
  assert (0 <= nd < alen (node s)) as Hr by (rewrite (same_alen _ _ SM); apply Hst).
  destruct (aget_is_Some _ _ Hr) as [n Hn]. assert (nd <> cur) as Hnc by (by intros ->).
  destruct (neighbor_cost_cases c n) as (k & Ek & Hk).
  assert (fadd (G c) (neighbor_cost c n) = MkFloat (g + k) 0) as Ea by (rewrite Eg, Ek; apply fadd_grid; lia).
  assert (forall o' n' d, heap_ok (aset (node s) nd n') o' closed -> contents o' = {[elt nd]} ∪ contents (openlist s) ->
    view n' = view n -> parent n' = Some cur -> G n' = MkFloat (g + k) 0 ->
    let s' := s <| node := aset (node s) nd n' |> <| openlist := o' |> <| dumped := d |> in
    search s' closed pend /\ covered (openlist s') closed pend closed /\ quiet s s' /\
    links s' = links s /\ aget (node s') cur = Some c) as Hend.
  { intros o' n' d HH' C' Ev Ep EG'. split; [|split; [|split; [done|split; [done|]]]].
    - eapply (search_adopt s closed pend cur nd n n' (g + k) o'); try done. lia.
    - by eapply covered_open.
    - cbn. by rewrite aget_aset_ne by (done || lia). }
  unfold relax. wp_step. apply wp_heap.
  destruct (ho_dom _ _ _ HH nd Hr) as [idx Hx]. eapply wp_index_get; [exact Hx|].
  wp_step. eapply wp_cell_get; [exact Hcur|]. wp_step. eapply wp_cell_get; [exact Hn|]. rewrite Ea, to_int_whole.
  destruct (decide (elt nd ∈ contents (openlist s))) as [Ho|Ho].
  - assert (idx <> 0) as Hi0.
    { apply elem_of_contents in Ho as [i Hi]; [|apply HH]. pose proof (holds_index _ (ho_wf _ _ _ HH) _ _ Hi).
      destruct Hi. simplify_eq. lia. }
    rewrite (proj2 (Z.eqb_neq _ _) Hi0). cbn [negb]. wp_step.
    wp_step; [apply bool_decide_eq_true_2; unfold in_s; lia|]. rewrite of_int_exact by lia. wp_step.
    + wp_step. eapply wp_node_upd; [exact Hn|]. wp_step. eapply wp_node_again; [exact Hn|].
      wp_step. eapply wp_node_again; [exact Hn|]. do 2 wp_step. apply wp_heap.
      eapply wp_mono; [by eapply wp_rekey|]. intros [] o' [HH' C'].
      apply (Hend o' _ (dumped s)); try done. rewrite C'. set_solver.
    + split; [done|]. split; [|done]. intros a j Ha Hj. destruct (HC a j Ha Hj) as [?|[?|[->|?]%elem_of_cons]]; auto.
  - pose proof (ho_out _ _ _ HH nd Hr Ho) as Hx'. rewrite Hx in Hx'. injection Hx' as ->. cbn [Z.eqb negb].
    destruct (aget_is_Some (node s) to) as [t Ht]; [unfold in_range; by rewrite (same_alen _ _ SM)|].
    wp_step. eapply wp_cell_get; [exact Ht|]. wp_step. eapply wp_node_upd; [exact Hn|].
    do 3 (wp_step; eapply wp_node_again; [exact Hn|]). do 2 wp_step. wp_step. apply wp_heap.
    eapply wp_mono; [by eapply wp_open|]. intros [] o' [HH' C']. wp_step.
    + unfold dump_cb. wp_step. by apply (Hend o').
    + by apply (Hend o' _ (dumped s)).
Qed.

Lemma search_links s closed pend l' pend' :
  search s closed pend -> lists_ok (alen (node s)) l' closed pend' -> search (s <| links := l' |>) closed pend'.
Proof. intros (SM & (HG & HH & _ & HC) & HT) HL'. by split. Qed.

Lemma wp_relax_all s closed pend cur c g :
  search s closed pend -> cur ∈ closed -> aget (node s) cur = Some c -> G c = MkFloat g 0 ->
  0 <= g <= 60 * (alen closed - 1) -> (forall j, j ∈ pend -> step_to s0 cur j) -> (length pend <= 8)%nat ->
  covered (openlist s) closed pend closed ->
  wpd (relax_all cur to cost dump) (fun _ s' =>
    search s' closed [] /\ covered (openlist s') closed [] closed /\ quiet s s') s.
Proof using All.
  intros HS Hc Hcur Eg Hg Hst Hl HC. unfold relax_all.
  apply (wp_loop_rank (fun k _ t => exists pend, k = length pend /\ search t closed pend /\ aget (node t) cur = Some c /\
    (forall j, j ∈ pend -> step_to s0 cur j) /\ covered (openlist t) closed pend closed /\ quiet s t) _ _ _ _ (length pend));
    [|by exists pend|lia].
  clear pend HS Hcur Hst Hl HC. intros k [] t (pend & -> & HS & Hcur & Hst & HC & Hq).
  pose proof HS as (_ & (_ & _ & HL & _) & _).
  wp_step. apply (wp_pop_node t Neighbors pend closed); [exact (two_lists_sym _ _ Close _ _ HL)|].
  destruct pend as [|nd pend]; [by wp_step|]. intros l' HL' Hi Hnp Hnc. wp_step.
  eapply wp_mono; [apply (wp_relax (t <| links := l' |>) closed pend cur c g nd); try done|].
  - eapply search_links; [exact HS|]. exact (two_lists_sym _ _ Neighbors _ _ HL').
  - apply Hst. set_solver.
  - intros [] u (HS' & HC' & Hq' & _ & Hcur'). wp_step. exists (length pend). split; [cbn; lia|].
    exists pend. do 3 (split; [done|]). split; [intros j Hj; apply Hst; set_solver|].
    split; [done|]. unfold quiet in *. cbn in Hq'. congruence.
Qed.

(** ** The path *)

Lemma trail_cons ns i p : trail ns i p -> exists r, p = i :: r.
Proof. destruct 1; eauto. Qed.

Lemma trail_inv ns i p :
  trail ns i p -> i = from /\ p = [from] \/
  exists j n r, i <> from /\ p = i :: j :: r /\ aget ns i = Some n /\ parent n = Some j /\ step_to s0 j i /\ trail ns j (j :: r).
Proof.
  destruct 1 as [|i j n p Hi Hn Hp Hs HT]; [by left|]. right. destruct (trail_cons _ _ _ HT) as [r ->]. by exists j, n, r.
Qed.

Lemma trail_node ns i p : alen ns = alen (node s0) -> trail ns i p -> exists n, aget ns i = Some n.
Proof using Hfrom.
  intros E [[-> _]|(j & n & r & _ & _ & Hn & _)]%trail_inv; [|eauto].
  apply aget_is_Some. unfold in_range. by rewrite E.
Qed.

Lemma turn_decide {A} (a b c d : Z) (x y : A) :
  (if negb (a =? c) || negb (b =? d) then x else y) = if decide ((a, b) = (c, d)) then y else x.
Proof. destruct (Z.eqb_spec a c), (Z.eqb_spec b d); case_decide; naive_solver. Qed.

(** What is left to report at [i], [r] being the rest of the trail. *)
Definition path_inv (s : pathfinder_t) (out : list cell) (k : nat) '((c, dx, dz) : option nptr * Z * Z) (t : pathfinder_t) : Prop :=
  exists i r acc, c = Some i /\ k = length r /\ trail (node s) i (i :: r) /\ t = s <| called := acc |> /\
    acc ++ bends (dx, dz) (xz s0 i) (xz s0 <$> r) = out.

Section path.
Context (s : pathfinder_t) (SM : same_map s0 s).

Lemma trail_cell i p : trail (node s) i p -> exists n, aget (node s) i = Some n /\ xz s0 i = (nx n, nz n).
Proof using HG0 Hfrom SM.
  intros HT. destruct (trail_node _ _ _ (same_alen _ _ SM) HT) as [n Hn]. exists n. split; [done|].
  rewrite <- (same_xz _ _ SM). symmetry. apply node_xz; [|done]. by apply (same_grid _ _ SM).
Qed.

Lemma wp_path_round out k b t :
  path_inv s out k b t ->
  wpd (path_round from b) (fun r t' => match r with
    | inl b' => exists k', (k' < k)%nat /\ path_inv s out k' b' t'
    | inr _ => t' = s <| called := out |> end) t.
Proof using All.
  destruct b as [[c dx] dz]. intros (i & r & acc & -> & -> & HT & -> & Eo). destruct (trail_cell _ _ HT) as (m & Hm & Em).
  unfold path_round. wp_step. eapply wp_cell_get; [exact Hm|].
  apply trail_inv in HT as [[-> E]|(j & n & r' & Hi & [= ->] & Hn & Hp & _ & HT')].
  - injection E as ->. rewrite Z.eqb_refl. cbn [negb]. wp_step. unfold cb. wp_step. wp_step. cbn in Eo |- *.
    by rewrite <- Eo, Em.
  - rewrite (proj2 (Z.eqb_neq _ _) Hi). cbn [negb]. rewrite Hm in Hn. injection Hn as <-. rewrite Hp.
    destruct (trail_cell _ _ HT') as (m' & Hm' & Em'). wp_step. eapply wp_cell_get; [exact Hm'|].
    rewrite fmap_cons, bends_cons, Em, Em' in Eo. cbn [fst snd] in Eo. rewrite turn_decide.
    destruct (decide ((dx, dz) = (nx m - nx m', nz m - nz m'))) as [[= -> ->]|Ht].
    + wp_step. exists (length r'). split; [cbn; lia|]. exists j, r', acc. rewrite Em'. done.
    + wp_step. unfold cb. wp_step. wp_step. exists (length r'). split; [cbn; lia|].
      exists j, r', (acc ++ [(nx m, nz m)]). rewrite <- app_assoc, Em'. done.
Qed.

Lemma wp_make_path p :
  trail (node s) to p -> (length p <= length (node s))%nat ->
  wpd (make_path to from) (fun _ s' => s' = s <| called := called s ++ corners (xz s0 <$> p) |>) s.
Proof using All.
  intros HT Hl. destruct (trail_cell _ _ HT) as (n & Hn & En).
  apply trail_inv in HT as [[E _]|(j & n' & r & _ & -> & Hn' & Hp & _ & HT)]; [done|].
  rewrite Hn in Hn'. injection Hn' as <-. destruct (trail_cell _ _ HT) as (m & Hm & Em).
  unfold make_path. wp_step. eapply wp_cell_get; [exact Hn|]. wp_step. unfold cb. wp_step.
  wp_step. wp_step; [by rewrite Hp|]. wp_step. wp_step; [exact Hp|]. wp_step. eapply wp_cell_get; [exact Hm|]. do 2 wp_step.
  apply (wp_loop_rank (path_inv s (called s ++ corners (xz s0 <$> to :: j :: r))) _ _ _ _ (length r)).
  - intros k b t HI. by apply wp_path_round.
  - exists j, r, (called s ++ [(nx n, nz n)]). do 4 (split; [done|]).
    rewrite !fmap_cons. unfold corners. rewrite En, Em, <- app_assoc. done.
  - cbn in Hl. change (node (s <| called := called s ++ [(nx n, nz n)] |>)) with (node s). lia.
Qed.
End path.

(** ** A round *)

(** The next node is closed. *)
Lemma tree_close ns o o' closed i :
  tree ns o closed -> 0 <= i < alen ns -> i ∉ closed -> elt i ∈ contents o ->
  contents o' = contents o ∖ {[elt i]} -> tree ns o' (closed ++ [i]).
Proof using All.
  intros [T1 T2 T3 T4] Hi Hn Ho C'. assert (closed = [] -> i = from) as Hfst.
  { intros ->. destruct T1 as [?|[_ E]]; [set_solver|]. rewrite E in Ho. apply elt_inj; [lia|lia|set_solver]. }
  assert (forall p : list nptr, (forall j, j ∈ p -> j ∈ closed) -> forall j, j ∈ p -> j ∈ closed ++ [i]) as Hsub by set_solver.
  split.
  - left. destruct T1 as [?|[E _]]; [set_solver|]. rewrite (Hfst E). set_solver.
  - intros j [Hj| ->%list_elem_of_singleton]%elem_of_app.
    + destruct (T2 j Hj) as (p & HT & Hp & Hl). exists p. split; [done|]. split; [by apply Hsub|]. rewrite length_app. lia.
    + destruct (decide (closed = [])) as [E|Hc].
      * rewrite (Hfst E). exists [from]. split; [constructor|]. split; [set_solver|]. rewrite length_app. cbn. lia.
      * destruct (T3 i ltac:(lia) Ho Hc) as (j & n & Hin & Hp & Hjc & Hs).
        destruct (T2 j Hjc) as (p & HT & Hpc & Hl). exists (i :: p). split; [|split].
        { eapply trail_step; try done. destruct T1 as [?|[? _]]; [|done]. by intros ->. }
        { set_solver. }
        { rewrite length_app. cbn. lia. }
  - intros j Hj. rewrite C'. intros Hjo _. destruct (decide (closed = [])) as [E|Hc].
    + destruct T1 as [Hf|[_ Ec]]; [rewrite E in Hf; set_solver|]. rewrite Ec, (Hfst E) in Hjo. set_solver.
    + destruct (T3 j Hj) as (k & n & ? & ? & ? & ?); [set_solver|done|]. exists k, n. split_and!; set_solver.
  - intros j n Hj Hin. destruct (T4 j n Hj) as (g & ? & ?); [set_solver|]. exists g. split; [done|].
    rewrite alen_app, alen_cons, alen_nil. lia.
Qed.

Lemma search_close s closed i o' l' :
  search s closed [] -> 0 <= i < alen (node s) -> i ∉ closed -> elt i ∈ contents (openlist s) ->
  contents o' = contents (openlist s) ∖ {[elt i]} -> heap_ok (node s) o' (closed ++ [i]) ->
  lists_ok (alen (node s)) l' (closed ++ [i]) [] ->
  search (s <| openlist := o' |> <| links := l' |>) (closed ++ [i]) [].
Proof using All.
  intros (SM & (HG & HH & HL & HC) & HT) Hi Hn Ho C' HH' HL'. split; [done|]. split; [|by eapply tree_close].
  split; [done|]. split; [done|]. split; [done|]. intros j n Hj Hjc Hjo. cbn in Hj, Hjo.
  apply (HC j n Hj); [set_solver|]. rewrite C' in Hjo. pose proof (aget_Some_range _ _ _ Hj) as [? _].
  intros Hin. apply Hjo, elem_of_difference. split; [done|]. intros E%elem_of_singleton%elt_inj; [set_solver|done|lia].
Qed.

(** No open node is left: a walk stays among the closed ones. *)
Lemma walk_closed o closed c p :
  covered o closed [] closed -> contents o = ∅ -> from ∈ closed -> (forall i, i ∈ closed -> 0 <= i < alen (node s0)) ->
  walk s0 (xz s0 from) c p -> exists i, i ∈ closed /\ xz s0 i = c.
Proof using All.
  intros HC E Hf Hv. induction 1 as [Hi|b c p _ (i & Hi & Ei) Ha Hb]; [eauto|].
  destruct (block_at_find s0 HG0 c Hb) as (j & Hj & Hr). apply find_node_inv in Hj as [_ Ej]; [|done]. rewrite <- surjective_pairing in Ej.
  exists j. split; [|done]. destruct (HC i j Hi) as [?|[Ho|Hp]]; [|done|by rewrite E in Ho; set_solver|by apply elem_of_nil in Hp].
  split; [done|]. by rewrite Ej, Ei.
Qed.

(** The outcome of the search, [out] being the calls of [cb] before it. *)
Definition found (out : list cell) (r : Z) (s : pathfinder_t) : Prop :=
  ready s /\ same_map s0 s /\
  (r = 1 /\ (exists p, walk s0 (xz s0 from) (xz s0 to) p /\ called s = out ++ corners p) \/
   r = 0 /\ called s = out /\ forall p, ~ walk s0 (xz s0 from) (xz s0 to) p).

Lemma covered_close s closed i o' pend :
  covered (openlist s) closed [] closed -> contents o' = contents (openlist s) ∖ {[elt i]} -> 0 <= i ->
  (forall j, step_to s0 i j -> j ∈ closed ++ [i] \/ j ∈ pend) ->
  covered o' (closed ++ [i]) pend (closed ++ [i]).
Proof.
  intros HC C' Hi0 Hi c j [Hc| ->%list_elem_of_singleton]%elem_of_app Hs.
  - rewrite C'. destruct (decide (j = i)) as [->|Hji]; [left; set_solver|].
    destruct (HC c j Hc Hs) as [?|[Ho|?]]; [left; set_solver| |set_solver]. right; left.
    apply elem_of_difference. split; [done|]. destruct Hs as [[? _] _]. intros E%elem_of_singleton%elt_inj; done.
  - destruct (Hi j Hs); auto.
Qed.

Lemma wp_expand s closed cur :
  search s (closed ++ [cur]) [] -> 0 <= cur -> (exists n g, aget (node s) cur = Some n /\ G n = MkFloat g 0 /\ 0 <= g <= 60 * alen closed) ->
  (forall pend, (forall j, step_to s0 cur j -> j ∈ closed ++ [cur] \/ j ∈ pend) ->
     covered (openlist s) (closed ++ [cur]) pend (closed ++ [cur])) ->
  wpd (b ← find_neighbors cur; when b (relax_all cur to cost dump);; mret (@None Z)) (fun r s' =>
    r = None /\ search s' (closed ++ [cur]) [] /\ covered (openlist s') (closed ++ [cur]) [] (closed ++ [cur]) /\ quiet s s') s.
Proof using All.
  intros HS Hc0 (n & g & Hn & Eg & Hg) HC. pose proof HS as (SM & (HG & HH & HL & _) & HT).
  wp_step. eapply wp_mono; [by apply (wp_find_neighbors s (closed ++ [cur]) cur n)|].
  intros b t (l' & pend & -> & -> & HLk). pose proof HLk as (HL' & Hlen & Hst & _).
  pose proof (search_links _ _ _ _ _ HS HL') as HS'.
  assert (covered (openlist s) (closed ++ [cur]) pend (closed ++ [cur])) as HC'.
  { apply HC. intros j Hj. apply (looked_all s (closed ++ [cur]) cur n HG Hn l'); [done|]. by apply (same_step s0 s). }
  wp_step. wp_step.
  - eapply wp_mono; [eapply (wp_relax_all (s <| links := l' |>) (closed ++ [cur]) pend cur n g); try done|].
    + set_solver.
    + rewrite alen_app, alen_cons, alen_nil. lia.
    + intros j Hj. apply (same_step s0 s); [done|]. by apply Hst.
    + intros [] u (?&?&?). by wp_step.
  - destruct pend; [|done]. by wp_step.
Qed.

(** Between two rounds. *)
Definition going (out : list cell) (closed : list nptr) (s : pathfinder_t) : Prop :=
  search s closed [] /\ covered (openlist s) closed [] closed /\ (to ∉ closed) /\ called s = out.

Lemma wp_exhausted out closed s :
  going out closed s -> contents (openlist s) = ∅ -> wpd (reset;; mret (Some 0)) (fun r s' => exists z, r = Some z /\ found out z s') s.
Proof using All.
  intros (HS & HC & Hnt & Eo) Ec. pose proof HS as (SM & FO & HT). wp_step. eapply wp_mono; [by apply (wp_reset s closed)|].
  intros [] t (HR & SM' & Ec'). wp_step. exists 0. split; [done|]. split; [done|]. split; [by etrans|].
  right. split; [done|]. split; [congruence|]. intros p Hw.
  assert (from ∈ closed) as Hf.
  { destruct (tr_from _ _ _ HT) as [?|[_ E]]; [done|]. rewrite Ec in E. set_solver. }
  assert (forall i, i ∈ closed -> 0 <= i < alen (node s0)) as Hv.
  { intros i Hi. rewrite <- (same_alen _ _ SM). destruct FO as (_ & _ & HL & _). apply (tl_valid _ _ _ _ _ HL). set_solver. }
  destruct (walk_closed _ _ _ _ HC Ec Hf Hv Hw) as (i & Hi & Ei). apply xz_inj in Ei; [by subst|done|by apply Hv|done].
Qed.

Lemma wp_arrived out closed s :
  search s closed [] -> to ∈ closed -> called s = out ->
  wpd (make_path to from;; reset;; mret (Some 1)) (fun r s' => exists z, r = Some z /\ found out z s') s.
Proof using All.
  intros HS Ht Eo. pose proof HS as (SM & FO & HT). destruct (tr_closed _ _ _ HT to Ht) as (p & HTr & _ & Hl).
  pose proof (closed_bound _ _ _ FO) as Hb. rewrite !alen_length in Hb.
  wp_step. eapply wp_mono; [apply (wp_make_path s SM p HTr); lia|]. intros [] t ->.
  wp_step. eapply wp_mono; [apply (wp_reset _ closed); exact FO|].
  intros [] u (HR & SM' & Ec). wp_step. exists 1. split; [done|]. split; [done|]. split; [by etrans|].
  left. split; [done|]. exists (xz s0 <$> p). split; [by eapply trail_walk|]. by rewrite Ec, <- Eo.
Qed.

Lemma wp_find_round out closed s :
  going out closed s ->
  wpd (find_round from to cost dump) (fun r s' => match r with
    | None => exists cur, going out (closed ++ [cur]) s'
    | Some z => found out z s'
    end) s.
Proof using All.
  intros HGo. pose proof HGo as (HS & HC & Hnt & Eo). pose proof HS as (SM & (HG & HH & HL & HCl) & HT).
  unfold find_round. do 2 wp_step. wp_step. apply wp_heap. eapply wp_close; [done| |].
  - intros Ec. replace (s <| openlist := openlist s |>) with s by (by destruct s).
    eapply wp_mono; [by apply (wp_exhausted out closed)|]. by intros r t (z & -> & ?).
  - intros i o' Ho Hi Hn HH' C'. rewrite CAST_elt by lia. wp_step. apply wp_lst.
    apply (wp_push_node (alen (node s)) (links s) Close closed [] i); [done|done|done|set_solver|]. intros l' HL'.
    pose proof (search_close s closed i o' l' HS Hi Hn Ho C' HH' HL') as HS'.
    destruct (Z.eqb_spec i to) as [->|Hto'].
    + eapply wp_mono; [apply (wp_arrived out (closed ++ [to])); [exact HS'|set_solver|done]|]. by intros r t (z & -> & ?).
    + eapply wp_mono; [apply (wp_expand _ closed i HS'); [lia| |]|].
      * destruct (aget_is_Some _ _ Hi) as [n Hin]. destruct (tr_G _ _ _ HT i n Hin (or_intror Ho)) as (g & ? & ?). by exists n, g.
      * intros pend Hp. eapply covered_close; [exact HC|done|lia|done].
      * intros r t (-> & HS'' & HC'' & Hq). exists i. split; [done|]. split; [done|]. split; [set_solver|].
        unfold quiet in Hq. cbn in Hq. congruence.
Qed.

Lemma wp_find_loop out s :
  going out [] s ->
  wpd (loop (S (S (length (node s0)))) (fun _ =>
         r ← find_round from to cost dump;
         mret (match r with Some r => inr r | None => inl tt end)) tt) (found out) s.
Proof using All.
  intros HGo. apply (wp_loop_rank (fun k _ t => exists closed, k = (length (node s0) - length closed)%nat /\ going out closed t)
    _ _ _ _ (length (node s0))); [|by exists []; rewrite Nat.sub_0_r|lia].
  clear s HGo. intros k [] t (closed & -> & HGo). wp_step. eapply wp_mono; [by apply (wp_find_round out closed)|].
  intros [z|] u Hu; wp_step; [done|]. destruct Hu as (cur & HGo').
  exists (length (node s0) - length (closed ++ [cur]))%nat. split; [|by exists (closed ++ [cur])].
  destruct HGo' as ((SM & FO & _) & _). pose proof (closed_bound _ _ _ FO) as Hb. rewrite (same_alen _ _ SM) in Hb.
  rewrite !alen_length, length_app in Hb. rewrite length_app. cbn in *. lia.
Qed.
End search.

(** ** Searches *)

Lemma going_start s from o' :
  ready s -> 0 <= from < alen (node s) -> heap_ok (node s) o' [] -> contents o' = {[elt from]} ->
  search s from (s <| openlist := o' |>) [] [].
Proof.
  intros [(HG & HH & HL & HC) E] Hf HH' C'. split; [done|]. split.
  - split; [done|]. split; [done|]. split; [done|]. intros i n Hn Hc Ho. apply (HC i n Hn Hc). rewrite E. set_solver.
  - split; [by right|by intros i ?%elem_of_nil|done|]. intros i n Hn _. destruct (HC i n Hn) as (_ & EG & _); [set_solver|rewrite E; set_solver|].
    exists 0. rewrite EG, of_int_exact by done. split; [done|]. rewrite alen_nil. lia.
Qed.

(** Opening a node without a change of its contents. *)
Lemma wp_open_same ns o i n :
  heap_ok ns o [] -> alen ns <= 2 ^ 18 -> aget ns i = Some n -> elt i ∉ contents o ->
  wpd (minheap_push (less ns) (elt i)) (fun _ o' => heap_ok ns o' [] /\ contents o' = {[elt i]} ∪ contents o) o.
Proof.
  intros HH Hsm Hn Ho. pose proof (wp_open ns o [] i n HH Hsm (aget_Some_range _ _ _ Hn)) as Hw.
  rewrite (aset_id _ _ _ Hn) in Hw. apply Hw; [set_solver|done].
Qed.

Lemma wp_finder_find s x0 z0 x1 z1 dump cost :
  ready s ->
  wpd (finder_find x0 z0 x1 z1 dump cost) (fun r s' =>
    ready s' /\ same_map s s' /\
    (r = 1 /\ (x0, z0) <> (x1, z1) /\ (exists p, walk s (x0, z0) (x1, z1) p /\ called s' = called s ++ corners p) \/
     r = 0 /\ called s' = called s /\ ((x0, z0) = (x1, z1) \/ forall p, ~ walk s (x0, z0) (x1, z1) p))) s.
Proof.
  intros HR. pose proof HR as [(HG & HH & HL & HC) E]. unfold finder_find. do 2 wp_step.
  destruct (find_node s x0 z0) as [from|] eqn:Ef.
  2: { wp_step. do 2 (split; [done|]). right. do 2 (split; [done|]). right. intros p Hw%walk_inside.
       assert (find_node s x0 z0 = Some (x0 * heigh s + z0)) by (by apply find_node_Some). congruence. }
  destruct (find_node_inv s HG _ _ _ Ef) as [Hf Exf].
  destruct (find_node s x1 z1) as [to|] eqn:Et.
  2: { wp_step. do 2 (split; [done|]). right. do 2 (split; [done|]). destruct (decide ((x0, z0) = (x1, z1))) as [|Hne]; [by left|].
       right. intros p Hw%walk_end; [|done]. destruct (block_at_find s HG _ Hw) as (i & Hi & _). cbn in Hi. congruence. }
  destruct (find_node_inv s HG _ _ _ Et) as [Ht Ext]. destruct (aget_is_Some _ _ Ht) as [t Hnt].
  wp_step. eapply wp_cell_get; [exact Hnt|]. pose proof (block_at_node s HG to t Hnt) as Eb.
  destruct (Z.eqb_spec from to) as [->|Hne]; cbn [orb].
  { wp_step. do 2 (split; [done|]). right. do 2 (split; [done|]). left. congruence. }
  assert ((x0, z0) <> (x1, z1)) as Hne' by (intros [= -> ->]; congruence).
  destruct (Z.eqb_spec (block t) 0) as [E0|Hb0].
  { wp_step. do 2 (split; [done|]). right. do 2 (split; [done|]). right.
    intros p Hw%walk_end; [|done]. by rewrite <- Ext, Eb in Hw. }
  destruct (aget_is_Some _ _ Hf) as [f Hnf]. wp_step. apply wp_heap. eapply wp_mono; [eapply wp_open_same; [done| |done|rewrite E; set_solver]|].
  { rewrite (grid_len _ _ _ HG). apply HG. }
  intros [] o' [HH' C']. rewrite E, union_empty_r_L in C'.
  eapply wp_mono; [apply (wp_find_loop s HG from to Hf Ht Hne cost dump (called s))|].
  - split; [by apply going_start|]. split; [intros c j Hc; by apply elem_of_nil in Hc|]. split; [set_solver|done].
  - intros r s' (HR' & SM & Hres). rewrite Exf, Ext in Hres. split; [done|]. split; [done|].
    destruct Hres as [(-> & p & Hw & Ec)|(-> & Ec & Hw)]; [left|right]; eauto 10.
Qed.
