(* ===== verification/PathfinderCreate.v ===== *)
(** * Creating a path finder and asking it

    A finder made from a grid is ready for searches; searches keep it so. *)

From S2P Require Import Prelude Outcome MinHeap List LuaValue Float32 Pathfinder PathfinderFind.

#[local] Open Scope c_scope.

Lemma lookup_const_map {K V} `{Countable K} (ks : list K) (v : V) k :
  k ∈ ks -> (list_to_map ((fun k => (k, v)) <$> ks) : gmap K V) !! k = Some v.
Proof.
  induction ks as [|a ks IH]; [by intros ?%elem_of_nil|]. intros Hk. cbn. rewrite lookup_insert.
  case_decide; [done|]. apply IH. apply elem_of_cons in Hk as [->|]; done.
Qed.

Section create.
Context (w h : Z) (dat : bytes) (Hw : 0 <= w) (Hh : 0 <= h) (Hsm : w * h <= 2 ^ 18) (Hd : w * h <= alen dat).

(** The node [k] of the new finder. *)
Definition fresh_node (k : Z) : node_t :=
  MkNode None (k / h) (k mod h) (from_option (fun b => s8 (b2z b)) 0 (aget dat k)) (of_int 0) (of_int 0) (of_int 0).

(** The nodes before [m] are filled in. *)
Definition filled (m : Z) (ns : list node_t) : Prop :=
  alen ns = w * h /\
  forall k, 0 <= k < w * h -> aget ns k = Some (if decide (k < m) then fresh_node k else node_zero).

Lemma filled_start : filled 0 (replicate (Z.to_nat (w * h)) node_zero).
Proof.
  split; [rewrite alen_replicate; lia|]. intros k Hk. rewrite aget_replicate by lia. by rewrite decide_False by lia.
Qed.

Lemma filled_next i j ns :
  0 <= i < w -> 0 <= j < h -> filled (i * h + j) ns ->
  filled (i * h + (j + 1)) (aset ns (i * h + j) (fresh_node (i * h + j))).
Proof.
  intros Hi Hj [Hl Hf]. split; [by rewrite alen_aset|]. intros k Hk. rewrite aget_aset by (unfold in_range; nia).
  case_decide as E; [subst k; by rewrite decide_True by lia|]. rewrite Hf by done. f_equal. by apply decide_ext; lia.
Qed.

(** What the loops leave alone. *)
Definition filling (s : pathfinder_t) (m : Z) (t : pathfinder_t) : Prop := exists ns, t = s <| node := ns |> /\ filled m ns.

(** The body of the loops. *)
Definition fill_cell (i j : Z) : P unit :=
  let idx := i * h + j in
  node_upd idx (fun n => n <| nx := i |>);;
  node_upd idx (fun n => n <| nz := j |>);;
  s ← get;
  c ← deref OutOfBounds (aget (data s) idx);
  node_upd idx (fun n => n <| block := c |>).

Abbreviation copied s := (data s = (fun b => s8 (b2z b)) <$> take (Z.to_nat (w * h)) dat).

Lemma wp_fill_cell t i j Q :
  copied t -> 0 <= i < w -> 0 <= j < h -> filled (i * h + j) (node t) ->
  Q tt (t <| node := aset (node t) (i * h + j) (fresh_node (i * h + j)) |>) -> wpd (fill_cell i j) Q t.
Proof using All.
  intros Edata Hi Hj [_ Hf] HQ. assert (0 <= i * h + j < w * h) as Hr by nia. pose proof (Hf _ Hr) as Hn.
  rewrite decide_False in Hn by lia. destruct (aget_is_Some dat (i * h + j)) as [b Eb]; [unfold in_range; lia|].
  unfold fill_cell. wp_step. eapply wp_node_upd; [exact Hn|]. wp_step. eapply wp_node_again; [exact Hn|].
  do 2 wp_step. wp_step. wp_step.
  { change (data (t <| node := aset (node t) (i * h + j) (node_zero <| nx := i |> <| nz := j |>) |>)) with (data t).
    by rewrite Edata, aget_fmap, aget_take, Eb by lia. }
  eapply wp_node_again; [exact Hn|]. unfold fresh_node in HQ. rewrite Eb in HQ. cbn [from_option] in HQ.
  assert ((i * h + j) / h = i) as E1 by (rewrite Z.div_add_l, Z.div_small by lia; lia).
  assert ((i * h + j) mod h = j) as E2 by (rewrite Z.add_comm, Z.mod_add, Z.mod_small by lia; lia).
  by rewrite E1, E2 in HQ.
Qed.

Lemma seqZ_end i n : 0 <= i <= n -> [] = seqZ i (n - i) -> i = n.
Proof. intros Hi E. destruct (decide (i = n)); [done|]. by rewrite seqZ_cons in E by lia. Qed.

Lemma seqZ_more i n x xs : 0 <= i <= n -> x :: xs = seqZ i (n - i) -> x = i /\ xs = seqZ (i + 1) (n - (i + 1)) /\ i < n.
Proof.
  intros Hi E. destruct (decide (i = n)) as [->|]; [by rewrite Z.sub_diag in E|]. rewrite seqZ_cons in E by lia.
  injection E as -> ->. split; [done|]. split; [f_equal; lia|lia].
Qed.

Lemma wp_fill s Q :
  copied s -> filled 0 (node s) -> (forall ns, filled (w * h) ns -> Q tt (s <| node := ns |>)) ->
  wpd (for_each (seqZ 0 w) (fun i => for_each (seqZ 0 h) (fill_cell i))) Q s.
Proof using All.
  intros Edata H0 HQ. eapply wp_mono.
  - apply (wp_for_each (fun xs t => exists i, 0 <= i <= w /\ xs = seqZ i (w - i) /\ filling s (i * h) t)).
    2: { exists 0. split; [lia|]. split; [by rewrite Z.sub_0_r|]. exists (node s). split; [by destruct s|done]. }
    intros i' xs t (i & Hi & (-> & -> & Hiw)%seqZ_more & HF); [|done]. eapply wp_mono.
    + apply (wp_for_each (fun js t => exists j, 0 <= j <= h /\ js = seqZ j (h - j) /\ filling s (i * h + j) t)).
      2: { exists 0. split; [lia|]. split; [by rewrite Z.sub_0_r|]. by rewrite Z.add_0_r. }
      intros j' js u (j & Hj & (-> & -> & Hjh)%seqZ_more & ns & -> & HF'); [|done].
      apply wp_fill_cell; [done|lia|lia|done|]. exists (j + 1). split; [lia|]. split; [done|].
      eexists. split; [done|]. apply filled_next; [lia|lia|done].
    + intros [] u (j & Hj & ->%seqZ_end & HF'); [|done]. exists (i + 1). split; [lia|]. split; [done|].
      by replace ((i + 1) * h) with (i * h + h) by lia.
  - intros [] t (i & Hi & ->%seqZ_end & ns & -> & HF); [|done]. by apply HQ.
Qed.

Lemma filled_grid ns : filled (w * h) ns -> grid w h ns /\ forall i n, aget ns i = Some n -> n = fresh_node i.
Proof using All.
  intros [Hl Hf]. assert (forall i n, aget ns i = Some n -> n = fresh_node i) as Hn.
  { intros i n Hn. pose proof (aget_Some_range _ _ _ Hn) as [? Hr]. rewrite Hl in Hr. rewrite Hf in Hn by lia.
    rewrite decide_True in Hn by lia. congruence. }
  split; [|done]. split; try done. intros i n E. by rewrite (Hn i n E).
Qed.

(** The new heap. *)
Lemma heap_ok_new ns :
  alen ns = w * h -> heap_ok ns (MkSt (minheap_create (50 * 50)) (index_zero (w * h))) [] /\
  contents (MkSt (minheap_create (50 * 50)) (index_zero (w * h))) = ∅.
Proof.
  intros El. assert (forall i, 0 <= i < alen ns -> index_zero (w * h) !! elt i = Some 0) as Hx.
  { intros i Hi. unfold index_zero. replace ((fun i => (elt i, 0)) <$> seqZ 0 (w * h)) with ((fun e => (e, 0)) <$> (elt <$> seqZ 0 (w * h))).
    - apply lookup_const_map, list_elem_of_fmap_2, elem_of_seqZ. lia.
    - by rewrite <- list_fmap_compose. }
  split; [|done]. split.
  - split; cbn; try lia. by rewrite alen_replicate.
  - intros i Hi a b [Ha _]. cbn in Ha. lia.
  - done.
  - done.
  - intros i Hi. exists 0. by apply Hx.
  - intros i Hi _. by apply Hx.
  - intros e He. exfalso. revert He. apply not_elem_of_empty.
Qed.

(** The new lists. *)
Lemma links_zero_lookup p :
  p ∈ [PHead Close; PTail Close; PHead Neighbors; PTail Neighbors] ++ (PNode <$> seqZ 0 (w * h)) ->
  links_zero (w * h) !! p = Some unlinked.
Proof. apply lookup_const_map. Qed.

Lemma wp_lists_init s Q :
  links s = links_zero (w * h) -> (forall l, lists_ok (w * h) l [] [] -> Q tt (s <| links := l |>)) ->
  wpd (lst (list_init closelist);; lst (list_init neighbors)) Q s.
Proof.
  intros El HQ. wp_step. apply wp_lst. rewrite El.
  apply wp_list_init; [done|rewrite links_zero_lookup by set_solver; eauto..|].
  intros l HC [HA HD]. apply wp_lst, wp_list_init; [done|apply HD; rewrite links_zero_lookup by set_solver; eauto..|].
  intros l' HC' [HA' _]. apply HQ. split.
  - eapply chain_frame; [|exact HC]. intros p Hp. apply HA'. eapply (rings_apart Neighbors [] []); [set_solver|exact Hp].
  - done.
  - set_solver.
  - set_solver.
  - intros i Hi _ _. rewrite HA', HA.
    + apply links_zero_lookup. rewrite elem_of_app. right. apply list_elem_of_fmap_2, elem_of_seqZ. lia.
    + rewrite (elem_of_ring Close []). naive_solver set_solver.
    + rewrite (elem_of_ring Neighbors []). naive_solver set_solver.
Qed.

Lemma wp_finder_create :
  wpd (finder_create w h dat) (fun _ s =>
    ready s /\ width s = w /\ heigh s = h /\ mask s = mask finder_zero /\ called s = [] /\
    node s = fresh_node <$> seqZ 0 (w * h)) finder_zero.
Proof using All.
  assert (0 <= w * h) as H0 by nia. unfold finder_create. do 2 wp_step. wp_step. wp_step.
  wp_step. wp_step; [apply bool_decide_eq_true_2; unfold in_s; lia|]. wp_step. wp_step; [by apply Z.leb_le|].
  do 6 wp_step. wp_step. wp_step; [apply slice_take; lia|]. wp_step. wp_step. wp_step.
  apply wp_fill; [done|apply filled_start|]. intros ns HF. do 2 wp_step.
  destruct (filled_grid ns HF) as [HG Hn]. destruct (heap_ok_new ns (grid_len _ _ _ HG)) as [HH HC].
  apply wp_lists_init; [done|]. intros l HL. split; [split; [|exact HC]|].
  - split; [exact HG|]. split; [exact HH|]. split; [by cbn; rewrite (grid_len _ _ _ HG)|].
    intros i n E _ _. by rewrite (Hn i n E).
  - do 4 (split; [done|]). cbn. apply aget_ext.
    + rewrite (grid_len _ _ _ HG), alen_seqZ_fmap; done.
    + intros i. destruct (decide (0 <= i < w * h)) as [Hi|Hi].
      * rewrite aget_seqZ_fmap by done. destruct HF as [_ Hf]. rewrite Hf by done. by rewrite decide_True by lia.
      * rewrite !aget_None; [done|..]; unfold in_range; [rewrite alen_seqZ_fmap|rewrite (grid_len _ _ _ HG)]; done.
Qed.
End create.

(** ** The properties *)

(** A finder is created from every grid of at most [2^18] cells for which the data are
    complete: no write goes outside the arrays, the finder is ready for searches, and the
    cell ([x], [z]) has the block type at [x * height + z] of the data. *)
Theorem finder_create_correct w h dat :
  0 <= w -> 0 <= h -> w * h <= 2 ^ 18 -> w * h <= alen dat ->
  exists s, finder_create w h dat finder_zero = Done tt s /\ ready s /\ width s = w /\ heigh s = h /\
    forall x z b, 0 <= x < w -> 0 <= z < h -> aget dat (x * h + z) = Some b -> block_at s (x, z) = s8 (b2z b).
Proof.
  intros Hw Hh Hsm Hd. pose proof (wp_finder_create w h dat Hw Hh Hsm Hd) as H.
  apply wpd_Done in H as ([] & s & E & HR & Ew & Eh & _ & _ & En). exists s. do 4 (split; [done|]).
  intros x z b Hx Hz Hb. unfold block_at, find_node. cbn [fst snd]. rewrite Ew, Eh.
  zcase; try lia. cbn. rewrite En, aget_seqZ_fmap by nia. cbn. by rewrite Hb.
Qed.

(** C9: [finder_find] on a finder between two searches returns, whatever the coordinates and
    the (whole) cost: it reads no node outside the grid, the heap and the lists stay sound,
    the search ends. It returns 1 exactly if the target is another cell that can be reached
    through the eight neighbours over cells with a block type that is not 0, and then
    reports the corners of such a path, target first; joined by straight lines they are the
    path. It leaves the finder ready for the next search, with the same map. *)
Theorem finder_find_correct s x0 z0 x1 z1 dump cost :
  ready s ->
  exists r s', finder_find x0 z0 x1 z1 dump cost s = Done r s' /\ ready s' /\ same_map s s' /\
    (r = 1 /\ (x0, z0) <> (x1, z1) /\
       (exists p, walk s (x0, z0) (x1, z1) p /\ called s' = called s ++ corners p /\ join (corners p) = p) \/
     r = 0 /\ called s' = called s /\ ((x0, z0) = (x1, z1) \/ forall p, ~ walk s (x0, z0) (x1, z1) p)).
Proof.
  intros HR. pose proof (wp_finder_find s x0 z0 x1 z1 dump cost HR) as H.
  apply wpd_Done in H as (r & s' & E & HR' & SM & Hres). exists r, s'. do 3 (split; [done|]).
  destruct Hres as [(-> & Hne & p & Hw & Ec)|Hres]; [left|by right].
  split; [done|]. split; [done|]. exists p. split; [done|]. split; [done|]. eapply join_corners, walk_contiguous, Hw.
Qed.

(** ** The properties on a concrete grid *)

Definition ex_rows : list (list Z) := [[0; 1; 1; 1]; [1; 0; 1; 0]; [0; 1; 1; 1]].
Definition ex_finder : pathfinder_t := grid_of ex_rows.

Lemma ex_ready : ready ex_finder.
Proof.
  assert (finder_create 3 4 (z2b <$> mjoin ex_rows) finder_zero = Done tt ex_finder) as E by (vm_compute; reflexivity).
  assert (3 * 4 <= alen (z2b <$> mjoin ex_rows)) as Hl by (vm_compute; discriminate).
  pose proof (wp_finder_create 3 4 (z2b <$> mjoin ex_rows) ltac:(lia) ltac:(lia) ltac:(lia) Hl) as H.
  by apply (wpd_elim _ _ _ _ _ E) in H as [H _].
Qed.

Lemma finder_create_witness :
  exists s, finder_create 3 4 (z2b <$> mjoin ex_rows) finder_zero = Done tt s /\ ready s /\ width s = 3 /\ heigh s = 4 /\
    forall x z b, 0 <= x < 3 -> 0 <= z < 4 -> aget (z2b <$> mjoin ex_rows) (x * 4 + z) = Some b -> block_at s (x, z) = s8 (b2z b).
Proof.
  apply (finder_create_correct 3 4 (z2b <$> mjoin ex_rows)); [lia|lia|lia|by vm_compute].
Defined.

Lemma finder_find_witness :
  exists r s', finder_find 0 0 2 3 true (of_int 50) ex_finder = Done r s' /\ ready s' /\ same_map ex_finder s' /\
    (r = 1 /\ (0, 0) <> (2, 3) /\
       (exists p, walk ex_finder (0, 0) (2, 3) p /\ called s' = called ex_finder ++ corners p /\ join (corners p) = p) \/
     r = 0 /\ called s' = called ex_finder /\ ((0, 0) = (2, 3) \/ forall p, ~ walk ex_finder (0, 0) (2, 3) p)).
Proof. apply (finder_find_correct ex_finder 0 0 2 3 true (of_int 50)). apply ex_ready. Defined.

(** The estimate of the remaining cost, 50 for each row and each column, is more than a
    diagonal step of cost 60 costs: the path found is not always a cheapest one. This one
    costs 60 + 50 + 60 + 50 + ..., over (0,1) and (1,2) there is one for 170. *)
Definition step_cost (a b : cell) : Z := if (a.1 =? b.1) || (a.2 =? b.2) then 50 else 60.
Fixpoint path_cost (p : list cell) : Z :=
  match p with
  | a :: (b :: _) as r => step_cost a b + path_cost r
  | _ => 0
  end.

Example path_not_cheapest :
  called (after (finder_find 0 0 2 3 false (of_int 50)) ex_finder) = [(2, 3); (2, 1); (1, 0); (0, 0)] /\
  path_cost (join [(2, 3); (2, 1); (1, 0); (0, 0)]) = 210 /\
  path_cost [(2, 3); (1, 2); (0, 1); (0, 0)] = 170 /\
  walk ex_finder (0, 0) (2, 3) [(2, 3); (1, 2); (0, 1); (0, 0)].
Proof.
  split; [vm_compute; reflexivity|]. split; [reflexivity|]. split; [reflexivity|].
  apply (walk_step _ _ (1, 2)); [|split; [done|cbn; lia]|vm_compute; discriminate].
  apply (walk_step _ _ (0, 1)); [|split; [done|cbn; lia]|vm_compute; discriminate].
  apply (walk_step _ _ (0, 0)); [|split; [done|cbn; lia]|vm_compute; discriminate].
  apply walk_start. split; cbn [fst snd]; [change (width ex_finder) with 3|change (heigh ex_finder) with 4]; lia.
Qed.

(** A file whose data are shorter than its header says: [memcpy] reads behind the buffer. *)
Example short_file_overreads :
  lua_create (Some (le_split 4 3 ++ le_split 4 4 ++ [z2b 0; z2b 1])) finder_zero = Fault OutOfBounds.
Proof. reflexivity. Qed.
