(* ===== verification/PathfinderRay.v ===== *)
(** * Movable cells and rays of the path finder

    [movable] is a predicate on cells, and [finder_raycast] walks the cells of a ray, one
    in every column (or row) between its ends and less than one cell from the exact line,
    up to the first that is not movable. *)

From S2P Require Import Prelude Outcome MinHeap List LuaValue Float32 Pathfinder PathfinderFind PathfinderCreate.

#[local] Open Scope c_scope.

(** ** Movable cells *)

Definition can_move (s : pathfinder_t) (ignore : Z) (c : cell) : bool :=
  match find_node s c.1 c.2 ≫= aget (node s) with
  | None => false
  | Some n => if ignore =? 0 then bool_decide (aget (mask s) (block n) = Some 1) else negb (block n =? 0)
  end.

(** The mask has its length, and the block types index it unless it is ignored. *)
Definition masked (s : pathfinder_t) (ignore : Z) : Prop :=
  grid (width s) (heigh s) (node s) /\ alen (mask s) = MARK_MAX /\
  (ignore = 0 -> Forall (fun n => 0 <= block n < MARK_MAX) (node s)).

Lemma movable_spec s ignore x z :
  masked s ignore -> movable x z ignore s = Done (Z.b2z (can_move s ignore (x, z))) s.
Proof.
  intros (HG & Hm & Hb). assert (wpd (movable x z ignore) (fun m t => m = Z.b2z (can_move s ignore (x, z)) /\ t = s) s) as H.
  { unfold movable, can_move. do 2 wp_step. cbn [fst snd]. destruct (find_node s x z) as [i|] eqn:Ef; [|by wp_step].
    destruct (find_node_inv s HG _ _ _ Ef) as [Hi _]. destruct (aget_is_Some _ _ Hi) as [n Hn].
    wp_step. eapply wp_cell_get; [exact Hn|]. cbn. rewrite Hn. destruct (Z.eqb_spec ignore 0) as [->|_]; cbn [negb]; [|by wp_step].
    specialize (Hb eq_refl). rewrite Forall_forall in Hb. pose proof (Hb n (aget_elem_of _ _ _ Hn)) as Hbn.
    destruct (aget_is_Some (mask s) (block n)) as [m Em]; [unfold in_range; lia|]. wp_step. wp_step; [exact Em|]. wp_step.
    split; [|done]. rewrite Em. destruct (Z.eqb_spec m 1) as [->|]; [by rewrite bool_decide_eq_true_2|].
    rewrite bool_decide_eq_false_2; congruence. }
  apply wpd_Done in H as (m & t & E & -> & ->). done.
Qed.

(** ** A loop over the points of a ray *)

Section ray.
Context (s : pathfinder_t) (ignore : Z) (HM : masked s ignore) (dump : bool).
(** The points are [v 0 ... v n], the cells [ck 0 ... ck n]. *)
Context (n : Z) (Hn : 0 <= n) (v : Z -> float) (ck : Z -> cell).
Context (inc : float) (go : float -> bool) (cf : float -> P (Z * Z)) (at_v : float -> float * float) (r0 : float * float).
Context (Hinc : forall k, 0 <= k <= n -> fadd (v k) inc = v (k + 1)).
Context (Hgo : forall k, 0 <= k <= n + 1 -> go (v k) = (k <=? n)).
Context (Hck : forall k t, 0 <= k <= n -> cf (v k) t = Done (ck k) t).

Definition seen (k : Z) : pathfinder_t := s <| dumped := dumped s ++ (if dump then ck <$> seqZ 0 k else []) |>.
Definition r_at (k : Z) : float * float := if k =? 0 then r0 else at_v (v (k - 1)).

Lemma seen_next k : 0 <= k -> (when dump (dump_cb (ck k).1 (ck k).2)) (seen k) = Done tt (seen (k + 1)).
Proof.
  intros Hk. unfold seen. destruct dump; [|done]. cbn. unfold modify. do 2 f_equal. cbn.
  assert (seqZ 0 (k + 1) = seqZ 0 k ++ [k]) as -> by (rewrite seqZ_app by lia; f_equal; cbn; f_equal; lia).
  rewrite fmap_app, app_assoc. cbn. by destruct (ck k).
Qed.

Lemma wp_ray_loop :
  wpd (ray_loop (S (S (Z.to_nat n))) (v 0) inc go cf at_v ignore dump r0) (fun out t => exists k,
    0 <= k <= n + 1 /\ (forall j, 0 <= j < k -> can_move s ignore (ck j) = true) /\
    (k <= n -> can_move s ignore (ck k) = false) /\
    out = (bool_decide (k <= n), r_at k) /\ t = seen (Z.min (k + 1) (n + 1))) s.
Proof using All.
  unfold ray_loop. apply (wp_loop_rank (fun rk '(v', r) t => exists k, 0 <= k <= n + 1 /\ rk = Z.to_nat (n + 1 - k) /\
    v' = v k /\ r = r_at k /\ t = seen k /\ forall j, 0 <= j < k -> can_move s ignore (ck j) = true) _ _ _ _ (Z.to_nat (n + 1))).
  - intros rk [v' r] t (k & Hk & -> & -> & -> & -> & Hall). rewrite Hgo by done. destruct (Z.leb_spec k n) as [Hle|Hgt].
    + wp_step. eapply wp_Done; [apply Hck; lia|]. wp_step. eapply wp_Done; [apply seen_next; lia|]. wp_step.
      eapply wp_Done; [by apply (movable_spec (seen (k + 1)))|]. rewrite <- surjective_pairing.
      change (can_move (seen (k + 1)) ignore (ck k)) with (can_move s ignore (ck k)).
      destruct (can_move s ignore (ck k)) eqn:Ec;
        [change (Z.b2z true =? 0) with false|change (Z.b2z false =? 0) with true]; cbv iota; wp_step.
      * exists (Z.to_nat (n + 1 - (k + 1))). split; [lia|]. exists (k + 1). split; [lia|]. split; [done|].
        split; [apply Hinc; lia|]. split; [unfold r_at; rewrite (proj2 (Z.eqb_neq _ _)), Z.add_simpl_r by lia; done|].
        split; [done|]. intros j Hj. destruct (decide (j = k)) as [->|]; [done|]. apply Hall. lia.
      * exists k. split; [lia|]. split; [done|]. split; [done|]. rewrite bool_decide_eq_true_2 by done.
        split; [done|]. f_equal. lia.
    + wp_step. exists k. split; [lia|]. split; [done|]. split; [lia|]. rewrite bool_decide_eq_false_2 by lia.
      split; [done|]. f_equal. lia.
  - exists 0. split; [lia|]. split; [f_equal; lia|]. split; [done|]. split; [done|]. split; [|lia].
    unfold seen. destruct dump; cbn; rewrite app_nil_r; by destruct s.
  - lia.
Qed.
End ray.

(** ** Points *)

(** Coordinates for which the middle of a cell is a [float], and sums of two are. *)
Definition coord (c : Z) : Prop := 0 <= c < 2 ^ 21.

(** The middle of a cell. *)
Definition mid (c : Z) : float := MkFloat (2 * c + 1) (-1).

Lemma mid_half c : Z.abs c < 2 ^ 22 -> fadd (of_int c) half = mid c.
Proof.
  intros Hc. rewrite of_int_exact by lia. unfold fadd, fexp, units, half. cbn [man exp].
  change (Z.min 0 (-1)) with (-1). change (2 ^ (0 - -1)) with 2. change (2 ^ (-1 - -1)) with 1.
  rewrite rnd_exact by lia. unfold mid. f_equal. lia.
Qed.

Lemma mid_next c d : Z.abs c < 2 ^ 22 -> Z.abs d <= 1 -> fadd (mid c) (of_int d) = mid (c + d).
Proof.
  intros Hc Hd. rewrite of_int_exact by lia. unfold fadd, fexp, units, mid. cbn [man exp].
  change (Z.min (-1) 0) with (-1). change (2 ^ (0 - -1)) with 2. change (2 ^ (-1 - -1)) with 1.
  rewrite rnd_exact by lia. f_equal. lia.
Qed.

Lemma mid_sub a b : Z.abs (a - b) < 2 ^ 22 -> fsub (mid a) (mid b) = MkFloat (2 * (a - b)) (-1).
Proof. intros. unfold mid. rewrite fsub_grid by lia. f_equal. lia. Qed.

Lemma to_int_mid c : 0 <= c -> to_int (mid c) = c.
Proof.
  intros Hc. unfold to_int, mid. cbn [man exp]. change (-1 <? 0) with true. cbv iota. change (2 ^ (- -1)) with 2.
  rewrite Z.quot_div_nonneg by lia. symmetry. apply (Z.div_unique _ _ _ 1); lia.
Qed.

Lemma at_most_half m B : Z.abs m <= 2 * B -> at_most B (MkFloat m (-1)).
Proof.
  intros Hm. split; [done|]. unfold units. cbn [man exp]. rewrite Z.abs_mul.
  change (-1 - -1000) with 999. replace (2 ^ 1000) with (2 * 2 ^ 999) by (rewrite <- Z.pow_succ_r by lia; done).
  rewrite (Z.abs_eq (2 ^ 999)) by (apply Z.pow_nonneg; lia). assert (0 < 2 ^ 999) by (apply Z.pow_pos_nonneg; lia). nia.
Qed.

Lemma f2i_at_most a B t : 0 <= B < 2 ^ 31 -> at_most B a -> f2i a t = Done (to_int a) t.
Proof.
  intros HB Ha. unfold f2i. apply to_int_at_most in Ha; [|lia].
  rewrite bool_decide_eq_true_2; [done|]. unfold in_s. change (2 ^ (32 - 1)) with (2 ^ 31). lia.
Qed.

Lemma f2i_mid c t : coord c -> f2i (mid c) t = Done c t.
Proof.
  intros Hc. rewrite (f2i_at_most _ (2 ^ 21) t); [|lia|apply at_most_half; unfold coord in Hc; lia].
  rewrite to_int_mid; [done|apply Hc].
Qed.

Lemma f2i_int c t : coord c -> f2i (of_int c) t = Done c t.
Proof.
  intros Hc. unfold coord in Hc. rewrite of_int_exact by lia. unfold f2i. rewrite to_int_whole.
  rewrite bool_decide_eq_true_2; [done|]. unfold in_s. change (2 ^ (32 - 1)) with (2 ^ 31). lia.
Qed.

Lemma cell_of_Done p t x z : f2i p.1 t = Done x t -> f2i p.2 t = Done z t -> cell_of p t = Done (x, z) t.
Proof. intros Ex Ez. unfold cell_of, mbind, M_bind. by rewrite Ex, Ez. Qed.

(** ** The line

    The errors of the single precision operations, in units of [2^-1000], against the straight
    line from the middle of the first cell to that of the last. The other coordinate of the
    [k]-th of [n] steps is off by less than half a cell. [t] is below any unit that counts. *)

(** How the errors of the two divisions add up. *)
Lemma two_errors U n k d db S X :
  0 < U -> Z.abs d = 1 ->
  Z.abs (n * X - k * db * U) * U <= Z.abs (X * S - k * d * U * U) * Z.abs db + Z.abs X * Z.abs (S * db - n * d * U).
Proof.
  intros HU Hd. rewrite <- !Z.abs_mul. rewrite <- (Z.abs_eq U) at 2 by (clear - HU; lia). rewrite <- Z.abs_mul.
  rewrite <- (Z.mul_1_l (Z.abs ((n * X - _) * U))), <- Hd, <- Z.abs_mul.
  replace (d * ((n * X - k * db * U) * U)) with ((X * S - k * d * U * U) * db + - (X * (S * db - n * d * U))) by (clear; ring).
  rewrite <- (Z.abs_opp (X * _)). apply Z.abs_triangle.
Qed.

Lemma second_error U t n k db S e2 :
  0 <= t -> 0 <= k -> 0 < U -> 2 ^ 27 * Z.abs e2 <= 11 * (k * U * U) + t * Z.abs S -> Z.abs S * Z.abs db <= 2 * (n * U) ->
  2 ^ 27 * (Z.abs e2 * Z.abs db) <= (11 * Z.abs (k * db * U) + 2 * (n * t)) * U.
Proof.
  intros Ht Hk HU He HS. assert (2 ^ 27 * Z.abs e2 * Z.abs db <= (11 * (k * U * U) + t * Z.abs S) * Z.abs db) by (apply Z.mul_le_mono_nonneg_r; [apply Z.abs_nonneg|done]).
  assert (t * (Z.abs S * Z.abs db) <= t * (2 * (n * U))) by by apply Z.mul_le_mono_nonneg_l.
  rewrite !Z.abs_mul, (Z.abs_eq k), (Z.abs_eq U) by (clear - Hk HU; lia). set (a := Z.abs e2) in *. set (b := Z.abs db) in *. set (c := Z.abs S) in *. clearbody a b c. clear He HS. lia.
Qed.

Lemma first_error U t n db X e1 :
  0 <= t -> 0 < n -> 0 < U -> 2 ^ 27 * Z.abs e1 <= 11 * (n * U) + t * Z.abs db -> Z.abs X <= 2 ^ 30 * U -> Z.abs db <= 2 ^ 21 ->
  2 ^ 27 * (Z.abs X * Z.abs e1) <= (11 * Z.abs (n * X) + 2 ^ 51 * (n * t)) * U.
Proof.
  intros Ht Hn HU He HX Hdb. rewrite Z.abs_mul, (Z.abs_eq n) by (clear - Hn; lia).
  pose proof (Z.abs_nonneg X). pose proof (Z.abs_nonneg db). set (a := Z.abs e1) in *. set (b := Z.abs db) in *. set (x := Z.abs X) in *. clearbody a b x.
  assert (x * (2 ^ 27 * a) <= x * (11 * (n * U) + t * b)) by by apply Z.mul_le_mono_nonneg_l.
  assert (0 <= t * b) by by apply Z.mul_nonneg_nonneg. assert (t * b <= t * 2 ^ 21) by by apply Z.mul_le_mono_nonneg_l.
  assert (x * (t * b) <= 2 ^ 30 * U * (t * 2 ^ 21)) by by apply Z.mul_le_mono_nonneg.
  assert (1 * (t * U) <= n * (t * U)) by (apply Z.mul_le_mono_nonneg_r; [apply Z.mul_nonneg_nonneg|]; clear - Ht Hn HU; lia).
  clear He HX Hdb. lia.
Qed.

Section line.
Context (U h t n k d c db W : Z) (HU : U = 2 * h) (Hh : 0 < h) (Ht : 0 <= t) (Htu : 2 ^ 80 * t <= U).
Context (Hn : 0 < n < 2 ^ 21) (Hk : 0 <= k <= n) (Hd : Z.abs d = 1) (Hc : coord c) (Hdb : coord (c + db)).

(** The point of the line. *)
Definition point : Z := n * ((2 * c + 1) * h) + k * db * U.

Lemma point_range : Z.abs (k * db * U) <= 2 ^ 21 * (n * U) /\ n * h <= point <= (2 ^ 21 - 1) * (n * U) + n * h.
Proof using All.
  unfold coord, point in *. assert (0 <= n * c + k * db <= n * (2 ^ 21 - 1)) as Hr.
  { replace (n * c + k * db) with ((n - k) * c + k * (c + db)) by lia. nia. }
  assert (Z.abs (k * db) <= 2 ^ 21 * n) as Hq by nia. split.
  - rewrite Z.abs_mul, (Z.abs_eq U), Z.mul_assoc by lia. apply Z.mul_le_mono_nonneg_r; lia.
  - assert (0 * U <= (n * c + k * db) * U <= n * (2 ^ 21 - 1) * U) by (split; apply Z.mul_le_mono_nonneg_r; lia).
    replace (n * ((2 * c + 1) * h) + k * db * U) with ((n * c + k * db) * U + n * h) by lia. lia.
Qed.

Lemma small_times : 2 ^ 80 * (n * t) <= n * U /\ 0 <= n * t.
Proof using All.
  assert (n * (2 ^ 80 * t) <= n * U) by (apply Z.mul_le_mono_nonneg_l; lia). assert (0 <= n * t) by (apply Z.mul_nonneg_nonneg; lia). lia.
Qed.

Lemma scaled_le a x y : a * x <= y + t -> a * (n * x) <= n * y + n * t.
Proof using All. intros H. assert (n * (a * x) <= n * (y + t)) by (apply Z.mul_le_mono_nonneg_l; lia). lia. Qed.

(** The last addition, of a number that is off by 3/8 at most. *)
Lemma sum_close X :
  64 * Z.abs (n * X - k * db * U) <= 23 * (n * U) ->
  2 ^ 24 * Z.abs (W - (X + (2 * c + 1) * h)) <= Z.abs (X + (2 * c + 1) * h) + t -> 2 * Z.abs (n * W - point) < n * U.
Proof using All.
  intros HX HW. pose proof point_range as [_ Hr]. unfold point in *.
  assert (2 ^ 24 * Z.abs (n * W - (n * X + n * ((2 * c + 1) * h))) <= Z.abs (n * X + n * ((2 * c + 1) * h)) + n * t) as HWn.
  { replace (n * W - (n * X + n * ((2 * c + 1) * h))) with (n * (W - (X + (2 * c + 1) * h))) by lia.
    replace (n * X + n * ((2 * c + 1) * h)) with (n * (X + (2 * c + 1) * h)) by lia. rewrite !Z.abs_mul, (Z.abs_eq n) by lia. by apply scaled_le. }
  destruct small_times as [Htn ?]. assert (n * U = 2 * (n * h)) as EV by (rewrite HU; lia). assert (0 < n * h) by nia.
  set (M := n * ((2 * c + 1) * h)) in *. set (Q := k * db * U) in *. set (V := n * U) in *. set (Xn := n * X) in *. set (Wn := n * W) in *. set (tn := n * t) in *.
  set (nh := n * h) in *. clearbody M Q V Xn Wn tn nh. lia.
Qed.

(** The slope [S] times the steps. *)
Lemma gentle_close S P :
  2 ^ 27 * Z.abs (S * (n * d) - db * U) <= 11 * (Z.abs db * U) + t * n ->
  2 ^ 24 * Z.abs (P - S * (k * d)) <= Z.abs (S * (k * d)) + t -> 64 * Z.abs (n * P - k * db * U) <= 23 * (n * U).
Proof using All.
  intros HS HP. pose proof point_range as [Hq _]. destruct small_times as [Htn ?].
  assert (2 ^ 27 * Z.abs (n * (S * (k * d)) - k * db * U) <= 11 * Z.abs (k * db * U) + 2 ^ 21 * (n * t)) as HF.
  { replace (n * (S * (k * d)) - k * db * U) with (k * (S * (n * d) - db * U)) by lia. rewrite !Z.abs_mul, (Z.abs_eq k), (Z.abs_eq U) by lia.
    assert (k * (2 ^ 27 * Z.abs (S * (n * d) - db * U)) <= k * (11 * (Z.abs db * U) + t * n)) by (apply Z.mul_le_mono_nonneg_l; lia).
    assert (k * (n * t) <= 2 ^ 21 * (n * t)) by (apply Z.mul_le_mono_nonneg_r; lia). lia. }
  assert (2 ^ 24 * Z.abs (n * P - n * (S * (k * d))) <= Z.abs (n * (S * (k * d))) + n * t) as HPn.
  { replace (n * P - n * (S * (k * d))) with (n * (P - S * (k * d))) by lia. rewrite (Z.abs_mul n (P - _)), (Z.abs_mul n (S * _)), (Z.abs_eq n) by lia. by apply scaled_le. }
  set (Q := k * db * U) in *. set (V := n * U) in *. set (F := n * (S * (k * d))) in *. set (Pn := n * P) in *. set (tn := n * t) in *. clearbody Q V F Pn tn. lia.
Qed.

(** The steps by the slope [S]; [db] is the width now. *)
Lemma steep_close S X :
  2 ^ 27 * Z.abs (S * db - n * d * U) <= 11 * (n * U) + t * Z.abs db ->
  2 ^ 27 * Z.abs (X * S - k * d * U * U) <= 11 * (k * U * U) + t * Z.abs S -> Z.abs X <= 2 ^ 30 * U ->
  64 * Z.abs (n * X - k * db * U) <= 23 * (n * U).
Proof using All.
  intros HS HX Hb. pose proof point_range as [Hq _]. destruct small_times as [Htn Htn0]. assert (0 <= Z.abs db <= 2 ^ 21) as Hdb' by (clear - Hc Hdb; unfold coord in *; lia).
  assert (0 < U) as HU0 by (clear - HU Hh; lia). assert (1 * U <= n * U) as HnU by (apply Z.mul_le_mono_nonneg_r; clear - HU0 Hn; lia).
  assert (t * Z.abs db <= t * 2 ^ 21) as Htd by (apply Z.mul_le_mono_nonneg_l; [done|apply Hdb']).
  assert (Z.abs S * Z.abs db <= 2 * (n * U)) as HSd.
  { assert (Z.abs (n * d * U) = n * U) as Hnd by (rewrite !Z.abs_mul, Hd, (Z.abs_eq n), (Z.abs_eq U) by (clear - HU0 Hn; lia); clear; lia).
    rewrite <- Z.abs_mul. clear - HS Hnd Htd HnU Ht Htu. set (a := S * db) in *. set (b := n * d * U) in *. set (V := n * U) in *. clearbody a b V. lia. }
  pose proof (two_errors U n k d db S X HU0 Hd) as Htri. pose proof (second_error U t n k db S _ Ht (proj1 Hk) HU0 HX HSd) as H2.
  pose proof (first_error U t n db X _ Ht (proj1 Hn) HU0 HS Hb (proj2 Hdb')) as H1.
  assert (2 ^ 27 * Z.abs (n * X - k * db * U) <= 11 * Z.abs (k * db * U) + 11 * Z.abs (n * X) + (2 ^ 51 + 2) * (n * t)) as H3.
  { apply (Z.mul_le_mono_pos_r _ _ U); [done|]. clear - Htri H1 H2. set (a := Z.abs (n * X - _)) in *. set (b := _ * Z.abs db) in *. set (e := Z.abs X * _) in *. clearbody a b e. lia. }
  clear - H3 Htn Htn0 Hq. set (Q := k * db * U) in *. set (V := n * U) in *. set (Xn := n * X) in *. set (tn := n * t) in *. clearbody Q V Xn tn. lia.
Qed.

(** The cell of the point. *)
Lemma cell_near b : 2 * Z.abs (n * W - point) < n * U -> b * U <= W < (b + 1) * U -> Z.abs (n * (b - c) - k * db) < n.
Proof using All.
  intros HW Hb. unfold point in HW. assert (point = (n * c + k * db) * U + n * h) as E by (unfold point; rewrite HU; lia). unfold point in E. rewrite E in HW.
  assert (n * (b * U) <= n * W < n * ((b + 1) * U)) as HWn by (split; [apply Z.mul_le_mono_nonneg_l|apply Z.mul_lt_mono_pos_l]; lia). assert (n * U = 2 * (n * h)) as EV by (rewrite HU; lia).
  assert ((n * b) * U < (n * c + k * db + n) * U) as H1 by lia. assert ((n * c + k * db) * U < (n * b + n) * U) as H2 by lia.
  apply Z.mul_lt_mono_pos_r in H1; [|lia]. apply Z.mul_lt_mono_pos_r in H2; [|lia]. lia.
Qed.
End line.

(** ** The ray *)

(** From [a] to [b], one by one. *)
Definition span (a b : Z) : list Z := (fun k => a + k * Z.sgn (b - a)) <$> seqZ 0 (Z.abs (b - a) + 1).

(** The coordinate [b] of the [k]-th of [n] steps over a difference of [db] is less than 1
    from [c + k * db / n]. *)
Definition near (n db c k b : Z) : Prop := Z.abs (n * (b - c) - k * db) < n.

(** The cells of the line from ([x0], [z0]) to ([x1], [z1]): one in each column if it is wider
    than it is high, else one in each row; each lies less than a cell from the line. *)
Definition along (x0 z0 x1 z1 : Z) (cells : list cell) : Prop :=
  aget cells 0 = Some (x0, z0) /\
  if Z.abs (z1 - z0) <? Z.abs (x1 - x0)
  then fst <$> cells = span x0 x1 /\ forall k x z, 0 < k -> aget cells k = Some (x, z) -> near (Z.abs (x1 - x0)) (z1 - z0) z0 k z
  else snd <$> cells = span z0 z1 /\ forall k x z, 0 < k -> aget cells k = Some (x, z) -> near (Z.abs (z1 - z0)) (x1 - x0) x0 k x.

(** [k] cells can be passed; [r] is the last of them, or the target. *)
Definition ray_stops (s : pathfinder_t) (ignore : Z) (dump : bool) (x0 z0 x1 z1 : Z) (r : cell) (s' : pathfinder_t) : Prop :=
  exists cells k, along x0 z0 x1 z1 cells /\ 0 <= k <= alen cells /\
    (forall j c, j < k -> aget cells j = Some c -> can_move s ignore c = true) /\
    (forall c, aget cells k = Some c -> can_move s ignore c = false) /\
    s' = s <| dumped := dumped s ++ (if dump then take (Z.to_nat (k + 1)) cells else []) |> /\
    r = if (k =? alen cells) && can_move s ignore (x1, z1) then (x1, z1) else default (x0, z0) (aget cells (k - 1)).

Lemma take_cells {A} (f : Z -> A) n m : 0 <= m -> take (Z.to_nat m) (f <$> seqZ 0 n) = f <$> seqZ 0 (Z.min m n).
Proof.
  intros Hm. unfold seqZ. rewrite <- !fmap_take, take_seq. by replace (Z.to_nat m `min` Z.to_nat n)%nat with (Z.to_nat (Z.min m n)) by lia.
Qed.

Section cast.
Context (s : pathfinder_t) (ignore : Z) (HM : masked s ignore) (dump : bool).
Context (x0 z0 x1 z1 : Z) (Hx0 : coord x0) (Hz0 : coord z0) (Hx1 : coord x1) (Hz1 : coord z1).

Lemma ray_end_spec founded r t c :
  masked t ignore -> cell_of r t = Done c t -> can_move t ignore (x1, z1) = can_move s ignore (x1, z1) ->
  ray_end x1 z1 (mid x1) (mid z1) ignore (founded, r) t =
    Done (if negb founded && can_move s ignore (x1, z1) then (x1, z1) else c) t.
Proof using Hx1 Hz1.
  intros Ht Hc Ecm. destruct r as [rx rz]. unfold ray_end. destruct founded; cbn [negb andb]; [exact Hc|].
  unfold mbind at 1 2 3 4, M_bind. rewrite (f2i_mid x1 t Hx1), (f2i_mid z1 t Hz1), (movable_spec t ignore) by done. rewrite Ecm.
  destruct (can_move s ignore (x1, z1)); [|exact Hc]. apply cell_of_Done; by apply f2i_int.
Qed.

(** A loop along the ray, and what follows it. *)
Lemma wp_ray n v ck inc go cf at_v :
  0 <= n -> (forall k, 0 <= k <= n -> fadd (v k) inc = v (k + 1)) ->
  (forall k, 0 <= k <= n + 1 -> go (v k) = (k <=? n)) ->
  (forall k t, 0 <= k <= n -> cf (v k) t = Done (ck k) t) ->
  (forall k t, 0 <= k <= n -> cell_of (at_v (v k)) t = Done (ck k) t) ->
  along x0 z0 x1 z1 (ck <$> seqZ 0 (n + 1)) ->
  wpd (ray_loop (S (S (Z.to_nat n))) (v 0) inc go cf at_v ignore dump (mid x0, mid z0)) (fun r t =>
    wpd (ray_end x1 z1 (mid x1) (mid z1) ignore r) (ray_stops s ignore dump x0 z0 x1 z1) t) s.
Proof using All.
  intros Hn Hinc Hgo Hcf Hat Hal. eapply wp_mono; [by apply (wp_ray_loop s ignore HM dump n Hn v ck)|].
  intros r t (k & Hk & Hall & Hstop & -> & ->). set (t := seen _ _ _ _).
  assert (alen (ck <$> seqZ 0 (n + 1)) = n + 1) as El by (by apply alen_seqZ_fmap; lia).
  eapply wp_Done.
  - apply (ray_end_spec _ _ t (default (x0, z0) (aget (ck <$> seqZ 0 (n + 1)) (k - 1)))); [exact HM| |done].
    unfold r_at. destruct (Z.eqb_spec k 0) as [->|Hk0].
    + rewrite aget_None by (unfold in_range; lia). apply cell_of_Done; by apply f2i_mid.
    + rewrite aget_seqZ_fmap by lia. apply Hat. lia.
  - exists (ck <$> seqZ 0 (n + 1)), k. split; [done|]. split; [lia|]. split; [|split; [|split]].
    + intros j c Hj Hc. pose proof (aget_Some_range _ _ _ Hc) as [? _]. rewrite aget_seqZ_fmap in Hc by lia.
      injection Hc as <-. apply Hall. lia.
    + intros c Hc. pose proof (aget_Some_range _ _ _ Hc) as [? ?]. rewrite aget_seqZ_fmap in Hc by lia.
      injection Hc as <-. apply Hstop. lia.
    + unfold t, seen. rewrite take_cells by lia. done.
    + rewrite El. f_equal. f_equal. destruct (Z.eqb_spec k (n + 1)) as [->|].
      * by rewrite bool_decide_eq_false_2 by lia.
      * by rewrite bool_decide_eq_true_2 by lia.
Qed.

(** The loops go by [d]. *)
Lemma span_dir a b d n :
  Z.abs d = 1 -> 0 <= n -> b - a = n * d -> (fun k => a + k * d) <$> seqZ 0 (n + 1) = span a b.
Proof.
  intros Hd Hn E. unfold span. replace (Z.abs (b - a)) with n by nia. apply list_fmap_ext.
  intros _ k Hk%list_elem_of_lookup_2. apply elem_of_seqZ in Hk. destruct (decide (n = 0)) as [->|]; [nia|].
  assert (Z.sgn (b - a) = d) as ->; [|done]. rewrite E, Z.sgn_mul, (Z.sgn_pos n) by lia. lia.
Qed.

(** A cell of the ray. *)
Lemma between a b d n k : coord a -> coord b -> Z.abs d = 1 -> b - a = n * d -> 0 <= k <= n -> coord (a + k * d).
Proof. unfold coord. intros. assert (d = 1 \/ d = -1) as [-> | ->] by lia; lia. Qed.

Lemma step_range a b d n k : coord a -> coord b -> Z.abs d = 1 -> b - a = n * d -> 0 <= k <= n + 1 -> Z.abs (a + k * d) < 2 ^ 22.
Proof. unfold coord. intros. assert (d = 1 \/ d = -1) as [-> | ->] by lia; lia. Qed.

Lemma int_next a d : Z.abs a < 2 ^ 22 -> Z.abs d <= 1 -> fadd (of_int a) (of_int d) = of_int (a + d).
Proof. intros. rewrite !of_int_exact by lia. apply fadd_grid; lia. Qed.

(** Straight along [z]. *)
Lemma wp_ray_column d n go :
  x0 = x1 -> Z.abs d = 1 -> 0 <= n -> z1 - z0 = n * d ->
  (forall c, Z.abs c < 2 ^ 22 -> go (of_int c) = (d * c <=? d * z1)) ->
  wpd (ray_loop (S (S (Z.to_nat n))) (of_int z0) (of_int d) go (fun z => cz ← f2i z; mret (x0, cz))
         (fun z => (of_int x0, z)) ignore dump (mid x0, mid z0)) (fun r t =>
    wpd (ray_end x1 z1 (mid x1) (mid z1) ignore r) (ray_stops s ignore dump x0 z0 x1 z1) t) s.
Proof using All.
  intros Ex Hd Hn En Hgo. replace (of_int z0) with (of_int (z0 + 0 * d)) by (f_equal; lia).
  apply (wp_ray n (fun k => of_int (z0 + k * d)) (fun k => (x0, z0 + k * d))); [done|..].
  - intros k Hk. rewrite int_next by (apply (step_range z0 z1 d n); done || lia) || lia. f_equal. lia.
  - intros k Hk. rewrite Hgo by (by apply (step_range z0 z1 d n)).
    destruct (Z.leb_spec (d * (z0 + k * d)) (d * z1)), (Z.leb_spec k n); try done; nia.
  - intros k t Hk. unfold mbind, M_bind. by rewrite f2i_int by (by apply (between z0 z1 d n)).
  - intros k t Hk. apply cell_of_Done; apply f2i_int; [done|]. by apply (between z0 z1 d n).
  - split; [rewrite aget_seqZ_fmap by lia; do 2 f_equal; lia|]. rewrite <- Ex, Z.sub_diag, (proj2 (Z.ltb_ge _ _)) by lia.
    split; [rewrite <- list_fmap_compose; by apply span_dir|]. intros k x z Hk Hc.
    pose proof (aget_Some_range _ _ _ Hc) as Hr. unfold in_range in Hr. rewrite alen_seqZ_fmap in Hr by lia. rewrite aget_seqZ_fmap in Hc by lia.
    injection Hc as <- <-. unfold near. rewrite En, Z.abs_mul, Hd. lia.
Qed.

(** A ray that is not straight along [z]: one coordinate ([x], or [z] if [sw]) goes from the
    middle of a cell to the next, the other one is [w] of it. *)
Definition pick {A} (sw : bool) (p : A * A) : A * A := if sw then (p.2, p.1) else p.

Lemma wp_ray_slanted sw d n w go at_v :
  let a0 := (pick sw (x0, z0)).1 in let a1 := (pick sw (x1, z1)).1 in
  let b0 := (pick sw (x0, z0)).2 in let b1 := (pick sw (x1, z1)).2 in
  (Z.abs (z1 - z0) <? Z.abs (x1 - x0)) = negb sw -> Z.abs d = 1 -> 0 <= n -> a1 - a0 = n * d ->
  (forall c, Z.abs c < 2 ^ 22 -> go (mid c) = (d * c <=? d * a1)) ->
  (forall c, coord c -> at_most (2 ^ 30) (w (mid c))) -> to_int (w (mid a0)) = b0 ->
  (forall k, 0 < k <= n -> near n (b1 - b0) b0 k (to_int (w (mid (a0 + k * d))))) ->
  (forall v, at_v v = pick sw (v, w v)) ->
  wpd (ray_loop (S (S (Z.to_nat n))) (mid a0) (of_int d) go (fun v => cell_of (at_v v)) at_v ignore dump (mid x0, mid z0)) (fun r t =>
    wpd (ray_end x1 z1 (mid x1) (mid z1) ignore r) (ray_stops s ignore dump x0 z0 x1 z1) t) s.
Proof using All.
  intros a0 a1 b0 b1 Hsw Hd Hn En Hgo Hw H0 Hnear Hat. assert (coord a0 /\ coord a1) as [Ha0 Ha1] by (unfold a0, a1; by destruct sw).
  assert (forall k t, 0 <= k <= n ->
    cell_of (pick sw (mid (a0 + k * d), w (mid (a0 + k * d)))) t = Done (pick sw (a0 + k * d, to_int (w (mid (a0 + k * d))))) t) as Hc.
  { intros k t Hk. assert (coord (a0 + k * d)) as Hb by (by apply (between a0 a1 d n)).
    pose proof (f2i_mid _ t Hb) as E1. pose proof (f2i_at_most _ (2 ^ 30) t ltac:(lia) (Hw _ Hb)) as E2.
    destruct sw; by apply cell_of_Done. }
  replace (mid a0) with (mid (a0 + 0 * d)) by (f_equal; lia).
  apply (wp_ray n (fun k => mid (a0 + k * d)) (fun k => pick sw (a0 + k * d, to_int (w (mid (a0 + k * d)))))); [done|..].
  - intros k Hk. rewrite mid_next by (apply (step_range a0 a1 d n); done || lia) || lia. f_equal. lia.
  - intros k Hk. rewrite Hgo by (by apply (step_range a0 a1 d n)).
    destruct (Z.leb_spec (d * (a0 + k * d)) (d * a1)), (Z.leb_spec k n); try done; nia.
  - intros k t Hk. rewrite Hat. by apply Hc.
  - intros k t Hk. rewrite Hat. by apply Hc.
  - split; [rewrite aget_seqZ_fmap by lia; replace (a0 + 0 * d) with a0 by lia; rewrite H0; unfold a0, b0; by destruct sw|].
    assert (Z.abs (a1 - a0) = n) as Ea by (rewrite En, Z.abs_mul, Hd; lia). rewrite Hsw.
    enough (forall k x z, 0 < k -> aget ((fun k => pick sw (a0 + k * d, to_int (w (mid (a0 + k * d))))) <$> seqZ 0 (n + 1)) k = Some (x, z) ->
      near (Z.abs (a1 - a0)) (b1 - b0) b0 k (pick sw (x, z)).2) as Hall.
    { unfold a0, a1, b0, b1 in *. destruct sw; (split; [rewrite <- list_fmap_compose; by apply span_dir|exact Hall]). }
    intros k x z Hk Hc'. pose proof (aget_Some_range _ _ _ Hc') as Hr. unfold in_range in Hr. rewrite alen_seqZ_fmap in Hr by lia.
    rewrite aget_seqZ_fmap in Hc' by lia. rewrite Ea. destruct sw; injection Hc' as <- <-; apply Hnear; lia.
Qed.
End cast.

(** ** The other coordinate *)

Lemma scaled_int j : scaled (MkFloat (2 * j) (-1)) = j * 2 ^ 1000.
Proof. unfold units. cbn [man exp]. change (2 ^ 1000) with (2 * 2 ^ (-1 - -1000)). lia. Qed.

(** A number that is close to [k] of [n] steps, added to the middle of a cell. *)
Lemma near_mid n k d c db a :
  0 < n < 2 ^ 21 -> 0 <= k <= n -> Z.abs d = 1 -> coord c -> coord (c + db) -> -149 <= exp a ->
  64 * Z.abs (n * scaled a - k * db * 2 ^ 1000) <= 23 * (n * 2 ^ 1000) -> near n db c k (to_int (fadd a (mid c))).
Proof.
  intros Hn Hk Hd Hc Hcd He Ha. pose proof (fadd_close a (mid c) He ltac:(done)) as HW.
  assert (2 ^ 1000 = 2 * 2 ^ 999) as HU by done. assert (0 < 2 ^ 999) as Hh by done. assert (2 ^ 80 * 2 ^ 877 <= 2 ^ 1000) as Ht by done.
  assert (2 ^ 24 * Z.abs (scaled (fadd a (mid c)) - (scaled a + (2 * c + 1) * 2 ^ 999)) <= Z.abs (scaled a + (2 * c + 1) * 2 ^ 999) + 2 ^ 877) as HW'.
  { etransitivity; [exact HW|]. apply Z.add_le_mono_l. done. }
  pose proof (sum_close _ _ (2 ^ 877) n k d c db _ HU Hh ltac:(done) Ht Hn Hk Hd Hc Hcd _ Ha HW') as Hp.
  pose proof (point_range _ _ (2 ^ 877) n k d c db 0 HU Hh ltac:(done) Ht Hn Hk Hd Hc Hcd) as [_ Hr].
  eapply (cell_near _ _ (2 ^ 877)); [exact HU|exact Hh| | |exact Hn|exact Hk|exact Hd|exact Hc|exact Hcd|exact Hp|]; [done|exact Ht|].
  apply to_int_floor; [apply rnd_exp|]. revert Hp Hr HU Hh. clear - Hn. generalize (point (2 ^ 999) n k c db) (2 ^ 1000) (2 ^ 999) (scaled (fadd a (mid c))).
  intros p U h W HW Hr -> Hh. assert (0 < n * W) by lia. nia.
Qed.

Lemma rnd_0 k : exists k', rnd 0 k = MkFloat 0 k' /\ -149 <= k'.
Proof.
  unfold rnd. pose proof (round_to_up 24 (-149) (Z.abs 0) k ltac:(done) ltac:(lia)) as Hr.
  destruct (round_to 24 (-149) (Z.abs 0) k) as [q k']. destruct Hr as (_ & Hk & _). by exists k'.
Qed.

(** Nothing added to the middle of a cell. *)
Lemma add_nothing k c : coord c -> -149 <= k -> to_int (fadd (MkFloat 0 k) (mid c)) = c.
Proof.
  intros Hc Hk. unfold coord in Hc. unfold fadd, fexp, units. cbn [man exp mid]. rewrite Z.mul_0_l, Z.add_0_l.
  rewrite to_int_rnd by lia. replace (Z.min k (-1) + (-1 - Z.min k (-1))) with (-1) by lia. apply (to_int_mid c). lia.
Qed.

Section slope.
Context (dx dz : Z) (Hdx : 0 < Z.abs dx < 2 ^ 21) (Hdz : Z.abs dz < 2 ^ 21).

Definition slope_of : float := fdiv (MkFloat (2 * dz) (-1)) (MkFloat (2 * dx) (-1)).

Lemma slope_at_most : at_most (2 ^ 24) slope_of.
Proof using All.
  change (2 ^ 24) with (4 * 2 ^ 22). apply fdiv_at_most; [done|apply at_most_half; lia|done|cbn [man]; lia| |done].
  unfold units. cbn [man exp]. change (-1 - -1000) with 999. rewrite Z.abs_mul, (Z.abs_eq (2 ^ 999)) by (apply Z.pow_nonneg; lia).
  replace (2 ^ 1000) with (2 * 2 ^ 999) by (rewrite <- Z.pow_succ_r by lia; done).
  assert (0 < 2 ^ 999) by (apply Z.pow_pos_nonneg; lia). nia.
Qed.

Lemma slope_close : 2 ^ 27 * Z.abs (scaled slope_of * dx - dz * 2 ^ 1000) <= 11 * (Z.abs dz * 2 ^ 1000) + 2 ^ 877 * Z.abs dx.
Proof using All.
  pose proof (fdiv_close (MkFloat (2 * dz) (-1)) (MkFloat (2 * dx) (-1)) ltac:(done) ltac:(done) ltac:(cbn [man]; lia) ltac:(cbn [man]; lia)) as H.
  rewrite !scaled_int in H. change (fdiv _ _) with slope_of in H. assert (0 < 2 ^ 1000) as HU by done.
  revert H HU. generalize (scaled slope_of) (2 ^ 1000) (2 ^ 877). intros S U t H HU.
  replace (S * (dx * U) - dz * U * U) with ((S * dx - dz * U) * U) in H by lia. rewrite !Z.abs_mul, (Z.abs_eq U) in H by lia.
  apply (Z.mul_le_mono_pos_r _ _ U); lia.
Qed.

(** The two loops share the rays: the slope is below 1 if the line is wider than it is high. *)
Lemma slope_one : Z.abs dz = Z.abs dx -> Z.abs (to_int slope_of) = 1.
Proof using Hdx.
  intros E. unfold slope_of, fdiv. cbn [man exp]. replace (Z.abs (2 * dz)) with (Z.abs (2 * dx)) by lia. rewrite Z.sub_diag.
  change (Z.max 0 (0 + 26)) with 26. rewrite (Z.mul_comm _ (2 ^ 26)), Z.div_mul, Z.mod_mul by lia. rewrite Z.eqb_refl.
  change (2 * 2 ^ 26 + 0) with (2 ^ 27). assert (Z.abs (Z.sgn (2 * dz) * Z.sgn (2 * dx)) = 1) as Es by (rewrite Z.abs_mul, !sgn_one by lia; done).
  rewrite to_int_rnd by lia. change (-1 - -1 - 26 - 1 + 27) with 0. by rewrite to_int_whole.
Qed.

Lemma slope_gentle : (Z.abs (to_int slope_of) <? 1) = (Z.abs dz <? Z.abs dx).
Proof using All.
  pose proof slope_close as Hs. assert (-149 <= exp slope_of) as He by apply rnd_exp.
  pose proof (to_int_zero _ He) as H0. pose proof (to_int_large _ He) as H1. assert (2 ^ 80 * 2 ^ 877 <= 2 ^ 1000) as Ht by done.
  assert (0 <= 2 ^ 877) as Ht0 by done.
  assert (0 < 2 ^ 1000) as HU by done. revert Hs H0 H1 Ht Ht0 HU. generalize (2 ^ 1000) (2 ^ 877). intros U t Hs H0 H1 Ht Ht0 HU.
  assert (Z.abs (scaled slope_of) * Z.abs dx = Z.abs (scaled slope_of * dx)) as Em by (by rewrite Z.abs_mul).
  assert (t * Z.abs dx <= t * 2 ^ 21) as Htx by (apply Z.mul_le_mono_nonneg_l; lia).
  assert (Z.abs dx * U <= 2 ^ 21 * U) as Hxu by (apply Z.mul_le_mono_nonneg_r; lia).
  assert (Z.abs (dz * U) = Z.abs dz * U) as Ez by (rewrite Z.abs_mul, (Z.abs_eq U) by lia; done).
  destruct (Z.lt_total (Z.abs dz) (Z.abs dx)) as [Hlt|[Heq|Hgt]].
  - rewrite (proj2 (Z.ltb_lt (Z.abs dz) _)), Z.ltb_lt by done. apply Z.nle_gt. intros Hle%H1.
    assert (Z.abs dz * U <= (Z.abs dx - 1) * U) by (apply Z.mul_le_mono_nonneg_r; lia).
    assert (U * Z.abs dx <= Z.abs (scaled slope_of) * Z.abs dx) by (apply Z.mul_le_mono_nonneg_r; lia). clear H0 H1.
    set (A := scaled slope_of * dx) in *. set (B := dz * U) in *. clearbody A B. lia.
  - rewrite slope_one by done. zcase; lia.
  - rewrite (proj2 (Z.ltb_ge (Z.abs dz) _)), Z.ltb_ge by lia. apply Z.nlt_ge. intros Hle%H0.
    assert ((Z.abs dx + 1) * U <= Z.abs dz * U) by (apply Z.mul_le_mono_nonneg_r; lia).
    assert (Z.abs (scaled slope_of) * Z.abs dx <= U * Z.abs dx) by (apply Z.mul_le_mono_nonneg_r; lia). clear H0 H1.
    set (A := scaled slope_of * dx) in *. set (B := dz * U) in *. clearbody A B. lia.
Qed.

(** [slope * (x - x0) + z0], for a slope below 1 *)
Lemma gentle_at_most m c :
  at_most 1 slope_of -> Z.abs m <= 2 ^ 22 -> coord c -> at_most (2 ^ 30) (fadd (fmul slope_of (MkFloat m (-1))) (mid c)).
Proof.
  intros Hs Hm Hc. unfold coord in Hc. apply (at_most_mono (2 * (2 * (1 * 2 ^ 21) + 2 ^ 22))); [done|].
  apply fadd_at_most; [done|done|done| |apply at_most_half; lia].
  apply fmul_at_most; [done|done|done|done|]. apply at_most_half. lia.
Qed.

Lemma gentle_start c : coord c -> to_int (fadd (fmul slope_of (MkFloat 0 (-1))) (mid c)) = c.
Proof.
  intros Hc. unfold fmul. cbn [man exp]. rewrite Z.mul_0_r. destruct (rnd_0 (exp slope_of + -1)) as (k & -> & Hk).
  by apply add_nothing.
Qed.

Lemma gentle_near n d k c :
  dx = n * d -> 0 < n < 2 ^ 21 -> Z.abs d = 1 -> 0 <= k <= n -> coord c -> coord (c + dz) ->
  near n dz c k (to_int (fadd (fmul slope_of (MkFloat (2 * (k * d)) (-1))) (mid c))).
Proof using All.
  intros E Hn Hd Hk Hc Hcd. apply (near_mid n k d); [done|done|done|done|done|apply rnd_exp|].
  eapply (gentle_close _ (2 ^ 999) (2 ^ 877) n k d c dz 0); [done|done|done|done|done|done|done|done|done| |].
  - rewrite <- E. etransitivity; [exact slope_close|]. rewrite E, Z.abs_mul, Hd. lia.
  - etransitivity; [apply fmul_close, rnd_exp|]. apply Z.add_le_mono_l. done.
Qed.

(** [(z - z0) / slope + x0], for a slope of at least 1 *)
Lemma steep_slope : 1 <= Z.abs (to_int slope_of) -> exp slope_of <= 100 /\ man slope_of <> 0 /\ Z.abs (man slope_of) < 2 ^ 30 /\ 2 ^ 1000 <= Z.abs (scaled slope_of).
Proof using All.
  intros Ht. assert (man slope_of <> 0) as Hm.
  { intros E. unfold to_int in Ht. rewrite E in Ht.
    destruct (Z.ltb_spec (exp slope_of) 0); [rewrite Z.quot_0_l in Ht by (apply Z.pow_nonzero; lia)|]; cbn in Ht; lia. }
  split; [transitivity 24; [|lia]; apply exp_at_most; [lia|apply slope_at_most|done]|]. split; [done|].
  split; [|apply to_int_large; [apply rnd_exp|done]]. unfold slope_of, fdiv. eapply Z.le_lt_trans; [apply rnd_man|]. done.
Qed.

Lemma steep_at_most m c :
  1 <= Z.abs (to_int slope_of) -> Z.abs m <= 2 ^ 22 -> coord c -> at_most (2 ^ 30) (fadd (fdiv (MkFloat m (-1)) slope_of) (mid c)).
Proof using All.
  intros Ht Hm Hc. unfold coord in Hc. destruct (steep_slope Ht) as (He & _ & Hms & Hl).
  apply (at_most_mono (2 * (4 * 2 ^ 21 + 2 ^ 22))); [done|].
  apply fadd_at_most; [done|done|done| |apply at_most_half; lia].
  apply fdiv_at_most; [done|apply at_most_half; lia|done|done|done|apply rnd_exp].
Qed.

Lemma steep_near n d k c :
  dz = n * d -> 0 < n < 2 ^ 21 -> Z.abs d = 1 -> 0 <= k <= n -> coord c -> coord (c + dx) -> 1 <= Z.abs (to_int slope_of) ->
  near n dx c k (to_int (fadd (fdiv (MkFloat (2 * (k * d)) (-1)) slope_of) (mid c))).
Proof using All.
  intros E Hn Hd Hk Hc Hcd Ht. destruct (steep_slope Ht) as (He & Hm0 & Hm & Hl).
  assert (-149 <= exp slope_of) as He' by apply rnd_exp. assert (Z.abs (k * d) = k) as Ekd by (rewrite Z.abs_mul, Hd; lia).
  apply (near_mid n k d); [done|done|done|done|done|apply rnd_exp|].
  eapply (steep_close _ (2 ^ 999) (2 ^ 877) n k d c dx 0); [done|done|done|done|done|done|done|done|done| | |].
  - rewrite <- E. etransitivity; [exact slope_close|]. rewrite E, Z.abs_mul, Hd. lia.
  - pose proof (fdiv_close (MkFloat (2 * (k * d)) (-1)) slope_of ltac:(done) (conj He' He) Hm0 Hm) as H.
    rewrite scaled_int, Z.abs_mul, Ekd in H. exact H.
  - apply (at_most_mono (4 * 2 ^ 22)); [done|]. apply fdiv_at_most; [done|apply at_most_half; lia|done|done|done|done].
Qed.

Lemma steep_start c : coord c -> to_int (fadd (fdiv (MkFloat 0 (-1)) slope_of) (mid c)) = c.
Proof.
  intros Hc. unfold fdiv. cbn [man]. change (Z.sgn 0) with 0. rewrite !Z.mul_0_l.
  match goal with |- context [rnd 0 ?k] => destruct (rnd_0 k) as (k' & -> & Hk) end. by apply add_nothing.
Qed.
End slope.

(** ** The property *)

Section slanted.
Context (s : pathfinder_t) (ignore : Z) (HM : masked s ignore) (dump : bool).
Context (x0 z0 x1 z1 : Z) (Hx0 : coord x0) (Hz0 : coord z0) (Hx1 : coord x1) (Hz1 : coord z1) (Hx : x0 <> x1).
#[local] Abbreviation sl := (slope_of (x1 - x0) (z1 - z0)).

Lemma slope_context : 0 < Z.abs (x1 - x0) < 2 ^ 21 /\ Z.abs (z1 - z0) < 2 ^ 21.
Proof using All. unfold coord in *. lia. Qed.

(** A column at a time. *)
Lemma wp_gentle d go :
  Z.abs (to_int sl) < 1 -> Z.abs d = 1 -> x1 - x0 = Z.abs (x1 - x0) * d ->
  (forall c, Z.abs c < 2 ^ 22 -> go (mid c) = (d * c <=? d * x1)) ->
  let at_x x := (x, fadd (fmul sl (fsub x (mid x0))) (mid z0)) in
  wpd (ray_loop (S (S (Z.to_nat (Z.abs (x1 - x0))))) (mid x0) (of_int d) go (fun x => cell_of (at_x x)) at_x ignore dump (mid x0, mid z0)) (fun r t =>
    wpd (ray_end x1 z1 (mid x1) (mid z1) ignore r) (ray_stops s ignore dump x0 z0 x1 z1) t) s.
Proof using All.
  intros Hg Hd En Hgo. destruct slope_context as [Rx Rz]. pose proof (slope_gentle _ _ Rx Rz) as Hsl. rewrite (proj2 (Z.ltb_lt _ _) Hg) in Hsl.
  apply (wp_ray_slanted s ignore HM dump x0 z0 x1 z1 Hx0 Hz0 Hx1 Hz1 false d _ (fun x => fadd (fmul sl (fsub x (mid x0))) (mid z0)));
    cbn [fst snd pick]; [done|done|lia|done|done| | | |done].
  - intros c Hc. pose proof Hc as Rc. unfold coord in Hx0, Rc. rewrite mid_sub by lia. apply gentle_at_most; [|lia|exact Hz0].
    apply to_int_small; [apply rnd_exp|exact Hg].
  - rewrite mid_sub, Z.sub_diag by lia. apply gentle_start; exact Hz0.
  - intros k Hk. assert (coord (x0 + k * d)) as Rk by (apply (between x0 x1 d (Z.abs (x1 - x0))); done || lia).
    unfold coord in Hx0, Rk. rewrite mid_sub, Z.add_simpl_l by lia. apply gentle_near; [done|done|done|done|done|lia|done|].
    by replace (z0 + (z1 - z0)) with z1 by lia.
Qed.

(** A row at a time. *)
Lemma wp_steep d go :
  1 <= Z.abs (to_int sl) -> Z.abs d = 1 -> z1 - z0 = Z.abs (z1 - z0) * d ->
  (forall c, Z.abs c < 2 ^ 22 -> go (mid c) = (d * c <=? d * z1)) ->
  let at_z z := (fadd (fdiv (fsub z (mid z0)) sl) (mid x0), z) in
  wpd (ray_loop (S (S (Z.to_nat (Z.abs (z1 - z0))))) (mid z0) (of_int d) go (fun z => cell_of (at_z z)) at_z ignore dump (mid x0, mid z0)) (fun r t =>
    wpd (ray_end x1 z1 (mid x1) (mid z1) ignore r) (ray_stops s ignore dump x0 z0 x1 z1) t) s.
Proof using All.
  intros Hg Hd En Hgo. destruct slope_context as [Rx Rz]. pose proof (slope_gentle _ _ Rx Rz) as Hsl. rewrite (proj2 (Z.ltb_ge _ _) Hg) in Hsl.
  apply (wp_ray_slanted s ignore HM dump x0 z0 x1 z1 Hx0 Hz0 Hx1 Hz1 true d _ (fun z => fadd (fdiv (fsub z (mid z0)) sl) (mid x0)));
    cbn [fst snd pick]; [done|done|lia|done|done| | | |done].
  - intros c Hc. pose proof Hc as Rc. unfold coord in Hz0, Rc. rewrite mid_sub by lia. apply steep_at_most; [done|done|exact Hg|lia|exact Hx0].
  - rewrite mid_sub, Z.sub_diag by lia. apply steep_start; exact Hx0.
  - intros k Hk. assert (coord (z0 + k * d)) as Rk by (apply (between z0 z1 d (Z.abs (z1 - z0))); done || lia).
    unfold coord in Hz0, Rk. rewrite mid_sub, Z.add_simpl_l by lia. apply steep_near; [done|done|done|lia|done|lia|done| |done].
    by replace (x0 + (x1 - x0)) with x1 by lia.
Qed.
End slanted.

Lemma wp_finder_raycast s ignore dump x0 z0 x1 z1 :
  masked s ignore -> coord x0 -> coord z0 -> coord x1 -> coord z1 ->
  wpd (finder_raycast x0 z0 x1 z1 ignore dump) (ray_stops s ignore dump x0 z0 x1 z1) s.
Proof.
  intros HM Hx0 Hz0 Hx1 Hz1. pose proof Hx0 as Rx0. pose proof Hz0 as Rz0. pose proof Hx1 as Rx1. pose proof Hz1 as Rz1.
  unfold coord in Rx0, Rz0, Rx1, Rz1. unfold finder_raycast. rewrite !mid_half by lia. wp_step.
  replace (feqb (mid x0) (mid x1)) with (x0 =? x1) by (unfold mid; rewrite feqb_grid; zcase; lia).
  destruct (Z.eqb_spec x0 x1) as [Ex|Hx].
  - destruct (Z.ltb_spec z0 z1).
    + apply (wp_ray_column s ignore HM dump x0 z0 x1 z1 Hx0 Hz0 Hx1 Hz1 1); [done|done|lia|lia|].
      intros c Hc. rewrite !of_int_exact, fleb_grid by lia. f_equal; lia.
    + apply (wp_ray_column s ignore HM dump x0 z0 x1 z1 Hx0 Hz0 Hx1 Hz1 (-1)); [done|done|lia|lia|].
      intros c Hc. rewrite !of_int_exact, fleb_grid by lia. zcase; lia.
  - rewrite !mid_sub by lia. change (fdiv (MkFloat (2 * (z1 - z0)) (-1)) (MkFloat (2 * (x1 - x0)) (-1))) with (slope_of (x1 - x0) (z1 - z0)).
    pose proof (slope_at_most (x1 - x0) (z1 - z0) ltac:(lia) ltac:(lia)) as Hs.
    wp_step. eapply wp_Done; [apply (f2i_at_most _ (2 ^ 24)); [lia|exact Hs]|].
    assert (forall a b, fleb (mid a) (mid b) = (a <=? b)) as Ele by (intros; unfold mid; rewrite fleb_grid; zcase; lia).
    rewrite !Ele. destruct (Z.ltb_spec (Z.abs (to_int (slope_of (x1 - x0) (z1 - z0)))) 1) as [Hg|Hg].
    + destruct (Z.leb_spec x0 x1);
        [apply (wp_gentle s ignore HM dump x0 z0 x1 z1 Hx0 Hz0 Hx1 Hz1 Hx 1)|apply (wp_gentle s ignore HM dump x0 z0 x1 z1 Hx0 Hz0 Hx1 Hz1 Hx (-1))];
        try (exact Hg || lia); intros c Hc; rewrite Ele; clear; zcase; lia.
    + destruct (Z.leb_spec z0 z1);
        [apply (wp_steep s ignore HM dump x0 z0 x1 z1 Hx0 Hz0 Hx1 Hz1 Hx 1)|apply (wp_steep s ignore HM dump x0 z0 x1 z1 Hx0 Hz0 Hx1 Hz1 Hx (-1))];
        try (exact Hg || lia); intros c Hc; rewrite Ele; clear; zcase; lia.
Qed.

(** C33: [finder_raycast] between cells with coordinates from 0 to [2^21 - 1] returns (no
    conversion of a [float] overflows, no cell is read outside the grid or the mask, and
    the loop over the points ends), where the block types of the grid are below [MARK_MAX]
    unless the mask is ignored (see [negative_block_overreads]). It looks in order at the
    cells of the line from the given cell to the target: one in each column if the line is
    wider than it is high, else one in each row, and in spite of the rounding of the slope
    and of the points each is less than one cell from the exact line, so the last one is
    the target. It stops at the first that is not movable, and gives the last movable one
    before it (the start if there is none); if all are movable it gives the target. *)
Theorem finder_raycast_correct s ignore dump x0 z0 x1 z1 :
  masked s ignore -> coord x0 -> coord z0 -> coord x1 -> coord z1 ->
  exists r s', finder_raycast x0 z0 x1 z1 ignore dump s = Done r s' /\ ray_stops s ignore dump x0 z0 x1 z1 r s'.
Proof.
  intros HM Hx0 Hz0 Hx1 Hz1. apply wpd_Done. by apply wp_finder_raycast.
Qed.

(** ** The mask *)

(** [mask_set] and [mask_reset] keep the mask's length and change the one entry, or all. *)
Lemma mask_set_spec s i e :
  alen (mask s) = MARK_MAX -> finder_mask_set i e s = Done tt (s <| mask := if decide (0 <= i < MARK_MAX) then aset (mask s) i (s8 e) else mask s |>).
Proof.
  intros Hm. unfold finder_mask_set. destruct (Z.ltb_spec i 0), (Z.leb_spec MARK_MAX i); cbn [orb]; case_decide; try lia; try done.
  all: by destruct s.
Qed.

Lemma mask_reset_spec s : alen (mask s) = MARK_MAX -> wpd finder_mask_reset (fun _ s' => s' = s <| mask := mask finder_zero |>) s.
Proof.
  intros Hm. unfold finder_mask_reset. eapply wp_mono.
  - apply (wp_for_each (fun xs t => exists i m, 0 <= i <= MARK_MAX /\ xs = seqZ i (MARK_MAX - i) /\ t = s <| mask := m |> /\
      alen m = MARK_MAX /\ forall j, 0 <= j < i -> aget m j = Some 0)).
    + intros i xs t (i' & m & Hi & (-> & -> & Hlt)%seqZ_more & -> & El & Hz); [|done]. wp_step.
      exists (i' + 1), (aset m i' 0). split; [lia|]. split; [done|]. split; [done|]. split; [by rewrite alen_aset|].
      intros j Hj. rewrite aget_aset by (unfold in_range; lia). case_decide; [done|]. apply Hz. lia.
    + exists 0, (mask s). split; [by unfold MARK_MAX|]. split; [done|]. split; [by destruct s|]. split; [done|lia].
  - intros [] t (i & m & Hi & ->%seqZ_end & -> & El & Hz); [|done]. f_equal. apply aget_ext; [by rewrite El|].
    intros j. destruct (decide (0 <= j < MARK_MAX)) as [Hj|Hj].
    + rewrite Hz by done. symmetry. apply aget_replicate. unfold MARK_MAX in *. lia.
    + assert (alen (mask finder_zero) = MARK_MAX) as E0 by apply alen_replicate.
      by rewrite !aget_None by (unfold in_range; rewrite ?El, ?E0; done).
Qed.

(** ** On a concrete grid *)

Definition ex_masked : pathfinder_t := after (finder_mask_set 1 1) ex_finder.

Lemma finder_raycast_witness :
  exists r s', finder_raycast 0 1 2 3 0 true ex_masked = Done r s' /\ ray_stops ex_masked 0 true 0 1 2 3 r s'.
Proof.
  apply (finder_raycast_correct ex_masked 0 true 0 1 2 3); [|done|done|done|done].
  split; [|split; [reflexivity|intros _]].
  { replace (width ex_masked) with (width ex_finder) by (vm_compute; reflexivity). replace (heigh ex_masked) with (heigh ex_finder) by (vm_compute; reflexivity).
    replace (node ex_masked) with (node ex_finder) by (vm_compute; reflexivity). exact (proj1 (proj1 ex_ready)). }
  apply (bool_decide_eq_true_1 (Forall (fun n => 0 <= block n < MARK_MAX) (node ex_masked))). vm_compute. reflexivity.
Defined.

(** A block type is a [char]; [movable] uses it as an index of the mask without a test. *)
Example negative_block_overreads :
  movable 0 0 0 (grid_of [[255]]) = Fault OutOfBounds /\ movable 0 0 0 (grid_of [[64]]) = Fault OutOfBounds.
Proof. split; vm_compute; reflexivity. Qed.

(** The middle of cell -1 is -0.5, which is converted to 0: a ray that starts outside the
    grid passes for one that starts in the first row. *)
Example ray_from_outside :
  finder_movable 0 (-1) 1 (grid_of [[1; 1; 1]; [1; 1; 1]]) = Done 0 (grid_of [[1; 1; 1]; [1; 1; 1]]) /\
  finder_raycast 0 (-1) 1 (-1) 1 false (grid_of [[1; 1; 1]; [1; 1; 1]]) = Done (1, -1) (grid_of [[1; 1; 1]; [1; 1; 1]]).
Proof. split; vm_compute; reflexivity. Qed.
