(* ===== verification/Bson.v ===== *)
(** * BSON documents (lua-bson.c)

    Lua tables are written to and read from the binary documents of mongo. The types that
    Lua does not have are strings whose first two bytes are 0 and the type. The writer is a
    buffer that grows by doubling; the reader is a pointer into a block and the number of
    bytes it may still read. Bytes that the C code leaves uninitialised are 0 here; they
    are written before they are read. *)

From S2P Require Import Prelude Outcome Codec LuaValue Itoa.

Definition DEFAULT_CAP : Z := 64.
Definition MAX_NUMBER : Z := 1024.
Definition MAX_DEPTH : nat := 128.

Definition BSON_REAL : Z := 1.
Definition BSON_STRING : Z := 2.
Definition BSON_DOCUMENT : Z := 3.
Definition BSON_ARRAY : Z := 4.
Definition BSON_BINARY : Z := 5.
Definition BSON_OBJECTID : Z := 7.
Definition BSON_BOOLEAN : Z := 8.
Definition BSON_DATE : Z := 9.
Definition BSON_NULL : Z := 10.
Definition BSON_REGEX : Z := 11.
Definition BSON_DBPOINTER : Z := 12.
Definition BSON_JSCODE : Z := 13.
Definition BSON_SYMBOL : Z := 14.
Definition BSON_CODEWS : Z := 15.
Definition BSON_INT32 : Z := 16.
Definition BSON_TIMESTAMP : Z := 17.
Definition BSON_INT64 : Z := 18.
Definition BSON_MINKEY : Z := 255.
Definition BSON_MAXKEY : Z := 127.

Definition BSON_TYPE_SHIFT : Z := 5.

(** ** Writing *)

(** [ptr] is the buffer it points to, of [cap] bytes. *)
Record bson := MkBson { size : Z; cap : Z; ptr : bytes }.

Abbreviation Wr := (M bson).

Definition bson_create : bson := MkBson 0 DEFAULT_CAP (replicate (Z.to_nat DEFAULT_CAP) (z2b 0)).

(** [sz] is an [int]. The capacity doubles at most 31 times before it overflows. *)
Definition bson_reserve (sz : Z) : Wr unit :=
  b ← get;
  require SignedOverflow (size b + sz <=? INT_MAX);;
  if size b + sz <=? cap b then mret tt else
  c ← loop 32 (fun c =>
    require SignedOverflow (c * 2 <=? INT_MAX);;
    mret (if c * 2 <=? size b + sz then inl (c * 2) else inr (c * 2))) (cap b);
  put (MkBson (size b) c (ptr b ++ replicate (Z.to_nat (c - cap b)) (z2b 0))).

(** The bytes [d] at [ptr + off]. *)
Definition store_at (off : Z) (d : bytes) : Wr unit :=
  b ← get;
  p ← deref OutOfBounds (memcpy (ptr b) off d);
  put (MkBson (size b) (cap b) p).

Definition add_size (n : Z) : Wr unit := modify (fun b => MkBson (size b + n) (cap b) (ptr b)).

(** The bytes [d] at the end. *)
Definition store_end (d : bytes) : Wr unit := b ← get; store_at (size b) d;; add_size (alen d).

Definition write_byte (v : Z) : Wr unit := bson_reserve 1;; store_end [z2b v].

Definition write_int32 (v : Z) : Wr unit := bson_reserve 4;; store_end (le_split 4 v).

Definition write_length (v off : Z) : Wr unit := store_at off (le_split 4 v).

Definition MAXUNICODE : Z := 0x10FFFF.
Definition limits : list Z := [0xFF; 0x7F; 0x7FF; 0xFFFF].

(** One round of the loop over the bytes that follow the first one of a character, and what
    comes after the loop. [c] and [res] are unsigned. *)
Definition utf8_follow (s : bytes) (limit : Z) (st : Z * Z * Z) : Wr (Z * Z * Z + Z) :=
  let '(count, c, res) := st in
  if negb (Z.land c 0x40 =? 0) then
    let count := count + 1 in
    b ← deref OutOfBounds (aget s count);
    let cc := s8 (b2z b) in
    if (limit <=? count) || negb (Z.land cc 0xC0 =? 0x80) then mret (inr 0) else
    mret (inl (count, u32 (Z.shiftl c 1), Z.lor (u32 (Z.shiftl res 6)) (Z.land cc 0x3F)))
  else
    require UndefinedBehaviour (count * 5 <? 32);;
    let res := Z.lor res (u32 (Z.shiftl (Z.land c 0x7F) (count * 5))) in
    mret (inr (if (3 <? count) || (MAXUNICODE <? res) || (res <=? default 0 (aget limits count)) then 0 else count + 1)).

(** The length of the character at the start of [s], 0 if there is none; [s] goes to the
    zero behind the string, of which [limit] bytes are left. A byte has at most seven ones
    behind the first. *)
Definition utf8_copy (s : bytes) (limit : Z) : Wr Z :=
  c0 ← deref OutOfBounds (aget s 0);
  let c := u32 (s8 (b2z c0)) in
  if limit <? 1 then mret 0 else
  if c <? 0x80 then mret 1 else
  loop 8 (utf8_follow s limit) (0, c, 0).

(** One round of the loop of [write_string]; [src] are the bytes from the pointer to the zero
    behind the string. *)
Definition write_char (st : bytes * Z * Z) : Wr (bytes * Z * Z + unit) :=
  let '(src, dst, n) := st in
  if 0 <? n then
    c ← utf8_copy src n;
    if c =? 0 then luaL_error "Invalid utf8 string" else
    store_at dst (take (Z.to_nat c) src);;
    mret (inl (drop (Z.to_nat c) src, dst + c, n - c))
  else mret (inr tt).

Definition write_string (key : bytes) : Wr unit :=
  let sz := alen key in
  bson_reserve (s32 (sz + 1));;
  b ← get;
  loop (S (length key)) write_char (key ++ [z2b 0], size b, sz);;
  store_at (size b + sz) [z2b 0];;
  add_size (sz + 1).

Definition reserve_length : Wr Z :=
  b ← get;
  bson_reserve 4;;
  add_size 4;;
  mret (size b).

Definition write_int64 (v : Z) : Wr unit := bson_reserve 8;; store_end (le_split 8 v).

(** A double is its 64 bits. *)
Definition write_double (bits : Z) : Wr unit := bson_reserve 8;; store_end (le_split 8 bits).

Definition append_key (type : Z) (key : bytes) : Wr unit := write_byte type;; write_string key.

Definition is_32bit (v : Z) : bool := (- 2 ^ 31 <=? v) && (v <=? 2 ^ 31 - 1).

Definition append_number (key : bytes) (v : value) : Wr unit :=
  match v with
  | VInt i =>
      if is_32bit i then append_key BSON_INT32 key;; write_int32 i
      else append_key BSON_INT64 key;; write_int64 i
  | _ => append_key BSON_REAL key;; write_double (tonumber v)
  end.

(** Bytes copied as they are. *)
Definition write_raw (d : bytes) : Wr unit := bson_reserve (s32 (alen d));; store_end d.

Definition write_binary (buffer : bytes) : Wr unit :=
  length ← reserve_length;
  write_raw buffer;;
  write_length (s32 (alen buffer - 1)) length.

(** The parts of a string before and behind its last zero. *)
Fixpoint last_zero (s : bytes) : option (bytes * bytes) :=
  match s with
  | [] => None
  | c :: s =>
      match last_zero s with
      | Some (a, b) => Some (c :: a, b)
      | None => if b2z c =? 0 then Some ([], s) else None
      end
  end.

(** A string of a type that Lua does not have; [body] is what follows the type. Without a
    zero, or without a body, the lengths of the parts of a regular expression wrap around
    and [write_string] reads behind the string. *)
Definition append_special (key : bytes) (subt : Z) (body : bytes) : Wr unit :=
  append_key subt key;;
  let len := alen body in
  if subt =? BSON_BINARY then write_binary body
  else if subt =? BSON_OBJECTID then
    if negb (len =? 12) then luaL_error "Invalid object id" else write_raw body
  else if (subt =? BSON_JSCODE) || (subt =? BSON_DBPOINTER) || (subt =? BSON_SYMBOL) || (subt =? BSON_CODEWS) then
    write_raw body
  else if subt =? BSON_DATE then
    if negb (len =? 4) then luaL_error "Invalid date" else write_int64 (le_combine body * 1000)
  else if subt =? BSON_TIMESTAMP then
    if negb (len =? 8) then luaL_error "Invalid timestamp" else
    write_int32 (le_combine (take 4 body));; write_int32 (le_combine (drop 4 body))
  else if subt =? BSON_REGEX then
    require OutOfBounds (1 <=? len);;
    '(r1, r2) ← deref OutOfBounds (last_zero (take (Z.to_nat (len - 1)) body));
    write_string r1;; write_string r2
  else if (subt =? BSON_MINKEY) || (subt =? BSON_MAXKEY) || (subt =? BSON_NULL) then mret tt
  else luaL_error "Invalid subtype".

Definition append_str (key : bytes) (str : bytes) : Wr unit :=
  match str with
  | c0 :: c1 :: body => if b2z c0 =? 0 then append_special key (b2z c1) body else
      append_key BSON_STRING key;; off ← reserve_length; write_string str;; write_length (s32 (alen str + 1)) off
  | _ => append_key BSON_STRING key;; off ← reserve_length; write_string str;; write_length (s32 (alen str + 1)) off
  end.

(** A document that is already encoded. *)
Definition append_userdata (key block : bytes) : Wr unit :=
  append_key BSON_DOCUMENT key;;
  h ← deref OutOfBounds (slice block 0 4);
  let sz := s32 (le_combine h) in
  bson_reserve sz;;
  d ← deref OutOfBounds (slice block 0 sz);
  store_end d.

(** The key of an array's element: [%u] of the index from 0 on. The texts below
    [MAX_NUMBER] come from a table that [luaopen_bson] fills with the same texts. *)
Definition bson_numstr (i : Z) : bytes := decimal (u32 i).

(** [lua_geti] *)
Definition geti (entries index : list (value * value)) (i : Z) : value :=
  match tlookup (VInt i) entries with
  | Some v => v
  | None => default VNil (tlookup (VInt i) index)
  end.

Section pack.
(** What a call of the [__len] metamethod of the table with this address gives, if it has
    one; the text of a double ([lua_tolstring]). *)
Context (meta_len : Z -> option value) (double_text : Z -> bytes).

(** The frame of a document or an array: its length, its elements and a zero. *)
Definition framed (elements : Wr unit) : Wr unit :=
  length ← reserve_length;
  elements;;
  write_byte 0;;
  b ← get;
  write_length (size b - length) length.

(** [len] is a [size_t]. There are no more values than entries, and the first nil is an
    error: the loop ends. *)
Definition pack_array (append_one : bytes -> value -> Wr unit) (entries index : list (value * value)) (len : Z) : Wr unit :=
  framed (
    loop (S (S (length entries + length index))) (fun i =>
      if i <=? len then
        append_one (bson_numstr (i - 1)) (geti entries index i);;
        mret (inl (i + 1))
      else mret (inr tt)) 1).

Definition pack_dict_data (append_one : bytes -> value -> Wr unit) (kv : value * value) : Wr unit :=
  match kv.1 with
  | VInt _ | VReal _ => luaL_error "Bson dictionary's key can't be number"
  | VStr key => append_one key kv.2
  | _ => luaL_error "Invalid key type"
  end.

Definition pack_simple_dict (append_one : bytes -> value -> Wr unit) (entries : list (value * value)) : Wr unit :=
  framed (for_each entries (pack_dict_data append_one)).

Definition pack_meta_dict (append_one : bytes -> value -> Wr unit) (pairs : list (value * value)) : Wr unit :=
  framed (for_each pairs (pack_dict_data append_one)).

Definition is_rawarray (rawlen : Z) (entries : list (value * value)) : Wr bool :=
  if 0 <? rawlen then
    match lua_next (VInt rawlen) entries with
    | None => luaL_error "invalid key to 'next'"
    | Some o => mret (match o with None => true | Some _ => false end)
    end
  else mret false.

Definition str_name : bytes := z2b <$> [95; 95; 110; 97; 109; 101].
Definition str_save_data : bytes := z2b <$> [115; 97; 118; 101; 95; 100; 97; 116; 97].

(** What stands for a table that has a [__name]: the result of its [save_data] method. *)
Definition save_data (v : value) : Wr value :=
  match v with
  | VTable _ _ entries index _ =>
      match tlookup (VStr str_name) entries with
      | None => mret v
      | Some _ =>
          match getfield entries index str_save_data with
          | VFunction (Some r) => mret r
          | VFunction None => luaL_error "bson pack object error"
          | _ => mret v
          end
      end
  | _ => mret v
  end.

(** The values inside the table are appended with [append_one]. *)
Definition append_table (append_one : bytes -> value -> Wr unit) (key : bytes) (v : value) : Wr unit :=
  match v with
  | VTable addr rawlen entries index pairs =>
      match meta_len addr with
      | Some (VInt len) => append_key BSON_ARRAY key;; pack_array append_one entries index (u64 len)
      | Some _ => luaL_error "__len should return integer"
      | None =>
          match pairs with
          | Some pairs => append_key BSON_DOCUMENT key;; pack_meta_dict append_one pairs
          | None =>
              a ← is_rawarray rawlen entries;
              if a : bool then append_key BSON_ARRAY key;; pack_array append_one entries index rawlen
              else
                w ← save_data v;
                append_key BSON_DOCUMENT key;;
                match w with
                | VTable _ _ entries _ _ => pack_simple_dict append_one entries
                | _ => crash UndefinedBehaviour
                end
          end
      end
  | _ => crash UndefinedBehaviour
  end.

(** [n] more levels of tables are allowed: the depth is [MAX_DEPTH - n]. *)
Fixpoint append_one (n : nat) (key : bytes) (v : value) : Wr unit :=
  match v with
  | VInt _ | VReal _ => append_number key v
  | VUserdata block => append_userdata key block
  | VStr str => append_str key str
  | VTable _ _ _ _ _ =>
      match n with
      | O => luaL_error "Too depth while encoding bson"
      | S n => append_table (append_one n) key v
      end
  | VBool b => append_key BSON_BOOLEAN key;; write_byte (if b then 1 else 0)
  | VNil => luaL_error "Bson array has a hole (nil), Use bson.null instead"
  | VLight _ | VFunction _ | VOther _ => luaL_error "Invalid value type"
  end.

(** The keys and values of the call, in order. A number as a key is turned into text. *)
Fixpoint pack_ordered (args : list value) : Wr unit :=
  match args with
  | k :: v :: args =>
      key ← match k with
            | VStr s => mret s
            | VInt z => mret (decimal z)
            | VReal b => mret (double_text b)
            | _ => luaL_error "Argument need a string"
            end;
      append_one MAX_DEPTH key v;;
      pack_ordered args
  | _ => mret tt
  end.

Definition pack_ordered_dict (args : list value) : Wr unit := framed (pack_ordered args).

(** The block of the userdata. *)
Definition finish : Wr bytes := b ← get; deref OutOfBounds (slice (ptr b) 0 (size b)).

Definition encode_bson (v : value) : Wr bytes :=
  match v with
  | VTable _ _ entries _ pairs =>
      match pairs with
      | Some pairs => pack_meta_dict (append_one MAX_DEPTH) pairs
      | None => pack_simple_dict (append_one MAX_DEPTH) entries
      end;;
      finish
  | _ => crash UndefinedBehaviour
  end.

Definition lencode (v : value) : Wr bytes :=
  match v with
  | VTable _ _ _ _ _ => put bson_create;; encode_bson v
  | _ => luaL_error "table expected"
  end.

(** Without arguments the first key would be at index 0, which is not an index. *)
Definition lencode_order (args : list value) : Wr bytes :=
  if Nat.odd (length args) then luaL_error "Invalid ordered dict" else
  require UndefinedBehaviour (bool_decide (args <> []));;
  put bson_create;;
  pack_ordered_dict args;;
  finish.
End pack.

(** ** Reading *)

(** The block, the position in it and the bytes that may still be read. *)
Record bson_reader := MkReader { mem : bytes; rptr : Z; rsize : Z }.

Abbreviation Rd := (M bson_reader).

Definition get_length (data : bytes) : option Z := (fun d => s32 (le_combine d)) <$> slice data 0 4.

Definition check_reader (sz : Z) : Rd unit := br ← get; if rsize br <? sz then luaL_error "Invalid bson block" else mret tt.

(** [ptr += n; size -= n] *)
Definition skip (n : Z) : Rd unit :=
  br ← get;
  require SignedOverflow (bool_decide (in_s 32 (rsize br - n)));;
  put (MkReader (mem br) (rptr br + n) (rsize br - n)).

(** The [n] bytes at position [p]. *)
Definition bytes_at (p n : Z) : Rd bytes := br ← get; deref OutOfBounds (slice (mem br) p n).

Definition here (n : Z) : Rd bytes := br ← get; bytes_at (rptr br) n.

Definition read_byte : Rd Z := check_reader 1;; d ← here 1; skip 1;; mret (le_combine d).

Definition read_int32 : Rd Z := check_reader 4;; d ← here 4; skip 4;; mret (s32 (le_combine d)).

Definition read_int64 : Rd Z := check_reader 8;; d ← here 8; skip 8;; mret (s64 (le_combine d)).

Definition read_double : Rd Z := check_reader 8;; d ← here 8; skip 8;; mret (le_combine d).

(** The position of the bytes. *)
Definition read_bytes (sz : Z) : Rd Z := br ← get; check_reader sz;; skip sz;; mret (rptr br).

Definition read_cstring : Rd bytes :=
  br ← get;
  i ← loop (S (length (mem br))) (fun i =>
    if i =? rsize br then luaL_error "Invalid bson block : cstring" else
    c ← deref OutOfBounds (aget (mem br) (rptr br + i));
    mret (if b2z c =? 0 then inr i else inl (i + 1))) 0;
  s ← bytes_at (rptr br) i;
  skip (i + 1);;
  mret s.

(** [strtol(key, NULL, 10)] *)
Definition isspace (c : byte) : bool := (b2z c =? 32) || ((9 <=? b2z c) && (b2z c <=? 13)).
Definition isdigit (c : byte) : bool := (48 <=? b2z c) && (b2z c <=? 57).
Fixpoint skip_space (s : bytes) : bytes :=
  match s with c :: r => if isspace c then skip_space r else s | [] => [] end.
Fixpoint digits (acc : Z) (s : bytes) : Z :=
  match s with c :: r => if isdigit c then digits (acc * 10 + (b2z c - 48)) r else acc | [] => acc end.
Definition strtol (s : bytes) : Z :=
  let z := match skip_space s with
           | c :: r => if b2z c =? 45 then - digits 0 r else if b2z c =? 43 then digits 0 r else digits 0 (c :: r)
           | [] => 0
           end in
  Z.max (- 2 ^ 63) (Z.min z (2 ^ 63 - 1)).

(** [make_object] with the [len] bytes at [p]; [len] is a [size_t], and one that was
    negative is more than a buffer can hold. *)
Definition make_object (type p len : Z) : Rd tree :=
  if len <? 0 then luaL_error "buffer too large" else
  d ← bytes_at p len; mret (TStr (z2b 0 :: z2b type :: d)).

(** [sz + n] as an [int] *)
Definition int_add (sz n : Z) : Rd Z := require SignedOverflow (bool_decide (in_s 32 (sz + n)));; mret (sz + n).

(** The value of an element; [unpack_dict] reads a document or an array. *)
Definition unpack_value (unpack_dict : bool -> Rd tree) (bt : Z) : Rd tree :=
  if bt =? BSON_REAL then d ← read_double; mret (TReal d)
  else if bt =? BSON_BOOLEAN then b ← read_byte; mret (TBool (negb (b =? 0)))
  else if bt =? BSON_STRING then
    sz ← read_int32;
    if sz <=? 0 then luaL_error "Invalid bson string" else
    p ← read_bytes sz;
    d ← bytes_at p (sz - 1);
    mret (TStr d)
  else if bt =? BSON_DOCUMENT then unpack_dict false
  else if bt =? BSON_ARRAY then unpack_dict true
  else if bt =? BSON_BINARY then
    sz ← read_int32;
    subtype ← read_byte;
    p ← read_bytes sz;
    if sz <? 0 then luaL_error "buffer too large" else
    d ← bytes_at p sz;
    mret (TStr (z2b 0 :: z2b BSON_BINARY :: z2b subtype :: d))
  else if bt =? BSON_OBJECTID then p ← read_bytes 12; make_object BSON_OBJECTID p 12
  else if bt =? BSON_DATE then
    date ← read_int64;
    mret (TStr (z2b 0 :: z2b BSON_DATE :: le_split 4 (u32 (Z.quot date 1000))))
  else if (bt =? BSON_MINKEY) || (bt =? BSON_MAXKEY) || (bt =? BSON_NULL) then mret (TStr [z2b 0; z2b bt])
  else if bt =? BSON_REGEX then
    r1 ← read_cstring;
    r2 ← read_cstring;
    mret (TStr (z2b 0 :: z2b BSON_REGEX :: r1 ++ [z2b 0] ++ r2 ++ [z2b 0]))
  else if bt =? BSON_INT32 then i ← read_int32; mret (TInt i)
  else if bt =? BSON_TIMESTAMP then
    inc ← read_int32;
    ts ← read_int32;
    mret (TStr (z2b 0 :: z2b BSON_TIMESTAMP :: le_split 4 inc ++ le_split 4 ts))
  else if bt =? BSON_INT64 then i ← read_int64; mret (TInt i)
  else if bt =? BSON_DBPOINTER then
    br ← get;
    sz ← read_int32;
    n ← int_add sz 12;
    read_bytes n;;
    len ← int_add sz 16;
    make_object BSON_DBPOINTER (rptr br) len
  else if (bt =? BSON_JSCODE) || (bt =? BSON_SYMBOL) then
    br ← get;
    sz ← read_int32;
    read_bytes sz;;
    len ← int_add sz 4;
    make_object bt (rptr br) len
  else if bt =? BSON_CODEWS then
    br ← get;
    sz ← read_int32;
    n ← int_add sz (-4);
    read_bytes n;;
    make_object bt (rptr br) sz
  else luaL_error "Invalid bson type".

(** The key of an element. *)
Definition unpack_key (array : bool) (key : bytes) : Rd tree :=
  if array then
    require SignedOverflow (strtol key <? 2 ^ 63 - 1);;
    mret (TInt (s32 (strtol key + 1)))
  else mret (TStr key).

(** The elements of [t], added to a table. Each takes at least two bytes. *)
Definition unpack_elements (unpack_dict : bool -> Rd tree) (array : bool) : Rd (list (tree * tree)) :=
  br ← get;
  loop (S (length (mem br))) (fun entries =>
    t ← get;
    if rsize t =? 0 then mret (inr entries) else
    bt ← read_byte;
    key ← read_cstring;
    k ← unpack_key array key;
    v ← unpack_value unpack_dict bt;
    entries ← rawset k v entries;
    mret (inl entries)) [].

(** Run on a reader of its own. *)
Definition on_reader {A} (t : bson_reader) (m : Rd A) : Rd A :=
  br ← get; put t;; a ← m; put br;; mret a.

(** A document inside another is at least five bytes shorter. *)
Fixpoint unpack_dict (fuel : nat) (array : bool) : Rd tree :=
  match fuel with
  | O => crash OutOfFuel
  | S fuel =>
      sz ← read_int32;
      n ← int_add sz (-5);
      p ← read_bytes n;
      br ← get;
      end_ ← read_byte;
      if negb (end_ =? 0) then luaL_error "Invalid document end" else
      entries ← on_reader (MkReader (mem br) p n) (unpack_elements (unpack_dict fuel) array);
      mret (TTable entries)
  end.

(** [data] is the block of a userdata, or what a light userdata points to; nothing for NULL. *)
Definition ldecode (data : option bytes) : outcome unit (option tree) :=
  match data with
  | None => Done None tt
  | Some b =>
      match get_length b with
      | None => Fault OutOfBounds
      | Some len =>
          match unpack_dict (S (length b)) false (MkReader b 0 len) with
          | Done t _ => Done (Some t) tt
          | Raise e _ => Raise e tt
          | Fault f => Fault f
          end
      end
  end.

(** ** Replacing values in an encoded document *)

(** A userdata with a document: its block and its user value, the index of the fields. *)
Record document := MkDoc { block : bytes; uservalue : option (list (tree * tree)) }.

(** The size of a field that can be replaced, or 0 after the field has been skipped. *)
Definition skip_field (bt : Z) : Rd Z :=
  if (bt =? BSON_INT64) || (bt =? BSON_TIMESTAMP) || (bt =? BSON_DATE) || (bt =? BSON_REAL) then mret 8
  else if bt =? BSON_BOOLEAN then mret 1
  else if (bt =? BSON_JSCODE) || (bt =? BSON_SYMBOL) || (bt =? BSON_STRING) then
    sz ← read_int32; read_bytes sz;; mret 0
  else if (bt =? BSON_CODEWS) || (bt =? BSON_ARRAY) || (bt =? BSON_DOCUMENT) then
    sz ← read_int32; n ← int_add sz (-4); read_bytes n;; mret 0
  else if bt =? BSON_BINARY then
    sz ← read_int32; n ← int_add sz 1; read_bytes n;; mret 0
  else if bt =? BSON_OBJECTID then mret 12
  else if (bt =? BSON_MINKEY) || (bt =? BSON_MAXKEY) || (bt =? BSON_NULL) then mret 0
  else if bt =? BSON_REGEX then read_cstring;; read_cstring;; mret 0
  else if bt =? BSON_INT32 then mret 4
  else if bt =? BSON_DBPOINTER then
    sz ← read_int32; n ← int_add sz 12; read_bytes n;; mret 0
  else luaL_error "Invalid bson type".

Definition index_elements : Rd (list (tree * tree)) :=
  br ← get;
  loop (S (length (mem br))) (fun idx =>
    t ← get;
    if rsize t =? 0 then mret (inr idx) else
    bt ← read_byte;
    key ← read_cstring;
    field_size ← skip_field bt;
    if 0 <? field_size then
      t ← get;
      require SignedOverflow (rptr t * 2 ^ BSON_TYPE_SHIFT <=? INT_MAX);;
      let id := Z.lor bt (Z.shiftl (rptr t) BSON_TYPE_SHIFT) in
      read_bytes field_size;;
      idx ← rawset (TStr key) (TInt id) idx;
      mret (inl idx)
    else mret (inl idx)) [].

Definition lmakeindex : M document unit :=
  d ← get;
  len ← deref OutOfBounds (get_length (block d));
  require SignedOverflow (bool_decide (in_s 32 (len - 5)));;
  match index_elements (MkReader (block d) 4 (len - 5)) with
  | Done idx _ => put (MkDoc (block d) (Some idx))
  | Raise e _ => luaL_error e
  | Fault f => crash f
  end.

(** The bytes behind the type of a string of this type. *)
Definition replace_object (type : Z) (v : value) : Wr unit :=
  match v with
  | VStr (c0 :: c1 :: body) =>
      if (alen body <? 4) || negb (b2z c0 =? 0) || negb (s8 (b2z c1) =? type) then luaL_error "Type mismatch" else
      if type =? BSON_OBJECTID then
        if negb (alen body =? 12) then luaL_error "Invalid object id" else store_at 0 body
      else if type =? BSON_DATE then
        if negb (alen body =? 4) then luaL_error "Invalid date" else write_int64 (le_combine body * 1000)
      else if type =? BSON_TIMESTAMP then
        if negb (alen body =? 8) then luaL_error "Invalid timestamp" else
        write_int32 (le_combine (take 4 body));; write_int32 (le_combine (drop 4 body))
      else mret tt
  | _ => luaL_error "Type mismatch"
  end.

Definition toboolean (v : value) : bool := match v with VNil | VBool false => false | _ => true end.

Fixpoint idx_lookup (k : bytes) (l : list (tree * tree)) : option Z :=
  match l with
  | [] => None
  | (TStr k', TInt id) :: l => if bool_decide (k' = k) then Some id else idx_lookup k l
  | _ :: l => idx_lookup k l
  end.

(** The new value of a field of this type; [string_number] is the double that a string
    stands for ([luaL_checknumber]). *)
Definition replace_value (string_number : bytes -> option Z) (type : Z) (v : value) : Wr unit :=
  if type =? BSON_REAL then
    match v with
    | VInt _ | VReal _ => write_double (tonumber v)
    | VStr s => match string_number s with Some b => write_double b | None => luaL_error "number expected" end
    | _ => luaL_error "number expected"
    end
  else if type =? BSON_BOOLEAN then write_byte (if toboolean v then 1 else 0)
  else if (type =? BSON_OBJECTID) || (type =? BSON_DATE) || (type =? BSON_TIMESTAMP) then replace_object type v
  else if type =? BSON_INT32 then
    match v with VInt i => write_int32 (s32 i) | _ => luaL_error "must be a 32bit integer" end
  else if type =? BSON_INT64 then
    match v with VInt i => write_int64 i | _ => luaL_error "must be a 64bit integer" end
  else luaL_error "Can't replace type".

(** The buffer is the part of the block from the field on, with a capacity of 16. *)
Definition lreplace (string_number : bytes -> option Z) (key v : value) : M document unit :=
  d ← get;
  match uservalue d, key with
  | None, _ => luaL_error "call makeindex first"
  | Some idx, VStr k =>
      match idx_lookup k idx with
      | None => luaL_error "Can't replace key"
      | Some id =>
          let id := s32 id in
          let type := Z.land id (Z.ones BSON_TYPE_SHIFT) in
          let offset := Z.shiftr id BSON_TYPE_SHIFT in
          require OutOfBounds (bool_decide (0 <= offset <= alen (block d)));;
          match replace_value string_number type v (MkBson 0 16 (drop (Z.to_nat offset) (block d))) with
          | Done _ b => put (MkDoc (take (Z.to_nat offset) (block d) ++ ptr b) (uservalue d))
          | Raise e b => modify (fun d => MkDoc (take (Z.to_nat offset) (block d) ++ ptr b) (uservalue d));; luaL_error e
          | Fault f => crash f
          end
      end
  | Some _, _ => luaL_error "Can't replace key"
  end.

Definition ltostring (d : document) : bytes := block d.
Definition llen (d : document) : Z := alen (block d).

(** ** Values of the types that Lua does not have *)

Definition ldate (d : Z) : bytes := z2b 0 :: z2b BSON_DATE :: le_split 4 (s32 d).

(** The counter [inc] is a static variable. *)
Definition ltimestamp (d : Z) (i : option Z) : M Z bytes :=
  match i with
  | None => inc ← get; put (u32 (inc + 1));; mret (z2b 0 :: z2b BSON_TIMESTAMP :: le_split 4 inc ++ le_split 4 (s32 d))
  | Some i => mret (z2b 0 :: z2b BSON_TIMESTAMP :: le_split 4 (u32 i) ++ le_split 4 (s32 d))
  end.

(** The second string is empty if there is none. *)
Definition lregex (r : bytes) (opt : option bytes) : bytes :=
  z2b 0 :: z2b BSON_REGEX :: r ++ [z2b 0] ++ default [] opt ++ [z2b 0].

Definition lbinary (d : bytes) : bytes := z2b 0 :: z2b BSON_BINARY :: z2b 0 :: d.

Definition hextoint (c : byte) : Z :=
  let c := s8 (b2z c) in
  if (48 <=? c) && (c <=? 57) then c - 48
  else if (97 <=? c) && (c <=? 122) then c - 97 + 10
  else if (65 <=? c) && (c <=? 90) then c - 65 + 10
  else 0.

Fixpoint from_hex (s : bytes) : bytes :=
  match s with
  | a :: b :: s => z2b (Z.lor (Z.shiftl (hextoint a) 4) (hextoint b)) :: from_hex s
  | _ => []
  end.

(** The machine's part of an object id, from its name, the process id, and the seed of the
    counter; [addr] is the address of a local variable. *)
Definition oid_hash (hostname : bytes) : Z :=
  let name := take 256 (cstr hostname) in
  let h := foldl (fun h c => Z.lxor h (u32 (u32 (Z.shiftl h 5) + Z.shiftr h 2 + s8 (b2z c)))) 0 name in
  Z.lxor h (alen name).

Definition init_oid_header (hostname : option bytes) (pid time addr : Z) : bytes * Z :=
  let h := match hostname with Some n => oid_hash n | None => 0 end in
  let c := u32 (Z.lxor (Z.lxor h time) addr) in
  (z2b <$> [Z.land h 255; Z.land (Z.shiftr h 8) 255; Z.land (Z.shiftr h 16) 255; Z.land pid 255; Z.land (Z.shiftr pid 8) 255],
   if c =? 0 then 1 else c).

(** The state is [oid_counter]; [ti] is the time. A number as an argument is turned into a
    text, which is shorter than 24 characters. *)
Definition lobjectid (oid_header : bytes) (ti : Z) (v : value) : M Z bytes :=
  match v with
  | VStr s =>
      if negb (alen s =? 24) then luaL_error "Invalid objectid" else
      mret (z2b 0 :: z2b BSON_OBJECTID :: from_hex s)
  | VInt _ | VReal _ => luaL_error "Invalid objectid"
  | _ =>
      id ← get;
      put (u32 (id + 1));;
      mret (z2b 0 :: z2b BSON_OBJECTID ::
            (z2b <$> [Z.shiftr ti 24; Z.shiftr ti 16; Z.shiftr ti 8; ti]) ++ oid_header ++
            (z2b <$> [Z.shiftr id 16; Z.shiftr id 8; id]))
  end.

Definition hex_digit (d : Z) : byte := z2b (if d <? 10 then 48 + d else 87 + d).
Definition to_hex (s : bytes) : bytes :=
  mjoin ((fun b => [hex_digit (Z.shiftr (b2z b) 4); hex_digit (Z.land (b2z b) 15)]) <$> s).

(** The name of the type and the value in Lua's terms. *)
Definition lsubtype {St} (subtype : Z) (buf : bytes) : M St (string * list value) :=
  let sz := alen buf in
  if subtype =? BSON_BINARY then
    match buf with
    | c :: d => mret ("binary"%string, [VStr d; VInt (b2z c)])
    | [] => luaL_error "memory allocation error: block too big"
    end
  else if subtype =? BSON_OBJECTID then
    if negb (sz =? 12) then luaL_error "Invalid object id" else mret ("objectid"%string, [VStr (to_hex buf)])
  else if subtype =? BSON_DATE then
    if negb (sz =? 4) then luaL_error "Invalid date" else mret ("date"%string, [VInt (s32 (le_combine buf))])
  else if subtype =? BSON_TIMESTAMP then
    if negb (sz =? 8) then luaL_error "Invalid timestamp" else
    mret ("timestamp"%string, [VInt (le_combine (drop 4 buf)); VInt (le_combine (take 4 buf))])
  else if subtype =? BSON_REGEX then
    if sz =? 0 then luaL_error "memory allocation error: block too big" else
    match last_zero (take (Z.to_nat (sz - 1)) buf) with
    | Some (r1, r2) => mret ("regex"%string, [VStr r1; VStr r2])
    | None => luaL_error "Invalid regex"
    end
  else if subtype =? BSON_MINKEY then mret ("minkey"%string, [])
  else if subtype =? BSON_MAXKEY then mret ("maxkey"%string, [])
  else if subtype =? BSON_NULL then mret ("nil"%string, [])
  else if (subtype =? BSON_JSCODE) || (subtype =? BSON_DBPOINTER) || (subtype =? BSON_SYMBOL) || (subtype =? BSON_CODEWS) then
    mret ("unsupported"%string, [VStr buf])
  else luaL_error "Invalid subtype".

Definition ltype {St} (v : value) : M St (string * list value) :=
  match v with
  | VInt _ | VReal _ => mret ("number"%string, [v])
  | VBool _ => mret ("boolean"%string, [v])
  | VTable _ _ _ _ _ => mret ("table"%string, [v])
  | VNil => mret ("nil"%string, [])
  | VStr (c0 :: c1 :: buf) => if b2z c0 =? 0 then lsubtype (b2z c1) buf else mret ("string"%string, [v])
  | VStr _ => mret ("string"%string, [v])
  | _ => luaL_error "Invalid type"
  end.
