(* ===== verification/BsonWrite.v ===== *)
(** * What the BSON encoder writes

    The buffer and the bytes in it, the strings that [write_string] accepts, and the
    bytes of a Lua value as the format defines them. [append_one] writes exactly these. *)

From S2P Require Import Prelude Outcome Codec LuaValue Itoa Bson.

(** ** The buffer *)

(** The buffer starts with [out], and [n] bytes are counted. *)
Definition wr_at (n : Z) (b : bson) (out : bytes) : Prop :=
  (exists rest, ptr b = out ++ rest) /\ size b = n /\ alen (ptr b) = cap b /\ 64 <= cap b.

Definition wr_ok (b : bson) (out : bytes) : Prop := wr_at (alen out) b out.

(** The capacity is doubled as an [int]: up to here it does not overflow. *)
Definition wr_limit : Z := 2 ^ 30 - 1.

Abbreviation emits := (Codec.emits wr_ok wr_limit).

Lemma wr_ok_create : wr_ok bson_create [].
Proof. split_and!; [by eexists|done..]. Qed.

(** There is room for [sz] more bytes. *)
Lemma wp_bson_reserve sz b out Q :
  wr_ok b out -> 0 <= sz -> alen out + sz <= wr_limit ->
  (forall b', wr_ok b' out -> alen out + sz <= cap b' -> Q tt b') -> wpd (bson_reserve sz) Q b.
Proof.
  intros ([rest Hp] & Hs & Hc & H64) Hsz Hl HQ. unfold wr_limit in Hl. unfold bson_reserve. do 3 wp_step. rewrite Hs.
  wp_step; [unfold INT_MAX; lia|]. destruct (Z.leb_spec (alen out + sz) (cap b)) as [|Hfull].
  { wp_step. apply HQ; [|lia]. split_and!; eauto. }
  wp_step. apply (wp_loop_rank (fun k c s => s = b /\ cap b <= c <= alen out + sz /\ 2 ^ 37 <= c * 2 ^ Z.of_nat k)) with (k := 31%nat);
    [|split_and!; [done|lia..]|lia].
  intros k c s (-> & Hb & Hk). wp_step. wp_step; [unfold INT_MAX; lia|]. wp_step. destruct (Z.leb_spec (c * 2) (alen out + sz)).
  - destruct k as [|k]; [lia|]. exists k. split_and!; [lia|done|lia|lia|].
    rewrite Nat2Z.inj_succ, Z.pow_succ_r in Hk by lia. lia.
  - wp_step. apply HQ; cbn; [|lia]. split_and!; cbn; [|done| |lia].
    + rewrite Hp, <- app_assoc. by eexists.
    + rewrite alen_app, alen_replicate. lia.
Qed.

(** The bytes [x] are replaced. *)
Lemma wp_store_at n a x c d b off Q :
  wr_at n b (a ++ x ++ c) -> off = alen a -> alen d = alen x ->
  (forall b', wr_at n b' (a ++ d ++ c) -> cap b' = cap b -> Q tt b') -> wpd (store_at off d) Q b.
Proof.
  intros ([rest Hp] & Hs & Hc & H64) -> Hd HQ. unfold store_at. do 3 wp_step. wp_step.
  - rewrite Hp, <- !app_assoc. by apply memcpy_mid.
  - wp_step. apply HQ; [|done]. rewrite Hp, !alen_app in Hc. split_and!; cbn; [|done|rewrite !alen_app; lia|done].
    exists rest. by rewrite <- !app_assoc.
Qed.

(** The bytes behind [out], whatever they are. *)
Lemma wr_at_grow n b out k :
  wr_at n b out -> 0 <= k -> alen out + k <= cap b -> exists junk, alen junk = k /\ wr_at n b (out ++ junk).
Proof.
  intros ([rest Hp] & Hs & Hc & H64) Hk Hl. exists (take (Z.to_nat k) rest). rewrite Hp, alen_app in Hc.
  split; [apply alen_take; lia|]. split_and!; [|done|rewrite Hp, alen_app; lia|done].
  exists (drop (Z.to_nat k) rest). by rewrite <- app_assoc, take_drop.
Qed.

Lemma wp_store_next n out d b off Q :
  wr_at n b out -> off = alen out -> alen out + alen d <= cap b ->
  (forall b', wr_at n b' (out ++ d) -> cap b' = cap b -> Q tt b') -> wpd (store_at off d) Q b.
Proof.
  intros K Ho Hl HQ. destruct (wr_at_grow n b out (alen d)) as (junk & Hj & K2); [done|apply alen_nonneg|done|].
  apply (wp_store_at n out junk [] d); [by rewrite app_nil_r|done|done|]. intros b'. rewrite app_nil_r. apply HQ.
Qed.

Lemma wp_add_size n k out b Q :
  wr_at n b out -> n + k = alen out -> (forall b', wr_ok b' out -> Q tt b') -> wpd (add_size k) Q b.
Proof. intros (Hp & Hs & Hc & H64) Hk HQ. unfold add_size. wp_step. apply HQ. split_and!; cbn; [done|lia|done|done]. Qed.

Lemma emits_store d sz : sz = alen d -> emits (bson_reserve sz;; store_end d) tt d.
Proof.
  intros -> b out Q K Hl HQ. pose proof (alen_nonneg d). wp_step. apply (wp_bson_reserve (alen d) b out); [done|lia|lia|].
  intros b1 K1 Hcap. unfold store_end. do 3 wp_step. apply (wp_store_next (alen out) out); [done|apply K1|lia|].
  intros b2 K2 _. apply (wp_add_size (alen out) (alen d) (out ++ d)); [done|by rewrite alen_app|done].
Qed.

Lemma emits_bson_byte v : emits (write_byte v) tt [z2b v].
Proof. by apply emits_store. Qed.

Lemma emits_write_int32 v : emits (write_int32 v) tt (le_split 4 v).
Proof. apply emits_store. by rewrite alen_le_split. Qed.

Lemma emits_write_int64 v : emits (write_int64 v) tt (le_split 8 v).
Proof. apply emits_store. by rewrite alen_le_split. Qed.

Lemma emits_write_double v : emits (write_double v) tt (le_split 8 v).
Proof. apply emits_store. by rewrite alen_le_split. Qed.

Lemma emits_write_raw d : alen d <= INT_MAX -> emits (write_raw d) tt d.
Proof. intros Hd. apply emits_store. apply swrap_small; [done|]. pose proof (alen_nonneg d). unfold in_s, INT_MAX in *. lia. Qed.

(** A length is left out and written when what follows is known. *)
Lemma wp_reserve_length b out Q :
  wr_ok b out -> alen out + 4 <= wr_limit ->
  (forall b' junk, alen junk = 4 -> wr_ok b' (out ++ junk) -> Q (alen out) b') -> wpd reserve_length Q b.
Proof.
  intros K Hl HQ. unfold reserve_length. do 3 wp_step. apply (wp_bson_reserve 4 b out); [done..|]. intros b1 K1 Hcap.
  destruct (wr_at_grow (alen out) b1 out 4) as (junk & Hj & K2); [done..|]. wp_step.
  apply (wp_add_size (alen out) 4 (out ++ junk)); [done|rewrite alen_app; lia|]. intros b2 K3. wp_step.
  rewrite (proj1 (proj2 K)). by apply (HQ b2 junk).
Qed.

Lemma wp_write_length v out junk x b Q :
  wr_ok b (out ++ junk ++ x) -> alen junk = 4 -> (forall b', wr_ok b' (out ++ le_split 4 v ++ x) -> Q tt b') ->
  wpd (write_length v (alen out)) Q b.
Proof.
  intros K Hj HQ. apply (wp_store_at (alen (out ++ junk ++ x)) out junk x); [done|done|by rewrite alen_le_split|].
  intros b' K' _. apply HQ. unfold wr_ok. by rewrite !alen_app, alen_le_split, Hj in *.
Qed.

(** The bytes of a document or an array with these elements. *)
Definition frame (elements : bytes) : bytes := le_split 4 (alen elements + 5) ++ elements ++ [z2b 0].

Lemma emits_framed m x : emits m tt x -> emits (framed m) tt (frame x).
Proof.
  intros Hm b out Q K Hl HQ. unfold frame in *. rewrite !alen_app, alen_le_split in Hl. change (alen [z2b 0]) with 1 in Hl.
  pose proof (alen_nonneg x). unfold framed. wp_step. apply (wp_reserve_length b out); [done|lia|]. intros b1 junk Hj K1. wp_step.
  apply (Hm b1 (out ++ junk)); [done|rewrite alen_app; lia|]. intros b2 K2. wp_step.
  apply (emits_bson_byte 0 b2 ((out ++ junk) ++ x)); [done|rewrite !alen_app; change (alen [z2b 0]) with 1; lia|]. intros b3 K3.
  rewrite <- !app_assoc in K3. do 2 wp_step. rewrite (proj1 (proj2 K3)), !alen_app. change (alen [z2b 0]) with 1.
  replace (alen out + (alen junk + (alen x + 1)) - alen out) with (alen x + 5) by lia. by apply (wp_write_length _ out junk (x ++ [z2b 0])).
Qed.

Lemma emits_write_binary d : 1 <= alen d -> alen d <= INT_MAX -> emits (write_binary d) tt (le_split 4 (alen d - 1) ++ d).
Proof.
  intros H1 Hd b out Q K Hl HQ. rewrite !alen_app, alen_le_split in Hl. unfold write_binary. wp_step.
  apply (wp_reserve_length b out); [done|lia|]. intros b1 junk Hj K1. wp_step.
  apply (emits_write_raw d Hd b1 (out ++ junk)); [done|rewrite alen_app; lia|]. intros b2 K2. rewrite <- app_assoc in K2.
  rewrite swrap_small by (unfold in_s, INT_MAX in *; lia). by apply (wp_write_length _ out junk d).
Qed.

(** ** UTF-8 *)

(** The encoding of a code point. *)
Definition utf8 (c : Z) : bytes :=
  z2b <$>
  if c <? 0x80 then [c]
  else if c <? 0x800 then [192 + c / 64; 128 + c mod 64]
  else if c <? 0x10000 then [224 + c / 4096; 128 + (c / 64) mod 64; 128 + c mod 64]
  else [240 + c / 262144; 128 + (c / 4096) mod 64; 128 + (c / 64) mod 64; 128 + c mod 64].

Definition utf8_text (s : bytes) : Prop :=
  exists cs, Forall (fun c => 0 <= c <= MAXUNICODE) cs /\ s = mjoin (utf8 <$> cs).

(** A statement about every byte can be computed. *)
Lemma all_bytes (P : Z -> bool) : forallb P (seqZ 0 256) = true -> forall b, P (b2z b) = true.
Proof.
  intros H b. rewrite forallb_forall in H. apply H. apply list_elem_of_In, elem_of_seqZ. pose proof (b2z_range b). lia.
Qed.

(** The first byte of a character, and its number of ones minus one. *)
Definition leading (b : Z) : Z := u32 (s8 b).
Definition followers (b : Z) : Z :=
  if b <? 192 then 0 else if b <? 224 then 1 else if b <? 240 then 2 else if b <? 248 then 3
  else if b <? 252 then 4 else if b <? 254 then 5 else if b <? 255 then 6 else 7.

Definition shifted (n : nat) (c : Z) : Z := Nat.iter n (fun c => u32 (Z.shiftl c 1)) c.

Lemma lead_bit b n :
  128 <= b2z b -> (n <= Z.to_nat (followers (b2z b)))%nat ->
  (Z.land (shifted n (leading (b2z b))) 0x40 =? 0) = (Z.of_nat n =? followers (b2z b)).
Proof.
  intros Hb Hn. assert (n < 8)%nat as Hn8 by (unfold followers in Hn; repeat case_match; lia).
  pose proof (all_bytes (fun b => (b <? 128) || forallb (fun n => (Z.to_nat (followers b) <? n)%nat ||
    eqb (Z.land (shifted n (leading b)) 0x40 =? 0) (Z.of_nat n =? followers b)) (seq 0 8)) ltac:(vm_compute; reflexivity) b) as H.
  cbv beta in H. apply orb_prop in H as [H|H]; [lia|]. rewrite forallb_forall in H.
  specialize (H n ltac:(apply in_seq; lia)). apply orb_prop in H as [H|H]; [apply Nat.ltb_lt in H; lia|]. by apply eqb_prop.
Qed.

Lemma lead_value b :
  192 <= b2z b < 248 ->
  Z.land (shifted (Z.to_nat (followers (b2z b))) (leading (b2z b))) 0x7F * 2 ^ (followers (b2z b) * 5) =
  b2z b mod 2 ^ (6 - followers (b2z b)) * 2 ^ (followers (b2z b) * 6).
Proof.
  intros Hb. pose proof (all_bytes (fun b => (b <? 192) || (248 <=? b) ||
    (Z.land (shifted (Z.to_nat (followers b)) (leading b)) 0x7F * 2 ^ (followers b * 5) =? b mod 2 ^ (6 - followers b) * 2 ^ (followers b * 6)))
    ltac:(vm_compute; reflexivity) b) as H. cbv beta in H. apply orb_prop in H as [H|H]; [|lia].
  apply orb_prop in H as [H|H]; lia.
Qed.

Definition follower (b : byte) : bool := (128 <=? b2z b) && (b2z b <? 192).

Lemma follower_bits b : (Z.land (s8 (b2z b)) 0xC0 =? 0x80) = follower b /\ (follower b = true -> Z.land (s8 (b2z b)) 0x3F = b2z b - 128).
Proof.
  pose proof (all_bytes (fun b => eqb (Z.land (s8 b) 0xC0 =? 0x80) ((128 <=? b) && (b <? 192)) &&
    (negb ((128 <=? b) && (b <? 192)) || (Z.land (s8 b) 0x3F =? b - 128))) ltac:(vm_compute; reflexivity) b) as H.
  cbv beta in H. apply andb_prop in H as [H1 H2]. apply eqb_prop in H1. split; [done|]. unfold follower. intros E. rewrite E in H2. simpl in H2. lia.
Qed.

(** The number that the bits of the following bytes form. *)
Definition follower_bits_of (cs : bytes) : Z := foldl (fun r b => r * 64 + (b2z b - 128)) 0 cs.

Lemma follower_bits_snoc cs b : follower_bits_of (cs ++ [b]) = follower_bits_of cs * 64 + (b2z b - 128).
Proof. unfold follower_bits_of. by rewrite foldl_app. Qed.

Lemma follower_bits_range cs : Forall (fun b => follower b = true) cs -> 0 <= follower_bits_of cs < 64 ^ alen cs.
Proof.
  induction cs as [|cs b IH] using rev_ind; [done|]. rewrite Forall_app, Forall_singleton. intros [H Hb]. specialize (IH H).
  rewrite follower_bits_snoc, alen_snoc, Z.pow_add_r by (try apply alen_nonneg; lia). unfold follower in Hb. lia.
Qed.

(** The number of a character of at least two bytes, and the length [utf8_copy] gives. *)
Definition char_value (b : byte) (cs : bytes) : Z := b2z b mod 2 ^ (6 - alen cs) * 64 ^ alen cs + follower_bits_of cs.
Definition char_length (b : byte) (cs : bytes) : Z :=
  if (MAXUNICODE <? char_value b cs) || (char_value b cs <=? default 0 (aget limits (alen cs))) then 0 else alen cs + 1.

Section character.
Context (b : byte) (cs r : bytes) (limit : Z) (Hb : 192 <= b2z b < 248) (Hf : followers (b2z b) = alen cs)
  (Hcs : Forall (fun b => follower b = true) cs) (Hl : alen cs < limit).

Lemma character_length : 1 <= alen cs <= 3.
Proof using Hb Hf. unfold followers in Hf. repeat case_match; lia. Qed.

Lemma utf8_follow_last st :
  utf8_follow (b :: cs ++ r) limit (alen cs, shifted (length cs) (leading (b2z b)), follower_bits_of cs) st = Done (inr (char_length b cs)) st.
Proof using Hb Hf Hcs.
  pose proof character_length. pose proof (follower_bits_range cs Hcs). unfold utf8_follow.
  rewrite lead_bit by (rewrite ?Hf, ?alen_length; lia). rewrite Hf, alen_length, Z.eqb_refl. cbn [negb]. rewrite <- alen_length.
  unfold require. destruct (Z.ltb_spec (alen cs * 5) 32); [|lia]. unfold mbind, M_bind, mret, M_ret. do 2 f_equal. unfold char_length.
  pose proof (lead_value b Hb) as E. rewrite Hf, <- Z.shiftl_mul_pow2 in E by lia.
  replace (Z.to_nat (alen cs)) with (length cs) in E by (rewrite alen_length; lia). rewrite E.
  replace (alen cs * 6) with (6 * alen cs) by lia. rewrite Z.pow_mul_r by lia. change (2 ^ 6) with 64.
  assert (Z.lor (follower_bits_of cs) (u32 (b2z b mod 2 ^ (6 - alen cs) * 64 ^ alen cs)) = char_value b cs) as ->.
  { rewrite uwrap_small.
    - change 64 with (2 ^ 6) at 1. rewrite <- Z.pow_mul_r, <- Z.shiftl_mul_pow2, lor_shiftl by (try split; lia || (rewrite Z.pow_mul_r by lia; apply H0)).
      rewrite Z.pow_mul_r by lia. unfold char_value. change (2 ^ 6) with 64. lia.
    - pose proof (Z.mod_pos_bound (b2z b) (2 ^ (6 - alen cs)) ltac:(lia)).
      assert (2 ^ (6 - alen cs) * 64 ^ alen cs <= 2 ^ 21); [|nia].
      change 64 with (2 ^ 6). rewrite <- Z.pow_mul_r, <- Z.pow_add_r by lia. apply Z.pow_le_mono_r; lia. }
  destruct (Z.ltb_spec 3 (alen cs)); [lia|]. done.
Qed.

Lemma utf8_follow_more pre x post st :
  cs = pre ++ x :: post ->
  utf8_follow (b :: cs ++ r) limit (alen pre, shifted (length pre) (leading (b2z b)), follower_bits_of pre) st =
  Done (inl (alen (pre ++ [x]), shifted (length (pre ++ [x])) (leading (b2z b)), follower_bits_of (pre ++ [x]))) st.
Proof using All.
  intros E. pose proof character_length. assert (alen pre + 1 + alen post = alen cs) by (rewrite E, alen_app, alen_cons; lia).
  pose proof (alen_nonneg pre). pose proof (alen_nonneg post). assert (Z.of_nat (length pre) = alen pre) by (by rewrite alen_length).
  rewrite E, Forall_app, Forall_cons in Hcs. destruct Hcs as (Hpre & Hx & _). pose proof (follower_bits_range pre Hpre).
  assert (64 ^ alen pre <= 64 ^ 2) by (apply Z.pow_le_mono_r; lia).
  unfold utf8_follow. rewrite lead_bit by (rewrite ?Hf; lia). destruct (Z.eqb_spec (Z.of_nat (length pre)) (followers (b2z b))); [lia|]. cbn [negb].
  rewrite aget_cons by lia. rewrite aget_app_l by lia. rewrite E at 1. rewrite aget_app_r, Z.sub_diag, aget_cons_0 by lia.
  unfold deref, mbind, M_bind, mret, M_ret. destruct (Z.leb_spec limit (alen pre + 1)); [lia|].
  destruct (follower_bits x) as [-> Hv]. rewrite Hx. cbn [orb negb]. rewrite (Hv Hx). unfold follower in Hx.
  do 2 f_equal. rewrite follower_bits_snoc, length_app, alen_snoc, Nat.add_comm. do 2 f_equal. rewrite Z.lor_comm, uwrap_small.
  - rewrite lor_shiftl; lia.
  - rewrite Z.shiftl_mul_pow2; lia.
Qed.

Lemma utf8_loop pre post fuel st :
  cs = pre ++ post -> (length post < fuel)%nat ->
  loop fuel (utf8_follow (b :: cs ++ r) limit) (alen pre, shifted (length pre) (leading (b2z b)), follower_bits_of pre) st = Done (char_length b cs) st.
Proof using All.
  revert pre fuel. induction post as [|x post IH]; intros pre [|fuel] E Hfu; cbn [length] in Hfu; [lia| |lia|]; cbn [loop].
  - rewrite app_nil_r in E. rewrite <- E. by erewrite bind_Done by apply utf8_follow_last.
  - erewrite bind_Done by (by eapply utf8_follow_more). apply IH; [by rewrite <- app_assoc|lia].
Qed.

Lemma utf8_copy_char st : utf8_copy (b :: cs ++ r) limit st = Done (char_length b cs) st.
Proof using All.
  pose proof character_length. unfold utf8_copy. rewrite aget_cons_0. rewrite (bind_Done _ _ b st st eq_refl). cbv zeta.
  destruct (Z.ltb_spec limit 1); [lia|]. change (u32 (s8 (b2z b))) with (leading (b2z b)).
  assert ((leading (b2z b) <? 0x80) = false) as ->.
  { pose proof (all_bytes (fun b => (b <? 192) || negb (leading b <? 0x80)) ltac:(vm_compute; reflexivity) b) as H1. cbv beta in H1.
    destruct (Z.ltb_spec (b2z b) 192); [lia|]. simpl in H1. by apply negb_true_iff. }
  apply (utf8_loop [] cs 8 st); [done|]. rewrite alen_length in *. lia.
Qed.
End character.

(** The encodings of two to four bytes are the characters that are not longer than they
    have to be. *)
Lemma utf8_shape c :
  0x80 <= c <= MAXUNICODE ->
  exists b cs, utf8 c = b :: cs /\ 192 <= b2z b < 248 /\ followers (b2z b) = alen cs /\
    Forall (fun b => follower b = true) cs /\ char_length b cs = alen cs + 1.
Proof.
  unfold MAXUNICODE. intros Hc. unfold utf8. destruct (Z.ltb_spec c 0x80); [lia|].
  assert (forall x, b2z (z2b (128 + x mod 64)) = 128 + x mod 64) as Hv by (intros x; apply b2z_z2b_small; dlia).
  assert (forall x, follower (z2b (128 + x mod 64)) = true) as Hfo by (intros x; unfold follower; rewrite Hv; assert (0 <= x mod 64 < 64) by dlia; lia).
  assert (forall k x cs, b2z (z2b x) = x -> 192 <= x < 248 -> followers x = alen cs -> alen cs = k -> Forall (fun b => follower b = true) cs ->
    x mod 2 ^ (6 - k) * 64 ^ k + follower_bits_of cs = c -> default 0 (aget limits k) < c ->
    exists b cs', z2b x :: cs = b :: cs' /\ 192 <= b2z b < 248 /\ followers (b2z b) = alen cs' /\
    Forall (fun b => follower b = true) cs' /\ char_length b cs' = alen cs' + 1) as Hk.
  { intros k x cs Hx Hr Hf <- Hcs Hval Hlim. exists (z2b x), cs. rewrite Hx. split_and!; try done; try lia.
    unfold char_length, char_value. rewrite Hx, Hval. unfold MAXUNICODE. zcase; simpl; lia. }
  destruct (Z.ltb_spec c 0x800); [|destruct (Z.ltb_spec c 0x10000)]; cbn [fmap list_fmap].
  - apply (Hk 1); [apply b2z_z2b_small; dlia|dlia|unfold followers; repeat case_match; (done || dlia)|done|by repeat constructor| |].
    + unfold follower_bits_of. cbn [foldl]. rewrite !Hv. change (2 ^ (6 - 1)) with 32. change (64 ^ 1) with 64. dlia.
    + change (default 0 (aget limits 1)) with 0x7F. lia.
  - apply (Hk 2); [apply b2z_z2b_small; dlia|dlia|unfold followers; repeat case_match; (done || dlia)|done|by repeat constructor| |].
    + unfold follower_bits_of. cbn [foldl]. rewrite !Hv. change (2 ^ (6 - 2)) with 16. change (64 ^ 2) with 4096. dlia.
    + change (default 0 (aget limits 2)) with 0x7FF. lia.
  - apply (Hk 3); [apply b2z_z2b_small; dlia|dlia|unfold followers; repeat case_match; (done || dlia)|done|by repeat constructor| |].
    + unfold follower_bits_of. cbn [foldl]. rewrite !Hv. change (2 ^ (6 - 3)) with 8. change (64 ^ 3) with 262144. dlia.
    + change (default 0 (aget limits 3)) with 0xFFFF. lia.
Qed.

Lemma utf8_char b cs :
  192 <= b2z b < 248 -> followers (b2z b) = alen cs -> Forall (fun b => follower b = true) cs -> char_length b cs <> 0 ->
  0 <= char_value b cs <= MAXUNICODE /\ utf8 (char_value b cs) = b :: cs.
Proof.
  intros Hb Hf Hcs Hn. pose proof (character_length b cs Hb Hf) as Hlen. pose proof (follower_bits_range cs Hcs) as Hr.
  pose proof (Z.mod_pos_bound (b2z b) (2 ^ (6 - alen cs)) ltac:(lia)) as Hm.
  unfold char_length in Hn. destruct (Z.ltb_spec MAXUNICODE (char_value b cs)) as [|Hmax]; [done|].
  destruct (Z.leb_spec (char_value b cs) (default 0 (aget limits (alen cs)))) as [|Hmin]; [done|]. clear Hn.
  split; [unfold char_value in *; nia|]. unfold MAXUNICODE in Hmax. rewrite <- (z2b_b2z b) at 2.
  assert (forall x, follower x = true -> exists y, x = z2b (128 + y) /\ b2z x = 128 + y /\ 0 <= y < 64) as Hfo.
  { intros x Hx. unfold follower in Hx. exists (b2z x - 128). replace (128 + (b2z x - 128)) with (b2z x) by lia. split_and!; [by rewrite z2b_b2z|lia..]. }
  assert (forall k, followers (b2z b) = k -> 1 <= k <= 3 -> exists h, b2z b = 256 - 2 ^ (7 - k) + h /\ 0 <= h < 2 ^ (6 - k) /\ b2z b mod 2 ^ (6 - k) = h) as Hh.
  { clear. intros k Hk Hr. exists (b2z b - (256 - 2 ^ (7 - k))).
    assert (k = 1 /\ 192 <= b2z b < 224 \/ k = 2 /\ 224 <= b2z b < 240 \/ k = 3 /\ 240 <= b2z b < 248) as [[-> ?]|[[-> ?]|[-> ?]]]
      by (unfold followers in Hk; repeat case_match; lia); simpl Z.sub; simpl Z.pow; (split_and!; dlia). }
  destruct cs as [|x1 [|x2 [|x3 [|x4 cs]]]]; rewrite ?alen_cons, ?alen_nil in Hlen; [lia| | | |pose proof (alen_nonneg cs); lia];
    rewrite !Forall_cons in Hcs; destruct_and! Hcs;
    repeat match goal with H : follower ?x = true |- _ => apply Hfo in H as (? & -> & ? & ?) end;
    unfold char_value, follower_bits_of in *; cbn [foldl] in *;
    repeat match goal with H : b2z (z2b ?x) = ?x |- _ => rewrite H in *; clear H end.
  - change (alen _) with 1 in *. destruct (Hh 1) as (h & Eb & Hh1 & E); [done..|]. rewrite E, Eb in *. change (default 0 _) with 0x7F in Hmin.
    unfold utf8. simpl Z.pow in *. zcase; try lia. simpl. repeat f_equal; dlia.
  - change (alen _) with 2 in *. destruct (Hh 2) as (h & Eb & Hh1 & E); [done..|]. rewrite E, Eb in *. change (default 0 _) with 0x7FF in Hmin.
    unfold utf8. simpl Z.pow in *. zcase; try lia. simpl. repeat f_equal; dlia.
  - change (alen _) with 3 in *. destruct (Hh 3) as (h & Eb & Hh1 & E); [done..|]. rewrite E, Eb in *. change (default 0 _) with 0xFFFF in Hmin.
    unfold utf8. simpl Z.pow in *. zcase; try lia. simpl. repeat f_equal; dlia.
Qed.

(** What [utf8_copy] takes for a character has the shape of one. *)
Lemma utf8_loop_sound b pre post limit fuel res st n st' :
  128 <= b2z b -> Forall (fun b => follower b = true) pre -> alen pre <= followers (b2z b) -> alen pre < limit ->
  loop fuel (utf8_follow (b :: pre ++ post) limit) (alen pre, shifted (length pre) (leading (b2z b)), res) st = Done n st' -> n <> 0 ->
  exists cs r, pre ++ post = cs ++ r /\ Forall (fun b => follower b = true) cs /\ followers (b2z b) = alen cs /\ alen cs < limit /\ alen cs <= 3.
Proof.
  intros Hb. revert pre post res. induction fuel as [|fuel IH]; intros pre post res Hpre Hf Hl; [done|]. cbn [loop].
  pose proof (alen_nonneg pre). rewrite alen_length in Hf. unfold mbind at 1, M_bind at 1. unfold utf8_follow at 1.
  rewrite lead_bit by lia. destruct (Z.eqb_spec (Z.of_nat (length pre)) (followers (b2z b))) as [E|Hne]; cbn [negb].
  - unfold require. destruct (alen pre * 5 <? 32); [|done]. unfold mbind, M_bind, mret, M_ret. destruct (Z.ltb_spec 3 (alen pre)); [by intros [= <- _]|].
    intros _ _. exists pre, post. by split_and!; try done.
  - rewrite aget_cons by lia. rewrite aget_app_r, Z.sub_diag by lia. destruct post as [|x post]; [done|]. rewrite aget_cons_0.
    unfold deref, mbind, M_bind, mret, M_ret. destruct (follower_bits x) as [-> _].
    destruct (Z.leb_spec limit (alen pre + 1)); [by intros [= <- _]|]. destruct (follower x) eqn:Hx; [|by intros [= <- _]]. cbn [orb negb].
    intros Hd Hn. assert (pre ++ x :: post = (pre ++ [x]) ++ post) as E by (by rewrite <- app_assoc). rewrite E in *.
    rewrite <- alen_snoc with (x := x) in Hd. change (u32 (Z.shiftl ?c 1)) with (shifted 1 c) in Hd.
    unfold shifted in Hd. rewrite <- Nat.iter_add in Hd. replace (1 + length pre)%nat with (length (pre ++ [x])) in Hd by (rewrite length_app; cbn; lia).
    eapply IH; [by apply Forall_app_2, Forall_singleton|rewrite alen_snoc, alen_length; lia|rewrite alen_snoc; lia|exact Hd|done].
Qed.

Lemma utf8_copy_unfold b s limit st :
  1 <= limit -> 128 <= b2z b -> utf8_copy (b :: s) limit st = loop 8 (utf8_follow (b :: s) limit) (0, leading (b2z b), 0) st.
Proof.
  intros Hl Hb. unfold utf8_copy. rewrite aget_cons_0. rewrite (bind_Done _ _ b st st eq_refl). cbv zeta.
  destruct (Z.ltb_spec limit 1); [lia|]. change (u32 (s8 (b2z b))) with (leading (b2z b)).
  pose proof (all_bytes (fun b => (b <? 128) || negb (leading b <? 0x80)) ltac:(vm_compute; reflexivity) b) as Hs. cbv beta in Hs.
  destruct (Z.ltb_spec (b2z b) 128); [lia|]. simpl in Hs. apply negb_true_iff in Hs. by rewrite Hs.
Qed.

Lemma utf8_copy_ascii c s limit st : 0 <= c < 0x80 -> 1 <= limit -> utf8_copy (utf8 c ++ s) limit st = Done 1 st.
Proof.
  intros Hc Hl. unfold utf8, utf8_copy. destruct (Z.ltb_spec c 0x80); [|lia]. cbn [fmap list_fmap app]. rewrite aget_cons_0. rewrite (bind_Done _ _ (z2b c) st st eq_refl). cbv zeta. destruct (Z.ltb_spec limit 1); [lia|]. change (u32 (s8 ?b)) with (leading b).
  pose proof (all_bytes (fun b => (128 <=? b) || (leading b <? 0x80)) ltac:(vm_compute; reflexivity) (z2b c)) as Hs. cbv beta in Hs.
  rewrite b2z_z2b_small in * by lia. destruct (Z.leb_spec 128 c); [lia|]. simpl in Hs. by rewrite Hs.
Qed.

(** A byte that can only follow others is no character. *)
Lemma utf8_copy_follower b s limit st : 128 <= b2z b < 192 -> 1 <= limit -> utf8_copy (b :: s) limit st = Done 0 st.
Proof.
  intros Hb Hl. rewrite utf8_copy_unfold by lia. cbn [loop]. unfold mbind at 1, M_bind at 1. unfold utf8_follow at 1.
  pose proof (lead_bit b 0 ltac:(lia) ltac:(lia)) as E. change (shifted 0 ?x) with x in E. rewrite E. unfold followers.
  destruct (Z.ltb_spec (b2z b) 192); [|lia]. change (Z.of_nat 0 =? 0) with true. cbn [negb]. change (require _ _) with (mret tt : Wr unit).
  unfold mbind, M_bind, mret, M_ret. do 2 f_equal.
  pose proof (all_bytes (fun b => Z.lor 0 (u32 (Z.shiftl (Z.land (leading b) 0x7F) (0 * 5))) <=? 0xFF) ltac:(vm_compute; reflexivity) b) as Hs.
  cbv beta in Hs. change (default 0 _) with 0xFF. rewrite Hs. by rewrite orb_true_r.
Qed.

Lemma utf8_copy_sound s limit st n st' :
  utf8_copy s limit st = Done n st' -> 1 <= limit -> n <> 0 ->
  exists c, 0 <= c <= MAXUNICODE /\ n = alen (utf8 c) /\ utf8 c = take (Z.to_nat n) s /\ n <= limit.
Proof.
  intros Hd Hl Hn. destruct s as [|b s]; [done|]. pose proof (b2z_range b). unfold MAXUNICODE.
  destruct (decide (b2z b < 128)); [|destruct (decide (b2z b < 192))].
  - assert (utf8 (b2z b) = [b]) as E by (unfold utf8; destruct (Z.ltb_spec (b2z b) 0x80); [cbn; by rewrite z2b_b2z|lia]).
    change (b :: s) with ([b] ++ s) in Hd. rewrite <- E, utf8_copy_ascii in Hd by lia. injection Hd as <- _.
    exists (b2z b). rewrite E. by split_and!; try lia.
  - rewrite utf8_copy_follower in Hd by lia. by injection Hd as <- _.
  - pose proof Hd as Hd'. rewrite utf8_copy_unfold in Hd' by lia.
    destruct (utf8_loop_sound b [] s limit 8 0 st n st') as (cs & r & E & Hcs & Hf & Hl' & H3); [lia|done| |rewrite alen_nil; lia|done|done|].
    { unfold followers. rewrite alen_nil. repeat case_match; lia. }
    cbn [app] in E. subst s. assert (192 <= b2z b < 248) as Hr by (unfold followers in Hf; repeat case_match; lia).
    rewrite utf8_copy_char in Hd by done. injection Hd as <- _. destruct (utf8_char b cs Hr Hf Hcs Hn) as [Hv E].
    exists (char_value b cs). unfold MAXUNICODE in *. rewrite E, alen_cons. unfold char_length in *. case_match; [done|].
    split_and!; [lia..| |lia]. rewrite alen_length. replace (Z.to_nat _) with (S (length cs)) by lia. cbn. by rewrite take_app_length.
Qed.

(** The character at the start of a text. *)
Lemma utf8_copy_text c s limit st :
  0 <= c <= MAXUNICODE -> alen (utf8 c) <= limit -> utf8_copy (utf8 c ++ s) limit st = Done (alen (utf8 c)) st.
Proof.
  intros Hc Hl. destruct (decide (c < 0x80)).
  - assert (alen (utf8 c) = 1) as E by (unfold utf8; destruct (Z.ltb_spec c 0x80); [done|lia]). rewrite E in *. by apply utf8_copy_ascii; lia.
  - destruct (utf8_shape c ltac:(lia)) as (b & cs & E & Hb & Hf & Hcs & Hlen). rewrite E, alen_cons in *. cbn [app].
    rewrite utf8_copy_char by (done || lia). by rewrite Hlen.
Qed.

Lemma utf8_nonempty c : 1 <= alen (utf8 c).
Proof. unfold utf8. rewrite alen_length, length_fmap. repeat case_match; cbn; lia. Qed.

Lemma utf8_text_cons c s : 0 <= c <= MAXUNICODE -> utf8_text s -> utf8_text (utf8 c ++ s).
Proof. intros Hc (cs & H & ->). exists (c :: cs). split; [by constructor|done]. Qed.

(** ** Strings *)

Lemma wp_write_chars cs n fuel b out Q :
  Forall (fun c => 0 <= c <= MAXUNICODE) cs -> wr_at n b out -> alen out + alen (mjoin (utf8 <$> cs)) <= cap b -> (length cs < fuel)%nat ->
  (forall b', wr_at n b' (out ++ mjoin (utf8 <$> cs)) -> cap b' = cap b -> Q tt b') ->
  wpd (loop fuel write_char (mjoin (utf8 <$> cs) ++ [z2b 0], alen out, alen (mjoin (utf8 <$> cs)))) Q b.
Proof.
  intros Hcs. revert fuel b out. induction Hcs as [|c cs Hc Hcs IH]; intros [|fuel] b out K Hcap Hf HQ; cbn [length] in Hf; [lia| |lia|]; cbn [loop].
  - wp_step. change (alen (mjoin _)) with (alen ([] : bytes)). rewrite alen_nil. unfold write_char. change (0 <? 0) with false. cbv iota. do 2 wp_step. apply HQ; [|done]. by rewrite app_nil_r.
  - cbn [fmap list_fmap] in *. rewrite mjoin_cons in *. change (list_fmap _ _ utf8 cs) with (utf8 <$> cs) in *. set (rest := mjoin (utf8 <$> cs)) in *.
    rewrite alen_app in *. pose proof (alen_nonneg rest). pose proof (utf8_nonempty c). rewrite <- app_assoc. wp_step. unfold write_char.
    destruct (Z.ltb_spec 0 (alen (utf8 c) + alen rest)); [|lia]. wp_step. eapply wp_Done; [apply utf8_copy_text; [done|lia]|].
    destruct (Z.eqb_spec (alen (utf8 c)) 0); [lia|]. wp_step. rewrite (alen_length (utf8 c)), Nat2Z.id, take_app_length, drop_app_length, <- alen_length.
    apply (wp_store_next n out); [done|done|lia|]. intros b1 K1 Hc1. wp_step. replace (alen (utf8 c) + alen rest - alen (utf8 c)) with (alen rest) by lia.
    rewrite <- alen_app. apply IH; [done|rewrite alen_app; lia|lia|]. intros b2. rewrite <- app_assoc, Hc1. apply HQ.
Qed.

Lemma length_utf8_text cs : (length cs <= length (mjoin (utf8 <$> cs)))%nat.
Proof.
  rewrite <- (Nat.mul_1_l (length cs)). apply length_mjoin_ge. intros c _. pose proof (utf8_nonempty c) as H. rewrite alen_length in H. lia.
Qed.

Lemma emits_write_string key : utf8_text key -> emits (write_string key) tt (key ++ [z2b 0]).
Proof.
  intros (cs & Hcs & E) b out Q K Hl HQ. rewrite alen_snoc in Hl. pose proof (alen_nonneg key). pose proof (alen_nonneg out). unfold wr_limit in *.
  unfold write_string. wp_step. rewrite swrap_small by (unfold in_s; lia).
  apply (wp_bson_reserve (alen key + 1) b out); [done|lia|unfold wr_limit; lia|]. intros b1 K1 Hcap. do 3 wp_step. rewrite (proj1 (proj2 K1)).
  pose proof (length_utf8_text cs). rewrite E at 1 2 3.
  apply (wp_write_chars cs (alen out)); [done|done|rewrite <- E; lia|lia|]. rewrite <- E. intros b2 K2 Hc2. wp_step.
  apply (wp_store_next (alen out) (out ++ key)); [done|by rewrite alen_app|rewrite alen_app; change (alen [z2b 0]) with 1; lia|].
  intros b3 K3 _. apply (wp_add_size (alen out) (alen key + 1) (out ++ key ++ [z2b 0])); [by rewrite app_assoc|rewrite alen_app, alen_snoc; lia|done].
Qed.

(** A string that is copied to its end is a sequence of characters. *)
Lemma write_chars_sound s fuel dst b u b' :
  loop fuel write_char (s ++ [z2b 0], dst, alen s) b = Done u b' -> utf8_text s.
Proof.
  revert s dst b. induction fuel as [|fuel IH]; intros s dst b; [done|]. cbn [loop]. unfold mbind at 1, M_bind at 1. unfold write_char at 1.
  destruct (Z.ltb_spec 0 (alen s)) as [Hs|Hs].
  - unfold mbind at 1, M_bind at 1. destruct (utf8_copy (s ++ [z2b 0]) (alen s) b) as [n b1| |] eqn:E; [|done..].
    destruct (Z.eqb_spec n 0); [done|]. destruct (utf8_copy_sound _ _ _ _ _ E ltac:(lia) ltac:(done)) as (c & Hc & -> & Et & Hn).
    rewrite alen_length, Nat2Z.id in Et. rewrite !alen_length in Hn. rewrite take_app_le in Et by lia.
    assert (s = utf8 c ++ drop (length (utf8 c)) s) as Es by (rewrite Et at 1; by rewrite take_drop).
    unfold mbind, M_bind. destruct (store_at _ _ b1) as [[] b2| |]; [|done..]. unfold mret, M_ret. intros Hd.
    rewrite Es. apply utf8_text_cons; [done|]. rewrite (alen_length (utf8 c)), Nat2Z.id, drop_app_le in Hd by lia.
    replace (alen s - Z.of_nat (length (utf8 c))) with (alen (drop (length (utf8 c)) s)) in Hd by (rewrite !alen_length, length_drop; lia).
    by apply IH in Hd.
  - intros _. assert (s = []) as -> by (apply alen_0; pose proof (alen_nonneg s); lia). by exists [].
Qed.

(** C35: [write_string] writes a string and a zero if and only if the string is UTF-8: a
    sequence of shortest encodings of code points up to 0x10FFFF. *)
Theorem write_string_utf8 b out key :
  wr_ok b out -> alen out + alen key + 1 <= wr_limit ->
  ((exists b', write_string key b = Done tt b') <-> utf8_text key) /\
  (forall b', write_string key b = Done tt b' -> wr_ok b' (out ++ key ++ [z2b 0])).
Proof.
  intros K Hl. assert ((exists b', write_string key b = Done tt b') -> utf8_text key) as Hs.
  { intros [b' Hd]. unfold write_string in Hd. unfold mbind at 1, M_bind at 1 in Hd. destruct (bson_reserve _ b) as [[] b1| |]; [|done..].
    unfold get, mbind, M_bind in Hd. destruct (loop _ _ _ b1) as [u b2| |] eqn:E; [|done..]. by eapply write_chars_sound. }
  assert (utf8_text key -> exists b', write_string key b = Done tt b' /\ wr_ok b' (out ++ key ++ [z2b 0])) as Hc.
  { intros Ht. assert (wpd (write_string key) (fun _ b' => wr_ok b' (out ++ key ++ [z2b 0])) b) as W
      by (apply (emits_write_string key Ht b out); [done|rewrite alen_snoc; lia|done]).
    apply wpd_Done in W as ([] & b' & E & Kb). eauto. }
  split; [split; [done|]|].
  - intros Ht. destruct (Hc Ht) as (b' & E & _). eauto.
  - intros b' E. destruct (Hc (Hs (ex_intro _ b' E))) as (b2 & E2 & Kb). congruence.
Qed.

Lemma write_string_utf8_witness :
  exists b', write_string (z2b <$> [104; 0xC3; 0xA9]) bson_create = Done tt b' /\ wr_ok b' (z2b <$> [104; 0xC3; 0xA9; 0]).
Proof.
  destruct (write_string_utf8 bson_create [] (z2b <$> [104; 0xC3; 0xA9])) as [[_ H1] H2]; [apply wr_ok_create|done|].
  destruct H1 as [b' E]; [|exists b'; split; [done|exact (H2 b' E)]].
  exists [104; 0xE9]. split; [repeat constructor; done|vm_compute; reflexivity].
Defined.

(** ** Elements *)

(** An element of a document: its type, its name and its value. *)
Definition element (type : Z) (key body : bytes) : bytes := z2b type :: key ++ [z2b 0] ++ body.

Lemma emits_element type key m body :
  utf8_text key -> emits m tt body -> emits (append_key type key;; m) tt (element type key body).
Proof.
  intros Hk Hm. unfold element, append_key. change (z2b type :: ?l) with ([z2b type] ++ l). rewrite !app_assoc.
  eapply emits_bind; [|exact Hm]. rewrite <- app_assoc. eapply emits_bind; [apply emits_bson_byte|by apply emits_write_string].
Qed.

(** The strings that stand for values of other types: what follows the type in the string, and
    the bytes of the value. *)
Definition special_ok (subt : Z) (body : bytes) : Prop :=
  if subt =? BSON_BINARY then 1 <= alen body <= INT_MAX
  else if subt =? BSON_OBJECTID then alen body = 12
  else if subt =? BSON_JSCODE then exists d, body = le_split 4 (alen d) ++ d /\ alen body <= INT_MAX
  else if subt =? BSON_SYMBOL then exists d, body = le_split 4 (alen d) ++ d /\ alen body <= INT_MAX
  else if subt =? BSON_DBPOINTER then exists d, body = le_split 4 (alen d - 12) ++ d /\ 12 <= alen d /\ alen body <= INT_MAX
  else if subt =? BSON_CODEWS then exists d, body = le_split 4 (alen d + 4) ++ d /\ alen body <= INT_MAX
  else if subt =? BSON_DATE then alen body = 4
  else if subt =? BSON_TIMESTAMP then alen body = 8
  else if subt =? BSON_REGEX then
    exists r1 r2, body = r1 ++ [z2b 0] ++ r2 ++ [z2b 0] /\ utf8_text r1 /\ utf8_text r2 /\ (z2b 0 ∉ r1) /\ z2b 0 ∉ r2
  else ((subt = BSON_MINKEY \/ subt = BSON_MAXKEY) \/ subt = BSON_NULL) /\ body = [].

Definition special_body (subt : Z) (body : bytes) : bytes :=
  if subt =? BSON_BINARY then le_split 4 (alen body - 1) ++ body
  else if subt =? BSON_DATE then le_split 8 (le_combine body * 1000)
  else body.

Lemma last_zero_none s : z2b 0 ∉ s -> last_zero s = None.
Proof.
  induction s as [|c s IH]; intros H; [done|]. apply not_elem_of_cons in H as [H1 H2]. cbn. rewrite (IH H2).
  destruct (Z.eqb_spec (b2z c) 0) as [E|]; [|done]. exfalso. apply H1. by rewrite <- (z2b_b2z c), E.
Qed.

Lemma last_zero_app a b : z2b 0 ∉ b -> last_zero (a ++ z2b 0 :: b) = Some (a, b).
Proof.
  intros H. induction a as [|c a IH]; cbn; [by rewrite last_zero_none|]. by rewrite IH.
Qed.

Lemma emits_special key subt body :
  utf8_text key -> special_ok subt body -> emits (append_special key subt body) tt (element subt key (special_body subt body)).
Proof.
  intros Hk Hs. apply emits_element; [done|]. cbv zeta. unfold special_ok, special_body in *.
  destruct (Z.eqb_spec subt BSON_BINARY); [apply emits_write_binary; apply Hs|].
  destruct (Z.eqb_spec subt BSON_OBJECTID) as [->|].
  { rewrite Hs. change (BSON_OBJECTID =? BSON_DATE) with false. apply emits_write_raw. by rewrite Hs. }
  destruct (Z.eqb_spec subt BSON_JSCODE) as [->|]; [destruct Hs as (d & _ & Hs); by apply emits_write_raw|].
  destruct (Z.eqb_spec subt BSON_DBPOINTER) as [->|]; [destruct Hs as (d & _ & _ & Hs); by apply emits_write_raw|].
  destruct (Z.eqb_spec subt BSON_SYMBOL) as [->|]; [destruct Hs as (d & _ & Hs); by apply emits_write_raw|].
  destruct (Z.eqb_spec subt BSON_CODEWS) as [->|]; [destruct Hs as (d & _ & Hs); by apply emits_write_raw|].
  cbn [orb]. destruct (Z.eqb_spec subt BSON_DATE); [rewrite Hs; apply emits_write_int64|].
  destruct (Z.eqb_spec subt BSON_TIMESTAMP).
  { rewrite Hs. change (negb (8 =? 8)) with false. cbv iota. rewrite alen_length in Hs.
    assert (forall d, length d = 4%nat -> d = le_split 4 (le_combine d)) as E by (intros d <-; symmetry; apply split_le_combine).
    enough (emits (write_int32 (le_combine (take 4 body));; write_int32 (le_combine (drop 4 body))) tt (take 4 body ++ drop 4 body)) as He by (by rewrite take_drop in He).
    rewrite (E (take 4 body)) at 2 by (rewrite length_take; lia). rewrite (E (drop 4 body)) at 1 by (rewrite length_drop; lia).
    eapply emits_bind; apply emits_write_int32. }
  destruct (Z.eqb_spec subt BSON_REGEX).
  { destruct Hs as (r1 & r2 & -> & H1 & H2 & _ & H4).
    assert (1 <= alen (r1 ++ [z2b 0] ++ r2 ++ [z2b 0])) as Hl by (rewrite !alen_app; change (alen [z2b 0]) with 1; pose proof (alen_nonneg r1); pose proof (alen_nonneg r2); lia).
    intros b out Q K Hlim HQ. wp_step. wp_step; [lia|]. set (body := r1 ++ _) in *.
    assert (take (Z.to_nat (alen body - 1)) body = r1 ++ z2b 0 :: r2) as E.
    { unfold body. rewrite !app_assoc. rewrite take_app_length'; [by rewrite <- app_assoc|]. rewrite alen_snoc, alen_length. lia. }
    assert (emits (write_string r1;; write_string r2) tt body) as He.
    { unfold body. rewrite app_assoc. eapply emits_bind; by apply emits_write_string. }
    rewrite E, last_zero_app by done. wp_step. wp_step; [done|]. by apply (He b out). }
  destruct Hs as [Hs ->]. repeat (destruct Hs as [Hs|Hs]); subst subt; apply emits_ret.
Qed.

Definition is_special (s : bytes) : option (Z * bytes) :=
  match s with
  | c0 :: c1 :: body => if b2z c0 =? 0 then Some (b2z c1, body) else None
  | _ => None
  end.

Definition str_ok (s : bytes) : Prop :=
  match is_special s with Some (subt, body) => special_ok subt body | None => utf8_text s /\ alen s < INT_MAX end.

Definition str_type (s : bytes) : Z := match is_special s with Some (subt, _) => subt | None => BSON_STRING end.

Definition str_body (s : bytes) : bytes :=
  match is_special s with
  | Some (subt, body) => special_body subt body
  | None => le_split 4 (alen s + 1) ++ s ++ [z2b 0]
  end.

Lemma emits_plain_str s :
  utf8_text s -> alen s < INT_MAX ->
  emits (off ← reserve_length; write_string s;; write_length (s32 (alen s + 1)) off) tt (le_split 4 (alen s + 1) ++ s ++ [z2b 0]).
Proof.
  intros Hs Hl b out Q K Hlim HQ. rewrite alen_app, alen_le_split in Hlim. wp_step. pose proof (alen_nonneg (s ++ [z2b 0])).
  apply (wp_reserve_length b out); [done|lia|]. intros b1 junk Hj K1. wp_step.
  apply (emits_write_string s Hs b1 (out ++ junk)); [done|rewrite alen_app; lia|]. intros b2 K2. rewrite <- app_assoc in K2.
  pose proof (alen_nonneg s). rewrite swrap_small by (unfold in_s, INT_MAX in *; lia). by apply (wp_write_length _ out junk (s ++ [z2b 0])).
Qed.

Lemma emits_str key s : utf8_text key -> str_ok s -> emits (append_str key s) tt (element (str_type s) key (str_body s)).
Proof.
  intros Hk Hs. unfold str_ok, str_type, str_body, is_special, append_str in *.
  destruct s as [|c0 [|c1 body]]; [|by apply emits_element; [|apply emits_plain_str; apply Hs]|].
  - by apply emits_element; [|apply emits_plain_str; apply Hs].
  - destruct (b2z c0 =? 0); [by apply emits_special|]. by apply emits_element; [|apply emits_plain_str; apply Hs].
Qed.

(** A name that can be read again. *)
Definition key_ok (k : bytes) : Prop := utf8_text k /\ z2b 0 ∉ k.

(** ** The names of an array's elements *)

Definition digits_only (s : bytes) : Prop := Forall (fun c => isdigit c = true) s.

Lemma digit_isdigit d : 0 <= d < 10 -> isdigit (digit d) = true /\ b2z (digit d) = 48 + d.
Proof. intros Hd. unfold isdigit, digit. rewrite b2z_z2b_small by lia. split; [lia|done]. Qed.

Lemma digits_snoc acc s d : digits_only s -> 0 <= d < 10 -> digits acc (s ++ [digit d]) = digits acc s * 10 + d.
Proof.
  intros Hs Hd. revert acc. induction Hs as [|c s Hc Hs IH]; intros acc; cbn [app digits].
  - destruct (digit_isdigit d Hd) as [-> ->]. lia.
  - by rewrite Hc, IH.
Qed.

Lemma decimal_pos_digits fuel n :
  0 <= n < 10 ^ (Z.of_nat fuel + 1) -> digits_only (decimal_pos fuel n) /\ digits 0 (decimal_pos fuel n) = n /\ decimal_pos fuel n <> [].
Proof.
  assert (forall n, 0 <= n < 10 -> digits_only [digit n] /\ digits 0 [digit n] = n /\ [digit n] <> []) as H1.
  { intros d Hd. destruct (digit_isdigit d Hd) as [E1 E2]. split_and!; [by repeat constructor| |done]. cbn. rewrite E1, E2. lia. }
  revert n. induction fuel as [|fuel IH]; intros n Hn; cbn [decimal_pos]; [by apply H1|]. destruct (Z.ltb_spec n 10); [apply H1; lia|].
  rewrite Nat2Z.inj_succ in Hn. replace (Z.succ (Z.of_nat fuel) + 1) with (Z.succ (Z.of_nat fuel + 1)) in Hn by lia. rewrite Z.pow_succ_r in Hn by lia.
  destruct (IH (n / 10)) as (Hd & Hv & _); [split; [apply Z.div_pos; lia|apply Z.div_lt_upper_bound; lia]|].
  assert (0 <= n mod 10 < 10) as Hm by (apply Z.mod_pos_bound; lia). split_and!.
  - apply Forall_app. split; [done|]. apply Forall_singleton. by apply digit_isdigit.
  - rewrite digits_snoc, Hv by done. dlia.
  - by destruct (decimal_pos fuel (n / 10)).
Qed.

Lemma ascii_utf8 s : Forall (fun c => b2z c < 0x80) s -> utf8_text s.
Proof.
  induction 1 as [|c s Hc _ IH]; [by exists []|]. pose proof (b2z_range c).
  assert (utf8 (b2z c) = [c]) as E by (unfold utf8; destruct (Z.ltb_spec (b2z c) 0x80); [cbn; by rewrite z2b_b2z|lia]).
  change (c :: s) with ([c] ++ s). rewrite <- E. apply utf8_text_cons; [unfold MAXUNICODE; lia|done].
Qed.

Lemma digits_key_ok s : digits_only s -> key_ok s.
Proof.
  intros Hs. split.
  - apply ascii_utf8. eapply Forall_impl; [exact Hs|]. intros c. unfold isdigit. lia.
  - intros H0. rewrite (Forall_forall (fun c => isdigit c = true)) in Hs. specialize (Hs _ H0). by vm_compute in Hs.
Qed.

Lemma numstr_digits i : 0 <= i < 2 ^ 32 -> digits_only (bson_numstr i) /\ strtol (bson_numstr i) = i /\ bson_numstr i <> [].
Proof.
  intros Hi. unfold bson_numstr. rewrite uwrap_small by lia. unfold decimal. destruct (Z.ltb_spec i 0); [lia|].
  destruct (decimal_pos_digits 19 i) as (Hd & Hv & Hn); [change (10 ^ (Z.of_nat 19 + 1)) with (10 ^ 20); lia|]. split_and!; [done| |done].
  set (s := decimal_pos 19 i) in *. unfold strtol. destruct s as [|c s]; [done|].
  apply Forall_cons in Hd as [Hc Hs]. cbn [skip_space].
  assert (48 <= b2z c <= 57) as Hr by (unfold isdigit in Hc; lia). assert (isspace c = false) as -> by (unfold isspace; lia).
  destruct (Z.eqb_spec (b2z c) 45); [lia|]. destruct (Z.eqb_spec (b2z c) 43); [lia|]. rewrite Hv. lia.
Qed.

(** ** Tables *)

Section values.
Context (meta_len : Z -> option value).

(** The elements of an array with the values 1 to [len], and of a dictionary. *)
Definition array_items (entries index : list (value * value)) (len : Z) : list (bytes * value) :=
  (fun i => (bson_numstr (i - 1), geti entries index i)) <$> seqZ 1 len.

Definition dict_items (l : list (value * value)) : option (list (bytes * value)) :=
  mapM (fun kv => match kv.1 with VStr k => Some (k, kv.2) | _ => None end) l.

(** The entries of what stands for a table with a name. *)
Definition saved (entries index : list (value * value)) : option (list (value * value)) :=
  match tlookup (VStr str_name) entries with
  | None => Some entries
  | Some _ =>
      match getfield entries index str_save_data with
      | VFunction (Some (VTable _ _ e _ _)) => Some e
      | VFunction _ => None
      | _ => Some entries
      end
  end.

(** A table is an array if it has a [__len] or if its border is its last key. *)
Definition children (v : value) : option (bool * list (bytes * value)) :=
  match v with
  | VTable addr rawlen entries index pairs =>
      match meta_len addr, pairs with
      | Some (VInt len), _ => if 0 <=? len then Some (true, array_items entries index len) else None
      | Some _, _ => None
      | None, Some pairs => pair false <$> dict_items pairs
      | None, None =>
          match (if 0 <? rawlen then lua_next (VInt rawlen) entries else Some (Some (VNil, VNil))) with
          | Some None => Some (true, array_items entries index rawlen)
          | Some (Some _) => e ← saved entries index; pair false <$> dict_items e
          | None => None
          end
      end
  | _ => None
  end.


Definition items_ok (arr : bool) (l : list (bytes * value)) : Prop :=
  if arr then alen l < INT_MAX else NoDup l.*1 /\ Forall (fun kv => key_ok kv.1) l.

(** The values that are encoded with [n] levels of tables. *)
Fixpoint packable (n : nat) (v : value) : Prop :=
  match v with
  | VBool _ => True
  | VInt z => in_s 64 z
  | VReal bits => 0 <= bits < 2 ^ 64
  | VStr s => str_ok s
  | VTable _ _ _ _ _ =>
      match n, children v with
      | S n, Some (arr, l) => items_ok arr l /\ Forall (fun kv => packable n kv.2) l
      | _, _ => False
      end
  | _ => False
  end.

Definition enc_type (v : value) : Z :=
  match v with
  | VBool _ => BSON_BOOLEAN
  | VInt z => if is_32bit z then BSON_INT32 else BSON_INT64
  | VStr s => str_type s
  | VTable _ _ _ _ _ => match children v with Some (true, _) => BSON_ARRAY | _ => BSON_DOCUMENT end
  | _ => BSON_REAL
  end.

Fixpoint enc_body (n : nat) (v : value) : bytes :=
  match v with
  | VBool b => [z2b (if b then 1 else 0)]
  | VInt z => le_split (if is_32bit z then 4 else 8) z
  | VReal bits => le_split 8 bits
  | VStr s => str_body s
  | VTable _ _ _ _ _ =>
      match n, children v with
      | S n, Some (_, l) => frame (mjoin ((fun kv => element (enc_type kv.2) kv.1 (enc_body n kv.2)) <$> l))
      | _, _ => []
      end
  | _ => []
  end.

Definition enc_items (n : nat) (l : list (bytes * value)) : bytes :=
  mjoin ((fun kv => element (enc_type kv.2) kv.1 (enc_body n kv.2)) <$> l).

(** *** What is written *)

Lemma emits_array_loop (f : Z -> bytes) (one : Z -> Wr unit) len k fuel i :
  (forall j, i <= j <= len -> emits (one j) tt (f j)) -> k = Z.to_nat (len - i + 1) -> (k < fuel)%nat ->
  emits (loop fuel (fun i => if i <=? len then one i;; mret (inl (i + 1)) else mret (inr tt)) i) tt (mjoin (f <$> seqZ i (len - i + 1))).
Proof.
  revert i fuel. induction k as [|k IH]; intros i [|fuel] H E Hf; [lia| |lia|]; cbn [loop].
  - destruct (Z.leb_spec i len); [lia|]. rewrite seqZ_nil by lia. apply emits_ret.
  - destruct (Z.leb_spec i len); [|lia]. rewrite seqZ_cons by lia. cbn [fmap list_fmap]. rewrite mjoin_cons.
    eapply emits_bind; [apply emits_then, H; lia|]. cbv beta iota. replace (Z.pred (len - i + 1)) with (len - (i + 1) + 1) by lia.
    rewrite <- Z.add_1_r. apply IH; [intros j Hj; apply H; lia|lia|lia].
Qed.

(** There are no more values than entries. *)
Lemma geti_count entries index len :
  0 <= len -> (forall i, 1 <= i <= len -> geti entries index i <> VNil) -> len <= alen entries + alen index.
Proof.
  intros Hlen H. assert (VInt <$> seqZ 1 len ⊆+ (entries ++ index).*1) as Hs.
  { apply NoDup_submseteq; [apply NoDup_fmap; [intros ?? [=]; done|apply NoDup_seqZ]|]. intros v (i & -> & Hi)%list_elem_of_fmap.
    apply elem_of_seqZ in Hi. specialize (H i ltac:(lia)). unfold geti in H.
    assert (forall l x, tlookup (VInt i) l = Some x -> VInt i ∈ l.*1) as Hl.
    { induction l as [|[k w] l IH]; [done|]. cbn. intros x Hx. destruct (rawequal k (VInt i)) eqn:E; [|right; by eapply IH].
      destruct k; try done. cbn in E. apply Z.eqb_eq in E as ->. left. }
    rewrite fmap_app, elem_of_app. destruct (tlookup (VInt i) entries) eqn:E1; [left; by eapply Hl|].
    destruct (tlookup (VInt i) index) eqn:E2; [right; by eapply Hl|]. done. }
  apply submseteq_length in Hs. rewrite !length_fmap, length_app, length_seqZ in Hs. rewrite !alen_length. lia.
Qed.

Lemma dict_items_Forall2 l k :
  dict_items l = Some k -> Forall2 (fun kv it => kv.1 = VStr it.1 /\ kv.2 = it.2) l k.
Proof.
  intros H%mapM_Some. eapply Forall2_impl; [exact H|]. intros [[] v] [key w]; cbn; by intros [= -> ->].
Qed.

Lemma emits_dict (one : bytes -> value -> Wr unit) (f : bytes * value -> bytes) l k :
  dict_items l = Some k -> Forall (fun it => emits (one it.1 it.2) tt (f it)) k -> emits (for_each l (pack_dict_data one)) tt (mjoin (f <$> k)).
Proof.
  intros H%dict_items_Forall2 Hk. induction H as [|[key v] it l k [E1 E2] _ IH]; [apply emits_ret|]. apply Forall_cons in Hk as [H1 Hk].
  cbn in *. subst. eapply emits_bind; [exact H1|]. by apply IH.
Qed.

Section table.
Context (one : bytes -> value -> Wr unit) (f : bytes * value -> bytes).

Lemma emits_pack_array entries index len :
  0 <= len < INT_MAX -> Forall (fun it => it.2 <> VNil /\ emits (one it.1 it.2) tt (f it)) (array_items entries index len) ->
  emits (pack_array one entries index len) tt (frame (mjoin (f <$> array_items entries index len))).
Proof.
  intros Hlen H. unfold pack_array. apply emits_framed. unfold array_items in *.
  assert (forall i, 1 <= i <= len -> geti entries index i <> VNil /\ emits (one (bson_numstr (i - 1)) (geti entries index i)) tt (f (bson_numstr (i - 1), geti entries index i))) as Hi.
  { intros i Hi. rewrite Forall_fmap, Forall_forall in H. apply (H i). apply elem_of_seqZ. lia. }
  pose proof (geti_count entries index len ltac:(lia) ltac:(intros i Hr; by apply Hi)) as Hc. rewrite !alen_length in Hc.
  rewrite <- list_fmap_compose. replace (seqZ 1 len) with (seqZ 1 (len - 1 + 1)) by (f_equal; lia).
  eapply (emits_array_loop _ (fun i => one (bson_numstr (i - 1)) (geti entries index i))); [intros j Hj; by apply Hi|done|lia].
Qed.

Lemma emits_saved addr rawlen entries index pairs e l key :
  saved entries index = Some e -> dict_items e = Some l -> utf8_text key -> Forall (fun it => emits (one it.1 it.2) tt (f it)) l ->
  emits (w ← save_data (VTable addr rawlen entries index pairs);
         append_key BSON_DOCUMENT key;;
         match w with VTable _ _ entries _ _ => pack_simple_dict one entries | _ => crash UndefinedBehaviour end)
    tt (element BSON_DOCUMENT key (frame (mjoin (f <$> l)))).
Proof.
  intros Hs Hd Hk H. assert (exists a r i p, emits (save_data (VTable addr rawlen entries index pairs)) (VTable a r e i p) []) as (a & r & i & p & He).
  { unfold saved, save_data in *. destruct (tlookup _ entries); [|injection Hs as ->; do 4 eexists; apply emits_ret].
    destruct (getfield _ _ _) as [| | | | | |[[]|] | | |]; try done; injection Hs as ->; do 4 eexists; apply emits_ret. }
  rewrite <- (app_nil_l (element _ _ _)). eapply emits_bind; [exact He|]. cbv beta iota. apply emits_element, emits_framed; [done|]. by eapply emits_dict.
Qed.

Lemma emits_append_table v arr l key :
  children v = Some (arr, l) -> utf8_text key -> (if arr then alen l < INT_MAX else True) ->
  Forall (fun it => it.2 <> VNil /\ emits (one it.1 it.2) tt (f it)) l ->
  emits (append_table meta_len one key v) tt (element (if arr then BSON_ARRAY else BSON_DOCUMENT) key (frame (mjoin (f <$> l)))).
Proof.
  intros Hv Hk Hn H. assert (Forall (fun it => emits (one it.1 it.2) tt (f it)) l) as H' by (eapply Forall_impl; [exact H|]; by intros ? []).
  destruct v as [| | | | | | | | |addr rawlen entries index pairs]; try done. cbn [children append_table] in *.
  destruct (meta_len addr) as [[]|]; try done.
  - destruct (Z.leb_spec 0 z); [|done]. injection Hv as <- <-.
    assert (alen (array_items entries index z) = z) as E by (unfold array_items; rewrite alen_length, length_fmap, length_seqZ; lia).
    rewrite E in Hn. rewrite uwrap_small by (unfold INT_MAX in Hn; lia). apply emits_element; [done|]. apply emits_pack_array; [lia|done].
  - destruct pairs as [pairs|].
    { destruct (dict_items pairs) as [k|] eqn:E; [|done]. injection Hv as <- <-. apply emits_element, emits_framed; [done|]. by eapply emits_dict. }
    unfold is_rawarray. destruct (Z.ltb_spec 0 rawlen) as [Hr|Hr].
    + destruct (lua_next (VInt rawlen) entries) as [[kv|]|]; [|injection Hv as <- <-|done].
      * destruct (saved entries index) as [e|] eqn:Es; [|done]. cbn in Hv. destruct (dict_items e) as [k|] eqn:E; [|done]. injection Hv as <- <-.
        rewrite <- (app_nil_l (element _ _ _)). eapply emits_bind; [apply emits_ret|]. by eapply emits_saved.
      * rewrite <- (app_nil_l (element _ _ _)). eapply emits_bind; [apply emits_ret|]. cbv beta iota. apply emits_element; [done|].
        assert (alen (array_items entries index rawlen) = rawlen) as E by (unfold array_items; rewrite alen_length, length_fmap, length_seqZ; lia).
        rewrite E in Hn. apply emits_pack_array; [lia|done].
    + destruct (saved entries index) as [e|] eqn:Es; [|done]. cbn in Hv. destruct (dict_items e) as [k|] eqn:E; [|done]. injection Hv as <- <-.
      rewrite <- (app_nil_l (element _ _ _)). eapply emits_bind; [apply emits_ret|]. by eapply emits_saved.
Qed.
End table.

Lemma children_array v l :
  children v = Some (true, l) -> exists entries index len, 0 <= len /\ l = array_items entries index len.
Proof.
  intros Hv. destruct v as [| | | | | | | | |addr rawlen entries index pairs]; try done. cbn in Hv. destruct (meta_len addr) as [[]|]; try done.
  - destruct (Z.leb_spec 0 z); [|done]. injection Hv as <-. eauto.
  - destruct pairs as [p|]; [by destruct (dict_items p)|]. destruct (Z.ltb_spec 0 rawlen).
    + destruct (next_after _ _) as [[|]|]; [|injection Hv as <-; exists entries, index, rawlen; split; [lia|done]|done].
      destruct (saved _ _) as [e|]; [|done]. cbn in Hv. by destruct (dict_items e).
    + destruct (saved _ _) as [e|]; [|done]. cbn in Hv. by destruct (dict_items e).
Qed.

(** The names of the elements. *)
Lemma array_keys_ok entries index len :
  0 <= len -> alen (array_items entries index len) < INT_MAX -> Forall (fun it => key_ok it.1) (array_items entries index len).
Proof.
  intros Hlen Hl. unfold array_items in *. rewrite alen_length, length_fmap, length_seqZ in Hl. rewrite Forall_fmap, Forall_forall.
  intros i Hi%elem_of_seqZ. cbn. apply digits_key_ok. apply numstr_digits. unfold INT_MAX in Hl. lia.
Qed.

Lemma children_keys v arr l : children v = Some (arr, l) -> items_ok arr l -> Forall (fun it => key_ok it.1) l.
Proof.
  intros Hv Hl. destruct arr; [|by apply Hl]. apply children_array in Hv as (entries & index & len & Hlen & ->). by apply array_keys_ok.
Qed.

Lemma emits_append_one n key v : utf8_text key -> packable n v -> emits (append_one meta_len n key v) tt (element (enc_type v) key (enc_body n v)).
Proof.
  revert key v. induction n as [|n IH]; intros key v Hk Hv; destruct v; try done; cbn [append_one].
  all: try (apply emits_str; done).
  all: try (apply emits_element; [done|]; (apply emits_bson_byte || apply emits_write_double)).
  all: try (unfold append_number, enc_type, enc_body; destruct (is_32bit z); apply emits_element; [done|apply emits_write_int32|done|apply emits_write_int64]).
  cbn [packable enc_type enc_body] in *. destruct (children _) as [[arr l]|] eqn:E; [|done]. destruct Hv as [Hl Hv].
  pose proof (children_keys _ _ _ E Hl) as Hkeys. replace (match arr with true => _ | false => _ end) with (if arr then BSON_ARRAY else BSON_DOCUMENT) by (by destruct arr).
  apply emits_append_table; [done|done|by destruct arr|]. rewrite Forall_forall in *. intros it Hit. split; [|apply IH; [by apply Hkeys|auto]].
  intros Hnil. specialize (Hv it Hit). rewrite Hnil in Hv. by destruct n.
Qed.

(** ** Documents *)

(** The elements of the document of a table. *)
Definition root_items (v : value) : option (list (bytes * value)) :=
  match v with VTable _ _ entries _ pairs => dict_items (default entries pairs) | _ => None end.

Definition root_ok (v : value) : Prop :=
  match root_items v with Some l => items_ok false l /\ Forall (fun kv => packable MAX_DEPTH kv.2) l | None => False end.

Definition enc_root (v : value) : bytes := frame (enc_items MAX_DEPTH (default [] (root_items v))).

(** [lencode] gives the document of a table. *)
Lemma lencode_bytes v b :
  root_ok v -> alen (enc_root v) <= wr_limit -> exists b', lencode meta_len v b = Done (enc_root v) b'.
Proof.
  unfold root_ok, enc_root. intros Hv Hl. destruct (root_items v) as [l|] eqn:E; [|done]. destruct Hv as [Hk Hv]. cbn [default] in *.
  destruct v as [| | | | | | | | |addr rawlen entries index pairs]; try done. cbn in E.
  assert (emits (match pairs with Some pairs => pack_meta_dict (append_one meta_len MAX_DEPTH) pairs | None => pack_simple_dict (append_one meta_len MAX_DEPTH) entries end)
    tt (frame (enc_items MAX_DEPTH l))) as He.
  { assert (forall it, it ∈ l -> utf8_text it.1) as Hu by (destruct Hk as [_ Hk]; rewrite Forall_forall in Hk; intros it Hit; by apply Hk).
    rewrite Forall_forall in Hv. destruct pairs; apply emits_framed; (eapply emits_dict; [exact E|]); apply Forall_forall; intros it Hit; apply emits_append_one; auto. }
  unfold lencode. rewrite (bind_Done _ _ tt b bson_create eq_refl). unfold encode_bson.
  destruct (emits_run _ (fun _ => finish) tt _ bson_create [] He wr_ok_create Hl) as (b' & -> & (rest & Hp) & Hs & _).
  exists b'. unfold finish. rewrite (bind_Done get _ b' b' b' eq_refl). cbn [app] in *. rewrite Hs, Hp.
  set (d := frame _) in *. pose proof (alen_nonneg rest). pose proof (alen_nonneg d).
  rewrite slice_take by (rewrite alen_app; lia). by rewrite alen_length, Nat2Z.id, take_app_length.
Qed.

End values.
