(* ===== verification/BsonRead.v ===== *)
(** * Reading BSON documents, and the round trip

    The decoder reads back what the encoder writes: [ldecode] of the block that [lencode]
    makes from a table gives the table again, with the values that stand for other types. *)

From S2P Require Import Prelude Outcome Codec LuaValue Itoa Bson BsonWrite.

(** ** The reader *)

Section reading.
(** The block. *)
Context (m : bytes).

(** The reader is before [rest], and may read no further. *)
Definition rd_at (s : bson_reader) (rest : bytes) : Prop :=
  mem s = m /\ exists pre post, m = pre ++ rest ++ post /\ rptr s = alen pre /\ rsize s = alen rest /\ alen rest <= INT_MAX.

Abbreviation reads := (Codec.reads rd_at).

Lemma rd_at_mem s rest : rd_at s rest -> mem s = m.
Proof. by intros []. Qed.

Lemma rd_at_slice s d rest : rd_at s (d ++ rest) -> slice m (rptr s) (alen d) = Some d.
Proof. intros (_ & pre & post & -> & -> & _). rewrite <- app_assoc. by apply slice_mid. Qed.

Lemma rd_at_size s rest : rd_at s rest -> rsize s = alen rest /\ alen rest <= INT_MAX.
Proof. intros (_ & pre & post & _ & _ & ? & ?). done. Qed.

Lemma wp_check_reader n s rest Q : rd_at s rest -> n <= alen rest -> Q tt s -> wpd (check_reader n) Q s.
Proof.
  intros K%rd_at_size Hn HQ. unfold check_reader. do 2 wp_step. destruct (Z.ltb_spec (rsize s) n); [lia|done].
Qed.

Lemma wp_skip d rest n s Q :
  rd_at s (d ++ rest) -> n = alen d -> (forall s', rd_at s' rest -> Q tt s') -> wpd (skip n) Q s.
Proof.
  intros (Hm & pre & post & E & Hp & Hs & Hl) -> HQ. pose proof (alen_nonneg d). pose proof (alen_nonneg rest). rewrite alen_app in *.
  unfold skip. do 3 wp_step. wp_step; [apply bool_decide_eq_true_2; unfold in_s, INT_MAX in *; lia|]. wp_step. apply HQ.
  split; [done|]. exists (pre ++ d), post. cbn. rewrite Hp, Hs, alen_app, <- !app_assoc. split_and!; [by rewrite E, <- app_assoc|done|lia|lia].
Qed.

(** The bytes of a fixed size. *)
Lemma reads_fixed d n {A} (g : bytes -> A) : n = alen d -> reads (check_reader n;; d ← here n; skip n;; mret (g d)) (g d) d.
Proof.
  intros -> s rest Q K HQ. wp_step. apply (wp_check_reader _ s (d ++ rest)); [done|rewrite alen_app; pose proof (alen_nonneg rest); lia|].
  wp_step. unfold here, bytes_at. do 4 wp_step. wp_step; [rewrite (rd_at_mem _ _ K); by eapply rd_at_slice|]. wp_step. eapply wp_skip; [done|done|]. intros s' K'. wp_step. by apply HQ.
Qed.

Lemma reads_byte c : reads read_byte (b2z c) [c].
Proof.
  assert (le_combine [c] = b2z c) as <- by (by destruct c). by apply (reads_fixed [c] 1 le_combine).
Qed.

Lemma reads_int32 v : in_s 32 v -> reads read_int32 v (le_split 4 v).
Proof.
  intros Hv. rewrite <- (combine_split_s 32 4 v) at 1 by done. apply (reads_fixed _ 4 (fun d => s32 (le_combine d))). by rewrite alen_le_split.
Qed.

Lemma reads_int64 v : in_s 64 v -> reads read_int64 v (le_split 8 v).
Proof.
  intros Hv. rewrite <- (combine_split_s 64 8 v) at 1 by done. apply (reads_fixed _ 8 (fun d => s64 (le_combine d))). by rewrite alen_le_split.
Qed.

Lemma reads_double v : 0 <= v < 2 ^ 64 -> reads read_double v (le_split 8 v).
Proof.
  intros Hv. rewrite <- (combine_split_u 8 v) at 1 by done. apply (reads_fixed _ 8 le_combine). by rewrite alen_le_split.
Qed.

(** The position of [d]. *)
Lemma wp_read_bytes d rest n s Q :
  rd_at s (d ++ rest) -> n = alen d ->
  (forall s', rd_at s' rest -> Q (rptr s) s') -> wpd (read_bytes n) Q s.
Proof.
  intros K -> HQ. unfold read_bytes. do 3 wp_step. apply (wp_check_reader _ s (d ++ rest)); [done|rewrite alen_app; pose proof (alen_nonneg rest); lia|].
  wp_step. eapply wp_skip; [done|done|]. intros s' K'. wp_step. by apply HQ.
Qed.

Lemma wp_bytes_at p n d s rest Q : rd_at s rest -> slice m p n = Some d -> Q d s -> wpd (bytes_at p n) Q s.
Proof. intros K Hs HQ. unfold bytes_at. do 2 wp_step. wp_step; [by rewrite (rd_at_mem _ _ K)|done]. Qed.

Lemma wp_make_object type p n d s rest Q :
  rd_at s rest -> slice m p n = Some d -> 0 <= n -> Q (TStr (z2b 0 :: z2b type :: d)) s -> wpd (make_object type p n) Q s.
Proof.
  intros K Hs Hn HQ. unfold make_object. destruct (Z.ltb_spec n 0); [lia|]. wp_step. by eapply wp_bytes_at.
Qed.

Lemma reads_cstring k : (z2b 0 ∉ k) -> reads read_cstring k (k ++ [z2b 0]).
Proof.
  intros Hk s rest Q K HQ. pose proof (rd_at_size _ _ K) as [Hsz Hmax]. pose proof (alen_nonneg k). pose proof (alen_nonneg rest).
  rewrite !alen_app in *. change (alen [z2b 0]) with 1 in *.
  unfold read_cstring. do 3 wp_step. apply (wp_loop (fun i s' => s' = s /\ 0 <= i <= alen k) (fun i _ => Z.to_nat (alen k - i))).
  - intros i s' [-> Hi]. destruct (Z.eqb_spec i (rsize s)); [lia|]. wp_step.
    assert (aget (mem s) (rptr s + i) = aget (k ++ [z2b 0]) i) as E.
    { destruct K as (-> & pre & post & -> & -> & _). rewrite <- !app_assoc. rewrite aget_app_r by lia. replace (alen pre + i - alen pre) with i by lia.
      rewrite app_assoc. apply aget_app_l. rewrite alen_snoc. lia. }
    rewrite E. destruct (Z.eq_dec i (alen k)) as [->|Hne].
    + rewrite aget_app_r, Z.sub_diag, aget_cons_0 by lia. wp_step; [done|]. wp_step. cbn beta iota. rewrite b2z_z2b_small by lia. cbn [Z.eqb].
      wp_step. eapply wp_bytes_at; [done|rewrite <- app_assoc in K; by eapply rd_at_slice|]. wp_step.
      eapply (wp_skip (k ++ [z2b 0])); [done|by rewrite alen_snoc|]. intros s1 K1. wp_step. by apply HQ.
    + rewrite aget_app_l by lia. destruct (aget_is_Some k i) as [c Hc]; [unfold in_range; lia|]. rewrite Hc. wp_step; [done|]. wp_step.
      destruct (Z.eqb_spec (b2z c) 0) as [Ec|]; [|split; [split; [done|lia]|lia]].
      exfalso. apply Hk. rewrite <- Ec, z2b_b2z. by eapply aget_elem_of.
  - split; [done|lia].
  - destruct K as (-> & pre & post & -> & _). rewrite !length_app, alen_length. lia.
Qed.

(** ** Values that are no tables *)

Context (unpack_dict : bool -> Rd tree).
Abbreviation unpack := (unpack_value unpack_dict).

(** The byte behind a string is not looked at. *)
Lemma reads_bson_string s c : alen s < INT_MAX -> reads (unpack BSON_STRING) (TStr s) (le_split 4 (alen s + 1) ++ s ++ [c]).
Proof.
  intros Hs. change (unpack BSON_STRING) with (sz ← read_int32; if sz <=? 0 then luaL_error "Invalid bson string" else p ← read_bytes sz; d ← bytes_at p (sz - 1); mret (TStr d)).
  pose proof (alen_nonneg s). eapply reads_bind; [apply reads_int32; unfold in_s, INT_MAX in *; lia|]. cbv beta. destruct (Z.leb_spec (alen s + 1) 0); [lia|].
  intros t rest Q K HQ. wp_step. eapply wp_read_bytes; [done|by rewrite alen_snoc|]. intros t' K'. wp_step.
  eapply wp_bytes_at; [done|replace (alen s + 1 - 1) with (alen s) by lia; rewrite <- app_assoc in K; by eapply rd_at_slice|]. wp_step. by apply HQ.
Qed.

(** A block that starts with its own length [k] and is kept as it is; [f] and [g] compute the
    number of bytes that follow and the size of the whole block. *)
Lemma reads_block type k (f g : Z -> Rd Z) d :
  in_s 32 k -> (forall t, f k t = Done (alen d) t) -> (forall t, g k t = Done (alen d + 4) t) ->
  reads (br ← get; sz ← read_int32; n ← f sz; read_bytes n;; len ← g sz; make_object type (rptr br) len)
    (TStr (z2b 0 :: z2b type :: le_split 4 k ++ d)) (le_split 4 k ++ d).
Proof.
  intros Hk Hf Hg t rest Q K HQ. pose proof (alen_nonneg d). do 3 wp_step. rewrite <- app_assoc in K.
  apply (reads_int32 k Hk t (d ++ rest)); [done|]. intros t1 K1. wp_step. eapply wp_Done; [apply Hf|]. wp_step.
  eapply wp_read_bytes; [done|done|]. intros t2 K2. wp_step. eapply wp_Done; [apply Hg|].
  eapply wp_make_object; [done| |lia|by apply HQ]. rewrite app_assoc in K. apply rd_at_slice in K. rewrite alen_app, alen_le_split in K.
  rewrite <- K. f_equal. lia.
Qed.

Lemma int_add_Done k n t r : in_s 32 (k + n) -> k + n = r -> int_add k n t = Done r t.
Proof. intros H <-. unfold int_add, require. by rewrite bool_decide_eq_true_2. Qed.

Lemma reads_special subt body :
  special_ok subt body -> 0 <= subt -> reads (unpack subt) (TStr (z2b 0 :: z2b subt :: body)) (special_body subt body).
Proof.
  intros Hs H0. unfold special_ok, special_body in *. destruct (Z.eqb_spec subt BSON_BINARY) as [->|].
  { change (unpack BSON_BINARY) with (sz ← read_int32; subtype ← read_byte; p ← read_bytes sz;
      if sz <? 0 then luaL_error "buffer too large" else d ← bytes_at p sz; mret (TStr (z2b 0 :: z2b BSON_BINARY :: z2b subtype :: d))).
    destruct body as [|c body]; [rewrite alen_nil in Hs; lia|]. pose proof (alen_nonneg body). rewrite alen_cons in *. replace (alen body + 1 - 1) with (alen body) by lia.
    eapply reads_bind; [apply reads_int32; unfold in_s, INT_MAX in *; lia|]. change (c :: body) with ([c] ++ body) at 2. eapply reads_bind; [apply reads_byte|].
    intros t rest Q K HQ. wp_step. eapply wp_read_bytes; [done|done|]. intros t' K'. destruct (Z.ltb_spec (alen body) 0); [lia|]. wp_step.
    eapply wp_bytes_at; [done|by eapply rd_at_slice|]. wp_step. rewrite z2b_b2z. by apply HQ. }
  destruct (Z.eqb_spec subt BSON_OBJECTID) as [->|].
  { change (BSON_OBJECTID =? BSON_DATE) with false. change (unpack BSON_OBJECTID) with (p ← read_bytes 12; make_object BSON_OBJECTID p 12).
    intros t rest Q K HQ. wp_step. eapply wp_read_bytes; [done|done|]. intros t' K'.
    eapply wp_make_object; [done|rewrite <- Hs; by eapply rd_at_slice|lia|by apply HQ]. }
  destruct (Z.eqb_spec subt BSON_JSCODE) as [->|].
  { destruct Hs as (d & -> & Hl). rewrite alen_app, alen_le_split in Hl. pose proof (alen_nonneg d).
    assert (unpack BSON_JSCODE = (br ← get; sz ← read_int32; n ← mret sz; read_bytes n;; len ← int_add sz 4; make_object BSON_JSCODE (rptr br) len)) as -> by reflexivity.
    by apply (reads_block BSON_JSCODE (alen d) mret (fun k => int_add k 4) d); [..|intros t; apply int_add_Done]; unfold in_s, INT_MAX in *; try lia. }
  destruct (Z.eqb_spec subt BSON_SYMBOL) as [->|].
  { destruct Hs as (d & -> & Hl). rewrite alen_app, alen_le_split in Hl. pose proof (alen_nonneg d).
    assert (unpack BSON_SYMBOL = (br ← get; sz ← read_int32; n ← mret sz; read_bytes n;; len ← int_add sz 4; make_object BSON_SYMBOL (rptr br) len)) as -> by reflexivity.
    by apply (reads_block BSON_SYMBOL (alen d) mret (fun k => int_add k 4) d); [..|intros t; apply int_add_Done]; unfold in_s, INT_MAX in *; try lia. }
  destruct (Z.eqb_spec subt BSON_DBPOINTER) as [->|].
  { destruct Hs as (d & -> & Hd & Hl). rewrite alen_app, alen_le_split in Hl. 
    apply (reads_block BSON_DBPOINTER (alen d - 12) (fun k => int_add k 12) (fun k => int_add k 16) d); try (intros t; apply int_add_Done); unfold in_s, INT_MAX in *; lia. }
  destruct (Z.eqb_spec subt BSON_CODEWS) as [->|].
  { destruct Hs as (d & -> & Hl). rewrite alen_app, alen_le_split in Hl. pose proof (alen_nonneg d).
    assert (unpack BSON_CODEWS = (br ← get; sz ← read_int32; n ← int_add sz (-4); read_bytes n;; len ← mret sz; make_object BSON_CODEWS (rptr br) len)) as -> by reflexivity.
    by apply (reads_block BSON_CODEWS (alen d + 4) (fun k => int_add k (-4)) mret d); [|intros t; apply int_add_Done|]; unfold in_s, INT_MAX in *; try lia. }
  destruct (Z.eqb_spec subt BSON_DATE) as [->|].
  { change (unpack BSON_DATE) with (date ← read_int64; mret (TStr (z2b 0 :: z2b BSON_DATE :: le_split 4 (u32 (Z.quot date 1000))))).
    assert (0 <= le_combine body < 2 ^ 32) as Hr.
    { pose proof (le_combine_bound body) as H. rewrite alen_length in Hs. assert (length body = 4%nat) as E by lia. by rewrite E in H. }
    replace body with (le_split 4 (u32 (Z.quot (le_combine body * 1000) 1000))) at 1.
    - apply (reads_map read_int64 (fun date => TStr (z2b 0 :: z2b BSON_DATE :: le_split 4 (u32 (Z.quot date 1000))))). apply reads_int64. unfold in_s. lia.
    - rewrite Z.quot_mul, uwrap_small by lia. rewrite alen_length in Hs. replace 4%nat with (length body) by lia. apply split_le_combine. }
  destruct (Z.eqb_spec subt BSON_TIMESTAMP) as [->|].
  { change (unpack BSON_TIMESTAMP) with (inc ← read_int32; ts ← read_int32; mret (TStr (z2b 0 :: z2b BSON_TIMESTAMP :: le_split 4 inc ++ le_split 4 ts))).
    assert (exists a b, in_s 32 a /\ in_s 32 b /\ body = le_split 4 a ++ le_split 4 b) as (a & b & Ha & Hb & ->).
    { assert (forall d : bytes, length d = 4%nat -> d = le_split 4 (s32 (le_combine d))) as E.
      { intros d Hd. rewrite <- (le_split_uwrap 4), (uwrap_swrap (8 * Z.of_nat 4)), le_split_uwrap, <- Hd by done. symmetry. apply split_le_combine. }
      exists (s32 (le_combine (take 4 body))), (s32 (le_combine (drop 4 body))). rewrite alen_length in Hs.
      split_and!; [by apply swrap_range..|]. rewrite <- !E by (rewrite ?length_take, ?length_drop; lia). by rewrite take_drop. }
    eapply reads_bind; [by apply reads_int32|].
    apply (reads_map read_int32 (fun ts => TStr (z2b 0 :: z2b BSON_TIMESTAMP :: le_split 4 a ++ le_split 4 ts))). by apply reads_int32. }
  destruct (Z.eqb_spec subt BSON_REGEX) as [->|].
  { destruct Hs as (r1 & r2 & -> & _ & _ & H1 & H2).
    change (unpack BSON_REGEX) with (r1 ← read_cstring; r2 ← read_cstring; mret (TStr (z2b 0 :: z2b BSON_REGEX :: r1 ++ [z2b 0] ++ r2 ++ [z2b 0]))).
    rewrite (app_assoc r1). eapply reads_bind; [by apply reads_cstring|]. rewrite <- app_assoc.
    apply (reads_map read_cstring (fun r2 => TStr (z2b 0 :: z2b BSON_REGEX :: r1 ++ [z2b 0] ++ r2 ++ [z2b 0]))). by apply reads_cstring. }
  destruct Hs as [Hs ->]. repeat (destruct Hs as [Hs|Hs]); subst subt; apply reads_ret.
Qed.

(** ** Documents and arrays *)

(** The key of an element in the table. *)
Definition tree_key (array : bool) (key : bytes) : tree := if array then TInt (s32 (strtol key + 1)) else TStr key.

Lemma tree_key_differs array a b : tree_key array a <> tree_key array b -> key_equal (tree_key array a) (tree_key array b) = false.
Proof.
  destruct array; cbn; intros H; [apply Z.eqb_neq|apply bool_decide_eq_false_2]; congruence.
Qed.

(** An element that can be read. *)
Record readable (array : bool) (type : Z) (key body : bytes) (t : tree) : Prop := {
  r_type : 0 <= type < 256;
  r_key : z2b 0 ∉ key;
  r_index : array = true -> strtol key < 2 ^ 63 - 1;
  r_body : reads (unpack type) t body;
  r_value : is_nil t = false }.

Lemma reads_one array type key body t entries :
  readable array type key body t ->
  reads (bt ← read_byte; key ← read_cstring; k ← unpack_key array key; v ← unpack bt; entries ← rawset k v entries;
         mret (inl entries : list (tree * tree) + list (tree * tree)))
    (inl (set_entry (tree_key array key) t entries)) (element type key body).
Proof.
  intros []. unfold element. change (z2b type :: ?l) with ([z2b type] ++ l). eapply reads_bind; [apply reads_byte|]. rewrite b2z_z2b_small by done.
  rewrite app_assoc. eapply reads_bind; [by apply reads_cstring|]. rewrite <- (app_nil_l body). eapply (reads_bind _ _ (tree_key array key)).
  - unfold unpack_key. destruct array; [|apply reads_ret]. unfold require. rewrite (proj2 (Z.ltb_lt _ _)) by auto. apply reads_ret.
  - rewrite <- (app_nil_r body). eapply reads_bind; [done|]. unfold tree_key. by destruct array; apply reads_ret.
Qed.

Lemma wp_unpack_elements {X} (type : X -> Z) (key body : X -> bytes) (val : X -> tree) array (l : list X) s Q :
  Forall (fun x => readable array (type x) (key x) (body x) (val x)) l -> NoDup ((fun x => tree_key array (key x)) <$> l) ->
  rd_at s (mjoin ((fun x => element (type x) (key x) (body x)) <$> l)) ->
  (forall s', Q ((fun x => (tree_key array (key x), val x)) <$> l) s') -> wpd (unpack_elements unpack_dict array) Q s.
Proof.
  intros Hl Hd K HQ. unfold unpack_elements. do 2 wp_step.
  apply (wp_loop_rank (fun k entries t => exists done todo, l = done ++ todo /\ entries = ((fun x => (tree_key array (key x), val x)) <$> done) /\
    k = length todo /\ rd_at t (mjoin ((fun x => element (type x) (key x) (body x)) <$> todo)))) with (k := length l).
  - intros k entries t (pre & todo & -> & -> & -> & Kt). pose proof (proj1 (rd_at_size _ _ Kt)) as Hsz. do 2 wp_step. destruct todo as [|x todo].
    + rewrite Hsz. cbn [fmap list_fmap]. change (alen (mjoin [])) with (alen ([] : bytes)). rewrite alen_nil. cbn [Z.eqb]. wp_step. rewrite app_nil_r in HQ. apply HQ.
    + rewrite fmap_cons, mjoin_cons in Kt, Hsz. rewrite alen_app in Hsz. unfold element at 1 in Hsz. rewrite alen_cons in Hsz.
      pose proof (alen_nonneg (key x ++ [z2b 0] ++ body x)). pose proof (alen_nonneg (mjoin ((fun x => element (type x) (key x) (body x)) <$> todo))).
      destruct (Z.eqb_spec (rsize t) 0); [lia|]. apply Forall_app in Hl as [_ Hl]. apply Forall_cons in Hl as [Hx Hl].
      eapply (reads_one _ _ _ _ _ _ Hx t); [exact Kt|]. intros t' K'. exists (length todo). split; [cbn; lia|].
      exists (pre ++ [x]), todo. rewrite <- app_assoc. split_and!; try done. rewrite set_entry_fresh.
      * by rewrite fmap_app.
      * intros k v (y & [= -> ->] & Hy)%list_elem_of_fmap. apply tree_key_differs. intros E.
        rewrite fmap_app in Hd. apply NoDup_app in Hd as (_ & Hd & _). apply (Hd (tree_key array (key y))); [apply list_elem_of_fmap; by exists y|].
        rewrite E, fmap_cons. left.
      * apply Hx.
  - by exists [], l.
  - destruct K as (-> & pre & post & -> & _). rewrite !length_app.
    pose proof (length_mjoin_ge (fun x => element (type x) (key x) (body x)) l 1 ltac:(intros; unfold element; cbn; lia)). lia.
Qed.

End reading.

Section documents.
Context (m : bytes).
Abbreviation reads := (Codec.reads (rd_at m)).

(** The part of the block between the length and the end is read by a reader of its own. *)
Lemma reads_unpack_dict fuel array els entries :
  (forall s Q, rd_at m s els -> (forall s', Q entries s') -> wpd (unpack_elements (unpack_dict fuel) array) Q s) ->
  reads (unpack_dict (S fuel) array) (TTable entries) (frame els).
Proof.
  intros He s rest Q K HQ. unfold frame in K. rewrite <- !app_assoc in K. pose proof (rd_at_size _ _ _ K) as [_ Hl].
  rewrite !alen_app, alen_le_split in Hl. change (alen [z2b 0]) with 1 in Hl. pose proof (alen_nonneg els). pose proof (alen_nonneg rest).
  cbn [unpack_dict]. wp_step. eapply (reads_int32 m (alen els + 5)); [unfold in_s, INT_MAX in *; lia|exact K|]. intros s1 K1. wp_step.
  eapply wp_Done; [apply (int_add_Done _ _ _ (alen els)); unfold in_s, INT_MAX in *; lia|]. wp_step.
  eapply (wp_read_bytes m); [exact K1|done|]. intros s2 K2. do 3 wp_step. eapply (reads_byte m (z2b 0)); [exact K2|]. intros s3 K3.
  rewrite b2z_z2b_small by lia. cbn [Z.eqb negb]. wp_step. unfold on_reader. do 5 wp_step.
  apply He.
  - rewrite (rd_at_mem _ _ _ K2). destruct K1 as (_ & pre & post & -> & -> & _). split; [done|].
    exists pre, ([z2b 0] ++ rest ++ post). cbn [rptr rsize]. rewrite <- !app_assoc. split_and!; try done. unfold INT_MAX in *. lia.
  - intros s4. do 3 wp_step. wp_step. apply HQ. exact K3.
Qed.

Section values.
Context (meta_len : Z -> option value).

(** The table that the decoder makes from an encoded value. *)
Fixpoint norm (n : nat) (v : value) : tree :=
  match v with
  | VBool b => TBool b
  | VInt z => TInt z
  | VReal bits => TReal bits
  | VStr s => TStr s
  | VTable _ _ _ _ _ =>
      match n, children meta_len v with
      | S n, Some (true, l) => TTable (array_entries ((fun kv => norm n kv.2) <$> l))
      | S n, Some (false, l) => TTable ((fun kv => (TStr kv.1, norm n kv.2)) <$> l)
      | _, _ => TNil
      end
  | _ => TNil
  end.

Lemma norm_not_nil n v : packable meta_len n v -> is_nil (norm n v) = false.
Proof. destruct n, v; try done. cbn [norm packable]. destruct (children meta_len _) as [[[] l]|]; done. Qed.

Lemma str_reads ud s : str_ok s -> reads (unpack_value ud (str_type s)) (TStr s) (str_body s) /\ 0 <= str_type s < 256.
Proof.
  unfold str_ok, str_type, str_body, is_special. intros Hs. assert (utf8_text s /\ alen s < INT_MAX -> reads (unpack_value ud BSON_STRING) (TStr s) (le_split 4 (alen s + 1) ++ s ++ [z2b 0]) /\ 0 <= BSON_STRING < 256) as Hp.
  { intros []. split; [by apply reads_bson_string|done]. }
  destruct s as [|c0 [|c1 body]]; [by apply Hp..|]. destruct (Z.eqb_spec (b2z c0) 0) as [E|]; [|by apply Hp]. pose proof (b2z_range c1).
  split; [|done]. replace (c0 :: c1 :: body) with (z2b 0 :: z2b (b2z c1) :: body) by (by rewrite <- E, !z2b_b2z). apply reads_special; [done|lia].
Qed.

(** The values of an array go to the indices from 1 on. *)
Lemma array_items_keys entries index len :
  0 <= len < INT_MAX -> (fun kv => tree_key true kv.1) <$> array_items entries index len = TInt <$> seqZ 1 len.
Proof.
  intros Hl. unfold array_items. rewrite <- list_fmap_compose. apply list_fmap_ext. intros i x Hx. apply lookup_seqZ in Hx as [-> Hi].
  unfold compose, tree_key. cbn. destruct (numstr_digits (1 + Z.of_nat i - 1)) as (_ & -> & _); [unfold INT_MAX in *; lia|].
  rewrite swrap_small by (unfold in_s, INT_MAX in *; lia). f_equal. lia.
Qed.

Lemma array_entries_keys (l : list tree) : array_entries l = zip (TInt <$> seqZ 1 (alen l)) l.
Proof.
  apply list_eq. intros i. unfold array_entries. rewrite list_lookup_imap, lookup_zip_with, list_lookup_fmap.
  destruct (l !! i) eqn:E; cbn; [|by destruct (_ <$> _)]. apply lookup_lt_Some in E. rewrite lookup_seqZ_lt by (rewrite alen_length; lia). cbn. do 3 f_equal. lia.
Qed.

Lemma zip_fmap_same {A B C} (f : A -> B) (g : A -> C) l : zip (f <$> l) (g <$> l) = (fun x => (f x, g x)) <$> l.
Proof. induction l as [|x l IH]; [done|]. rewrite !fmap_cons. cbn [zip_with]. by rewrite IH. Qed.

(** What the elements become. *)
Definition norm_items (n : nat) (array : bool) (l : list (bytes * value)) : list (tree * tree) :=
  if array then array_entries ((fun kv => norm n kv.2) <$> l) else (fun kv => (TStr kv.1, norm n kv.2)) <$> l.

Lemma norm_items_keys n array l :
  items_ok array l -> (array = true -> exists entries index len, 0 <= len /\ l = array_items entries index len) ->
  NoDup ((fun kv => tree_key array kv.1) <$> l) /\ norm_items n array l = (fun kv => (tree_key array kv.1, norm n kv.2)) <$> l /\
  Forall (fun kv => key_ok kv.1 /\ (array = true -> strtol kv.1 < 2 ^ 63 - 1)) l.
Proof.
  intros Hl Ha. destruct array.
  - destruct (Ha eq_refl) as (entries & index & len & Hlen & ->). cbn in Hl.
    assert (alen (array_items entries index len) = len) as E by (unfold array_items; rewrite alen_length, length_fmap, length_seqZ; lia).
    pose proof (array_items_keys entries index len ltac:(lia)) as Hk. split_and!.
    + rewrite Hk. apply NoDup_fmap; [by intros ?? [=]|apply NoDup_seqZ].
    + cbn. rewrite array_entries_keys, alen_fmap, E, <- Hk. apply zip_fmap_same.
    + pose proof (array_keys_ok entries index len Hlen Hl) as H. unfold array_items in *. rewrite Forall_fmap, Forall_forall in *. intros i Hi.
      split; [by apply H|]. intros _. apply elem_of_seqZ in Hi. cbn. destruct (numstr_digits (i - 1)) as (_ & -> & _); unfold INT_MAX in *; lia.
  - destruct Hl as [Hd Hk]. split_and!; [|done|].
    + assert (forall l : list (bytes * value), (fun kv => tree_key false kv.1) <$> l = TStr <$> l.*1) as -> by (intros; by rewrite <- list_fmap_compose).
      apply NoDup_fmap; [by intros ?? [=]|done].
    + eapply Forall_impl; [exact Hk|]. by intros kv Hkv.
Qed.

Lemma reads_items n array l fuel :
  items_ok array l -> (array = true -> exists entries index len, 0 <= len /\ l = array_items entries index len) ->
  Forall (fun kv => packable meta_len n kv.2) l ->
  Forall (fun kv => reads (unpack_value (unpack_dict fuel) (enc_type meta_len kv.2)) (norm n kv.2) (enc_body meta_len n kv.2) /\ 0 <= enc_type meta_len kv.2 < 256) l ->
  reads (unpack_dict (S fuel) array) (TTable (norm_items n array l)) (frame (enc_items meta_len n l)).
Proof.
  intros Hl Ha Hp Hr. destruct (norm_items_keys n array l Hl Ha) as (Hd & -> & Hk). apply reads_unpack_dict. intros s Q K HQ.
  eapply (wp_unpack_elements m _ (fun kv => enc_type meta_len kv.2) fst (fun kv => enc_body meta_len n kv.2)); [|exact Hd|exact K|exact HQ].
  rewrite Forall_forall in *. intros kv Hkv. destruct (Hr kv Hkv) as [H1 H2]. destruct (Hk kv Hkv) as [[_ H3] H4]. split; try done. by apply norm_not_nil, Hp.
Qed.

Lemma reads_value n v fuel :
  packable meta_len n v -> (length (enc_body meta_len n v) < fuel)%nat ->
  reads (unpack_value (unpack_dict fuel) (enc_type meta_len v)) (norm n v) (enc_body meta_len n v) /\ 0 <= enc_type meta_len v < 256.
Proof.
  revert v fuel. induction n as [|n IH]; intros v fuel Hv Hf; destruct v; try done.
  all: try (apply str_reads; done).
  all: try (split; [|done]; cbn [enc_type norm enc_body]).
  all: try (apply (reads_map read_double TReal), reads_double; done).
  all: try (destruct b; [exact (reads_map read_byte (fun b => TBool (negb (b =? 0))) _ _ (reads_byte m (z2b 1)))
                       |exact (reads_map read_byte (fun b => TBool (negb (b =? 0))) _ _ (reads_byte m (z2b 0)))]).
  all: try (cbn [enc_type enc_body norm]; destruct (is_32bit z) eqn:E; split; try done;
    [apply (reads_map read_int32 TInt), reads_int32; unfold is_32bit in E; unfold in_s; lia|apply (reads_map read_int64 TInt), reads_int64; done]).
  cbn [packable enc_type enc_body norm] in *. destruct (children meta_len _) as [[array l]|] eqn:E; [|done]. destruct Hv as [Hl Hp].
  split; [|by destruct array]. destruct fuel as [|fuel]; [lia|].
  assert (reads (unpack_dict (S fuel) array) (TTable (norm_items n array l)) (frame (enc_items meta_len n l))) as Hr; [|by destruct array].
  apply reads_items; [done|by intros ->; eapply children_array|done|]. rewrite Forall_forall in *. intros kv Hkv. apply IH; [auto|].
  pose proof (length_mjoin_elem (fun kv => element (enc_type meta_len kv.2) kv.1 (enc_body meta_len n kv.2)) l kv Hkv) as Hlen.
  unfold frame in Hf. rewrite !length_app in Hf. unfold element at 1 in Hlen. cbn [length] in Hlen. rewrite !length_app in Hlen. lia.
Qed.
End values.
End documents.

(** ** The round trip *)

Lemma slice_word k r : slice (le_split 4 k ++ r) 0 4 = Some (le_split 4 k).
Proof. apply (slice_mid [] (le_split 4 k) r); by rewrite ?alen_le_split. Qed.

(** The block may be longer than the document. *)
Lemma get_length_frame els post : alen els + 5 <= INT_MAX -> get_length (frame els ++ post) = Some (alen els + 5).
Proof.
  intros Hl. pose proof (alen_nonneg els). unfold get_length, frame. rewrite <- app_assoc, slice_word.
  cbn [fmap option_fmap option_map]. rewrite combine_split_s; [done..|unfold in_s, INT_MAX in *; lia].
Qed.

Lemma alen_frame els : alen (frame els) = alen els + 5.
Proof. unfold frame. rewrite !alen_app, alen_le_split. change (alen [z2b 0]) with 1. lia. Qed.

Lemma ldecode_frame els post t :
  alen (frame els) <= INT_MAX -> Codec.reads (rd_at (frame els ++ post)) (unpack_dict (S (length (frame els ++ post))) false) t (frame els) ->
  ldecode (Some (frame els ++ post)) = Done (Some t) tt.
Proof.
  intros Hl Hr. unfold ldecode. pose proof (alen_frame els) as E. rewrite get_length_frame, <- E by lia. set (b := frame els ++ post) in *.
  assert (wpd (unpack_dict (S (length b)) false) (fun t' _ => t' = t) (MkReader b 0 (alen (frame els)))) as W.
  { apply (Hr _ []); [|done]. rewrite app_nil_r. split; [done|]. exists [], post. split_and!; done. }
  apply wpd_Done in W as (t' & s' & -> & ->). done.
Qed.

Section roundtrip.
Context (meta_len : Z -> option value).

(** The table that a document becomes. *)
Definition norm_root (v : value) : tree := TTable (norm_items meta_len MAX_DEPTH false (default [] (root_items v))).

Lemma ldecode_bytes v post :
  root_ok meta_len v -> alen (enc_root meta_len v) <= INT_MAX -> ldecode (Some (enc_root meta_len v ++ post)) = Done (Some (norm_root v)) tt.
Proof.
  unfold root_ok, enc_root, norm_root. intros Hv Hl. destruct (root_items v) as [l|]; [|done]. destruct Hv as [Hk Hp]. change (default [] (Some l)) with l in *.
  apply ldecode_frame; [done|]. apply reads_items; [done|done|done|]. rewrite Forall_forall in *. intros kv Hkv. apply reads_value; [auto|].
  pose proof (length_mjoin_elem (fun kv => element (enc_type meta_len kv.2) kv.1 (enc_body meta_len MAX_DEPTH kv.2)) l kv Hkv) as Hlen.
  unfold frame. rewrite !length_app. unfold element at 1 in Hlen. cbn [length] in Hlen. rewrite !length_app in Hlen. unfold enc_items. lia.
Qed.

(** C6: [ldecode] of the block that [lencode] makes gives the table back: the round trip of
    every table whose keys and strings are UTF-8 without zeros in the keys, with integers,
    doubles, booleans, the values of the other BSON types, and tables nested up to 128 deep. *)
Theorem bson_roundtrip v b :
  root_ok meta_len v -> alen (enc_root meta_len v) <= wr_limit ->
  exists block b', lencode meta_len v b = Done block b' /\ ldecode (Some block) = Done (Some (norm_root v)) tt.
Proof.
  intros Hv Hl. destruct (lencode_bytes meta_len v b Hv Hl) as (b' & E). exists (enc_root meta_len v), b'. split; [done|].
  rewrite <- (app_nil_r (enc_root meta_len v)). apply ldecode_bytes; [done|]. unfold wr_limit, INT_MAX in *. lia.
Qed.
End roundtrip.

(** A table with an array, a string outside ASCII and a date. *)
Definition sample_array : value := VTable 2 2 [(VInt 1, VReal 0x3FF8000000000000); (VInt 2, VBool true)] [] None.
Definition sample : value :=
  VTable 1 0 [(VStr (z2b <$> [97]), VInt (-5)); (VStr (z2b <$> [98]), sample_array); (VStr (z2b <$> [99]), VStr (z2b <$> [0xC3; 0xA9]));
              (VStr (z2b <$> [100]), VStr (ldate 77))] [] None.

Lemma sample_ok : root_ok (fun _ => None) sample.
Proof.
  assert (forall c, 0 < c < 0x80 -> key_ok [z2b c]) as Hk.
  { intros c Hc. split; [apply ascii_utf8, Forall_singleton; rewrite b2z_z2b_small; lia|].
    intros H%list_elem_of_singleton. apply (f_equal b2z) in H. rewrite !b2z_z2b_small in H; lia. }
  split.
  - split; [refine (bool_decide_eq_true_1 _ _); vm_compute; reflexivity|]. repeat (constructor; [apply Hk; lia|]). constructor.
  - constructor; [split; vm_compute; discriminate || done|]. constructor; [|constructor; [|constructor; [done|constructor]]].
    + split; [done|]. constructor; [split; vm_compute; discriminate || done|]. by constructor.
    + split; [|done]. exists [0xE9]. split; [repeat constructor; vm_compute; discriminate|vm_compute; reflexivity].
Qed.

Lemma bson_roundtrip_witness :
  exists block b', lencode (fun _ => None) sample bson_create = Done block b' /\
    ldecode (Some block) = Done (Some (norm_root (fun _ => None) sample)) tt.
Proof. apply (bson_roundtrip (fun _ => None) sample bson_create); [apply sample_ok|vm_compute; discriminate]. Defined.

(** ** What the checks leave open *)

Definition enc_of (v : value) : option bytes :=
  match lencode (fun _ => None) v bson_create with Done b _ => Some b | _ => None end.

Definition field (v : value) : value := VTable 1 0 [(VStr [z2b 97], v)] [] None.

Definition block_of (v : value) : bytes := default [] (enc_of v).

(** A key with a zero in it is written, and the document cannot be read again. *)
Example zero_key_unreadable :
  let v := VTable 1 0 [(VStr (z2b <$> [97; 0; 98]), VInt 1)] [] None in
  enc_of v = Some (block_of v) /\ ldecode (Some (block_of v)) = Raise "Invalid bson type" tt.
Proof. split; vm_compute; reflexivity. Qed.

(** A binary value without its subtype is written with the length -1. *)
Example binary_without_subtype :
  let v := field (VStr (z2b <$> [0; 5])) in
  enc_of v = Some (block_of v) /\ slice (block_of v) 7 4 = Some (le_split 4 (-1)) /\ ldecode (Some (block_of v)) = Raise "Invalid bson block" tt.
Proof. split_and!; vm_compute; reflexivity. Qed.

(** The length in a block is not checked against its size. *)
Example short_block_overread : ldecode (Some (le_split 4 100)) = Fault OutOfBounds.
Proof. vm_compute. reflexivity. Qed.

(** The negative length of a document inside another moves the reader before the block. *)
Example negative_length_overread :
  ldecode (Some (le_split 4 12 ++ [z2b 3; z2b 97; z2b 0] ++ le_split 4 (-1000) ++ [z2b 0])) = Fault OutOfBounds.
Proof. vm_compute. reflexivity. Qed.

(** The byte 0xFF with seven following bytes is shifted by 35 bits. *)
Example utf8_wide_shift : write_string (z2b <$> [255; 128; 128; 128; 128; 128; 128; 128]) bson_create = Fault UndefinedBehaviour.
Proof. vm_compute. reflexivity. Qed.

(** ** Object ids *)

Lemma hex_digit_value d : 0 <= d < 16 -> hextoint (hex_digit d) = d.
Proof.
  intros Hd. assert (Forall (fun d => hextoint (hex_digit d) = d) (seqZ 0 16)) as H by (by repeat constructor).
  rewrite Forall_forall in H. apply H, elem_of_seqZ. lia.
Qed.

Lemma from_to_hex s : from_hex (to_hex s) = s.
Proof.
  induction s as [|b s IH]; [done|]. unfold to_hex in *. rewrite fmap_cons, mjoin_cons. cbn [app from_hex]. rewrite IH. f_equal.
  pose proof (b2z_range b). change 15 with (Z.ones 4). rewrite Z.shiftr_div_pow2, Z.land_ones by lia.
  rewrite !hex_digit_value by (change (2 ^ 4) with 16; dlia). rewrite Z.lor_comm, lor_shiftl by (change (2 ^ 4) with 16; dlia).
  rewrite <- (z2b_b2z b) at 3. f_equal. change (2 ^ 4) with 16. dlia.
Qed.

(** The text of an object id gives the object id back. *)
Lemma objectid_text_roundtrip header ti counter id :
  alen id = 12 ->
  exists text, lsubtype (St := Z) BSON_OBJECTID id counter = Done ("objectid"%string, [VStr text]) counter /\
    lobjectid header ti (VStr text) counter = Done (z2b 0 :: z2b BSON_OBJECTID :: id) counter.
Proof.
  intros Hid. exists (to_hex id). unfold lsubtype, lobjectid. rewrite Hid. split; [done|].
  assert (alen (to_hex id) = 24) as ->; [|by rewrite from_to_hex].
  assert (forall s, alen (to_hex s) = 2 * alen s) as ->; [|lia].
  induction s as [|b s IH]; [done|]. unfold to_hex in *. rewrite fmap_cons, mjoin_cons, alen_app, IH, (alen_cons b). change (alen [_; _]) with 2. lia.
Qed.

(** The ids that a process makes one after another, at these times. *)
Fixpoint objectids (header : bytes) (times : list Z) : M Z (list bytes) :=
  match times with
  | [] => mret []
  | ti :: times => id ← lobjectid header ti VNil; ids ← objectids header times; mret (id :: ids)
  end.

(** The id with this counter. *)
Definition oid (header : bytes) (ti id : Z) : bytes :=
  z2b 0 :: z2b BSON_OBJECTID :: (z2b <$> [Z.shiftr ti 24; Z.shiftr ti 16; Z.shiftr ti 8; ti]) ++ header ++ (z2b <$> [Z.shiftr id 16; Z.shiftr id 8; id]).

Lemma oid_inj header t1 t2 a b : oid header t1 a = oid header t2 b -> a mod 2 ^ 24 = b mod 2 ^ 24.
Proof.
  unfold oid. intros [= _ _ _ _ H]. apply app_inj_1 in H as [_ H]; [|done]. cbn in H. injection H as H2 H1 H0.
  apply (f_equal b2z) in H2, H1, H0. rewrite !b2z_z2b, !Z.shiftr_div_pow2 in * by lia. dlia.
Qed.

Lemma objectids_spec header times counter :
  in_u 32 counter ->
  exists ids c, objectids header times counter = Done ids c /\ length ids = length times /\
    Forall (fun id => exists ti j, 0 <= j < alen times /\ id = oid header ti (u32 (counter + j))) ids /\ (alen times <= 2 ^ 24 -> NoDup ids).
Proof.
  unfold in_u. revert counter. induction times as [|ti times IH]; intros counter Hc; cbn [objectids].
  - exists [], counter. split_and!; try done. intros _. constructor.
  - destruct (IH (u32 (counter + 1))) as (ids & c & E & Hlen & Hf & Hd); [by apply uwrap_range|].
    exists (oid header ti counter :: ids), c. pose proof (alen_nonneg times). rewrite alen_cons.
    assert (forall j, u32 (u32 (counter + 1) + j) = u32 (counter + (j + 1))) as Ej.
    { intros j. unfold uwrap. rewrite Zplus_mod_idemp_l. f_equal. lia. }
    split_and!.
    + unfold mbind at 1, M_bind at 1. change (lobjectid header ti VNil counter) with (Done (oid header ti counter) (u32 (counter + 1))). cbv beta iota. by rewrite (bind_Done _ _ _ _ _ E).
    + cbn. by rewrite Hlen.
    + constructor; [exists ti, 0; split; [lia|]; by rewrite Z.add_0_r, uwrap_small|]. eapply Forall_impl; [exact Hf|]. intros id (t & j & Hj & ->).
      exists t, (j + 1). split; [lia|]. by rewrite Ej.
    + intros Hl. constructor; [|apply Hd; lia]. intros Hin. rewrite Forall_forall in Hf. destruct (Hf _ Hin) as (t & j & Hj & Eo).
      apply oid_inj in Eo. rewrite Ej in Eo. unfold uwrap in Eo. dlia.
Qed.

(** Any 2^24 ids that a process makes in a row are distinct, whatever the clock says. *)
Theorem objectids_distinct header times counter :
  in_u 32 counter -> alen times <= 2 ^ 24 -> exists ids c, objectids header times counter = Done ids c /\ length ids = length times /\ NoDup ids.
Proof. intros Hc Hl. destruct (objectids_spec header times counter Hc) as (ids & c & E & Hlen & _ & Hd). eauto 10. Qed.
