(* ===== verification/BsonGrammar.v ===== *)
(** * The documents that the BSON decoder accepts (lua-bson.c)

    A grammar of documents with the table that each stands for, given without the reader:
    [ldecode] returns a table exactly for the blocks that start with a document of the
    grammar, and returns the table of that document. The depth of nesting is not bounded; the
    stacks of Lua and of C, which bound it, are not modelled. *)

From S2P Require Import Prelude Outcome Codec LuaValue Bson BsonWrite BsonRead.

(** ** The grammar *)

(** The bytes of an object that is kept as it is which its first four bytes, its length, do not
    count. *)
Definition uncounted (bt : Z) : option Z :=
  if bt =? BSON_DBPOINTER then Some 16
  else if (bt =? BSON_JSCODE) || (bt =? BSON_SYMBOL) then Some 4
  else if bt =? BSON_CODEWS then Some 0
  else None.

(** [bson_value bt body rest t]: [body], which the bytes [rest] of the same document follow, is
    a value [t] of type [bt]. The last byte of a string is not looked at. [rest] is there
    because an object of a counted length may be shorter than its length field. *)
Inductive bson_value : Z -> bytes -> bytes -> tree -> Prop :=
| val_real v rest : 0 <= v < 2 ^ 64 -> bson_value BSON_REAL (le_split 8 v) rest (TReal v)
| val_boolean c rest : bson_value BSON_BOOLEAN [c] rest (TBool (negb (b2z c =? 0)))
| val_string s c rest : alen s < INT_MAX -> bson_value BSON_STRING (le_split 4 (alen s + 1) ++ s ++ [c]) rest (TStr s)
| val_document d t rest : bson_doc false d t -> bson_value BSON_DOCUMENT d rest t
| val_array d t rest : bson_doc true d t -> bson_value BSON_ARRAY d rest t
| val_binary c d rest :
    alen d < INT_MAX -> bson_value BSON_BINARY (le_split 4 (alen d) ++ [c] ++ d) rest (TStr (z2b 0 :: z2b BSON_BINARY :: c :: d))
| val_objectid d rest : alen d = 12 -> bson_value BSON_OBJECTID d rest (TStr (z2b 0 :: z2b BSON_OBJECTID :: d))
| val_date v rest :
    in_s 64 v -> bson_value BSON_DATE (le_split 8 v) rest (TStr (z2b 0 :: z2b BSON_DATE :: le_split 4 (u32 (Z.quot v 1000))))
| val_constant bt rest : bt = BSON_MINKEY \/ bt = BSON_MAXKEY \/ bt = BSON_NULL -> bson_value bt [] rest (TStr [z2b 0; z2b bt])
| val_regex r1 r2 rest :
    (z2b 0 ∉ r1) -> (z2b 0 ∉ r2) ->
    bson_value BSON_REGEX ((r1 ++ [z2b 0]) ++ r2 ++ [z2b 0]) rest (TStr (z2b 0 :: z2b BSON_REGEX :: (r1 ++ [z2b 0]) ++ r2 ++ [z2b 0]))
| val_int32 v rest : in_s 32 v -> bson_value BSON_INT32 (le_split 4 v) rest (TInt v)
| val_timestamp inc ts rest :
    in_s 32 inc -> in_s 32 ts ->
    bson_value BSON_TIMESTAMP (le_split 4 inc ++ le_split 4 ts) rest (TStr (z2b 0 :: z2b BSON_TIMESTAMP :: le_split 4 inc ++ le_split 4 ts))
| val_int64 v rest : in_s 64 v -> bson_value BSON_INT64 (le_split 8 v) rest (TInt v)
| val_counted bt x k body rest r :
    uncounted bt = Some x -> in_s 32 k -> body ++ rest = le_split 4 k ++ r -> alen body = k + x ->
    bson_value bt body rest (TStr (z2b 0 :: z2b bt :: body))

(** The elements, added to the entries of a table. *)
with bson_elements : bool -> list (tree * tree) -> bytes -> list (tree * tree) -> Prop :=
| els_nil array entries : bson_elements array entries [] entries
| els_cons array entries c key body rest v entries' :
    (z2b 0 ∉ key) -> (array = true -> strtol key < 2 ^ 63 - 1) -> bson_value (b2z c) body rest v ->
    bson_elements array (set_entry (tree_key array key) v entries) rest entries' ->
    bson_elements array entries (c :: (key ++ [z2b 0]) ++ body ++ rest) entries'

with bson_doc : bool -> bytes -> tree -> Prop :=
| doc_frame array els entries :
    alen els + 5 <= INT_MAX -> bson_elements array [] els entries -> bson_doc array (frame els) (TTable entries).

(** ** What was read is in the grammar *)

Lemma bind_inv {St A B} (c : M St A) (k : A -> M St B) s b s' :
  (c ≫= k) s = Done b s' -> exists a s1, c s = Done a s1 /\ k a s1 = Done b s'.
Proof. unfold mbind, M_bind. destruct (c s) as [a s1| |]; [eauto|done..]. Qed.

(** The reader [n] bytes on. *)
Definition advance (n : Z) (s : bson_reader) : bson_reader := MkReader (mem s) (rptr s + n) (rsize s - n).

Lemma read_bytes_inv n s p s' : read_bytes n s = Done p s' -> n <= rsize s /\ p = rptr s /\ s' = advance n s.
Proof.
  unfold read_bytes, check_reader, skip, get, put, require, mbind, M_bind. destruct (Z.ltb_spec (rsize s) n); [done|].
  cbn. case_bool_decide; [|done]. intros [= <- <-]. done.
Qed.

Lemma fixed_inv n {A} (g : bytes -> A) s a s' :
  (check_reader n;; d ← here n; skip n;; mret (g d)) s = Done a s' ->
  exists d, n <= rsize s /\ slice (mem s) (rptr s) n = Some d /\ a = g d /\ s' = advance n s.
Proof.
  unfold check_reader, here, bytes_at, deref, skip, get, put, require, mbind, M_bind. destruct (Z.ltb_spec (rsize s) n); [done|].
  cbn. destruct (slice _ _ _) as [d|]; [|done]. cbn. case_bool_decide; [|done]. intros [= <- <-]. eauto.
Qed.

Lemma bytes_at_inv p n s d s' : bytes_at p n s = Done d s' -> slice (mem s) p n = Some d /\ s' = s.
Proof. unfold bytes_at, get, deref, mbind, M_bind. destruct (slice _ _ _) as [x|]; [|done]. by intros [= -> ->]. Qed.

Lemma int_add_inv k n s r s' : int_add k n s = Done r s' -> r = k + n /\ s' = s.
Proof. unfold int_add, require, mbind, M_bind. case_bool_decide; [|done]. by intros [= <- <-]. Qed.

(** Four or eight bytes and the number in them. *)
Lemma split_combine_s w n d : w = 8 * Z.of_nat n -> 0 < w -> length d = n -> le_split n (swrap w (le_combine d)) = d.
Proof. intros -> Hw <-. rewrite <- le_split_uwrap, uwrap_swrap, le_split_uwrap by done. apply split_le_combine. Qed.

Section sound.
Context (m : bytes).

Lemma rd_at_advance s inp n :
  rd_at m s inp -> 0 <= n <= alen inp -> slice m (rptr s) n = Some (take (Z.to_nat n) inp) /\ rd_at m (advance n s) (drop (Z.to_nat n) inp).
Proof.
  intros (Hm & pre & post & E & Hp & Hs & Hl) Hn. rewrite <- (take_drop (Z.to_nat n) inp), <- app_assoc in E.
  assert (alen (take (Z.to_nat n) inp) = n) as Ht by (apply alen_take; lia). assert (alen (drop (Z.to_nat n) inp) = alen inp - n) as Hd by (apply alen_drop; lia). split.
  - rewrite E. by apply slice_mid.
  - split; [done|]. exists (pre ++ take (Z.to_nat n) inp), post. cbn. rewrite <- app_assoc, alen_app. split_and!; [done|lia|lia|lia].
Qed.

(** [c] only takes input of [P], where the bytes that it leaves may be looked at too. *)
Definition accepts {A} (c : Rd A) (P : A -> bytes -> bytes -> Prop) : Prop :=
  forall s inp a s', rd_at m s inp -> c s = Done a s' -> exists body rest, inp = body ++ rest /\ rd_at m s' rest /\ P a body rest.

Lemma accepts_bind {A B} (c : Rd A) (k : A -> Rd B) P Q (R : B -> bytes -> bytes -> Prop) :
  accepts c P -> (forall a, accepts (k a) (Q a)) -> (forall a b b1 b2 rest, P a b1 (b2 ++ rest) -> Q a b b2 rest -> R b (b1 ++ b2) rest) -> accepts (c ≫= k) R.
Proof.
  intros Hc Hk HR s inp b s' K (a & s1 & E1 & E2)%bind_inv. destruct (Hc _ _ _ _ K E1) as (b1 & r1 & -> & K1 & H1).
  destruct (Hk a _ _ _ _ K1 E2) as (b2 & rest & -> & K2 & H2). exists (b1 ++ b2), rest. rewrite <- app_assoc. eauto.
Qed.

Lemma accepts_ret {A} (a : A) (P : A -> bytes -> bytes -> Prop) : (forall rest, P a [] rest) -> accepts (mret a) P.
Proof. intros H s inp b s' K [= <- <-]. by exists [], inp. Qed.

Lemma accepts_error {A} e (P : A -> bytes -> bytes -> Prop) : accepts (luaL_error e) P.
Proof. done. Qed.

(** The value of one read. *)
Lemma accepts_map {A B} (c : Rd A) (g : A -> B) (P : A -> bytes -> bytes -> Prop) (R : B -> bytes -> bytes -> Prop) :
  accepts c P -> (forall a b rest, P a b rest -> R (g a) b rest) -> accepts (x ← c; mret (g x)) R.
Proof.
  intros Hc HR s inp b s' K (a & s1 & E1 & [= <- <-])%bind_inv. destruct (Hc _ _ _ _ K E1) as (b1 & r1 & -> & K1 & H1). eauto 6.
Qed.

Lemma accepts_fixed n {A} (g : bytes -> A) : 0 <= n -> accepts (check_reader n;; d ← here n; skip n;; mret (g d)) (fun a b _ => a = g b /\ alen b = n).
Proof.
  intros Hn s inp a s' K (d & Hs & Hd & -> & ->)%fixed_inv. destruct (rd_at_size _ _ _ K) as [Hz _].
  destruct (rd_at_advance s inp n K ltac:(lia)) as [Hsl K']. rewrite (rd_at_mem _ _ _ K), Hsl in Hd. injection Hd as <-.
  exists (take (Z.to_nat n) inp), (drop (Z.to_nat n) inp). rewrite take_drop. split_and!; [done|done|done|apply alen_take; lia].
Qed.

Lemma accepts_byte : accepts read_byte (fun v b _ => exists c, b = [c] /\ v = b2z c).
Proof.
  intros s inp a s' K E. destruct (accepts_fixed 1 le_combine ltac:(lia) s inp a s' K E) as (b & rest & -> & K' & -> & Hb).
  exists b, rest. split_and!; [done|done|]. rewrite alen_length in Hb. destruct b as [|c [|]]; cbn in Hb; try lia. exists c. by destruct c.
Qed.

Lemma accepts_int32 : accepts read_int32 (fun v b _ => in_s 32 v /\ b = le_split 4 v).
Proof.
  intros s inp a s' K E. destruct (accepts_fixed 4 (fun d => s32 (le_combine d)) ltac:(lia) s inp a s' K E) as (b & rest & -> & K' & -> & Hb).
  exists b, rest. rewrite alen_length in Hb. split; [done|]. split; [done|]. split; [by apply swrap_range|]. symmetry. apply split_combine_s; lia.
Qed.

Lemma accepts_int64 : accepts read_int64 (fun v b _ => in_s 64 v /\ b = le_split 8 v).
Proof.
  intros s inp a s' K E. destruct (accepts_fixed 8 (fun d => s64 (le_combine d)) ltac:(lia) s inp a s' K E) as (b & rest & -> & K' & -> & Hb).
  exists b, rest. rewrite alen_length in Hb. split; [done|]. split; [done|]. split; [by apply swrap_range|]. symmetry. apply split_combine_s; lia.
Qed.

Lemma accepts_double : accepts read_double (fun v b _ => 0 <= v < 2 ^ 64 /\ b = le_split 8 v).
Proof.
  intros s inp a s' K E. destruct (accepts_fixed 8 le_combine ltac:(lia) s inp a s' K E) as (b & rest & -> & K' & -> & Hb).
  exists b, rest. rewrite alen_length in Hb. assert (length b = 8%nat) as El by lia. pose proof (le_combine_bound b) as Hr. rewrite El in Hr.
  split; [done|]. split; [done|]. split; [done|]. rewrite <- El. symmetry. apply split_le_combine.
Qed.

Lemma accepts_bytes n : 0 <= n -> accepts (read_bytes n) (fun p b _ => alen b = n /\ slice m p n = Some b).
Proof.
  intros Hn s inp p s' K (Hs & -> & ->)%read_bytes_inv. destruct (rd_at_size _ _ _ K) as [Hz _].
  destruct (rd_at_advance s inp n K ltac:(lia)) as [Hsl K']. exists (take (Z.to_nat n) inp), (drop (Z.to_nat n) inp).
  rewrite take_drop. split_and!; [done|done|apply alen_take; lia|done].
Qed.

Lemma accepts_at p n : accepts (bytes_at p n) (fun d b _ => b = [] /\ slice m p n = Some d).
Proof. intros s inp d s' K [H ->]%bytes_at_inv. rewrite (rd_at_mem _ _ _ K) in H. by exists [], inp. Qed.

(** The end of a string. *)
Lemma cstring_loop fuel s i j s' :
  loop fuel (fun i =>
    if i =? rsize s then luaL_error "Invalid bson block : cstring" else
    c ← deref OutOfBounds (aget (mem s) (rptr s + i));
    mret (if b2z c =? 0 then inr i else inl (i + 1))) i s = Done j s' ->
  i <= rsize s ->
  s' = s /\ i <= j < rsize s /\ aget (mem s) (rptr s + j) = Some (z2b 0) /\
  forall k c, i <= k < j -> aget (mem s) (rptr s + k) = Some c -> c <> z2b 0.
Proof.
  revert i. induction fuel as [|fuel IH]; intros i E Hi; [done|]. cbn [loop] in E. apply bind_inv in E as (r & s1 & E1 & E2).
  destruct (Z.eqb_spec i (rsize s)) as [|Hne]; [done|]. apply bind_inv in E1 as (c & s2 & E0 & [= <- <-]).
  destruct (aget (mem s) (rptr s + i)) as [c'|] eqn:Ec; [|done]. injection E0 as <- <-. destruct (Z.eqb_spec (b2z c') 0) as [E0|Hc].
  - injection E2 as <- <-. split_and!; [done|lia|lia|by rewrite Ec, <- E0, z2b_b2z|]. intros k c Hk. lia.
  - destruct (IH (i + 1) E2 ltac:(lia)) as (-> & ? & ? & Hall). split_and!; [done|lia|lia|done|]. intros k c Hk Hck. destruct (decide (k = i)) as [->|].
    + rewrite Ec in Hck. injection Hck as <-. intros ->. by rewrite b2z_z2b_small in Hc by lia.
    + apply (Hall k); [lia|done].
Qed.

Lemma accepts_cstring : accepts read_cstring (fun k b _ => b = k ++ [z2b 0] /\ z2b 0 ∉ k).
Proof.
  intros s inp k s' K E. unfold read_cstring in E. apply bind_inv in E as (br & s0 & [= <- <-] & E). apply bind_inv in E as (j & s1 & E1 & E).
  destruct (rd_at_size _ _ _ K) as [Hz _]. pose proof (alen_nonneg inp). apply cstring_loop in E1 as (-> & Hj & H0 & Hall); [|lia].
  apply bind_inv in E as (d & s2 & [Hd ->]%bytes_at_inv & E). apply bind_inv in E as ([] & s3 & E3 & [= <- <-]).
  assert (s3 = advance (j + 1) s) as ->.
  { unfold skip, get, put, require, mbind, M_bind in E3. cbn in E3. case_bool_decide; [|done]. by injection E3 as <-. }
  destruct (rd_at_advance s inp j K ltac:(lia)) as [Hsl _]. destruct (rd_at_advance s inp (j + 1) K ltac:(lia)) as [_ K'].
  rewrite (rd_at_mem _ _ _ K) in *. rewrite Hsl in Hd. injection Hd as <-.
  assert (forall i, 0 <= i < alen inp -> aget m (rptr s + i) = aget inp i) as Hget.
  { intros i Hi. destruct K as (_ & pre & post & -> & -> & _). rewrite aget_app_r by lia. replace (alen pre + i - alen pre) with i by lia. apply aget_app_l. lia. }
  exists (take (Z.to_nat j) inp ++ [z2b 0]), (drop (Z.to_nat (j + 1)) inp).
  assert (inp !! Z.to_nat j = Some (z2b 0)) as Hj0 by (rewrite <- aget_lookup, <- Hget by lia; done). split_and!.
  - rewrite <- app_assoc. replace (Z.to_nat (j + 1)) with (S (Z.to_nat j)) by lia. cbn [app]. by rewrite <- (drop_S _ _ _ Hj0), take_drop.
  - done.
  - done.
  - intros Hin. apply list_elem_of_lookup in Hin as [i Hi]. apply lookup_take_Some in Hi as [Hi Hlt].
    apply (Hall (Z.of_nat i) (z2b 0) ltac:(lia)); [|done]. rewrite Hget by lia. rewrite aget_lookup, Nat2Z.id by lia. done.
Qed.

Lemma slice_snoc p n x d : slice m p n = Some x -> slice m p (n - 1) = Some d -> exists c, x = d ++ [c].
Proof.
  intros (a1 & c1 & -> & <- & <-)%slice_Some (a2 & c2 & E & Ha & Hd)%slice_Some. rewrite !alen_length in *.
  apply app_inj_1 in E as [_ E]; [|lia]. assert (x = d ++ drop (length d) x) as Ex.
  { rewrite <- (take_drop (length d) x) at 1. f_equal. apply (f_equal (take (length d))) in E.
    rewrite take_app_le, take_app_length in E by lia. done. }
  assert (length (drop (length d) x) = 1%nat) as El by (rewrite length_drop; lia).
  destruct (drop (length d) x) as [|c [|]]; cbn in El; try lia. by exists c.
Qed.

Context (ud : bool -> Rd tree) (Hud : forall array, accepts (ud array) (fun t b _ => bson_doc array b t)).

Lemma accepts_string : accepts (unpack_value ud BSON_STRING) (fun t b rest => bson_value BSON_STRING b rest t).
Proof.
  intros s inp t s' K E. change (unpack_value ud BSON_STRING) with (sz ← read_int32; if sz <=? 0 then luaL_error "Invalid bson string" else p ← read_bytes sz; d ← bytes_at p (sz - 1); mret (TStr d)) in E.
  apply bind_inv in E as (sz & s1 & E1 & E). destruct (accepts_int32 _ _ _ _ K E1) as (b1 & r1 & -> & K1 & Hsz & ->).
  destruct (Z.leb_spec sz 0); [done|]. apply bind_inv in E as (p & s2 & E2 & E).
  destruct (accepts_bytes sz ltac:(lia) _ _ _ _ K1 E2) as (x & rest & -> & K2 & Hx & Hsl).
  apply bind_inv in E as (d & s3 & [Hd ->]%bytes_at_inv & [= <- <-]). rewrite (rd_at_mem _ _ _ K2) in Hd.
  destruct (slice_snoc _ _ _ _ Hsl Hd) as [c ->]. exists (le_split 4 sz ++ d ++ [c]), rest. rewrite <- !app_assoc. split; [done|]. split; [done|].
  rewrite alen_snoc in Hx. subst sz. constructor. unfold in_s, INT_MAX in *. lia.
Qed.

Lemma accepts_binary : accepts (unpack_value ud BSON_BINARY) (fun t b rest => bson_value BSON_BINARY b rest t).
Proof.
  intros s inp t s' K E. change (unpack_value ud BSON_BINARY) with (sz ← read_int32; subtype ← read_byte; p ← read_bytes sz;
      if sz <? 0 then luaL_error "buffer too large" else d ← bytes_at p sz; mret (TStr (z2b 0 :: z2b BSON_BINARY :: z2b subtype :: d))) in E.
  apply bind_inv in E as (sz & s1 & E1 & E). destruct (accepts_int32 _ _ _ _ K E1) as (b1 & r1 & -> & K1 & Hsz & ->).
  apply bind_inv in E as (st & s2 & E2 & E). destruct (accepts_byte _ _ _ _ K1 E2) as (b2 & r2 & -> & K2 & c & -> & ->).
  apply bind_inv in E as (p & s3 & E3 & E). destruct (Z.ltb_spec sz 0) as [|Hn]; [done|].
  destruct (accepts_bytes sz Hn _ _ _ _ K2 E3) as (x & rest & -> & K3 & Hx & Hsl).
  apply bind_inv in E as (d & s4 & [Hd ->]%bytes_at_inv & [= <- <-]). rewrite (rd_at_mem _ _ _ K3), Hsl in Hd. injection Hd as <-.
  exists (le_split 4 sz ++ [c] ++ x), rest. rewrite <- !app_assoc. split; [done|]. split; [done|].
  destruct (rd_at_size _ _ _ K) as [_ Hmax]. rewrite !alen_app, alen_le_split in Hmax. change (alen [c]) with 1 in Hmax. pose proof (alen_nonneg rest).
  subst sz. rewrite z2b_b2z. constructor. lia.
Qed.

(** An object whose first four bytes are [sz]: [f] and [g] compute the number of bytes behind the
    length field, which may be negative, and the number of all bytes. *)
Lemma accepts_counted bt x (f g : Z -> Rd Z) :
  uncounted bt = Some x -> (forall k s r s', f k s = Done r s' -> r = k + x - 4 /\ s' = s) -> (forall k s r s', g k s = Done r s' -> r = k + x /\ s' = s) ->
  accepts (br ← get; sz ← read_int32; n ← f sz; read_bytes n;; len ← g sz; make_object bt (rptr br) len) (fun t b rest => bson_value bt b rest t).
Proof.
  intros Hx Hf Hg s inp t s' K E. apply bind_inv in E as (br & s0 & [= <- <-] & E). apply bind_inv in E as (sz & s1 & E1 & E).
  destruct (accepts_int32 _ _ _ _ K E1) as (b1 & r1 & -> & _ & Hsz & ->). apply (fixed_inv 4) in E1 as (_ & _ & _ & _ & ->).
  apply bind_inv in E as (n & s2 & [-> ->]%Hf & E). apply bind_inv in E as (p & s3 & (Hn & _ & ->)%read_bytes_inv & E).
  apply bind_inv in E as (len & s4 & [-> ->]%Hg & E). unfold make_object in E. destruct (Z.ltb_spec (sz + x) 0) as [|Hl]; [done|].
  apply bind_inv in E as (d & s5 & [Hd ->]%bytes_at_inv & [= <- <-]). cbn [advance mem rsize] in *. rewrite (rd_at_mem _ _ _ K) in Hd.
  destruct (rd_at_size _ _ _ K) as [Hz _]. destruct (rd_at_advance s _ (sz + x) K ltac:(lia)) as [Hsl K']. rewrite Hsl in Hd. injection Hd as <-.
  exists (take (Z.to_nat (sz + x)) (le_split 4 sz ++ r1)), (drop (Z.to_nat (sz + x)) (le_split 4 sz ++ r1)). rewrite take_drop. split; [done|]. split.
  - unfold advance in *. cbn [mem rptr rsize]. replace (rptr s + 4 + (sz + x - 4)) with (rptr s + (sz + x)) by lia. replace (rsize s - 4 - (sz + x - 4)) with (rsize s - (sz + x)) by lia. done.
  - apply (val_counted bt x sz _ _ r1); [done|done|apply take_drop|apply alen_take; lia].
Qed.

Lemma accepts_value bt : accepts (unpack_value ud bt) (fun t b rest => bson_value bt b rest t).
Proof.
  destruct (Z.eqb_spec bt BSON_STRING) as [->|N1]; [exact accepts_string|]. destruct (Z.eqb_spec bt BSON_BINARY) as [->|N2]; [exact accepts_binary|].
  unfold unpack_value. rewrite (proj2 (Z.eqb_neq _ _) N1), (proj2 (Z.eqb_neq _ _) N2).
  destruct (Z.eqb_spec bt BSON_REAL) as [->|]; [eapply accepts_map; [apply accepts_double|intros ? ? ? [? ->]; by constructor]|].
  destruct (Z.eqb_spec bt BSON_BOOLEAN) as [->|]; [eapply accepts_map; [apply accepts_byte|intros ? ? ? (c & -> & ->); constructor]|].
  destruct (Z.eqb_spec bt BSON_DOCUMENT) as [->|]; [intros s inp t s' K E; destruct (Hud false s inp t s' K E) as (b & rest & ? & ? & ?); exists b, rest; by split_and!; [| |constructor]|].
  destruct (Z.eqb_spec bt BSON_ARRAY) as [->|]; [intros s inp t s' K E; destruct (Hud true s inp t s' K E) as (b & rest & ? & ? & ?); exists b, rest; by split_and!; [| |constructor]|].
  destruct (Z.eqb_spec bt BSON_OBJECTID) as [->|].
  { intros s inp t s' K (p & s1 & E1 & E)%bind_inv. destruct (accepts_bytes 12 ltac:(lia) _ _ _ _ K E1) as (b & rest & -> & K1 & Hb & Hsl).
    apply bind_inv in E as (d & s2 & [Hd ->]%bytes_at_inv & [= <- <-]). rewrite (rd_at_mem _ _ _ K1), Hsl in Hd. injection Hd as <-. exists b, rest. by split_and!; [| |constructor]. }
  destruct (Z.eqb_spec bt BSON_DATE) as [->|]; [eapply accepts_map; [apply accepts_int64|intros ? ? ? [? ->]; by constructor]|].
  destruct ((bt =? BSON_MINKEY) || (bt =? BSON_MAXKEY) || (bt =? BSON_NULL)) eqn:Ec; [apply accepts_ret; intros rest; constructor; lia|].
  destruct (Z.eqb_spec bt BSON_REGEX) as [->|].
  { eapply (accepts_bind _ _ _ (fun r1 t b rest => exists r2, t = TStr (z2b 0 :: z2b BSON_REGEX :: r1 ++ [z2b 0] ++ r2 ++ [z2b 0]) /\ b = r2 ++ [z2b 0] /\ z2b 0 ∉ r2)); [apply accepts_cstring| |].
    - intros r1. eapply accepts_map; [apply accepts_cstring|]. intros r2 b rest [-> ?]. by exists r2.
    - intros r1 t b1 b2 rest [-> H1] (r2 & -> & -> & H2). rewrite (app_assoc r1). by constructor. }
  destruct (Z.eqb_spec bt BSON_INT32) as [->|]; [eapply accepts_map; [apply accepts_int32|intros ? ? ? [? ->]; by constructor]|].
  destruct (Z.eqb_spec bt BSON_TIMESTAMP) as [->|].
  { eapply (accepts_bind _ _ _ (fun inc t b rest => exists ts, t = TStr (z2b 0 :: z2b BSON_TIMESTAMP :: le_split 4 inc ++ le_split 4 ts) /\ b = le_split 4 ts /\ in_s 32 ts)); [apply accepts_int32| |].
    - intros inc. eapply accepts_map; [apply accepts_int32|]. intros ts b rest [? ->]. by exists ts.
    - intros inc t b1 b2 rest [H1 ->] (ts & -> & -> & H2). by constructor. }
  destruct (Z.eqb_spec bt BSON_INT64) as [->|]; [eapply accepts_map; [apply accepts_int64|intros ? ? ? [? ->]; by constructor]|].
  assert (forall k s r s', (mret k : Rd Z) s = Done r s' -> r = k /\ s' = s) as Hret by (intros * [= <- <-]; done).
  destruct (Z.eqb_spec bt BSON_DBPOINTER) as [->|].
  { apply (accepts_counted BSON_DBPOINTER 16 (fun k => int_add k 12) (fun k => int_add k 16)); [done|..]; intros k s r s' [-> ->]%int_add_inv; (split; [lia|done]). }
  destruct ((bt =? BSON_JSCODE) || (bt =? BSON_SYMBOL)) eqn:Es.
  { refine (accepts_counted bt 4 mret (fun k => int_add k 4) _ _ _); [unfold uncounted; by rewrite (proj2 (Z.eqb_neq _ _)), Es by done|..].
    - intros k s r s' [-> ->]%Hret. split; [lia|done].
    - intros k s r s' [-> ->]%int_add_inv. done. }
  destruct (Z.eqb_spec bt BSON_CODEWS) as [->|]; [|apply accepts_error].
  refine (accepts_counted BSON_CODEWS 0 (fun k => int_add k (-4)) mret _ _ _); [done| |].
  - intros k s r s' [-> ->]%int_add_inv. split; [lia|done].
  - intros k s r s' [-> ->]%Hret. split; [lia|done].
Qed.

(** One element, and its entry. *)
Lemma accepts_element array entries :
  accepts (bt ← read_byte; key ← read_cstring; k ← unpack_key array key; v ← unpack_value ud bt; entries ← rawset k v entries; mret (inl entries : list (tree * tree) + list (tree * tree)))
    (fun r b rest => exists c key body v, b = c :: (key ++ [z2b 0]) ++ body /\ (z2b 0 ∉ key) /\ (array = true -> strtol key < 2 ^ 63 - 1) /\
       bson_value (b2z c) body rest v /\ r = inl (set_entry (tree_key array key) v entries)).
Proof.
  intros s inp r s' K (bt & s1 & E1 & E)%bind_inv. destruct (accepts_byte _ _ _ _ K E1) as (b1 & r1 & -> & K1 & c & -> & ->).
  apply bind_inv in E as (key & s2 & E2 & E). destruct (accepts_cstring _ _ _ _ K1 E2) as (b2 & r2 & -> & K2 & -> & Hk).
  apply bind_inv in E as (k & s3 & E3 & E). assert (k = tree_key array key /\ s3 = s2 /\ (array = true -> strtol key < 2 ^ 63 - 1)) as (-> & -> & Hi).
  { unfold unpack_key in E3. destruct array; [|injection E3 as <- <-; done]. apply bind_inv in E3 as ([] & s4 & E4 & [= <- <-]).
    unfold require in E4. destruct (Z.ltb_spec (strtol key) (2 ^ 63 - 1)); [|done]. by injection E4 as <-. }
  apply bind_inv in E as (v & s4 & E4 & E). destruct (accepts_value _ _ _ _ _ K2 E4) as (body & rest & -> & K4 & Hv).
  apply bind_inv in E as (entries' & s5 & E5 & [= <- <-]). assert (entries' = set_entry (tree_key array key) v entries /\ s5 = s4) as [-> ->].
  { unfold tree_key in *. by destruct array; injection E5 as <- <-. }
  exists (c :: (key ++ [z2b 0]) ++ body), rest. cbn [app]. rewrite <- !app_assoc. split; [done|]. split; [done|].
  exists c, key, body, v. by rewrite <- app_assoc.
Qed.

Lemma elements_sound array fuel : forall entries s els r s',
  rd_at m s els ->
  loop fuel (fun entries =>
    t ← get;
    if rsize t =? 0 then mret (inr entries) else
    bt ← read_byte;
    key ← read_cstring;
    k ← unpack_key array key;
    v ← unpack_value ud bt;
    entries ← rawset k v entries;
    mret (inl entries)) entries s = Done r s' -> bson_elements array entries els r.
Proof.
  induction fuel as [|fuel IH]; intros entries s els r s' K E; [done|]. cbn [loop] in E. apply bind_inv in E as (x & s1 & E1 & E).
  apply bind_inv in E1 as (t & s0 & [= <- <-] & E1). destruct (rd_at_size _ _ _ K) as [Hz _]. destruct (Z.eqb_spec (rsize s) 0) as [E0|Hne].
  - injection E1 as <- <-. injection E as <- <-. rewrite E0 in Hz. destruct els; [constructor|]. rewrite alen_cons in Hz. pose proof (alen_nonneg els). lia.
  - destruct (accepts_element array entries _ _ _ _ K E1) as (b & rest & -> & K1 & c & key & body & v & -> & Hk & Hi & Hv & ->).
    cbn [app]. rewrite <- app_assoc. econstructor; [done..|]. by eapply IH.
Qed.
End sound.

Lemma dict_sound m fuel : forall array, accepts m (unpack_dict fuel array) (fun t b _ => bson_doc array b t).
Proof.
  induction fuel as [|fuel IH]; intros array s inp t s' K E; [done|]. cbn [unpack_dict] in E. apply bind_inv in E as (sz & s1 & E1 & E).
  destruct (accepts_int32 m _ _ _ _ K E1) as (b1 & r1 & -> & K1 & Hsz & ->). apply bind_inv in E as (n & s2 & [-> ->]%int_add_inv & E).
  apply bind_inv in E as (p & s3 & E3 & E). apply bind_inv in E as (br & s4 & [= <- <-] & E). apply bind_inv in E as (end_ & s5 & E5 & E).
  destruct (Z.eqb_spec end_ 0) as [->|]; [|done]. cbn [negb] in E. apply bind_inv in E as (entries & s6 & E6 & [= <- <-]).
  unfold on_reader in E6. apply bind_inv in E6 as (br & s7 & [= <- <-] & E6). apply bind_inv in E6 as ([] & s8 & [= <-] & E6).
  apply bind_inv in E6 as (e & s9 & E9 & E6). apply bind_inv in E6 as ([] & s10 & [= <-] & [= <- <-]).
  unfold unpack_elements in E9. apply bind_inv in E9 as (br & s11 & [= <- <-] & E9). destruct (decide (0 <= sz + -5)) as [Hn|Hneg].
  - destruct (accepts_bytes m _ Hn _ _ _ _ K1 E3) as (els & r2 & -> & K3 & Hl & Hsl). destruct (accepts_byte m _ _ _ _ K3 E5) as (b3 & rest & -> & K5 & c & -> & Hc).
    assert (c = z2b 0) as -> by (by rewrite Hc, z2b_b2z). exists (frame els), rest. unfold frame. rewrite Hl. replace (sz + -5 + 5) with sz by lia.
    rewrite <- !app_assoc. split; [done|]. split; [done|]. replace sz with (alen els + 5) by lia. apply doc_frame; [unfold in_s, INT_MAX in *; lia|].
    eapply (elements_sound m (unpack_dict fuel) IH); [|exact E9]. rewrite (rd_at_mem _ _ _ K3). apply slice_Some in Hsl as (pre & post & -> & <- & _).
    split; [done|]. exists pre, post. cbn [rptr rsize]. unfold in_s, INT_MAX in *. split_and!; [done|done|lia|lia].
  - cbn [loop] in E9. apply bind_inv in E9 as (x & s12 & E10 & _). apply bind_inv in E10 as (t & s13 & [= <- <-] & E10). cbn [rsize] in E10.
    rewrite (proj2 (Z.eqb_neq _ _)) in E10 by lia. apply bind_inv in E10 as (bt & s14 & (d & Hr & _)%(fixed_inv 1 le_combine) & _). cbn in Hr. lia.
Qed.

(** ** What is in the grammar is read *)

Lemma fixed_Done n {A} (g : bytes -> A) s d :
  n <= rsize s -> in_s 32 (rsize s - n) -> slice (mem s) (rptr s) n = Some d ->
  (check_reader n;; d ← here n; skip n;; mret (g d)) s = Done (g d) (advance n s).
Proof.
  intros Hs Hr Hd. unfold check_reader, here, bytes_at, deref, skip, get, put, require, mbind, M_bind. destruct (Z.ltb_spec (rsize s) n); [lia|].
  cbn. rewrite Hd. cbn. by rewrite bool_decide_eq_true_2.
Qed.

Lemma read_bytes_Done n s : n <= rsize s -> in_s 32 (rsize s - n) -> read_bytes n s = Done (rptr s) (advance n s).
Proof.
  intros Hs Hr. unfold read_bytes, check_reader, skip, get, put, require, mbind, M_bind. destruct (Z.ltb_spec (rsize s) n); [lia|]. cbn. by rewrite bool_decide_eq_true_2.
Qed.

Section complete.
Context (m : bytes).

(** [c] reads [body] when [rest] follows. *)
Definition takes {A} (c : Rd A) (a : A) (body rest : bytes) : Prop :=
  forall s Q, rd_at m s (body ++ rest) -> (forall s', rd_at m s' rest -> Q a s') -> wpd c Q s.

Lemma reads_takes {A} (c : Rd A) a body rest : Codec.reads (rd_at m) c a body -> takes c a body rest.
Proof. intros H s Q. apply H. Qed.

Lemma takes_counted bt k n body rest r (f g : Z -> Rd Z) :
  in_s 32 k -> body ++ rest = le_split 4 k ++ r -> n = alen body - 4 ->
  (alen body <= INT_MAX -> forall s, f k s = Done n s /\ g k s = Done (alen body) s) ->
  takes (br ← get; sz ← read_int32; n ← f sz; read_bytes n;; len ← g sz; make_object bt (rptr br) len) (TStr (z2b 0 :: z2b bt :: body)) body rest.
Proof.
  intros Hk E Hn Hfg s Q K HQ. destruct (rd_at_size _ _ _ K) as [Hz Hmax]. pose proof (alen_nonneg body). pose proof (alen_nonneg rest). pose proof (alen_nonneg r).
  assert (alen (body ++ rest) = 4 + alen r) as El by (rewrite E, alen_app, alen_le_split; lia). rewrite alen_app in El, Hz, Hmax. unfold INT_MAX in *.
  destruct (Hfg ltac:(lia) (advance 4 s)) as [Hf _]. destruct (Hfg ltac:(lia) (advance n (advance 4 s))) as [_ Hg].
  assert (read_int32 s = Done k (advance 4 s)) as E1.
  { rewrite <- (combine_split_s 32 4 k) at 1 by done. apply (fixed_Done 4 (fun d => s32 (le_combine d))); [lia|unfold in_s; lia|].
    rewrite (rd_at_mem _ _ _ K). rewrite E in K. apply rd_at_slice in K. by rewrite alen_le_split in K. }
  assert (read_bytes n (advance 4 s) = Done (rptr (advance 4 s)) (advance n (advance 4 s))) as E2 by (apply read_bytes_Done; cbn; unfold in_s; lia).
  do 2 wp_step. wp_step. eapply wp_Done; [exact E1|]. wp_step. eapply wp_Done; [exact Hf|]. wp_step. eapply wp_Done; [exact E2|]. wp_step. eapply wp_Done; [exact Hg|].
  unfold make_object. destruct (Z.ltb_spec (alen body) 0); [lia|]. wp_step. unfold bytes_at. do 2 wp_step. cbn [mem advance]. rewrite (rd_at_mem _ _ _ K).
  wp_step; [by eapply rd_at_slice|]. wp_step. apply HQ. destruct (rd_at_advance m s _ (alen body) K) as [_ K']; [rewrite alen_app; lia|].
  rewrite alen_length, Nat2Z.id, drop_app_length, <- alen_length in K'. unfold advance in *. cbn [mem rptr rsize].
  replace (rptr s + 4 + n) with (rptr s + alen body) by lia. replace (rsize s - 4 - n) with (rsize s - alen body) by lia. done.
Qed.

Context (ud : bool -> Rd tree) (N : nat) (Hud : forall array d t, bson_doc array d t -> (length d < N)%nat -> Codec.reads (rd_at m) (ud array) t d).

Lemma uncounted_complete bt x k body rest r :
  uncounted bt = Some x -> in_s 32 k -> body ++ rest = le_split 4 k ++ r -> alen body = k + x -> takes (unpack_value ud bt) (TStr (z2b 0 :: z2b bt :: body)) body rest.
Proof.
  intros Hx Hk E Hl. pose proof (alen_nonneg body). unfold uncounted in Hx. destruct (Z.eqb_spec bt BSON_DBPOINTER) as [->|].
  { injection Hx as <-. refine (takes_counted BSON_DBPOINTER k (k + 12) body rest r (fun k => int_add k 12) (fun k => int_add k 16) Hk E _ _); [lia|].
    intros Hm s. unfold INT_MAX in *. split; apply int_add_Done; unfold in_s; lia. }
  destruct ((bt =? BSON_JSCODE) || (bt =? BSON_SYMBOL)) eqn:Es.
  { injection Hx as <-. assert (bt = BSON_JSCODE \/ bt = BSON_SYMBOL) as [->| ->] by lia.
    all: refine (takes_counted _ k k body rest r mret (fun k => int_add k 4) Hk E _ _); [lia|]; intros Hm s; unfold INT_MAX in *; (split; [done|apply int_add_Done; unfold in_s; lia]). }
  destruct (Z.eqb_spec bt BSON_CODEWS) as [->|]; [|done]. injection Hx as <-.
  refine (takes_counted BSON_CODEWS k (k - 4) body rest r (fun k => int_add k (-4)) mret Hk E _ _); [lia|]. intros Hm s. unfold INT_MAX in *.
  split; [apply int_add_Done; unfold in_s; lia|]. by rewrite Hl, Z.add_0_r.
Qed.

Lemma value_complete bt body rest t : bson_value bt body rest t -> (length body < N)%nat -> takes (unpack_value ud bt) t body rest.
Proof.
  intros Hv HN. destruct Hv as [v rest Hv|c rest|s c rest Hs|d t rest Hd|d t rest Hd|c d rest Hd|d rest Hd|v rest Hv|bt rest Hb|r1 r2 rest H1 H2|v rest Hv|inc ts rest Hi Ht|v rest Hv|bt x k body rest r Hx Hk E Hl];
    [..|by eapply uncounted_complete]; apply reads_takes.
  - by apply (reads_map read_double TReal), reads_double.
  - exact (reads_map read_byte (fun b => TBool (negb (b =? 0))) _ _ (reads_byte m c)).
  - by apply reads_bson_string.
  - by apply Hud.
  - by apply Hud.
  - pose proof (alen_nonneg d). pose proof (reads_special m ud BSON_BINARY (c :: d)) as Hr. unfold special_ok, special_body in Hr. cbn [Z.eqb BSON_BINARY Pos.eqb] in Hr.
    rewrite alen_cons in Hr. replace (alen d + 1 - 1) with (alen d) in Hr by lia. apply Hr; [lia|done].
  - by apply (reads_special m ud BSON_OBJECTID d).
  - by apply (reads_map read_int64 (fun date => TStr (z2b 0 :: z2b BSON_DATE :: le_split 4 (u32 (Z.quot date 1000))))), reads_int64.
  - destruct Hb as [->|[->| ->]]; apply reads_ret.
  - eapply reads_bind; [by apply reads_cstring|]. rewrite <- app_assoc.
    by apply (reads_map read_cstring (fun r2 => TStr (z2b 0 :: z2b BSON_REGEX :: r1 ++ [z2b 0] ++ r2 ++ [z2b 0]))), reads_cstring.
  - by apply (reads_map read_int32 TInt), reads_int32.
  - eapply reads_bind; [by apply reads_int32|].
    by apply (reads_map read_int32 (fun ts => TStr (z2b 0 :: z2b BSON_TIMESTAMP :: le_split 4 inc ++ le_split 4 ts))), reads_int32.
  - by apply (reads_map read_int64 TInt), reads_int64.
Qed.

Lemma elements_complete array fuel : forall entries els r s Q,
  bson_elements array entries els r -> (length els < fuel)%nat -> (length els < N)%nat -> rd_at m s els -> (forall s', Q r s') ->
  wpd (loop fuel (fun entries =>
    t ← get;
    if rsize t =? 0 then mret (inr entries) else
    bt ← read_byte;
    key ← read_cstring;
    k ← unpack_key array key;
    v ← unpack_value ud bt;
    entries ← rawset k v entries;
    mret (inl entries)) entries) Q s.
Proof.
  induction fuel as [|fuel IH]; intros entries els r s Q He Hf HN K HQ; [lia|]. cbn [loop]. wp_step. do 2 wp_step. destruct (rd_at_size _ _ _ K) as [Hz _].
  destruct He as [|array entries c key body rest v entries' Hk Hi Hv He].
  - rewrite alen_nil in Hz. rewrite Hz. cbn [Z.eqb]. do 2 wp_step. apply HQ.
  - rewrite alen_cons in Hz. pose proof (alen_nonneg ((key ++ [z2b 0]) ++ body ++ rest)). destruct (Z.eqb_spec (rsize s) 0); [lia|].
    cbn [length] in *. rewrite !length_app in *. cbn [length] in *. wp_step. apply (reads_byte m c s ((key ++ [z2b 0]) ++ body ++ rest)); [done|]. intros s1 K1.
    wp_step. apply (reads_cstring m key Hk s1 (body ++ rest)); [done|]. intros s2 K2. wp_step.
    eapply (wp_Done _ _ _ (tree_key array key) s2).
    { unfold unpack_key. destruct array; [|done]. unfold require. by rewrite (proj2 (Z.ltb_lt _ _)) by auto. }
    wp_step. apply (value_complete (b2z c) body rest v Hv ltac:(lia) s2); [done|]. intros s3 K3. wp_step.
    eapply (wp_Done _ _ _ (set_entry (tree_key array key) v entries) s3); [by destruct array|]. wp_step. apply (IH _ rest entries'); try done; lia.
Qed.
End complete.

Lemma dict_complete m fuel : forall array d t, bson_doc array d t -> (length d < fuel)%nat -> Codec.reads (rd_at m) (unpack_dict fuel array) t d.
Proof.
  induction fuel as [|fuel IH]; intros array d t Hd Hf; [lia|]. destruct Hd as [array els entries Hl He]. apply reads_unpack_dict. intros s Q K HQ.
  unfold frame in Hf. rewrite !length_app, length_le_split in Hf. cbn [length] in Hf. unfold unpack_elements. do 2 wp_step.
  apply (elements_complete m (unpack_dict fuel) fuel IH array _ [] els entries); try done; [|lia].
  destruct K as (-> & pre & post & -> & _). rewrite !length_app. lia.
Qed.

(** A block that declares more bytes than it has is not decoded. *)
Lemma decoded_length b len fuel t s' :
  get_length b = Some len -> unpack_dict fuel false (MkReader b 0 len) = Done t s' -> 0 <= len <= alen b.
Proof.
  intros Hg E. destruct fuel as [|fuel]; [done|]. cbn [unpack_dict] in E. apply bind_inv in E as (sz & s1 & E1 & E).
  apply (fixed_inv 4 (fun d => s32 (le_combine d))) in E1 as (d & Hr & Hd & -> & ->). cbn [mem rptr rsize] in *.
  unfold get_length in Hg. rewrite Hd in Hg. injection Hg as Hlen. rewrite Hlen in E. apply bind_inv in E as (n & s2 & [-> ->]%int_add_inv & E).
  apply bind_inv in E as (p & s3 & (_ & _ & ->)%read_bytes_inv & E). apply bind_inv in E as (br & s4 & [= <- <-] & E). apply bind_inv in E as (e & s5 & E5 & _).
  apply (fixed_inv 1 le_combine) in E5 as (x & _ & Hx & _). cbn in Hx. apply slice_Some in Hx as (pre & post & -> & Hp & Hx).
  rewrite !alen_app. pose proof (alen_nonneg post). lia.
Qed.

(** The length of a document is in its first bytes. *)
Lemma doc_length d t rest : bson_doc false d t -> get_length (d ++ rest) = Some (alen d) /\ alen d <= INT_MAX.
Proof.
  intros Hd. remember false as array eqn:Ea. destruct Hd as [array els entries Hl _]. clear Ea. pose proof (alen_nonneg els).
  assert (alen (frame els) = alen els + 5) as El by (unfold frame; rewrite !alen_app, alen_le_split; change (alen [z2b 0]) with 1; lia).
  split; [|lia]. unfold get_length. rewrite El. unfold frame. rewrite <- app_assoc.
  assert (forall x, slice (le_split 4 (alen els + 5) ++ x) 0 4 = Some (le_split 4 (alen els + 5))) as -> by (intros x; by apply (slice_mid [] _ x); rewrite ?alen_le_split).
  cbn. f_equal. apply combine_split_s; [done|done|unfold in_s, INT_MAX in *; lia].
Qed.

(** C36: [ldecode] is a decoder of exactly the grammar: it returns a table for a block if and
    only if the block starts with a document of the grammar, whatever follows it, and then
    the table is the one that the document stands for. *)
Theorem ldecode_grammar b t :
  ldecode (Some b) = Done (Some t) tt <-> exists d rest, b = d ++ rest /\ bson_doc false d t.
Proof.
  unfold ldecode. split.
  - destruct (get_length b) as [len|] eqn:Eg; [|done]. destruct (unpack_dict _ _ _) as [t' s'| |] eqn:E; [|done..]. intros [= ->].
    pose proof (decoded_length _ _ _ _ _ Eg E) as Hlen. destruct (dict_sound b (S (length b)) false (MkReader b 0 len) (take (Z.to_nat len) b) t s') as (d & rest & Ed & _ & Hd); [|done|].
    + split; [done|]. exists [], (drop (Z.to_nat len) b). cbn [rptr rsize app]. rewrite take_drop, alen_take by lia.
      unfold get_length in Eg. destruct (slice b 0 4) as [x|]; [|done]. injection Eg as <-. pose proof (swrap_range 32 (le_combine x) ltac:(lia)) as Hr.
      unfold in_s, INT_MAX in *. split_and!; [done|done|done|lia].
    + exists d, (rest ++ drop (Z.to_nat len) b). by rewrite app_assoc, <- Ed, take_drop.
  - intros (d & rest & -> & Hd). destruct (doc_length d t rest Hd) as [-> Hmax].
    assert (wpd (unpack_dict (S (length (d ++ rest))) false) (fun a _ => a = t) (MkReader (d ++ rest) 0 (alen d))) as W.
    { eapply (dict_complete (d ++ rest)); [exact Hd|rewrite length_app; lia| |by intros]. split; [done|]. exists [], rest. cbn [rptr rsize app]. by rewrite app_nil_r. }
    apply wpd_Done in W as (a & s' & -> & ->). done.
Qed.

(** A string that does not end with a zero is taken. *)
Example string_end_unchecked :
  ldecode (Some (frame (z2b 2 :: [z2b 97; z2b 0] ++ le_split 4 2 ++ [z2b 98; z2b 99]))) = Done (Some (TTable [(TStr [z2b 97], TStr [z2b 98])])) tt.
Proof. vm_compute. reflexivity. Qed.

(** An object may be shorter than its length field, whose last bytes are then read again: a
    JavaScript code of length -1 + 4, and then the key [b] of type 255. *)
Example short_object_taken :
  ldecode (Some (frame (z2b BSON_JSCODE :: [z2b 97; z2b 0] ++ le_split 4 (-1) ++ [z2b 98; z2b 0]))) =
  Done (Some (TTable [(TStr [z2b 97], TStr [z2b 0; z2b BSON_JSCODE; z2b 255; z2b 255; z2b 255]); (TStr [z2b 98], TStr [z2b 0; z2b BSON_MINKEY])])) tt.
Proof. vm_compute. reflexivity. Qed.
