(* ===== verification/BsonReplace.v ===== *)
(** * Replacing a value in an encoded document

    [lmakeindex] finds the fields of a fixed size in a block, and [lreplace] writes a new
    value over one of them. Decoding the block then gives the table with that value. *)

From S2P Require Import Prelude Outcome Codec LuaValue Itoa Bson BsonWrite BsonRead.

(** ** Skipping fields *)

(** The size of the fields that can be replaced. *)
Definition fixed_size (type : Z) : Z :=
  if (type =? BSON_INT64) || (type =? BSON_TIMESTAMP) || (type =? BSON_DATE) || (type =? BSON_REAL) then 8
  else if type =? BSON_BOOLEAN then 1
  else if type =? BSON_OBJECTID then 12
  else if type =? BSON_INT32 then 4
  else 0.

(** A field whose body is skipped, or left for [lmakeindex] to note. *)
Definition skips (type : Z) (body : bytes) : Prop :=
  if 0 <? fixed_size type then alen body = fixed_size type
  else forall m, Codec.reads (rd_at m) (skip_field type) 0 body.

Section skipping.
Context (m : bytes).
Abbreviation reads := (Codec.reads (rd_at m)).

Lemma reads_skip_bytes d n : n = alen d -> reads (read_bytes n;; mret 0) 0 d.
Proof. intros -> s rest Q K HQ. wp_step. eapply (wp_read_bytes m); [done|done|]. intros s' K'. wp_step. by apply HQ. Qed.

Lemma reads_skip_block k a d :
  in_s 32 k -> in_s 32 (k + a) -> alen d = k + a -> reads (sz ← read_int32; n ← int_add sz a; read_bytes n;; mret 0) 0 (le_split 4 k ++ d).
Proof.
  intros Hk Ha Hd. eapply reads_bind; [by apply reads_int32|]. rewrite <- (app_nil_l d). eapply (reads_bind _ _ (alen d)); [|by apply reads_skip_bytes].
  intros s rest Q K HQ. eapply wp_Done; [by apply int_add_Done|]. by apply HQ.
Qed.

Lemma reads_skip_string k d : in_s 32 k -> alen d = k -> reads (sz ← read_int32; read_bytes sz;; mret 0) 0 (le_split 4 k ++ d).
Proof. intros Hk Hd. eapply reads_bind; [by apply reads_int32|]. by apply reads_skip_bytes. Qed.
End skipping.

Lemma special_skips subt body : special_ok subt body -> skips subt (special_body subt body).
Proof.
  intros Hs. unfold skips, special_ok, special_body in *. destruct (Z.eqb_spec subt BSON_BINARY) as [->|].
  { change (0 <? fixed_size BSON_BINARY) with false. intros m. apply (reads_skip_block m (alen body - 1) 1); unfold in_s, INT_MAX in *; lia. }
  destruct (Z.eqb_spec subt BSON_OBJECTID) as [->|]; [exact Hs|].
  destruct (Z.eqb_spec subt BSON_JSCODE) as [->|].
  { destruct Hs as (d & -> & Hl). rewrite alen_app, alen_le_split in Hl. pose proof (alen_nonneg d). intros m. apply (reads_skip_string m (alen d)); [unfold in_s, INT_MAX in *; lia|done]. }
  destruct (Z.eqb_spec subt BSON_SYMBOL) as [->|].
  { destruct Hs as (d & -> & Hl). rewrite alen_app, alen_le_split in Hl. pose proof (alen_nonneg d). intros m. apply (reads_skip_string m (alen d)); [unfold in_s, INT_MAX in *; lia|done]. }
  destruct (Z.eqb_spec subt BSON_DBPOINTER) as [->|].
  { destruct Hs as (d & -> & Hd & Hl). rewrite alen_app, alen_le_split in Hl. intros m. apply (reads_skip_block m (alen d - 12) 12); unfold in_s, INT_MAX in *; lia. }
  destruct (Z.eqb_spec subt BSON_CODEWS) as [->|].
  { destruct Hs as (d & -> & Hl). rewrite alen_app, alen_le_split in Hl. pose proof (alen_nonneg d). intros m. apply (reads_skip_block m (alen d + 4) (-4)); unfold in_s, INT_MAX in *; lia. }
  destruct (Z.eqb_spec subt BSON_DATE) as [->|]; [exact (alen_le_split 8 _)|].
  destruct (Z.eqb_spec subt BSON_TIMESTAMP) as [->|]; [exact Hs|].
  destruct (Z.eqb_spec subt BSON_REGEX) as [->|].
  { destruct Hs as (r1 & r2 & -> & _ & _ & H1 & H2). change (0 <? fixed_size BSON_REGEX) with false. intros m.
    change (skip_field BSON_REGEX) with (read_cstring;; read_cstring;; mret 0 : Rd Z). rewrite (app_assoc r1). eapply reads_bind; [by apply reads_cstring|].
    apply (reads_map read_cstring (fun _ => 0) r2). by apply reads_cstring. }
  destruct Hs as [Hs ->]. repeat (destruct Hs as [Hs|Hs]); subst subt; intros m; apply reads_ret.
Qed.

Lemma value_skips meta_len n v :
  packable meta_len n v -> alen (enc_body meta_len n v) <= INT_MAX -> skips (enc_type meta_len v) (enc_body meta_len n v).
Proof.
  intros Hv Hl. destruct v; try (by destruct n).
  - destruct n; cbn [enc_type enc_body]; destruct (is_32bit z); apply alen_le_split.
  - assert (str_ok s) as Hs by (by destruct n). assert (alen (str_body s) <= INT_MAX) as Hl' by (by destruct n).
    enough (skips (str_type s) (str_body s)) by (by destruct n). clear Hv Hl n.
    unfold str_ok, str_type, str_body in *. destruct (is_special s) as [[subt body]|]; [by apply special_skips|]. destruct Hs as [_ Hs]. pose proof (alen_nonneg s).
    intros m. apply (reads_skip_string m (alen s + 1)); [unfold in_s, INT_MAX in *; lia|by rewrite alen_snoc].
  - destruct n as [|n]; [done|]. cbn [packable enc_type enc_body] in *. destruct (children meta_len _) as [[array l]|]; [|done]. unfold frame in *.
    set (els := mjoin _) in *. pose proof (alen_nonneg els). rewrite !alen_app, alen_le_split in Hl. change (alen [z2b 0]) with 1 in *.
    destruct array; intros m; apply (reads_skip_block m (alen els + 5) (-4)); rewrite ?alen_snoc; unfold in_s, INT_MAX in *; lia.
Qed.

(** ** Fields *)

Record bfield := MkField { f_type : Z; f_key : bytes; f_body : bytes; f_tree : tree }.

Definition fbytes (f : bfield) : bytes := element (f_type f) (f_key f) (f_body f).

Record field_ok (f : bfield) : Prop := {
  ok_type : 0 <= f_type f < 256;
  ok_key : z2b 0 ∉ f_key f;
  ok_skip : skips (f_type f) (f_body f);
  ok_reads : forall m fuel, (length (f_body f) < fuel)%nat ->
    Codec.reads (rd_at m) (unpack_value (unpack_dict fuel) (f_type f)) (f_tree f) (f_body f);
  ok_tree : is_nil (f_tree f) = false }.

Definition doc (fs : list bfield) : bytes := frame (mjoin (fbytes <$> fs)).

Lemma alen_fbytes f : alen (fbytes f) = alen (f_key f) + 2 + alen (f_body f).
Proof. unfold fbytes, element. rewrite alen_cons, !alen_app. change (alen [z2b 0]) with 1. lia. Qed.

(** A document of such fields is decoded to their values. *)
Lemma ldecode_doc fs :
  Forall field_ok fs -> NoDup (f_key <$> fs) -> alen (doc fs) <= INT_MAX ->
  ldecode (Some (doc fs)) = Done (Some (TTable ((fun f => (TStr (f_key f), f_tree f)) <$> fs))) tt.
Proof.
  intros Hf Hd Hl. rewrite <- (app_nil_r (doc fs)). apply ldecode_frame; [done|]. apply reads_unpack_dict. intros s Q K HQ.
  eapply (wp_unpack_elements _ _ f_type f_key f_body f_tree false fs); [| |exact K|exact HQ].
  - rewrite Forall_forall in *. intros f Hin. destruct (Hf f Hin). split; try done. apply ok_reads0.
    pose proof (length_mjoin_elem fbytes fs f Hin) as Hlen. unfold frame. rewrite !length_app. unfold fbytes at 1, element in Hlen. cbn [length] in Hlen. rewrite !length_app in Hlen. lia.
  - change (NoDup (TStr ∘ f_key <$> fs)). rewrite list_fmap_compose. apply NoDup_fmap; [by intros ?? [=]|done].
Qed.

(** ** The index *)

(** The fields with their types and positions. *)
Fixpoint index_of (off : Z) (fs : list bfield) : list (tree * tree) :=
  match fs with
  | [] => []
  | f :: fs =>
      (if 0 <? fixed_size (f_type f) then [(TStr (f_key f), TInt (Z.lor (f_type f) (Z.shiftl (off + alen (f_key f) + 2) BSON_TYPE_SHIFT)))] else []) ++
      index_of (off + alen (fbytes f)) fs
  end.

Lemma index_of_snoc off fs f : index_of off (fs ++ [f]) = index_of off fs ++ index_of (off + alen (mjoin (fbytes <$> fs))) [f].
Proof.
  revert off. induction fs as [|g fs IH]; intros off.
  - change (alen (mjoin (fbytes <$> []))) with (alen ([] : bytes)). by rewrite alen_nil, Z.add_0_r.
  - cbn [app]. change (index_of off (g :: ?l)) with ((if 0 <? fixed_size (f_type g) then [(TStr (f_key g), TInt (Z.lor (f_type g) (Z.shiftl (off + alen (f_key g) + 2) BSON_TYPE_SHIFT)))] else []) ++ index_of (off + alen (fbytes g)) l).
    rewrite IH, fmap_cons, mjoin_cons, alen_app, app_assoc. do 2 f_equal. lia.
Qed.

Lemma index_of_keys off fs k id : (k, id) ∈ index_of off fs -> exists f, f ∈ fs /\ k = TStr (f_key f).
Proof.
  revert off. induction fs as [|f fs IH]; intros off; cbn [index_of]; [by intros ?%elem_of_nil|]. intros [H|H]%elem_of_app.
  - case_match; [|by apply elem_of_nil in H]. apply list_elem_of_singleton in H as [= -> ->]. exists f. split; [left|done].
  - destruct (IH _ H) as (g & Hg & ->). exists g. split; [by right|done].
Qed.

(** The reader is before [rest], and ends at [fin]. *)
Definition rd_in (m : bytes) (fin : Z) (s : bson_reader) (rest : bytes) : Prop := rd_at m s rest /\ rptr s + rsize s = fin.

Definition keeps {A} (c : Rd A) : Prop := forall s a s', c s = Done a s' -> rptr s' + rsize s' = rptr s + rsize s.

Lemma reads_keep {A} m fin (c : Rd A) a b : Codec.reads (rd_at m) c a b -> keeps c -> Codec.reads (rd_in m fin) c a b.
Proof.
  intros Hr Hk s rest Q [K Hs] HQ. assert (wpd c (fun a' s' => a' = a /\ rd_at m s' rest) s) as W by (by apply (Hr s rest)).
  apply wpd_Done in W as (a' & s' & E & -> & K'). eapply wp_Done; [exact E|]. apply HQ. split; [done|]. by rewrite (Hk _ _ _ E).
Qed.

Lemma keeps_bind {A B} (c : Rd A) (k : A -> Rd B) : keeps c -> (forall a, keeps (k a)) -> keeps (c ≫= k).
Proof. intros Hc Hk s b s' E. unfold mbind, M_bind in E. destruct (c s) as [a s1| |] eqn:E1; [|done..]. rewrite (Hk _ _ _ _ E). by eapply Hc. Qed.

Lemma keeps_skip n : keeps (skip n).
Proof.
  intros s a s'. unfold skip, get, put, require, mbind, M_bind. destruct (bool_decide _); [|done]. intros [= _ <-]. cbn. lia.
Qed.

Lemma keeps_loop {S A} fuel (body : S -> Rd (S + A)) x : (forall x, keeps (body x)) -> keeps (loop fuel body x).
Proof.
  intros H. revert x. induction fuel as [|fuel IH]; intros x s a s' E; [done|]. cbn [loop] in E. revert s a s' E. apply keeps_bind; [done|].
  intros [y|b]; [apply IH|]. by intros s a s' [= _ <-].
Qed.

(** Statements that only look at the reader. *)
Ltac keep_step :=
  lazymatch goal with
  | |- keeps (_ ≫= _) => apply keeps_bind; [|intros]
  | |- keeps (skip _) => apply keeps_skip
  | |- keeps (loop _ _ _) => apply keeps_loop; intros
  | |- keeps (if ?b then _ else _) => destruct b
  | |- keeps (deref _ ?o) => destruct o; by intros ??? [= _ <-]
  | |- keeps (require _ ?b) => destruct b; by intros ??? [= _ <-]
  | |- keeps _ => by intros ??? [= _ <-]
  end.
Ltac keep := repeat keep_step.

Lemma keeps_read_byte : keeps read_byte.
Proof. unfold read_byte, check_reader, here, bytes_at. keep. Qed.

Lemma keeps_read_int32 : keeps read_int32.
Proof. unfold read_int32, check_reader, here, bytes_at. keep. Qed.

Lemma keeps_read_bytes n : keeps (read_bytes n).
Proof. unfold read_bytes, check_reader. keep. Qed.

Lemma keeps_read_cstring : keeps read_cstring.
Proof. unfold read_cstring, bytes_at. keep. Qed.

Lemma keeps_skip_field type : keeps (skip_field type).
Proof.
  unfold skip_field, int_add.
  repeat first [apply keeps_read_int32 | apply keeps_read_bytes | apply keeps_read_cstring | keep_step].
Qed.

Lemma skip_field_fixed type : 0 < fixed_size type -> skip_field type = mret (fixed_size type).
Proof.
  unfold fixed_size, skip_field. intros H. destruct ((type =? BSON_INT64) || _ || _ || _); [done|]. destruct (Z.eqb_spec type BSON_BOOLEAN) as [E|]; [done|].
  destruct (Z.eqb_spec type BSON_OBJECTID) as [E|]; [by rewrite E|]. destruct (Z.eqb_spec type BSON_INT32) as [E|]; [by rewrite E|]. lia.
Qed.

Lemma fixed_type_range type : 0 < fixed_size type -> 0 <= type < 32 /\ fixed_size type <= 12.
Proof. unfold fixed_size. intros H. repeat case_match; unfold BSON_INT64, BSON_TIMESTAMP, BSON_DATE, BSON_REAL, BSON_BOOLEAN, BSON_OBJECTID, BSON_INT32 in *; lia. Qed.

Lemma wp_read_bytes_in m fin d rest n t (Q : Z -> bson_reader -> Prop) :
  rd_in m fin t (d ++ rest) -> n = alen d -> (forall t', rd_in m fin t' rest -> Q (rptr t) t') -> wpd (read_bytes n) Q t.
Proof.
  intros [K Hs] -> HQ. assert (wpd (read_bytes (alen d)) (fun p t' => p = rptr t /\ rd_at m t' rest) t) as W by (by eapply (wp_read_bytes m)).
  apply wpd_Done in W as (p & t' & E & -> & K'). eapply wp_Done; [exact E|]. apply HQ. split; [done|]. by rewrite (keeps_read_bytes _ _ _ _ E).
Qed.

(** One round: the field is noted with its position if it can be replaced. *)
Lemma wp_index_one m fin f rest idx t Q :
  field_ok f -> rd_in m fin t (fbytes f ++ rest) -> (forall k id, (k, id) ∈ idx -> exists g, k = TStr g /\ g <> f_key f) -> 0 <= fin < 2 ^ 26 ->
  (forall t', rd_in m fin t' rest -> Q (inl (idx ++ index_of (fin - alen (fbytes f) - alen rest) [f])) t') ->
  wpd (bt ← read_byte; key ← read_cstring; field_size ← skip_field bt;
    if 0 <? field_size then
      t ← get;
      require SignedOverflow (rptr t * 2 ^ BSON_TYPE_SHIFT <=? INT_MAX);;
      let id := Z.lor bt (Z.shiftl (rptr t) BSON_TYPE_SHIFT) in
      read_bytes field_size;;
      idx ← rawset (TStr key) (TInt id) idx;
      mret (inl idx)
    else mret (inl idx)) (Q : list (tree * tree) + list (tree * tree) -> _) t.
Proof.
  intros [Hty Hkey Hsk _ _] K Hidx Hfin HQ. rewrite alen_fbytes in HQ. unfold fbytes, element in K. change (z2b ?x :: ?l) with ([z2b x] ++ l) in K.
  rewrite <- !app_assoc in K. wp_step. eapply (reads_keep m fin _ _ _ (reads_byte m _) keeps_read_byte); [exact K|]. intros t1 K1. rewrite b2z_z2b_small by done.
  wp_step. rewrite app_assoc in K1. eapply (reads_keep m fin _ _ _ (reads_cstring m _ Hkey) keeps_read_cstring); [exact K1|]. intros t2 K2. wp_step.
  unfold skips in Hsk. cbn [index_of] in HQ. destruct (Z.ltb_spec 0 (fixed_size (f_type f))) as [Hfx|Hfx].
  - rewrite skip_field_fixed by done. wp_step. rewrite (proj2 (Z.ltb_lt _ _)) by done. do 3 wp_step. pose proof (rd_at_size _ _ _ (proj1 K2)) as [Hsz _]. destruct K2 as [K2 Hs2].
    rewrite alen_app in Hsz. pose proof (alen_nonneg rest). pose proof (alen_nonneg (f_body f)).
    wp_step; [change (2 ^ BSON_TYPE_SHIFT) with 32; unfold INT_MAX; lia|]. wp_step. assert (rptr t2 = fin - (alen (f_body f) + alen rest)) as Ep by lia. rewrite <- Hsk.
    eapply (wp_read_bytes_in m fin (f_body f) rest); [by split|done|]. intros t3 K3. wp_step. cbn [rawset]. wp_step. wp_step.
    rewrite set_entry_fresh; [|intros k id Hk|done].
    + rewrite Ep. rewrite app_nil_r in HQ. replace (fin - (alen (f_key f) + 2 + alen (f_body f)) - alen rest + alen (f_key f) + 2) with (fin - (alen (f_body f) + alen rest)) in HQ by lia. by apply HQ.
    + destruct (Hidx k id Hk) as (g & -> & Hg). by apply bool_decide_eq_false_2.
  - eapply (reads_keep m fin _ _ _ (Hsk m) (keeps_skip_field _)); [exact K2|]. intros t3 K3. cbn [Z.ltb Z.compare]. wp_step. rewrite app_nil_l, app_nil_r in HQ. by apply HQ.
Qed.

Lemma get_length_doc fs : alen (doc fs) <= INT_MAX -> get_length (doc fs) = Some (alen (doc fs)) /\ alen (doc fs) = alen (mjoin (fbytes <$> fs)) + 5.
Proof.
  intros Hl. unfold doc. set (els := mjoin _) in *. pose proof (alen_frame els) as E.
  unfold doc in Hl. fold els in Hl. rewrite E in *. split; [|done]. rewrite <- (app_nil_r (frame els)). by apply get_length_frame.
Qed.

Lemma lmakeindex_doc fs u :
  Forall field_ok fs -> NoDup (f_key <$> fs) -> alen (doc fs) < 2 ^ 26 ->
  lmakeindex (MkDoc (doc fs) u) = Done tt (MkDoc (doc fs) (Some (index_of 4 fs))).
Proof.
  intros Hf Hd Hl. destruct (get_length_doc fs) as [Eg El]; [unfold INT_MAX; lia|]. set (els := mjoin (fbytes <$> fs)) in *. pose proof (alen_nonneg els).
  assert (wpd index_elements (fun idx _ => idx = index_of 4 fs) (MkReader (doc fs) 4 (alen els))) as W.
  { assert (rd_in (doc fs) (4 + alen els) (MkReader (doc fs) 4 (alen els)) els) as K.
    { split; [|done]. split; [done|]. exists (le_split 4 (alen els + 5)), [z2b 0]. cbn [rptr rsize]. rewrite alen_le_split. split_and!; try done. unfold INT_MAX. lia. }
    unfold index_elements. do 2 wp_step.
    apply (wp_loop_rank (fun k idx t => exists pre todo, fs = pre ++ todo /\ idx = index_of 4 pre /\ k = length todo /\ rd_in (doc fs) (4 + alen els) t (mjoin (fbytes <$> todo)))) with (k := length fs).
    - intros k idx t (pre & todo & E & -> & -> & Kt). pose proof (proj1 (rd_at_size _ _ _ (proj1 Kt))) as Hsz. do 2 wp_step. destruct todo as [|f todo].
      + rewrite Hsz. change (alen (mjoin (fbytes <$> []))) with (alen ([] : bytes)). rewrite alen_nil. cbn [Z.eqb]. wp_step. by rewrite E, app_nil_r.
      + rewrite fmap_cons, mjoin_cons in Kt, Hsz. pose proof (alen_fbytes f). pose proof (alen_nonneg (f_key f)). pose proof (alen_nonneg (f_body f)).
        pose proof (alen_nonneg (mjoin (fbytes <$> todo))). rewrite alen_app in Hsz.
        destruct (Z.eqb_spec (rsize t) 0); [lia|]. assert (alen els = alen (mjoin (fbytes <$> pre)) + alen (fbytes f) + alen (mjoin (fbytes <$> todo))) as Ee.
        { unfold els. rewrite E, fmap_app, fmap_cons, join_app, mjoin_cons, !alen_app. lia. }
        eapply wp_index_one; [|exact Kt| |lia|].
        * rewrite E, Forall_app, Forall_cons in Hf. apply Hf.
        * intros k id Hk. apply index_of_keys in Hk as (g & Hg & ->). exists (f_key g). split; [done|]. intros Ek. rewrite E, fmap_app, fmap_cons in Hd.
          apply NoDup_app in Hd as (_ & Hd & _). apply (Hd (f_key g)); [by apply list_elem_of_fmap_2|]. rewrite Ek. left.
        * intros t' K'. exists (length todo). split; [cbn; lia|]. exists (pre ++ [f]), todo. rewrite <- app_assoc. split_and!; try done.
          rewrite index_of_snoc. do 2 f_equal. lia.
    - by exists [], fs.
    - cbn [mem]. unfold doc, frame. rewrite !length_app. pose proof (length_mjoin_ge fbytes fs 1 ltac:(intros; unfold fbytes, element; cbn; lia)). lia. }
  apply wpd_Done in W as (idx & t & E & ->). unfold lmakeindex. rewrite (bind_Done get _ _ _ _ eq_refl). cbn [block]. rewrite Eg.
  rewrite (bind_Done (deref OutOfBounds (Some (alen (doc fs)))) _ (alen (doc fs)) _ _ eq_refl). unfold require. rewrite bool_decide_eq_true_2 by (unfold in_s; lia).
  rewrite (bind_Done (mret tt) _ tt _ _ eq_refl). rewrite El. replace (alen els + 5 - 5) with (alen els) by lia. by rewrite E.
Qed.

(** The entry of a field. *)
Lemma index_of_lookup off l1 f l2 :
  0 < fixed_size (f_type f) -> NoDup (f_key <$> l1 ++ f :: l2) ->
  idx_lookup (f_key f) (index_of off (l1 ++ f :: l2)) = Some (Z.lor (f_type f) (Z.shiftl (off + alen (mjoin (fbytes <$> l1)) + alen (f_key f) + 2) BSON_TYPE_SHIFT)).
Proof.
  intros Hfx. revert off. induction l1 as [|g l1 IH]; intros off Hd.
  - cbn [app index_of]. rewrite (proj2 (Z.ltb_lt _ _)) by done. cbn [app idx_lookup]. rewrite bool_decide_eq_true_2 by done.
    change (alen (mjoin (fbytes <$> []))) with (alen ([] : bytes)). by rewrite alen_nil, Z.add_0_r.
  - cbn [app] in *. rewrite fmap_cons in Hd. apply NoDup_cons in Hd as [Hg Hd].
    assert (f_key g <> f_key f) as Hne by (intros E; apply Hg; rewrite E, fmap_app, fmap_cons; apply elem_of_app; right; left).
    specialize (IH (off + alen (fbytes g)) Hd). rewrite fmap_cons, mjoin_cons, alen_app.
    replace (off + (alen (fbytes g) + alen (mjoin (fbytes <$> l1)))) with (off + alen (fbytes g) + alen (mjoin (fbytes <$> l1))) by lia. rewrite <- IH.
    cbn [index_of]. destruct (0 <? fixed_size (f_type g)); [|done]. cbn [app idx_lookup]. by rewrite bool_decide_eq_false_2.
Qed.

(** ** New values *)

(** What a field of this type holds after the assignment of [v]: its bytes and its value. A
    field of 32 bits can hold only an integer of 32 bits (see [replace_truncates] for others). *)
Definition replaced (type : Z) (v : value) : option (bytes * tree) :=
  if type =? BSON_REAL then
    match v with VInt _ | VReal _ => Some (le_split 8 (tonumber v), TReal (tonumber v)) | _ => None end
  else if type =? BSON_BOOLEAN then Some ([z2b (if toboolean v then 1 else 0)], TBool (toboolean v))
  else if type =? BSON_INT32 then
    match v with VInt i => if s32 i =? i then Some (le_split 4 i, TInt i) else None | _ => None end
  else if type =? BSON_INT64 then
    match v with VInt i => Some (le_split 8 i, TInt i) | _ => None end
  else if (type =? BSON_OBJECTID) || (type =? BSON_DATE) || (type =? BSON_TIMESTAMP) then
    match v with
    | VStr s =>
        match is_special s with
        | Some (subt, body) =>
            if (subt =? type) && (alen body =? if type =? BSON_OBJECTID then 12 else if type =? BSON_DATE then 4 else 8)
            then Some (special_body type body, TStr s) else None
        | None => None
        end
    | _ => None
    end
  else None.

Definition number_ok (v : value) : Prop :=
  match v with VInt z => in_s 64 z | VReal bits => 0 <= bits < 2 ^ 64 | _ => True end.

Lemma store_in_place d sz a x c n :
  sz = alen d -> n = alen a -> alen d = alen x -> n + sz <= 16 ->
  (bson_reserve sz;; store_end d) (MkBson n 16 (a ++ x ++ c)) = Done tt (MkBson (n + alen d) 16 (a ++ d ++ c)).
Proof.
  intros -> -> Hx Hn. unfold bson_reserve, require, mret, M_ret, store_end, store_at, add_size, get, put, modify, deref, mbind, M_bind. cbn [size ptr cap].
  destruct (Z.leb_spec (alen a + alen d) INT_MAX); [|unfold INT_MAX in *; lia]. destruct (Z.leb_spec (alen a + alen d) 16); [|lia]. cbn [size ptr cap].
  by rewrite memcpy_mid.
Qed.

Lemma replace_value_Done string_number type v body' t body c :
  replaced type v = Some (body', t) -> alen body = fixed_size type ->
  exists n, replace_value string_number type v (MkBson 0 16 (body ++ c)) = Done tt (MkBson n 16 (body' ++ c)) /\ alen body' = fixed_size type.
Proof.
  intros Hr Hb. unfold replaced, replace_value in *.
  assert (forall d sz, sz = alen d -> alen d = alen body -> sz <= 16 -> exists n, (bson_reserve sz;; store_end d) (MkBson 0 16 (body ++ c)) = Done tt (MkBson n 16 (d ++ c))) as Hst.
  { intros d sz E1 E2 E3. eexists. apply (store_in_place d sz [] body c 0); try done; lia. }
  destruct (Z.eqb_spec type BSON_REAL) as [->|].
  { change (fixed_size BSON_REAL) with 8 in *. assert (forall b, exists n, write_double b (MkBson 0 16 (body ++ c)) = Done tt (MkBson n 16 (le_split 8 b ++ c))) as Hw.
    { intros b. apply Hst; rewrite ?alen_le_split; try done; lia. }
    destruct v; try done; injection Hr as <- <-; edestruct Hw as (k & En); exists k; (split; [exact En|apply alen_le_split]). }
  destruct (Z.eqb_spec type BSON_BOOLEAN) as [->|].
  { injection Hr as <- <-. destruct (Hst [z2b (if toboolean v then 1 else 0)] 1) as (k & En); [done|by rewrite Hb|lia|]. by exists k. }
  destruct (Z.eqb_spec type BSON_INT32) as [->|].
  { change (fixed_size BSON_INT32) with 4 in *. destruct v as [| |z| | | | | | |]; try done. destruct (Z.eqb_spec (s32 z) z) as [Ez|]; [|done]. injection Hr as <- <-. rewrite Ez.
    destruct (Hst (le_split 4 z) 4) as (k & En); [done|by rewrite alen_le_split|lia|]. exists k. split; [exact En|by rewrite alen_le_split]. }
  destruct (Z.eqb_spec type BSON_INT64) as [->|].
  { change (fixed_size BSON_INT64) with 8 in *. destruct v; try done. injection Hr as <- <-.
    destruct (Hst (le_split 8 z) 8) as (k & En); [done|by rewrite alen_le_split|lia|]. exists k. split; [exact En|by rewrite alen_le_split]. }
  destruct ((type =? BSON_OBJECTID) || (type =? BSON_DATE) || (type =? BSON_TIMESTAMP)) eqn:Et; [|done].
  destruct v as [| | | |s| | | | |]; try done. destruct (is_special s) as [[subt d]|] eqn:Es; [|done]. unfold is_special in Es. destruct s as [|c0 [|c1 s]]; try done.
  destruct (b2z c0 =? 0) eqn:E0; [|done]. injection Es as <- ->. destruct (Z.eqb_spec (b2z c1) type) as [Ec|]; [|done]. cbn [andb] in Hr.
  destruct (Z.eqb_spec (alen d) (if type =? BSON_OBJECTID then 12 else if type =? BSON_DATE then 4 else 8)) as [El|]; [|done]. injection Hr as <- <-.
  unfold replace_object. rewrite E0, Ec. clear Ec E0 Hst. assert ((type = BSON_OBJECTID \/ type = BSON_DATE) \/ type = BSON_TIMESTAMP) as [[->| ->]| ->] by lia.
  - change (alen d = 12) in El. change (fixed_size BSON_OBJECTID) with 12 in *. rewrite El. exists 0. split; [|done]. change (special_body BSON_OBJECTID d) with d.
    enough (store_at 0 d (MkBson 0 16 (body ++ c)) = Done tt (MkBson 0 16 (d ++ c))) as H by exact H.
    unfold store_at, get, put, deref, mbind, M_bind. cbn [size cap ptr].
    assert (memcpy (body ++ c) 0 d = Some (d ++ c)) as -> by (by apply (memcpy_mid [] body d c 0); rewrite ?El, ?Hb). done.
  - change (alen d = 4) in El. change (fixed_size BSON_DATE) with 8 in *. rewrite El. eexists. split; [|apply alen_le_split].
    apply (store_in_place (le_split 8 (le_combine d * 1000)) 8 [] body c 0); rewrite ?alen_le_split; done.
  - change (alen d = 8) in El. change (fixed_size BSON_TIMESTAMP) with 8 in *. rewrite El. change (special_body BSON_TIMESTAMP d) with d.
    assert (forall x : bytes, length x = 4%nat -> le_split 4 (le_combine x) = x) as E4 by (intros x <-; apply split_le_combine).
    rewrite alen_length in El. pose proof (E4 (take 4 d) ltac:(rewrite length_take; lia)) as Ea. pose proof (E4 (drop 4 d) ltac:(rewrite length_drop; lia)) as Eb.
    rewrite alen_length in Hb. exists 8. split; [|by rewrite alen_length].
    enough (((bson_reserve 4;; store_end (le_split 4 (le_combine (take 4 d))));; (bson_reserve 4;; store_end (le_split 4 (le_combine (drop 4 d)))))
      (MkBson 0 16 (body ++ c)) = Done tt (MkBson 8 16 (d ++ c))) as H by exact H.
    rewrite <- (take_drop 4 body), <- app_assoc, Ea, Eb. erewrite bind_Done by (apply (store_in_place (take 4 d) 4 [] (take 4 body) _ 0); rewrite ?alen_length, ?length_take; (done || lia)).
    rewrite (store_in_place (drop 4 d) 4 (take 4 d) (drop 4 body) c) by (rewrite ?alen_length, ?length_take, ?length_drop; lia).
    rewrite app_assoc, take_drop. do 2 f_equal. rewrite ?alen_length, ?length_take, ?length_drop. lia.
Qed.

Lemma replaced_reads type v body' t m ud :
  replaced type v = Some (body', t) -> number_ok v ->
  Codec.reads (rd_at m) (unpack_value ud type) t body' /\ is_nil t = false /\ 0 <= type < 256.
Proof.
  intros Hr Hv. unfold replaced in Hr. destruct (Z.eqb_spec type BSON_REAL) as [->|].
  { split_and!; [|by destruct v; try done; injection Hr as <- <-|done..].
    destruct v; try done; injection Hr as <- <-; apply (reads_map read_double TReal), reads_double; [apply int_double_range|done]. }
  destruct (Z.eqb_spec type BSON_BOOLEAN) as [->|].
  { injection Hr as <- <-. split_and!; try done. destruct (toboolean v).
    - exact (reads_map read_byte (fun b => TBool (negb (b =? 0))) _ _ (reads_byte m (z2b 1))).
    - exact (reads_map read_byte (fun b => TBool (negb (b =? 0))) _ _ (reads_byte m (z2b 0))). }
  destruct (Z.eqb_spec type BSON_INT32) as [->|].
  { destruct v as [| |z| | | | | | |]; try done. destruct (Z.eqb_spec (s32 z) z) as [Ez|]; [|done]. injection Hr as <- <-. split_and!; try done.
    apply (reads_map read_int32 TInt), reads_int32. rewrite <- Ez. by apply swrap_range. }
  destruct (Z.eqb_spec type BSON_INT64) as [->|].
  { destruct v; try done. injection Hr as <- <-. split_and!; try done. by apply (reads_map read_int64 TInt), reads_int64. }
  destruct ((type =? BSON_OBJECTID) || (type =? BSON_DATE) || (type =? BSON_TIMESTAMP)) eqn:Et; [|done].
  destruct v as [| | | |s| | | | |]; try done. destruct (is_special s) as [[subt d]|] eqn:Es; [|done].
  destruct (Z.eqb_spec subt type) as [->|]; [|done]. cbn [andb] in Hr. destruct (Z.eqb_spec (alen d) (if type =? BSON_OBJECTID then 12 else if type =? BSON_DATE then 4 else 8)) as [El|]; [|done].
  injection Hr as <- <-. assert (str_ok s) as Hs.
  { unfold str_ok. rewrite Es. assert ((type = BSON_OBJECTID \/ type = BSON_DATE) \/ type = BSON_TIMESTAMP) as [[->| ->]| ->] by lia; exact El. }
  destruct (str_reads m ud s Hs) as [H1 H2]. unfold str_type, str_body in *. rewrite Es in *. done.
Qed.

Lemma fixed_of_replaced type v body' t : replaced type v = Some (body', t) -> 0 < fixed_size type.
Proof. unfold replaced, fixed_size. intros Hr. repeat (case_match; try lia; try done). Qed.

(** The fields of a document, with the one between [l1] and [l2] replaced. *)
Lemma lreplace_doc string_number l1 f l2 v body' t :
  Forall field_ok (l1 ++ f :: l2) -> NoDup (f_key <$> l1 ++ f :: l2) -> alen (doc (l1 ++ f :: l2)) < 2 ^ 26 ->
  replaced (f_type f) v = Some (body', t) ->
  lreplace string_number (VStr (f_key f)) v (MkDoc (doc (l1 ++ f :: l2)) (Some (index_of 4 (l1 ++ f :: l2)))) =
  Done tt (MkDoc (doc (l1 ++ MkField (f_type f) (f_key f) body' t :: l2)) (Some (index_of 4 (l1 ++ f :: l2)))) /\
  skips (f_type f) body'.
Proof.
  intros Hf Hd Hl Hr. pose proof (fixed_of_replaced _ _ _ _ Hr) as Hfx.
  destruct (fixed_type_range _ Hfx) as [Hty _]. apply Forall_app in Hf as [_ Hf]. apply Forall_cons in Hf as [[_ _ Hsk _ _] _].
  unfold skips in *. rewrite (proj2 (Z.ltb_lt _ _) Hfx) in *.
  set (a := le_split 4 (alen (mjoin (fbytes <$> l1 ++ f :: l2)) + 5) ++ mjoin (fbytes <$> l1) ++ z2b (f_type f) :: f_key f ++ [z2b 0]).
  set (c := mjoin (fbytes <$> l2) ++ [z2b 0]).
  destruct (replace_value_Done string_number _ v body' t (f_body f) c Hr Hsk) as (n & Er & Hb'). split; [|done].
  assert (doc (l1 ++ f :: l2) = a ++ f_body f ++ c) as Edoc.
  { unfold doc, frame, a, c. rewrite fmap_app, fmap_cons, join_app, mjoin_cons. unfold fbytes at 4, element. by rewrite <- !app_assoc; cbn; rewrite <- !app_assoc. }
  assert (doc (l1 ++ MkField (f_type f) (f_key f) body' t :: l2) = a ++ body' ++ c) as Edoc'.
  { unfold doc, frame, a, c. rewrite !fmap_app, !fmap_cons, !join_app, !mjoin_cons, !alen_app. rewrite !alen_fbytes. cbn [f_key f_body]. rewrite Hb', <- Hsk.
    unfold fbytes at 5, element. cbn [f_type f_key f_body]. by rewrite <- !app_assoc; cbn; rewrite <- !app_assoc. }
  set (p := alen a). assert (p = 4 + alen (mjoin (fbytes <$> l1)) + alen (f_key f) + 2) as Ep.
  { unfold p, a. rewrite !alen_app, alen_cons, !alen_app, alen_le_split. change (alen [z2b 0]) with 1. lia. }
  assert (0 <= p < 2 ^ 26) as Hp by (rewrite Edoc, !alen_app in Hl; fold p in Hl; unfold p in *; pose proof (alen_nonneg a); pose proof (alen_nonneg (f_body f)); pose proof (alen_nonneg c); lia).
  rewrite Edoc, Edoc'. unfold lreplace. rewrite (bind_Done get _ _ _ _ eq_refl). cbn [uservalue block]. rewrite index_of_lookup by done. rewrite <- Ep.
  cbv zeta. rewrite (lor_shiftl BSON_TYPE_SHIFT) by (change (2 ^ BSON_TYPE_SHIFT) with 32; unfold BSON_TYPE_SHIFT; lia). change (2 ^ BSON_TYPE_SHIFT) with 32.
  rewrite swrap_small by (unfold in_s; lia). change BSON_TYPE_SHIFT with 5. rewrite Z.land_ones, Z.shiftr_div_pow2 by lia. change (2 ^ 5) with 32.
  replace ((f_type f + p * 32) mod 32) with (f_type f) by dlia. replace ((f_type f + p * 32) / 32) with p by dlia.
  unfold require. rewrite bool_decide_eq_true_2 by (rewrite !alen_app; fold p; pose proof (alen_nonneg (f_body f)); pose proof (alen_nonneg c); lia).
  rewrite (bind_Done (mret tt) _ tt _ _ eq_refl). assert (Z.to_nat p = length a) as -> by (unfold p; rewrite alen_length; lia).
  by rewrite drop_app_length, take_app_length, Er.
Qed.

(** ** The whole *)

(** The fields of a table's document. *)
Definition fields_of (meta_len : Z -> option value) (l : list (bytes * value)) : list bfield :=
  (fun kv => MkField (enc_type meta_len kv.2) kv.1 (enc_body meta_len MAX_DEPTH kv.2) (norm meta_len MAX_DEPTH kv.2)) <$> l.

Lemma fields_of_ok meta_len l :
  items_ok false l -> Forall (fun kv => packable meta_len MAX_DEPTH kv.2) l -> alen (doc (fields_of meta_len l)) <= INT_MAX ->
  Forall field_ok (fields_of meta_len l) /\ NoDup (f_key <$> fields_of meta_len l).
Proof.
  intros [Hd Hk] Hp Hl. unfold fields_of in *. split; [|by rewrite <- list_fmap_compose].
  rewrite Forall_fmap. rewrite Forall_forall in *. intros kv Hkv. destruct (Hk kv Hkv) as [_ Hz]. pose proof (Hp kv Hkv) as Hv.
  assert (alen (enc_body meta_len MAX_DEPTH kv.2) <= INT_MAX) as Hb.
  { assert (kv ∈ l) as Hin by done. apply (list_elem_of_fmap_2 (fun kv => MkField (enc_type meta_len kv.2) kv.1 (enc_body meta_len MAX_DEPTH kv.2) (norm meta_len MAX_DEPTH kv.2))) in Hin.
    apply (length_mjoin_elem fbytes) in Hin. rewrite <- (Nat2Z.id (length (fbytes _))), <- alen_length, alen_fbytes in Hin. cbn [f_key f_body] in Hin.
    unfold doc, frame in Hl. rewrite !alen_app, alen_le_split in Hl. rewrite alen_length with (l := mjoin _) in Hl. pose proof (alen_nonneg kv.1). pose proof (alen_nonneg [z2b 0]). lia. }
  destruct (reads_value [] meta_len MAX_DEPTH kv.2 (S (length (enc_body meta_len MAX_DEPTH kv.2))) Hv ltac:(lia)) as [_ Hty].
  split; cbn [f_type f_key f_body f_tree]; [exact Hty|exact Hz|by apply value_skips| |by apply norm_not_nil]. intros m fuel Hf. by apply reads_value.
Qed.

(** C34: After [lmakeindex], assigning a value to a field of a fixed size rewrites the block
    such that decoding it gives the table with the new value and everything else as before, for
    the values that the field can hold: a number for a real field, which holds it as a double;
    an integer for a field of 64 bits; an integer of 32 bits for a field of 32 bits; the special
    string of the same kind for an object id, date or timestamp; anything for a boolean field,
    which holds its truth value. The block has fewer than 2^26 bytes. *)
Theorem replace_correct meta_len string_number v l1 k w l2 u new body' t :
  root_ok meta_len v -> root_items v = Some (l1 ++ (k, w) :: l2) -> alen (enc_root meta_len v) < 2 ^ 26 ->
  number_ok new -> replaced (enc_type meta_len w) new = Some (body', t) ->
  exists d, (lmakeindex;; lreplace string_number (VStr k) new) (MkDoc (enc_root meta_len v) u) = Done tt d /\
    alen (block d) = alen (enc_root meta_len v) /\
    ldecode (Some (block d)) = Done (Some (TTable (norm_items meta_len MAX_DEPTH false l1 ++ (TStr k, t) :: norm_items meta_len MAX_DEPTH false l2))) tt.
Proof.
  unfold root_ok, enc_root. intros Hv E Hl Hn Hr. rewrite E in *. change (default [] (Some ?l)) with l in *. destruct Hv as [Hk Hp].
  assert (frame (enc_items meta_len MAX_DEPTH (l1 ++ (k, w) :: l2)) = doc (fields_of meta_len (l1 ++ (k, w) :: l2))) as Ed.
  { unfold doc, fields_of, enc_items. by rewrite <- list_fmap_compose. }
  rewrite Ed in *. destruct (fields_of_ok meta_len _ Hk Hp) as [Hf Hd]; [unfold INT_MAX; lia|].
  rewrite (bind_Done _ _ _ _ _ (lmakeindex_doc _ u Hf Hd Hl)).
  set (f := MkField (enc_type meta_len w) k (enc_body meta_len MAX_DEPTH w) (norm meta_len MAX_DEPTH w)).
  assert (fields_of meta_len (l1 ++ (k, w) :: l2) = fields_of meta_len l1 ++ f :: fields_of meta_len l2) as Ef by (unfold fields_of; by rewrite fmap_app).
  rewrite Ef in *. destruct (lreplace_doc string_number _ f _ new body' t Hf Hd Hl Hr) as [El Hsk].
  exists (MkDoc (doc (fields_of meta_len l1 ++ MkField (f_type f) (f_key f) body' t :: fields_of meta_len l2)) (Some (index_of 4 (fields_of meta_len l1 ++ f :: fields_of meta_len l2)))).
  split; [exact El|]. cbn [block]. clear El. set (f' := MkField _ _ body' t).
  assert (field_ok f') as Hf'.
  { apply Forall_app in Hf as [_ Hf]. apply Forall_cons in Hf as [[H1 H2 _ _ _] _]. split; [done|done|done| |]; cbn [f_type f_body f_tree f'].
    - intros m fuel _. apply (replaced_reads _ _ _ _ m _ Hr Hn).
    - apply (replaced_reads _ _ _ _ [] (unpack_dict 0) Hr Hn). }
  assert (forall g1 g2, alen (fbytes g1) = alen (fbytes g2) -> alen (doc (fields_of meta_len l1 ++ g1 :: fields_of meta_len l2)) = alen (doc (fields_of meta_len l1 ++ g2 :: fields_of meta_len l2))) as Hlen.
  { intros g1 g2 Eg. unfold doc, frame. rewrite !fmap_app, !fmap_cons, !join_app, !mjoin_cons, !alen_app, !alen_le_split, Eg. done. }
  assert (alen (fbytes f') = alen (fbytes f)) as Eb.
  { rewrite !alen_fbytes. cbn [f_key f_body f' f]. f_equal. pose proof (fixed_of_replaced _ _ _ _ Hr) as Hfx.
    apply Forall_app in Hf as [_ Hf]. apply Forall_cons in Hf as [[_ _ H3 _ _] _]. unfold skips in *. cbn [f_type f_body f] in *. rewrite (proj2 (Z.ltb_lt _ _) Hfx) in *. lia. }
  split; [by apply Hlen|]. rewrite ldecode_doc.
  - unfold fields_of. rewrite fmap_app, fmap_cons, <- !list_fmap_compose. done.
  - rewrite Forall_app, Forall_cons in *. tauto.
  - rewrite fmap_app, fmap_cons in *. exact Hd.
  - rewrite (Hlen f' f Eb). unfold INT_MAX. lia.
Qed.

Lemma replace_correct_witness :
  exists d, (lmakeindex;; lreplace (fun _ => None) (VStr (z2b <$> [97])) (VInt 9)) (MkDoc (enc_root (fun _ => None) sample) None) = Done tt d /\
    alen (block d) = alen (enc_root (fun _ => None) sample) /\
    ldecode (Some (block d)) = Done (Some (TTable (norm_items (fun _ => None) MAX_DEPTH false [] ++ (TStr (z2b <$> [97]), TInt 9) ::
      norm_items (fun _ => None) MAX_DEPTH false (drop 1 (default [] (root_items sample)))))) tt.
Proof.
  apply (replace_correct (fun _ => None) (fun _ => None) sample [] (z2b <$> [97]) (VInt (-5)) (drop 1 (default [] (root_items sample))) None (VInt 9) (le_split 4 9) (TInt 9));
    [apply sample_ok|reflexivity|vm_compute; reflexivity|split; vm_compute; [discriminate|reflexivity]|reflexivity].
Defined.

(** An integer that does not fit a field of 32 bits is cut, without an error. *)
Example replace_truncates :
  match (lmakeindex;; lreplace (fun _ => None) (VStr [z2b 97]) (VInt (2 ^ 32 + 5))) (MkDoc (block_of (field (VInt 1))) None) with
  | Done _ d => ldecode (Some (block d)) = Done (Some (TTable [(TStr [z2b 97], TInt 5)])) tt
  | _ => False
  end.
Proof. vm_compute. reflexivity. Qed.
