(* ===== verification/Mongo.v ===== *)
(** * The wire protocol of mongo (lua-mongo.c)

    Requests are a header with the length of the message and BSON documents behind it; a
    reply is a header and documents, which the program hands to the decoder as pointers
    into the message. A document given by Lua is what its pointer points to, up to the end
    of its block. The numbers and names that [luaL_check...] takes from the stack are
    arguments. The theorems show that every request has the length it announces and that
    the documents of a reply decode to the tables they were made from. *)

From S2P Require Import Prelude Outcome Codec LuaValue Itoa Bson BsonWrite BsonRead.

Definition OP_UPDATE : Z := 2001.
Definition OP_INSERT : Z := 2002.
Definition OP_QUERY : Z := 2004.
Definition OP_GET_MORE : Z := 2005.
Definition OP_DELETE : Z := 2006.
Definition OP_KILL_CURSORS : Z := 2007.
Definition REPLY_QUERYFAILURE : Z := 2.
Definition DEFAULT_CAP : Z := 128.

(** ** The buffer, the same struct as [bson] *)

Definition buffer_create : bson := MkBson 0 DEFAULT_CAP (replicate (Z.to_nat DEFAULT_CAP) (z2b 0)).

(** Line by line the code of [bson_reserve]. *)
Definition buffer_reserve (sz : Z) : Wr unit := bson_reserve sz.

Definition write_int32 (v : Z) : Wr unit := buffer_reserve 4;; store_end (le_split 4 v).

Definition write_bytes (d : bytes) : Wr unit := buffer_reserve (s32 (alen d));; store_end d.

Definition write_string (key : bytes) : Wr unit := buffer_reserve (s32 (alen key + 1));; store_end (key ++ [z2b 0]).

Definition reserve_length : Wr Z :=
  b ← get;
  buffer_reserve 4;;
  add_size 4;;
  mret (size b).

Definition write_length (v off : Z) : Wr unit := store_at off (le_split 4 v).

(** ** Documents *)

(** An unsigned number. *)
Definition get_length (buffer : bytes) : option Z := le_combine <$> slice buffer 0 4.

(** [luaL_addlstring] with the [n] bytes of a document; [n] is a [size_t], and one that was
    negative is more than a buffer can hold. *)
Definition add_document (d : bytes) (n : Z) : Wr bytes :=
  if n <? 0 then luaL_error "buffer too large" else deref OutOfBounds (slice d 0 n).

(** What has been written. *)
Definition contents : Wr bytes := b ← get; deref OutOfBounds (slice (ptr b) 0 (size b)).

(** [a + b] as an [int] *)
Definition int_sum (a b : Z) : Wr Z := require SignedOverflow (bool_decide (in_s 32 (a + b)));; mret (a + b).

(** ** Requests *)

Definition op_query (id flags : Z) (name : bytes) (skip number : Z) (query selector : option bytes) : Wr bytes :=
  match query with
  | None => luaL_error "require query document"
  | Some query =>
      put buffer_create;;
      len ← reserve_length;
      write_int32 (s32 id);;
      write_int32 0;;
      write_int32 OP_QUERY;;
      write_int32 (s32 flags);;
      write_string name;;
      write_int32 (s32 skip);;
      write_int32 (s32 number);;
      n ← deref OutOfBounds (get_length query);
      let query_len := s32 n in
      b ← get;
      total ← int_sum (size b) query_len;
      '(total, selector_len) ←
        match selector with
        | None => mret (total, 0)
        | Some selector =>
            n ← deref OutOfBounds (get_length selector);
            total ← int_sum total (s32 n);
            mret (total, s32 n)
        end;
      write_length total len;;
      out ← contents;
      q ← add_document query query_len;
      s ← match selector with None => mret [] | Some selector => add_document selector selector_len end;
      mret (out ++ q ++ s)
  end.

Definition op_kill (cursor_id : bytes) : Wr bytes :=
  if negb (alen cursor_id =? 8) then luaL_error "Invalid cursor id" else
  put buffer_create;;
  len ← reserve_length;
  write_int32 0;;
  write_int32 0;;
  write_int32 OP_KILL_CURSORS;;
  write_int32 0;;
  write_int32 1;;
  write_bytes cursor_id;;
  b ← get;
  write_length (size b) len;;
  contents.

Definition op_delete (name : bytes) (single : Z) (selector : option bytes) : Wr bytes :=
  match selector with
  | None => luaL_error "Invalid param"
  | Some selector =>
      put buffer_create;;
      len ← reserve_length;
      write_int32 0;;
      write_int32 0;;
      write_int32 OP_DELETE;;
      write_int32 0;;
      write_string name;;
      write_int32 (s32 single);;
      n ← deref OutOfBounds (get_length selector);
      let selector_len := s32 n in
      b ← get;
      total ← int_sum (size b) selector_len;
      write_length total len;;
      out ← contents;
      d ← add_document selector selector_len;
      mret (out ++ d)
  end.

Definition op_get_more (id : Z) (name : bytes) (number : Z) (cursor_id : bytes) : Wr bytes :=
  if negb (alen cursor_id =? 8) then luaL_error "Invalid cursor id" else
  put buffer_create;;
  len ← reserve_length;
  write_int32 (s32 id);;
  write_int32 0;;
  write_int32 OP_GET_MORE;;
  write_int32 0;;
  write_string name;;
  write_int32 (s32 number);;
  write_bytes cursor_id;;
  b ← get;
  write_length (size b) len;;
  contents.

Definition op_update (name : bytes) (flags : Z) (selector update : option bytes) : Wr bytes :=
  match selector, update with
  | Some selector, Some update =>
      put buffer_create;;
      len ← reserve_length;
      write_int32 0;;
      write_int32 0;;
      write_int32 OP_UPDATE;;
      write_int32 0;;
      write_string name;;
      write_int32 (s32 flags);;
      n ← deref OutOfBounds (get_length selector);
      let selector_len := s32 n in
      n ← deref OutOfBounds (get_length update);
      let update_len := s32 n in
      b ← get;
      total ← int_sum (size b) selector_len;
      total ← int_sum total update_len;
      write_length total len;;
      out ← contents;
      d ← add_document selector selector_len;
      e ← add_document update update_len;
      mret (out ++ d ++ e)
  | _, _ => luaL_error "Invalid param"
  end.

(** The third argument of an insertion: a document, the elements of a table, or something
    else. *)
Inductive documents :=
| DUser (d : bytes)
| DTable (l : list (option bytes))
| DOther.

(** The sum wraps around as an unsigned number. *)
Definition document_length (docs : documents) : Wr Z :=
  match docs with
  | DUser d => n ← deref OutOfBounds (get_length d); mret (s32 n)
  | DTable l =>
      loop (S (length l)) (fun '(l, total) =>
        match l with
        | [] => mret (inr total)
        | None :: _ => luaL_error "Invalid document"
        | Some d :: l => n ← deref OutOfBounds (get_length d); mret (inl (l, s32 (u32 total + n)))
        end) (l, 0)
  | DOther => luaL_error "Insert need documents"
  end.

Fixpoint add_documents (l : list (option bytes)) : Wr bytes :=
  match l with
  | [] => mret []
  | None :: _ => crash NullDeref
  | Some d :: l =>
      n ← deref OutOfBounds (get_length d);
      b ← deref OutOfBounds (slice d 0 n);
      r ← add_documents l;
      mret (b ++ r)
  end.

Definition op_insert (flags : Z) (name : bytes) (docs : documents) : Wr bytes :=
  dsz ← document_length docs;
  put buffer_create;;
  len ← reserve_length;
  write_int32 0;;
  write_int32 0;;
  write_int32 OP_INSERT;;
  write_int32 (s32 flags);;
  write_string name;;
  b ← get;
  total ← int_sum (size b) dsz;
  write_length total len;;
  out ← contents;
  d ← add_documents (match docs with DUser d => [Some d] | DTable l => l | DOther => [] end);
  mret (out ++ d).

(** ** Replies *)

(** The header of a reply, without its length. *)
Record reply := MkReply { request_id : Z; response_id : Z; opcode : Z; flags : Z; cursor_id : bytes; starting : Z; number : Z }.

Definition sizeof_reply : Z := 32.

(** A field of the struct. *)
Definition int_at (data : bytes) (off : Z) : Z := s32 (le_combine (default [] (slice data off 4))).

Definition reply_of (data : bytes) : reply :=
  MkReply (int_at data 0) (int_at data 4) (int_at data 8) (int_at data 12) (default [] (slice data 16 8)) (int_at data 24) (int_at data 28).

(** A table that is a sequence, with [lua_rawseti] at its elements and behind its last. *)
Definition seti {A} (i : Z) (x : A) (l : list A) : list A := if i <=? alen l then <[Z.to_nat (i - 1) := x]> l else l ++ [x].

(** The values that [op_reply] returns; a light userdata is a position in the message. *)
Definition results := list tree.

(** The state is the table given for the documents. Each document has at least one byte, or
    the loop does not end: [doc_len] is 0 for an empty one. *)
Definition op_reply (data : bytes) (has_table : bool) : M (list tree) results :=
  let data_len := alen data in
  if data_len <? sizeof_reply then mret [TBool false] else
  let r := reply_of data in
  let id := response_id r in
  if negb (Z.land (flags r) REPLY_QUERYFAILURE =? 0) then mret [TBool false; TInt id; TLight sizeof_reply] else
  let sz := s32 (s32 data_len - sizeof_reply) in
  let finish sz :=
    if negb (sz =? 0) then luaL_error "Invalid result bson document" else
    mret [TBool true; TInt id;
          if number r =? 0 then TNil else TLight sizeof_reply;
          if bool_decide (cursor_id r = replicate 8 (z2b 0)) then TNil else TStr (cursor_id r);
          TInt (starting r)] in
  if has_table then
    '(i, sz) ← loop (S (length data)) (fun '(i, doc, sz) =>
      if 4 <? sz then
        t ← get;
        put (seti i (TLight doc) t);;
        d ← deref OutOfBounds (slice data doc 4);
        let doc_len := s32 (le_combine d) in
        require SignedOverflow (bool_decide (in_s 32 (sz - doc_len)));;
        mret (inl (i + 1, doc + doc_len, sz - doc_len))
      else mret (inr (i, sz))) (1, sizeof_reply, sz);
    require SignedOverflow (bool_decide (in_s 32 (number r + 1)));;
    if negb (i =? number r + 1) then mret [TBool false; TInt id] else
    t ← get;
    put (take (Z.to_nat (i - 1)) t);;
    finish sz
  else if 4 <=? sz then
    d ← deref OutOfBounds (slice data sizeof_reply 4);
    finish (s32 (u32 sz - le_combine d))
  else finish sz.

(** [rawlen_str] with the zero behind it. *)
Definition reply_length {St} (rawlen_str : bytes) : M St Z :=
  d ← deref OutOfBounds (slice (rawlen_str ++ [z2b 0]) 0 4);
  let length := s32 (le_combine d) in
  require SignedOverflow (bool_decide (in_s 32 (length - 4)));;
  mret (length - 4).

(** ** What is written *)

Lemma emits_word v : emits (write_int32 v) tt (le_split 4 v).
Proof. exact (emits_write_int32 v). Qed.

Lemma emits_write_bytes d : alen d <= INT_MAX -> emits (write_bytes d) tt d.
Proof. exact (emits_write_raw d). Qed.

Lemma emits_name key : alen key < INT_MAX -> emits (write_string key) tt (key ++ [z2b 0]).
Proof.
  intros Hl. pose proof (alen_nonneg key). apply emits_store. rewrite alen_snoc. apply swrap_small; [done|]. unfold in_s, INT_MAX in *. lia.
Qed.

Lemma wr_ok_buffer : wr_ok buffer_create [].
Proof. split_and!; [by eexists|done..]. Qed.

Lemma wp_emits {A B} (m : Wr A) (k : A -> Wr B) a x s out Q :
  emits m a x -> wr_ok s out -> alen out + alen x <= wr_limit -> (forall s', wr_ok s' (out ++ x) -> wpd (k a) Q s') -> wpd (m ≫= k) Q s.
Proof. intros Hm K Hl HQ. wp_step. by apply (Hm s out). Qed.

Lemma wp_contents s out Q : wr_ok s out -> Q out s -> wpd contents Q s.
Proof.
  intros ([rest Hp] & Hs & _) HQ. unfold contents. do 2 wp_step. wp_step; [|done]. rewrite Hp, Hs.
  pose proof (alen_nonneg out). pose proof (alen_nonneg rest). rewrite slice_take by (rewrite alen_app; lia). by rewrite alen_length, Nat2Z.id, take_app_length.
Qed.

(** A message: its length, the number of the request, the one it answers, and the operation. *)
Definition message (id op : Z) (body : bytes) : bytes :=
  le_split 4 (alen body + 16) ++ le_split 4 id ++ le_split 4 0 ++ le_split 4 op ++ body.

Lemma alen_message id op body : alen (message id op body) = alen body + 16.
Proof. unfold message. rewrite !alen_app, !alen_le_split. lia. Qed.

(** A pointer to a document [d]. *)
Definition points_to (p d : bytes) : Prop := exists rest, p = d ++ rest /\ 4 <= alen d <= INT_MAX /\ get_length d = Some (alen d).

Lemma points_to_length p d : points_to p d -> get_length p = Some (alen d) /\ slice p 0 (alen d) = Some d /\ s32 (alen d) = alen d /\ 0 <= alen d <= INT_MAX.
Proof.
  intros (rest & -> & Hl & E). split_and!; [|apply (slice_mid [] d rest); done|apply swrap_small; [done|]; unfold in_s, INT_MAX in *; lia|lia..].
  unfold get_length in *. destruct (slice d 0 4) as [h|] eqn:Es; [|done]. apply slice_Some in Es as (a & c & -> & Ha & Hh). apply alen_0 in Ha as ->.
  cbn [app] in *. rewrite <- app_assoc. rewrite (slice_mid [] h (c ++ rest)) by done. exact E.
Qed.

Lemma wp_add_document p d n s (Q : bytes -> bson -> Prop) : points_to p d -> n = alen d -> Q d s -> wpd (add_document p n) Q s.
Proof.
  intros (_ & Hs & _ & Hl)%points_to_length -> HQ. unfold add_document. destruct (Z.ltb_spec (alen d) 0); [lia|]. by wp_step.
Qed.

Lemma wp_int_sum a b s (Q : Z -> bson -> Prop) : 0 <= a + b <= INT_MAX -> Q (a + b) s -> wpd (int_sum a b) Q s.
Proof. intros H HQ. unfold int_sum. wp_step. wp_step; [apply bool_decide_eq_true_2; unfold in_s, INT_MAX in *; lia|]. by wp_step. Qed.

Ltac side := rewrite ?alen_app, ?alen_le_split, ?alen_nil in *; unfold wr_limit, INT_MAX in *; change (Z.of_nat 4) with 4 in *; change (alen [z2b 0]) with 1 in *; lia.
Ltac emit K := eapply wp_emits; [first [apply emits_word | apply emits_name; side | apply emits_write_bytes; side]|exact K|side|clear K; intros ? K].

Lemma wp_start {A} (k : Z -> Wr A) (Q : A -> bson -> Prop) b :
  (forall s junk, alen junk = 4 -> wr_ok s junk -> wpd (k 0) Q s) -> wpd (put buffer_create;; (reserve_length ≫= k)) Q b.
Proof.
  intros H. do 3 wp_step. apply (wp_reserve_length buffer_create [] _ wr_ok_buffer); [done|]. intros s junk Hj K. rewrite alen_nil. by apply (H s junk).
Qed.

(** The length is filled in. *)
Lemma wp_finish {A} (k : bytes -> Wr A) (Q : A -> bson -> Prop) s junk x v :
  wr_ok s (junk ++ x) -> alen junk = 4 -> (forall s', wpd (k (le_split 4 v ++ x)) Q s') -> wpd (write_length v 0;; (contents ≫= k)) Q s.
Proof.
  intros K Hj HQ. wp_step. change 0 with (alen ([] : bytes)). apply (wp_write_length v [] junk x); [done|done|]. intros s' K'. wp_step. by eapply wp_contents.
Qed.

Lemma split_eq a b (l : bytes) : a = b -> le_split 4 a ++ l = le_split 4 b ++ l.
Proof. by intros ->. Qed.

Lemma op_query_message id flags name skip number qp q sel s b :
  points_to qp q -> match sel with None => s = [] | Some sp => points_to sp s end -> alen name + alen q + alen s + 64 <= wr_limit ->
  exists b', op_query id flags name skip number (Some qp) sel b =
    Done (message (s32 id) OP_QUERY (le_split 4 (s32 flags) ++ name ++ [z2b 0] ++ le_split 4 (s32 skip) ++ le_split 4 (s32 number) ++ q ++ s)) b'.
Proof.
  intros Hq Hs Hl. set (msg := message _ _ _). enough (wpd (op_query id flags name skip number (Some qp) sel) (fun m _ => m = msg) b) as W.
  { apply wpd_Done in W as (m & b' & E & ->). eauto. }
  pose proof (alen_nonneg name). pose proof (alen_nonneg q). pose proof (alen_nonneg s). destruct (points_to_length _ _ Hq) as (Hq1 & _ & Hq3 & Hq4).
  unfold op_query. apply wp_start. intros s0 junk Hj K. do 7 emit K.
  wp_step. wp_step; [exact Hq1|]. rewrite Hq3. do 3 wp_step. rewrite (proj1 (proj2 K)). apply wp_int_sum; [side|]. wp_step.
  set (o := alen (_ ++ _)).
  destruct sel as [sp|].
  - destruct (points_to_length _ _ Hs) as (Hs1 & _ & Hs3 & Hs4). wp_step. wp_step; [exact Hs1|]. wp_step. rewrite Hs3. apply wp_int_sum; [subst o; side|]. wp_step.
    rewrite <- !app_assoc in K. eapply wp_finish; [exact K|done|]. intros s2. wp_step. eapply wp_add_document; [done|done|]. wp_step. eapply wp_add_document; [done|done|]. wp_step.
    unfold msg, message. subst o. rewrite <- !app_assoc. apply split_eq. side.
  - subst s. wp_step. rewrite <- !app_assoc in K. eapply wp_finish; [exact K|done|]. intros s2. wp_step. eapply wp_add_document; [done|done|]. do 2 wp_step.
    unfold msg, message. subst o. rewrite <- !app_assoc. apply split_eq. side.
Qed.

Lemma op_kill_message cursor b :
  alen cursor = 8 -> exists b', op_kill cursor b = Done (message 0 OP_KILL_CURSORS (le_split 4 0 ++ le_split 4 1 ++ cursor)) b'.
Proof.
  intros Hc. set (msg := message _ _ _). enough (wpd (op_kill cursor) (fun m _ => m = msg) b) as W.
  { apply wpd_Done in W as (m & b' & E & ->). eauto. }
  unfold op_kill. rewrite Hc. change (negb (8 =? 8)) with false. cbv iota. apply wp_start. intros s0 junk Hj K. do 6 emit K. do 2 wp_step. rewrite (proj1 (proj2 K)).
  rewrite <- !app_assoc in K. wp_step. change 0 with (alen ([] : bytes)) at 1. eapply (wp_write_length _ [] junk); [exact K|done|]. intros s9 K9. eapply wp_contents; [exact K9|].
  unfold msg, message. rewrite <- !app_assoc. apply split_eq. side.
Qed.

Lemma op_get_more_message id name number cursor b :
  alen cursor = 8 -> alen name + 64 <= wr_limit ->
  exists b', op_get_more id name number cursor b = Done (message (s32 id) OP_GET_MORE (le_split 4 0 ++ name ++ [z2b 0] ++ le_split 4 (s32 number) ++ cursor)) b'.
Proof.
  intros Hc Hl. set (msg := message _ _ _). enough (wpd (op_get_more id name number cursor) (fun m _ => m = msg) b) as W.
  { apply wpd_Done in W as (m & b' & E & ->). eauto. }
  pose proof (alen_nonneg name). unfold op_get_more. rewrite Hc. change (negb (8 =? 8)) with false. cbv iota. apply wp_start. intros s0 junk Hj K. do 7 emit K. do 2 wp_step. rewrite (proj1 (proj2 K)).
  rewrite <- !app_assoc in K. wp_step. change 0 with (alen ([] : bytes)) at 1. eapply (wp_write_length _ [] junk); [exact K|done|]. intros s9 K9. eapply wp_contents; [exact K9|].
  unfold msg, message. rewrite <- !app_assoc. apply split_eq. side.
Qed.

Lemma op_delete_message name single sp s b :
  points_to sp s -> alen name + alen s + 64 <= wr_limit ->
  exists b', op_delete name single (Some sp) b = Done (message 0 OP_DELETE (le_split 4 0 ++ name ++ [z2b 0] ++ le_split 4 (s32 single) ++ s)) b'.
Proof.
  intros Hs Hl. set (msg := message _ _ _). enough (wpd (op_delete name single (Some sp)) (fun m _ => m = msg) b) as W.
  { apply wpd_Done in W as (m & b' & E & ->). eauto. }
  pose proof (alen_nonneg name). destruct (points_to_length _ _ Hs) as (Hs1 & _ & Hs3 & Hs4).
  unfold op_delete. apply wp_start. intros s0 junk Hj K. do 6 emit K. wp_step. wp_step; [exact Hs1|]. rewrite Hs3. do 3 wp_step. rewrite (proj1 (proj2 K)). apply wp_int_sum; [side|].
  rewrite <- !app_assoc in K. eapply wp_finish; [exact K|done|]. intros s2. wp_step. eapply wp_add_document; [done|done|]. wp_step.
  unfold msg, message. rewrite <- !app_assoc. apply split_eq. side.
Qed.

Lemma op_update_message name flags sp s up u b :
  points_to sp s -> points_to up u -> alen name + alen s + alen u + 64 <= wr_limit ->
  exists b', op_update name flags (Some sp) (Some up) b = Done (message 0 OP_UPDATE (le_split 4 0 ++ name ++ [z2b 0] ++ le_split 4 (s32 flags) ++ s ++ u)) b'.
Proof.
  intros Hs Hu Hl. set (msg := message _ _ _). enough (wpd (op_update name flags (Some sp) (Some up)) (fun m _ => m = msg) b) as W.
  { apply wpd_Done in W as (m & b' & E & ->). eauto. }
  pose proof (alen_nonneg name). destruct (points_to_length _ _ Hs) as (Hs1 & _ & Hs3 & Hs4). destruct (points_to_length _ _ Hu) as (Hu1 & _ & Hu3 & Hu4).
  unfold op_update. apply wp_start. intros s0 junk Hj K. do 6 emit K. wp_step. wp_step; [exact Hs1|]. wp_step. wp_step; [exact Hu1|]. rewrite Hs3, Hu3. do 3 wp_step. rewrite (proj1 (proj2 K)).
  apply wp_int_sum; [side|]. wp_step. apply wp_int_sum; [side|]. rewrite <- !app_assoc in K. eapply wp_finish; [exact K|done|]. intros s2.
  wp_step. eapply wp_add_document; [done|done|]. wp_step. eapply wp_add_document; [done|done|]. wp_step.
  unfold msg, message. rewrite <- !app_assoc. apply split_eq. side.
Qed.

(** The documents of an insertion. *)
Definition docs_of (docs : documents) : list (option bytes) := match docs with DUser d => [Some d] | DTable l => l | DOther => [] end.

Lemma wp_document_length docs ds s (Q : Z -> bson -> Prop) :
  docs <> DOther -> Forall2 (fun o d => exists p, o = Some p /\ points_to p d) (docs_of docs) ds -> alen (mjoin ds) <= INT_MAX ->
  Q (alen (mjoin ds)) s -> wpd (document_length docs) Q s.
Proof.
  intros Hd H Hl HQ. destruct docs as [d|l|]; [| |done]; cbn [docs_of document_length] in *.
  - apply Forall2_cons_inv_l in H as (d' & l' & (p & E0 & Hp) & Hn & ->). injection E0 as <-. apply Forall2_nil_inv_l in Hn as ->. destruct (points_to_length _ _ Hp) as (E & _ & Es & _). wp_step. wp_step; [exact E|]. wp_step.
    rewrite Es. by rewrite mjoin_cons, app_nil_r in HQ.
  - enough (forall total fuel, 0 <= total -> total + alen (mjoin ds) <= INT_MAX -> (length l < fuel)%nat -> Q (total + alen (mjoin ds)) s ->
      wpd (loop fuel (fun '(l, total) => match l with [] => mret (inr total) | None :: _ => luaL_error "Invalid document"
        | Some d :: l => n ← deref OutOfBounds (get_length d); mret (inl (l, s32 (u32 total + n))) end) (l, total)) Q s) as Hg.
    { apply Hg; [lia|lia|lia|done]. }
    clear Hl HQ Hd. induction H as [|o d l ds (p & -> & Hp) _ IH]; intros total [|fuel] H0 Hl Hf HQ; cbn [length] in Hf; [lia| |lia|]; cbn [loop]; wp_step.
    + wp_step. change (alen (mjoin [])) with (alen ([] : bytes)) in HQ. by rewrite alen_nil, Z.add_0_r in HQ.
    + destruct (points_to_length _ _ Hp) as (E & _ & _ & Hd'). wp_step. wp_step; [exact E|]. wp_step. rewrite mjoin_cons, alen_app in *. pose proof (alen_nonneg (mjoin ds)).
      rewrite uwrap_small by (unfold INT_MAX in *; lia). rewrite swrap_small by (unfold in_s, INT_MAX in *; lia). apply IH; [lia|lia|lia|]. by rewrite Z.add_assoc in HQ.
Qed.

Lemma wp_add_documents l ds s (Q : bytes -> bson -> Prop) :
  Forall2 (fun o d => exists p, o = Some p /\ points_to p d) l ds -> Q (mjoin ds) s -> wpd (add_documents l) Q s.
Proof.
  intros H. revert Q. induction H as [|o d l ds (p & -> & Hp) _ IH]; intros Q HQ; cbn [add_documents]; [by wp_step|].
  destruct (points_to_length _ _ Hp) as (E & Es & _). wp_step. wp_step; [exact E|]. wp_step. wp_step; [exact Es|]. wp_step. apply IH. by wp_step.
Qed.

Lemma op_insert_message flags name docs ds b :
  docs <> DOther -> Forall2 (fun o d => exists p, o = Some p /\ points_to p d) (docs_of docs) ds -> alen name + alen (mjoin ds) + 64 <= wr_limit ->
  exists b', op_insert flags name docs b = Done (message 0 OP_INSERT (le_split 4 (s32 flags) ++ name ++ [z2b 0] ++ mjoin ds)) b'.
Proof.
  intros Hd H Hl. set (msg := message _ _ _). enough (wpd (op_insert flags name docs) (fun m _ => m = msg) b) as W.
  { apply wpd_Done in W as (m & b' & E & ->). eauto. }
  pose proof (alen_nonneg name). pose proof (alen_nonneg (mjoin ds)). unfold op_insert. wp_step. eapply wp_document_length; [done|done|side|].
  apply wp_start. intros s0 junk Hj K. do 5 emit K. do 3 wp_step. rewrite (proj1 (proj2 K)). apply wp_int_sum; [side|].
  rewrite <- !app_assoc in K. eapply wp_finish; [exact K|done|]. intros s2. wp_step. change (match docs with DUser d => [Some d] | DTable l => l | DOther => [] end) with (docs_of docs).
  eapply wp_add_documents; [done|]. wp_step. unfold msg, message. rewrite <- !app_assoc. apply split_eq. side.
Qed.

(** ** Replies *)

Definition reply_bytes (r : reply) (docs : list bytes) : bytes :=
  le_split 4 (request_id r) ++ le_split 4 (response_id r) ++ le_split 4 (opcode r) ++ le_split 4 (flags r) ++ cursor_id r ++
  le_split 4 (starting r) ++ le_split 4 (number r) ++ mjoin docs.

(** A reply without an error, with this number of documents. *)
Record reply_ok (r : reply) (n : Z) : Prop := {
  ok_response : in_s 32 (response_id r);
  ok_request : in_s 32 (request_id r);
  ok_opcode : in_s 32 (opcode r);
  ok_flags : in_s 32 (flags r) /\ Z.land (flags r) REPLY_QUERYFAILURE = 0;
  ok_cursor : alen (cursor_id r) = 8;
  ok_starting : in_s 32 (starting r);
  ok_number : number r = n /\ n < INT_MAX }.

(** Where the documents are. *)
Fixpoint positions (off : Z) (docs : list bytes) : list Z :=
  match docs with [] => [] | d :: docs => off :: positions (off + alen d) docs end.

Lemma length_positions off docs : length (positions off docs) = length docs.
Proof. revert off. induction docs as [|d docs IH]; intros off; [done|]. cbn. by rewrite IH. Qed.

Lemma positions_snoc off docs d : positions off (docs ++ [d]) = positions off docs ++ [off + alen (mjoin docs)].
Proof.
  revert off. induction docs as [|e docs IH]; intros off.
  - change (alen (mjoin [])) with (alen ([] : bytes)). cbn. by rewrite alen_nil, Z.add_0_r.
  - cbn [app positions]. rewrite IH, mjoin_cons, alen_app. cbn. do 3 f_equal. lia.
Qed.

Lemma int_at_mid a v c off : off = alen a -> in_s 32 v -> int_at (a ++ le_split 4 v ++ c) off = v.
Proof. intros -> Hv. unfold int_at. rewrite (slice_mid a (le_split 4 v) c) by (by rewrite ?alen_le_split). cbn. by apply combine_split_s. Qed.

Lemma reply_of_bytes r docs n : reply_ok r n -> 0 <= n -> reply_of (reply_bytes r docs) = r.
Proof.
  intros [H1 H2 H3 [H4 _] H5 H6 [H7 H8]] Hn. assert (in_s 32 (number r)) as H9 by (unfold in_s, INT_MAX in *; lia). unfold reply_of.
  assert (forall v, alen (le_split 4 v) = 4) as L4 by (intros v; apply alen_le_split).
  set (a0 := le_split 4 (request_id r)). set (a1 := le_split 4 (response_id r)). set (a2 := le_split 4 (opcode r)). set (a3 := le_split 4 (flags r)).
  set (a4 := le_split 4 (starting r)). set (a5 := le_split 4 (number r)).
  assert (alen a0 = 4 /\ alen a1 = 4 /\ alen a2 = 4 /\ alen a3 = 4 /\ alen a4 = 4 /\ alen a5 = 4) as (? & ? & ? & ? & ? & ?) by (split_and!; apply L4).
  assert (reply_bytes r docs = a0 ++ a1 ++ a2 ++ a3 ++ cursor_id r ++ a4 ++ a5 ++ mjoin docs) as E by done. rewrite E. clear E. destruct r as [q1 q2 q3 q4 q5 q6 q7]. cbn [request_id response_id opcode flags cursor_id starting number] in *. f_equal.
  - by apply (int_at_mid []).
  - by apply (int_at_mid a0).
  - rewrite app_assoc. apply (int_at_mid (a0 ++ a1)); [rewrite alen_app; lia|done].
  - rewrite 2!app_assoc. apply (int_at_mid ((a0 ++ a1) ++ a2)); [rewrite !alen_app; lia|done].
  - rewrite 3!app_assoc. by rewrite (slice_mid (((a0 ++ a1) ++ a2) ++ a3) q5) by (rewrite ?alen_app; lia).
  - rewrite 4!app_assoc. apply int_at_mid; [rewrite !alen_app; lia|done].
  - rewrite 5!app_assoc. apply int_at_mid; [rewrite !alen_app; lia|done].
Qed.

Lemma seti_next {A} (p t : list A) x i n : i = alen p + 1 -> n = length p -> seti i x (p ++ drop n t) = (p ++ [x]) ++ drop (S n) t.
Proof.
  intros -> ->. unfold seti. rewrite alen_app. destruct (drop (length p) t) as [|y r] eqn:E.
  - rewrite alen_nil. destruct (Z.leb_spec (alen p + 1) (alen p + 0)); [lia|]. rewrite app_nil_r.
    assert (drop (S (length p)) t = []) as -> by (replace (S (length p)) with (length p + 1)%nat by lia; by rewrite <- drop_drop, E). by rewrite app_nil_r.
  - assert (drop (S (length p)) t = r) as -> by (replace (S (length p)) with (length p + 1)%nat by lia; by rewrite <- drop_drop, E).
    rewrite alen_cons. pose proof (alen_nonneg r). destruct (Z.leb_spec (alen p + 1) (alen p + (alen r + 1))); [|lia].
    replace (Z.to_nat (alen p + 1 - 1)) with (length p + 0)%nat by (rewrite alen_length; lia). rewrite insert_app_r. cbn. by rewrite <- app_assoc.
Qed.

(** A document of a reply. *)
Definition is_doc (d : bytes) : Prop := 5 <= alen d /\ get_length d = Some (alen d).

Lemma wp_reply_docs data h docs t0 fuel Q :
  data = h ++ mjoin docs -> alen h = sizeof_reply -> Forall is_doc docs -> alen (mjoin docs) <= INT_MAX -> (length docs < fuel)%nat ->
  Q (alen docs + 1, 0) ((TLight <$> positions sizeof_reply docs) ++ drop (length docs) t0) ->
  wpd (loop fuel (fun '(i, doc, sz) =>
      if 4 <? sz then
        t ← get;
        put (seti i (TLight doc) t);;
        d ← deref OutOfBounds (slice data doc 4);
        let doc_len := s32 (le_combine d) in
        require SignedOverflow (bool_decide (in_s 32 (sz - doc_len)));;
        mret (inl (i + 1, doc + doc_len, sz - doc_len))
      else mret (inr (i, sz))) (1, sizeof_reply, alen (mjoin docs))) Q t0.
Proof.
  intros -> Hh Hd Hl Hf HQ.
  apply (wp_loop_rank (fun k '(i, doc, sz) t => exists pre todo, docs = pre ++ todo /\ k = length todo /\ i = alen pre + 1 /\ doc = sizeof_reply + alen (mjoin pre) /\
    sz = alen (mjoin todo) /\ t = (TLight <$> positions sizeof_reply pre) ++ drop (length pre) t0)) with (k := length docs); [| |done].
  - intros k [[i doc] sz] t (pre & todo & -> & -> & -> & -> & -> & ->). destruct todo as [|d todo].
    + change (alen (mjoin [])) with (alen ([] : bytes)). rewrite alen_nil, app_nil_r in *. change (4 <? 0) with false. cbv iota. by wp_step.
    + apply Forall_app in Hd as [_ Hd]. apply Forall_cons in Hd as [[H5 Hg] _]. rewrite mjoin_cons, join_app, mjoin_cons, !alen_app in *.
      pose proof (alen_nonneg (mjoin todo)). pose proof (alen_nonneg (mjoin pre)). destruct (Z.ltb_spec 4 (alen d + alen (mjoin todo))); [|lia].
      unfold get_length in Hg. destruct (slice d 0 4) as [g|] eqn:Es; [|done]. injection Hg as Hg. apply slice_Some in Es as (a & c & Ed & Ha & Hg4). apply alen_0 in Ha as ->. cbn [app] in Ed.
      do 5 wp_step. wp_step; [rewrite Ed, app_assoc, <- !app_assoc, app_assoc; apply slice_mid; [rewrite alen_app; lia|lia]|]. rewrite Hg.
      rewrite swrap_small by (unfold in_s, INT_MAX in *; lia). wp_step. wp_step; [apply bool_decide_eq_true_2; unfold in_s, INT_MAX in *; lia|]. wp_step.
      exists (length todo). split; [cbn; lia|]. exists (pre ++ [d]), todo. rewrite <- app_assoc, alen_snoc, mjoin_snoc, alen_app, length_app, positions_snoc, fmap_app.
      split_and!; [done|done|done|lia|lia|]. cbn [fmap list_fmap length]. rewrite Nat.add_1_r.
      apply seti_next; [rewrite alen_fmap, !alen_length, length_positions; lia|by rewrite length_fmap, length_positions].
  - exists [], docs. change (alen (mjoin [])) with (alen ([] : bytes)). rewrite alen_nil. split_and!; done.
Qed.

Lemma op_reply_docs r docs t0 :
  reply_ok r (alen docs) -> Forall is_doc docs -> alen (reply_bytes r docs) <= INT_MAX ->
  op_reply (reply_bytes r docs) true t0 =
  Done [TBool true; TInt (response_id r); if number r =? 0 then TNil else TLight sizeof_reply;
        if bool_decide (cursor_id r = replicate 8 (z2b 0)) then TNil else TStr (cursor_id r); TInt (starting r)]
    (TLight <$> positions sizeof_reply docs).
Proof.
  intros Hr Hd Hl. pose proof (alen_nonneg docs). pose proof (alen_nonneg (mjoin docs)). set (data := reply_bytes r docs) in *.
  set (h := take 32 data). assert (data = h ++ mjoin docs /\ alen h = sizeof_reply) as [Eh Hh].
  { destruct Hr as [_ _ _ _ H5 _ _]. assert (data = (le_split 4 (request_id r) ++ le_split 4 (response_id r) ++ le_split 4 (opcode r) ++ le_split 4 (flags r) ++ cursor_id r ++ le_split 4 (starting r) ++ le_split 4 (number r)) ++ mjoin docs) as E
      by (unfold data, reply_bytes; by rewrite <- !app_assoc). set (hh := le_split 4 (request_id r) ++ _) in E.
    assert (alen hh = 32) as Eh by (unfold hh; rewrite !alen_app, !alen_le_split; lia). unfold h. rewrite E. rewrite alen_length in Eh.
    rewrite take_app_length' by lia. split; [done|]. by rewrite alen_length. }
  assert (alen data = 32 + alen (mjoin docs)) as El by (rewrite Eh, alen_app, Hh; done).
  enough (wpd (op_reply data true) (fun a s => a = [TBool true; TInt (response_id r); if number r =? 0 then TNil else TLight sizeof_reply;
        if bool_decide (cursor_id r = replicate 8 (z2b 0)) then TNil else TStr (cursor_id r); TInt (starting r)] /\ s = TLight <$> positions sizeof_reply docs) t0) as W.
  { apply wpd_Done in W as (a & s & -> & -> & ->). done. }
  unfold op_reply. pose proof (reply_of_bytes r docs _ Hr ltac:(lia)) as Er. fold data in Er. rewrite Er. destruct Hr as [_ _ _ [_ Hfl] _ _ [Hn Hn2]]. cbv zeta. unfold sizeof_reply at 1. destruct (Z.ltb_spec (alen data) 32); [lia|].
  rewrite Hfl. change (negb (0 =? 0)) with false. cbv iota. rewrite (swrap_small 32 (alen data)), swrap_small by (unfold in_s, INT_MAX, sizeof_reply in *; lia).
  replace (alen data - sizeof_reply) with (alen (mjoin docs)) by (unfold sizeof_reply; lia). wp_step.
  eapply (wp_reply_docs data h docs); [done|done|done|lia| |].
  - rewrite Eh, length_app. pose proof (length_mjoin_ge id docs 1) as Hge. rewrite list_fmap_id in Hge.
    assert (forall x, x ∈ docs -> (1 <= length (id x))%nat) as Hx1 by (intros x Hx; rewrite Forall_forall in Hd; destruct (Hd x Hx) as [H5 _]; rewrite alen_length in H5; unfold id; lia). specialize (Hge Hx1). lia.
  - cbv beta iota. wp_step. wp_step; [apply bool_decide_eq_true_2; unfold in_s, INT_MAX in *; lia|]. rewrite Hn, Z.eqb_refl. cbn [negb]. do 4 wp_step. change (negb (0 =? 0)) with false. cbv iota. wp_step.
    split; [done|]. replace (alen docs + 1 - 1) with (alen docs) by lia. apply take_app_length'. rewrite length_fmap, length_positions, alen_length. lia.
Qed.

Lemma positions_drop h docs d i rest :
  docs !! i = Some d -> exists p post, positions (alen h) docs !! i = Some p /\ drop (Z.to_nat p) (h ++ mjoin docs ++ rest) = d ++ post.
Proof.
  revert h i. induction docs as [|e docs IH]; intros h [|i] Hi; [done..| |]; cbn [positions lookup list_lookup] in *; rewrite mjoin_cons.
  - injection Hi as ->. exists (alen h), (mjoin docs ++ rest). split; [done|]. rewrite alen_length, Nat2Z.id, drop_app_length. by rewrite <- app_assoc.
  - destruct (IH (h ++ e) i Hi) as (p & post & E1 & E2). rewrite alen_app in E1. exists p, post. split; [done|]. by rewrite <- E2, <- !app_assoc.
Qed.

Section tables.
Context (meta_len : Z -> option value).

Lemma enc_root_doc v : alen (enc_root meta_len v) <= INT_MAX -> is_doc (enc_root meta_len v).
Proof.
  unfold enc_root. set (els := enc_items _ _ _). rewrite alen_frame. intros Hl. pose proof (alen_nonneg els). split; [rewrite alen_frame; lia|].
  unfold get_length. rewrite alen_frame. unfold frame. rewrite slice_word. cbn. f_equal.
  apply combine_split_u. unfold INT_MAX in *. change (2 ^ (8 * Z.of_nat 4)) with (2 ^ 32). lia.
Qed.

(** C37: The documents of a reply reach Lua: [op_reply] puts a pointer to each of them into
    the table, in order, and each decodes to the table that it was made from. *)
Theorem reply_documents r vs t0 :
  let docs := enc_root meta_len <$> vs in
  let data := reply_bytes r docs in
  reply_ok r (alen vs) -> Forall (root_ok meta_len) vs -> alen data <= INT_MAX ->
  exists res ptrs, op_reply data true t0 = Done (TBool true :: TInt (response_id r) :: res) (TLight <$> ptrs) /\
    Forall2 (fun p v => ldecode (Some (drop (Z.to_nat p) data)) = Done (Some (norm_root meta_len v)) tt) ptrs vs.
Proof.
  intros docs data Hr Hv Hl. assert (alen docs = alen vs) as Ed by (unfold docs; by rewrite alen_fmap).
  assert (exists h, data = h ++ mjoin docs /\ alen h = sizeof_reply) as (h & Eh & Hh).
  { exists (le_split 4 (request_id r) ++ le_split 4 (response_id r) ++ le_split 4 (opcode r) ++ le_split 4 (flags r) ++ cursor_id r ++ le_split 4 (starting r) ++ le_split 4 (number r)).
    split; [unfold data, reply_bytes; by rewrite <- !app_assoc|]. rewrite !alen_app, !alen_le_split, (ok_cursor _ _ Hr). done. }
  assert (forall v, v ∈ vs -> alen (enc_root meta_len v) <= INT_MAX) as Hs.
  { intros v Hin. pose proof (length_mjoin_elem (enc_root meta_len) vs v Hin) as Hlen. rewrite Eh, alen_app in Hl. rewrite !alen_length in *. fold docs in Hlen. lia. }
  rewrite <- Ed in Hr. do 2 eexists. split; [apply op_reply_docs; [done| |done]|].
  - unfold docs. rewrite Forall_fmap, Forall_forall. intros v Hin. by apply enc_root_doc, Hs.
  - apply Forall2_same_length_lookup. split; [rewrite length_positions; unfold docs; by rewrite length_fmap|]. intros i p v Hp Hvi.
    destruct (positions_drop h docs (enc_root meta_len v) i []) as (p' & post & E1 & E2); [unfold docs; by rewrite list_lookup_fmap, Hvi|].
    rewrite Hh in E1. rewrite E1 in Hp. injection Hp as <-. rewrite app_nil_r, <- Eh in E2. rewrite E2. apply list_elem_of_lookup_2 in Hvi.
    rewrite Forall_forall in Hv. by apply ldecode_bytes; [apply Hv|apply Hs].
Qed.
End tables.

Lemma reply_documents_witness :
  let r := MkReply 1 2 1 0 (replicate 8 (z2b 0)) 0 2 in
  exists res ptrs, op_reply (reply_bytes r [block_of sample; block_of sample]) true [] = Done (TBool true :: TInt 2 :: res) (TLight <$> ptrs) /\
    Forall2 (fun p v => ldecode (Some (drop (Z.to_nat p) (reply_bytes r [block_of sample; block_of sample]))) = Done (Some (norm_root (fun _ => None) v)) tt) ptrs [sample; sample].
Proof.
  intros r. apply (reply_documents (fun _ => None) r [sample; sample] []).
  - split; unfold in_s; vm_compute; intuition discriminate.
  - constructor; [apply sample_ok|constructor; [apply sample_ok|constructor]].
  - vm_compute. discriminate.
Defined.

(** C38: Every request is a message whose first four bytes are its length, with the documents
    it was given behind its header, unchanged and in order. *)
Theorem requests_framed b :
  (forall id flags name skip number qp q sel s, points_to qp q -> match sel with None => s = [] | Some sp => points_to sp s end ->
     alen name + alen q + alen s + 64 <= wr_limit ->
     exists b', op_query id flags name skip number (Some qp) sel b =
       Done (message (s32 id) OP_QUERY (le_split 4 (s32 flags) ++ name ++ [z2b 0] ++ le_split 4 (s32 skip) ++ le_split 4 (s32 number) ++ q ++ s)) b') /\
  (forall flags name docs ds, docs <> DOther -> Forall2 (fun o d => exists p, o = Some p /\ points_to p d) (docs_of docs) ds ->
     alen name + alen (mjoin ds) + 64 <= wr_limit ->
     exists b', op_insert flags name docs b = Done (message 0 OP_INSERT (le_split 4 (s32 flags) ++ name ++ [z2b 0] ++ mjoin ds)) b') /\
  (forall name flags sp s up u, points_to sp s -> points_to up u -> alen name + alen s + alen u + 64 <= wr_limit ->
     exists b', op_update name flags (Some sp) (Some up) b = Done (message 0 OP_UPDATE (le_split 4 0 ++ name ++ [z2b 0] ++ le_split 4 (s32 flags) ++ s ++ u)) b') /\
  (forall name single sp s, points_to sp s -> alen name + alen s + 64 <= wr_limit ->
     exists b', op_delete name single (Some sp) b = Done (message 0 OP_DELETE (le_split 4 0 ++ name ++ [z2b 0] ++ le_split 4 (s32 single) ++ s)) b') /\
  (forall id name number cursor, alen cursor = 8 -> alen name + 64 <= wr_limit ->
     exists b', op_get_more id name number cursor b = Done (message (s32 id) OP_GET_MORE (le_split 4 0 ++ name ++ [z2b 0] ++ le_split 4 (s32 number) ++ cursor)) b') /\
  (forall cursor, alen cursor = 8 -> exists b', op_kill cursor b = Done (message 0 OP_KILL_CURSORS (le_split 4 0 ++ le_split 4 1 ++ cursor)) b').
Proof.
  split_and!; intros; [by apply op_query_message|by apply op_insert_message|by apply op_update_message|by apply op_delete_message|by apply op_get_more_message|by apply op_kill_message].
Qed.

Lemma requests_framed_witness :
  exists b', op_delete [z2b 97] 1 (Some (block_of sample)) buffer_create =
    Done (message 0 OP_DELETE (le_split 4 0 ++ [z2b 97] ++ [z2b 0] ++ le_split 4 1 ++ block_of sample)) b'.
Proof.
  destruct (requests_framed buffer_create) as (_ & _ & _ & H & _). apply (H [z2b 97] 1); [|vm_compute; discriminate].
  exists []. split; [by rewrite app_nil_r|]. vm_compute. intuition discriminate.
Defined.

(** A document of length 0 in a reply keeps the loop at its place: it never ends. *)
Example empty_document_diverges fuel i data sz t :
  4 < sz < INT_MAX -> slice data sizeof_reply 4 = Some (le_split 4 0) ->
  loop fuel (fun '(i, doc, sz) =>
      if 4 <? sz then
        t ← get;
        put (seti i (TLight doc) t);;
        d ← deref OutOfBounds (slice data doc 4);
        let doc_len := s32 (le_combine d) in
        require SignedOverflow (bool_decide (in_s 32 (sz - doc_len)));;
        mret (inl (i + 1, doc + doc_len, sz - doc_len))
      else mret (inr (i, sz))) (i, sizeof_reply, sz) t = (Fault OutOfFuel : outcome (list tree) (Z * Z)).
Proof.
  intros Hsz Hd. revert i t. induction fuel as [|fuel IH]; intros i t; [done|]. cbn [loop].
  destruct (Z.ltb_spec 4 sz); [|lia]. unfold get, put, deref, require, mbind, M_bind, mret, M_ret in *. rewrite Hd. change (s32 (le_combine (le_split 4 0))) with 0.
  rewrite !Z.sub_0_r, !Z.add_0_r, bool_decide_eq_true_2 by (unfold in_s, INT_MAX in *; lia). apply IH.
Qed.

(** A length that is shorter than four bytes is read behind its end. *)
Example short_length_overread : reply_length [z2b 1; z2b 2] tt = Fault OutOfBounds.
Proof. reflexivity. Qed.
