(* ===== verification/WordFilter.v ===== *)
(** * The word filter (lua-filter0.c)

    A trie of words, one UTF-8 character per level, and the scan of a text for the words in
    it. Every node is owned by the table of its parent, so that the trie is a tree of values;
    a table is the list of its entries, without a key twice. The positions in a text are ints,
    and the theorems are about words and texts of at most [INT_MAX] bytes. *)

From S2P Require Import Prelude Outcome Codec LuaValue.

Unset Elimination Schemes.

Inductive word_tree := Tree (tail : bool) (hash : list (bytes * word_tree)).

Set Elimination Schemes.

Definition tail (t : word_tree) : bool := let 'Tree b _ := t in b.
Definition hash (t : word_tree) : list (bytes * word_tree) := let 'Tree _ h := t in h.
Definition set_tail (b : bool) (t : word_tree) : word_tree := Tree b (hash t).

(** [kh_get] *)
Fixpoint kh_get (h : list (bytes * word_tree)) (k : bytes) : option word_tree :=
  match h with [] => None | (k', t) :: h => if bool_decide (k' = k) then Some t else kh_get h k end.

(** The table with [t] for the key [k]. *)
Fixpoint kh_set (h : list (bytes * word_tree)) (k : bytes) (t : word_tree) : list (bytes * word_tree) :=
  match h with
  | [] => [(k, t)]
  | (k', t') :: h => if bool_decide (k' = k) then (k, t) :: h else (k', t') :: kh_set h k t
  end.

Section ops.
Context {St : Type}.
Abbreviation Fm := (M St).

(** The number of bytes of a character by its first byte; none for a byte inside one. *)
Definition char_length (ch : Z) : option Z :=
  if Z.land ch 128 =? 0 then Some 1
  else if Z.land ch 252 =? 252 then Some 6
  else if Z.land ch 248 =? 248 then Some 5
  else if Z.land ch 240 =? 240 then Some 4
  else if Z.land ch 224 =? 224 then Some 3
  else if Z.land ch 192 =? 192 then Some 2
  else None.

(** The length of the first character that starts in [s], the rest of the string from [i] on. *)
Fixpoint split_utf8 (i : Z) (s : bytes) : Fm Z :=
  match s with
  | [] => crash AssertFail
  | c :: s =>
      match char_length (b2z c) with
      | Some n => mret n
      | None => require SignedOverflow (i + 1 <=? INT_MAX);; split_utf8 (i + 1) s
      end
  end.

(** The bytes of a string up to its zero. *)
Fixpoint c_string (s : bytes) : bytes :=
  match s with [] => [] | c :: s => if b2z c =? 0 then [] else c :: c_string s end.

(** The character at [i], which is copied from the string with its zero, and its length. All
    callers then compute [i + length], an int. *)
Definition take_char (word : bytes) (i : Z) : Fm (bytes * Z) :=
  length ← split_utf8 i (drop (Z.to_nat i) word);
  ch ← deref OutOfBounds (slice (word ++ [z2b 0]) i length);
  require SignedOverflow (i + length <=? INT_MAX);;
  mret (ch, length).

(** The trie below [t] with the rest of the word from [i] on. *)
Fixpoint add_from (fuel : nat) (word : bytes) (i : Z) (t : word_tree) : Fm word_tree :=
  match fuel with
  | O => crash OutOfFuel
  | S fuel =>
      if i <? alen word then
        '(ch, length) ← take_char word i;
        let i := i + length in
        match kh_get (hash t) (c_string ch) with
        | None =>
            next_tree ← add_from fuel word i (Tree (i =? alen word) []);
            mret (Tree (tail t) (kh_set (hash t) (c_string ch) next_tree))
        | Some child =>
            child ← add_from fuel word i (if i =? alen word then set_tail true child else child);
            mret (Tree (tail t) (kh_set (hash t) (c_string ch) child))
        end
      else mret t
  end.

Definition word_add (root_tree : word_tree) (word : bytes) : Fm word_tree := add_from (S (length word)) word 0 root_tree.

Fixpoint delete_from (fuel : nat) (word : bytes) (i : Z) (t : word_tree) : Fm word_tree :=
  match fuel with
  | O => crash OutOfFuel
  | S fuel =>
      if i <? alen word then
        '(ch, length) ← take_char word i;
        match kh_get (hash t) (c_string ch) with
        | Some child =>
            child ← delete_from fuel word (i + length) child;
            mret (Tree (tail t) (kh_set (hash t) (c_string ch) child))
        | None => mret t
        end
      else mret (set_tail false t)
  end.

Definition word_delete (root_tree : word_tree) (word : bytes) : Fm word_tree := delete_from (S (length word)) word 0 root_tree.
End ops.

(** [isspace], [iscntrl] or [ispunct], in the C locale *)
Definition skipped (c : Z) : bool :=
  (c =? 32) || ((0 <=? c) && (c <=? 31)) || (c =? 127) ||
  ((33 <=? c) && (c <=? 47)) || ((58 <=? c) && (c <=? 64)) || ((91 <=? c) && (c <=? 96)) || ((123 <=? c) && (c <=? 126)).

(** The variables of [word_filter]; [matching] is PHASE_MATCH. [filter_len] counts characters
    and is never more than the position. *)
Record filter_state := MkFilter {
  dest : bytes; dest_offset : Z; ftree : word_tree; filter_start : Z; filter_len : Z; founded : bool; matching : bool; pos : Z }.

Definition copy_out (s : bytes) (st : filter_state) : M unit filter_state :=
  d ← deref OutOfBounds (memcpy (dest st) (dest_offset st) s);
  require SignedOverflow (dest_offset st + alen s <=? INT_MAX);;
  mret (MkFilter d (dest_offset st + alen s) (ftree st) (filter_start st) (filter_len st) (founded st) (matching st) (pos st)).

(** What was matched: stars, or the text itself. *)
Definition flush (source : bytes) (st : filter_state) : M unit filter_state :=
  if founded st then copy_out (replicate (Z.to_nat (filter_len st)) (z2b 42)) st
  else
    s ← deref OutOfBounds (slice (source ++ [z2b 0]) (filter_start st) (pos st - filter_start st));
    copy_out s st.

(** One round of the loop: [inr None] is the early return of NULL. *)
Definition filter_step (root_tree : word_tree) (source : bytes) (replace : bool) (st : filter_state) : M unit (filter_state + option filter_state) :=
  let '(MkFilter d off t start len found m i) := st in
  if i <? alen source then
    '(word, length) ← take_char source i;
    let i := i + length in
    if negb m then
      match kh_get (hash t) (c_string word) with
      | Some t => mret (inl (MkFilter d off t (i - length) 1 (tail t) true i))
      | None =>
          st ← (if replace then copy_out word (MkFilter d off t start len found m i) else mret (MkFilter d off t start len found m i));
          mret (inl st)
      end
    else if (length =? 1) && skipped (b2z (default (z2b 0) (head word))) then mret (inl (MkFilter d off t start (len + 1) found m i))
    else
      match kh_get (hash t) (c_string word) with
      | Some t => mret (inl (MkFilter d off t start (len + 1) (found || tail t) m i))
      | None =>
          let st := MkFilter d off root_tree start len found false (i - length) in
          if replace then st ← flush source st; mret (inl st)
          else if found then mret (inr None)
          else mret (inl st)
      end
  else mret (inr (Some st)).

(** The result in place of [dest] and [replace_offset], [None] for NULL. A match that fails is
    read once more. *)
Definition word_filter (root_tree : word_tree) (source : bytes) (replace : bool) : M unit (option bytes) :=
  let copy := if replace then c_string source ++ [z2b 0] else [] in
  r ← loop (2 * length source + 2) (filter_step root_tree source replace) (MkFilter copy 0 root_tree 0 (-1) false false 0);
  match r with
  | None => mret None
  | Some st =>
      if negb replace then mret (Some source) else
      st ← flush source st;
      d ← deref OutOfBounds (slice (dest st) 0 (dest_offset st));
      mret (Some d)
  end.

(** The third argument is 1 when it is missing. *)
Definition lfilter (t : word_tree) (word : bytes) (replace : option Z) : M unit tree :=
  let replace := negb (s32 (default 1 replace) =? 0) in
  r ← word_filter t word replace;
  if negb replace then mret (TBool (match r with None => false | Some _ => true end))
  else mret (TStr (default [] r)).

(** The characters of a text. *)
Definition lsplit (word : bytes) : M unit (list bytes) :=
  loop (S (length word)) (fun '(i, l) =>
    if i <? alen word then
      '(ch, length) ← take_char word i;
      mret (inl (i + length, l ++ [ch]))
    else mret (inr l)) (0, []).

(** ** Characters *)

(** A character without a zero whose first byte tells its length. *)
Definition is_char (c : bytes) : Prop := Forall (fun b => b2z b <> 0) c /\ exists h r, c = h :: r /\ char_length (b2z h) = Some (alen c).

Lemma c_string_char c : is_char c -> c_string c = c.
Proof.
  intros [H _]. induction H as [|b c Hb H IH]; [done|]. cbn [c_string]. by rewrite (proj2 (Z.eqb_neq _ _) Hb), IH.
Qed.

Lemma mjoin_chars (c : bytes) cs : mjoin (c :: cs) = c ++ mjoin cs.
Proof. done. Qed.

Lemma c_string_text cs : Forall is_char cs -> c_string (mjoin cs) = mjoin cs.
Proof.
  intros H. assert (Forall (fun b => b2z b <> 0) (mjoin cs)) as Hz.
  { induction H as [|c cs [Hc _] H IH]; [constructor|]. rewrite mjoin_chars. by apply Forall_app. }
  clear H. induction Hz as [|b s Hb H IH]; [done|]. cbn [c_string]. by rewrite (proj2 (Z.eqb_neq _ _) Hb), IH.
Qed.

Lemma char_pos c : is_char c -> 0 < alen c.
Proof. intros (_ & h & r & -> & _). rewrite alen_cons. pose proof (alen_nonneg r). lia. Qed.

Lemma take_char_at {St} a c b (s : St) : is_char c -> alen a + alen c <= INT_MAX -> take_char (a ++ c ++ b) (alen a) s = Done (c, alen c) s.
Proof.
  intros (_ & h & r & -> & Hl) Hmax. unfold take_char. rewrite alen_length, Nat2Z.id, drop_app_length.
  rewrite (bind_Done _ _ (alen (h :: r)) s s) by (cbn [app split_utf8]; by rewrite Hl). rewrite <- !app_assoc, <- alen_length.
  rewrite (slice_mid a (h :: r)) by done. unfold require. by rewrite (proj2 (Z.leb_le _ _) Hmax).
Qed.

(** ** The trie as a set of words *)

(** The node that a path of characters leads to, and whether a word ends there. *)
Fixpoint walk (cs : list bytes) (t : word_tree) : option word_tree :=
  match cs with [] => Some t | c :: cs => match kh_get (hash t) c with Some t => walk cs t | None => None end end.

Definition has_word (cs : list bytes) (t : word_tree) : bool := match walk cs t with Some t => tail t | None => false end.

Lemma kh_get_set h k t k' : kh_get (kh_set h k t) k' = if bool_decide (k = k') then Some t else kh_get h k'.
Proof.
  induction h as [|[j u] h IH]; cbn [kh_set kh_get]; [done|]. destruct (bool_decide (j = k)) eqn:E.
  - apply bool_decide_eq_true_1 in E as ->. cbn [kh_get]. by case_bool_decide.
  - cbn [kh_get]. rewrite IH. apply bool_decide_eq_false_1 in E. repeat case_bool_decide; congruence.
Qed.

Definition is_end (cs : list bytes) : bool := match cs with [] => true | _ => false end.

(** The trie with the word [cs]. *)
Fixpoint add_chars (cs : list bytes) (t : word_tree) : word_tree :=
  match cs with
  | [] => t
  | c :: cs =>
      let child := match kh_get (hash t) c with None => Tree (is_end cs) [] | Some u => if is_end cs then set_tail true u else u end in
      Tree (tail t) (kh_set (hash t) c (add_chars cs child))
  end.

Fixpoint delete_chars (cs : list bytes) (t : word_tree) : word_tree :=
  match cs with
  | [] => set_tail false t
  | c :: cs => match kh_get (hash t) c with None => t | Some u => Tree (tail t) (kh_set (hash t) c (delete_chars cs u)) end
  end.

Lemma at_end cs done : Forall is_char cs -> (alen (mjoin done) =? alen (mjoin (done ++ cs))) = is_end cs.
Proof.
  intros H. rewrite join_app, alen_app. destruct H as [|c cs Hc H]; cbn [is_end]; [apply Z.eqb_eq; change (mjoin ([] : list bytes)) with ([] : bytes); rewrite alen_nil; lia|].
  apply Z.eqb_neq. rewrite mjoin_chars, alen_app. pose proof (char_pos c Hc). pose proof (alen_nonneg (mjoin cs)). lia.
Qed.

Lemma at_char {A} cs c (done : list bytes) (m m' : A) : is_char c -> (if alen (mjoin done) <? alen (mjoin (done ++ c :: cs)) then m else m') = m.
Proof.
  intros Hc. rewrite join_app, alen_app, mjoin_chars, alen_app. pose proof (char_pos c Hc). pose proof (alen_nonneg (mjoin cs)).
  by rewrite (proj2 (Z.ltb_lt _ _)) by lia.
Qed.

Lemma take_next {St} done c cs (s : St) :
  is_char c -> alen (mjoin (done ++ c :: cs)) <= INT_MAX -> take_char (mjoin (done ++ c :: cs)) (alen (mjoin done)) s = Done (c, alen c) s.
Proof.
  intros Hc. rewrite join_app, mjoin_chars, !alen_app. intros Hmax. pose proof (alen_nonneg (mjoin cs)). apply take_char_at; [done|lia].
Qed.

Lemma next_pos (done : list bytes) c : alen (mjoin done) + alen c = alen (mjoin (done ++ [c])).
Proof. rewrite join_app, alen_app, mjoin_chars. by rewrite app_nil_r. Qed.

Lemma add_from_chars {St} cs done fuel t (s : St) :
  Forall is_char cs -> alen (mjoin (done ++ cs)) <= INT_MAX -> (length cs < fuel)%nat -> add_from fuel (mjoin (done ++ cs)) (alen (mjoin done)) t s = Done (add_chars cs t) s.
Proof.
  revert done fuel t. induction cs as [|c cs IH]; intros done [|fuel] t Hcs Hmax Hf; try (cbn in Hf; lia); cbn [add_from].
  - by rewrite app_nil_r, Z.ltb_irrefl.
  - apply Forall_cons in Hcs as [Hc Hcs]. rewrite at_char by done. rewrite (bind_Done _ _ _ _ _ (take_next done c cs s Hc Hmax)).
    rewrite c_string_char, next_pos by done. cbn [add_chars].
    replace (done ++ c :: cs) with ((done ++ [c]) ++ cs) in * by (by rewrite <- app_assoc). rewrite (at_end cs (done ++ [c])) by done. cbn in Hf.
    destruct (kh_get (hash t) c) as [u|]; rewrite (bind_Done _ _ _ _ _ (IH (done ++ [c]) fuel _ Hcs Hmax ltac:(lia))); done.
Qed.

Lemma delete_from_chars {St} cs done fuel t (s : St) :
  Forall is_char cs -> alen (mjoin (done ++ cs)) <= INT_MAX -> (length cs < fuel)%nat -> delete_from fuel (mjoin (done ++ cs)) (alen (mjoin done)) t s = Done (delete_chars cs t) s.
Proof.
  revert done fuel t. induction cs as [|c cs IH]; intros done [|fuel] t Hcs Hmax Hf; try (cbn in Hf; lia); cbn [delete_from].
  - by rewrite app_nil_r, Z.ltb_irrefl.
  - apply Forall_cons in Hcs as [Hc Hcs]. rewrite at_char by done. rewrite (bind_Done _ _ _ _ _ (take_next done c cs s Hc Hmax)).
    rewrite c_string_char, next_pos by done. cbn [delete_chars]. destruct (kh_get (hash t) c) as [u|]; [|done].
    replace (done ++ c :: cs) with ((done ++ [c]) ++ cs) in * by (by rewrite <- app_assoc). cbn in Hf.
    by rewrite (bind_Done _ _ _ _ _ (IH (done ++ [c]) fuel _ Hcs Hmax ltac:(lia))).
Qed.

Lemma length_chars cs : Forall is_char cs -> (length cs <= length (mjoin cs))%nat.
Proof.
  induction 1 as [|c cs Hc H IH]; [done|]. rewrite mjoin_chars, length_app. cbn [length]. pose proof (char_pos c Hc) as Hp. rewrite alen_length in Hp. lia.
Qed.

Lemma word_add_chars {St} cs t (s : St) : Forall is_char cs -> alen (mjoin cs) <= INT_MAX -> word_add t (mjoin cs) s = Done (add_chars cs t) s.
Proof. intros H Hmax. apply (add_from_chars cs []); [done|done|]. pose proof (length_chars cs H). lia. Qed.

Lemma word_delete_chars {St} cs t (s : St) : Forall is_char cs -> alen (mjoin cs) <= INT_MAX -> word_delete t (mjoin cs) s = Done (delete_chars cs t) s.
Proof. intros H Hmax. apply (delete_from_chars cs []); [done|done|]. pose proof (length_chars cs H). lia. Qed.

Lemma has_word_set b h c u d cs : has_word (d :: cs) (Tree b (kh_set h c u)) = if bool_decide (c = d) then has_word cs u else has_word (d :: cs) (Tree b h).
Proof. unfold has_word. cbn [walk hash]. rewrite kh_get_set. by case_bool_decide. Qed.

Lemma add_chars_words cs t ds : cs <> [] -> has_word ds (add_chars cs t) = bool_decide (ds = cs) || has_word ds t.
Proof.
  revert t ds. induction cs as [|c cs IH]; intros t ds Hne; [done|]. cbn [add_chars]. destruct ds as [|d ds]; [by destruct t|].
  rewrite has_word_set. case_bool_decide as E; [subst d|].
  - assert (bool_decide (c :: ds = c :: cs) = bool_decide (ds = cs)) as -> by (apply bool_decide_ext; split; congruence).
    assert (has_word (c :: ds) t = match kh_get (hash t) c with Some u => has_word ds u | None => false end) as -> by (unfold has_word; cbn [walk]; by destruct (kh_get (hash t) c)).
    destruct cs as [|c' cs]; cbn [is_end].
    + cbn [add_chars]. destruct (kh_get (hash t) c) as [[b h]|]; destruct ds as [|d ds]; cbn; try done; unfold has_word; cbn; done.
    + rewrite IH by done. destruct (kh_get (hash t) c) as [u|]; [done|]. f_equal. by destruct ds.
  - rewrite bool_decide_eq_false_2 by congruence. by destruct t.
Qed.

Lemma delete_chars_words cs t ds : has_word ds (delete_chars cs t) = negb (bool_decide (ds = cs)) && has_word ds t.
Proof.
  revert t ds. induction cs as [|c cs IH]; intros t ds; cbn [delete_chars].
  - destruct t as [b h]. destruct ds as [|d ds]; [done|]. by rewrite bool_decide_eq_false_2 by done.
  - destruct (kh_get (hash t) c) as [u|] eqn:E.
    + destruct ds as [|d ds]; [by destruct t|]. rewrite has_word_set. case_bool_decide as Ed; [subst d|].
      * rewrite IH. assert (bool_decide (c :: ds = c :: cs) = bool_decide (ds = cs)) as -> by (apply bool_decide_ext; split; congruence).
        f_equal. unfold has_word. cbn [walk]. by rewrite E.
      * rewrite bool_decide_eq_false_2 by congruence. by destruct t.
    + case_bool_decide as Ed; [|done]. subst ds. unfold has_word. cbn [walk]. by rewrite E.
Qed.

(** ** A filter and the words it was given *)

Inductive op := Add (cs : list bytes) | Delete (cs : list bytes).

Definition op_ok (o : op) : Prop := match o with Add cs | Delete cs => Forall is_char cs /\ cs <> [] /\ alen (mjoin cs) <= INT_MAX end.

(** What [ladd] and [ldelete] do. *)
Definition run_op (o : op) (t : word_tree) : M unit word_tree :=
  match o with Add cs => word_add t (mjoin cs) | Delete cs => word_delete t (mjoin cs) end.

Fixpoint run_ops (l : list op) (t : word_tree) : M unit word_tree :=
  match l with [] => mret t | o :: l => t ← run_op o t; run_ops l t end.

(** The set of words, and the words that were ever added. *)
Definition words_op (s : gset (list bytes)) (o : op) : gset (list bytes) := match o with Add cs => {[cs]} ∪ s | Delete cs => s ∖ {[cs]} end.
Definition words_of (l : list op) : gset (list bytes) := foldl words_op ∅ l.
Definition was_added (l : list op) (cs : list bytes) : Prop := Add cs ∈ l.

Lemma walk_set b h c u d cs : walk (d :: cs) (Tree b (kh_set h c u)) = if bool_decide (c = d) then walk cs u else walk (d :: cs) (Tree b h).
Proof. cbn [walk hash]. rewrite kh_get_set. by case_bool_decide. Qed.

Lemma add_chars_path cs t ds : is_Some (walk ds (add_chars cs t)) -> ds `prefix_of` cs \/ is_Some (walk ds t).
Proof.
  revert t ds. induction cs as [|c cs IH]; intros t ds; cbn [add_chars]; [by right|]. destruct ds as [|d ds]; [left; apply prefix_nil|].
  rewrite walk_set. case_bool_decide as E; [subst d|right; by destruct t].
  intros [H|H]%IH; [left; by apply prefix_cons|]. cbn [walk]. destruct (kh_get (hash t) c) as [[b h]|]; [right|left].
  - destruct (is_end cs), ds; done.
  - destruct ds as [|d ds]; [apply prefix_cons, prefix_nil|by destruct H].
Qed.

Lemma delete_chars_path cs t ds : is_Some (walk ds (delete_chars cs t)) -> is_Some (walk ds t).
Proof.
  revert t ds. induction cs as [|c cs IH]; intros t ds; cbn [delete_chars]; [destruct t, ds; by cbn|].
  destruct (kh_get (hash t) c) as [u|] eqn:E; [|done]. destruct ds as [|d ds]; [done|]. rewrite walk_set. case_bool_decide as Ed; [subst d|by destruct t].
  intros H%IH. cbn [walk]. by rewrite E.
Qed.

(** The trie that the operations leave: its words are those of the set, its paths start words
    that were added. *)
Lemma run_ops_spec l b : Forall op_ok l ->
  exists t, run_ops l (Tree b []) tt = Done t tt /\ (forall cs, cs <> [] -> has_word cs t = bool_decide (cs ∈ words_of l)) /\
    forall cs, cs <> [] -> is_Some (walk cs t) -> exists w, was_added l w /\ cs `prefix_of` w.
Proof.
  intros Hl. unfold words_of, was_added.
  enough (forall t (s : gset (list bytes)) (P : list bytes -> Prop), (forall cs, cs <> [] -> has_word cs t = bool_decide (cs ∈ s)) ->
    (forall cs, cs <> [] -> is_Some (walk cs t) -> exists w, P w /\ cs `prefix_of` w) ->
    exists t', run_ops l t tt = Done t' tt /\ (forall cs, cs <> [] -> has_word cs t' = bool_decide (cs ∈ foldl words_op s l)) /\
      forall cs, cs <> [] -> is_Some (walk cs t') -> exists w, (P w \/ Add w ∈ l) /\ cs `prefix_of` w) as H.
  { destruct (H (Tree b []) ∅ (fun _ => False)) as (t & ? & ? & Hp).
    - intros [|c cs] ?; [done|]. by rewrite bool_decide_eq_false_2 by set_solver.
    - intros [|c cs] ? [? ?]; done.
    - exists t. split_and!; [done..|]. intros cs Hne Hw. destruct (Hp cs Hne Hw) as (w & [[]|?] & ?). eauto. }
  induction Hl as [|o l Ho Hl IH]; intros t s P Hs HP; [exists t; split_and!; [done..|]; intros cs Hne Hw; destruct (HP cs Hne Hw) as (w & ? & ?); eauto|].
  cbn [run_ops foldl]. destruct o as [cs|cs]; destruct Ho as (Hc & Hne & Hmax); cbn [run_op].
  - rewrite (bind_Done _ _ _ _ _ (word_add_chars cs t tt Hc Hmax)). destruct (IH (add_chars cs t) ({[cs]} ∪ s) (fun w => P w \/ w = cs)) as (t' & ? & ? & Hp).
    + intros ds Hds. rewrite add_chars_words, Hs by done. rewrite <- bool_decide_or. apply bool_decide_ext. set_solver.
    + intros ds Hds [H|H]%add_chars_path; [exists cs; by auto|]. destruct (HP ds Hds H) as (w & ? & ?). eauto.
    + exists t'. split_and!; [done..|]. intros ds Hds Hw. destruct (Hp ds Hds Hw) as (w & [[?| ->]|?] & ?); eexists; (split; [|done]); set_solver.
  - rewrite (bind_Done _ _ _ _ _ (word_delete_chars cs t tt Hc Hmax)). destruct (IH (delete_chars cs t) (s ∖ {[cs]}) P) as (t' & ? & ? & Hp).
    + intros ds Hds. rewrite delete_chars_words, Hs by done. rewrite <- bool_decide_not, <- bool_decide_and. apply bool_decide_ext. set_solver.
    + intros ds Hds H%delete_chars_path. by apply HP.
    + exists t'. split_and!; [done..|]. intros ds Hds Hw. destruct (Hp ds Hds Hw) as (w & [?|?] & ?); eexists; (split; [|done]); set_solver.
Qed.

(** ** The scan *)

(** A character that the scan passes over inside a word. *)
Definition separator (c : bytes) : bool := (alen c =? 1) && skipped (b2z (default (z2b 0) (head c))).

(** Whether the scan returns early: from the root, or inside a match. *)
Fixpoint scan (root : word_tree) (m : option (word_tree * bool)) (cs : list bytes) : bool :=
  match cs with
  | [] => false
  | c :: cs =>
      let search := match kh_get (hash root) c with Some t => scan root (Some (t, tail t)) cs | None => scan root None cs end in
      match m with
      | None => search
      | Some (t, found) =>
          if separator c then scan root m cs
          else match kh_get (hash t) c with
               | Some t => scan root (Some (t, found || tail t)) cs
               | None => if found then true else search
               end
      end
  end.

Definition at_scan (root : word_tree) (m : option (word_tree * bool)) (i : Z) (st : filter_state) : Prop :=
  pos st = i /\ matching st = (match m with Some _ => true | None => false end) /\ match m with Some (t, found) => ftree st = t /\ founded st = found | None => ftree st = root end.

Section steps.
Context (root : word_tree) (done cs : list bytes) (c : bytes) (Hc : is_char c) (Hmax : alen (mjoin (done ++ c :: cs)) <= INT_MAX).

Lemma step_search d off t start len found :
  filter_step root (mjoin (done ++ c :: cs)) false (MkFilter d off t start len found false (alen (mjoin done))) tt =
  Done (inl match kh_get (hash t) c with
            | Some u => MkFilter d off u (alen (mjoin done)) 1 (tail u) true (alen (mjoin (done ++ [c])))
            | None => MkFilter d off t start len found false (alen (mjoin (done ++ [c])))
            end) tt.
Proof.
  cbn [filter_step]. rewrite at_char by done. rewrite (bind_Done _ _ _ _ _ (take_next done c cs tt Hc Hmax)). rewrite c_string_char, next_pos by done. cbn [negb].
  rewrite <- next_pos. replace (alen (mjoin done) + alen c - alen c) with (alen (mjoin done)) by lia. by destruct (kh_get (hash t) c).
Qed.

Lemma step_match d off t start len found :
  filter_step root (mjoin (done ++ c :: cs)) false (MkFilter d off t start len found true (alen (mjoin done))) tt =
  Done (if separator c then inl (MkFilter d off t start (len + 1) found true (alen (mjoin (done ++ [c]))))
        else match kh_get (hash t) c with
             | Some u => inl (MkFilter d off u start (len + 1) (found || tail u) true (alen (mjoin (done ++ [c]))))
             | None => if found then inr None else inl (MkFilter d off root start len found false (alen (mjoin done)))
             end) tt.
Proof.
  cbn [filter_step]. rewrite at_char by done. rewrite (bind_Done _ _ _ _ _ (take_next done c cs tt Hc Hmax)). rewrite c_string_char, next_pos by done. cbn [negb].
  fold (separator c). destruct (separator c); [done|]. destruct (kh_get (hash t) c); [done|].
  rewrite <- next_pos. replace (alen (mjoin done) + alen c - alen c) with (alen (mjoin done)) by lia. by destruct found.
Qed.

Lemma step_copy d off t start len found :
  kh_get (hash t) c = None ->
  filter_step root (mjoin (done ++ c :: cs)) true (MkFilter d off t start len found false (alen (mjoin done))) tt =
  (st ← copy_out c (MkFilter d off t start len found false (alen (mjoin (done ++ [c])))); mret (inl st)) tt.
Proof.
  intros H. cbn [filter_step]. rewrite at_char by done. rewrite (bind_Done _ _ _ _ _ (take_next done c cs tt Hc Hmax)). rewrite c_string_char, next_pos by done. cbn [negb].
  by rewrite H.
Qed.
End steps.

Lemma step_end root text r st : pos st = alen text -> filter_step root text r st tt = Done (inr (Some st)) tt.
Proof. destruct st as [d off t start len found m i]. cbn. intros ->. by rewrite Z.ltb_irrefl. Qed.

Lemma snoc_chars {A} (done : list A) c cs : done ++ c :: cs = (done ++ [c]) ++ cs.
Proof. by rewrite <- app_assoc. Qed.

Lemma scan_loop root cs : forall done m st fuel,
  Forall is_char cs -> alen (mjoin (done ++ cs)) <= INT_MAX -> at_scan root m (alen (mjoin done)) st -> (2 * length cs + 1 < fuel)%nat ->
  exists st', loop fuel (filter_step root (mjoin (done ++ cs)) false) st tt = Done (if scan root m cs then None else Some st') tt.
Proof.
  induction cs as [|c cs IH]; intros done m st fuel Hcs Hmax Hst Hf; destruct fuel as [|fuel]; try lia; cbn [loop].
  { exists st. rewrite app_nil_r. destruct Hst as (Hi & _). by rewrite (bind_Done _ _ _ _ _ (step_end root (mjoin done) false st Hi)). }
  destruct st as [d off t start len found mt i]. destruct Hst as (Hi & Hm & Ht). cbn [pos matching ftree founded] in *. subst i.
  apply Forall_cons in Hcs as [Hc Hcs]. cbn [length] in Hf.
  assert (forall fuel d off start len found, (2 * length cs + 2 < S fuel)%nat ->
    exists st', loop (S fuel) (filter_step root (mjoin (done ++ c :: cs)) false) (MkFilter d off root start len found false (alen (mjoin done))) tt =
      Done (if scan root None (c :: cs) then None else Some st') tt) as Hsearch.
  { intros fuel' d' off' start' len' found' Hf'. cbn [loop]. rewrite (bind_Done _ _ _ _ _ (step_search root done cs c Hc Hmax d' off' root start' len' found')). cbn [scan].
    rewrite snoc_chars in *. destruct (kh_get (hash root) c) as [u|]; [apply (IH (done ++ [c]) (Some (u, tail u)))|apply (IH (done ++ [c]) None)]; try done; lia. }
  destruct m as [[t' found']|]; subst mt.
  - destruct Ht as [-> ->]. rewrite (bind_Done _ _ _ _ _ (step_match root done cs c Hc Hmax d off t' start len found')). cbn [scan].
    destruct (separator c); [rewrite snoc_chars in *; apply (IH (done ++ [c]) (Some (t', found'))); [done|done|done|lia]|].
    destruct (kh_get (hash t') c) as [u|]; [rewrite snoc_chars in *; apply (IH (done ++ [c]) (Some (u, found' || tail u))); [done|done|done|lia]|].
    destruct found'; [by exists (MkFilter d off root start len false false 0)|]. destruct fuel as [|fuel]; [lia|]. apply Hsearch. lia.
  - subst t. apply (Hsearch fuel). lia.
Qed.

(** In this mode the text is only checked. *)
Lemma word_filter_scan root cs : Forall is_char cs -> alen (mjoin cs) <= INT_MAX ->
  word_filter root (mjoin cs) false tt = Done (if scan root None cs then None else Some (mjoin cs)) tt.
Proof.
  intros Hcs Hmax. unfold word_filter. cbv zeta. pose proof (length_chars cs Hcs).
  destruct (scan_loop root cs [] None (MkFilter [] 0 root 0 (-1) false false 0) (2 * length (mjoin cs) + 2) Hcs Hmax) as (st & Hl); [done|lia|].
  cbn [app] in Hl. rewrite (bind_Done _ _ _ _ _ Hl). by destruct (scan root None cs).
Qed.

(** ** What is found *)

(** The word that a stretch of text spells: its characters without the separators behind the
    first. *)
Definition spelled (c : bytes) (mid : list bytes) : list bytes := c :: List.filter (fun x => negb (separator x)) mid.

Definition contains (root : word_tree) (text : list bytes) : Prop :=
  exists pre c mid post, text = pre ++ c :: mid ++ post /\ has_word (spelled c mid) root = true.

Lemma contains_app root a b : contains root a -> contains root (a ++ b).
Proof. intros (pre & c & mid & post & -> & H). exists pre, c, mid, (post ++ b). split; [|done]. by rewrite <- app_assoc, <- app_comm_cons, <- app_assoc. Qed.

Lemma walk_snoc cs c t : walk (cs ++ [c]) t = walk cs t ≫= fun u => kh_get (hash u) c.
Proof. revert t. induction cs as [|d cs IH]; intros t; cbn; [by destruct (kh_get (hash t) c)|]. by destruct (kh_get (hash t) d). Qed.

Lemma spelled_snoc c mid d : spelled c (mid ++ [d]) = if separator d then spelled c mid else spelled c mid ++ [d].
Proof. unfold spelled. rewrite List.filter_app. cbn [List.filter]. destruct (separator d); cbn [negb]; [by rewrite app_nil_r|done]. Qed.

(** Inside a match the node is where the text since its start leads. *)
Definition on_path (root : word_tree) (m : option (word_tree * bool)) (past : list bytes) : Prop :=
  match m with
  | None => True
  | Some (t, found) => (found = true -> contains root past) /\ exists pre c mid, past = pre ++ c :: mid /\ walk (spelled c mid) root = Some t
  end.

Lemma contains_here root pre c mid t : walk (spelled c mid) root = Some t -> tail t = true -> contains root (pre ++ c :: mid).
Proof. intros Hw Ht. exists pre, c, mid, []. rewrite app_nil_r. split; [done|]. unfold has_word. by rewrite Hw. Qed.

Lemma on_path_start root past c u : kh_get (hash root) c = Some u -> on_path root (Some (u, tail u)) (past ++ [c]).
Proof.
  intros H. assert (walk (spelled c []) root = Some u) as Hw by (cbn; by rewrite H). split; [by apply (contains_here root past c [] u)|]. by exists past, c, [].
Qed.

Lemma scan_sound root cs : forall past m, on_path root m past -> scan root m cs = true -> contains root (past ++ cs).
Proof.
  induction cs as [|c cs IH]; intros past m Hm Hs; [done|]. rewrite snoc_chars.
  assert (match kh_get (hash root) c with Some t => scan root (Some (t, tail t)) cs | None => scan root None cs end = true -> contains root ((past ++ [c]) ++ cs)) as Hsearch.
  { destruct (kh_get (hash root) c) as [u|] eqn:E; [apply (IH _ (Some (u, tail u))); by apply on_path_start|by apply (IH _ None)]. }
  cbn [scan] in Hs. destruct m as [[t found]|]; [|by apply Hsearch]. destruct Hm as [Hfound (pre & c0 & mid & -> & Hw)].
  destruct (separator c) eqn:Es.
  - apply (IH _ (Some (t, found))); [|done]. split; [intros; by apply contains_app, Hfound|]. exists pre, c0, (mid ++ [c]).
    split; [by rewrite <- app_assoc|]. by rewrite spelled_snoc, Es.
  - destruct (kh_get (hash t) c) as [u|] eqn:E; [|destruct found; [by do 2 apply contains_app; apply Hfound|by apply Hsearch]].
    assert (walk (spelled c0 (mid ++ [c])) root = Some u) as Hw' by (rewrite spelled_snoc, Es, walk_snoc, Hw; done).
    assert ((pre ++ c0 :: mid) ++ [c] = pre ++ c0 :: mid ++ [c]) as Ea by (by rewrite <- app_assoc).
    apply (IH _ (Some (u, found || tail u))); [|done]. split; [|exists pre, c0, (mid ++ [c]); by rewrite Ea].
    intros [H|H]%orb_prop; [by apply contains_app, Hfound|]. rewrite Ea. by apply (contains_here root pre c0 (mid ++ [c]) u).
Qed.

(** A match that reaches a word and then a character that leads nowhere. *)
Lemma scan_word root w : forall t u found d post, walk w t = Some u -> Forall (fun c => separator c = false) w -> separator d = false -> kh_get (hash u) d = None ->
  found = true \/ (w <> [] /\ tail u = true) -> scan root (Some (t, found)) (w ++ d :: post) = true.
Proof.
  induction w as [|c w IH]; intros t u found d post Hw Hsep Hd Hu Hf; cbn [app scan].
  - injection Hw as ->. rewrite Hd, Hu. by destruct Hf as [->|[? _]].
  - apply Forall_cons in Hsep as [-> Hsep]. cbn [walk] in Hw. destruct (kh_get (hash t) c) as [t'|]; [|done].
    apply (IH t' u); try done. destruct Hf as [->|[_ Hu']]; [by left|]. destruct w as [|c' w]; [|by right]. injection Hw as ->. left. by rewrite Hu', orb_true_r.
Qed.

Lemma scan_skip root pre cs : (forall c, c ∈ pre -> kh_get (hash root) c = None) -> scan root None (pre ++ cs) = scan root None cs.
Proof. induction pre as [|c pre IH]; intros H; [done|]. cbn [app scan]. rewrite (H c) by set_solver. apply IH. set_solver. Qed.

Lemma scan_complete root pre c w d post :
  (forall c, c ∈ pre -> kh_get (hash root) c = None) -> has_word (c :: w) root = true -> Forall (fun c => separator c = false) w -> separator d = false ->
  walk ((c :: w) ++ [d]) root = None -> scan root None (pre ++ (c :: w) ++ d :: post) = true.
Proof.
  intros Hpre Hw Hsep Hd Hn. rewrite scan_skip by done. rewrite walk_snoc in Hn. unfold has_word in Hw. cbn [app scan walk] in *.
  destruct (kh_get (hash root) c) as [t|]; [|done]. destruct (walk w t) as [u|] eqn:E; [|done]. apply (scan_word root w t u); try done.
  destruct w as [|c' w]; [left; by injection E as ->|by right].
Qed.

(** No character of [cs] starts a word that was added. *)
Definition no_start (l : list op) (cs : list bytes) : Prop := forall c w, c ∈ cs -> was_added l w -> head w <> Some c.

Lemma no_start_root l cs t :
  (forall cs, cs <> [] -> is_Some (walk cs t) -> exists w, was_added l w /\ cs `prefix_of` w) -> no_start l cs -> forall c, c ∈ cs -> kh_get (hash t) c = None.
Proof.
  intros Hp Hn c Hc. destruct (kh_get (hash t) c) as [u|] eqn:E; [|done]. destruct (Hp [c]) as (w & Hw & [k Hk]); [done|cbn; by rewrite E|].
  destruct (Hn c w Hc Hw). by rewrite Hk.
Qed.

(** C40: After any additions and deletions of words, a check of a text refuses it only if it
    contains one of the words, perhaps with separators between its characters; and it refuses
    every text in which a word without separators behind its first character is followed by a
    character that is no separator and continues no added word, if no character before the word
    starts an added one. Words and text are sequences of whole characters without zeros, of at
    most [INT_MAX] bytes each. [separator_word_passes] shows that a word with a separator inside
    is never found. *)
Theorem filter_check l b cs :
  Forall op_ok l -> Forall is_char cs -> alen (mjoin cs) <= INT_MAX ->
  exists t r, run_ops l (Tree b []) tt = Done t tt /\ lfilter t (mjoin cs) (Some 0) tt = Done (TBool r) tt /\
    (r = false -> exists pre c mid post, cs = pre ++ c :: mid ++ post /\ spelled c mid ∈ words_of l) /\
    (forall pre c w d post, cs = pre ++ (c :: w) ++ d :: post -> c :: w ∈ words_of l -> no_start l pre ->
       Forall (fun c => separator c = false) (w ++ [d]) -> (forall w', was_added l w' -> ~ (c :: w) ++ [d] `prefix_of` w') -> r = false).
Proof.
  intros Hl Hcs Hmax. destruct (run_ops_spec l b Hl) as (t & Ht & Hw & Hp). exists t, (negb (scan t None cs)). split_and!; [done|..].
  - unfold lfilter. cbv zeta. change (negb (s32 (default 1 (Some 0)) =? 0)) with false. rewrite (bind_Done _ _ _ _ _ (word_filter_scan t cs Hcs Hmax)). by destruct (scan t None cs).
  - intros Hs%negb_false_iff. destruct (scan_sound t cs [] None I Hs) as (pre & c & mid & post & ? & H). rewrite Hw in H by done. apply bool_decide_eq_true_1 in H. eauto 6.
  - intros pre c w d post -> Hin Hn [Hsep Hd]%Forall_app Hno. apply negb_false_iff, scan_complete; [by eapply no_start_root| |done| |].
    + rewrite Hw by done. by apply bool_decide_eq_true_2.
    + by apply Forall_cons in Hd as [? _].
    + destruct (walk _ t) as [u|] eqn:E; [|done]. destruct (Hp ((c :: w) ++ [d])) as (w' & ? & ?); [done|by rewrite E|]. by destruct (Hno w').
Qed.

(** ** The text that is written *)

Lemma copy_out_same text done c cs t start len found m i :
  text = mjoin (done ++ c :: cs) ++ [z2b 0] -> alen (mjoin (done ++ c :: cs)) <= INT_MAX ->
  copy_out c (MkFilter text (alen (mjoin done)) t start len found m i) tt = Done (MkFilter text (alen (mjoin (done ++ [c]))) t start len found m i) tt.
Proof.
  intros -> Hmax. unfold copy_out. cbn [dest dest_offset ftree filter_start filter_len founded matching pos]. rewrite <- next_pos.
  rewrite join_app, mjoin_chars, <- !app_assoc. rewrite memcpy_mid by done. unfold require.
  rewrite join_app, mjoin_chars, !alen_app in Hmax. pose proof (alen_nonneg (mjoin cs)). by rewrite (proj2 (Z.leb_le _ _)) by lia.
Qed.

(** A text in which nothing is found is copied, character by character. *)
Lemma copy_loop root cs : forall done start len fuel,
  Forall is_char cs -> alen (mjoin (done ++ cs)) <= INT_MAX -> (forall c, c ∈ cs -> kh_get (hash root) c = None) -> (length cs < fuel)%nat ->
  let text := mjoin (done ++ cs) in
  loop fuel (filter_step root text true) (MkFilter (text ++ [z2b 0]) (alen (mjoin done)) root start len false false (alen (mjoin done))) tt =
  Done (Some (MkFilter (text ++ [z2b 0]) (alen text) root start len false false (alen text))) tt.
Proof.
  induction cs as [|c cs IH]; intros done start len fuel Hcs Hmax Hr Hf text; destruct fuel as [|fuel]; try (cbn in Hf; lia); cbn [loop].
  - rewrite (bind_Done _ _ (inr (Some (MkFilter (text ++ [z2b 0]) (alen (mjoin done)) root start len false false (alen (mjoin done))))) tt tt).
    + unfold text. by rewrite app_nil_r.
    + apply step_end. unfold text. by rewrite app_nil_r.
  - apply Forall_cons in Hcs as [Hc Hcs]. rewrite (bind_Done _ _ (inl (MkFilter (text ++ [z2b 0]) (alen (mjoin (done ++ [c]))) root start len false false (alen (mjoin (done ++ [c]))))) tt tt).
    + unfold text. rewrite snoc_chars. apply IH; [done|by rewrite <- snoc_chars|set_solver|cbn in Hf; lia].
    + unfold text at 1. rewrite step_copy by (set_solver || done). by rewrite (bind_Done _ _ _ _ _ (copy_out_same (text ++ [z2b 0]) done c cs root start len false false _ eq_refl Hmax)).
Qed.

(** The default mode, which replaces words by stars, writes behind its buffer for every text
    of two or more bytes none of whose characters starts a word: what was copied is appended
    once more. *)
Theorem replace_overflows l b cs :
  Forall op_ok l -> Forall is_char cs -> no_start l cs -> 2 <= alen (mjoin cs) <= INT_MAX ->
  exists t, run_ops l (Tree b []) tt = Done t tt /\ lfilter t (mjoin cs) None tt = Fault OutOfBounds.
Proof.
  intros Hl Hcs Hn H2. destruct (run_ops_spec l b Hl) as (t & Ht & _ & Hp). exists t. split; [done|]. pose proof (no_start_root l cs t Hp Hn) as Hroot.
  unfold lfilter. cbv zeta. change (negb (s32 (default 1 None) =? 0)) with true. apply bind_Fault. unfold word_filter. cbv zeta. rewrite c_string_text by done.
  pose proof (length_chars cs Hcs). rewrite (bind_Done _ _ _ _ _ (copy_loop t cs [] 0 (-1) (2 * length (mjoin cs) + 2) Hcs (proj2 H2) Hroot ltac:(lia))). cbn [negb app]. apply bind_Fault.
  unfold flush. cbn [founded filter_start pos]. rewrite Z.sub_0_r. assert (slice (mjoin cs ++ [z2b 0]) 0 (alen (mjoin cs)) = Some (mjoin cs)) as -> by (by apply (slice_mid [] (mjoin cs) [z2b 0])).
  change (deref OutOfBounds (Some (mjoin cs))) with (mret (mjoin cs) : M unit bytes). rewrite (bind_Done _ _ (mjoin cs) tt tt) by done.
  unfold copy_out. cbn [dest dest_offset]. apply bind_Fault. rewrite memcpy_over; [done|]. rewrite alen_app. change (alen [z2b 0]) with 1. lia.
Qed.

(** ** Runs *)

(** The characters of an ASCII text. *)
Definition chars (s : string) : list bytes := (fun c => [z2b (Z.of_nat (Ascii.nat_of_ascii c))]) <$> String.list_ascii_of_string s.

Definition char_ok (c : bytes) : bool :=
  forallb (fun b => negb (b2z b =? 0)) c && match c with h :: _ => bool_decide (char_length (b2z h) = Some (alen c)) | [] => false end.

Lemma chars_ok cs : forallb char_ok cs = true -> Forall is_char cs.
Proof.
  rewrite forallb_forall. intros H. apply Forall_forall. intros c Hc%list_elem_of_In. specialize (H c Hc). unfold char_ok in H. apply andb_true_iff in H as [Hz Hl]. split.
  - rewrite forallb_forall in Hz. apply Forall_forall. intros b Hb%list_elem_of_In. specialize (Hz b Hb). by apply negb_true_iff, Z.eqb_neq in Hz.
  - destruct c as [|h r]; [done|]. apply bool_decide_eq_true_1 in Hl. by exists h, r.
Qed.

Definition some_ops : list op := [Add (chars "bad"); Add (chars "xy"); Delete (chars "xy")].

Lemma some_ops_ok : Forall op_ok some_ops.
Proof.
  assert (forall s, forallb char_ok (chars s) = true -> chars s <> [] -> alen (mjoin (chars s)) <= INT_MAX -> op_ok (Add (chars s)) /\ op_ok (Delete (chars s))) as H by (intros s Hs Hn ?; by split; (split; [apply chars_ok|])).
  apply Forall_cons; split; [by apply (H "bad"%string)|]. apply Forall_cons; split; [by apply (H "xy"%string)|]. apply Forall_cons; split; [by apply (H "xy"%string)|]. constructor.
Qed.

(** The text is refused; the second part of the theorem applies to it. *)
Lemma filter_check_witness :
  (chars "a badge" = chars "a " ++ chars "bad" ++ [z2b 103] :: chars "e" /\ chars "bad" ∈ words_of some_ops) /\
  exists t r, run_ops some_ops (Tree true []) tt = Done t tt /\ lfilter t (mjoin (chars "a badge")) (Some 0) tt = Done (TBool r) tt /\
    (r = false -> exists pre c mid post, chars "a badge" = pre ++ c :: mid ++ post /\ spelled c mid ∈ words_of some_ops) /\
    (forall pre c w d post, chars "a badge" = pre ++ (c :: w) ++ d :: post -> c :: w ∈ words_of some_ops -> no_start some_ops pre ->
       Forall (fun c => separator c = false) (w ++ [d]) -> (forall w', was_added some_ops w' -> ~ (c :: w) ++ [d] `prefix_of` w') -> r = false).
Proof.
  split.
  - split; [vm_compute; reflexivity|]. unfold some_ops, words_of. cbn [foldl words_op]. apply elem_of_difference. split; [set_solver|].
    rewrite elem_of_singleton. vm_compute. discriminate.
  - apply (filter_check some_ops true (chars "a badge")); [exact some_ops_ok|apply chars_ok; vm_compute; reflexivity|vm_compute; discriminate].
Defined.

Lemma replace_overflows_witness :
  exists t, run_ops some_ops (Tree true []) tt = Done t tt /\ lfilter t (mjoin (chars "hello")) None tt = Fault OutOfBounds.
Proof.
  apply (replace_overflows some_ops true (chars "hello")).
  - exact some_ops_ok.
  - apply chars_ok. vm_compute. reflexivity.
  - intros c w Hc Hw E. unfold was_added, some_ops in Hw. rewrite !elem_of_cons in Hw. destruct Hw as [Hw|[Hw|[Hw|Hw]]]; [..|by apply elem_of_nil in Hw];
      [injection Hw as ->|injection Hw as ->|discriminate]; vm_compute in E; injection E as <-; vm_compute in Hc; repeat (apply elem_of_cons in Hc as [Hc|Hc]; [discriminate|]); by apply elem_of_nil in Hc.
  - vm_compute. split; discriminate.
Defined.

Definition checked (l : list op) (text : string) : outcome unit tree := (t ← run_ops l (Tree false []); lfilter t (mjoin (chars text)) (Some 0)) tt.

(** A word at the end of the text is not found. *)
Example word_at_end_passes : checked [Add (chars "bad")] "a bad" = Done (TBool true) tt.
Proof. vm_compute. reflexivity. Qed.

(** After a match that fails the scan goes on where it failed: a word that starts inside the match
    is not found. *)
Example overlap_passes : checked [Add (chars "aab")] "aaabx" = Done (TBool true) tt.
Proof. vm_compute. reflexivity. Qed.

(** A word with a separator in it is never found. *)
Example separator_word_passes : checked [Add (chars "a-b")] "a-bx" = Done (TBool true) tt.
Proof. vm_compute. reflexivity. Qed.

(** A byte that is no character fails an assertion. *)
Example bad_byte_aborts : word_filter (Tree false []) [z2b 128] false tt = Fault AssertFail.
Proof. vm_compute. reflexivity. Qed.

(** A character that is cut off is read behind the end of the string. *)
Example cut_char_overread : word_filter (Tree false []) [z2b 228] false tt = Fault OutOfBounds.
Proof. vm_compute. reflexivity. Qed.
